(* ===== verification/_CoqProject ===== *)
-Q . S2P
Prelude.v
Interfaces.v
F64.v
Block.v
Merkle.v
Mmr.v
Filter.v
Frame.v
Wal.v
Store.v
Recovery.v
Compress.v
FountainSig.v
Receiver.v
Gf256.v
GfVec.v
Gauss.v
LinAlg.v
Fountain.v
FountainCorrect.v
ReedSolomon.v
Rlnc.v
Hierarchical.v
Encoder.v
Bulk.v
Shim.v
Protocol.v
ColdStart.v
Web.v
Failover.v
Sidecar.v
SidecarCorrect.v
SidecarServe.v
Lifecycle.v
ChatClient.v
Synchronize.v
SyncLive.v
Pruner.v
Prune.v
PruneSched.v
Flow.v
Pipeline.v
Transport.v
Zeckendorf.v
Homohash.v
Placement.v
Cayley.v
Control.v
Examples.v
ChatExamples.v
