(* ===== verification/Prelude.v ===== *)
(** * DLR: verification of the append-log replication workspace

    DLR replicates the growing context of an agent session.  A client keeps the
    session as a log of content-addressed blocks and sends only what the other
    side lacks; the receiver rebuilds the log, acknowledges its Merkle root and
    makes it durable; a sidecar rebuilds chat requests from the log and forwards
    them.  This library models the crates under [src/crates/] and proves what
    makes them correct.

    ** The program and the files that model it

    Core ([core/src]):
    - [block.rs], [canonical.rs]: blocks, canonical bytes, content ids: [Block].
    - [merkle.rs]: the linear root of a log: [Merkle].  [mmr.rs]: the mountain
      range with inclusion proofs: [Mmr].
    - [frame.rs]: the wire frames APPEND, ACK, RESYNC, BULK and their codec: [Frame].
    - [filter.rs]: the cuckoo filter the shim uses for deduplication: [Filter].
    - [wal.rs], [store.rs]: the write-ahead log and the content store: [Wal],
      [Store]; opening, tail repair and replay: [Recovery].
    - [session.rs]: the shard of a session: [Placement].

    Compression ([compress/src]): [Compress], the codec of one block with its
    per-thread caches and the delta coder.

    Coding ([coding/src]):
    - [gf256.rs]: the tables and the field ([Gf256]), the vector kernels
      ([GfVec]), elimination ([Gauss]) and its completeness ([LinAlg]).
    - [fountain.rs]: decoder ([Fountain], [FountainCorrect]) and encoder
      ([Encoder]), behind the interface [FountainSig]; [bulk.rs]: [Bulk].
    - [rs.rs]: [ReedSolomon]; [rlnc.rs]: [Rlnc]; [hierarchical.rs]: [Hierarchical].
    - [zeckendorf.rs]: [Zeckendorf]; [homohash.rs]: [Homohash]; [fib_hash.rs] and
      [placement.rs]: [Placement]; [cayley.rs]: [Cayley]; [fib_backoff.rs]: [Control].

    Receiver ([receiver/src/lib.rs]): [Receiver], one definition per handler.
    Shim ([shim/src/lib.rs]): [Shim].  Together: [Protocol] (turns and
    acknowledgements), [ColdStart] (RESYNC and BULK) and [Failover], the session
    of the program that wires them up ([bin/src/main.rs]): turns over the wire,
    a takeover by an empty receiver, turns again.

    Pruning ([prune/src]): [Pruner] (the incremental window), [Prune] (scores
    and policies), [PruneSched] (the schedulers, against the receiver).

    Transport ([transport/src]): [flow.rs]: [Flow]; [pipeline.rs]: [Pipeline];
    [lib.rs], [loopback.rs], [multipath.rs], [quic.rs], [rdma.rs]: [Transport];
    [bbr.rs]: [Control].

    Sidecar ([sidecar/src/lib.rs]): the server in [Sidecar] (definitions),
    [SidecarCorrect] (envelopes, rendering, cache) and [SidecarServe] (the
    endpoints); the process from start to shutdown ([sidecar/src/main.rs]) in
    [Lifecycle]; the client in [ChatClient], what a synchronisation achieves in
    [Synchronize] and that it succeeds in [SyncLive]; the libraries it calls in
    [Web].

    [Examples] and [ChatExamples] apply theorems of several files at concrete
    inputs; the other witnesses are at the end of their component's file.

    ** How code becomes definitions

    A Rust [u8] is [byte]; wider integers are [Z] (or [nat] for lengths and
    positions) with wrap-around, saturation and checked operations written out.
    [Result] is [outcome], whose third value [Panic] stands for an index out of
    range, a failed assertion, an [unwrap] of nothing or, where a build has
    overflow checks, an overflow; the notation [let?] is the operator [?].
    Operations on shared objects pass the state; handlers that hold one lock
    from start to end are one step, and where the code gives up a lock between
    two accesses (the sidecar's handlers, the credit window, the stage threads)
    the accesses are separate steps.  Hash maps are [gmap]s, ordered maps sorted
    lists, vectors lists.  [f64] and [f32] are the Standard Library's IEEE 754
    specification ([F64]).

    ** Interfaces and parameters

    Code outside the workspace is a parameter, a class, with its documented
    behaviour in a class of laws that has a concrete instance: BLAKE3 and XXH3
    ([Interfaces]), zstd ([Compress]), serde_json and http ([Web]), the
    logarithm and the power function of the platform ([F64]), the upstream
    server (a function in [Sidecar]).  No law says that a hash is injective:
    statements that rest on it end with "or here is a collision".  Between
    components, the receiver and the shim are proved against [FountainCode] and
    [Codec], which [Encoder], [FountainCorrect] and [Compress] discharge; the
    shim's deduplication filter is an interface without laws.

    ** What the theorems show

    - End to end: turn after turn the receiver's log is the client's
      ([Protocol.replication]); a cold start transfers the log over lossy,
      reordered symbols ([ColdStart.cold_start_transfer]); the program's session
      reaches its end with both sides equal and no assertion fails
      ([Failover.main_session_completes]); what the sidecar
      forwards for a turn is the whole conversation ([ChatClient.chat_end_to_end]);
      a synchronisation that succeeds left both sides equal ([Synchronize]), and
      it does succeed when the disk does ([SyncLive.synchronize_completes]).
    - Durability: cutting the log at any byte recovers a prefix of the
      operations, and nothing flushed is lost ([Recovery]); an answered chat
      request survives a restart ([SidecarServe.ack_survives_restart]); the
      sidecar starts again from whatever its predecessors left on disk
      ([Lifecycle.sidecar_restarts]).
    - Invariants of every component with state, under all operations and, for
      the credit window and the pipeline, under all interleavings.
    - Codecs and codes: round trips of frames, blocks, compressed blocks,
      integers; erasure codes recover exactly the sources; the vector kernels
      equal the scalar field operations, the field is the AES field.
    - Routing: the hash ring routes to the nearest member and moves no other
      key; breadth-first search is shortest; greedy routing arrives.
    - Behaviour the code did not intend, proved as such: the findings of the
      manifest name those lemmas ([Filter.grow_loses_items],
      [Homohash.verify_coded_exact], [Pipeline.late_stage_ignored], ...).

    ** Fuel and bounds

    Loops that are not structural run on fuel that is shown, or evidently, never
    to run out: WAL replay on the number of bytes (each record consumes some),
    the record parser of a bulk stream on its length, peeling and elimination
    on the number of symbols, eviction on the length of the list it shortens,
    the kicks of the filter on the code's own limit; the rejection loop of
    [Rlnc.code] on ten rounds ([code_terminates] proves them enough for any
    state of the generator); a call on the credit window on five steps
    ([calls_finish]); breadth-first search on one turn per node and one more
    ([search_spec]); the bit decoder on the bits of the buffer
    ([decode_loop_fuel]); exponentiation on the 128 bits of an exponent.

    ** Not modelled

    Of [bin/src/main.rs] the demonstrations of single components, the byte
    totals and the printed report; the socket, argument parsing and signal
    handling of [sidecar/src/main.rs], axum's routing table, the async runtime
    and thread pools (parallel maps keep their order), the sharding of the
    store's maps, loopback channels without buffer, accessors that return a
    field, and the timing and memory behaviour of everything. *)

From stdpp Require Export base tactics list gmap strings numbers.
From coqutil Require Export Byte Word.LittleEndianList.
From Stdlib Require Export ZArith Lia.

#[global] Open Scope Z_scope.

(** ** Bytes

    A Rust [u8] is [Byte.byte]; [byte.unsigned] and [byte.of_Z] convert.  The
    fixed-width integers ([u16], [u32], [u64], [u128], [usize]) are values of
    [Z]; the width is written out where the code truncates or wraps. *)

Abbreviation bytes := (list byte).

#[global] Instance byte_eq_dec : EqDecision byte := Byte.byte_eq_dec.

#[global] Program Instance byte_countable : Countable byte :=
  {| encode b := N.succ_pos (Byte.to_N b);
     decode p := Byte.of_N (N.pred (N.pos p)) |}.
Next Obligation. by intros []. Qed.

#[global] Instance byte_inhabited : Inhabited byte := populate Byte.x00.

(** [u8::wrapping] style truncation of an unsigned value to [w] bits. *)
Definition wrap (w z : Z) : Z := z mod 2 ^ w.

(** [to_le_bytes] and [from_le_bytes] of the integer types. *)
Abbreviation to_le := le_split.
Abbreviation from_le := le_combine.

Lemma length_to_le n z : length (to_le n z) = n.
Proof. apply length_le_split. Qed.

Lemma from_to_le n z : 0 ≤ z < 2 ^ (8 * Z.of_nat n) → from_le (to_le n z) = z.
Proof. intros Hz. rewrite le_combine_split, Z.mul_comm. by apply Z.mod_small. Qed.

Lemma to_from_le n bs : length bs = n → to_le n (from_le bs) = bs.
Proof. apply split_le_combine'. Qed.

Lemma from_le_bound bs : 0 ≤ from_le bs < 2 ^ (8 * Z.of_nat (length bs)).
Proof. apply le_combine_bound. Qed.

Lemma to_le_inj n a b :
  0 ≤ a < 2 ^ (8 * Z.of_nat n) → 0 ≤ b < 2 ^ (8 * Z.of_nat n) →
  to_le n a = to_le n b → a = b.
Proof. intros Ha Hb E. by rewrite <-(from_to_le n a), <-(from_to_le n b), E. Qed.

(** ** Results

    [Result<A, E>] of the source, with a third outcome for a panic (an index
    or slice out of range, a failed [assert!] or an [unwrap] of nothing). *)

Inductive outcome (E A : Type) : Type :=
| Ok (a : A)
| Err (e : E)
| Panic.
Arguments Ok {E A} a.
Arguments Err {E A} e.
Arguments Panic {E A}.

Declare Scope dlr_scope.
Delimit Scope dlr_scope with dlr.

Definition obind {E A B} (m : outcome E A) (k : A → outcome E B) : outcome E B :=
  match m with
  | Ok a => k a
  | Err e => Err e
  | Panic => Panic
  end.

(** The [?] operator: continue with the value, or leave with the error. *)
Notation "'let?' x ':=' c 'in' k" := (obind c (fun x => k))
  (at level 10, x name, c at level 200, k at level 200) : dlr_scope.
Notation "'let?' ''' p ':=' c 'in' k" := (obind c (fun x => match x with p => k end))
  (at level 10, p strict pattern, c at level 200, k at level 200) : dlr_scope.
#[global] Open Scope dlr_scope.

(** [Result::map_err]. *)
Definition map_err {E F A} (f : E → F) (m : outcome E A) : outcome F A :=
  match m with
  | Ok a => Ok a
  | Err e => Err (f e)
  | Panic => Panic
  end.

(** [Option::ok_or]. *)
Definition ok_or {E A} (o : option A) (e : E) : outcome E A :=
  match o with Some a => Ok a | None => Err e end.

Definition no_panic {E A} (m : outcome E A) : Prop := m ≠ Panic.

Lemma obind_ok_inv {E A B} (m : outcome E A) (k : A → outcome E B) b :
  obind m k = Ok b → ∃ a, m = Ok a ∧ k a = Ok b.
Proof. destruct m; naive_solver. Qed.

Lemma obind_no_panic {E A B} (m : outcome E A) (k : A → outcome E B) :
  no_panic m → (∀ a, m = Ok a → no_panic (k a)) → no_panic (obind m k).
Proof. unfold no_panic. destruct m; naive_solver. Qed.

Lemma obind_panic_inv {E A B} (m : outcome E A) (k : A → outcome E B) :
  obind m k = Panic → m = Panic ∨ ∃ a, m = Ok a ∧ k a = Panic.
Proof. destruct m; naive_solver. Qed.

(** [usize::checked_add] and [usize::checked_mul] (64-bit targets). *)
Definition usize_max : Z := 2 ^ 64 - 1.
Definition checked_add (a b : Z) : option Z :=
  if a + b <=? usize_max then Some (a + b) else None.
Definition checked_mul (a b : Z) : option Z :=
  if a * b <=? usize_max then Some (a * b) else None.

(** ** Slices

    Lengths and offsets are [usize], kept in [Z]. *)

Definition zlen {A} (l : list A) : Z := Z.of_nat (length l).
Definition ztake {A} (n : Z) (l : list A) : list A := take (Z.to_nat n) l.
Definition zdrop {A} (n : Z) (l : list A) : list A := drop (Z.to_nat n) l.

(** [l[i]]: panics out of range. *)
Definition index {E A} (l : list A) (i : Z) : outcome E A :=
  match l !! Z.to_nat i with
  | Some a => Ok a
  | None => Panic
  end.

(** [l[a..b]] (and [Bytes::slice(a..b)]): panics unless [a <= b <= len]. *)
Definition slice {E A} (l : list A) (a b : Z) : outcome E (list A) :=
  if (0 <=? a) && (a <=? b) && (b <=? zlen l)
  then Ok (ztake (b - a) (zdrop a l)) else Panic.

#[global] Arguments zlen : simpl never.
#[global] Arguments ztake : simpl never.
#[global] Arguments zdrop : simpl never.
#[global] Arguments index : simpl never.
#[global] Arguments slice : simpl never.

Lemma zlen_app {A} (l k : list A) : zlen (l ++ k) = zlen l + zlen k.
Proof. unfold zlen. rewrite length_app. lia. Qed.

Lemma zlen_cons {A} (x : A) l : zlen (x :: l) = 1 + zlen l.
Proof. unfold zlen. simpl. lia. Qed.

Lemma zlen_nil {A} : zlen (@nil A) = 0.
Proof. done. Qed.

Lemma zlen_nonneg {A} (l : list A) : 0 ≤ zlen l.
Proof. unfold zlen. lia. Qed.

Lemma zlen_to_le n z : zlen (to_le n z) = Z.of_nat n.
Proof. unfold zlen. by rewrite length_to_le. Qed.

Lemma zlen_zdrop {A} n (l : list A) : 0 ≤ n ≤ zlen l → zlen (zdrop n l) = zlen l - n.
Proof. unfold zlen, zdrop. intros. rewrite length_drop. lia. Qed.

Lemma zlen_ztake {A} n (l : list A) : 0 ≤ n ≤ zlen l → zlen (ztake n l) = n.
Proof. unfold zlen, ztake. intros. rewrite length_take. lia. Qed.

Lemma ztake_app {A} (l k : list A) n : n = zlen l → ztake n (l ++ k) = l.
Proof. intros ->. unfold ztake, zlen. by rewrite Nat2Z.id, take_app_length. Qed.

Lemma zdrop_app {A} (l k : list A) n : n = zlen l → zdrop n (l ++ k) = k.
Proof. intros ->. unfold zdrop, zlen. by rewrite Nat2Z.id, drop_app_length. Qed.

Lemma ztake_zdrop {A} n (l : list A) : ztake n l ++ zdrop n l = l.
Proof. apply take_drop. Qed.

Lemma zdrop_zdrop {A} a b (l : list A) :
  0 ≤ a → 0 ≤ b → zdrop a (zdrop b l) = zdrop (a + b) l.
Proof. intros. unfold zdrop. rewrite drop_drop. f_equal. lia. Qed.

Lemma ztake_all {A} (l : list A) : ztake (zlen l) l = l.
Proof. unfold ztake, zlen. by rewrite Nat2Z.id, take_ge. Qed.

Lemma ztake_le {A} n m (l k : list A) : ztake n l = ztake n k → m ≤ n → ztake m l = ztake m k.
Proof.
  unfold ztake. intros E Hm.
  rewrite <-(Nat.min_l (Z.to_nat m) (Z.to_nat n)) by lia. by rewrite <-!take_take, E.
Qed.

#[global] Instance zlen_perm {A} : Proper ((≡ₚ) ==> (=)) (@zlen A).
Proof. intros l k E. unfold zlen. by rewrite (Permutation_length E). Qed.

#[global] Instance concat_perm {A} : Proper ((≡ₚ) ==> (≡ₚ)) (@concat A).
Proof.
  induction 1 as [|l ls ks _ IH|l k ls|ls ks hs _ IH1 _ IH2]; simpl; [done| | |by etrans].
  - by apply Permutation_app_head.
  - rewrite !(assoc_L (++)). apply Permutation_app_tail, Permutation_app_comm.
Qed.

Lemma slice_ok {E A} (l : list A) a b :
  0 ≤ a ≤ b → b ≤ zlen l → slice (E:=E) l a b = Ok (ztake (b - a) (zdrop a l)).
Proof.
  intros. unfold slice.
  replace ((0 <=? a) && (a <=? b) && (b <=? zlen l)) with true; [done|].
  symmetry. rewrite !andb_true_iff, !Z.leb_le. lia.
Qed.

Lemma index_ok {E A} (l : list A) i :
  0 ≤ i < zlen l → ∃ a, index (E:=E) l i = Ok a ∧ l !! Z.to_nat i = Some a.
Proof.
  unfold index, zlen. intros.
  destruct (lookup_lt_is_Some_2 l (Z.to_nat i)) as [a Ha]; [lia|].
  exists a. by rewrite Ha.
Qed.

Lemma slice_inv {E A} (l : list A) a b s :
  slice (E:=E) l a b = Ok s → 0 ≤ a ≤ b ∧ b ≤ zlen l ∧ zdrop a l = s ++ zdrop b l ∧ zlen s = b - a.
Proof.
  unfold slice. destruct (_ && _) eqn:Hg; [|done]. intros [= <-].
  rewrite !andb_true_iff, !Z.leb_le in Hg. split_and!; [lia..| |].
  - rewrite <-(ztake_zdrop (b - a) (zdrop a l)) at 1. by rewrite zdrop_zdrop, Z.sub_add by lia.
  - apply zlen_ztake. rewrite zlen_zdrop by lia. lia.
Qed.

Lemma slice_no_panic {E A} (l : list A) a b :
  0 ≤ a ≤ b → b ≤ zlen l → no_panic (slice (E:=E) l a b).
Proof. intros. rewrite slice_ok by lia. done. Qed.

Lemma index_inv {E A} (l : list A) i a :
  index (E:=E) l i = Ok a → l !! Z.to_nat i = Some a.
Proof. unfold index. case_match; naive_solver. Qed.

Lemma index_no_panic {E A} (l : list A) i : 0 ≤ i < zlen l → no_panic (index (E:=E) l i).
Proof. intros H. destruct (index_ok (E:=E) l i H) as (a & -> & _). done. Qed.

Lemma zdrop_0 {A} (l : list A) : zdrop 0 l = l.
Proof. done. Qed.

(** A window [r] of [body] that starts after the consumed prefix: the slice the
    code takes at the absolute offset [body.len() - r.len()]. *)
Lemma window_suffix {A} (pre r : list A) :
  zdrop (zlen (pre ++ r) - zlen r) (pre ++ r) = r.
Proof. apply zdrop_app. rewrite zlen_app. lia. Qed.

Create HintDb dlr.
Create Rewrite HintDb zlen.
#[export] Hint Rewrite @zlen_app @zlen_cons @zlen_nil @zlen_to_le : zlen.
#[export] Hint Resolve zlen_nonneg : dlr.

(** [zl]: normalise lengths, then linear arithmetic. *)
Ltac zl :=
  autorewrite with zlen in *;
  repeat match goal with
  | |- context [zlen ?l] =>
      lazymatch goal with
      | _ : 0 ≤ zlen l |- _ => fail
      | _ => pose proof (zlen_nonneg l)
      end
  | H : context [zlen ?l] |- _ =>
      lazymatch goal with
      | _ : 0 ≤ zlen l |- _ => fail
      | _ => pose proof (zlen_nonneg l)
      end
  end; lia.

(** Split a boolean guard of the code into its two branches. *)
Ltac zcase :=
  match goal with
  | |- context [?a <? ?b] => destruct (Z.ltb_spec a b)
  | |- context [?a <=? ?b] => destruct (Z.leb_spec a b)
  | |- context [?a =? ?b] => destruct (Z.eqb_spec a b)
  | H : context [?a <? ?b] |- _ => destruct (Z.ltb_spec a b)
  | H : context [?a <=? ?b] |- _ => destruct (Z.leb_spec a b)
  | H : context [?a =? ?b] |- _ => destruct (Z.eqb_spec a b)
  end.

(** Invert every [obind] of a successful run. *)
Ltac obinds :=
  repeat match goal with
  | H : obind _ _ = Ok _ |- _ =>
      let a := fresh "a" in let H1 := fresh "Hm" in
      apply obind_ok_inv in H as (a & H1 & H); simpl in H
  end.

(** ** Lists *)

Lemma Forall_elem {A} (P : A → Prop) l : Forall P l ↔ ∀ x, x ∈ l → P x.
Proof. rewrite List.Forall_forall. by setoid_rewrite list_elem_of_In. Qed.


Lemma length_concat_const {A} (ls : list (list A)) n :
  Forall (λ l, length l = n) ls → length (concat ls) = (length ls * n)%nat.
Proof. induction 1 as [|l ls Hl _ IH]; simpl; [done|]. rewrite length_app. lia. Qed.

Lemma filter_every {A} (P : A → Prop) `{∀ x, Decision (P x)} l : Forall P l → filter P l = l.
Proof. induction 1 as [|x l Hx _ IH]; [done|]. by rewrite filter_cons_True, IH. Qed.

Lemma filter_none {A} (P : A → Prop) `{∀ x, Decision (P x)} l : Forall (λ x, ¬ P x) l → filter P l = [].
Proof. induction 1 as [|x l Hx _ IH]; [done|]. by rewrite filter_cons_False. Qed.
