(* ===== verification/Interfaces.v ===== *)
(** * Interfaces: the third-party functions the workspace calls

    BLAKE3 (crate [blake3]) and XXH3 (crate [xxhash-rust]) are parameters: each
    is a class that holds the function, with the documented behaviour the code
    relies on in a separate class of laws.  No theorem assumes that a hash is
    injective (no 32-byte hash is): statements that rest on collision
    resistance conclude "... or here is a collision".  [Toy] gives concrete
    functions that satisfy the laws, for the executable witnesses. *)

From S2P Require Import Prelude.

(** ** BLAKE3 *)

(** The digest of a whole input, 32 bytes. *)
Class Blake3 := blake3 : bytes → bytes.

Class Blake3Laws `{B3 : Blake3} : Prop := {
  blake3_length : ∀ input, length (blake3 input) = 32%nat
}.

(** The incremental [blake3::Hasher]: it hashes one stream, the concatenation of
    the updates ([Hasher::update] documents that splitting the input over calls
    does not matter). *)
Section Hasher.
Context `{B3 : Blake3}.

Definition Hasher : Type := bytes.
Definition Hasher_new : Hasher := [].
Definition Hasher_update (h : Hasher) (input : bytes) : Hasher := h ++ input.
Definition Hasher_finalize (h : Hasher) : bytes := blake3 h.

(** Two different inputs with one digest. *)
Definition blake3_collision : Prop :=
  ∃ x y : bytes, x ≠ y ∧ blake3 x = blake3 y.

Lemma blake3_eq x y : blake3 x = blake3 y → x = y ∨ blake3_collision.
Proof.
  intros E. destruct (decide (x = y)) as [->|Hne]; [by left|].
  right. by exists x, y.
Qed.
End Hasher.

(** ** XXH3 *)

Class Xxh3 := xxh3_64 : bytes → Z.

Class Xxh3Laws `{X3 : Xxh3} : Prop := {
  xxh3_64_range : ∀ input, 0 ≤ xxh3_64 input < 2 ^ 64
}.

(** ** Concrete instances for witnesses *)
Module Toy.
(** A base-257 polynomial of the input, truncated to the digest width. *)
Definition poly (w : Z) (input : bytes) : Z :=
  foldl (λ acc b, (acc * 257 + byte.unsigned b + 1) mod 2 ^ w) 0 input.

#[export] Instance toy_blake3 : Blake3 := λ input, to_le 32 (poly 256 input).
#[export] Instance toy_xxh3 : Xxh3 := λ input, poly 64 input.

Lemma poly_range w input : 0 < w → 0 ≤ poly w input < 2 ^ w.
Proof.
  intros Hw. unfold poly. induction input as [|b l _] using rev_ind.
  - simpl. split; [done|]. by apply Z.pow_pos_nonneg; lia.
  - rewrite foldl_app. simpl. apply Z.mod_pos_bound. apply Z.pow_pos_nonneg; lia.
Qed.

#[export] Instance toy_blake3_laws : Blake3Laws.
Proof. constructor. intros. apply length_to_le. Qed.

#[export] Instance toy_xxh3_laws : Xxh3Laws.
Proof. constructor. intros. by apply poly_range. Qed.
End Toy.
