(* ===== verification/F64.v ===== *)
(** * F64: the [f64] and [f32] operations the sources use

    Binary64 values are the [spec_float]s of the Standard Library's IEEE 754
    specification, with its executable operations at precision 53 and maximal
    exponent 1024.  Rust leaves the precision of [f64::ln] unspecified, so
    [ln] is a parameter. *)

From S2P Require Import Prelude.
From Stdlib Require Import SpecFloat.

Definition f64 : Type := spec_float.
Definition f64_prec : Z := 53.
Definition f64_emax : Z := 1024.

Definition f64_add : f64 → f64 → f64 := SFadd f64_prec f64_emax.
Definition f64_sub : f64 → f64 → f64 := SFsub f64_prec f64_emax.
Definition f64_mul : f64 → f64 → f64 := SFmul f64_prec f64_emax.
Definition f64_div : f64 → f64 → f64 := SFdiv f64_prec f64_emax.
Definition f64_sqrt : f64 → f64 := SFsqrt f64_prec f64_emax.
Definition f64_abs : f64 → f64 := SFabs.
Definition f64_lt : f64 → f64 → bool := SFltb.
Definition f64_le : f64 → f64 → bool := SFleb.
Definition f64_eq : f64 → f64 → bool := SFeqb.

(** [f64::ln]. *)
Class Libm := f64_ln : f64 → f64.

(** [n as f64] from an unsigned integer: round to nearest, ties to even. *)
Definition f64_of_usize (n : Z) : f64 := binary_normalize f64_prec f64_emax n 0 false.

(** The nearest [f64] to the fraction [n / d]: a decimal literal. *)
Definition f64_lit (n d : Z) : f64 := f64_div (f64_of_usize n) (f64_of_usize d).

(** Round to an integer with [round], a rounding of [m / 2 ^ e]. *)
Definition f64_to_integer (round : Z → Z → Z) (x : f64) : f64 :=
  match x with
  | S754_finite s m e =>
      if 0 <=? e then x
      else binary_normalize f64_prec f64_emax (round (cond_Zopp s (Zpos m)) (2 ^ (- e))) 0 s
  | _ => x
  end.
Definition f64_floor : f64 → f64 := f64_to_integer Z.div.
Definition f64_ceil : f64 → f64 := f64_to_integer (λ a b, - ((- a) / b)).

(** [x as usize]: toward zero, saturating, NaN to 0. *)
Definition f64_as_usize (x : f64) : Z :=
  match x with
  | S754_zero _ | S754_nan => 0
  | S754_infinity s => if s then 0 else usize_max
  | S754_finite true _ _ => 0
  | S754_finite false m e =>
      Z.min usize_max (if 0 <=? e then Zpos m * 2 ^ e else Zpos m / 2 ^ (- e))
  end.

(** [f64::clamp]: NaN passes through. *)
Definition f64_clamp (x lo hi : f64) : f64 :=
  let x := if f64_lt x lo then lo else x in
  if f64_lt hi x then hi else x.

Definition f64_is_nan (x : f64) : bool := match x with S754_nan => true | _ => false end.

Lemma f64_compare_nan x y : SFcompare x y = None → f64_is_nan x = true ∨ f64_is_nan y = true.
Proof. destruct x as [[]|[]| |[]], y as [[]|[]| |[]]; cbn; auto; discriminate. Qed.

Lemma f64_compare_antisym x y c : SFcompare x y = Some c → SFcompare y x = Some (CompOpp c).
Proof.
  destruct x as [[]|[]| |[] m e], y as [[]|[]| |[] m' e']; cbn; try (intros [= <-]; done); try done;
    rewrite (Z.compare_antisym e e');
    change (Pos.compare_cont Eq ?a ?b) with (Pos.compare a b);
    rewrite (Pos.compare_antisym m m');
    destruct (e ?= e')%Z; cbn; intros [= <-]; try done.
Qed.

Lemma f64_lt_irrefl x : f64_lt x x = false.
Proof.
  unfold f64_lt, SFltb. destruct x as [[]|[]| |[] m e]; cbn; try done;
    rewrite Z.compare_refl; change (Pos.compare_cont Eq m m) with (Pos.compare m m);
    by rewrite Pos.compare_refl.
Qed.

(** A comparison that fails on numbers holds the other way round. *)
Lemma f64_not_lt x y :
  f64_is_nan x = false → f64_is_nan y = false → f64_lt x y = false → f64_le y x = true.
Proof.
  intros Hx Hy. unfold f64_lt, f64_le, SFltb, SFleb.
  destruct (SFcompare x y) as [c|] eqn:Hc.
  2:{ apply f64_compare_nan in Hc as [Hc|Hc]; congruence. }
  rewrite (f64_compare_antisym _ _ _ Hc). by destruct c.
Qed.

(** A clamped number is between the bounds. *)
Lemma f64_clamp_bounds x lo hi :
  f64_is_nan x = false → f64_is_nan lo = false → f64_is_nan hi = false → f64_le lo hi = true →
  f64_le lo (f64_clamp x lo hi) = true ∧ f64_le (f64_clamp x lo hi) hi = true.
Proof.
  intros Hx Hl Hh Hlh.
  assert (∀ y, f64_is_nan y = false → f64_le y y = true) as Hrefl
    by (intros y Hy; apply f64_not_lt; [done..|apply f64_lt_irrefl]).
  unfold f64_clamp.
  destruct (f64_lt x lo) eqn:H1; [destruct (f64_lt hi lo) eqn:H2|destruct (f64_lt hi x) eqn:H2];
    split; auto using f64_not_lt.
Qed.

(** ** [f32] *)

Definition f32 : Type := spec_float.
Definition f32_prec : Z := 24.
Definition f32_emax : Z := 128.
Definition f32_add : f32 → f32 → f32 := SFadd f32_prec f32_emax.
Definition f32_mul : f32 → f32 → f32 := SFmul f32_prec f32_emax.
Definition f32_div : f32 → f32 → f32 := SFdiv f32_prec f32_emax.
Definition f32_of_usize (n : Z) : f32 := binary_normalize f32_prec f32_emax n 0 false.
Definition f32_lit (n d : Z) : f32 := f32_div (f32_of_usize n) (f32_of_usize d).
Definition f32_infinity : f32 := S754_infinity false.

(** [f32::min]: a NaN argument is ignored. *)
Definition f32_min (x y : f32) : f32 :=
  match SFcompare x y with
  | Some Lt | Some Eq => x
  | Some Gt => y
  | None => if f64_is_nan x then y else x
  end.

(** [partial_cmp]. *)
Definition f32_partial_cmp : f32 → f32 → option comparison := SFcompare.

(** [f32::powf]; its precision is unspecified. *)
Class Powf := f32_powf : f32 → f32 → f32.

(** Known values. *)
Example f64_tenth : f64_lit 1 10 = S754_finite false 7205759403792794 (-56).
Proof. vm_compute. reflexivity. Qed.
Example f64_fiftieth : f64_lit 2 100 = S754_finite false 5764607523034235 (-58).
Proof. vm_compute. reflexivity. Qed.
Example f64_rounding :
  f64_as_usize (f64_ceil (f64_lit 5 2)) = 3 ∧ f64_as_usize (f64_floor (f64_lit 5 2)) = 2 ∧
  f64_as_usize (f64_ceil (f64_of_usize 7)) = 7.
Proof. vm_compute. split_and!; reflexivity. Qed.
