(* ===== verification/Block.v ===== *)
(** * Blocks and their canonical encoding

    [crates/core/src/block.rs] and [crates/core/src/canonical.rs]: the semantic
    content block, its content address and the canonical byte layout
    [kind:u8 | seq:u64_le | len:u64_le | payload]. *)

From S2P Require Import Prelude Interfaces.

(** ** Data *)

(** A 256-bit content address; 32 bytes long whenever it comes from BLAKE3 or
    from a decoder. *)
Abbreviation BlockId := bytes.

Inductive BlockKind : Type :=
| Message
| ToolCall
| ToolResult
| System
| Summary.

#[global] Instance BlockKind_eq_dec : EqDecision BlockKind.
Proof. solve_decision. Defined.

(** [BlockKind::to_byte]: the [repr(u8)] discriminant. *)
Definition to_byte (k : BlockKind) : byte :=
  match k with
  | Message => Byte.x01
  | ToolCall => Byte.x02
  | ToolResult => Byte.x03
  | System => Byte.x04
  | Summary => Byte.x05
  end.

(** [BlockKind::from_byte]. *)
Definition from_byte (b : byte) : option BlockKind :=
  match b with
  | Byte.x01 => Some Message
  | Byte.x02 => Some ToolCall
  | Byte.x03 => Some ToolResult
  | Byte.x04 => Some System
  | Byte.x05 => Some Summary
  | _ => None
  end.

Record Block : Type := mkBlock {
  kind : BlockKind;
  seq : Z;            (* u64 *)
  payload : bytes
}.

(** [impl PartialEq for Block]. *)
#[global] Instance Block_eq_dec : EqDecision Block.
Proof. solve_decision. Defined.

(** [canonical::MAX_BLOCK_PAYLOAD_BYTES], 1 GiB. *)
Definition MAX_BLOCK_PAYLOAD_BYTES : Z := Z.shiftl 1 30.

(** The invariant of the type: [seq] is a [u64] and the payload is within the
    decoder's ceiling. *)
Definition block_wf (b : Block) : Prop :=
  0 ≤ seq b < 2 ^ 64 ∧ zlen (payload b) ≤ MAX_BLOCK_PAYLOAD_BYTES.

#[global] Instance block_wf_dec b : Decision (block_wf b).
Proof. unfold block_wf. apply _. Defined.

(** ** Operations *)

Section Ops.
Context `{B3 : Blake3}.

(** The 17-byte header that [canonical_into] packs on the stack. *)
Definition canonical_header (b : Block) : bytes :=
  to_byte (kind b) :: to_le 8 (seq b) ++ to_le 8 (zlen (payload b)).

(** [Block::canonical_into]: two updates, header then payload. *)
Definition canonical_into (b : Block) (h : Hasher) : Hasher :=
  Hasher_update (Hasher_update h (canonical_header b)) (payload b).

(** [Block::block_id]. *)
Definition block_id (b : Block) : BlockId :=
  Hasher_finalize (canonical_into b Hasher_new).

(** [Block::fingerprint]. *)
Definition fingerprint `{X3 : Xxh3} (b : Block) : Z := xxh3_64 (block_id b).

(** [block::block_id_from_canonical]. *)
Definition block_id_from_canonical (canon : bytes) : BlockId :=
  Hasher_finalize (Hasher_update Hasher_new canon).

(** [canonical::canonical_bytes]. *)
Definition canonical_bytes (b : Block) : bytes :=
  let out := [to_byte (kind b)] in
  let out := out ++ to_le 8 (seq b) in
  let out := out ++ to_le 8 (zlen (payload b)) in
  out ++ payload b.

(** [canonical::canonical_bytes_and_id]: buffer and digest in one pass. *)
Definition canonical_bytes_and_id (b : Block) : bytes * BlockId :=
  let hdr := canonical_header b in
  let out := [] ++ hdr in
  let h := Hasher_update Hasher_new hdr in
  let out := out ++ payload b in
  let h := Hasher_update h (payload b) in
  (out, Hasher_finalize h).

(** [canonical::from_canonical]. *)
Definition from_canonical (buf : bytes) : outcome string Block :=
  if zlen buf <? 17 then Err "buffer too short for canonical block"%string else
  let? k := index buf 0 in
  let? kind := ok_or (from_byte k) "unknown block kind"%string in
  let? sq := slice buf 1 9 in
  let seq := from_le sq in
  let? ln := slice buf 9 17 in
  let len := from_le ln in
  if MAX_BLOCK_PAYLOAD_BYTES <? len then Err "payload length exceeds maximum"%string else
  let? end_ := ok_or (checked_add 17 len) "payload length exceeds maximum"%string in
  if zlen buf <? end_ then Err "payload truncated"%string else
  let? payload := slice buf 17 end_ in
  Ok (mkBlock kind seq payload).

(** [canonical::from_canonical_owned]: parse and hash in one pass. *)
Definition from_canonical_owned (canon : bytes) : outcome string (Block * BlockId) :=
  if zlen canon <? 17 then Err "buffer too short for canonical block"%string else
  let? k := index canon 0 in
  let? kind := ok_or (from_byte k) "unknown block kind"%string in
  let? sq := slice canon 1 9 in
  let seq := from_le sq in
  let? ln := slice canon 9 17 in
  let len := from_le ln in
  if MAX_BLOCK_PAYLOAD_BYTES <? len then Err "payload length exceeds maximum"%string else
  let? end_ := ok_or (checked_add 17 len) "payload length exceeds maximum"%string in
  if zlen canon <? end_ then Err "payload truncated"%string else
  let? hd := slice canon 0 17 in
  let h := Hasher_update Hasher_new hd in
  let? body := slice canon 17 end_ in
  let h := Hasher_update h body in
  let id := Hasher_finalize h in
  let? payload := slice canon 17 end_ in
  Ok (mkBlock kind seq payload, id).
End Ops.

(** ** Kinds *)

Lemma from_to_byte k : from_byte (to_byte k) = Some k.
Proof. by destruct k. Qed.

Lemma from_byte_Some b k : from_byte b = Some k → b = to_byte k.
Proof. destruct b; simpl; intros; simplify_eq; done. Qed.

(** ** Layout *)

Lemma canonical_bytes_eq b : canonical_bytes b = canonical_header b ++ payload b.
Proof. unfold canonical_bytes, canonical_header. by rewrite <-!app_assoc. Qed.

Lemma zlen_canonical_header b : zlen (canonical_header b) = 17.
Proof. unfold canonical_header. zl. Qed.

Lemma zlen_canonical_bytes b : zlen (canonical_bytes b) = 17 + zlen (payload b).
Proof. rewrite canonical_bytes_eq, zlen_app, zlen_canonical_header. done. Qed.

#[export] Hint Rewrite zlen_canonical_header zlen_canonical_bytes : zlen.

Lemma block_wf_payload_u64 b : block_wf b → 0 ≤ zlen (payload b) < 2 ^ 64.
Proof.
  intros [_ H]. split; [zl|]. eapply Z.le_lt_trans; [exact H|]. done.
Qed.

(** The fields of a canonical buffer, whatever follows the block. *)
Lemma canonical_fields {E} b rest :
  block_wf b →
  let buf := canonical_bytes b ++ rest in
  index (E:=E) buf 0 = Ok (to_byte (kind b))
  ∧ slice (E:=E) buf 1 9 = Ok (to_le 8 (seq b))
  ∧ slice (E:=E) buf 9 17 = Ok (to_le 8 (zlen (payload b)))
  ∧ slice (E:=E) buf 0 17 = Ok (canonical_header b)
  ∧ slice (E:=E) buf 17 (17 + zlen (payload b)) = Ok (payload b).
Proof.
  intros Hwf buf. subst buf.
  assert (Hlen : 17 ≤ zlen (canonical_bytes b ++ rest)) by zl.
  assert (Hs8 : slice (E:=E) (canonical_bytes b ++ rest) 1 9 = Ok (to_le 8 (seq b))).
  { rewrite slice_ok by lia. apply f_equal.
    unfold canonical_bytes. rewrite <-!app_assoc.
    rewrite (zdrop_app [to_byte (kind b)]) by done.
    apply ztake_app. zl. }
  split_and!.
  - done.
  - exact Hs8.
  - rewrite slice_ok by lia. apply f_equal. unfold canonical_bytes. rewrite <-!app_assoc.
    rewrite (app_assoc [_] (to_le 8 (seq b))), (zdrop_app (_ ++ _)) by zl.
    apply ztake_app. zl.
  - rewrite slice_ok by lia. apply f_equal. rewrite canonical_bytes_eq, <-app_assoc.
    apply ztake_app. by rewrite zlen_canonical_header.
  - rewrite slice_ok by zl. apply f_equal. rewrite canonical_bytes_eq, <-app_assoc.
    rewrite zdrop_app by (by rewrite zlen_canonical_header). apply ztake_app. lia.
Qed.

(** ** Parsing *)

Section Parse.
Context `{B3 : Blake3}.

Lemma from_canonical_app b rest :
  block_wf b → from_canonical (canonical_bytes b ++ rest) = Ok b.
Proof.
  intros Hwf. pose proof Hwf as [Hseq Hpl].
  destruct (canonical_fields (E:=string) b rest Hwf) as (Hk & Hs & Hl & _ & Hp).
  unfold from_canonical.
  destruct (Z.ltb_spec (zlen (canonical_bytes b ++ rest)) 17); [zl|].
  rewrite Hk; cbn [obind]. rewrite from_to_byte; cbn [obind ok_or]. rewrite Hs; cbn [obind].
  rewrite Hl; cbn [obind].
  rewrite (from_to_le 8 (zlen _)) by (by apply block_wf_payload_u64).
  rewrite (from_to_le 8 (seq b)) by done.
  destruct (Z.ltb_spec MAX_BLOCK_PAYLOAD_BYTES (zlen (payload b))); [lia|].
  unfold checked_add, usize_max.
  destruct (Z.leb_spec (17 + zlen (payload b)) (2 ^ 64 - 1)) as [_|Hbig].
  2:{ unfold MAX_BLOCK_PAYLOAD_BYTES in Hpl. rewrite Z.shiftl_1_l in Hpl. lia. }
  cbn [obind ok_or].
  destruct (Z.ltb_spec (zlen (canonical_bytes b ++ rest)) (17 + zlen (payload b))); [zl|].
  rewrite Hp; cbn [obind]. by destruct b.
Qed.

(** What a successful parse says about the buffer. *)
Lemma from_canonical_inv buf b :
  from_canonical buf = Ok b →
  block_wf b ∧ ∃ rest, buf = canonical_bytes b ++ rest.
Proof.
  unfold from_canonical. destruct (Z.ltb_spec (zlen buf) 17) as [|Hlen]; [done|]. intros H.
  apply obind_ok_inv in H as (k & Hk & H). apply obind_ok_inv in H as (kd & Hkd & H).
  apply obind_ok_inv in H as (sq & Hsq & H). apply obind_ok_inv in H as (ln & Hln & H).
  destruct (Z.ltb_spec MAX_BLOCK_PAYLOAD_BYTES (from_le ln)) as [|Hmax]; [done|].
  apply obind_ok_inv in H as (e & He & H).
  destruct (Z.ltb_spec (zlen buf) e); [done|].
  apply obind_ok_inv in H as (pl & Hpl & [= <-]).
  apply index_inv in Hk. destruct buf as [|k0 buf]; [done|]. injection Hk as ->.
  unfold ok_or in Hkd. case_match eqn:Hk; simplify_eq. apply from_byte_Some in Hk as ->.
  apply slice_inv in Hsq as (_ & _ & Esq & Lsq). apply slice_inv in Hln as (_ & _ & Eln & Lln).
  apply slice_inv in Hpl as (He17 & _ & Epl & Lpl).
  assert (e = 17 + from_le ln) as ->.
  { unfold checked_add in He. destruct (_ <=? _); simpl in He; congruence. }
  assert (length sq = 8%nat) as L1 by (unfold zlen in Lsq; lia).
  assert (length ln = 8%nat) as L2 by (unfold zlen in Lln; lia).
  pose proof (from_le_bound sq) as Bsq. rewrite L1 in Bsq.
  split.
  - split; simpl; [exact Bsq|]. lia.
  - exists (zdrop (17 + from_le ln) (to_byte kd :: buf)).
    unfold canonical_bytes. cbn [kind seq payload].
    replace (zlen pl) with (from_le ln) by lia.
    rewrite !to_from_le by done. cbn [app]. f_equal.
    rewrite <-!app_assoc, <-Epl, <-Eln, <-Esq. done.
Qed.

Lemma from_canonical_not_panic buf : no_panic (from_canonical buf).
Proof.
  unfold from_canonical. destruct (Z.ltb_spec (zlen buf) 17) as [|Hlen]; [done|].
  apply obind_no_panic; [apply index_no_panic; lia|]. intros k _.
  apply obind_no_panic; [by destruct (from_byte k)|]. intros kd _.
  apply obind_no_panic; [apply slice_no_panic; lia|]. intros sq _.
  apply obind_no_panic; [apply slice_no_panic; lia|]. intros ln _.
  destruct (_ <? _); [done|].
  apply obind_no_panic; [by destruct (checked_add _ _)|]. intros e He.
  destruct (Z.ltb_spec (zlen buf) e); [done|].
  apply obind_no_panic; [|done]. apply slice_no_panic; [|lia].
  unfold checked_add in He. destruct (_ <=? _); simpl in He; simplify_eq.
  pose proof (from_le_bound ln). lia.
Qed.

Lemma block_id_canonical b : block_id b = block_id_from_canonical (canonical_bytes b).
Proof.
  unfold block_id, block_id_from_canonical, canonical_into, Hasher_update, Hasher_new.
  by rewrite canonical_bytes_eq, !app_nil_l.
Qed.

Lemma block_id_inj b1 b2 :
  block_wf b1 → block_wf b2 → block_id b1 = block_id b2 →
  b1 = b2 ∨ blake3_collision.
Proof.
  intros H1 H2. rewrite !block_id_canonical. intros E.
  destruct (blake3_eq _ _ E) as [Eq|]; [left|by right].
  pose proof (from_canonical_app b1 [] H1) as P1.
  pose proof (from_canonical_app b2 [] H2) as P2.
  rewrite app_nil_r in P1, P2. congruence.
Qed.

(** The one-pass parser is [from_canonical] paired with the content address of
    the parsed block, on every input. *)
Lemma from_canonical_owned_spec buf :
  from_canonical_owned buf =
  let? b := from_canonical buf in Ok (b, block_id b).
Proof.
  destruct (from_canonical buf) as [b|e|] eqn:Hf; cbn [obind].
  - apply from_canonical_inv in Hf as [Hwf [rest ->]].
    pose proof (from_canonical_app b rest Hwf) as Hf.
    destruct (canonical_fields (E:=string) b rest Hwf) as (_ & _ & _ & Hh & _).
    revert Hf. unfold from_canonical_owned, from_canonical.
    destruct (_ <? 17); [done|].
    destruct (index _ 0); [|done..]. cbn [obind]. destruct (ok_or _ _); [|done..]. cbn [obind].
    destruct (slice _ 1 9); [|done..]. cbn [obind]. destruct (slice _ 9 17); [|done..]. cbn [obind].
    destruct (_ <? _); [done|]. destruct (ok_or _ _) as [e| |]; [|done..]. cbn [obind].
    destruct (_ <? e); [done|]. rewrite Hh. cbn [obind].
    destruct (slice _ 17 e) as [pl| |]; [|done..]. cbn [obind]. intros [= <-]. cbn.
    by unfold block_id, canonical_into.
  - revert Hf. unfold from_canonical_owned, from_canonical.
    destruct (Z.ltb_spec (zlen buf) 17); [by intros [= ->]|].
    destruct (index _ 0); cbn [obind]; [|congruence..].
    destruct (ok_or _ _); cbn [obind]; [|congruence..].
    destruct (slice _ 1 9); cbn [obind]; [|congruence..].
    destruct (slice _ 9 17); cbn [obind]; [|congruence..].
    destruct (_ <? _); [congruence|].
    destruct (ok_or _ _) as [e0| |]; cbn [obind]; [|congruence..].
    destruct (_ <? e0); [congruence|].
    rewrite (slice_ok buf 0 17) by lia. cbn [obind].
    destruct (slice _ 17 e0); cbn [obind]; congruence.
  - by destruct (from_canonical_not_panic buf).
Qed.
End Parse.

(** ** Claims *)

Section Claims.
Context `{B3 : Blake3}.

(** Canonical encoding and parsing are inverse.  For every block with a 64-bit
    sequence number and a payload of at most 1 GiB, parsing its canonical
    bytes, with any bytes after them, returns the block; and a buffer parses
    to a block only if it starts with that block's canonical bytes. *)
Theorem canonical_roundtrip buf b :
  from_canonical buf = Ok b ↔
  block_wf b ∧ ∃ rest, buf = canonical_bytes b ++ rest.
Proof.
  split; [apply from_canonical_inv|].
  intros [Hwf [rest ->]]. by apply from_canonical_app.
Qed.

(** The single-pass routines of the hot path equal the two-pass reference: the
    encoder returns the canonical bytes with the block's content address, and
    the owned parser agrees with [from_canonical] on every buffer (errors
    included, and it never panics) and pairs the block with its address. *)
Theorem one_pass_equivalence b buf :
  canonical_bytes_and_id b = (canonical_bytes b, block_id b)
  ∧ block_id b = block_id_from_canonical (canonical_bytes b)
  ∧ from_canonical_owned buf = (let? b' := from_canonical buf in Ok (b', block_id b'))
  ∧ no_panic (from_canonical_owned buf).
Proof.
  split_and!.
  - unfold canonical_bytes_and_id. rewrite canonical_bytes_eq. done.
  - apply block_id_canonical.
  - apply from_canonical_owned_spec.
  - rewrite from_canonical_owned_spec.
    apply obind_no_panic; [apply from_canonical_not_panic|done].
Qed.

(** Content addressing is sound: two well-formed blocks with one address are
    the same block, or BLAKE3 has a collision. *)
Theorem block_id_binds b1 b2 :
  block_wf b1 → block_wf b2 → block_id b1 = block_id b2 →
  b1 = b2 ∨ blake3_collision.
Proof.
  apply block_id_inj.
Qed.
End Claims.

Lemma block_id_binds_witness :
  let _ := Toy.toy_blake3 in
  let b := mkBlock Message 1 [Byte.x68; Byte.x69] in
  b = b ∨ blake3_collision.
Proof.
  apply (@block_id_binds Toy.toy_blake3 (mkBlock Message 1 [Byte.x68; Byte.x69])
    (mkBlock Message 1 [Byte.x68; Byte.x69])); [vm_compute..|reflexivity];
    (split; [split; [discriminate|reflexivity]|discriminate]).
Defined.
