(* ===== verification/Merkle.v ===== *)
(** * The linear Merkle root

    [crates/core/src/merkle.rs]: [root_0 = 0], [root_N = BLAKE3(root_{N-1} || id_N)]. *)

From S2P Require Import Prelude Interfaces Block.

Abbreviation MerkleRoot := bytes.

(** [merkle::ROOT_ZERO]. *)
Definition ROOT_ZERO : MerkleRoot := replicate 32 Byte.x00.

Section Ops.
Context `{B3 : Blake3}.

(** [merkle::append_root]: one update over the packed 64-byte buffer. *)
Definition append_root (prev : MerkleRoot) (id : BlockId) : MerkleRoot :=
  let buf := prev ++ id in
  Hasher_finalize (Hasher_update Hasher_new buf).

(** [merkle::root_over]. *)
Definition root_over (start : MerkleRoot) (ids : list BlockId) : MerkleRoot :=
  foldl append_root start ids.

Lemma root_over_app s ids1 ids2 :
  root_over s (ids1 ++ ids2) = root_over (root_over s ids1) ids2.
Proof. apply foldl_app. Qed.

Lemma root_over_snoc s ids id :
  root_over s (ids ++ [id]) = append_root (root_over s ids) id.
Proof. apply root_over_app. Qed.

Lemma root_over_cons s id ids : root_over s (id :: ids) = root_over (append_root s id) ids.
Proof. done. Qed.
End Ops.

Section Length.
Context `{B3 : Blake3} {B3L : Blake3Laws}.

Lemma length_append_root prev id : length (append_root prev id) = 32%nat.
Proof. apply blake3_length. Qed.

Lemma length_root_over ids : length (root_over ROOT_ZERO ids) = 32%nat.
Proof.
  destruct ids as [|id ids _] using rev_ind; [done|].
  rewrite root_over_snoc. apply length_append_root.
Qed.

Lemma length_block_id b : length (block_id b) = 32%nat.
Proof. apply blake3_length. Qed.

Lemma append_root_inj r1 r2 id1 id2 :
  length r1 = length r2 → append_root r1 id1 = append_root r2 id2 →
  (r1 = r2 ∧ id1 = id2) ∨ blake3_collision.
Proof.
  intros Hlen E. unfold append_root, Hasher_finalize in E.
  destruct (blake3_eq _ _ E) as [Eq|]; [left|by right].
  unfold Hasher_update, Hasher_new in Eq. rewrite !app_nil_l in Eq.
  by apply app_inj_1 in Eq.
Qed.
End Length.

Section Claims.
Context `{B3 : Blake3} {B3L : Blake3Laws}.

(** The root commits to the whole ordered log: two logs of block ids with the
    same root from the empty log are the same list, unless BLAKE3 has a
    collision or maps some input to the all-zero root of the empty log. *)
Theorem root_over_binds ids1 ids2 :
  root_over ROOT_ZERO ids1 = root_over ROOT_ZERO ids2 →
  ids1 = ids2 ∨ blake3_collision ∨ ∃ x, blake3 x = ROOT_ZERO.
Proof.
  revert ids2. induction ids1 as [|id1 ids1 IH] using rev_ind; intros ids2 E;
    destruct ids2 as [|id2 ids2 _] using rev_ind.
  - by left.
  - right; right. rewrite root_over_snoc in E. eexists. symmetry. exact E.
  - right; right. rewrite root_over_snoc in E. eexists. exact E.
  - rewrite !root_over_snoc in E.
    apply append_root_inj in E as [[Er ->]|]; [|by right; left|by rewrite !length_root_over].
    destruct (IH _ Er) as [->|]; [by left|by right].
Qed.
End Claims.

(** Two-block log with a concrete hash. *)
Lemma root_over_binds_witness :
  let _ := Toy.toy_blake3 in
  let ids := [replicate 32 Byte.x01; replicate 32 Byte.x02] in
  ids = ids ∨ blake3_collision ∨ ∃ x, blake3 x = ROOT_ZERO.
Proof. apply (@root_over_binds Toy.toy_blake3 Toy.toy_blake3_laws). reflexivity. Defined.
