(* ===== verification/Mmr.v ===== *)
(** * Mmr: the Merkle mountain range of [core/src/mmr.rs]

    An append-only forest of perfect trees whose nodes sit in one arena; trees
    refer to arena indices.  Reads of the arena panic out of range, as do the
    [expect]s on missing children. *)

From S2P Require Import Prelude Interfaces Block.

Abbreviation MmrHash := (list byte).

Record MmrNode : Type := mkNode { n_hash : MmrHash; n_left : option nat; n_right : option nat }.

Record Tree : Type := mkTree { t_root : nat; t_height : nat; t_base : Z }.

Record Mmr : Type := mkMmr { trees : list Tree; leaves : Z; arena : list MmrNode }.

Definition tree_leaf_count (t : Tree) : Z := Z.shiftl 1 (Z.of_nat (t_height t)).
(** [leaf_range().contains(&i)]. *)
Definition in_leaf_range (t : Tree) (i : Z) : bool :=
  (t_base t <=? i) && (i <? t_base t + tree_leaf_count t).

Definition Mmr_new : Mmr := mkMmr [] 0 [].
Definition Mmr_leaf_count (m : Mmr) : Z := leaves m.
Definition Mmr_is_empty (m : Mmr) : bool := leaves m =? 0.

(** [arena[i]]. *)
Definition node_at (a : list MmrNode) (i : nat) : outcome string MmrNode := index a (Z.of_nat i).

Section Mmr.
Context `{B3 : Blake3}.

Definition parent (left right : MmrHash) : MmrHash :=
  Hasher_finalize (Hasher_update (Hasher_update (Hasher_update Hasher_new [Byte.x4d]) left) right).

Definition leaf_h (id : BlockId) : MmrHash :=
  Hasher_finalize (Hasher_update (Hasher_update Hasher_new [Byte.x4c]) id).

(** The merge loop of [append]; [rtrees] holds the trees, last first. *)
Fixpoint merge (rtrees : list Tree) (tree : Tree) (a : list MmrNode)
    : outcome string (list Tree * list MmrNode) :=
  match rtrees with
  | [] => Ok ([tree], a)
  | prev :: rest =>
      if (t_height prev =? t_height tree)%nat then
        let new_root := length a in
        let? pn := node_at a (t_root prev) in
        let? tn := node_at a (t_root tree) in
        let a := a ++ [mkNode (parent (n_hash pn) (n_hash tn)) (Some (t_root prev)) (Some (t_root tree))] in
        merge rest (mkTree new_root (S (t_height prev)) (t_base prev)) a
      else Ok (tree :: rtrees, a)
  end.

Definition append (m : Mmr) (id : BlockId) : outcome string Mmr :=
  let leaf_node := length (arena m) in
  let a := arena m ++ [mkNode (leaf_h id) None None] in
  let? '(rtrees, a) := merge (reverse (trees m)) (mkTree leaf_node 0 (leaves m)) a in
  Ok (mkMmr (reverse rtrees) (leaves m + 1) a).

(** A run of appends. *)
Fixpoint append_all (m : Mmr) (ids : list BlockId) : outcome string Mmr :=
  match ids with
  | [] => Ok m
  | id :: ids' => let? m := append m id in append_all m ids'
  end.

Fixpoint peak_hashes (a : list MmrNode) (ts : list Tree) : outcome string (list MmrHash) :=
  match ts with
  | [] => Ok []
  | t :: ts' =>
      let? n := node_at a (t_root t) in
      let? hs := peak_hashes a ts' in
      Ok (n_hash n :: hs)
  end.

Definition peaks (m : Mmr) : outcome string (list MmrHash) := peak_hashes (arena m) (trees m).

Fixpoint bag (a : list MmrNode) (acc : MmrHash) (ts : list Tree) : outcome string MmrHash :=
  match ts with
  | [] => Ok acc
  | t :: ts' => let? n := node_at a (t_root t) in bag a (parent acc (n_hash n)) ts'
  end.

Definition Mmr_root (m : Mmr) : outcome string MmrHash :=
  match trees m with
  | [] => Ok (replicate 32 Byte.x00)
  | t :: ts => let? n := node_at (arena m) (t_root t) in bag (arena m) (n_hash n) ts
  end.

(** The descent of [inclusion_proof], siblings in the order they are pushed. *)
Fixpoint descend (a : list MmrNode) (h : nat) (leaf : Z) (node : nat)
    : outcome string (list (nat * bool)) :=
  match h with
  | O => Ok []
  | S h' =>
      let half := Z.shiftl 1 (Z.of_nat h') in
      let? n := node_at a node in
      match n_left n, n_right n with
      | Some left_root, Some right_root =>
          if leaf <? half then
            let? steps := descend a h' leaf left_root in Ok ((right_root, false) :: steps)
          else
            let? steps := descend a h' (leaf - half) right_root in Ok ((left_root, true) :: steps)
      | _, _ => Panic
      end
  end.

Fixpoint resolve_steps (a : list MmrNode) (steps : list (nat * bool)) : outcome string (list (MmrHash * bool)) :=
  match steps with
  | [] => Ok []
  | (idx, sib_is_left) :: steps' =>
      let? n := node_at a idx in
      let? hs := resolve_steps a steps' in
      Ok ((n_hash n, sib_is_left) :: hs)
  end.

Definition covering (m : Mmr) (i : Z) : option Tree := head (filter (λ t, in_leaf_range t i) (trees m)).

Definition inclusion_proof (m : Mmr) (i : Z) : outcome string (list (MmrHash * bool)) :=
  match covering m i with
  | None => Ok []
  | Some tree =>
      let? steps := descend (arena m) (t_height tree) (i - t_base tree) (t_root tree) in
      resolve_steps (arena m) (reverse steps)
  end.

Definition peak_from_proof (leaf_id : BlockId) (proof : list (MmrHash * bool)) : MmrHash :=
  foldl (λ acc '(sib, sib_is_left), if (sib_is_left : bool) then parent sib acc else parent acc sib)
    (leaf_h leaf_id) proof.

Definition verify_inclusion (m : Mmr) (i : Z) (leaf_id : BlockId) : outcome string bool :=
  match covering m i with
  | None => Ok false
  | Some tree =>
      let? proof := inclusion_proof m i in
      let? n := node_at (arena m) (t_root tree) in
      Ok (bool_decide (peak_from_proof leaf_id proof = n_hash n))
  end.
End Mmr.

Example mmr_five :
  let ids := (λ n, to_le 32 n) <$> [1; 2; 3; 4; 5] in
  match append_all (B3 := Toy.toy_blake3) Mmr_new ids with
  | Ok m => (λ t, (t_height t, t_base t)) <$> trees m = [(2%nat, 0); (0%nat, 4)] ∧
      verify_inclusion (B3 := Toy.toy_blake3) m 2 (to_le 32 3) = Ok true ∧
      verify_inclusion (B3 := Toy.toy_blake3) m 2 (to_le 32 4) = Ok false
  | _ => False
  end.
Proof. vm_compute. split_and!; reflexivity. Qed.

(** ** The trees of the forest *)

Inductive ptree : Type :=
| PLeaf (id : BlockId)
| PNode (l r : ptree).

Fixpoint tleaves (t : ptree) : list BlockId :=
  match t with PLeaf id => [id] | PNode l r => tleaves l ++ tleaves r end.

Fixpoint perfect (h : nat) (t : ptree) : Prop :=
  match h, t with
  | O, PLeaf _ => True
  | S h', PNode l r => perfect h' l ∧ perfect h' r
  | _, _ => False
  end.

Lemma perfect_leaves h t : perfect h t → zlen (tleaves t) = 2 ^ Z.of_nat h.
Proof.
  revert h. induction t as [id|l IHl r IHr]; intros [|h]; try done. intros [Hl Hr]. cbn [tleaves].
  rewrite zlen_app, (IHl h Hl), (IHr h Hr), Nat2Z.inj_succ, Z.pow_succ_r by lia. lia.
Qed.

Section Forest.
Context `{B3 : Blake3}.

Fixpoint thash (t : ptree) : MmrHash :=
  match t with PLeaf id => leaf_h id | PNode l r => parent (thash l) (thash r) end.

(** The tree rooted at an arena index. *)
Fixpoint reps (a : list MmrNode) (i : nat) (t : ptree) : Prop :=
  match t with
  | PLeaf id => a !! i = Some (mkNode (leaf_h id) None None)
  | PNode l r => ∃ li ri, a !! i = Some (mkNode (thash t) (Some li) (Some ri)) ∧ reps a li l ∧ reps a ri r
  end.

Lemma reps_app a b i t : reps a i t → reps (a ++ b) i t.
Proof.
  revert i. induction t as [id|l IHl r IHr]; intros i; cbn; [apply lookup_app_l_Some|].
  intros (li & ri & Hi & Hl & Hr). exists li, ri. split_and!; [by apply lookup_app_l_Some|auto..].
Qed.

Lemma reps_hash a i t : reps a i t → ∃ n, node_at a i = Ok n ∧ n_hash n = thash t.
Proof.
  unfold node_at, index. rewrite Nat2Z.id.
  destruct t as [id|l r]; cbn; [intros ->|intros (li & ri & -> & _)]; by eexists.
Qed.

(** Consecutive trees cover consecutive leaves from [base]. *)
Fixpoint forest (a : list MmrNode) (base : Z) (ts : list Tree) (ps : list ptree) : Prop :=
  match ts, ps with
  | [], [] => True
  | t :: ts', p :: ps' =>
      t_base t = base ∧ perfect (t_height t) p ∧ reps a (t_root t) p ∧
      forest a (base + zlen (tleaves p)) ts' ps'
  | _, _ => False
  end.

Definition all_leaves (ps : list ptree) : list BlockId := concat (tleaves <$> ps).

Lemma all_leaves_snoc ps p : all_leaves (ps ++ [p]) = all_leaves ps ++ tleaves p.
Proof. unfold all_leaves. rewrite fmap_app, concat_app. cbn. by rewrite app_nil_r. Qed.

Lemma forest_mono a b base ts ps : forest a base ts ps → forest (a ++ b) base ts ps.
Proof.
  revert base ps. induction ts as [|t ts IH]; intros base [|p ps]; try done.
  intros (H1 & H2 & H3 & H4). split_and!; [done|done|by apply reps_app|by apply IH].
Qed.

Lemma forest_snoc a base ts ps t p :
  forest a base (ts ++ [t]) (ps ++ [p]) ↔
  forest a base ts ps ∧ t_base t = base + zlen (all_leaves ps) ∧ perfect (t_height t) p ∧ reps a (t_root t) p.
Proof.
  revert base ps. induction ts as [|t' ts IH]; intros base [|p' ps].
  - cbn. rewrite Z.add_0_r. naive_solver.
  - split; [|by intros [[] _]]. cbn. intros (_ & _ & _ & H). by destruct ps.
  - split; [|by intros [[] _]]. cbn. intros (_ & _ & _ & H). by destruct ts.
  - cbn [app forest]. rewrite IH. change (all_leaves (p' :: ps)) with (tleaves p' ++ all_leaves ps).
    rewrite zlen_app, Z.add_assoc. naive_solver.
Qed.

Lemma forest_snoc_inv a base ts t ps :
  forest a base (ts ++ [t]) ps → ∃ ps' p, ps = ps' ++ [p].
Proof.
  intros H. destruct ps as [|p ps] using rev_ind; [|by eexists _, _].
  destruct ts; cbn in H; done.
Qed.

Lemma merge_forest rts t a ps p :
  forest a 0 (reverse rts) ps → t_base t = zlen (all_leaves ps) → perfect (t_height t) p → reps a (t_root t) p →
  ∃ rts' a' ps', merge rts t a = Ok (rts', a') ∧ forest a' 0 (reverse rts') ps' ∧
    all_leaves ps' = all_leaves ps ++ tleaves p.
Proof.
  revert t a ps p. induction rts as [|prev rts IH]; intros t a ps p Hf Hb Hp Hr; cbn [merge].
  { destruct ps; [|done]. exists [t], a, [p]. split; [done|]. cbn. split; [done|]. by rewrite app_nil_r. }
  destruct (Nat.eqb_spec (t_height prev) (t_height t)) as [Hh|Hh].
  - rewrite reverse_cons in Hf. destruct (forest_snoc_inv _ _ _ _ _ Hf) as (ps0 & q & ->).
    apply forest_snoc in Hf as (Hf & Hqb & Hqp & Hqr).
    destruct (reps_hash _ _ _ Hqr) as (pn & -> & Hpn), (reps_hash _ _ _ Hr) as (tn & -> & Htn). cbn [obind].
    rewrite Hpn, Htn.
    destruct (IH (mkTree (length a) (S (t_height prev)) (t_base prev))
      (a ++ [mkNode (parent (thash q) (thash p)) (Some (t_root prev)) (Some (t_root t))]) ps0 (PNode q p))
      as (rts' & a' & ps' & -> & Hf' & Hl').
    + by apply forest_mono.
    + by cbn; rewrite Hqb.
    + cbn. split; [done|]. by rewrite Hh.
    + cbn [reps t_root]. eexists _, _. rewrite lookup_app_r, Nat.sub_diag by done.
      split_and!; [done|by apply reps_app..].
    + exists rts', a', ps'. split_and!; [done|done|]. rewrite Hl', all_leaves_snoc. cbn [tleaves]. by rewrite (assoc_L (++)).
  - exists (t :: prev :: rts), a, (ps ++ [p]). split; [done|]. rewrite reverse_cons.
    split; [apply forest_snoc; split_and!; [done|by rewrite Hb|done..]|apply all_leaves_snoc].
Qed.

(** The state after appending [ids]. *)
Definition mmr_ok (m : Mmr) (ids : list BlockId) : Prop :=
  leaves m = zlen ids ∧ ∃ ps, forest (arena m) 0 (trees m) ps ∧ all_leaves ps = ids.

Lemma append_ok m ids id : mmr_ok m ids → ∃ m', append m id = Ok m' ∧ mmr_ok m' (ids ++ [id]).
Proof.
  intros (Hl & ps & Hf & Hi). unfold append.
  destruct (merge_forest (reverse (trees m)) (mkTree (length (arena m)) 0 (leaves m))
    (arena m ++ [mkNode (leaf_h id) None None]) ps (PLeaf id)) as (rts & a & ps' & -> & Hf' & Hl').
  - rewrite reverse_involutive. by apply forest_mono.
  - by rewrite Hi.
  - done.
  - cbn. by rewrite lookup_app_r, Nat.sub_diag.
  - cbn [obind]. eexists. split; [done|]. split; cbn; [rewrite zlen_app, Hl; done|].
    exists ps'. split; [done|]. by rewrite Hl', Hi.
Qed.

Lemma append_all_ok m ids ids' : mmr_ok m ids → ∃ m', append_all m ids' = Ok m' ∧ mmr_ok m' (ids ++ ids').
Proof.
  revert m ids. induction ids' as [|id ids' IH]; intros m ids Hm; cbn; [exists m; by rewrite app_nil_r|].
  destruct (append_ok m ids id Hm) as (m1 & -> & Hm1). cbn [obind].
  destruct (IH m1 (ids ++ [id]) Hm1) as (m2 & -> & Hm2). exists m2. by rewrite <-(assoc_L (++)) in Hm2.
Qed.

Lemma new_mmr_ok : mmr_ok Mmr_new [].
Proof. split; [done|]. by exists []. Qed.
End Forest.

(** ** Proofs of inclusion *)

Section Proofs.
Context `{B3 : Blake3} {B3L : Blake3Laws}.

Lemma parent_inj l r l' r' :
  length l = 32%nat → length l' = 32%nat → parent l r = parent l' r' →
  l = l' ∧ r = r' ∨ blake3_collision.
Proof.
  intros Hl Hl' E. unfold parent, Hasher_finalize, Hasher_update, Hasher_new in E. cbn in E.
  apply blake3_eq in E as [E|?]; [|by right]. injection E as E. left. by apply app_inj_1 in E; [|congruence].
Qed.

Lemma leaf_inj id id' : leaf_h id = leaf_h id' → id = id' ∨ blake3_collision.
Proof.
  unfold leaf_h, Hasher_finalize, Hasher_update, Hasher_new. cbn.
  intros [E|?]%blake3_eq; [|by right]. injection E as E. by left.
Qed.

(** Leaves and inner nodes hash under different tags. *)
Lemma leaf_not_parent id l r : leaf_h id = parent l r → blake3_collision.
Proof.
  unfold leaf_h, parent, Hasher_finalize, Hasher_update, Hasher_new. cbn. by intros [[=]|?]%blake3_eq.
Qed.

Lemma length_parent l r : length (parent l r) = 32%nat.
Proof. apply blake3_length. Qed.
Lemma length_thash t : length (thash t) = 32%nat.
Proof. destruct t; cbn; apply blake3_length. Qed.

Definition climb1 (acc : MmrHash) (step : MmrHash * bool) : MmrHash :=
  let '(sib, sib_is_left) := step in if (sib_is_left : bool) then parent sib acc else parent acc sib.
Definition climb (acc : MmrHash) (proof : list (MmrHash * bool)) : MmrHash := foldl climb1 acc proof.

Lemma climb_length acc proof : length acc = 32%nat → length (climb acc proof) = 32%nat.
Proof.
  intros H. destruct proof as [|[sib b] proof _] using rev_ind; [done|].
  unfold climb. rewrite foldl_app. cbn. destruct b; apply length_parent.
Qed.

Definition proof_wf (proof : list (MmrHash * bool)) : Prop := Forall (λ s, length s.1 = 32%nat) proof.

(** Whatever siblings a proof claims, it reaches the hash of a tree only from
    one of the tree's leaves. *)
Lemma climb_sound id proof t :
  proof_wf proof → climb (leaf_h id) proof = thash t → id ∈ tleaves t ∨ blake3_collision.
Proof.
  revert t. induction proof as [|[sib b] proof IH] using rev_ind; intros t Hwf E.
  { destruct t as [id'|l r]; cbn in E.
    - apply leaf_inj in E as [->|?]; [left; by left|by right].
    - right. by apply leaf_not_parent in E. }
  apply Forall_app in Hwf as [Hwf [Hs _]%Forall_cons_iff]. cbn in Hs.
  unfold climb in E. rewrite foldl_app in E. fold (climb (leaf_h id) proof) in E. cbn in E.
  assert (length (climb (leaf_h id) proof) = 32%nat) as Hc by (apply climb_length, blake3_length).
  destruct t as [id'|l r].
  { right. symmetry in E. destruct b; by apply leaf_not_parent in E. }
  cbn in E. pose proof (length_thash l).
  destruct b; apply parent_inj in E as [[E1 E2]|?]; try done; try (by right).
  - destruct (IH r Hwf E2); [left; cbn; apply elem_of_app; by right|by right].
  - destruct (IH l Hwf E1); [left; cbn; apply elem_of_app; by left|by right].
Qed.

Lemma resolve_app a xs ys us vs :
  resolve_steps a xs = Ok us → resolve_steps a ys = Ok vs → resolve_steps a (xs ++ ys) = Ok (us ++ vs).
Proof.
  revert us. induction xs as [|[i b] xs IH]; intros us Hx Hy; cbn in *; [by injection Hx as <-|].
  destruct (node_at a i) as [n| |]; cbn [obind] in *; try done.
  destruct (resolve_steps a xs) as [hs| |]; cbn [obind] in *; try done. injection Hx as <-.
  rewrite (IH hs) by done. done.
Qed.

Lemma descend_ok a h t leaf node :
  perfect h t → reps a node t → 0 ≤ leaf < 2 ^ Z.of_nat h →
  ∃ steps proof id, descend a h leaf node = Ok steps ∧ resolve_steps a (reverse steps) = Ok proof ∧
    proof_wf proof ∧ tleaves t !! Z.to_nat leaf = Some id ∧ climb (leaf_h id) proof = thash t ∧
    ∀ acc, length acc = 32%nat → climb acc proof = thash t → acc = leaf_h id ∨ blake3_collision.
Proof.
  revert t leaf node. induction h as [|h IH]; intros [id|l r] leaf node Hp Hr Hleaf; try done.
  { exists [], [], id. cbn in *. replace leaf with 0 by lia. split_and!; try done; [constructor|by left]. }
  cbn [perfect] in Hp. destruct Hp as [Hpl Hpr], Hr as (li & ri & Hi & Hrl & Hrr).
  assert (Z.shiftl 1 (Z.of_nat h) = 2 ^ Z.of_nat h) as Hsh by (rewrite Z.shiftl_mul_pow2 by lia; lia).
  rewrite Nat2Z.inj_succ, Z.pow_succ_r in Hleaf by lia.
  cbn [descend]. unfold node_at at 1, index. rewrite Nat2Z.id, Hi. cbn [obind n_left n_right]. rewrite Hsh.
  pose proof (perfect_leaves h l Hpl) as Hll. pose proof (length_thash l). pose proof (length_thash r).
  destruct (reps_hash _ _ _ Hrl) as (ln & Hln & Hlh), (reps_hash _ _ _ Hrr) as (rn & Hrn & Hrh).
  destruct (Z.ltb_spec leaf (2 ^ Z.of_nat h)).
  - destruct (IH l leaf li) as (steps & proof & id & -> & Hres & Hwf & Hid & Hcl & Huniq); [done..|lia|]. cbn [obind].
    exists ((ri, false) :: steps), (proof ++ [(thash r, false)]), id. rewrite reverse_cons.
    split_and!; [done| | | | |].
    + apply resolve_app; [done|]. cbn. by rewrite Hrn; cbn; rewrite Hrh.
    + apply Forall_app. split; [done|]. by repeat constructor.
    + by apply lookup_app_l_Some.
    + unfold climb in *. rewrite foldl_app, Hcl. done.
    + intros acc Hacc. unfold climb. rewrite foldl_app. fold (climb acc proof). cbn.
      intros [[E _]|?]%parent_inj; [auto|by right|by apply climb_length|done].
  - destruct (IH r (leaf - 2 ^ Z.of_nat h) ri) as (steps & proof & id & -> & Hres & Hwf & Hid & Hcl & Huniq); [done..|lia|].
    cbn [obind]. exists ((li, true) :: steps), (proof ++ [(thash l, true)]), id. rewrite reverse_cons.
    split_and!; [done| | | | |].
    + apply resolve_app; [done|]. cbn. by rewrite Hln; cbn; rewrite Hlh.
    + apply Forall_app. split; [done|]. by repeat constructor.
    + cbn. rewrite lookup_app_r; [|unfold zlen in Hll; lia]. unfold zlen in Hll. rewrite <-Hid. f_equal. lia.
    + unfold climb in *. rewrite foldl_app, Hcl. done.
    + intros acc Hacc. unfold climb. rewrite foldl_app. fold (climb acc proof). cbn.
      intros [[_ E]|?]%parent_inj; [auto|by right|done|done].
Qed.

(** The tree that covers a leaf. *)
Lemma covering_ok a base ts ps i :
  forest a base ts ps → base ≤ i →
  match head (filter (λ t, in_leaf_range t i) ts) with
  | Some t => ∃ p, p ∈ ps ∧ perfect (t_height t) p ∧ reps a (t_root t) p ∧
      0 ≤ i - t_base t < 2 ^ Z.of_nat (t_height t) ∧
      tleaves p !! Z.to_nat (i - t_base t) = all_leaves ps !! Z.to_nat (i - base)
  | None => base + zlen (all_leaves ps) ≤ i
  end.
Proof.
  revert base ps. induction ts as [|t ts IH]; intros base [|p ps] Hf Hi; try done.
  { cbn. rewrite zlen_nil. lia. }
  destruct Hf as (<- & Hp & Hr & Hf). pose proof (perfect_leaves _ _ Hp) as Hl.
  assert (tree_leaf_count t = 2 ^ Z.of_nat (t_height t)) as Hc.
  { unfold tree_leaf_count. rewrite Z.shiftl_mul_pow2 by lia. lia. }
  change (all_leaves (p :: ps)) with (tleaves p ++ all_leaves ps).
  destruct (decide (i < t_base t + 2 ^ Z.of_nat (t_height t))) as [Hlt|Hge].
  - rewrite filter_cons_True.
    2:{ unfold in_leaf_range. rewrite Hc. apply Is_true_true, andb_true_iff. split; [by apply Z.leb_le|by apply Z.ltb_lt]. }
    cbn. exists p. split_and!; [by left|done|done|lia|lia|].
    rewrite lookup_app_l; [done|]. unfold zlen in Hl. lia.
  - rewrite filter_cons_False.
    2:{ unfold in_leaf_range. rewrite Hc. intros [_ H%Z.ltb_lt]%Is_true_true%andb_true_iff. lia. }
    specialize (IH _ _ Hf ltac:(lia)). destruct (head _) as [t'|].
    + destruct IH as (q & Hq & H1 & H2 & H3 & H4). exists q. split_and!; [by right|done|done|lia|lia|].
      rewrite H4, lookup_app_r by (unfold zlen in Hl; lia). f_equal. unfold zlen in *. lia.
    + rewrite zlen_app. lia.
Qed.

(** [inclusion_proof] on a covered leaf. *)
Lemma verify_spec m ids i id :
  mmr_ok m ids → 0 ≤ i →
  match ids !! Z.to_nat i with
  | Some id0 => ∃ b, verify_inclusion m i id = Ok b ∧ (id = id0 → b = true) ∧
      (b = true → id = id0 ∨ blake3_collision)
  | None => verify_inclusion m i id = Ok false
  end.
Proof.
  intros (_ & ps & Hf & <-) Hi. pose proof (covering_ok _ _ _ _ i Hf Hi) as Hc.
  unfold verify_inclusion, inclusion_proof, covering. destruct (head _) as [t|].
  - destruct Hc as (p & _ & Hp & Hr & Hl & Hlook). rewrite Z.sub_0_r in Hlook.
    destruct (descend_ok _ _ _ _ _ Hp Hr Hl) as (steps & proof & id0 & -> & Hres & _ & Hid & Hcl & Huniq).
    cbn [obind]. rewrite Hres. cbn [obind].
    destruct (reps_hash _ _ _ Hr) as (n & Hn & Hh). rewrite Hn. cbn [obind]. rewrite Hh, <-Hlook, Hid.
    eexists. split; [done|]. split.
    + intros ->. by apply bool_decide_eq_true.
    + intros Hb%bool_decide_eq_true. apply Huniq in Hb as [Hb%leaf_inj|]; [done|by right|apply blake3_length].
  - rewrite lookup_ge_None_2; [done|]. unfold zlen in Hc. lia.
Qed.

Lemma peaks_forest m ids : mmr_ok m ids →
  ∃ ps, peaks m = Ok (thash <$> ps) ∧ all_leaves ps = ids.
Proof.
  intros (_ & ps & Hf & Hi). exists ps. split; [|done]. unfold peaks. clear Hi.
  revert Hf. generalize (trees m) as ts, 0 as base. intros ts. revert ps.
  induction ts as [|t ts IH]; intros [|p ps] base; try done. intros (_ & _ & Hr & Hf).
  cbn. destruct (reps_hash _ _ _ Hr) as (n & Hn & Hh). rewrite Hn. cbn [obind]. by rewrite Hh, (IH ps _ Hf).
Qed.

(** ** Theorems *)


End Proofs.

(** ** Witnesses *)
Module MmrWitness.
Import Toy.
Definition ids : list BlockId := (λ n, to_le 32 n) <$> [1; 2; 3; 4; 5].
Definition m : Mmr := match append_all Mmr_new ids with Ok m => m | _ => Mmr_new end.
Definition hs : list MmrHash := match peaks m with Ok hs => hs | _ => [] end.
Definition proof : list (MmrHash * bool) := match inclusion_proof m 2 with Ok p => p | _ => [] end.


End MmrWitness.
