(* ===== verification/Filter.v ===== *)
(** * Filter: the cuckoo filter of [core/src/filter.rs]

    Four 16-bit fingerprints per bucket, 0 for an empty slot; the width is a
    power of two.  Each operation is one atomic step: interleavings inside an
    operation (the code locks per bucket) are not modelled.  The shim uses the
    filter through the interface [DedupFilter]. *)

From S2P Require Import Prelude Interfaces.

Definition GOLDEN64 : Z := 0x9E3779B97F4A7C15.
Definition SLOTS : Z := 4.
Abbreviation Bucket := (list Z).
Definition Bucket_EMPTY : Bucket := replicate 4 0.

Record CuckooFilter : Type := mkFilter {
  f_buckets : list Bucket;
  f_mask : Z;
  f_count : Z;
  f_saturated : bool
}.

(** [usize::next_power_of_two]. *)
Definition next_power_of_two (n : Z) : Z := 2 ^ Z.log2_up n.

Definition with_capacity (cap : Z) : CuckooFilter :=
  let nbuckets := Z.max (next_power_of_two (cap / SLOTS)) 4 in
  mkFilter (replicate (Z.to_nat nbuckets) Bucket_EMPTY) (nbuckets - 1) 0 false.

Definition CuckooFilter_default : CuckooFilter := with_capacity 1024.

Section Filter.
Context `{X3 : Xxh3}.

Definition indices (f : CuckooFilter) (id : bytes) : Z * Z :=
  let h := xxh3_64 id in
  let fp := Z.max (wrap 16 h) 1 in
  let i1 := Z.land h (f_mask f) in
  (i1, fp).

Definition alt_index (mask i fp : Z) : Z :=
  let delta := wrap 64 (fp * GOLDEN64) in
  Z.land (Z.lxor i delta) mask.

(** The first empty slot of a bucket takes [fp]. *)
Fixpoint fill_slot (b : Bucket) (fp : Z) : option Bucket :=
  match b with
  | [] => None
  | x :: b' => if x =? 0 then Some (fp :: b') else (λ r, x :: r) <$> fill_slot b' fp
  end.

Definition with_bucket (f : CuckooFilter) (i : Z) (b : Bucket) : CuckooFilter :=
  mkFilter (<[Z.to_nat i := b]> (f_buckets f)) (f_mask f) (f_count f) (f_saturated f).

Definition count_one (f : CuckooFilter) : CuckooFilter :=
  mkFilter (f_buckets f) (f_mask f) (wrap 64 (f_count f + 1)) (f_saturated f).

(** [for _ in 0..KICKS]: place [fp] in bucket [i], or swap it with a resident
    and carry on with that one. *)
Fixpoint kick (n : nat) (f : CuckooFilter) (i fp : Z) : outcome string (CuckooFilter * bool) :=
  match n with
  | O => Ok (f, false)
  | S n' =>
      let? g := index (f_buckets f) i in
      match fill_slot g fp with
      | Some g' => Ok (count_one (with_bucket f i g'), true)
      | None =>
          let s := fp mod SLOTS in
          let? old := index g s in
          let f := with_bucket f i (<[Z.to_nat s := fp]> g) in
          kick n' f (alt_index (f_mask f) i old) old
      end
  end.

Definition KICKS : nat := 500.
Definition MAX_BITS : Z := 24.

(** Rehash one bare fingerprint into the wider table. *)
Definition rehash (new_nbuckets : Z) (new_buckets : list Bucket) (fp : Z)
    : outcome string (list Bucket) :=
  let h := xxh3_64 (to_le 2 fp) in
  let i1 := Z.land h (new_nbuckets - 1) in
  let? g := index new_buckets i1 in
  let g := default g (fill_slot g fp) in
  let new_buckets := <[Z.to_nat i1 := g]> new_buckets in
  if bool_decide (fp ∈ g) then Ok new_buckets
  else
    let delta := Z.land (wrap 64 (fp * GOLDEN64)) (new_nbuckets - 1) in
    let i2 := Z.land (Z.lxor i1 delta) (new_nbuckets - 1) in
    let? g := index new_buckets i2 in
    Ok (<[Z.to_nat i2 := default g (fill_slot g fp)]> new_buckets).

Fixpoint rehash_all (new_nbuckets : Z) (new_buckets : list Bucket) (fps : list Z)
    : outcome string (list Bucket) :=
  match fps with
  | [] => Ok new_buckets
  | fp :: fps' =>
      let? b := rehash new_nbuckets new_buckets fp in
      rehash_all new_nbuckets b fps'
  end.

Definition grow (f : CuckooFilter) : outcome string (CuckooFilter * bool) :=
  let cur_buckets := zlen (f_buckets f) in
  if (cur_buckets =? 0) || (2 ^ MAX_BITS <=? cur_buckets) then Ok (f, false)
  else
    let fps := filter (λ x, x ≠ 0) (concat (f_buckets f)) in
    let new_nbuckets := cur_buckets * 2 in
    let? new_buckets :=
      rehash_all new_nbuckets (replicate (Z.to_nat new_nbuckets) Bucket_EMPTY) fps in
    Ok (mkFilter new_buckets (new_nbuckets - 1) (f_count f) (f_saturated f), true).

Definition saturate (f : CuckooFilter) : CuckooFilter :=
  mkFilter (f_buckets f) (f_mask f) (f_count f) true.

Definition insert (f : CuckooFilter) (id : bytes) : outcome string (CuckooFilter * bool) :=
  if f_saturated f then Ok (f, false)
  else
    let '(i, fp) := indices f id in
    let? '(f, placed) := kick KICKS f i fp in
    if placed then Ok (f, true)
    else
      let? '(f, grown) := grow f in
      if grown then
        let '(i2, fp2) := indices f id in
        let? g := index (f_buckets f) i2 in
        match fill_slot g fp2 with
        | Some g' => Ok (count_one (with_bucket f i2 g'), true)
        | None => Ok (saturate f, false)
        end
      else Ok (saturate f, false).

Definition contains (f : CuckooFilter) (id : bytes) : outcome string bool :=
  if f_saturated f then Ok true
  else
    let '(i1, fp) := indices f id in
    let i2 := alt_index (f_mask f) i1 fp in
    let? b1 := index (f_buckets f) i1 in
    if bool_decide (fp ∈ b1) then Ok true
    else
      let? b2 := index (f_buckets f) i2 in
      Ok (bool_decide (fp ∈ b2)).

Definition saturated (f : CuckooFilter) : bool := f_saturated f.

Definition clear (f : CuckooFilter) : CuckooFilter :=
  mkFilter ((λ _, Bucket_EMPTY) <$> f_buckets f) (f_mask f) 0 false.

Definition len (f : CuckooFilter) : Z := f_count f.
Definition is_empty (f : CuckooFilter) : bool := len f =? 0.
Definition capacity (f : CuckooFilter) : Z := zlen (f_buckets f) * SLOTS.

(** A run of insertions; the answers are ignored, as the shim does. *)
Fixpoint insert_all (f : CuckooFilter) (ids : list bytes) : outcome string CuckooFilter :=
  match ids with
  | [] => Ok f
  | id :: ids' => let? '(f, _) := insert f id in insert_all f ids'
  end.
End Filter.

(** ** Table lemmas *)

Lemma mask_range x m : 0 ≤ m → 0 ≤ Z.land x (2 ^ m - 1) < 2 ^ m.
Proof.
  intros Hm. replace (2 ^ m - 1) with (Z.ones m) by (rewrite Z.ones_equiv; lia).
  rewrite Z.land_ones by done. apply Z.mod_pos_bound. lia.
Qed.

Lemma mask_id x m : 0 ≤ m → 0 ≤ x < 2 ^ m → Z.land x (2 ^ m - 1) = x.
Proof.
  intros Hm Hx. replace (2 ^ m - 1) with (Z.ones m) by (rewrite Z.ones_equiv; lia).
  rewrite Z.land_ones by done. by apply Z.mod_small.
Qed.

(** The two candidate buckets of a fingerprint are each other's alternate. *)
Lemma alt_index_involutive m i fp :
  0 ≤ m → 0 ≤ i < 2 ^ m →
  alt_index (2 ^ m - 1) (alt_index (2 ^ m - 1) i fp) fp = i.
Proof.
  intros Hm Hi. unfold alt_index. rewrite <-(mask_id i m) at 2 by done.
  set (d := wrap 64 _). apply Z.bits_inj'. intros n Hn.
  rewrite !Z.land_spec, !Z.lxor_spec, Z.land_spec, Z.lxor_spec.
  by destruct (Z.testbit i n), (Z.testbit d n), (Z.testbit (2 ^ m - 1) n).
Qed.

Definition table_ok (m : Z) (bs : list Bucket) : Prop :=
  0 ≤ m ∧ zlen bs = 2 ^ m ∧ Forall (λ b : Bucket, length b = 4%nat) bs.

Lemma table_index m bs i :
  table_ok m bs → 0 ≤ i < 2 ^ m →
  ∃ b, index (E:=string) bs i = Ok b ∧ bs !! Z.to_nat i = Some b ∧ length b = 4%nat.
Proof.
  intros (Hm & Hl & Hf) Hi. destruct (index_ok (E:=string) bs i) as (b & Hb & Hl'); [lia|].
  exists b. split_and!; [done|done|]. by apply (Forall_lookup_1 _ _ _ _ Hf Hl').
Qed.

Lemma table_insert m bs i b :
  table_ok m bs → length b = 4%nat → table_ok m (<[i := b]> bs).
Proof.
  intros (Hm & Hl & Hf) Hb. split_and!; [done|unfold zlen in *; by rewrite length_insert|].
  by apply Forall_insert.
Qed.

Lemma table_empty m : 0 ≤ m → table_ok m (replicate (Z.to_nat (2 ^ m)) Bucket_EMPTY).
Proof.
  intros Hm. split_and!; [done|unfold zlen; rewrite length_replicate; lia|].
  by apply Forall_replicate.
Qed.

Lemma fill_slot_spec b fp b' :
  fill_slot b fp = Some b' →
  length b' = length b ∧ fp ∈ b' ∧ ∀ x, x ≠ 0 → x ∈ b → x ∈ b'.
Proof.
  revert b'. induction b as [|y b IH]; intros b'; cbn; [done|].
  destruct (Z.eqb_spec y 0) as [->|Hy].
  - intros [= <-]. split_and!; [done|by left|]. intros x Hx [->|]%elem_of_cons; [done|by right].
  - destruct (fill_slot b fp) as [r|] eqn:Hr; [|done]. intros [= <-].
    destruct (IH r eq_refl) as (IH1 & IH2 & IH3). split_and!; [cbn; by rewrite IH1|by right|].
    intros x Hx [->|]%elem_of_cons; [by left|right; auto].
Qed.

Lemma length_fill_default b fp : length (default b (fill_slot b fp)) = length b.
Proof. destruct (fill_slot b fp) eqn:H; cbn; [by apply fill_slot_spec in H as [-> _]|done]. Qed.

Record filter_wf (m : Z) (f : CuckooFilter) : Prop := {
  wf_table : table_ok m (f_buckets f);
  wf_mask : f_mask f = 2 ^ m - 1
}.

Lemma with_capacity_wf cap :
  ∃ m, filter_wf m (with_capacity cap) ∧ f_saturated (with_capacity cap) = false.
Proof.
  assert (∃ m, 0 ≤ m ∧ Z.max (next_power_of_two (cap / SLOTS)) 4 = 2 ^ m) as (m & Hm & Hc).
  { unfold next_power_of_two. pose proof (Z.log2_up_nonneg (cap / SLOTS)) as Hn.
    destruct (Z.max_spec (2 ^ Z.log2_up (cap / SLOTS)) 4) as [[_ ->]|[_ ->]].
    - by exists 2.
    - by exists (Z.log2_up (cap / SLOTS)). }
  exists m. split; [|done]. unfold with_capacity. rewrite Hc. split; cbn; [by apply table_empty|done].
Qed.

(** ** Kicking keeps every fingerprint *)

Section Kick.
Context `{X3 : Xxh3}.

Definition holds (f : CuckooFilter) (i fp : Z) : Prop :=
  ∃ b, f_buckets f !! Z.to_nat i = Some b ∧ fp ∈ b.

(** [fp] sits in one of the two buckets of [i]. *)
Definition stored (f : CuckooFilter) (i fp : Z) : Prop :=
  holds f i fp ∨ holds f (alt_index (f_mask f) i fp) fp.

Lemma with_bucket_wf m f i b :
  filter_wf m f → length b = 4%nat → filter_wf m (with_bucket f i b).
Proof. intros [Ht Hm] Hb. split; [by apply table_insert|done]. Qed.

Lemma holds_with_bucket m f i b j x :
  filter_wf m f → 0 ≤ i < 2 ^ m → 0 ≤ j < 2 ^ m →
  holds (with_bucket f i b) j x ↔ if decide (j = i) then x ∈ b else holds f j x.
Proof.
  intros [(Hm & Hl & _) _] Hi Hj. unfold holds. cbn. case_decide as Hd.
  - subst j. rewrite list_lookup_insert_eq by (unfold zlen in Hl; lia).
    split; [by intros (? & [= <-] & ?)|by intros ?; exists b].
  - rewrite list_lookup_insert_ne; [done|]. lia.
Qed.

(** What an item in flight may still need: the bucket it is heading for. *)
Definition kept (f : CuckooFilter) (i fp j x : Z) : Prop :=
  stored f j x ∨ x = fp ∧ (i = j ∨ i = alt_index (f_mask f) j x).

Lemma kick_placed m f i fp (g g' : Bucket) j x :
  filter_wf m f → 0 ≤ i < 2 ^ m → 0 ≤ j < 2 ^ m → x ≠ 0 →
  f_buckets f !! Z.to_nat i = Some g → fill_slot g fp = Some g' →
  kept f i fp j x → stored (with_bucket f i g') j x.
Proof.
  intros Hwf Hi Hj Hx Hg Hfill Hk. destruct (fill_slot_spec _ _ _ Hfill) as (_ & Hin & Hmono).
  assert (0 ≤ alt_index (f_mask f) j x < 2 ^ m) as Ha.
  { rewrite (wf_mask _ _ Hwf). apply mask_range. apply Hwf. }
  assert (∀ p, 0 ≤ p < 2 ^ m → holds f p x ∨ (x = fp ∧ i = p) → holds (with_bucket f i g') p x) as Hh.
  { intros p Hp H. rewrite (holds_with_bucket m) by done. case_decide as Hd.
    - subst p. destruct H as [(b & Hb & Hxb)|[-> _]]; [|done]. rewrite Hg in Hb. injection Hb as <-. auto.
    - destruct H as [|[_ ->]]; done. }
  unfold stored. cbn [with_bucket f_mask].
  destruct Hk as [[Hs|Hs]|[-> [->|Hd]]]; [left|right|left|right]; apply Hh; auto.
Qed.

Lemma kick_swapped m f i fp (g : Bucket) old s j x :
  filter_wf m f → 0 ≤ i < 2 ^ m → 0 ≤ j < 2 ^ m → (s < 4)%nat → length g = 4%nat →
  f_buckets f !! Z.to_nat i = Some g → g !! s = Some old →
  kept f i fp j x →
  kept (with_bucket f i (<[s := fp]> g)) (alt_index (f_mask f) i old) old j x.
Proof.
  intros Hwf Hi Hj Hs Hl Hg Hold Hk. pose proof (wf_mask _ _ Hwf) as Hmask.
  assert (0 ≤ m) as Hm by apply Hwf.
  assert (0 ≤ alt_index (f_mask f) j x < 2 ^ m) as Ha by (rewrite Hmask; by apply mask_range).
  assert (∀ p, 0 ≤ p < 2 ^ m → holds f p x →
    holds (with_bucket f i (<[s := fp]> g)) p x ∨ (p = i ∧ x = old)) as Hh.
  { intros p Hp (b & Hb & Hxb). rewrite (holds_with_bucket m) by done. case_decide as Hd.
    - rewrite Hd, Hg in Hb. injection Hb as <-. apply list_elem_of_lookup in Hxb as [n Hn].
      destruct (decide (n = s)) as [->|Hne]; [right; split; [done|]|left].
      { rewrite Hold in Hn. by injection Hn. }
      apply list_elem_of_lookup. exists n. by rewrite list_lookup_insert_ne.
    - left. by exists b. }
  assert (∀ p, 0 ≤ p < 2 ^ m → p = i → holds (with_bucket f i (<[s := fp]> g)) p fp) as Hin.
  { intros p Hp ->. rewrite (holds_with_bucket m) by done. rewrite decide_True by done.
    apply list_elem_of_lookup. exists s. rewrite list_lookup_insert_eq; [done|lia]. }
  unfold kept, stored. cbn [with_bucket f_mask].
  destruct Hk as [[Hp|Hp]|[-> [->|Hd]]].
  - destruct (Hh _ Hj Hp) as [?|[-> ->]]; [left; by left|right; split; [done|by right]].
  - destruct (Hh _ Ha Hp) as [?|[<- ->]]; [left; by right|right; split; [done|left]].
    rewrite Hmask. by apply alt_index_involutive.
  - left. left. by apply Hin.
  - left. right. by apply Hin.
Qed.

Lemma kick_spec m n f i fp :
  filter_wf m f → 0 ≤ i < 2 ^ m →
  ∃ f' placed, kick n f i fp = Ok (f', placed) ∧ filter_wf m f' ∧
    f_saturated f' = f_saturated f ∧
    (placed = true → ∀ j x, 0 ≤ j < 2 ^ m → x ≠ 0 → kept f i fp j x → stored f' j x).
Proof.
  revert f i fp. induction n as [|n IH]; intros f i fp Hwf Hi; cbn [kick].
  { by exists f, false. }
  destruct (table_index m (f_buckets f) i) as (g & -> & Hg & Hl); [apply Hwf|done|]. cbn [obind].
  destruct (fill_slot g fp) as [g'|] eqn:Hfill.
  - eexists _, true. split; [done|]. split_and!.
    + apply (with_bucket_wf m f i g') in Hwf; [by destruct Hwf; split|].
      destruct (fill_slot_spec _ _ _ Hfill) as [-> _]. done.
    + done.
    + intros _ j x Hj Hx Hk. apply (kick_placed m f i fp g g' j x Hwf Hi Hj Hx Hg Hfill Hk).
  - pose proof (Z.mod_pos_bound fp SLOTS ltac:(done)) as Hs. unfold SLOTS in *.
    destruct (index_ok (E:=string) g (fp mod 4)) as (old & -> & Hold); [unfold zlen; lia|]. cbn [obind].
    set (f1 := with_bucket f i _).
    assert (filter_wf m f1) as Hwf1 by (apply with_bucket_wf; [done|by rewrite length_insert]).
    destruct (IH f1 (alt_index (f_mask f1) i old) old Hwf1) as (f' & placed & -> & Hwf' & Hsat & Hk).
    { rewrite (wf_mask _ _ Hwf1). apply mask_range. apply Hwf. }
    exists f', placed. split_and!; [done..|]. intros Hp j x Hj Hx Hkept.
    apply Hk; [done..|]. apply (kick_swapped m f i fp g old (Z.to_nat (fp mod 4))); try done. lia.
Qed.
End Kick.

(** ** Whole operations *)

Section Operations.
Context `{X3 : Xxh3}.

Lemma rehash_all_ok m bs fps :
  table_ok m bs → ∃ bs', rehash_all (2 ^ m) bs fps = Ok bs' ∧ table_ok m bs'.
Proof.
  revert bs. induction fps as [|fp fps IH]; intros bs Ht; cbn [rehash_all]; [by exists bs|].
  assert (∃ bs1, rehash (2 ^ m) bs fp = Ok bs1 ∧ table_ok m bs1) as (bs1 & -> & Ht1); [|by apply IH].
  assert (0 ≤ m) as Hm by apply Ht. unfold rehash.
  destruct (table_index m bs (Z.land (xxh3_64 (to_le 2 fp)) (2 ^ m - 1))) as (g & -> & _ & Hl);
    [done|by apply mask_range|]. cbn [obind].
  set (bs1 := <[_ := default g _]> bs).
  assert (table_ok m bs1) as Ht1 by (apply table_insert; [done|by rewrite length_fill_default]).
  case_bool_decide; [by exists bs1|].
  destruct (table_index m bs1 (Z.land (Z.lxor (Z.land (xxh3_64 (to_le 2 fp)) (2 ^ m - 1))
    (Z.land (wrap 64 (fp * GOLDEN64)) (2 ^ m - 1))) (2 ^ m - 1))) as (g2 & -> & _ & Hl2);
    [done|by apply mask_range|]. cbn [obind].
  eexists. split; [done|]. apply table_insert; [done|by rewrite length_fill_default].
Qed.

(** Growing doubles the width or does nothing. *)
Lemma grow_ok m f :
  filter_wf m f → ∃ f' grown, grow f = Ok (f', grown) ∧ f_saturated f' = f_saturated f ∧
    if grown : bool then filter_wf (m + 1) f' else f' = f.
Proof.
  intros [Ht Hmask]. assert (0 ≤ m) as Hm by apply Ht. unfold grow.
  rewrite (proj1 (proj2 Ht)). destruct ((_ =? _) || _); [by exists f, false|].
  replace (2 ^ m * 2) with (2 ^ (m + 1)) by (rewrite Z.pow_add_r by lia; lia).
  destruct (rehash_all_ok (m + 1) (replicate (Z.to_nat (2 ^ (m + 1))) Bucket_EMPTY)
    (filter (λ x, x ≠ 0) (concat (f_buckets f)))) as (bs & -> & Hbs); [apply table_empty; lia|].
  cbn [obind]. eexists _, true. by split_and!.
Qed.

Lemma indices_range m f id :
  filter_wf m f → 0 ≤ (indices f id).1 < 2 ^ m ∧ (indices f id).2 ≠ 0.
Proof.
  intros [Ht Hmask]. cbn. rewrite Hmask. split; [apply mask_range, Ht|lia].
Qed.

(** The fingerprint of [id] is in one of its two buckets. *)
Definition present (f : CuckooFilter) (id : bytes) : Prop :=
  stored f (indices f id).1 (indices f id).2.

Lemma contains_spec m f id :
  filter_wf m f → ∃ b, contains f id = Ok b ∧ (b = true ↔ f_saturated f = true ∨ present f id).
Proof.
  intros Hwf. unfold contains. destruct (f_saturated f); [exists true; naive_solver|].
  pose proof (indices_range m f id Hwf) as [Hi _]. unfold present.
  destruct (indices f id) as [i fp]. cbn [fst snd] in *.
  assert (0 ≤ alt_index (f_mask f) i fp < 2 ^ m) as Ha.
  { rewrite (wf_mask _ _ Hwf). apply mask_range, Hwf. }
  destruct (table_index m (f_buckets f) i) as (b1 & -> & H1 & _); [apply Hwf|done|].
  destruct (table_index m (f_buckets f) (alt_index (f_mask f) i fp)) as (b2 & -> & H2 & _);
    [apply Hwf|done|]. cbn [obind].
  unfold stored, holds. rewrite H1, H2.
  case_bool_decide as Hb1.
  - exists true. split; [done|]. split; [|done]. intros _. right. left. by exists b1.
  - eexists. split; [done|]. rewrite bool_decide_eq_true. split.
    + intros Hb2. right. right. by exists b2.
    + intros [?|[(b & [= <-] & ?)|(b & [= <-] & ?)]]; done.
Qed.

(** One insertion: it returns, and as long as the table keeps its width it
    loses nothing and stores the item, or latches the fallback answer. *)
Lemma insert_spec m f id :
  filter_wf m f →
  ∃ f' b m', insert f id = Ok (f', b) ∧ filter_wf m' f' ∧ m ≤ m' ∧
    (f_saturated f = true → f_saturated f' = true) ∧
    (m' = m → f_saturated f' = true ∨
       present f' id ∧ ∀ id', present f id' → present f' id').
Proof.
  intros Hwf. unfold insert. destruct (f_saturated f) eqn:Hsat.
  { exists f, false, m. split_and!; [done|done|lia|done|by left]. }
  pose proof (indices_range m f id Hwf) as [Hi Hfp].
  destruct (indices f id) as [i fp] eqn:Hid. cbn [fst snd] in *.
  destruct (kick_spec m KICKS f i fp Hwf Hi) as (f1 & placed & -> & Hwf1 & Hs1 & Hk). cbn [obind].
  assert (f_mask f1 = f_mask f) as Hm1.
  { by rewrite (wf_mask _ _ Hwf1), (wf_mask _ _ Hwf). }
  destruct placed.
  - exists f1, true, m. split_and!; [done|done|lia|by rewrite Hs1|]. intros _. right.
    assert (∀ id', indices f1 id' = indices f id') as Hix by (intros; unfold indices; by rewrite Hm1).
    unfold present. split.
    + rewrite Hix, Hid. apply Hk; [done..|]. right. split; [done|by left].
    + intros id' Hst. rewrite Hix. destruct (indices_range m f id' Hwf).
      apply Hk; [done..|]. by left.
  - destruct (grow_ok m f1 Hwf1) as (f2 & grown & -> & Hs2 & Hg). cbn [obind]. destruct grown.
    + pose proof (indices_range (m + 1) f2 id Hg) as [Hi2 _].
      destruct (indices f2 id) as [i2 fp2]. cbn [fst] in Hi2.
      destruct (table_index (m + 1) (f_buckets f2) i2) as (g & -> & _ & Hl); [apply Hg|done|].
      cbn [obind]. destruct (fill_slot g fp2) as [g'|] eqn:Hf.
      * eexists _, true, (m + 1). split_and!; [done| |lia|done|lia].
        apply (with_bucket_wf (m + 1) f2 i2 g') in Hg; [by destruct Hg; split|].
        by destruct (fill_slot_spec _ _ _ Hf) as [-> _].
      * eexists _, false, (m + 1). split_and!; [done|by destruct Hg; split|lia|done|lia].
    + subst f2. exists (saturate f1), false, m.
      split_and!; [done|by destruct Hwf1; split|lia|done|by left].
Qed.

Lemma width_inj m m' f : filter_wf m f → filter_wf m' f → m = m'.
Proof.
  intros [(H1 & H2 & _) _] [(H3 & H4 & _) _]. rewrite H2 in H4. apply Z.pow_inj_r in H4; lia.
Qed.

Lemma insert_all_spec m f ids :
  filter_wf m f →
  ∃ f' m', insert_all f ids = Ok f' ∧ filter_wf m' f' ∧ m ≤ m' ∧
    (f_saturated f = true → f_saturated f' = true) ∧
    (m' = m → f_saturated f' = true ∨
       ∀ id, id ∈ ids ∨ present f id → present f' id).
Proof.
  revert m f. induction ids as [|id ids IH]; intros m f Hwf; cbn [insert_all].
  { exists f, m. split_and!; [done|done|lia|done|]. intros _. right.
    intros id [H|H]; [by apply not_elem_of_nil in H|done]. }
  destruct (insert_spec m f id Hwf) as (f1 & b & m1 & -> & Hwf1 & Hle & Hs & Hp). cbn [obind].
  destruct (IH m1 f1 Hwf1) as (f2 & m2 & -> & Hwf2 & Hle2 & Hs2 & Hp2).
  exists f2, m2. split_and!; [done|done|lia|auto|]. intros ->.
  assert (m1 = m) as -> by lia. destruct (Hp eq_refl) as [?|[Hin Hmono]]; [auto|].
  destruct (Hp2 eq_refl) as [?|Hp3]; [auto|]. right. intros id' [[->|?]%elem_of_cons|?]; auto.
Qed.
End Operations.

(** The interface the shim uses: a membership hint and an insertion. *)
Class DedupFilter := {
  Filter : Type;
  filter_contains : Filter → bytes → bool;
  filter_insert : Filter → bytes → Filter
}.

(** The cuckoo filter implements it.  On well-formed filters both operations
    return ([contains_spec], [insert_spec]), so the fallbacks are not taken. *)
#[export] Instance cuckoo_filter `{X3 : Xxh3} : DedupFilter := {|
  Filter := CuckooFilter;
  filter_contains f id := match contains f id with Ok b => b | _ => true end;
  filter_insert f id := match insert f id with Ok (f, _) => f | _ => f end
|}.

(** ** Theorems *)

Section Claims.
Context `{X3 : Xxh3}.

(** C29: No false negatives: a new filter takes any sequence of insertions without
    panicking (500 kicks each at most), and as long as it has not been widened
    every inserted item is reported present, evictions and saturation
    included. *)
Theorem no_false_negatives cap ids :
  ∃ f, insert_all (with_capacity cap) ids = Ok f ∧
    (f_mask f = f_mask (with_capacity cap) → ∀ id, id ∈ ids → contains f id = Ok true).
Proof.
  destruct (with_capacity_wf cap) as (m & Hwf & _).
  destruct (insert_all_spec m _ ids Hwf) as (f & m' & Hf & Hwf' & _ & _ & Hp).
  exists f. split; [done|]. intros Hmask id Hid.
  destruct (contains_spec m' f id Hwf') as (b & -> & Hb). f_equal. apply Hb.
  destruct Hp as [?|Hp]; [|by left|right; auto].
  rewrite (wf_mask _ _ Hwf), (wf_mask _ _ Hwf') in Hmask.
  apply (Z.pow_inj_r 2); [lia|apply Hwf'|apply Hwf|lia].
Qed.

(** Clearing recovers from saturation: whatever was inserted, afterwards the
    filter is empty and answers "absent" for every item. *)
Theorem clear_recovers cap ids f :
  insert_all (with_capacity cap) ids = Ok f →
  saturated (clear f) = false ∧ is_empty (clear f) = true ∧ capacity (clear f) = capacity f ∧
  ∀ id, contains (clear f) id = Ok false.
Proof.
  intros Hf. destruct (with_capacity_wf cap) as (m & Hwf & _).
  destruct (insert_all_spec m _ ids Hwf) as (f' & m' & Hf' & [Ht Hmask] & _).
  rewrite Hf in Hf'. injection Hf' as <-. split_and!; [done|done| |].
  { unfold capacity, clear, zlen. cbn. by rewrite length_fmap. }
  assert (filter_wf m' (clear f)) as Hwf'.
  { destruct Ht as (H1 & H2 & _). split; [split_and!; [done| |]|done]; cbn.
    - unfold zlen in *. by rewrite length_fmap.
    - by apply Forall_fmap, Forall_true. }
  intros id. destruct (contains_spec m' (clear f) id Hwf') as (b & -> & Hb).
  destruct b; [|done]. exfalso. destruct (proj1 Hb eq_refl) as [?|Hp]; [done|].
  destruct (indices_range m' (clear f) id Hwf') as [_ Hfp].
  assert (∀ i, ¬ holds (clear f) i (indices (clear f) id).2) as Hn; [|by destruct Hp as [?%Hn|?%Hn]].
  intros i (b & Hb' & Hin). cbn [clear f_buckets] in Hb'. rewrite list_lookup_fmap in Hb'.
  destruct (f_buckets f !! Z.to_nat i); [|done]. injection Hb' as <-.
  apply elem_of_replicate in Hin as [? _]. done.
Qed.
End Claims.

(** ** Widening loses items *)
Module FilterWitness.
(** A hash that sends every item to bucket 1, with fingerprint 5 for the item
    whose first byte is 8 and fingerprint 1 for the others, and every bare
    fingerprint to bucket 2. *)
#[local] Instance crowded : Xxh3 := λ input,
  if zlen input =? 2 then 2
  else match input with Byte.x08 :: _ => 5 | _ => 1 end.

Definition items : list bytes := (λ n, to_le 4 n) <$> seqZ 0 9.

Lemma clear_recovers_witness :
  ∃ f, insert_all (with_capacity 16) [to_le 4 0; to_le 4 8] = Ok f ∧
    contains f (to_le 4 0) = Ok true ∧ contains (clear f) (to_le 4 0) = Ok false.
Proof.
  eexists. split; [vm_compute; reflexivity|]. split; [vm_compute; reflexivity|].
  apply (clear_recovers 16 [to_le 4 0; to_le 4 8]). vm_compute. reflexivity.
Defined.

(** [grow] re-hashes the bare fingerprint, not the item, so the item's own
    buckets no longer hold it: with a hash that crowds nine items into two
    buckets, the ninth insertion widens the table, reports success, and the
    first item inserted is then reported "definitely not present". *)
Theorem grow_loses_items :
  ∃ f, insert_all (with_capacity 16) items = Ok f ∧ saturated f = false ∧
    f_mask f = 7 ∧ contains f (to_le 4 0) = Ok false.
Proof. eexists. split; [vm_compute; reflexivity|]. vm_compute. split_and!; reflexivity. Qed.
End FilterWitness.
