(* ===== verification/Frame.v ===== *)
(** * Wire frames

    [crates/core/src/frame.rs]: the tagged frame codec.  The decoder walks a
    moving window [r] over the frame body and takes inline payloads and bulk
    symbols as slices of [body] at absolute offsets; both are kept here, and
    every index or slice can panic as it does in Rust. *)

From S2P Require Import Prelude Interfaces Block Merkle.

(** ** Data *)

Inductive FrameError : Type :=
| Truncated
| UnknownTag (tag : byte)
| UnknownKind (marker : byte)
| TooLarge (n : Z)
| MissingRef.

Definition TAG_APPEND : byte := Byte.x01.
Definition TAG_RESYNC : byte := Byte.x02.
Definition TAG_BULK : byte := Byte.x03.
Definition TAG_ACK : byte := Byte.x04.
Definition TAG_MISSING : byte := Byte.x05.
Definition REF_BIT : byte := Byte.x80.

Definition MAX_INLINE_PAYLOAD_BYTES : Z := Z.shiftl 1 30.
Definition MAX_FRAME_COUNT : Z := Z.shiftl 1 24.

Inductive FrameBlock : Type :=
| Inline (b : Block)
| Ref (id : BlockId).

Record AppendFrame : Type := mkAppend {
  ap_session_id : Z;
  ap_base_root : MerkleRoot;
  ap_blocks : list FrameBlock
}.

Record ResyncFrame : Type := mkResync {
  rs_session_id : Z;
  rs_client_root : MerkleRoot;
  rs_manifest : list BlockId
}.

Record BulkFrame : Type := mkBulk {
  bk_session_id : Z;
  bk_generation : Z;
  bk_k : Z;
  bk_symbol_size : Z;
  bk_symbols : list bytes
}.

Record AckFrame : Type := mkAck {
  ack_session_id : Z;
  ack_root : MerkleRoot
}.

Record MissingFrame : Type := mkMissing {
  ms_session_id : Z;
  ms_missing : list BlockId
}.

Inductive Frame : Type :=
| FAppend (a : AppendFrame)
| FResync (r : ResyncFrame)
| FBulk (b : BulkFrame)
| FAck (a : AckFrame)
| FMissing (m : MissingFrame).

#[global] Instance FrameBlock_eq_dec : EqDecision FrameBlock.
Proof. solve_decision. Defined.
#[global] Instance AppendFrame_eq_dec : EqDecision AppendFrame.
Proof. solve_decision. Defined.
#[global] Instance ResyncFrame_eq_dec : EqDecision ResyncFrame.
Proof. solve_decision. Defined.
#[global] Instance BulkFrame_eq_dec : EqDecision BulkFrame.
Proof. solve_decision. Defined.
#[global] Instance AckFrame_eq_dec : EqDecision AckFrame.
Proof. solve_decision. Defined.
#[global] Instance MissingFrame_eq_dec : EqDecision MissingFrame.
Proof. solve_decision. Defined.
#[global] Instance Frame_eq_dec : EqDecision Frame.
Proof. solve_decision. Defined.

(** ** Encoding *)

Definition put_u128 (buf : bytes) (v : Z) : bytes := buf ++ to_le 16 v.
Definition put_u32_le (buf : bytes) (v : Z) : bytes := buf ++ to_le 4 v.

(** [!REF_BIT]. *)
Definition byte_not (b : byte) : byte := byte.of_Z (255 - byte.unsigned b).

(** [frame_block_size]: the on-wire size used to reserve the buffer. *)
Definition frame_block_size (fb : FrameBlock) : Z :=
  match fb with
  | Inline b => 4 + 1 + 8 + 8 + zlen (payload b)
  | Ref _ => 4 + 1 + 32
  end.

Definition encode_frame_block (buf : bytes) (fb : FrameBlock) : bytes :=
  match fb with
  | Inline b =>
      let body_len := 1 + 8 + 8 + zlen (payload b) in
      let buf := put_u32_le buf body_len in
      let buf := buf ++ [byte.and (to_byte (kind b)) (byte_not REF_BIT)] in
      let buf := buf ++ to_le 8 (seq b) in
      let buf := buf ++ to_le 8 (zlen (payload b)) in
      buf ++ payload b
  | Ref id =>
      let buf := put_u32_le buf 33 in
      let buf := buf ++ [REF_BIT] in
      buf ++ id
  end.

Definition encode_frame (f : Frame) : bytes :=
  match f with
  | FAppend a =>
      let buf := [TAG_APPEND] in
      let buf := put_u128 buf (ap_session_id a) in
      let buf := buf ++ ap_base_root a in
      let buf := put_u32_le buf (zlen (ap_blocks a)) in
      foldl encode_frame_block buf (ap_blocks a)
  | FResync r =>
      let buf := [TAG_RESYNC] in
      let buf := put_u128 buf (rs_session_id r) in
      let buf := buf ++ rs_client_root r in
      let buf := put_u32_le buf (zlen (rs_manifest r)) in
      foldl (λ buf id, buf ++ id) buf (rs_manifest r)
  | FBulk b =>
      let buf := [TAG_BULK] in
      let buf := put_u128 buf (bk_session_id b) in
      let buf := put_u32_le buf (bk_generation b) in
      let buf := put_u32_le buf (bk_k b) in
      let buf := put_u32_le buf (bk_symbol_size b) in
      let buf := put_u32_le buf (zlen (bk_symbols b)) in
      foldl (λ buf s, put_u32_le buf (zlen s) ++ s) buf (bk_symbols b)
  | FAck a =>
      let buf := [TAG_ACK] in
      let buf := put_u128 buf (ack_session_id a) in
      buf ++ ack_root a
  | FMissing m =>
      let buf := [TAG_MISSING] in
      let buf := put_u128 buf (ms_session_id m) in
      let buf := put_u32_le buf (zlen (ms_missing m)) in
      foldl (λ buf id, buf ++ id) buf (ms_missing m)
  end.

(** ** Decoding *)

(** A reader consumes a prefix of the window [r] and returns the rest of it
    ([r: &mut &[u8]] in the source). *)
Abbreviation reader A := (bytes → outcome FrameError (A * bytes)).

(** [&r[n..]]. *)
Definition advance (r : bytes) (n : Z) : outcome FrameError bytes := slice r n (zlen r).

Definition take_u32 : reader Z := λ r,
  if zlen r <? 4 then Err Truncated else
  let? v := slice r 0 4 in
  let? r := advance r 4 in
  Ok (from_le v, r).

Definition take_count : reader Z := λ r,
  let? '(n, r) := take_u32 r in
  if MAX_FRAME_COUNT <? n then Err (TooLarge n) else Ok (n, r).

Definition take_u128 : reader Z := λ r,
  if zlen r <? 16 then Err Truncated else
  let? a := slice r 0 16 in
  let? r := advance r 16 in
  Ok (from_le a, r).

Definition take_block_id : reader BlockId := λ r,
  if zlen r <? 32 then Err Truncated else
  let? id := slice r 0 32 in
  let? r := advance r 32 in
  Ok (id, r).

Definition take_root : reader MerkleRoot := take_block_id.

(** [decode_frame_block(r, body)]. *)
Definition decode_frame_block (body : bytes) : reader FrameBlock := λ r,
  let? '(len, r) := take_u32 r in
  if zlen r <? len then Err Truncated else
  let off := zlen body - zlen r in
  let? marker := index r 0 in
  if decide (byte.and marker REF_BIT ≠ Byte.x00) then
    if negb (len =? 33) then Err Truncated else
    let? id := slice r 1 33 in
    let? r := advance r len in
    Ok (Ref id, r)
  else
    let? kind := ok_or (from_byte (byte.and marker (byte_not REF_BIT))) (UnknownKind marker) in
    if len <? 1 + 16 then Err Truncated else
    let? sq := slice r 1 9 in
    let seq := from_le sq in
    let? pl := slice r 9 17 in
    let plen := from_le pl in
    if MAX_INLINE_PAYLOAD_BYTES <? plen then Err (TooLarge plen) else
    if len <? 1 + 16 + plen then Err Truncated else
    let? payload := slice body (off + 1 + 16) (off + 1 + 16 + plen) in
    let? r := advance r (1 + 16 + plen) in
    Ok (Inline (mkBlock kind seq payload), r).

(** One iteration of the bulk-symbol loop of [decode_body]. *)
Definition decode_symbol (body : bytes) : reader bytes := λ r,
  let? '(len, r) := take_u32 r in
  if MAX_INLINE_PAYLOAD_BYTES <? len then Err (TooLarge len) else
  if zlen r <? len then Err Truncated else
  let off := zlen body - zlen r in
  let? s := slice body off (off + len) in
  let? r := advance r len in
  Ok (s, r).

(** [for _ in 0..n { out.push(read(&mut r)?) }]. *)
Fixpoint read_n {A} (n : nat) (rd : reader A) (r : bytes) : outcome FrameError (list A * bytes) :=
  match n with
  | O => Ok ([], r)
  | S n =>
      let? '(a, r) := rd r in
      let? '(l, r) := read_n n rd r in
      Ok (a :: l, r)
  end.

Definition decode_body (tag : byte) (body : bytes) : outcome FrameError Frame :=
  let r := body in
  if decide (tag = TAG_APPEND) then
    let? '(session_id, r) := take_u128 r in
    let? '(base_root, r) := take_root r in
    let? '(n, r) := take_count r in
    let? '(blocks, r) := read_n (Z.to_nat n) (decode_frame_block body) r in
    Ok (FAppend (mkAppend session_id base_root blocks))
  else if decide (tag = TAG_RESYNC) then
    let? '(session_id, r) := take_u128 r in
    let? '(client_root, r) := take_root r in
    let? '(n, r) := take_count r in
    let? '(manifest, r) := read_n (Z.to_nat n) take_block_id r in
    Ok (FResync (mkResync session_id client_root manifest))
  else if decide (tag = TAG_BULK) then
    let? '(session_id, r) := take_u128 r in
    let? '(generation, r) := take_u32 r in
    let? '(k, r) := take_u32 r in
    let? '(symbol_size, r) := take_u32 r in
    let? '(n, r) := take_count r in
    let? '(symbols, r) := read_n (Z.to_nat n) (decode_symbol body) r in
    Ok (FBulk (mkBulk session_id generation k symbol_size symbols))
  else if decide (tag = TAG_ACK) then
    let? '(session_id, r) := take_u128 r in
    let? '(root, r) := take_root r in
    Ok (FAck (mkAck session_id root))
  else if decide (tag = TAG_MISSING) then
    let? '(session_id, r) := take_u128 r in
    let? '(n, r) := take_count r in
    let? '(missing, r) := read_n (Z.to_nat n) take_block_id r in
    Ok (FMissing (mkMissing session_id missing))
  else Err (UnknownTag tag).

(** [decode_frame]: copies the body, then decodes it. *)
Definition decode_frame (buf : bytes) : outcome FrameError Frame :=
  if zlen buf =? 0 then Err Truncated else
  let? tag := index buf 0 in
  let? owned := advance buf 1 in
  decode_body tag owned.

(** [decode_frame_bytes]: the zero-copy entry over a transport buffer. *)
Definition decode_frame_bytes (buf : bytes) : outcome FrameError Frame :=
  if zlen buf =? 0 then Err Truncated else
  let? tag := index buf 0 in
  let? body := slice buf 1 (zlen buf) in
  decode_body tag body.

(** ** The invariant of decoded frames *)

Definition u32 (z : Z) : Prop := 0 ≤ z < 2 ^ 32.
Definition u128 (z : Z) : Prop := 0 ≤ z < 2 ^ 128.
Definition id_wf (id : bytes) : Prop := length id = 32%nat.

Definition frame_block_wf (fb : FrameBlock) : Prop :=
  match fb with
  | Inline b => block_wf b
  | Ref id => id_wf id
  end.

Definition symbol_wf (s : bytes) : Prop := zlen s ≤ MAX_INLINE_PAYLOAD_BYTES.

Definition frame_wf (f : Frame) : Prop :=
  match f with
  | FAppend a =>
      u128 (ap_session_id a) ∧ id_wf (ap_base_root a)
      ∧ zlen (ap_blocks a) ≤ MAX_FRAME_COUNT ∧ Forall frame_block_wf (ap_blocks a)
  | FResync r =>
      u128 (rs_session_id r) ∧ id_wf (rs_client_root r)
      ∧ zlen (rs_manifest r) ≤ MAX_FRAME_COUNT ∧ Forall id_wf (rs_manifest r)
  | FBulk b =>
      u128 (bk_session_id b) ∧ u32 (bk_generation b) ∧ u32 (bk_k b) ∧ u32 (bk_symbol_size b)
      ∧ zlen (bk_symbols b) ≤ MAX_FRAME_COUNT ∧ Forall symbol_wf (bk_symbols b)
  | FAck a => u128 (ack_session_id a) ∧ id_wf (ack_root a)
  | FMissing m =>
      u128 (ms_session_id m)
      ∧ zlen (ms_missing m) ≤ MAX_FRAME_COUNT ∧ Forall id_wf (ms_missing m)
  end.

#[global] Instance frame_block_wf_dec fb : Decision (frame_block_wf fb).
Proof. destruct fb; simpl; unfold id_wf; apply _. Defined.
#[global] Instance frame_wf_dec f : Decision (frame_wf f).
Proof. destruct f; simpl; unfold u128, u32, id_wf, symbol_wf; apply _. Defined.

(** ** The layout, as a concatenation *)

Definition frame_block_layout (fb : FrameBlock) : bytes :=
  match fb with
  | Inline b =>
      to_le 4 (17 + zlen (payload b)) ++
      (to_byte (kind b) :: to_le 8 (seq b) ++ to_le 8 (zlen (payload b)) ++ payload b)
  | Ref id => to_le 4 33 ++ (REF_BIT :: id)
  end.

Definition symbol_layout (s : bytes) : bytes := to_le 4 (zlen s) ++ s.

Definition body_layout (f : Frame) : bytes :=
  match f with
  | FAppend a =>
      to_le 16 (ap_session_id a) ++ ap_base_root a ++ to_le 4 (zlen (ap_blocks a)) ++
      concat (frame_block_layout <$> ap_blocks a)
  | FResync r =>
      to_le 16 (rs_session_id r) ++ rs_client_root r ++ to_le 4 (zlen (rs_manifest r)) ++
      concat (id <$> rs_manifest r)
  | FBulk b =>
      to_le 16 (bk_session_id b) ++ to_le 4 (bk_generation b) ++ to_le 4 (bk_k b) ++
      to_le 4 (bk_symbol_size b) ++ to_le 4 (zlen (bk_symbols b)) ++
      concat (symbol_layout <$> bk_symbols b)
  | FAck a => to_le 16 (ack_session_id a) ++ ack_root a
  | FMissing m =>
      to_le 16 (ms_session_id m) ++ to_le 4 (zlen (ms_missing m)) ++
      concat (id <$> ms_missing m)
  end.

Definition frame_tag (f : Frame) : byte :=
  match f with
  | FAppend _ => TAG_APPEND
  | FResync _ => TAG_RESYNC
  | FBulk _ => TAG_BULK
  | FAck _ => TAG_ACK
  | FMissing _ => TAG_MISSING
  end.

Lemma kind_byte_masked k : byte.and (to_byte k) (byte_not REF_BIT) = to_byte k.
Proof. by destruct k. Qed.

Lemma foldl_layout {A} (step : bytes → A → bytes) (lay : A → bytes) buf l :
  (∀ b a, step b a = b ++ lay a) → foldl step buf l = buf ++ concat (lay <$> l).
Proof.
  intros Hstep. revert buf. induction l as [|a l IH]; intros buf; simpl.
  - by rewrite app_nil_r.
  - by rewrite IH, Hstep, <-app_assoc.
Qed.

Lemma encode_frame_block_layout buf fb :
  encode_frame_block buf fb = buf ++ frame_block_layout fb.
Proof.
  destruct fb as [b|i]; unfold encode_frame_block, put_u32_le, frame_block_layout.
  - rewrite kind_byte_masked, <-!app_assoc. do 3 f_equal.
  - by rewrite <-!app_assoc.
Qed.

Lemma encode_frame_layout f : encode_frame f = frame_tag f :: body_layout f.
Proof.
  destruct f; unfold encode_frame, put_u128, put_u32_le;
    rewrite ?(foldl_layout encode_frame_block frame_block_layout)
      by (apply encode_frame_block_layout);
    rewrite ?(foldl_layout (λ buf i : bytes, buf ++ i) id) by done;
    rewrite ?(foldl_layout (λ buf s : bytes, (buf ++ to_le 4 (zlen s)) ++ s) symbol_layout)
      by (intros; unfold symbol_layout; by rewrite <-app_assoc);
    rewrite <-!app_assoc; done.
Qed.

(** ** Readers *)

Lemma advance_ok r n : 0 ≤ n ≤ zlen r → advance r n = Ok (zdrop n r).
Proof.
  intros. unfold advance. rewrite slice_ok by lia. f_equal.
  unfold ztake, zdrop. apply take_ge. rewrite length_drop. unfold zlen in *. lia.
Qed.

Lemma advance_app e rest n : n = zlen e → advance (e ++ rest) n = Ok rest.
Proof. intros ->. rewrite advance_ok by zl. by rewrite zdrop_app. Qed.

Lemma slice_app_head {E} e (rest : bytes) n : n = zlen e → slice (E:=E) (e ++ rest) 0 n = Ok e.
Proof.
  intros ->. rewrite slice_ok by zl. rewrite Z.sub_0_r, zdrop_0, ztake_app by done. done.
Qed.

Lemma take_u32_app v rest : u32 v → take_u32 (to_le 4 v ++ rest) = Ok (v, rest).
Proof.
  intros Hv. unfold take_u32. destruct (Z.ltb_spec (zlen (to_le 4 v ++ rest)) 4); [zl|].
  rewrite slice_app_head, advance_app by zl. cbn [obind]. by rewrite from_to_le.
Qed.

Lemma take_u128_app v rest : u128 v → take_u128 (to_le 16 v ++ rest) = Ok (v, rest).
Proof.
  intros Hv. unfold take_u128. destruct (Z.ltb_spec (zlen (to_le 16 v ++ rest)) 16); [zl|].
  rewrite slice_app_head, advance_app by zl. cbn [obind]. by rewrite from_to_le.
Qed.

Lemma take_block_id_app i rest : id_wf i → take_block_id (i ++ rest) = Ok (i, rest).
Proof.
  intros Hi. assert (zlen i = 32) by (unfold zlen, id_wf in *; lia).
  unfold take_block_id. destruct (Z.ltb_spec (zlen (i ++ rest)) 32); [zl|].
  by rewrite slice_app_head, advance_app by zl.
Qed.

Lemma take_count_app n rest :
  0 ≤ n ≤ MAX_FRAME_COUNT → take_count (to_le 4 n ++ rest) = Ok (n, rest).
Proof.
  intros Hn. unfold take_count. unfold MAX_FRAME_COUNT in *. rewrite Z.shiftl_1_l in *.
  rewrite take_u32_app by (unfold u32; lia). cbn [obind].
  by destruct (Z.ltb_spec (2 ^ 24) n); [lia|].
Qed.

(** Short windows. *)
Lemma take_u32_short r : zlen r < 4 → take_u32 r = Err Truncated.
Proof. intros. unfold take_u32. by destruct (Z.ltb_spec (zlen r) 4); [|lia]. Qed.
Lemma take_u128_short r : zlen r < 16 → take_u128 r = Err Truncated.
Proof. intros. unfold take_u128. by destruct (Z.ltb_spec (zlen r) 16); [|lia]. Qed.
Lemma take_block_id_short r : zlen r < 32 → take_block_id r = Err Truncated.
Proof. intros. unfold take_block_id. by destruct (Z.ltb_spec (zlen r) 32); [|lia]. Qed.
Lemma take_count_short r : zlen r < 4 → take_count r = Err Truncated.
Proof. intros. unfold take_count. by rewrite take_u32_short. Qed.

Lemma decode_inline_app pre b rest :
  block_wf b →
  let e := frame_block_layout (Inline b) in
  decode_frame_block (pre ++ e ++ rest) (e ++ rest) = Ok (Inline b, rest).
Proof.
  cbn [frame_block_layout]. intros Hwf.
  pose proof Hwf as [Hseq Hpl]. pose proof (block_wf_payload_u64 b Hwf) as Hpl64.
  unfold MAX_BLOCK_PAYLOAD_BYTES in Hpl. rewrite Z.shiftl_1_l in Hpl.
  destruct (canonical_fields (E:=FrameError) b rest Hwf) as (Hk & Hs & Hl & _ & _).
  assert (Hc : to_byte (kind b) :: to_le 8 (seq b) ++ to_le 8 (zlen (payload b)) ++ payload b
               = canonical_bytes b).
  { unfold canonical_bytes. by rewrite <-!app_assoc. }
  rewrite Hc, <-!app_assoc. unfold decode_frame_block at 1.
  rewrite take_u32_app by (unfold u32; zl). cbn [obind].
  destruct (Z.ltb_spec (zlen (canonical_bytes b ++ rest)) (17 + zlen (payload b))); [zl|].
  rewrite Hk. cbn [obind].
  rewrite decide_False by (by destruct (kind b); intros []). rewrite kind_byte_masked, from_to_byte.
  cbn [obind ok_or]. destruct (Z.ltb_spec (17 + zlen (payload b)) (1 + 16)); [zl|].
  rewrite Hs. cbn [obind]. rewrite Hl. cbn [obind].
  rewrite !from_to_le by done.
  unfold MAX_INLINE_PAYLOAD_BYTES. rewrite Z.shiftl_1_l.
  destruct (Z.ltb_spec (2 ^ 30) (zlen (payload b))); [zl|].
  destruct (Z.ltb_spec (17 + zlen (payload b)) (1 + 16 + zlen (payload b))); [zl|].
  assert (Hsl : slice (E:=FrameError) (pre ++ to_le 4 (17 + zlen (payload b)) ++ canonical_bytes b ++ rest)
    (zlen (pre ++ to_le 4 (17 + zlen (payload b)) ++ canonical_bytes b ++ rest)
     - zlen (canonical_bytes b ++ rest) + 1 + 16)
    (zlen (pre ++ to_le 4 (17 + zlen (payload b)) ++ canonical_bytes b ++ rest)
     - zlen (canonical_bytes b ++ rest) + 1 + 16 + zlen (payload b)) = Ok (payload b)).
  { rewrite slice_ok by zl. apply f_equal. rewrite canonical_bytes_eq, <-!app_assoc.
    rewrite (app_assoc pre), (app_assoc _ (canonical_header b)).
    rewrite (zdrop_app (_ ++ _)) by zl. apply ztake_app. lia. }
  rewrite Hsl. cbn [obind]. rewrite advance_app by zl. cbn [obind]. by destruct b.
Qed.

Lemma decode_ref_app pre i rest :
  id_wf i →
  let e := frame_block_layout (Ref i) in
  decode_frame_block (pre ++ e ++ rest) (e ++ rest) = Ok (Ref i, rest).
Proof.
  cbn [frame_block_layout]. intros Hwf.
  assert (zlen i = 32) by (unfold zlen, id_wf in *; lia).
  rewrite <-!app_assoc. unfold decode_frame_block at 1.
  rewrite take_u32_app by done. cbn [obind].
  destruct (Z.ltb_spec (zlen ((REF_BIT :: i) ++ rest)) 33); [zl|].
  cbn [app index lookup obind]. change (index (REF_BIT :: i ++ rest) 0) with (Ok (E:=FrameError) REF_BIT).
  cbn [obind]. rewrite decide_True by done. cbn [negb Z.eqb Pos.eqb].
  assert (Hsl : slice (E:=FrameError) (REF_BIT :: i ++ rest) 1 33 = Ok i).
  { rewrite slice_ok by zl. apply f_equal.
    change (REF_BIT :: i ++ rest) with ([REF_BIT] ++ i ++ rest).
    rewrite zdrop_app by done. apply ztake_app. lia. }
  rewrite Hsl. cbn [obind].
  change (REF_BIT :: i ++ rest) with ((REF_BIT :: i) ++ rest). by rewrite advance_app by zl.
Qed.

Lemma decode_frame_block_app pre fb rest :
  frame_block_wf fb →
  let e := frame_block_layout fb in
  decode_frame_block (pre ++ e ++ rest) (e ++ rest) = Ok (fb, rest).
Proof. destruct fb; [apply decode_inline_app|apply decode_ref_app]. Qed.

Lemma zlen_frame_block_layout fb :
  frame_block_wf fb → zlen (frame_block_layout fb) = frame_block_size fb.
Proof.
  destruct fb as [b|i]; cbn [frame_block_wf frame_block_layout frame_block_size];
    intros Hwf; [zl|].
  assert (zlen i = 32) by (unfold zlen, id_wf in *; lia). zl.
Qed.

(** A proper prefix of a block entry is reported as truncated. *)
Lemma decode_frame_block_trunc body fb p q :
  frame_block_wf fb → frame_block_layout fb = p ++ q → q ≠ [] →
  decode_frame_block body p = Err Truncated.
Proof.
  intros Hwf E Hq. unfold decode_frame_block.
  destruct (Z.ltb_spec (zlen p) 4) as [|Hp]; [by rewrite take_u32_short|].
  assert (Hq' : 0 < zlen q) by (destruct q; [done|zl]).
  assert (∃ v d r, u32 v ∧ frame_block_layout fb = to_le 4 v ++ d ∧ zlen d = v ∧ p = to_le 4 v ++ r)
    as (v & d & r & Hv & Ed & Hd & ->).
  { assert (Hx : ∃ v d, u32 v ∧ frame_block_layout fb = to_le 4 v ++ d ∧ zlen d = v).
    { destruct fb as [b|i]; simpl in *.
      - eexists _, _. split_and!; [|reflexivity|zl].
        destruct Hwf as [_ Hpl]. unfold MAX_BLOCK_PAYLOAD_BYTES in Hpl.
        rewrite Z.shiftl_1_l in Hpl. unfold u32; zl.
      - eexists _, _. split_and!; [|reflexivity|unfold zlen, id_wf in *; simpl; lia]. done. }
    destruct Hx as (v & d & Hv & Ed & Hd). exists v, d.
    rewrite Ed in E. apply app_eq_inv in E as [(r & E1 & E2)|(r & E1 & E2)].
    - assert (r = []) as ->.
      { apply length_zero_iff_nil. apply (f_equal zlen) in E1. unfold zlen in *.
        rewrite length_app, length_to_le in E1. lia. }
      exists []. by rewrite app_nil_r in *.
    - by exists r. }
  rewrite take_u32_app by done. cbn [obind].
  destruct (Z.ltb_spec (zlen r) v); [done|].
  apply (f_equal zlen) in E. rewrite Ed in E. zl.
Qed.

Lemma decode_symbol_app pre s rest :
  symbol_wf s →
  decode_symbol (pre ++ symbol_layout s ++ rest) (symbol_layout s ++ rest) = Ok (s, rest).
Proof.
  unfold symbol_wf, MAX_INLINE_PAYLOAD_BYTES, symbol_layout. rewrite Z.shiftl_1_l. intros Hs.
  rewrite <-!app_assoc. unfold decode_symbol at 1. rewrite take_u32_app by (unfold u32; zl).
  unfold MAX_INLINE_PAYLOAD_BYTES. rewrite Z.shiftl_1_l. cbn [obind].
  destruct (Z.ltb_spec (2 ^ 30) (zlen s)); [lia|].
  destruct (Z.ltb_spec (zlen (s ++ rest)) (zlen s)); [zl|].
  rewrite slice_ok by zl.
  rewrite (app_assoc pre), (zdrop_app (pre ++ _)) by zl. rewrite ztake_app by lia.
  cbn [obind]. by rewrite advance_app.
Qed.

Lemma decode_symbol_trunc body s p q :
  symbol_wf s → symbol_layout s = p ++ q → q ≠ [] → decode_symbol body p = Err Truncated.
Proof.
  unfold symbol_wf, MAX_INLINE_PAYLOAD_BYTES, symbol_layout. rewrite Z.shiftl_1_l. intros Hs E Hq.
  assert (Hq' : 0 < zlen q) by (destruct q; [done|zl]).
  unfold decode_symbol.
  destruct (Z.ltb_spec (zlen p) 4) as [|Hp]; [by rewrite take_u32_short|].
  apply app_eq_inv in E as [(r & E1 & E2)|(r & E1 & E2)].
  - assert (r = []) as ->.
    { apply length_zero_iff_nil. apply (f_equal zlen) in E1. unfold zlen in *.
      rewrite length_app, length_to_le in E1. lia. }
    rewrite app_nil_r in E1. subst p. simpl in E2. subst q.
    rewrite <-(app_nil_r (to_le 4 _)), take_u32_app by (unfold u32; zl). cbn [obind].
    unfold MAX_INLINE_PAYLOAD_BYTES. rewrite Z.shiftl_1_l.
    destruct (Z.ltb_spec (2 ^ 30) (zlen s)); [lia|].
    destruct (Z.ltb_spec (zlen (@nil byte)) (zlen s)); [done|zl].
  - subst p s. rewrite take_u32_app by (unfold u32; zl). cbn [obind].
    unfold MAX_INLINE_PAYLOAD_BYTES. rewrite Z.shiftl_1_l.
    destruct (Z.ltb_spec (2 ^ 30) (zlen (r ++ q))); [zl|].
    destruct (Z.ltb_spec (zlen r) (zlen (r ++ q))); [done|zl].
Qed.

(** A counted list of entries, against the layout of one entry. *)
Section ReadN.
Context {A : Type} (rd : bytes → reader A) (lay : A → bytes) (P : A → Prop).
Hypothesis rd_app : ∀ pre a rest,
  P a → rd (pre ++ lay a ++ rest) (lay a ++ rest) = Ok (a, rest).
Hypothesis rd_trunc : ∀ body a p q,
  P a → lay a = p ++ q → q ≠ [] → rd body p = Err Truncated.

Lemma read_n_app l pre rest :
  Forall P l →
  let e := concat (lay <$> l) in
  read_n (length l) (rd (pre ++ e ++ rest)) (e ++ rest) = Ok (l, rest).
Proof.
  intros Hl. revert pre. induction Hl as [|a l Ha Hl IH]; intros pre; [done|].
  rewrite fmap_cons. cbn [concat length read_n]. rewrite <-!app_assoc, rd_app by done. cbn [obind].
  specialize (IH (pre ++ lay a)). cbn zeta in IH. rewrite <-!app_assoc in IH. by rewrite IH.
Qed.

Lemma read_n_trunc l pre p q :
  Forall P l → concat (lay <$> l) = p ++ q → q ≠ [] →
  read_n (length l) (rd (pre ++ p)) p = Err Truncated.
Proof.
  intros Hl. revert pre p. induction Hl as [|a l Ha Hl IH]; intros pre p E Hq.
  - by destruct p, q.
  - rewrite fmap_cons in E. cbn [concat length read_n] in *. apply app_eq_inv in E as [(r & E1 & E2)|(r & -> & E2)].
    + destruct (decide (r = [])) as [->|Hr].
      * rewrite app_nil_r in E1. subst p.
        rewrite <-(app_nil_r (lay a)), rd_app by done. cbn [obind].
        specialize (IH (pre ++ lay a) []). rewrite !app_nil_r in *. by rewrite IH.
      * by erewrite rd_trunc.
    + rewrite rd_app by done. cbn [obind].
      specialize (IH (pre ++ lay a) r E2 Hq). rewrite <-app_assoc in IH. by rewrite IH.
Qed.
End ReadN.

Lemma take_block_id_trunc i p q :
  id_wf i → id i = p ++ q → q ≠ [] → take_block_id p = Err Truncated.
Proof.
  unfold id_wf. intros Hi E Hq. apply take_block_id_short.
  assert (0 < zlen q) by (destruct q; [done|zl]).
  apply (f_equal zlen) in E. unfold id in E. unfold zlen in *. rewrite length_app in E. lia.
Qed.

(** ** Whole frames *)

Lemma decode_frame_cons tag body : decode_frame (tag :: body) = decode_body tag body.
Proof.
  unfold decode_frame. destruct (Z.eqb_spec (zlen (tag :: body)) 0); [zl|].
  change (index (tag :: body) 0) with (Ok (E:=FrameError) tag). cbn [obind].
  by rewrite advance_ok by zl.
Qed.

Lemma zlen_range {A} (l : list A) n : zlen l ≤ n → 0 ≤ zlen l ≤ n.
Proof. intros. split; [apply zlen_nonneg|done]. Qed.

Lemma nat_of_zlen {A} (l : list A) : Z.to_nat (zlen l) = length l.
Proof. unfold zlen. lia. Qed.

(** Rewrite the readers of fixed-width fields on a laid-out body. *)
Ltac read_fields :=
  repeat first
    [ rewrite take_u128_app by done
    | rewrite take_u32_app by done
    | rewrite take_count_app by (by apply zlen_range)
    | unfold take_root; rewrite take_block_id_app by done
    | progress cbn [obind] ].

Lemma decode_body_layout f rest :
  frame_wf f → decode_body (frame_tag f) (body_layout f ++ rest) = Ok f.
Proof.
  intros Hwf. destruct f as [a|r|b|a|m]; cbn [frame_wf frame_tag body_layout] in *;
    unfold decode_body; rewrite <-!app_assoc;
    repeat (first [rewrite decide_True by done | rewrite decide_False by done]); destruct_and!;
    read_fields; rewrite ?nat_of_zlen.
  - pose proof (read_n_app decode_frame_block frame_block_layout frame_block_wf
      decode_frame_block_app (ap_blocks a)
      (to_le 16 (ap_session_id a) ++ ap_base_root a ++ to_le 4 (zlen (ap_blocks a))) rest) as E.
    cbn zeta in E. rewrite <-!app_assoc in E. rewrite E by done. by destruct a.
  - rewrite (read_n_app (λ _, take_block_id) id id_wf (λ _, take_block_id_app)
      (rs_manifest r) [] rest) by done. by destruct r.
  - pose proof (read_n_app decode_symbol symbol_layout symbol_wf decode_symbol_app (bk_symbols b)
      (to_le 16 (bk_session_id b) ++ to_le 4 (bk_generation b) ++ to_le 4 (bk_k b) ++
       to_le 4 (bk_symbol_size b) ++ to_le 4 (zlen (bk_symbols b))) rest) as E.
    cbn zeta in E. rewrite <-!app_assoc in E. rewrite E by done. by destruct b.
  - by destruct a.
  - rewrite (read_n_app (λ _, take_block_id) id id_wf (λ _, take_block_id_app)
      (ms_missing m) [] rest) by done. by destruct m.
Qed.

Lemma short_of_app {A} (e p q : list A) n : e = p ++ q → q ≠ [] → zlen e = n → zlen p < n.
Proof.
  intros -> Hq <-. assert (0 < zlen q) by (destruct q; [done|zl]). zl.
Qed.

(** [rd] reads the field [a] from its encoding [e], and reports a cut encoding
    as truncated. *)
Definition field {A} (rd : reader A) (e : bytes) (a : A) : Prop :=
  (∀ rest, rd (e ++ rest) = Ok (a, rest)) ∧
  (∀ p q, e = p ++ q → q ≠ [] → rd p = Err Truncated).

Lemma field_u32 v : u32 v → field take_u32 (to_le 4 v) v.
Proof.
  split; [intros; by apply take_u32_app|]. intros p q E Hq. apply take_u32_short.
  eapply short_of_app; [done..|zl].
Qed.

Lemma field_u128 v : u128 v → field take_u128 (to_le 16 v) v.
Proof.
  split; [intros; by apply take_u128_app|]. intros p q E Hq. apply take_u128_short.
  eapply short_of_app; [done..|zl].
Qed.

Lemma field_count {A} (l : list A) :
  zlen l ≤ MAX_FRAME_COUNT → field take_count (to_le 4 (zlen l)) (zlen l).
Proof.
  split; [intros; apply take_count_app; by apply zlen_range|].
  intros p q E Hq. apply take_count_short. eapply short_of_app; [done..|zl].
Qed.

Lemma field_id i : id_wf i → field take_block_id i i.
Proof.
  split; [intros; by apply take_block_id_app|]. intros p q E Hq. by eapply take_block_id_trunc.
Qed.

Create HintDb fields.
#[local] Hint Resolve field_u32 field_u128 field_count field_id : fields.

(** A prefix of [e1 ++ e2] either stops inside the field [e1], or leaves the
    continuation with a prefix of [e2]. *)
Lemma bind_trunc {A B} (rd : reader A) (k : A * bytes → outcome FrameError B) e1 e2 a p q :
  field rd e1 a →
  e1 ++ e2 = p ++ q → q ≠ [] →
  (∀ p', p = e1 ++ p' → e2 = p' ++ q → k (a, p') = Err Truncated) →
  obind (rd p) k = Err Truncated.
Proof.
  intros [Hok Htr] E Hq Hk. apply app_eq_inv in E as [(r & E1 & E2)|(r & -> & E2)].
  - destruct (decide (r = [])) as [->|Hr]; [|by erewrite Htr].
    rewrite app_nil_r in E1. subst p. rewrite <-(app_nil_r e1), Hok. cbn [obind].
    apply Hk; [by rewrite app_nil_r|done].
  - rewrite Hok. cbn [obind]. by apply Hk.
Qed.

(** Step over one field of a cut body. *)
Ltac trunc_field :=
  eapply bind_trunc; [|eassumption|assumption|]; [by eauto with fields|];
  let p := fresh "p" in let E := fresh "E" in
  intros p -> E; cbn beta iota.

Lemma decode_body_trunc f p q :
  frame_wf f → body_layout f = p ++ q → q ≠ [] →
  decode_body (frame_tag f) p = Err Truncated.
Proof.
  intros Hwf E Hq. destruct f as [a|r|b|a|m]; cbn [frame_wf frame_tag body_layout] in *;
    unfold decode_body, take_root; destruct_and!;
    repeat (first [rewrite decide_True by done | rewrite decide_False by done]);
    repeat trunc_field; rewrite ?nat_of_zlen, ?app_assoc.
  - by erewrite (read_n_trunc decode_frame_block frame_block_layout frame_block_wf
      decode_frame_block_app decode_frame_block_trunc).
  - by erewrite (read_n_trunc (λ _, take_block_id) id id_wf (λ _, take_block_id_app)
      (λ _, take_block_id_trunc) _ []).
  - by erewrite (read_n_trunc decode_symbol symbol_layout symbol_wf
      decode_symbol_app decode_symbol_trunc).
  - by erewrite take_block_id_trunc.
  - by erewrite (read_n_trunc (λ _, take_block_id) id id_wf (λ _, take_block_id_app)
      (λ _, take_block_id_trunc) _ []).
Qed.

(** ** What a successful decode says *)

Lemma advance_inv r n r' : advance r n = Ok r' → 0 ≤ n → r' = zdrop n r ∧ n ≤ zlen r.
Proof.
  intros H Hn. pose proof H as (? & _)%slice_inv. rewrite advance_ok in H by lia.
  simplify_eq. split; [done|lia].
Qed.

Lemma head_inv {E} r n v r' :
  slice (E:=E) r 0 n = Ok v → advance r n = Ok r' → 0 ≤ n → r = v ++ r' ∧ zlen v = n.
Proof.
  intros Hs Ha Hn. apply slice_inv in Hs as (_ & _ & Hs & Hl).
  apply advance_inv in Ha as [-> _]; [|done]. rewrite zdrop_0 in Hs. split; [done|lia].
Qed.

Lemma take_u32_inv r v r' : take_u32 r = Ok (v, r') → u32 v ∧ r = to_le 4 v ++ r'.
Proof.
  unfold take_u32. destruct (_ <? _); [done|]. intros H.
  apply obind_ok_inv in H as (x & Hx & H). apply obind_ok_inv in H as (y & Hy & [= <- <-]).
  destruct (head_inv _ _ _ _ Hx Hy ltac:(lia)) as [-> Hl].
  assert (length x = 4%nat) as L by (unfold zlen in Hl; lia).
  pose proof (from_le_bound x) as Hb. rewrite L in Hb. by rewrite to_from_le.
Qed.

Lemma take_u128_inv r v r' : take_u128 r = Ok (v, r') → u128 v ∧ r = to_le 16 v ++ r'.
Proof.
  unfold take_u128. destruct (_ <? _); [done|]. intros H.
  apply obind_ok_inv in H as (x & Hx & H). apply obind_ok_inv in H as (y & Hy & [= <- <-]).
  destruct (head_inv _ _ _ _ Hx Hy ltac:(lia)) as [-> Hl].
  assert (length x = 16%nat) as L by (unfold zlen in Hl; lia).
  pose proof (from_le_bound x) as Hb. rewrite L in Hb. by rewrite to_from_le.
Qed.

Lemma take_block_id_inv r i r' : take_block_id r = Ok (i, r') → id_wf i ∧ r = i ++ r'.
Proof.
  unfold take_block_id. destruct (_ <? _); [done|]. intros H.
  apply obind_ok_inv in H as (x & Hx & H). apply obind_ok_inv in H as (y & Hy & [= <- <-]).
  destruct (head_inv _ _ _ _ Hx Hy ltac:(lia)) as [-> Hl].
  split; [|done]. unfold id_wf. unfold zlen in Hl. lia.
Qed.

Lemma take_count_inv r n r' :
  take_count r = Ok (n, r') → 0 ≤ n ≤ MAX_FRAME_COUNT ∧ r = to_le 4 n ++ r'.
Proof.
  unfold take_count. intros H. apply obind_ok_inv in H as ([v x] & Hx & H).
  apply take_u32_inv in Hx as [[? _] ->].
  destruct (Z.ltb_spec MAX_FRAME_COUNT v); simplify_eq. split; [lia|done].
Qed.

(** A block entry that decodes is well formed; its window shrinks to a suffix. *)
Lemma decode_frame_block_inv body r fb r' :
  decode_frame_block body r = Ok (fb, r') → frame_block_wf fb ∧ ∃ e, r = e ++ r'.
Proof.
  unfold decode_frame_block. intros H. apply obind_ok_inv in H as ([len r1] & Hr & H).
  apply take_u32_inv in Hr as [_ ->].
  destruct (Z.ltb_spec (zlen r1) len); [done|]. apply obind_ok_inv in H as (m & _ & H).
  case_decide.
  - destruct (Z.eqb_spec len 33) as [->|]; [|done]. cbn [negb] in H.
    apply obind_ok_inv in H as (i & Hi & H). apply obind_ok_inv in H as (r2 & Hr2 & [= <- <-]).
    apply slice_inv in Hi as (_ & _ & _ & Hl). apply advance_inv in Hr2 as [-> _]; [|done].
    split; [simpl; unfold id_wf; unfold zlen in Hl; lia|].
    exists (to_le 4 33 ++ ztake 33 r1). by rewrite <-app_assoc, ztake_zdrop.
  - apply obind_ok_inv in H as (k & _ & H). destruct (len <? 1 + 16); [done|].
    apply obind_ok_inv in H as (sq & Hsq & H). apply obind_ok_inv in H as (pl & _ & H).
    destruct (Z.ltb_spec MAX_INLINE_PAYLOAD_BYTES (from_le pl)); [done|].
    destruct (len <? 1 + 16 + from_le pl); [done|].
    apply obind_ok_inv in H as (py & Hpy & H). apply obind_ok_inv in H as (r2 & Hr2 & [= <- <-]).
    apply slice_inv in Hsq as (_ & _ & _ & Hl). apply slice_inv in Hpy as (_ & _ & _ & Hl2).
    pose proof (from_le_bound pl). apply advance_inv in Hr2 as [-> _]; [|lia].
    assert (length sq = 8%nat) as L by (unfold zlen in Hl; lia).
    pose proof (from_le_bound sq) as Hb. rewrite L in Hb. split.
    + split; simpl; [exact Hb|]. unfold MAX_BLOCK_PAYLOAD_BYTES, MAX_INLINE_PAYLOAD_BYTES in *. lia.
    + exists (to_le 4 len ++ ztake (1 + 16 + from_le pl) r1). by rewrite <-app_assoc, ztake_zdrop.
Qed.

Lemma decode_symbol_inv body r s r' :
  decode_symbol body r = Ok (s, r') → symbol_wf s ∧ ∃ e, r = e ++ r'.
Proof.
  unfold decode_symbol. intros H. apply obind_ok_inv in H as ([len r1] & Hr & H).
  apply take_u32_inv in Hr as [[? _] ->].
  destruct (Z.ltb_spec MAX_INLINE_PAYLOAD_BYTES len); [done|]. destruct (_ <? len); [done|].
  apply obind_ok_inv in H as (x & Hx & H). apply obind_ok_inv in H as (r2 & Hr2 & [= <- <-]).
  apply slice_inv in Hx as (_ & _ & _ & Hl). apply advance_inv in Hr2 as [-> _]; [|done].
  split; [unfold symbol_wf; lia|].
  exists (to_le 4 len ++ ztake len r1). by rewrite <-app_assoc, ztake_zdrop.
Qed.

Lemma read_n_inv {A} (Q : A → Prop) (rd : reader A) n r l r' :
  (∀ r a r', rd r = Ok (a, r') → Q a) →
  read_n n rd r = Ok (l, r') → length l = n ∧ Forall Q l.
Proof.
  intros Hrd. revert r l. induction n as [|n IH]; simpl; intros r l H.
  - by simplify_eq.
  - apply obind_ok_inv in H as ([a r1] & Ha & H). apply obind_ok_inv in H as ([l2 r2] & Hl & [= <- <-]).
    apply IH in Hl as [<- Hl]. split; [done|]. constructor; [by eapply Hrd|done].
Qed.

Lemma decode_body_wf tag body f : decode_body tag body = Ok f → frame_wf f ∧ tag = frame_tag f.
Proof.
  unfold decode_body, take_root.
  repeat case_decide; intros Hd; try done;
    repeat (let Hx := fresh "Hx" in apply obind_ok_inv in Hd as ([? ?] & Hx & Hd); cbn beta iota in Hd);
    simplify_eq; split; try done; cbn;
    repeat match goal with
    | Hx : take_u128 _ = Ok _ |- _ => apply take_u128_inv in Hx as [? _]
    | Hx : take_u32 _ = Ok _ |- _ => apply take_u32_inv in Hx as [? _]
    | Hx : take_block_id _ = Ok _ |- _ => apply take_block_id_inv in Hx as [? _]
    | Hx : take_count _ = Ok _ |- _ => apply take_count_inv in Hx as [? _]
    | Hx : read_n _ (decode_frame_block _) _ = Ok _ |- _ =>
        apply (read_n_inv frame_block_wf) in Hx as [? ?];
          [|by intros ??? [? _]%decode_frame_block_inv]
    | Hx : read_n _ (decode_symbol _) _ = Ok _ |- _ =>
        apply (read_n_inv symbol_wf) in Hx as [? ?]; [|by intros ??? [? _]%decode_symbol_inv]
    | Hx : read_n _ take_block_id _ = Ok _ |- _ =>
        apply (read_n_inv id_wf) in Hx as [? ?]; [|by intros ??? [? _]%take_block_id_inv]
    end; unfold zlen; split_and!; try done; lia.
Qed.

(** ** Panics *)

Lemma take_u32_no_panic r : no_panic (take_u32 r).
Proof.
  unfold take_u32. destruct (Z.ltb_spec (zlen r) 4); [done|].
  rewrite slice_ok by lia. cbn [obind]. by rewrite advance_ok by lia.
Qed.

Lemma take_u128_no_panic r : no_panic (take_u128 r).
Proof.
  unfold take_u128. destruct (Z.ltb_spec (zlen r) 16); [done|].
  rewrite slice_ok by lia. cbn [obind]. by rewrite advance_ok by lia.
Qed.

Lemma take_block_id_no_panic r : no_panic (take_block_id r).
Proof.
  unfold take_block_id. destruct (Z.ltb_spec (zlen r) 32); [done|].
  rewrite slice_ok by lia. cbn [obind]. by rewrite advance_ok by lia.
Qed.

Lemma take_count_no_panic r : no_panic (take_count r).
Proof.
  apply obind_no_panic; [apply take_u32_no_panic|]. intros [n x] _.
  by destruct (_ <? _).
Qed.

(** The only way a block entry panics: its length field is zero and it is the
    last thing in the body. *)
Lemma decode_frame_block_panic pre r :
  decode_frame_block (pre ++ r) r = Panic → r = to_le 4 0.
Proof.
  unfold decode_frame_block. intros H. apply obind_panic_inv in H as [H|([len r1] & Hr & H)].
  { by apply take_u32_no_panic in H. }
  apply take_u32_inv in Hr as [[Hlen _] ->].
  destruct (Z.ltb_spec (zlen r1) len); [done|].
  destruct r1 as [|x r1].
  { assert (len = 0) as -> by zl. by rewrite app_nil_r. }
  exfalso. revert H. change (index (x :: r1) 0) with (Ok (E:=FrameError) x). cbn [obind].
  assert (0 < zlen (x :: r1)) by zl.
  change (¬ ?P) with (P → False). change (?P → False) with (¬ P). case_decide.
  - destruct (Z.eqb_spec len 33) as [->|]; [|done]. cbn [negb].
    rewrite slice_ok by lia. cbn [obind]. by rewrite advance_ok by lia.
  - destruct (from_byte _); [|done]. cbn [obind ok_or].
    destruct (Z.ltb_spec len (1 + 16)); [done|].
    rewrite slice_ok by lia. cbn [obind]. rewrite slice_ok by lia. cbn [obind].
    set (pl := ztake _ _). pose proof (from_le_bound pl).
    destruct (_ <? from_le pl); [done|]. destruct (Z.ltb_spec len (1 + 16 + from_le pl)); [done|].
    rewrite slice_ok by zl. cbn [obind]. by rewrite advance_ok by lia.
Qed.

Lemma decode_symbol_no_panic pre r : no_panic (decode_symbol (pre ++ r) r).
Proof.
  unfold decode_symbol. apply obind_no_panic; [apply take_u32_no_panic|].
  intros [len r1] [[Hlen _] ->]%take_u32_inv. destruct (_ <? len); [done|].
  destruct (Z.ltb_spec (zlen r1) len); [done|].
  rewrite slice_ok by zl. cbn [obind]. by rewrite advance_ok by lia.
Qed.

(** A counted list panics only where one of its entries does. *)
Lemma read_n_panic {A} (rd : reader A) n r :
  (∀ r a r', rd r = Ok (a, r') → ∃ e, r = e ++ r') →
  read_n n rd r = Panic → ∃ e r', r = e ++ r' ∧ rd r' = Panic.
Proof.
  intros Hsuf. revert r. induction n as [|n IH]; simpl; intros r H; [done|].
  apply obind_panic_inv in H as [H|([a r1] & Ha & H)]; [by exists [], r|].
  apply Hsuf in Ha as [e ->]. apply obind_panic_inv in H as [H|([??] & _ & H)]; [|done].
  destruct (IH r1 H) as (e2 & r2 & -> & Hp). exists (e ++ e2), r2. by rewrite <-app_assoc.
Qed.

Lemma read_n_no_panic {A} (rd : reader A) n r :
  (∀ r, no_panic (rd r)) → no_panic (read_n n rd r).
Proof.
  intros Hrd. revert r. induction n as [|n IH]; simpl; intros r; [done|].
  apply obind_no_panic; [apply Hrd|]. intros [a r1] _.
  apply obind_no_panic; [apply IH|]. by intros [??] _.
Qed.

Lemma decode_body_panic tag body :
  decode_body tag body = Panic → tag = TAG_APPEND ∧ ∃ e, body = e ++ to_le 4 0.
Proof.
  unfold decode_body, take_root. intros H.
  repeat case_decide; try done;
    repeat (apply obind_panic_inv in H as [H|([? ?] & ? & H)];
      [first [ by apply take_u128_no_panic in H | by apply take_u32_no_panic in H
             | by apply take_count_no_panic in H | by apply take_block_id_no_panic in H
             | by apply (read_n_no_panic take_block_id) in H; [|apply take_block_id_no_panic]
             | idtac ]|]; cbn beta iota in H); try done.
  - split; [done|].
    match goal with H1 : take_u128 _ = _, H2 : take_block_id _ = _, H3 : take_count _ = _ |- _ =>
      apply take_u128_inv in H1 as [_ ->]; apply take_block_id_inv in H2 as [_ ->];
      apply take_count_inv in H3 as [_ ->] end.
    apply read_n_panic in H as (e & r & -> & H); [|by intros ??? [_ ?]%decode_frame_block_inv].
    rewrite !app_assoc in H. apply decode_frame_block_panic in H as ->.
    rewrite !app_assoc. by eexists.
  - exfalso.
    apply read_n_panic in H as (e & r & -> & H); [|by intros ??? [_ ?]%decode_symbol_inv].
    match goal with H1 : take_u128 _ = _, H2 : take_u32 _ = Ok (_, ?a), H3 : take_u32 ?a = Ok (_, ?b),
      H4 : take_u32 ?b = _, H5 : take_count _ = _ |- _ =>
      apply take_u128_inv in H1 as [_ ->]; apply take_u32_inv in H2 as [_ ->];
      apply take_u32_inv in H3 as [_ ->]; apply take_u32_inv in H4 as [_ ->];
      apply take_count_inv in H5 as [_ ->] end.
    rewrite !app_assoc in H. by apply decode_symbol_no_panic in H.
Qed.

(** ** Claims *)

Lemma frame_roundtrip f rest :
  frame_wf f →
  decode_frame (encode_frame f ++ rest) = Ok f ∧ decode_frame_bytes (encode_frame f ++ rest) = Ok f.
Proof.
  intros Hwf.
  assert (decode_frame (encode_frame f ++ rest) = Ok f) as E; [|by split; [|rewrite <-E]].
  rewrite encode_frame_layout. cbn [app].
  rewrite decode_frame_cons. by apply decode_body_layout.
Qed.

(** C9: Decoding inverts encoding.  For every well-formed frame of the five kinds,
    decoding its encoding followed by any bytes returns the frame, by the
    copying and by the zero-copy entry point. *)
Theorem decode_encode f rest :
  frame_wf f →
  decode_frame (encode_frame f ++ rest) = Ok f
  ∧ decode_frame_bytes (encode_frame f ++ rest) = Ok f.
Proof. apply frame_roundtrip. Qed.

(** C22: Everything the decoder accepts is well formed, so re-encoding it and
    decoding again is the identity: no count, id, sequence number or payload
    beyond the documented bounds gets through. *)
Theorem decode_sound buf f :
  decode_frame buf = Ok f → frame_wf f ∧ decode_frame (encode_frame f) = Ok f.
Proof.
  destruct buf as [|tag body]; [done|]. rewrite decode_frame_cons. intros [Hwf _]%decode_body_wf.
  split; [done|]. rewrite encode_frame_layout, decode_frame_cons.
  rewrite <-(app_nil_r (body_layout f)). by apply decode_body_layout.
Qed.

(** Truncation is always detected: every proper prefix of an encoded frame is
    rejected with [Truncated] (never accepted as another frame, never a panic). *)
Theorem decode_prefix_truncated f p q :
  frame_wf f → encode_frame f = p ++ q → q ≠ [] → decode_frame p = Err Truncated.
Proof.
  intros Hwf E Hq. rewrite encode_frame_layout in E. destruct p as [|t p]; [done|].
  injection E as <- E. rewrite decode_frame_cons. by eapply decode_body_trunc.
Qed.

(** The decoder panics only on an APPEND frame that ends in a zero block-length
    field: on every other byte string it returns a frame or an error. *)
Theorem decode_panic_only buf :
  decode_frame buf = Panic → ∃ e, buf = TAG_APPEND :: e ++ to_le 4 0.
Proof.
  destruct buf as [|tag body]; [done|]. rewrite decode_frame_cons.
  intros [-> [e ->]]%decode_body_panic. by exists e.
Qed.

(** The decoder does panic there: an APPEND frame that announces one block and
    ends with the block's length field set to zero indexes an empty window
    ([r[0]]), whatever the session and root. *)
Theorem decode_panics_on_zero_length_block sid root :
  u128 sid → id_wf root →
  decode_frame (TAG_APPEND :: to_le 16 sid ++ root ++ to_le 4 1 ++ to_le 4 0) = Panic.
Proof.
  intros Hs Hr. rewrite decode_frame_cons. unfold decode_body, take_root.
  rewrite decide_True by done.
  rewrite take_u128_app by done. cbn [obind]. rewrite take_block_id_app by done. cbn [obind].
  rewrite take_count_app by done. cbn [obind]. done.
Qed.

(** ** Witnesses *)

Definition sample_append : Frame :=
  FAppend (mkAppend 5 (replicate 32 Byte.x07)
    [Inline (mkBlock ToolCall 9 [Byte.x61; Byte.x62]); Ref (replicate 32 Byte.x03)]).

Lemma decode_encode_witness :
  frame_wf sample_append
  ∧ decode_frame (encode_frame sample_append ++ [Byte.xff]) = Ok sample_append.
Proof.
  assert (H : frame_wf sample_append).
  { apply (bool_decide_unpack _). vm_compute. exact I. }
  split; [exact H|]. exact (proj1 (decode_encode sample_append [Byte.xff] H)).
Defined.

Lemma decode_sound_witness :
  decode_frame (encode_frame sample_append) = Ok sample_append ∧ frame_wf sample_append.
Proof.
  assert (H : decode_frame (encode_frame sample_append) = Ok sample_append)
    by (vm_compute; reflexivity).
  split; [exact H|]. exact (proj1 (decode_sound _ _ H)).
Defined.

Lemma decode_prefix_truncated_witness :
  decode_frame (take 100 (encode_frame sample_append)) = Err Truncated.
Proof.
  apply (decode_prefix_truncated sample_append _ (drop 100 (encode_frame sample_append))).
  - apply (bool_decide_unpack _). vm_compute. exact I.
  - symmetry. apply take_drop.
  - vm_compute. discriminate.
Defined.

Lemma decode_panic_only_witness :
  ∃ e, TAG_APPEND :: to_le 16 0 ++ ROOT_ZERO ++ to_le 4 1 ++ to_le 4 0
       = TAG_APPEND :: e ++ to_le 4 0.
Proof. apply decode_panic_only. vm_compute. reflexivity. Defined.

Lemma decode_panics_witness :
  decode_frame (TAG_APPEND :: to_le 16 42 ++ ROOT_ZERO ++ to_le 4 1 ++ to_le 4 0) = Panic.
Proof. apply decode_panics_on_zero_length_block; [unfold u128; lia|reflexivity]. Defined.
