(* ===== verification/Wal.v ===== *)
(** * The write-ahead log: records and the writer

    [crates/core/src/wal.rs], append side.  A log is a sequence of records
    [session_id:16 | variant:1 | len:u32 | bytes[len]].  The replay side, which
    calls back into the store, is in [Recovery]. *)

From S2P Require Import Prelude Interfaces Block Merkle.

(** ** I/O errors *)

Inductive ErrorKind : Type :=
| InvalidInput
| InvalidData
| WouldBlock
| OtherKind (code : nat).

Record io_error : Type := mkIo { io_kind : ErrorKind; io_msg : string }.

#[global] Instance ErrorKind_eq_dec : EqDecision ErrorKind.
Proof. solve_decision. Defined.
#[global] Instance io_error_eq_dec : EqDecision io_error.
Proof. solve_decision. Defined.

(** ** Constants *)

Definition VAR_INSERT : byte := Byte.x00.
Definition VAR_REFERENCE : byte := Byte.x01.
Definition VAR_SEED : byte := Byte.x02.
Definition VAR_CONTENT : byte := Byte.x03.
Definition HEADER : Z := 16 + 1 + 4.
Definition MAX_RECORD_BYTES : Z := 512 * 1024 * 1024.

(** ** The writer

    [w_log] is every byte the [BufWriter] accepted, in order: the file content
    after a complete flush.  [w_synced] counts the leading bytes known to be on
    disk.  [w_faults] scripts the environment: the next writer call succeeds
    ([None], or an exhausted script) or fails with an error after accepting [n]
    bytes of the buffer ([Some (e, n)]). *)
Record Wal : Type := mkWal {
  w_log : bytes;
  w_synced : Z;
  w_faults : list (option (io_error * nat))
}.

Definition write_all (w : Wal) (bs : bytes) : Wal * outcome io_error unit :=
  match w_faults w with
  | [] => (mkWal (w_log w ++ bs) (w_synced w) [], Ok tt)
  | None :: fs => (mkWal (w_log w ++ bs) (w_synced w) fs, Ok tt)
  | Some (e, n) :: fs => (mkWal (w_log w ++ take n bs) (w_synced w) fs, Err e)
  end.

(** [w.write_all(a)?; w.write_all(b)?; ...]. *)
Fixpoint write_seq (w : Wal) (parts : list bytes) : Wal * outcome io_error unit :=
  match parts with
  | [] => (w, Ok tt)
  | bs :: parts =>
      match write_all w bs with
      | (w, Ok _) => write_seq w parts
      | (w, Err e) => (w, Err e)
      | (w, Panic) => (w, Panic)
      end
  end.

Definition record_len (len : Z) : outcome io_error Z :=
  if MAX_RECORD_BYTES <? len
  then Err (mkIo InvalidInput "WAL record length exceeds safety limit")
  else if len <? 2 ^ 32 then Ok len
  else Err (mkIo InvalidInput "WAL record too large").

Definition append_insert (w : Wal) (session_id : Z) (canonical : bytes)
    : Wal * outcome io_error unit :=
  match record_len (zlen canonical) with
  | Ok len => write_seq w [to_le 16 session_id; [VAR_INSERT]; to_le 4 len; canonical]
  | Err e => (w, Err e)
  | Panic => (w, Panic)
  end.

Definition append_reference (w : Wal) (session_id : Z) (id : BlockId)
    : Wal * outcome io_error unit :=
  write_seq w [to_le 16 session_id; [VAR_REFERENCE]; to_le 4 32; id].

Definition append_seed (w : Wal) (session_id : Z) (ids : list BlockId) (root : MerkleRoot)
    : Wal * outcome io_error unit :=
  match checked_mul (zlen ids) 32 ≫= (λ len, checked_add len 36) with
  | None => (w, Err (mkIo InvalidInput "WAL seed too large"))
  | Some payload_len =>
      match record_len payload_len with
      | Ok len =>
          if zlen ids <? 2 ^ 32 then
            let count := zlen ids in
            write_seq w ([to_le 16 session_id; [VAR_SEED]; to_le 4 len; to_le 4 count]
                         ++ ids ++ [root])
          else (w, Err (mkIo InvalidInput "WAL seed has too many ids"))
      | Err e => (w, Err e)
      | Panic => (w, Panic)
      end
  end.

Definition append_content (w : Wal) (session_id : Z) (canonical : bytes)
    : Wal * outcome io_error unit :=
  match record_len (zlen canonical) with
  | Ok len => write_seq w [to_le 16 session_id; [VAR_CONTENT]; to_le 4 len; canonical]
  | Err e => (w, Err e)
  | Panic => (w, Panic)
  end.

(** [Wal::flush]: flush the buffer, and with [sync] also [sync_data]. *)
Definition flush (w : Wal) (sync : bool) : Wal * outcome io_error unit :=
  match write_all w [] with
  | (w, Ok _) =>
      if sync then
        match write_all w [] with
        | (w, Ok _) => (mkWal (w_log w) (zlen (w_log w)) (w_faults w), Ok tt)
        | (w, r) => (w, r)
        end
      else (w, Ok tt)
  | (w, r) => (w, r)
  end.

(** ** Records *)

Inductive record : Type :=
| RInsert (sid : Z) (canonical : bytes)
| RReference (sid : Z) (id : BlockId)
| RSeed (sid : Z) (ids : list BlockId) (root : MerkleRoot)
| RContent (sid : Z) (canonical : bytes).

Definition rec_sid (r : record) : Z :=
  match r with RInsert s _ | RReference s _ | RSeed s _ _ | RContent s _ => s end.

Definition rec_variant (r : record) : byte :=
  match r with
  | RInsert _ _ => VAR_INSERT
  | RReference _ _ => VAR_REFERENCE
  | RSeed _ _ _ => VAR_SEED
  | RContent _ _ => VAR_CONTENT
  end.

Definition rec_payload (r : record) : bytes :=
  match r with
  | RInsert _ c | RContent _ c => c
  | RReference _ id => id
  | RSeed _ ids root => to_le 4 (zlen ids) ++ concat ids ++ root
  end.

(** The bytes of one record. *)
Definition rec_bytes (r : record) : bytes :=
  to_le 16 (rec_sid r) ++ [rec_variant r] ++ to_le 4 (zlen (rec_payload r)) ++ rec_payload r.

Definition log_bytes (rs : list record) : bytes := concat (rec_bytes <$> rs).

(** What the reader needs of a record: field widths, and the length limit. *)
Definition rec_wf (r : record) : Prop :=
  0 ≤ rec_sid r < 2 ^ 128
  ∧ zlen (rec_payload r) ≤ MAX_RECORD_BYTES
  ∧ match r with
    | RReference _ id => length id = 32%nat
    | RSeed _ ids root => Forall (λ id : bytes, length id = 32%nat) ids ∧ length root = 32%nat
    | _ => True
    end.

Lemma zlen_rec_bytes r : zlen (rec_bytes r) = HEADER + zlen (rec_payload r).
Proof. unfold rec_bytes, HEADER. zl. Qed.

Lemma log_bytes_app rs1 rs2 : log_bytes (rs1 ++ rs2) = log_bytes rs1 ++ log_bytes rs2.
Proof. unfold log_bytes. by rewrite fmap_app, concat_app. Qed.

Lemma log_bytes_snoc rs r : log_bytes (rs ++ [r]) = log_bytes rs ++ rec_bytes r.
Proof. rewrite log_bytes_app. unfold log_bytes at 2. simpl. by rewrite app_nil_r. Qed.

(** ** The writer appends whole records, or reports an error *)

Lemma write_all_ok w w' bs u :
  write_all w bs = (w', Ok u) → w_log w' = w_log w ++ bs ∧ w_synced w' = w_synced w.
Proof. unfold write_all. repeat case_match; naive_solver. Qed.

Lemma write_seq_ok w w' parts u :
  write_seq w parts = (w', Ok u) →
  w_log w' = w_log w ++ concat parts ∧ w_synced w' = w_synced w.
Proof.
  revert w. induction parts as [|bs parts IH]; simpl; intros w H.
  - simplify_eq. by rewrite app_nil_r.
  - destruct (write_all w bs) as [w1 [[]|e|]] eqn:Hw; simplify_eq.
    apply write_all_ok in Hw as [E1 E2]. apply IH in H as [E3 E4].
    by rewrite E3, E4, E1, <-app_assoc.
Qed.

Lemma record_len_ok len v : record_len len = Ok v → v = len ∧ len ≤ MAX_RECORD_BYTES.
Proof.
  unfold record_len. destruct (Z.ltb_spec MAX_RECORD_BYTES len); [done|].
  destruct (_ <? _); naive_solver lia.
Qed.

(** [appended w w' r]: the call appended exactly the record [r]. *)
Definition appended (w w' : Wal) (r : record) : Prop :=
  w_log w' = w_log w ++ rec_bytes r ∧ w_synced w' = w_synced w
  ∧ zlen (rec_payload r) ≤ MAX_RECORD_BYTES.

Lemma append_insert_ok w w' sid c u :
  append_insert w sid c = (w', Ok u) → appended w w' (RInsert sid c).
Proof.
  unfold append_insert, appended. destruct (record_len _) eqn:Hl; [|done..].
  apply record_len_ok in Hl as [-> Hl]. intros [-> ->]%write_seq_ok. split_and!; [|done..].
  unfold rec_bytes. simpl. by rewrite app_nil_r.
Qed.

Lemma append_content_ok w w' sid c u :
  append_content w sid c = (w', Ok u) → appended w w' (RContent sid c).
Proof.
  unfold append_content, appended. destruct (record_len _) eqn:Hl; [|done..].
  apply record_len_ok in Hl as [-> Hl]. intros [-> ->]%write_seq_ok. split_and!; [|done..].
  unfold rec_bytes. simpl. by rewrite app_nil_r.
Qed.

Lemma append_reference_ok w w' sid id u :
  length id = 32%nat →
  append_reference w sid id = (w', Ok u) → appended w w' (RReference sid id).
Proof.
  intros Hid. unfold append_reference, appended. intros [-> ->]%write_seq_ok.
  assert (zlen id = 32) as Hz by (unfold zlen; lia).
  split_and!; [|done|simpl; rewrite Hz; done].
  unfold rec_bytes. cbn [rec_sid rec_variant rec_payload]. rewrite Hz. simpl. by rewrite app_nil_r.
Qed.

Lemma zlen_concat_ids (ids : list bytes) :
  Forall (λ id : bytes, length id = 32%nat) ids → zlen (concat ids) = zlen ids * 32.
Proof. intros H. unfold zlen. rewrite (length_concat_const ids 32) by done. lia. Qed.

Lemma append_seed_ok w w' sid ids root u :
  Forall (λ id : bytes, length id = 32%nat) ids → length root = 32%nat →
  append_seed w sid ids root = (w', Ok u) → appended w w' (RSeed sid ids root).
Proof.
  intros Hids Hroot. unfold append_seed, appended.
  destruct (checked_mul (zlen ids) 32) as [a|] eqn:Ha; [|done]. cbn [mbind option_bind].
  destruct (checked_add a 36) as [b|] eqn:Hb; [|done].
  unfold checked_mul in Ha. unfold checked_add in Hb. do 2 case_match; simplify_eq.
  destruct (record_len _) as [len| |] eqn:Hl; [|done..]. apply record_len_ok in Hl as [-> Hl].
  destruct (_ <? 2 ^ 32); [|done]. intros [-> ->]%write_seq_ok.
  assert (zlen root = 32) by (unfold zlen; lia).
  pose proof (zlen_concat_ids ids Hids).
  assert (zlen (rec_payload (RSeed sid ids root)) = zlen ids * 32 + 36) as Hp.
  { cbn [rec_payload]. zl. }
  split_and!; [|done|by rewrite Hp].
  unfold rec_bytes. rewrite Hp. cbn [rec_sid rec_variant rec_payload].
  rewrite concat_app. simpl. by rewrite concat_app; simpl; rewrite !app_nil_r.
Qed.
