(* ===== verification/Store.v ===== *)
(** * The content-addressed store

    [crates/core/src/store.rs]: the block map, the per-session logs, the
    counters, the attached WAL and the latched WAL error.  The sharded maps are
    modelled by one map each: an operation below is the sequence of map
    accesses the method performs. *)

From S2P Require Import Prelude Interfaces Block Merkle Wal.

(** ** State *)

Record StoreStats : Type := mkStats {
  blocks_stored : Z;
  bytes_stored : Z;
  blocks_deduped : Z;
  stat_sessions : Z
}.

Record SessionLog : Type := mkLog {
  ids : list BlockId;
  root : MerkleRoot
}.

Record ContentStore : Type := mkStore {
  blocks : gmap BlockId Block;
  sessions : gmap Z SessionLog;
  stats : StoreStats;
  wal : option Wal;
  wal_error : option io_error
}.

(** Field updates. *)
Definition set_blocks (s : ContentStore) m :=
  mkStore m (sessions s) (stats s) (wal s) (wal_error s).
Definition set_sessions (s : ContentStore) m :=
  mkStore (blocks s) m (stats s) (wal s) (wal_error s).
Definition set_stats (s : ContentStore) st :=
  mkStore (blocks s) (sessions s) st (wal s) (wal_error s).
Definition set_wal_state (s : ContentStore) w :=
  mkStore (blocks s) (sessions s) (stats s) w (wal_error s).
Definition set_wal_error (s : ContentStore) e :=
  mkStore (blocks s) (sessions s) (stats s) (wal s) e.

(** [AtomicU64::fetch_add], which wraps. *)
Definition fetch_add (c n : Z) : Z := wrap 64 (c + n).

Definition stat_new_block (st : StoreStats) (len : Z) : StoreStats :=
  mkStats (fetch_add (blocks_stored st) 1) (fetch_add (bytes_stored st) len)
          (blocks_deduped st) (stat_sessions st).
Definition stat_dedup (st : StoreStats) : StoreStats :=
  mkStats (blocks_stored st) (bytes_stored st) (fetch_add (blocks_deduped st) 1)
          (stat_sessions st).
Definition stat_new_session (st : StoreStats) : StoreStats :=
  mkStats (blocks_stored st) (bytes_stored st) (blocks_deduped st)
          (fetch_add (stat_sessions st) 1).

(** ** Operations *)

(** [ContentStore::new]. *)
Definition new : ContentStore := mkStore ∅ ∅ (mkStats 0 0 0 0) None None.

(** [ContentStore::set_wal]: the [OnceLock] keeps the first handle. *)
Definition set_wal (s : ContentStore) (w : Wal) : ContentStore :=
  match wal s with
  | Some _ => s
  | None => set_wal_state s (Some w)
  end.

(** [ContentStore::latch_wal_error]: only the first error is kept. *)
Definition latch_wal_error (s : ContentStore) (e : io_error) : ContentStore :=
  match wal_error s with
  | Some _ => s
  | None => set_wal_error s (Some e)
  end.

(** [ContentStore::record_wal_result], after the writer moved to [w]. *)
Definition record_wal_result (s : ContentStore) (r : Wal * outcome io_error unit) : ContentStore :=
  let '(w, res) := r in
  let s := set_wal_state s (Some w) in
  match res with
  | Err e => latch_wal_error s e
  | _ => s
  end.

(** [ContentStore::flush_wal]. *)
Definition flush_wal (s : ContentStore) (sync : bool) : ContentStore * outcome io_error unit :=
  match wal_error s with
  | Some e => (s, Err e)
  | None =>
      match wal s with
      | None => (s, Ok tt)
      | Some w =>
          let '(w, result) := flush w sync in
          let s := set_wal_state s (Some w) in
          match result with
          | Err e => (latch_wal_error s e, Err e)
          | r => (s, r)
          end
      end
  end.

Section Ops.
Context `{B3 : Blake3}.

(** The session-map entry of the append paths: extend the log, or create it
    with one id.  The flag says whether the session is new. *)
Definition append_session (m : gmap Z SessionLog) (session_id : Z) (id : BlockId)
    : gmap Z SessionLog * bool :=
  match m !! session_id with
  | Some log =>
      let nr := append_root (root log) id in
      (<[session_id := mkLog (ids log ++ [id]) nr]> m, false)
  | None => (<[session_id := mkLog [id] (append_root ROOT_ZERO id)]> m, true)
  end.

(** [ContentStore::insert_with_canonical]. *)
Definition insert_with_canonical (s : ContentStore) (session_id : Z) (block : Block)
    (id : BlockId) (canonical : option bytes) : ContentStore * bool :=
  let payload_len := zlen (payload block) in
  let newly := bool_decide (blocks s !! id = None) in
  let s := if newly then set_blocks s (<[id := block]> (blocks s)) else s in
  let s := if newly then set_stats s (stat_new_block (stats s) payload_len)
           else set_stats s (stat_dedup (stats s)) in
  let '(m, was_new_session) := append_session (sessions s) session_id id in
  let s := set_sessions s m in
  let s := if was_new_session then set_stats s (stat_new_session (stats s)) else s in
  let s :=
    match wal s with
    | None => s
    | Some w =>
        if newly then
          let c := default (canonical_bytes block) canonical in
          record_wal_result s (append_insert w session_id c)
        else record_wal_result s (append_reference w session_id id)
    end in
  (s, newly).

(** [ContentStore::insert_with_id]. *)
Definition insert_with_id (s : ContentStore) (session_id : Z) (block : Block) (id : BlockId)
    : ContentStore * bool :=
  insert_with_canonical s session_id block id None.

(** [ContentStore::insert]. *)
Definition insert (s : ContentStore) (session_id : Z) (block : Block) : ContentStore * bool :=
  let id := block_id block in
  insert_with_id s session_id block id.

(** [ContentStore::reference]. *)
Definition reference (s : ContentStore) (session_id : Z) (id : BlockId)
    : ContentStore * outcome string unit :=
  if decide (blocks s !! id = None)
  then (s, Err "referenced block not present in store"%string)
  else
    let '(m, _) := append_session (sessions s) session_id id in
    let s := set_sessions s m in
    let s := set_stats s (stat_dedup (stats s)) in
    let s :=
      match wal s with
      | None => s
      | Some w => record_wal_result s (append_reference w session_id id)
      end in
    (s, Ok tt).

(** [ContentStore::seed_session]. *)
Definition seed_session (s : ContentStore) (session_id : Z) (ids : list BlockId)
    (root : MerkleRoot) : ContentStore :=
  let was_new := bool_decide (sessions s !! session_id = None) in
  let s := set_sessions s (<[session_id := mkLog ids root]> (sessions s)) in
  let s := if was_new then set_stats s (stat_new_session (stats s)) else s in
  match wal s with
  | None => s
  | Some w => record_wal_result s (append_seed w session_id ids root)
  end.

(** [ContentStore::store_content_with_id]: content only, no log append. *)
Definition store_content_with_id (s : ContentStore) (session_id : Z) (block : Block)
    (id : BlockId) : ContentStore * bool :=
  let payload_len := zlen (payload block) in
  let newly := bool_decide (blocks s !! id = None) in
  let s := if newly then set_blocks s (<[id := block]> (blocks s)) else s in
  let s := if newly then set_stats s (stat_new_block (stats s) payload_len)
           else set_stats s (stat_dedup (stats s)) in
  let s :=
    match wal s with
    | None => s
    | Some w =>
        if newly then record_wal_result s (append_content w session_id (canonical_bytes block))
        else s
    end in
  (s, newly).

(** [ContentStore::store_content]. *)
Definition store_content (s : ContentStore) (session_id : Z) (block : Block)
    : ContentStore * bool :=
  store_content_with_id s session_id block (block_id block).
End Ops.

#[global] Arguments insert_with_canonical : simpl never.
#[global] Arguments store_content_with_id : simpl never.
#[global] Arguments reference : simpl never.
#[global] Arguments seed_session : simpl never.
#[global] Arguments append_session : simpl never.

(** ** Queries *)

Definition get (s : ContentStore) (id : BlockId) : option Block := blocks s !! id.

Definition contains (s : ContentStore) (id : BlockId) : bool :=
  bool_decide (is_Some (blocks s !! id)).

Definition session_root (s : ContentStore) (session_id : Z) : MerkleRoot :=
  default ROOT_ZERO (root <$> sessions s !! session_id).

Definition session_ids (s : ContentStore) (session_id : Z) : list BlockId :=
  default [] (ids <$> sessions s !! session_id).

Definition session_len (s : ContentStore) (session_id : Z) : Z :=
  default 0 ((λ l, zlen (ids l)) <$> sessions s !! session_id).

(** [ContentStore::session_list]; the order of a [DashMap] iteration is not
    specified, and callers only insert the ids in a map. *)
Definition session_list (s : ContentStore) : list Z := (map_to_list (sessions s)).*1.

(** [ContentStore::reconstruct]: ids without content are dropped. *)
Definition reconstruct (s : ContentStore) (session_id : Z) : list Block :=
  match sessions s !! session_id with
  | None => []
  | Some log => omap (λ id, blocks s !! id) (ids log)
  end.

(** [ContentStore::reconstruct_range]: [from] and [to] are clamped to the log
    length; the slice panics when [to < from] after clamping. *)
Definition reconstruct_range (s : ContentStore) (session_id : Z) (from to : Z)
    : outcome string (list Block) :=
  match sessions s !! session_id with
  | None => Ok []
  | Some log =>
      let from := Z.min from (zlen (ids log)) in
      let to := Z.min to (zlen (ids log)) in
      let? l := slice (ids log) from to in
      Ok (omap (λ id, blocks s !! id) l)
  end.

(** ** Effects

    The durable part of the state is [blocks] and [sessions]; attaching a WAL
    never changes what an operation does to it. *)

Lemma blocks_latch s e : blocks (latch_wal_error s e) = blocks s.
Proof. unfold latch_wal_error. by case_match. Qed.
Lemma sessions_latch s e : sessions (latch_wal_error s e) = sessions s.
Proof. unfold latch_wal_error. by case_match. Qed.
Lemma stats_latch s e : stats (latch_wal_error s e) = stats s.
Proof. unfold latch_wal_error. by case_match. Qed.

Lemma blocks_record s r : blocks (record_wal_result s r) = blocks s.
Proof. destruct r as [w [[]|e|]]; simpl; [done|by rewrite blocks_latch|done]. Qed.
Lemma sessions_record s r : sessions (record_wal_result s r) = sessions s.
Proof. destruct r as [w [[]|e|]]; simpl; [done|by rewrite sessions_latch|done]. Qed.
Lemma stats_record s r : stats (record_wal_result s r) = stats s.
Proof. destruct r as [w [[]|e|]]; simpl; [done|by rewrite stats_latch|done]. Qed.

Create Rewrite HintDb store.

Section Effects.
Context `{B3 : Blake3}.

(** First write wins. *)
Definition put_block (m : gmap BlockId Block) (id : BlockId) (b : Block) : gmap BlockId Block :=
  if bool_decide (m !! id = None) then <[id := b]> m else m.

Lemma insert_blocks s sid b id canon :
  blocks (insert_with_canonical s sid b id canon).1 = put_block (blocks s) id b.
Proof.
  unfold insert_with_canonical, put_block.
  case_bool_decide; cbn -[append_session record_wal_result];
    destruct (append_session (sessions s) sid id) as [m []];
    cbn -[append_session record_wal_result];
    destruct (wal s); cbn -[append_session record_wal_result];
    by rewrite ?blocks_record.
Qed.

Lemma insert_sessions s sid b id canon :
  sessions (insert_with_canonical s sid b id canon).1 = (append_session (sessions s) sid id).1.
Proof.
  unfold insert_with_canonical.
  case_bool_decide; cbn -[append_session record_wal_result];
    destruct (append_session (sessions s) sid id) as [m []];
    cbn -[append_session record_wal_result];
    destruct (wal s); cbn -[append_session record_wal_result];
    by rewrite ?sessions_record.
Qed.

Lemma content_blocks s sid b id :
  blocks (store_content_with_id s sid b id).1 = put_block (blocks s) id b.
Proof.
  unfold store_content_with_id, put_block.
  case_bool_decide; cbn -[record_wal_result]; destruct (wal s); cbn -[record_wal_result];
    by rewrite ?blocks_record.
Qed.

Lemma content_sessions s sid b id :
  sessions (store_content_with_id s sid b id).1 = sessions s.
Proof.
  unfold store_content_with_id.
  case_bool_decide; cbn -[record_wal_result]; destruct (wal s); cbn -[record_wal_result];
    by rewrite ?sessions_record.
Qed.

Lemma reference_blocks s sid id : blocks (reference s sid id).1 = blocks s.
Proof.
  unfold reference. case_decide; [done|].
  destruct (append_session (sessions s) sid id) as [m b]; cbn -[record_wal_result].
  destruct (wal s); [|done]. by rewrite blocks_record.
Qed.

Lemma reference_sessions s sid id :
  sessions (reference s sid id).1 =
  if decide (blocks s !! id = None) then sessions s else (append_session (sessions s) sid id).1.
Proof.
  unfold reference. case_decide; [done|].
  destruct (append_session (sessions s) sid id) as [m b]; cbn -[record_wal_result].
  destruct (wal s); [|done]. by rewrite sessions_record.
Qed.

Lemma seed_blocks s sid l r : blocks (seed_session s sid l r) = blocks s.
Proof.
  unfold seed_session. case_bool_decide; cbn -[record_wal_result]; destruct (wal s);
    by rewrite ?blocks_record.
Qed.

Lemma seed_sessions s sid l r :
  sessions (seed_session s sid l r) = <[sid := mkLog l r]> (sessions s).
Proof.
  unfold seed_session. case_bool_decide; cbn -[record_wal_result]; destruct (wal s);
    by rewrite ?sessions_record.
Qed.

(** The log after an append. *)
Definition log_of (m : gmap Z SessionLog) (sid : Z) : SessionLog :=
  default (mkLog [] ROOT_ZERO) (m !! sid).

Lemma append_session_eq m sid id :
  (append_session m sid id).1 =
  <[sid := mkLog (ids (log_of m sid) ++ [id]) (append_root (root (log_of m sid)) id)]> m.
Proof. unfold append_session, log_of. by destruct (m !! sid). Qed.

Lemma put_block_subseteq m id b : m ⊆ put_block m id b.
Proof. unfold put_block. case_bool_decide; [by apply insert_subseteq|done]. Qed.

Lemma put_block_present m id b : is_Some (put_block m id b !! id).
Proof.
  unfold put_block. case_bool_decide as Hm; [rewrite lookup_insert_eq; by eexists|].
  by apply not_eq_None_Some.
Qed.

Lemma put_block_idem m id b : is_Some (m !! id) → put_block m id b = m.
Proof. intros [x Hx]. unfold put_block. by rewrite bool_decide_false by (by rewrite Hx). Qed.
End Effects.

#[export] Hint Rewrite @insert_blocks @insert_sessions @content_blocks @content_sessions
  @reference_blocks @reference_sessions @seed_blocks @seed_sessions : store.

(** ** Operation sequences *)

Inductive store_op : Type :=
| OInsert (sid : Z) (b : Block) (id : BlockId) (canonical : option bytes)
| OReference (sid : Z) (id : BlockId)
| OSeed (sid : Z) (ids : list BlockId) (root : MerkleRoot)
| OContent (sid : Z) (b : Block) (id : BlockId).

Section Exec.
Context `{B3 : Blake3}.

Definition exec1 (s : ContentStore) (o : store_op) : ContentStore :=
  match o with
  | OInsert sid b id c => (insert_with_canonical s sid b id c).1
  | OReference sid id => (reference s sid id).1
  | OSeed sid l r => seed_session s sid l r
  | OContent sid b id => (store_content_with_id s sid b id).1
  end.

Definition exec (s : ContentStore) (os : list store_op) : ContentStore := foldl exec1 s os.

Lemma exec_app s os1 os2 : exec s (os1 ++ os2) = exec (exec s os1) os2.
Proof. apply foldl_app. Qed.

(** What the doc comments ask of callers: the id is the block's address, a
    canonical buffer is the block's encoding, machine widths are respected. *)
Definition op_wf (o : store_op) : Prop :=
  match o with
  | OInsert sid b id c =>
      0 ≤ sid < 2 ^ 128 ∧ block_wf b ∧ id = block_id b
      ∧ match c with None => True | Some c => c = canonical_bytes b end
  | OReference sid id => 0 ≤ sid < 2 ^ 128 ∧ length id = 32%nat
  | OSeed sid l r =>
      0 ≤ sid < 2 ^ 128 ∧ Forall (λ id : bytes, length id = 32%nat) l ∧ length r = 32%nat
  | OContent sid b id => 0 ≤ sid < 2 ^ 128 ∧ block_wf b ∧ id = block_id b
  end.

(** A seed whose root is the root of its manifest. *)
Definition op_honest (o : store_op) : Prop :=
  match o with
  | OSeed _ l r => r = root_over ROOT_ZERO l
  | _ => True
  end.

(** ** Invariants *)

Definition content_ok (s : ContentStore) : Prop :=
  ∀ id b, blocks s !! id = Some b → id = block_id b ∧ block_wf b.

Definition logs_rooted (s : ContentStore) : Prop :=
  ∀ sid l, sessions s !! sid = Some l → root l = root_over ROOT_ZERO (ids l).

Lemma put_block_content m id b :
  (∀ i x, m !! i = Some x → i = block_id x ∧ block_wf x) → id = block_id b → block_wf b →
  ∀ i x, put_block m id b !! i = Some x → i = block_id x ∧ block_wf x.
Proof.
  intros Hm -> Hb i x. unfold put_block. case_bool_decide; [|apply Hm].
  intros [[<- <-]|[_ ?]]%lookup_insert_Some; auto.
Qed.

Lemma append_session_rooted m sid id :
  (∀ i l, m !! i = Some l → root l = root_over ROOT_ZERO (ids l)) →
  ∀ i l, (append_session m sid id).1 !! i = Some l → root l = root_over ROOT_ZERO (ids l).
Proof.
  intros Hm i l. rewrite append_session_eq.
  intros [[<- <-]|[_ ?]]%lookup_insert_Some; [|by eapply Hm]. simpl.
  rewrite root_over_snoc. f_equal. unfold log_of.
  destruct (m !! sid) eqn:E; simpl; [by eapply Hm|done].
Qed.

Lemma exec1_content s o : op_wf o → content_ok s → content_ok (exec1 s o).
Proof.
  unfold content_ok. destruct o as [sid b i c|sid i|sid l r|sid b i]; cbn [exec1 op_wf op_honest]; intros Hwf Hc.
  - rewrite insert_blocks. apply put_block_content; tauto.
  - rewrite reference_blocks. done.
  - rewrite seed_blocks. done.
  - rewrite content_blocks. apply put_block_content; tauto.
Qed.

Lemma exec1_rooted s o : op_honest o → logs_rooted s → logs_rooted (exec1 s o).
Proof.
  unfold logs_rooted. destruct o as [sid b i c|sid i|sid l r|sid b i]; cbn [exec1 op_wf op_honest]; intros Hh Hr.
  - rewrite insert_sessions. by apply append_session_rooted.
  - rewrite reference_sessions. case_decide; [done|].
    by apply append_session_rooted.
  - rewrite seed_sessions. intros j x.
    intros [[_ <-]|[_ ?]]%lookup_insert_Some; [done|by eapply Hr].
  - rewrite content_sessions. done.
Qed.

Lemma exec1_blocks_mono s o : blocks s ⊆ blocks (exec1 s o).
Proof.
  destruct o as [sid b i c|sid i|sid l r|sid b i]; cbn [exec1].
  - rewrite insert_blocks. apply put_block_subseteq.
  - by rewrite reference_blocks.
  - by rewrite seed_blocks.
  - rewrite content_blocks. apply put_block_subseteq.
Qed.

(** The stored-blocks counter is the number of distinct blocks, modulo 2^64. *)
Definition stored_counted (s : ContentStore) : Prop :=
  blocks_stored (stats s) = wrap 64 (Z.of_nat (size (blocks s))).

Lemma wrap_add_wrap a b : wrap 64 (wrap 64 a + b) = wrap 64 (a + b).
Proof. unfold wrap. by rewrite Zplus_mod_idemp_l. Qed.

Lemma put_block_counted m id b n :
  n = wrap 64 (Z.of_nat (size m)) →
  (if bool_decide (m !! id = None) then fetch_add n 1 else n)
  = wrap 64 (Z.of_nat (size (put_block m id b))).
Proof.
  intros ->. unfold put_block. case_bool_decide; [|done].
  rewrite map_size_insert_None by done. unfold fetch_add. rewrite wrap_add_wrap. f_equal. lia.
Qed.

Lemma insert_stored s sid b id c :
  blocks_stored (stats (insert_with_canonical s sid b id c).1) =
  if bool_decide (blocks s !! id = None) then fetch_add (blocks_stored (stats s)) 1
  else blocks_stored (stats s).
Proof.
  unfold insert_with_canonical.
  case_bool_decide; cbn -[append_session record_wal_result fetch_add];
    destruct (append_session (sessions s) sid id) as [m []];
    cbn -[append_session record_wal_result fetch_add];
    destruct (wal s); cbn -[append_session record_wal_result fetch_add];
    by rewrite ?stats_record.
Qed.

Lemma content_stored s sid b id :
  blocks_stored (stats (store_content_with_id s sid b id).1) =
  if bool_decide (blocks s !! id = None) then fetch_add (blocks_stored (stats s)) 1
  else blocks_stored (stats s).
Proof.
  unfold store_content_with_id.
  case_bool_decide; cbn -[record_wal_result fetch_add]; destruct (wal s);
    cbn -[record_wal_result fetch_add]; by rewrite ?stats_record.
Qed.

Lemma reference_stored s sid id :
  blocks_stored (stats (reference s sid id).1) = blocks_stored (stats s).
Proof.
  unfold reference. case_decide; [done|].
  destruct (append_session (sessions s) sid id) as [m b]; cbn -[record_wal_result].
  destruct (wal s); [|done]. by rewrite stats_record.
Qed.

Lemma seed_stored s sid l r :
  blocks_stored (stats (seed_session s sid l r)) = blocks_stored (stats s).
Proof.
  unfold seed_session. case_bool_decide; cbn -[record_wal_result]; destruct (wal s);
    by rewrite ?stats_record.
Qed.

Lemma exec1_counted s o : stored_counted s → stored_counted (exec1 s o).
Proof.
  unfold stored_counted. intros H.
  destruct o as [sid b i c|sid i|sid l r|sid b i]; cbn [exec1].
  - rewrite insert_stored, insert_blocks. by apply put_block_counted.
  - by rewrite reference_stored, reference_blocks.
  - by rewrite seed_stored, seed_blocks.
  - rewrite content_stored, content_blocks. by apply put_block_counted.
Qed.

(** ** Reconstruction *)

(** Every id of the session's log has content. *)
Definition backed (s : ContentStore) (sid : Z) : Prop :=
  Forall (λ id, is_Some (blocks s !! id)) (session_ids s sid).

Lemma session_ids_append m s sid id :
  sessions s = (append_session m sid id).1 → session_ids s sid = ids (log_of m sid) ++ [id].
Proof.
  intros E. unfold session_ids. by rewrite E, append_session_eq, lookup_insert_eq.
Qed.

Lemma session_root_append m s sid id :
  sessions s = (append_session m sid id).1 →
  session_root s sid = append_root (root (log_of m sid)) id.
Proof.
  intros E. unfold session_root. by rewrite E, append_session_eq, lookup_insert_eq.
Qed.

Lemma log_of_ids s sid : ids (log_of (sessions s) sid) = session_ids s sid.
Proof. unfold log_of, session_ids. by destruct (sessions s !! sid). Qed.

Lemma log_of_root s sid : root (log_of (sessions s) sid) = session_root s sid.
Proof. unfold log_of, session_root. by destruct (sessions s !! sid). Qed.

Lemma reconstruct_ids s sid :
  reconstruct s sid = omap (λ id, blocks s !! id) (session_ids s sid).
Proof. unfold reconstruct, session_ids. by destruct (sessions s !! sid). Qed.

Lemma omap_mono (m m' : gmap BlockId Block) l :
  m ⊆ m' → Forall (λ id, is_Some (m !! id)) l →
  omap (λ id, m' !! id) l = omap (λ id, m !! id) l.
Proof.
  intros Hsub. induction 1 as [|id l [b Hb] _ IH]; [done|]. cbn.
  rewrite (lookup_weaken m m' id b Hb Hsub), Hb. by rewrite IH.
Qed.

(** Appending one block to a session, by its address. *)
Definition append_block (s : ContentStore) (sid : Z) (b : Block) : ContentStore :=
  (insert s sid b).1.

Lemma append_block_step s sid b :
  content_ok s → backed s sid → block_wf b →
  content_ok (append_block s sid b) ∧ backed (append_block s sid b) sid
  ∧ session_ids (append_block s sid b) sid = session_ids s sid ++ [block_id b]
  ∧ session_root (append_block s sid b) sid = append_root (session_root s sid) (block_id b)
  ∧ (reconstruct (append_block s sid b) sid = reconstruct s sid ++ [b] ∨ blake3_collision).
Proof.
  intros Hc Hb Hwf. unfold append_block, insert, insert_with_id.
  set (s' := (insert_with_canonical s sid b (block_id b) None).1).
  assert (Hbl : blocks s' = put_block (blocks s) (block_id b) b) by apply insert_blocks.
  assert (Hse : sessions s' = (append_session (sessions s) sid (block_id b)).1)
    by apply insert_sessions.
  assert (Hids : session_ids s' sid = session_ids s sid ++ [block_id b]).
  { by rewrite (session_ids_append _ _ _ _ Hse), log_of_ids. }
  assert (Hc' : content_ok s').
  { unfold content_ok. rewrite Hbl. by apply put_block_content. }
  assert (Hsub : blocks s ⊆ blocks s') by (rewrite Hbl; apply put_block_subseteq).
  assert (Hpres : is_Some (blocks s' !! block_id b)) by (rewrite Hbl; apply put_block_present).
  split_and!; [done| |done| |].
  - unfold backed. rewrite Hids. apply Forall_app. split; [|by constructor].
    eapply Forall_impl; [|exact Hb]. intros i [x Hx]. exists x. by eapply lookup_weaken.
  - by rewrite (session_root_append _ _ _ _ Hse), log_of_root.
  - rewrite !reconstruct_ids, Hids, omap_app, (omap_mono (blocks s) (blocks s')) by done.
    destruct Hpres as [x Hx]. destruct (Hc' _ _ Hx) as [Ex Hwx].
    destruct (block_id_inj b x Hwf Hwx Ex) as [<-|]; [left|by right]. cbn. by rewrite Hx.
Qed.
End Exec.

(** ** The latch *)

Section Latch.
Context `{B3 : Blake3}.

Lemma latch_keeps s e e' : wal_error s = Some e → wal_error (latch_wal_error s e') = Some e.
Proof. intros H. unfold latch_wal_error. by rewrite H. Qed.

Lemma record_keeps s r e : wal_error s = Some e → wal_error (record_wal_result s r) = Some e.
Proof.
  intros H. destruct r as [w [[]|e'|]]; simpl; [done| |done]. by apply latch_keeps.
Qed.

Lemma exec1_keeps s o e : wal_error s = Some e → wal_error (exec1 s o) = Some e.
Proof.
  intros H. destruct o as [sid b i c|sid i|sid l r|sid b i]; cbn [exec1].
  - unfold insert_with_canonical. case_bool_decide; cbn -[append_session record_wal_result];
      destruct (append_session (sessions s) sid i) as [m []];
      cbn -[append_session record_wal_result]; destruct (wal s); try done; by apply record_keeps.
  - unfold reference. case_decide; [done|].
    destruct (append_session (sessions s) sid i) as [m b]. cbn -[record_wal_result].
    destruct (wal s); [by apply record_keeps|done].
  - unfold seed_session. case_bool_decide; cbn -[record_wal_result];
      (destruct (wal s); [by apply record_keeps|done]).
  - unfold store_content_with_id. case_bool_decide; cbn -[record_wal_result];
      destruct (wal s); try done; by apply record_keeps.
Qed.

Lemma exec_keeps s os e : wal_error s = Some e → wal_error (exec s os) = Some e.
Proof.
  revert s. induction os as [|o os IH]; intros s H; [done|].
  apply (IH (exec1 s o)). by apply exec1_keeps.
Qed.
End Latch.

(** ** Claims *)

Section Claims.
Context `{B3 : Blake3}.


(** Reconstruction returns the appended blocks, in order.  Inserting a list of
    well-formed blocks into a session whose log has all its content extends
    the id log by their addresses, advances the root over them, and
    reconstructing the session yields the old blocks followed by the new
    ones, unless BLAKE3 has a collision. *)
Theorem reconstruct_appended s sid bs :
  content_ok s → backed s sid → Forall block_wf bs →
  let s' := foldl (λ s b, (insert s sid b).1) s bs in
  session_ids s' sid = session_ids s sid ++ (block_id <$> bs)
  ∧ session_root s' sid = root_over (session_root s sid) (block_id <$> bs)
  ∧ (reconstruct s' sid = reconstruct s sid ++ bs ∨ blake3_collision).
Proof.
  intros Hc Hb Hbs. revert s Hc Hb. induction Hbs as [|b bs Hwf _ IH]; intros s Hc Hb; cbn zeta.
  - simpl. rewrite !app_nil_r. auto.
  - destruct (append_block_step s sid b Hc Hb Hwf) as (Hc' & Hb' & Hi & Hr & Hrec).
    destruct (IH _ Hc' Hb') as (Hi' & Hr' & Hrec').
    change (foldl (λ s b, (insert s sid b).1) s (b :: bs))
      with (foldl (λ s b, (insert s sid b).1) (append_block s sid b) bs).
    rewrite Hi', Hr', Hi, Hr, <-app_assoc. split_and!; [done|done|].
    destruct Hrec as [Hrec|]; [|by right]. destruct Hrec' as [Hrec'|]; [left|by right].
    by rewrite Hrec', Hrec, <-app_assoc.
Qed.

(** The error latch: once a WAL append or flush has failed, [flush_wal] reports
    that same error for ever, whatever operations follow. *)
Theorem wal_error_latched s e os sync :
  wal_error s = Some e →
  wal_error (exec s os) = Some e ∧ (flush_wal (exec s os) sync).2 = Err e.
Proof.
  intros He. pose proof (exec_keeps s os e He) as He'.
  split; [done|]. unfold flush_wal. by rewrite He'.
Qed.
End Claims.

(** ** Witnesses *)
Module StoreWitness.
Import Toy.

Definition b1 : Block := mkBlock System 1 [Byte.x73].
Definition b2 : Block := mkBlock Message 2 [Byte.x75; Byte.x76].

Lemma b1_wf : block_wf b1.
Proof. apply (bool_decide_unpack _). vm_compute. exact I. Defined.
Lemma b2_wf : block_wf b2.
Proof. apply (bool_decide_unpack _). vm_compute. exact I. Defined.

Lemma new_content_ok : content_ok new.
Proof. intros id b H. discriminate H. Defined.
Lemma new_rooted : logs_rooted new.
Proof. intros sid l H. discriminate H. Defined.

Definition ops : list store_op :=
  [OInsert 7 b1 (block_id b1) None; OReference 8 (block_id b1);
   OSeed 9 [block_id b2] (root_over ROOT_ZERO [block_id b2]); OContent 9 b2 (block_id b2)].

Lemma ops_wf : Forall op_wf ops.
Proof.
  repeat constructor; try (vm_compute; discriminate); try apply b1_wf; try apply b2_wf.
Defined.

Lemma ops_honest : Forall op_honest ops.
Proof. repeat constructor. Defined.


Lemma reconstruct_appended_witness :
  let s' := foldl (λ s b, (insert s 7 b).1) new [b1; b2] in
  reconstruct s' 7 = reconstruct new 7 ++ [b1; b2] ∨ blake3_collision.
Proof.
  refine (proj2 (proj2 (reconstruct_appended new 7 [b1; b2] new_content_ok _ _))).
  - vm_compute. constructor.
  - constructor; [exact b1_wf|]. constructor; [exact b2_wf|]. constructor.
Defined.

Lemma wal_error_latched_witness :
  let e := mkIo (OtherKind 28) "no space left on device" in
  let s := latch_wal_error new e in
  wal_error (exec s ops) = Some e ∧ (flush_wal (exec s ops) true).2 = Err e.
Proof. apply wal_error_latched. vm_compute. reflexivity. Defined.

(** A session that starts with a reference to known content (the dedup path
    across sessions) is not counted: two sessions exist, [StoreStats.sessions]
    reports one. *)
Theorem reference_session_uncounted :
  let s := (reference (insert new 7 b1).1 8 (block_id b1)).1 in
  size (sessions s) = 2%nat ∧ stat_sessions (stats s) = 1.
Proof. vm_compute. split; reflexivity. Qed.
End StoreWitness.
