(* ===== verification/Recovery.v ===== *)
(** * WAL replay and crash recovery

    [crates/core/src/wal.rs], open side, and [ContentStore::with_wal]: replay a
    log into a store, cut a torn tail, attach the writer.  The main theorem says
    that a crash at any byte after the last sync recovers the state after some
    prefix of the operations, and loses nothing that was flushed. *)

From S2P Require Import Prelude Interfaces Block Merkle Wal Store.

(** ** Operations *)

(** A WAL file: its content, whether another process holds the lock, and the
    environment script of the writer that [open] creates. *)
Record wal_file : Type := mkFile {
  f_data : bytes;
  f_locked : bool;
  f_faults : list (option (io_error * nat))
}.

(** [read_exact_or_eof(r, buf)] with [buf.len() = n]: the next [n] bytes, or
    nothing at a clean or partial end of file. *)
Definition read_exact_or_eof (r : bytes) (n : Z) : option (bytes * bytes) :=
  if zlen r <? n then None else Some (ztake n r, zdrop n r).

(** [for i in 0..count { out.push(f(i)) }] over a body that can panic. *)
Fixpoint collect {E A} (f : Z → outcome E A) (i : Z) (count : nat) : outcome E (list A) :=
  match count with
  | O => Ok []
  | S count =>
      let? a := f i in
      let? l := collect f (i + 1) count in
      Ok (a :: l)
  end.

Section Ops.
Context `{B3 : Blake3}.

(** The [match variant] of [replay]. *)
Definition replay_record (s : ContentStore) (session_id : Z) (variant : byte) (payload : bytes)
    : outcome io_error ContentStore :=
  if decide (variant = VAR_INSERT) then
    match from_canonical payload with
    | Ok block => Ok (insert s session_id block).1
    | Err _ => Ok s
    | Panic => Panic
    end
  else if decide (variant = VAR_REFERENCE) then
    if zlen payload =? 32 then Ok (reference s session_id payload).1 else Ok s
  else if decide (variant = VAR_SEED) then
    if 4 <=? zlen payload then
      let? c := slice payload 0 4 in
      let count := from_le c in
      let need := checked_mul count 32 ≫= (λ n, checked_add n 36) in
      if decide (need = Some (zlen payload)) then
        let? ids := collect (λ i, slice payload (4 + i * 32) (4 + i * 32 + 32))
                            0 (Z.to_nat count) in
        let? root := slice payload (4 + count * 32) (4 + count * 32 + 32) in
        Ok (seed_session s session_id ids root)
      else Ok s
    else Ok s
  else if decide (variant = VAR_CONTENT) then
    match from_canonical payload with
    | Ok block => Ok (store_content s session_id block).1
    | Err _ => Ok s
    | Panic => Panic
    end
  else Ok s.

(** The loop of [replay]; [pos] is the stream position.  Each round consumes a
    header, so [S (length r)] rounds are enough ([replay_terminates]). *)
Fixpoint replay_loop (fuel : nat) (pos : Z) (r : bytes) (s : ContentStore)
    : outcome io_error (Z * ContentStore) :=
  match fuel with
  | O => Panic
  | S fuel =>
      let record_start := pos in
      match read_exact_or_eof r HEADER with
      | None => Ok (record_start, s)
      | Some (hdr, r) =>
          let? sid_bytes := slice hdr 0 16 in
          let session_id := from_le sid_bytes in
          let? variant := index hdr 16 in
          let? len_bytes := slice hdr 17 21 in
          let len := from_le len_bytes in
          if MAX_RECORD_BYTES <? len
          then Err (mkIo InvalidData "WAL record length exceeds safety limit")
          else
            match read_exact_or_eof r len with
            | None => Ok (record_start, s)
            | Some (payload, r) =>
                let? s := replay_record s session_id variant payload in
                replay_loop fuel (pos + HEADER + len) r s
            end
      end
  end.

Definition replay (data : bytes) (s : ContentStore) : outcome io_error (Z * ContentStore) :=
  replay_loop (S (length data)) 0 data s.

(** [Wal::open]. *)
Definition Wal_open (f : wal_file) (s : ContentStore) : outcome io_error (Wal * ContentStore) :=
  if f_locked f then Err (mkIo WouldBlock "lock would block") else
  let original_len := zlen (f_data f) in
  let? '(valid_len, s) := replay (f_data f) s in
  let data := if valid_len <? original_len then ztake valid_len (f_data f) else f_data f in
  Ok (mkWal data (zlen data) (f_faults f), s).

(** [ContentStore::with_wal]. *)
Definition with_wal (f : wal_file) : outcome io_error ContentStore :=
  let? '(w, s) := Wal_open f new in
  Ok (set_wal s w).

(** ** Records and states *)

(** The effect of one intact record. *)
Definition apply_rec (s : ContentStore) (r : record) : ContentStore :=
  match r with
  | RInsert sid c =>
      match from_canonical c with Ok b => (insert s sid b).1 | _ => s end
  | RReference sid id => (reference s sid id).1
  | RSeed sid l rt => seed_session s sid l rt
  | RContent sid c =>
      match from_canonical c with Ok b => (store_content s sid b).1 | _ => s end
  end.

(** The durable part of a store. *)
Definition view (s : ContentStore) : gmap BlockId Block * gmap Z SessionLog :=
  (blocks s, sessions s).

Lemma collect_chunks {E} pre (l : list bytes) rest i :
  Forall (λ x : bytes, length x = 32%nat) l → zlen pre = 4 + i * 32 →
  collect (E:=E) (λ i, slice (pre ++ concat l ++ rest) (4 + i * 32) (4 + i * 32 + 32)) i (length l)
  = Ok l.
Proof.
  intros Hl. revert pre i. induction Hl as [|x l Hx Hl IH]; intros pre i Hpre; [done|].
  cbn [concat length collect]. assert (zlen x = 32) by (unfold zlen; lia).
  rewrite <-app_assoc, slice_ok by zl. cbn [obind].
  rewrite (zdrop_app pre) by lia. rewrite ztake_app by lia.
  specialize (IH (pre ++ x) (i + 1)). rewrite <-app_assoc in IH. rewrite IH by zl. done.
Qed.

Lemma replay_record_wf s r :
  rec_wf r → replay_record s (rec_sid r) (rec_variant r) (rec_payload r) = Ok (apply_rec s r).
Proof.
  intros (_ & Hmax & Hr). unfold replay_record.
  destruct r as [sid c|sid i|sid l rt|sid c]; cbn [rec_variant rec_payload rec_sid apply_rec] in *;
    repeat (first [rewrite decide_True by done | rewrite decide_False by done]).
  - pose proof (from_canonical_not_panic c). by destruct (from_canonical c).
  - assert (zlen i = 32) as -> by (unfold zlen; lia). done.
  - destruct Hr as [Hl Hrt]. pose proof (zlen_concat_ids l Hl). unfold MAX_RECORD_BYTES in Hmax.
    assert (zlen rt = 32) by (unfold zlen; lia).
    destruct (Z.leb_spec 4 (zlen (to_le 4 (zlen l) ++ concat l ++ rt))); [|zl].
    rewrite slice_ok by zl. rewrite zdrop_0, Z.sub_0_r, ztake_app by zl. cbn [obind].
    rewrite from_to_le by zl. unfold checked_mul, checked_add, usize_max.
    destruct (Z.leb_spec (zlen l * 32) (2 ^ 64 - 1)); [|zl]. cbn [mbind option_bind].
    destruct (Z.leb_spec (zlen l * 32 + 36) (2 ^ 64 - 1)); [|zl].
    rewrite decide_True by (f_equal; zl).
    replace (Z.to_nat (zlen l)) with (length l) by (unfold zlen; lia).
    rewrite collect_chunks by (done || zl). cbn [obind].
    rewrite slice_ok by zl. cbn [obind].
    rewrite (app_assoc (to_le 4 _)), zdrop_app by zl.
    rewrite <-(app_nil_r rt), ztake_app by zl. by rewrite app_nil_r.
  - pose proof (from_canonical_not_panic c). by destruct (from_canonical c).
Qed.

(** The 21-byte header of a record, and its fields. *)
Definition rec_header (r : record) : bytes :=
  to_le 16 (rec_sid r) ++ [rec_variant r] ++ to_le 4 (zlen (rec_payload r)).

Lemma rec_bytes_header r : rec_bytes r = rec_header r ++ rec_payload r.
Proof. unfold rec_bytes, rec_header. by rewrite <-!app_assoc. Qed.

Lemma zlen_rec_header r : zlen (rec_header r) = HEADER.
Proof. unfold rec_header, HEADER. zl. Qed.

Lemma rec_header_fields r :
  slice (E:=io_error) (rec_header r) 0 16 = Ok (to_le 16 (rec_sid r))
  ∧ index (E:=io_error) (rec_header r) 16 = Ok (rec_variant r)
  ∧ slice (E:=io_error) (rec_header r) 17 21 = Ok (to_le 4 (zlen (rec_payload r))).
Proof.
  assert (zlen (rec_header r) = 21) by apply zlen_rec_header.
  split_and!; [| done |]; rewrite slice_ok by lia; unfold rec_header.
  - by rewrite zdrop_0, ztake_app by zl.
  - rewrite app_assoc, zdrop_app by zl.
    rewrite <-(app_nil_r (to_le 4 _)), ztake_app by zl. by rewrite app_nil_r.
Qed.

(** A round that finds the header of [r]. *)
Lemma replay_loop_header fuel pos r rest s :
  rec_wf r →
  replay_loop (S fuel) pos (rec_header r ++ rest) s =
  match read_exact_or_eof rest (zlen (rec_payload r)) with
  | None => Ok (pos, s)
  | Some (payload, rest) =>
      let? s := replay_record s (rec_sid r) (rec_variant r) payload in
      replay_loop fuel (pos + HEADER + zlen (rec_payload r)) rest s
  end.
Proof.
  intros (Hsid & Hmax & _). cbn [replay_loop].
  assert (read_exact_or_eof (rec_header r ++ rest) HEADER = Some (rec_header r, rest)) as ->.
  { unfold read_exact_or_eof. pose proof (zlen_rec_header r) as Hh.
    destruct (Z.ltb_spec (zlen (rec_header r ++ rest)) HEADER); [zl|].
    by rewrite ztake_app, zdrop_app. }
  destruct (rec_header_fields r) as (-> & -> & ->). cbn [obind].
  rewrite (from_to_le 16) by done. unfold MAX_RECORD_BYTES in *.
  rewrite (from_to_le 4) by (pose proof (zlen_nonneg (rec_payload r)); lia).
  by destruct (Z.ltb_spec (512 * 1024 * 1024) (zlen (rec_payload r))); [lia|].
Qed.

(** One round over an intact record. *)
Lemma replay_loop_step fuel pos r rest s :
  rec_wf r →
  replay_loop (S fuel) pos (rec_bytes r ++ rest) s =
  replay_loop fuel (pos + zlen (rec_bytes r)) rest (apply_rec s r).
Proof.
  intros Hwf. rewrite rec_bytes_header, <-app_assoc, replay_loop_header by done.
  unfold read_exact_or_eof.
  destruct (Z.ltb_spec (zlen (rec_payload r ++ rest)) (zlen (rec_payload r))); [zl|].
  rewrite ztake_app, zdrop_app by done. rewrite replay_record_wf by done. cbn [obind].
  by rewrite zlen_app, zlen_rec_header, Z.add_assoc.
Qed.

(** One round over a torn record stops at its start. *)
Lemma replay_loop_torn fuel pos r p q s :
  rec_wf r → rec_bytes r = p ++ q → q ≠ [] → replay_loop (S fuel) pos p s = Ok (pos, s).
Proof.
  intros Hwf E Hq. assert (Hq' : 0 < zlen q) by (destruct q; [done|zl]).
  destruct (Z.ltb_spec (zlen p) HEADER) as [Hlt|Hp].
  { cbn [replay_loop]. unfold read_exact_or_eof.
    by destruct (Z.ltb_spec (zlen p) HEADER); [|lia]. }
  rewrite rec_bytes_header in E.
  assert (ztake HEADER p = rec_header r ∧ rec_payload r = zdrop HEADER p ++ q) as [Eh Ep].
  { rewrite <-(ztake_zdrop HEADER p) in E at 1. rewrite <-app_assoc in E.
    apply app_inj_1 in E as [-> ->]; [done|]. apply Nat2Z.inj.
    change (zlen (rec_header r) = zlen (ztake HEADER p)).
    rewrite zlen_ztake, zlen_rec_header; [done|]. unfold HEADER in *. lia. }
  rewrite <-(ztake_zdrop HEADER p), Eh, replay_loop_header by done. unfold read_exact_or_eof.
  destruct (Z.ltb_spec (zlen (zdrop HEADER p)) (zlen (rec_payload r))); [done|].
  rewrite Ep in *. zl.
Qed.

(** Replaying a log, with or without a torn record at its end. *)
Lemma replay_loop_log fuel pos rs tail s :
  Forall rec_wf rs → (length rs < fuel)%nat →
  (tail = [] ∨ ∃ r q, rec_wf r ∧ rec_bytes r = tail ++ q ∧ q ≠ []) →
  replay_loop fuel pos (log_bytes rs ++ tail) s =
  Ok (pos + zlen (log_bytes rs), foldl apply_rec s rs).
Proof.
  intros Hrs. revert fuel pos s. induction Hrs as [|r rs Hr Hrs IH]; intros fuel pos s Hf Ht.
  - destruct fuel as [|fuel]; [simpl in Hf; lia|]. unfold log_bytes. simpl foldl.
    rewrite fmap_nil. cbn [concat app]. rewrite zlen_nil, Z.add_0_r.
    destruct Ht as [->|(r & q & Hr & E & Hq)]; [done|]. by eapply replay_loop_torn.
  - destruct fuel as [|fuel]; [simpl in Hf; lia|]. unfold log_bytes.
    rewrite fmap_cons. cbn [concat]. fold (log_bytes rs). rewrite <-app_assoc.
    rewrite replay_loop_step by done. rewrite IH; [|simpl in Hf; lia|done].
    by rewrite zlen_app, Z.add_assoc.
Qed.

Lemma length_log_bytes rs : (length rs ≤ length (log_bytes rs))%nat.
Proof.
  induction rs as [|r rs IH]; [done|]. unfold log_bytes. rewrite fmap_cons. cbn [concat length].
  fold (log_bytes rs). rewrite length_app. pose proof (zlen_rec_bytes r) as H.
  pose proof (zlen_nonneg (rec_payload r)). unfold HEADER, zlen in *. lia.
Qed.

Lemma replay_log rs tail s :
  Forall rec_wf rs → (tail = [] ∨ ∃ r q, rec_wf r ∧ rec_bytes r = tail ++ q ∧ q ≠ []) →
  replay (log_bytes rs ++ tail) s = Ok (zlen (log_bytes rs), foldl apply_rec s rs).
Proof.
  intros Hrs Ht. unfold replay. rewrite replay_loop_log; [done|done| |done].
  rewrite length_app. pose proof (length_log_bytes rs). lia.
Qed.
End Ops.

(** ** Totality *)

Section Total.
Context `{B3 : Blake3}.

Lemma collect_no_panic {E A} (f : Z → outcome E A) i n :
  (∀ j, i ≤ j < i + Z.of_nat n → no_panic (f j)) → no_panic (collect f i n).
Proof.
  revert i. induction n as [|n IH]; intros i Hf; [done|]. cbn [collect].
  apply obind_no_panic; [apply Hf; lia|]. intros a _.
  apply obind_no_panic; [apply IH; intros; apply Hf; lia|done].
Qed.

Lemma replay_record_no_panic s sid v p : no_panic (replay_record s sid v p).
Proof.
  unfold replay_record. repeat case_decide; try done.
  - pose proof (from_canonical_not_panic p). by destruct (from_canonical p).
  - by case_match.
  - destruct (Z.leb_spec 4 (zlen p)); [|done].
    rewrite slice_ok by lia. cbn [obind]. set (c := from_le _).
    assert (0 ≤ c) by (apply from_le_bound). case_decide as Hneed; [|done].
    assert (c * 32 + 36 = zlen p) as Hp.
    { unfold checked_mul, checked_add in Hneed.
      destruct (_ <=? _); [|done]. simpl in Hneed. destruct (_ <=? _); [|done]. congruence. }
    apply obind_no_panic; [apply collect_no_panic; intros; apply slice_no_panic; lia|].
    intros l _. apply obind_no_panic; [apply slice_no_panic; lia|done].
  - pose proof (from_canonical_not_panic p). by destruct (from_canonical p).
Qed.

Lemma replay_loop_no_panic fuel pos r s :
  (length r < fuel)%nat → no_panic (replay_loop fuel pos r s).
Proof.
  revert pos r s. induction fuel as [|fuel IH]; intros pos r s Hf; [lia|].
  cbn [replay_loop]. unfold read_exact_or_eof at 1.
  destruct (Z.ltb_spec (zlen r) HEADER) as [|Hr]; [done|].
  assert (zlen (ztake HEADER r) = 21) as Hh by (apply zlen_ztake; unfold HEADER in *; lia).
  apply obind_no_panic; [apply slice_no_panic; lia|]. intros sb _.
  apply obind_no_panic; [apply index_no_panic; lia|]. intros v _.
  apply obind_no_panic; [apply slice_no_panic; lia|]. intros lb _.
  destruct (_ <? _); [done|]. unfold read_exact_or_eof. destruct (_ <? _); [done|].
  apply obind_no_panic; [apply replay_record_no_panic|]. intros s' _.
  apply IH. unfold zdrop. rewrite !length_drop. unfold HEADER, zlen in *. lia.
Qed.
End Total.

(** ** What an operation logs *)

Section Logging.
Context `{B3 : Blake3} {B3L : Blake3Laws}.

Definition op_record (s : ContentStore) (o : store_op) : option record :=
  match o with
  | OInsert sid b id _ =>
      if bool_decide (blocks s !! id = None) then Some (RInsert sid (canonical_bytes b))
      else Some (RReference sid id)
  | OReference sid id =>
      if bool_decide (blocks s !! id = None) then None else Some (RReference sid id)
  | OSeed sid l r => Some (RSeed sid l r)
  | OContent sid b id =>
      if bool_decide (blocks s !! id = None) then Some (RContent sid (canonical_bytes b))
      else None
  end.

Definition apply_opt (s : ContentStore) (r : option record) : ContentStore :=
  match r with None => s | Some r => apply_rec s r end.

Lemma view_insert s sid b i c :
  view (insert_with_canonical s sid b i c).1 =
  (put_block (blocks s) i b, (append_session (sessions s) sid i).1).
Proof. unfold view. by rewrite insert_blocks, insert_sessions. Qed.

Lemma view_reference s sid i :
  view (reference s sid i).1 =
  (blocks s, if decide (blocks s !! i = None) then sessions s
             else (append_session (sessions s) sid i).1).
Proof. unfold view. by rewrite reference_blocks, reference_sessions. Qed.

Lemma view_seed s sid l r :
  view (seed_session s sid l r) = (blocks s, <[sid := mkLog l r]> (sessions s)).
Proof. unfold view. by rewrite seed_blocks, seed_sessions. Qed.

Lemma view_content s sid b i :
  view (store_content_with_id s sid b i).1 = (put_block (blocks s) i b, sessions s).
Proof. unfold view. by rewrite content_blocks, content_sessions. Qed.

(** The effect of a record depends on the durable part only. *)
Lemma apply_rec_view s1 s2 r : view s1 = view s2 → view (apply_rec s1 r) = view (apply_rec s2 r).
Proof.
  intros E. pose proof E as E'. unfold view in E'. injection E' as Eb Es.
  destruct r as [sid c|sid i|sid l rt|sid c]; cbn [apply_rec].
  - destruct (from_canonical c); [|done..]. unfold insert, insert_with_id.
    rewrite !view_insert. congruence.
  - rewrite !view_reference, Eb, Es. done.
  - rewrite !view_seed. congruence.
  - destruct (from_canonical c); [|done..]. unfold store_content.
    rewrite !view_content. congruence.
Qed.

Lemma foldl_apply_view rs s1 s2 :
  view s1 = view s2 → view (foldl apply_rec s1 rs) = view (foldl apply_rec s2 rs).
Proof.
  revert s1 s2. induction rs as [|r rs IH]; intros s1 s2 E; [done|].
  apply IH. by apply apply_rec_view.
Qed.

Lemma from_canonical_bytes b : block_wf b → from_canonical (canonical_bytes b) = Ok b.
Proof. intros H. rewrite <-(app_nil_r (canonical_bytes b)). by apply from_canonical_app. Qed.

(** Replaying the record of an operation has the operation's effect. *)
Lemma op_record_view s o :
  op_wf o → view (apply_opt s (op_record s o)) = view (exec1 s o).
Proof.
  destruct o as [sid b i c|sid i|sid l r|sid b i]; cbn [op_wf op_record exec1]; intros Hwf.
  - destruct Hwf as (_ & Hb & -> & _). rewrite view_insert. case_bool_decide as Hn; cbn [apply_opt apply_rec].
    + rewrite from_canonical_bytes by done. unfold insert, insert_with_id. by rewrite view_insert.
    + rewrite view_reference, decide_False by done.
      rewrite put_block_idem; [done|]. by apply not_eq_None_Some.
  - rewrite view_reference. case_bool_decide as Hn; cbn [apply_opt apply_rec].
    + by rewrite decide_True.
    + by rewrite view_reference.
  - done.
  - destruct Hwf as (_ & Hb & ->). rewrite view_content. case_bool_decide as Hn; cbn [apply_opt apply_rec].
    + rewrite from_canonical_bytes by done. unfold store_content. by rewrite view_content.
    + unfold view. f_equal. rewrite put_block_idem; [done|]. by apply not_eq_None_Some.
Qed.

(** Without a latched error, the WAL grew by exactly that record. *)
Definition logs_to (w : Wal) (r : option record) (s' : ContentStore) : Prop :=
  ∃ w', wal s' = Some w' ∧ w_synced w' = w_synced w ∧
  match r with
  | None => w_log w' = w_log w
  | Some r => w_log w' = w_log w ++ rec_bytes r ∧ zlen (rec_payload r) ≤ MAX_RECORD_BYTES
  end.

Lemma record_ok s w res r :
  (∀ w' u, res = (w', Ok u) → appended w w' r) → res.2 ≠ Panic →
  wal_error (record_wal_result s res) = None → logs_to w (Some r) (record_wal_result s res).
Proof.
  intros Hok Hp. destruct res as [w' [[]|e|]]; simpl in *.
  - intros _. destruct (Hok w' tt eq_refl) as (Hl & Hs & Hm). by exists w'.
  - unfold latch_wal_error. by destruct (wal_error (set_wal_state s (Some w'))) eqn:E; rewrite ?E.
  - done.
Qed.

Lemma write_seq_not_panic w parts : (write_seq w parts).2 ≠ Panic.
Proof.
  revert w. induction parts as [|bs parts IH]; intros w; simpl; [done|].
  unfold write_all. destruct (w_faults w) as [|[[e n]|] fs]; simpl; auto.
Qed.

Lemma append_insert_not_panic w sid c : (append_insert w sid c).2 ≠ Panic.
Proof.
  unfold append_insert, record_len. repeat case_match; simplify_eq/=; try done;
    apply (write_seq_not_panic _ [_; _; _; _]).
Qed.

Lemma append_content_not_panic w sid c : (append_content w sid c).2 ≠ Panic.
Proof.
  unfold append_content, record_len. repeat case_match; simplify_eq/=; try done;
    apply (write_seq_not_panic _ [_; _; _; _]).
Qed.

Lemma append_seed_not_panic w sid l r : (append_seed w sid l r).2 ≠ Panic.
Proof.
  unfold append_seed, record_len. destruct (_ ≫= _); [|done].
  destruct (_ <? z); [done|]. destruct (z <? _); [|done].
  destruct (_ <? _); [|done]. apply write_seq_not_panic.
Qed.

Lemma exec1_logs s o w :
  op_wf o → wal s = Some w → wal_error (exec1 s o) = None →
  logs_to w (op_record s o) (exec1 s o).
Proof.
  destruct o as [sid b i c|sid i|sid l r|sid b i]; cbn [op_wf exec1 op_record]; intros Hwf Hw.
  - destruct Hwf as (_ & _ & -> & Hc). unfold insert_with_canonical.
    assert (default (canonical_bytes b) c = canonical_bytes b) as -> by (by destruct c).
    case_bool_decide; cbn -[append_session record_wal_result append_insert append_reference];
      destruct (append_session (sessions s) sid (block_id b)) as [m []];
      cbn -[append_session record_wal_result append_insert append_reference]; rewrite Hw;
      intros He; apply record_ok; try done;
      first [ by intros ?? ?%append_insert_ok | apply append_insert_not_panic
            | intros ?? ?%append_reference_ok; [done|apply blake3_length]
            | apply write_seq_not_panic ].
  - destruct Hwf as [_ Hi]. unfold reference. case_decide.
    + rewrite bool_decide_true by done. intros _. by exists w.
    + rewrite bool_decide_false by done.
      destruct (append_session (sessions s) sid i) as [m b].
      cbn -[record_wal_result append_reference]. rewrite Hw. apply record_ok;
        [by intros ?? ?%append_reference_ok|apply write_seq_not_panic].
  - destruct Hwf as (_ & Hl & Hr). unfold seed_session.
    case_bool_decide; cbn -[record_wal_result append_seed]; rewrite Hw;
      (apply record_ok; [by intros ?? ?%append_seed_ok|apply append_seed_not_panic]).
  - destruct Hwf as (_ & _ & ->). unfold store_content_with_id.
    case_bool_decide; cbn -[record_wal_result append_content]; rewrite Hw.
    + apply record_ok; [by intros ?? ?%append_content_ok|apply append_content_not_panic].
    + intros _. by exists w.
Qed.

Lemma op_record_wf s o r :
  op_wf o → op_record s o = Some r → zlen (rec_payload r) ≤ MAX_RECORD_BYTES → rec_wf r.
Proof.
  destruct o as [sid b i c|sid i|sid l rt|sid b i]; cbn [op_wf op_record]; intros Hwf Hr Hm;
    repeat case_bool_decide; simplify_eq; split_and!; cbn; try tauto.
  destruct Hwf as (_ & _ & -> & _). apply blake3_length.
Qed.

Lemma exec1_error_none s o : wal_error (exec1 s o) = None → wal_error s = None.
Proof.
  intros H. destruct (wal_error s) as [e|] eqn:E; [|done].
  by rewrite (exec1_keeps s o e E) in H.
Qed.

Lemma exec_error_none s os : wal_error (exec s os) = None → wal_error s = None.
Proof.
  intros H. destruct (wal_error s) as [e|] eqn:E; [|done].
  by rewrite (exec_keeps s os e E) in H.
Qed.

(** ** The durability invariant *)

(** As long as no error is latched, the WAL content is a log of intact records
    whose replay from the empty store gives the store's durable part. *)
Definition logged (s : ContentStore) : Prop :=
  ∀ w, wal s = Some w → wal_error s = None →
  ∃ rs, Forall rec_wf rs ∧ w_log w = log_bytes rs ∧ view (foldl apply_rec new rs) = view s.

Lemma exec1_logged s o w :
  op_wf o → wal s = Some w → logged s → logged (exec1 s o).
Proof.
  intros Hwf Hw Hl w' Hw' He'.
  destruct (Hl w Hw (exec1_error_none s o He')) as (rs & Hrs & Hlog & Hv).
  destruct (exec1_logs s o w Hwf Hw He') as (w2 & Hw2 & _ & Hr).
  assert (w2 = w') as -> by congruence.
  pose proof (op_record_view s o Hwf) as Hview.
  destruct (op_record s o) as [r|] eqn:Er; cbn [apply_opt] in Hview.
  - destruct Hr as [Hlog' Hmax]. exists (rs ++ [r]). split_and!.
    + apply Forall_app. split; [done|]. constructor; [by eapply op_record_wf|done].
    + by rewrite Hlog', Hlog, log_bytes_snoc.
    + rewrite foldl_app. cbn [foldl]. etrans; [apply apply_rec_view, Hv|exact Hview].
  - exists rs. split_and!; [done|by rewrite Hr|]. etrans; [exact Hv|exact Hview].
Qed.

Lemma exec1_wal_some s o w :
  wal s = Some w → is_Some (wal (exec1 s o)).
Proof.
  assert (Hrec : ∀ s0 res, is_Some (wal (record_wal_result s0 res))).
  { intros s0 [w0 [[]|e|]]; cbn; [by eexists| |by eexists].
    unfold latch_wal_error. case_match; cbn; by eexists. }
  intros Hw. destruct o as [sid b i c|sid i|sid l r|sid b i]; cbn [exec1].
  - unfold insert_with_canonical. case_bool_decide; cbn -[append_session record_wal_result];
      destruct (append_session (sessions s) sid i) as [m []];
      cbn -[append_session record_wal_result]; rewrite Hw; apply Hrec.
  - unfold reference. case_decide; [by eexists|].
    destruct (append_session (sessions s) sid i) as [m b]. cbn -[record_wal_result].
    rewrite Hw. apply Hrec.
  - unfold seed_session. case_bool_decide; cbn -[record_wal_result]; rewrite Hw; apply Hrec.
  - unfold store_content_with_id. case_bool_decide; cbn -[record_wal_result]; rewrite Hw;
      [apply Hrec|by eexists].
Qed.
End Logging.

(** ** Crashes *)

Section Crash.
Context `{B3 : Blake3} {B3L : Blake3Laws}.

Lemma flush_ok w w' sync u :
  flush w sync = (w', Ok u) → w_log w' = w_log w ∧ (sync = true → w_synced w' = zlen (w_log w')).
Proof.
  unfold flush, write_all.
  destruct (w_faults w) as [|[[e n]|] fs]; cbn; [| done |].
  - destruct sync; intros [= <-]; cbn; by rewrite ?app_nil_r.
  - destruct sync; cbn; [|intros [= <-]; by rewrite app_nil_r].
    destruct fs as [|[[e n]|] fs]; cbn; [|done|]; intros [= <-]; cbn; by rewrite ?app_nil_r.
Qed.

Lemma flush_wal_ok s s' sync w u :
  wal s = Some w → flush_wal s sync = (s', Ok u) →
  wal_error s = None ∧ wal_error s' = None ∧ view s' = view s ∧
  ∃ w', wal s' = Some w' ∧ w_log w' = w_log w ∧ (sync = true → w_synced w' = zlen (w_log w')).
Proof.
  intros Hw. unfold flush_wal. destruct (wal_error s) eqn:He; [done|]. rewrite Hw.
  destruct (flush w sync) as [w' [[]|e|]] eqn:Hf; [|done..]. intros [= <-].
  split_and!; [done|done|done|]. exists w'. split; [done|]. by eapply flush_ok.
Qed.

Lemma logged_flush s s' sync u : logged s → flush_wal s sync = (s', Ok u) → logged s'.
Proof.
  intros Hl Hf w' Hw' He'. destruct (wal s) as [w|] eqn:Hw.
  - destruct (flush_wal_ok s s' sync w u Hw Hf) as (He & _ & Hv & w2 & Hw2 & Hlog & _).
    assert (w2 = w') as -> by congruence.
    destruct (Hl w Hw He) as (rs & Hrs & E & Hvs). exists rs. split_and!; [done|congruence|].
    etrans; [exact Hvs|done].
  - unfold flush_wal in Hf. rewrite Hw in Hf. destruct (wal_error s); simplify_eq.
Qed.

(** Opening a log with a possibly torn tail. *)
Lemma with_wal_log rs tail fs :
  Forall rec_wf rs → (tail = [] ∨ ∃ r q, rec_wf r ∧ rec_bytes r = tail ++ q ∧ q ≠ []) →
  with_wal (mkFile (log_bytes rs ++ tail) false fs) =
  Ok (set_wal (foldl apply_rec new rs)
        (mkWal (log_bytes rs) (zlen (log_bytes rs)) fs)).
Proof.
  intros Hrs Ht. unfold with_wal, Wal_open. cbn [f_locked f_data f_faults].
  rewrite replay_log by done. cbn [obind].
  destruct (Z.ltb_spec (zlen (log_bytes rs)) (zlen (log_bytes rs ++ tail))).
  - by rewrite ztake_app.
  - assert (tail = []) as ->; [|by rewrite app_nil_r].
    apply length_zero_iff_nil. rewrite zlen_app in *. unfold zlen in *. lia.
Qed.

(** Replay runs before the writer is attached, so it logs nothing. *)
Lemma apply_rec_nowal r s :
  wal s = None → wal (apply_rec s r) = None ∧ wal_error (apply_rec s r) = wal_error s.
Proof.
  intros Hw. destruct r as [sid c|sid i|sid l rt|sid c]; cbn [apply_rec].
  - destruct (from_canonical c); [|done..]. unfold insert, insert_with_id, insert_with_canonical.
    case_bool_decide; cbn -[append_session];
      destruct (append_session _ _ _) as [m []]; cbn; by rewrite Hw.
  - unfold reference. case_decide; [done|].
    destruct (append_session _ _ _) as [m b]; cbn; by rewrite Hw.
  - unfold seed_session. case_bool_decide; cbn; by rewrite Hw.
  - destruct (from_canonical c); [|done..]. unfold store_content, store_content_with_id.
    case_bool_decide; cbn; by rewrite Hw.
Qed.

Lemma foldl_apply_nowal rs s :
  wal s = None →
  wal (foldl apply_rec s rs) = None ∧ wal_error (foldl apply_rec s rs) = wal_error s.
Proof.
  revert s. induction rs as [|r rs IH]; intros s Hw; [done|]. cbn [foldl].
  destruct (apply_rec_nowal r s Hw) as [Hw' <-]. by apply IH.
Qed.

(** A reopened log: the recovered store has the log's state and is again
    [logged]. *)
Lemma with_wal_logged rs tail fs :
  Forall rec_wf rs → (tail = [] ∨ ∃ r q, rec_wf r ∧ rec_bytes r = tail ++ q ∧ q ≠ []) →
  ∃ s', with_wal (mkFile (log_bytes rs ++ tail) false fs) = Ok s'
    ∧ view s' = view (foldl apply_rec new rs) ∧ logged s' ∧ is_Some (wal s') ∧ wal_error s' = None.
Proof.
  intros Hrs Ht. rewrite with_wal_log by done. eexists. split; [done|].
  destruct (foldl_apply_nowal rs new eq_refl) as [Hw He].
  unfold set_wal. rewrite Hw. split_and!; [done| |by eexists|done].
  intros w [= <-] _. by exists rs.
Qed.

(** The log only grows, and appends do not move the synced mark. *)
Lemma exec_log_prefix s os w w1 :
  Forall op_wf os → wal s = Some w → wal (exec s os) = Some w1 → wal_error (exec s os) = None →
  w_synced w1 = w_synced w ∧ ∃ more, w_log w1 = w_log w ++ more.
Proof.
  intros Hos. revert s w. induction Hos as [|o os Ho _ IH]; intros s w Hw Hw1 He.
  - change (exec s []) with s in Hw1. simplify_eq. split; [done|]. exists []. by rewrite app_nil_r.
  - change (exec s (o :: os)) with (exec (exec1 s o) os) in *.
    destruct (exec1_logs s o w Ho Hw (exec_error_none _ _ He)) as (w2 & Hw2 & Hs & Hr).
    destruct (IH _ _ Hw2 Hw1 He) as [Hs' [more Hm]]. split; [congruence|]. rewrite Hm.
    destruct (op_record s o); [destruct Hr as [-> _]|rewrite Hr]; [|by exists more].
    eexists. by rewrite <-app_assoc.
Qed.

(** A cut of the log between two states of an execution. *)
Lemma crash_cut s os w w1 n :
  Forall op_wf os → wal s = Some w → logged s →
  wal (exec s os) = Some w1 → wal_error (exec s os) = None →
  zlen (w_log w) ≤ n ≤ zlen (w_log w1) →
  ∃ k rs tail, ztake n (w_log w1) = log_bytes rs ++ tail ∧ Forall rec_wf rs
    ∧ (tail = [] ∨ ∃ r q, rec_wf r ∧ rec_bytes r = tail ++ q ∧ q ≠ [])
    ∧ view (foldl apply_rec new rs) = view (exec s (take k os)) ∧ (k ≤ length os)%nat.
Proof.
  intros Hos. revert s w. induction Hos as [|o os Ho Hos IH]; intros s w Hw Hl Hw1 He Hn.
  - change (exec s []) with s in *. assert (w1 = w) as -> by congruence.
    destruct (Hl w Hw He) as (rs & Hrs & Hlog & Hv). exists 0%nat, rs, [].
    split_and!; [|done|by left|done|done].
    rewrite app_nil_r, <-Hlog. rewrite <-(app_nil_r (w_log w)) at 1. apply ztake_app. lia.
  - change (exec s (o :: os)) with (exec (exec1 s o) os) in *.
    pose proof (exec_error_none _ _ He) as He1.
    destruct (exec1_logs s o w Ho Hw He1) as (w2 & Hw2 & _ & Hr).
    pose proof (exec1_logged s o w Ho Hw Hl) as Hl2.
    destruct (Z.le_gt_cases (zlen (w_log w2)) n) as [Hge|Hlt].
    + destruct (IH _ _ Hw2 Hl2 Hw1 He ltac:(lia)) as (k & rs & tail & Et & Hrs & Ht & Hv & Hk).
      exists (S k), rs, tail. split_and!; try done. simpl. lia.
    + destruct (exec_log_prefix _ _ _ _ Hos Hw2 Hw1 He) as [_ [more Hm]].
      destruct (Hl w Hw (exec1_error_none _ _ He1)) as (rs & Hrs & Hlog & Hv).
      destruct (op_record s o) as [r|] eqn:Er; [|rewrite Hr in Hlt; lia].
      destruct Hr as [Hr Hmax]. exists 0%nat, rs, (ztake (n - zlen (w_log w)) (rec_bytes r)).
      split_and!; [|done| |done|lia].
      * rewrite Hm, Hr, <-Hlog, <-app_assoc. rewrite Hr in Hlt. unfold ztake, zlen in *.
        rewrite length_app in Hlt.
        rewrite take_app, take_ge by lia. f_equal. rewrite take_app_le by lia. f_equal. lia.
      * right. exists r, (zdrop (n - zlen (w_log w)) (rec_bytes r)).
        split_and!; [by eapply op_record_wf|by rewrite ztake_zdrop|].
        intros E. apply (f_equal zlen) in E. rewrite Hr in Hlt. rewrite zlen_app in Hlt.
        rewrite zlen_zdrop, zlen_nil in E by lia. lia.
Qed.
End Crash.

(** ** Claims *)

Section Claims.
Context `{B3 : Blake3} {B3L : Blake3Laws}.

(** Replay is total: for every file content and every store it terminates
    within the loop bound and returns a store with the length of the intact
    prefix, or an error; it never panics. *)
Theorem replay_terminates data s : no_panic (replay data s).
Proof. apply replay_loop_no_panic. lia. Qed.

(** C3: Crash recovery.  Flush a store to disk, then run any operations without a
    latched WAL error, then lose everything after byte [n] of the log, for any
    [n] at or beyond the synced mark (a torn record included).  Reopening the
    file succeeds and gives the state after a prefix of those operations: all
    flushed operations are there, none is applied partially, and the reopened
    store again logs exactly its own state. *)
Theorem crash_recovery s s0 os w w1 n fs :
  logged s → wal s = Some w → flush_wal s true = (s0, Ok tt) →
  Forall op_wf os → wal (exec s0 os) = Some w1 → wal_error (exec s0 os) = None →
  w_synced w1 ≤ n ≤ zlen (w_log w1) →
  view s0 = view s ∧
  ∃ k s', (k ≤ length os)%nat
    ∧ with_wal (mkFile (ztake n (w_log w1)) false fs) = Ok s'
    ∧ view s' = view (exec s0 (take k os))
    ∧ logged s' ∧ is_Some (wal s') ∧ wal_error s' = None.
Proof.
  intros Hl Hw Hf Hos Hw1 He Hn.
  destruct (flush_wal_ok s s0 true w tt Hw Hf) as (_ & _ & Hv & w0 & Hw0 & _ & Hsync).
  split; [exact Hv|].
  destruct (exec_log_prefix s0 os w0 w1 Hos Hw0 Hw1 He) as [Hs _].
  destruct (crash_cut s0 os w0 w1 n Hos Hw0 (logged_flush _ _ _ _ Hl Hf) Hw1 He)
    as (k & rs & tail & -> & Hrs & Ht & Hvk & Hk).
  { rewrite Hs, Hsync in Hn by done. done. }
  destruct (with_wal_logged rs tail fs Hrs Ht) as (s' & -> & Hv' & Hl' & Hw' & He').
  exists k, s'. split_and!; try done. congruence.
Qed.

(** C27: Durability: a store opened from an empty log and driven by any operations,
    once [flush_wal(true)] has returned [Ok], is recovered in full (blocks and
    session logs) from its log. *)
Theorem flushed_is_durable os s s' fs fs' :
  with_wal (mkFile [] false fs) = Ok s → Forall op_wf os →
  flush_wal (exec s os) true = (s', Ok tt) →
  ∃ w' r, wal s' = Some w' ∧ w_synced w' = zlen (w_log w')
    ∧ with_wal (mkFile (w_log w') false fs') = Ok r ∧ view r = view (exec s os).
Proof.
  intros Ho Hos Hf.
  destruct (with_wal_logged [] [] fs) as (s2 & Ho2 & _ & Hl & [w Hw] & _); [done|by left|].
  change (log_bytes [] ++ []) with (@nil byte) in Ho2. rewrite Ho in Ho2. injection Ho2 as <-.
  assert (∃ w2, wal (exec s os) = Some w2 ∧ logged (exec s os)) as (w2 & Hw2 & Hl2).
  { clear Ho Hf. revert s w Hl Hw. induction Hos as [|o os Ho _ IH]; intros s w Hl Hw; [by exists w|].
    destruct (exec1_wal_some s o w Hw) as [w3 Hw3].
    apply (IH (exec1 s o) w3); [|done]. by eapply exec1_logged. }
  destruct (flush_wal_ok _ s' true w2 tt Hw2 Hf) as (He & He' & Hv & w' & Hw' & Hlog & Hsync).
  destruct (Hl2 w2 Hw2 He) as (rs & Hrs & E & Hvs).
  destruct (with_wal_logged rs [] fs' Hrs ltac:(by left)) as (r & Hr & Hvr & _).
  exists w', r. rewrite app_nil_r, <-E, <-Hlog in Hr. split_and!; try done; [by apply Hsync|].
  congruence.
Qed.
End Claims.

(** ** Witnesses *)
Module RecoveryWitness.
Import Toy StoreWitness.

(** An empty durable store, and the sample operations after a flush. *)
Definition s_open : ContentStore := set_wal new (mkWal [] 0 []).
Definition s_flushed : ContentStore := (flush_wal s_open true).1.

Lemma s_open_logged : logged s_open.
Proof. intros w [= <-] _. exists []. split; [constructor|]. split; reflexivity. Defined.

Definition w_crash : Wal := default (mkWal [] 0 []) (wal (exec s_flushed ops)).

(** The crash tears the second record (a reference) after ten bytes. *)
Lemma crash_recovery_witness :
  view s_flushed = view s_open ∧
  ∃ k s', (k ≤ length ops)%nat
    ∧ with_wal (mkFile (ztake 50 (w_log w_crash)) false []) = Ok s'
    ∧ view s' = view (exec s_flushed (take k ops))
    ∧ logged s' ∧ is_Some (wal s') ∧ wal_error s' = None.
Proof.
  refine (crash_recovery s_open s_flushed ops (mkWal [] 0 [])
    w_crash 50 [] s_open_logged _ _ ops_wf _ _ _).
  - vm_compute. reflexivity.
  - vm_compute. reflexivity.
  - vm_compute. reflexivity.
  - vm_compute. reflexivity.
  - vm_compute. split; discriminate.
Defined.

Lemma flushed_is_durable_witness :
  ∃ w' r, wal (flush_wal (exec s_open ops) true).1 = Some w' ∧ w_synced w' = zlen (w_log w')
    ∧ with_wal (mkFile (w_log w') false []) = Ok r ∧ view r = view (exec s_open ops).
Proof.
  refine (flushed_is_durable ops s_open (flush_wal (exec s_open ops) true).1 [] [] _ ops_wf _).
  - vm_compute. reflexivity.
  - vm_compute. reflexivity.
Defined.
End RecoveryWitness.
