(* ===== verification/Compress.v ===== *)
(** * Compress: the per-block codec of [compress/src/lib.rs] and [delta.rs]

    zstd (crates [zstd] and [zstd-safe]) is a parameter, the class [Zstd]; the
    documented behaviour the codec relies on is [ZstdLaws].  The two
    thread-local context caches [ENC] and [DEC] are the state [Tls] that
    [compress] and [decompress] thread.  [Codec] is what this component promises
    to the shim and to the receiver: a level-indexed compressor and one
    decompressor that inverts every level.  [cached_codec] discharges it. *)

From S2P Require Import Prelude.

(** ** Errors *)

Inductive CompressError : Type :=
| Encode (msg : string)
| Decode (msg : string)
| DictId (expected got : Z).

(** ** zstd *)

(** A context is built for a level and an optional dictionary
    ([Compressor::new] and [Compressor::with_dictionary]); the results of the
    calls are the library's [io::Result], the error as its text. *)
Class Zstd := {
  zstd_cctx : Z → option bytes → option string;
  zstd_dctx : option bytes → option string;
  zstd_compress : Z → option bytes → bytes → string + bytes;
  zstd_decompress : option bytes → bytes → Z → string + bytes;
  get_frame_content_size : bytes → option (option Z)
}.

(** [zstd_cctx] and [zstd_dctx] give the error of a failed context creation.
    The laws: a frame made by [bulk::Compressor::compress] stores its content
    size, and decompresses with the same dictionary into a buffer that is large
    enough, whatever the level was. *)
Class ZstdLaws `{ZS : Zstd} : Prop := {
  zstd_roundtrip : ∀ level dict x c cap,
    zstd_compress level dict x = inr c → zlen x ≤ cap → zstd_decompress dict c cap = inr x;
  zstd_content_size : ∀ level dict x c,
    zstd_compress level dict x = inr c → get_frame_content_size c = Some (Some (zlen x))
}.

Definition of_result {E A} (f : string → E) (r : string + A) : outcome E A :=
  match r with inl e => Err (f e) | inr a => Ok a end.

(** ** Dictionaries and compressors *)

Record Dict : Type := mkDict { dict_id : Z; dict_content : bytes }.

Definition Dict_from_content (id : Z) (content : bytes) : Dict := mkDict id content.
Definition Dict_empty : Dict := mkDict 0 [].
Definition Dict_is_empty (d : Dict) : bool := zlen (dict_content d) =? 0.

(** What the context constructors get: no dictionary, or its bytes. *)
Definition dict_arg (d : Dict) : option bytes :=
  if Dict_is_empty d then None else Some (dict_content d).

Record Compressor : Type := mkCompressor {
  c_dict : Dict;
  c_level : Z;
  min_block : Z
}.

Definition Compressor_new (dict : Dict) (level : Z) : Compressor := mkCompressor dict level 32.
Definition Compressor_default : Compressor := Compressor_new Dict_empty 19.
Definition set_dict (c : Compressor) (dict : Dict) : Compressor :=
  mkCompressor dict (c_level c) (min_block c).
Definition with_level (c : Compressor) (level : Z) : Compressor :=
  mkCompressor (c_dict c) level (min_block c).

(** ** The thread-local caches *)

(** [ENC] holds (level, dict id, context), [DEC] (dict id, context); a context
    is the arguments it was built from. *)
Record Tls : Type := mkTls {
  ENC : option (Z * Z * (Z * option bytes));
  DEC : option (Z * option bytes)
}.

Definition tls_init : Tls := mkTls None None.

(** [format!("{:#x}", b)] of a byte. *)
Definition hex_digit (n : Z) : string :=
  match n with
  | 0 => "0" | 1 => "1" | 2 => "2" | 3 => "3" | 4 => "4" | 5 => "5" | 6 => "6" | 7 => "7"
  | 8 => "8" | 9 => "9" | 10 => "a" | 11 => "b" | 12 => "c" | 13 => "d" | 14 => "e"
  | _ => "f"
  end%string.

Definition hex_u8 (b : byte) : string :=
  let n := byte.unsigned b in
  let high := if n <? 16 then ""%string else hex_digit (n / 16) in
  ("0x" ++ high ++ hex_digit (n mod 16))%string.

Section Codec.
Context `{ZS : Zstd}.

(** The cached encoder of [compress], rebuilt when the level or the dictionary
    id differs; a failed rebuild leaves the cache as it was. *)
Definition enc_context (c : Compressor) (t : Tls) : Tls * outcome CompressError (Z * option bytes) :=
  let need_rebuild :=
    match ENC t with
    | Some (l, d, _) => negb (l =? c_level c) || negb (d =? dict_id (c_dict c))
    | None => true
    end in
  if need_rebuild then
    match zstd_cctx (c_level c) (dict_arg (c_dict c)) with
    | Some e => (t, Err (Encode e))
    | None =>
        let enc := (c_level c, dict_arg (c_dict c)) in
        (mkTls (Some (c_level c, dict_id (c_dict c), enc)) (DEC t), Ok enc)
    end
  else
    match ENC t with
    | Some (_, _, enc) => (t, Ok enc)
    | None => (t, Panic)
    end.

Definition dec_context (c : Compressor) (t : Tls) : Tls * outcome CompressError (option bytes) :=
  let need_rebuild :=
    match DEC t with
    | Some (d, _) => negb (d =? dict_id (c_dict c))
    | None => true
    end in
  if need_rebuild then
    match zstd_dctx (dict_arg (c_dict c)) with
    | Some e => (t, Err (Decode e))
    | None =>
        let dd := dict_arg (c_dict c) in
        (mkTls (ENC t) (Some (dict_id (c_dict c), dd)), Ok dd)
    end
  else
    match DEC t with
    | Some (_, dd) => (t, Ok dd)
    | None => (t, Panic)
    end.

(** [Compressor::compress]. *)
Definition compress (c : Compressor) (t : Tls) (input : bytes)
    : Tls * outcome CompressError bytes :=
  if zlen input <? min_block c then (t, Ok (Byte.x00 :: input))
  else
    let '(t', r) := enc_context c t in
    (t',
      let? '(level, dict) := r in
      let? compressed := of_result Encode (zstd_compress level dict input) in
      if zlen input <=? zlen compressed + 1 then Ok (Byte.x00 :: input)
      else Ok (Byte.x01 :: compressed)).

(** The output buffer's capacity in [decompress]: the stored content size, or
    [body.len().saturating_mul(64) + (1 << 20)]. *)
Definition decompress_cap (body : bytes) : Z :=
  match get_frame_content_size body with
  | Some (Some s) => s
  | _ => wrap 64 (Z.min (zlen body * 64) usize_max + Z.shiftl 1 20)
  end.

(** [Compressor::decompress]. *)
Definition decompress (c : Compressor) (t : Tls) (input : bytes)
    : Tls * outcome CompressError bytes :=
  match input with
  | [] => (t, Err (Decode "empty input"))
  | m :: body =>
      if Byte.eqb m Byte.x00 then (t, Ok body)
      else if Byte.eqb m Byte.x01 then
        let '(t', r) := dec_context c t in
        (t',
          let? dd := r in
          of_result Decode (zstd_decompress dd body (decompress_cap body)))
      else (t, Err (Decode ("unknown marker " ++ hex_u8 m)))
  end.
End Codec.

(** ** Reference deltas ([delta.rs]) *)

(** [std::hash::DefaultHasher] over a byte slice; its algorithm is documented as
    unspecified, so it is a parameter. *)
Class DefaultHasher := hash_bytes : bytes → Z.

Section Delta.
Context `{ZS : Zstd} `{DH : DefaultHasher}.

Definition ref_dict_id (reference : bytes) : Z := hash_bytes reference.

Definition reference_dict (reference : bytes) : Dict :=
  if zlen reference =? 0 then Dict_empty
  else Dict_from_content (ref_dict_id reference) reference.

Definition compress_with_reference (t : Tls) (input reference : bytes) (level : Z) :=
  compress (Compressor_new (reference_dict reference) level) t input.

Definition decompress_with_reference (t : Tls) (blob reference : bytes) (level : Z) :=
  decompress (Compressor_new (reference_dict reference) level) t blob.

Record DeltaCompressor : Type := mkDelta { compressor : Compressor }.

Definition DeltaCompressor_new (reference : bytes) (level : Z) : DeltaCompressor :=
  mkDelta (Compressor_new (reference_dict reference) level).
Definition delta_compress (d : DeltaCompressor) (t : Tls) (input : bytes) :=
  compress (compressor d) t input.
Definition delta_decompress (d : DeltaCompressor) (t : Tls) (blob : bytes) :=
  decompress (compressor d) t blob.
End Delta.

(** The loop of [common_prefix_len]. *)
Fixpoint common_prefix_len (a b : bytes) : Z :=
  match a, b with
  | x :: a', y :: b' => if Byte.eqb x y then 1 + common_prefix_len a' b' else 0
  | _, _ => 0
  end.

(** [Iterator::max_by_key] keeps the last of the maximal elements. *)
Fixpoint max_by_key {A} (key : A → Z) (best : A) (l : list A) : A :=
  match l with
  | [] => best
  | x :: l' => max_by_key key (if key x <? key best then best else x) l'
  end.

Definition pick_reference (input : bytes) (candidates : list bytes) : option bytes :=
  match candidates with
  | [] => None
  | c :: cs => Some (max_by_key (common_prefix_len input) c cs)
  end.

(** ** Dictionary training *)

(** [sort_by_key] is stable: insertion sort on the key. *)
Fixpoint insert_by_key {A} (key : A → Z) (x : A) (l : list A) : list A :=
  match l with
  | [] => [x]
  | y :: l' => if key x <=? key y then x :: l else y :: insert_by_key key x l'
  end.

Fixpoint sort_by_key {A} (key : A → Z) (l : list A) : list A :=
  match l with
  | [] => []
  | x :: l' => insert_by_key key x (sort_by_key key l')
  end.

(** One pass over the ordered samples; the flag says [break 'outer]. *)
Fixpoint train_pass (pass target_size : Z) (order : list bytes) (dict : bytes) (filled : Z)
    : bytes * Z * bool :=
  match order with
  | [] => (dict, filled, false)
  | s :: order' =>
      if zlen s =? 0 then train_pass pass target_size order' dict filled
      else
        let take := Z.min (zlen s) (Z.max 0 (target_size - filled)) in
        if take =? 0 then (dict, filled, true)
        else
          let chunk := if pass mod 2 =? 0 then ztake take s else zdrop (zlen s - take) s in
          let dict := dict ++ chunk in
          let filled := filled + take in
          if target_size <=? filled then (dict, filled, true)
          else train_pass pass target_size order' dict filled
  end.

Fixpoint train_loop (passes : list Z) (target_size : Z) (order : list bytes) (dict : bytes)
    (filled : Z) : bytes :=
  match passes with
  | [] => dict
  | pass :: passes' =>
      let '(dict, filled, stop) := train_pass pass target_size order dict filled in
      if (stop : bool) then dict else train_loop passes' target_size order dict filled
  end.

(** [train_dictionary]; it never fails. *)
Definition train_dictionary (samples : list bytes) (target_size : Z)
    : outcome CompressError bytes :=
  Ok (train_loop [0; 1; 2] target_size (sort_by_key zlen samples) [] 0).

(** ** Lemmas on the caches *)

Section CodecLemmas.
Context `{ZS : Zstd} {ZL : ZstdLaws}.

(** A registry of dictionaries: the bytes an id stands for ([None]: none).  A
    compressor fits the registry when its id names its own bytes, and the
    caches are coherent when they hold contexts built from the registry. *)
Definition registry : Type := Z → option bytes.

Definition fits (K : registry) (c : Compressor) : Prop :=
  K (dict_id (c_dict c)) = dict_arg (c_dict c).

Definition coherent (K : registry) (t : Tls) : Prop :=
  match ENC t with
  | Some (l, d, enc) => enc = (l, K d) ∧ zstd_cctx l (K d) = None
  | None => True
  end ∧
  match DEC t with
  | Some (d, dd) => dd = K d ∧ zstd_dctx (K d) = None
  | None => True
  end.

Lemma coherent_init K : coherent K tls_init.
Proof. done. Qed.

Lemma enc_context_coherent K c t :
  fits K c → coherent K t →
  coherent K (enc_context c t).1 ∧ (enc_context c t).2 = (enc_context c tls_init).2.
Proof.
  unfold fits, coherent, enc_context. intros F [HE HD]. simpl.
  destruct t as [[[[l d] enc]|] dd]; simpl in *;
    [destruct (Z.eqb_spec l (c_level c)), (Z.eqb_spec d (dict_id (c_dict c))); simpl|];
    [|by destruct (zstd_cctx (c_level c) _) eqn:Hc; simpl; rewrite ?F..].
  subst. destruct HE as [-> He]. rewrite F in *. by rewrite He.
Qed.

Lemma dec_context_coherent K c t :
  fits K c → coherent K t →
  coherent K (dec_context c t).1 ∧ (dec_context c t).2 = (dec_context c tls_init).2.
Proof.
  unfold fits, coherent, dec_context. intros F [HE HD]. simpl.
  destruct t as [en [[d dd]|]]; simpl in *; [destruct (Z.eqb_spec d (dict_id (c_dict c))); simpl|];
    [|by destruct (zstd_dctx (dict_arg _)) eqn:Hc; simpl; rewrite ?F..].
  subst. destruct HD as [-> He]. rewrite F in *. by rewrite He.
Qed.

Lemma compress_coherent K c t x :
  fits K c → coherent K t →
  coherent K (compress c t x).1 ∧ (compress c t x).2 = (compress c tls_init x).2.
Proof.
  intros F T. pose proof (enc_context_coherent K c t F T) as [T' R].
  unfold compress. zcase; [done|].
  destruct (enc_context c t), (enc_context c tls_init). simpl in *. by subst.
Qed.

Lemma decompress_coherent K c t x :
  fits K c → coherent K t →
  coherent K (decompress c t x).1 ∧ (decompress c t x).2 = (decompress c tls_init x).2.
Proof.
  intros F T. pose proof (dec_context_coherent K c t F T) as [T' R].
  destruct x as [|m body]; simpl; [done|].
  destruct (Byte.eqb m Byte.x00), (Byte.eqb m Byte.x01); try done.
  destruct (dec_context c t), (dec_context c tls_init). simpl in *. by subst.
Qed.

(** The result of [compress], without the cache. *)
Lemma compress_fresh c x :
  (compress c tls_init x).2 =
  if zlen x <? min_block c then Ok (Byte.x00 :: x)
  else match zstd_cctx (c_level c) (dict_arg (c_dict c)) with
       | Some e => Err (Encode e)
       | None =>
           let? z := of_result Encode (zstd_compress (c_level c) (dict_arg (c_dict c)) x) in
           if zlen x <=? zlen z + 1 then Ok (Byte.x00 :: x) else Ok (Byte.x01 :: z)
       end.
Proof. unfold compress. zcase; [done|]. unfold enc_context; simpl. by destruct (zstd_cctx _ _). Qed.

Lemma compress_ok_inv c x y :
  (compress c tls_init x).2 = Ok y →
  y = Byte.x00 :: x ∨
  ∃ z, y = Byte.x01 :: z ∧ zlen z + 1 < zlen x ∧
       zstd_compress (c_level c) (dict_arg (c_dict c)) x = inr z.
Proof.
  rewrite compress_fresh. zcase; [intros [= <-]; by left|]. case_match; [done|]. intros; obinds.
  destruct (zstd_compress _ _ _) eqn:Hz; simplify_eq/=. zcase; simplify_eq; [by left|].
  right. eexists. split_and!; [done|lia|done].
Qed.

Lemma decompress_marked c x y t :
  zstd_dctx (dict_arg (c_dict c)) = None →
  (∃ level z, y = Byte.x01 :: z ∧ zstd_compress level (dict_arg (c_dict c)) x = inr z)
    ∨ y = Byte.x00 :: x →
  ∀ K, fits K c → coherent K t → (decompress c t y).2 = Ok x.
Proof.
  intros Hd Hy K F T. rewrite (proj2 (decompress_coherent K c t y F T)).
  destruct Hy as [(level & z & -> & Hz)| ->]; [|done].
  simpl. unfold dec_context. simpl. rewrite Hd. simpl.
  unfold decompress_cap. erewrite zstd_content_size by done.
  by erewrite zstd_roundtrip by done.
Qed.
End CodecLemmas.

(** ** The interface of the codec *)

(** What the shim and the receiver rely on. *)
Class Codec := {
  codec_compress : Z → bytes → outcome CompressError bytes;
  codec_decompress : bytes → outcome CompressError bytes
}.

Class CodecLaws `{CC : Codec} : Prop := {
  codec_roundtrip : ∀ level x y, codec_compress level x = Ok y → codec_decompress y = Ok x;
  codec_bound : ∀ level x y, codec_compress level x = Ok y → 1 ≤ zlen y ≤ zlen x + 1;
  codec_compress_no_panic : ∀ level x, no_panic (codec_compress level x);
  codec_decompress_no_panic : ∀ y, no_panic (codec_decompress y)
}.

(** One call of the codec on a thread. *)
Inductive codec_call : Type :=
| CCompress (c : Compressor) (input : bytes)
| CDecompress (c : Compressor) (input : bytes).

Definition call_compressor (k : codec_call) : Compressor :=
  match k with CCompress c _ | CDecompress c _ => c end.

Definition run_call `{ZS : Zstd} (t : Tls) (k : codec_call) : Tls * outcome CompressError bytes :=
  match k with
  | CCompress c x => compress c t x
  | CDecompress c y => decompress c t y
  end.

Fixpoint run_calls `{ZS : Zstd} (t : Tls) (ks : list codec_call)
    : list (outcome CompressError bytes) :=
  match ks with
  | [] => []
  | k :: ks' => (run_call t k).2 :: run_calls (run_call t k).1 ks'
  end.

Section Implements.
Context `{ZS : Zstd} {ZL : ZstdLaws} (c : Compressor).

(** The codec of one compressor; the caches do not change its results
    ([compress_coherent], [decompress_coherent]). *)
#[local] Instance cached_codec : Codec := {|
  codec_compress level x := (compress (with_level c level) tls_init x).2;
  codec_decompress y := (decompress c tls_init y).2
|}.

Lemma compress_not_panic x : no_panic (compress c tls_init x).2.
Proof.
  unfold no_panic. rewrite compress_fresh. zcase; [done|]. case_match; [done|].
  destruct (zstd_compress _ _ _); simpl; [done|]. by zcase.
Qed.

Lemma decompress_not_panic y : no_panic (decompress c tls_init y).2.
Proof.
  unfold no_panic. destruct y as [|m y]; [done|]. simpl. case_match; [done|]. case_match; [|done].
  unfold dec_context. simpl. destruct (zstd_dctx _); [done|]. simpl.
  by destruct (zstd_decompress _ _ _).
Qed.
End Implements.

(** The interface holds of a compressor whose decoder context can be created. *)
Lemma cached_codec_laws `{ZS : Zstd} {ZL : ZstdLaws} (c : Compressor) :
  zstd_dctx (dict_arg (c_dict c)) = None → CodecLaws (CC := cached_codec c).
Proof.
  intros Hd. constructor; simpl.
  - intros level x y Hc. apply compress_ok_inv in Hc.
    apply (decompress_marked c x y _ Hd) with (K := λ _, dict_arg (c_dict c)); [|done..].
    destruct Hc as [->|(z & -> & _ & Hz)]; [by right|left]. by exists level, z.
  - intros level x y Hc. apply compress_ok_inv in Hc as [->|(z & -> & Hl & _)]; zl.
  - intros. apply compress_not_panic.
  - intros. apply decompress_not_panic.
Qed.

Lemma run_call_coherent `{ZS : Zstd} K t k :
  fits K (call_compressor k) → coherent K t →
  coherent K (run_call t k).1 ∧ (run_call t k).2 = (run_call tls_init k).2.
Proof. destruct k; simpl; [apply compress_coherent | apply decompress_coherent]. Qed.

(** ** Theorems *)


(** The thread-local caches are transparent: in any sequence of calls whose
    dictionary ids name one content each, every result is the one a thread with
    empty caches gives. *)
Theorem caches_transparent `{ZS : Zstd} K t ks :
  coherent K t → Forall (λ k, fits K (call_compressor k)) ks →
  run_calls t ks = (λ k, (run_call tls_init k).2) <$> ks.
Proof.
  intros T F. revert t T. induction F as [|k ks Hk _ IH]; intros t T; [done|].
  destruct (run_call_coherent K t k Hk T) as [T' R]. simpl. by rewrite R, IH.
Qed.

Lemma common_prefix_len_spec a b :
  let n := common_prefix_len a b in
  0 ≤ n ≤ Z.min (zlen a) (zlen b) ∧ ztake n a = ztake n b ∧
  ∀ m, n < m → m ≤ zlen a → ztake m a ≠ ztake m b.
Proof.
  revert b. induction a as [|x a IH]; intros [|y b]; cbn zeta.
  1-3: simpl; split_and!; [zl..|done|].
  1-2: intros m ? ?; zl.
  - intros m ? ? E. apply (f_equal length) in E. unfold ztake in E.
    rewrite !length_take in E. simpl in E. revert H0. unfold zlen; simpl. lia.
  - cbn [common_prefix_len]. destruct (Byte.eqb x y) eqn:Hxy.
    + apply Byte.byte_dec_bl in Hxy as ->. destruct (IH b) as (Hr & He & Hm).
      split_and!; [zl..| |].
      * unfold ztake in *. rewrite Z2Nat.inj_add by lia. simpl. by rewrite He.
      * intros m H1 H2 E. apply (Hm (m - 1)); [lia|zl|].
        unfold ztake in *. replace (Z.to_nat m) with (S (Z.to_nat (m - 1))) in E by lia.
        simpl in E. congruence.
    + split_and!; [zl..|done|]. intros m H1 H2 E. unfold ztake in E.
      replace (Z.to_nat m) with (S (Z.to_nat (m - 1))) in E by lia. simpl in E.
      injection E as -> _. by rewrite (Byte.byte_dec_lb eq_refl) in Hxy.
Qed.

Lemma max_by_key_spec {A} (key : A → Z) best l :
  max_by_key key best l ∈ best :: l ∧
  ∀ x, x ∈ best :: l → key x ≤ key (max_by_key key best l).
Proof.
  revert best. induction l as [|y l IH]; intros best; simpl.
  - split; [set_solver|]. intros x ->%list_elem_of_singleton. done.
  - set (w := if key y <? key best then best else y).
    assert ((w = best ∨ w = y) ∧ key best ≤ key w ∧ key y ≤ key w) as (Hw & ? & ?)
      by (unfold w; zcase; split_and!; auto; lia).
    destruct (IH w) as [Hin Hmax]. pose proof (Hmax w ltac:(left)). rewrite !elem_of_cons in *.
    split; [destruct Hin as [Hin|Hin]; [rewrite Hin; destruct Hw as [->| ->]|]; auto|].
    intros x. rewrite !elem_of_cons.
    intros [->|[->|Hx]]; [lia..|]. apply Hmax. by right.
Qed.

Lemma train_pass_bounds pass target order dict filled :
  0 ≤ target → filled = zlen dict → filled ≤ target →
  let '(dict', filled', stop) := train_pass pass target order dict filled in
  filled' = zlen dict' ∧ filled ≤ filled' ≤ target ∧ (stop = true → filled' = target).
Proof.
  intros Ht. revert dict filled. induction order as [|s order IH]; intros dict filled Hf Hle; simpl.
  { split_and!; [done|lia..|done]. }
  destruct (Z.eqb_spec (zlen s) 0) as [|Hs]; [by apply IH|].
  set (n := Z.min _ _). destruct (Z.eqb_spec n 0); [split_and!; [done|lia..|zl]|].
  set (chunk := if pass mod 2 =? 0 then _ else _).
  assert (zlen chunk = n) as Hn.
  { unfold chunk. destruct (_ =? 0); [apply zlen_ztake; zl|]. rewrite zlen_zdrop by zl. lia. }
  assert (filled + n = zlen (dict ++ chunk)) by zl.
  destruct (Z.leb_spec target (filled + n)); [split_and!; [done|zl..]|].
  specialize (IH (dict ++ chunk) (filled + n) ltac:(done) ltac:(lia)).
  destruct (train_pass _ _ _ _ _) as [[d' f'] st]. destruct IH as (? & ? & ?).
  split_and!; [done|zl..|done].
Qed.

Lemma train_loop_bounds passes target order dict filled :
  0 ≤ target → filled = zlen dict → filled ≤ target →
  zlen dict ≤ zlen (train_loop passes target order dict filled) ≤ target.
Proof.
  intros Ht. revert dict filled. induction passes as [|p ps IH]; intros dict filled Hf Hle; simpl; [lia|].
  pose proof (train_pass_bounds p target order dict filled Ht Hf Hle) as Hp.
  destruct (train_pass _ _ _ _ _) as [[d' f'] st]. destruct Hp as (? & ? & ?).
  destruct st; [lia|]. specialize (IH d' f' ltac:(done) ltac:(lia)). lia.
Qed.

Lemma train_pass_prefix pass target order dict filled :
  ∃ rest, (train_pass pass target order dict filled).1.1 = dict ++ rest.
Proof.
  revert dict filled. induction order as [|s order IH]; intros dict filled; simpl.
  { exists []. by rewrite app_nil_r. }
  destruct (zlen s =? 0); [done|]. destruct (_ =? 0).
  { exists []. by rewrite app_nil_r. }
  destruct (_ <=? _); simpl; [by eexists|].
  destruct (IH (dict ++ (if pass mod 2 =? 0 then ztake (zlen s `min` (0 `max` (target - filled))) s
    else zdrop (zlen s - zlen s `min` (0 `max` (target - filled))) s))
    (filled + zlen s `min` (0 `max` (target - filled)))) as [rest ->].
  eexists. by rewrite <-(assoc_L (++)).
Qed.

Lemma train_loop_prefix passes target order dict filled :
  ∃ rest, train_loop passes target order dict filled = dict ++ rest.
Proof.
  revert dict filled. induction passes as [|p ps IH]; intros dict filled; simpl.
  { exists []. by rewrite app_nil_r. }
  destruct (train_pass_prefix p target order dict filled) as [r1 H1].
  destruct (train_pass _ _ _ _ _) as [[d f] st]. simpl in H1. subst d.
  destruct st; [by eexists|]. destruct (IH (dict ++ r1) f) as [r2 ->].
  eexists. by rewrite <-(assoc_L (++)).
Qed.

Lemma sort_by_key_perm {A} (key : A → Z) l : sort_by_key key l ≡ₚ l.
Proof.
  induction l as [|x l IH]; simpl; [done|].
  assert (∀ k, insert_by_key key x k ≡ₚ x :: k) as Hi.
  { induction k as [|y k IHk]; simpl; [done|]. zcase; [done|]. rewrite IHk. apply Permutation_swap. }
  by rewrite Hi, IH.
Qed.

(** The first pass copies whole samples as long as they fit. *)
Lemma train_pass_fits target order dict filled :
  filled = zlen dict → filled + zlen (concat order) < target →
  train_pass 0 target order dict filled =
    (dict ++ concat order, filled + zlen (concat order), false).
Proof.
  revert dict filled. induction order as [|s order IH]; intros dict filled Hf Hlt; simpl in *.
  { rewrite zlen_nil, app_nil_r, Z.add_0_r. done. }
  rewrite zlen_app in *. destruct (Z.eqb_spec (zlen s) 0).
  - assert (s = []) as -> by (destruct s; [done|zl]). simpl. apply IH; zl.
  - rewrite (Z.min_l (zlen s)) by zl.
    rewrite (proj2 (Z.eqb_neq _ _)), (proj2 (Z.leb_gt _ _)) by zl.
    simpl. rewrite ztake_all, IH by zl. by rewrite <-(assoc_L (++)), Z.add_assoc.
Qed.

(** The trained dictionary fits its budget; when the samples all fit, the
    dictionary starts with every one of them, shortest first. *)
Theorem train_dictionary_within samples target_size :
  0 ≤ target_size →
  ∃ dict, train_dictionary samples target_size = Ok dict ∧ zlen dict ≤ target_size ∧
    (zlen (concat samples) < target_size →
       ∃ order rest, order ≡ₚ samples ∧ dict = concat order ++ rest).
Proof.
  intros Ht. eexists. split; [done|].
  pose proof (sort_by_key_perm zlen samples) as Hp. split.
  - by apply train_loop_bounds.
  - intros Hfit. exists (sort_by_key zlen samples).
    assert (zlen (concat (sort_by_key zlen samples)) = zlen (concat samples)) as Hlen.
    { by rewrite Hp. }
    cbn [train_loop]. rewrite train_pass_fits; [|done|rewrite Hlen; lia].
    destruct (train_loop_prefix [1; 2] target_size (sort_by_key zlen samples)
      ([] ++ concat (sort_by_key zlen samples))
      (0 + zlen (concat (sort_by_key zlen samples)))) as [rest Hrest].
    by exists rest.
Qed.

(** The reference a delta is taken against is a candidate that shares the
    longest prefix with the input; there is one as soon as there are
    candidates. *)
Theorem pick_reference_longest input candidates :
  match pick_reference input candidates with
  | None => candidates = []
  | Some r => r ∈ candidates ∧
      ∀ c m, c ∈ candidates → m ≤ zlen input → ztake m c = ztake m input →
        ztake m r = ztake m input
  end.
Proof.
  destruct candidates as [|c0 cs]; [done|]. cbn [pick_reference].
  destruct (max_by_key_spec (common_prefix_len input) c0 cs) as [Hin Hmax].
  split; [done|]. intros c m Hc Hm Heq. set (r := max_by_key _ _ _) in *.
  specialize (Hmax c Hc).
  destruct (common_prefix_len_spec input c) as (_ & _ & Hmaxc).
  destruct (common_prefix_len_spec input r) as (Hr & Hpre & _).
  destruct (decide (m ≤ common_prefix_len input c)) as [Hle|Hgt].
  - symmetry. apply (ztake_le _ _ _ _ Hpre). lia.
  - destruct (Hmaxc m); [lia|done|done].
Qed.

(** ** A concrete compressor, for the executable witnesses

    A frame is the content size, then the whole dictionary (tag 2), a run of
    one byte (tag 0) or the bytes as they are (tag 1). *)
Module ToyZstd.
Definition uniform (x : bytes) : option byte :=
  match x with
  | [] => None
  | b :: _ => if decide (x = replicate (length x) b) then Some b else None
  end.

Definition toy_body (dict : option bytes) (x : bytes) : bytes :=
  if decide (dict = Some x) then [Byte.x02]
  else match uniform x with
       | Some b => [Byte.x00; b]
       | None => Byte.x01 :: x
       end.

Definition toy_unbody (dict : option bytes) (n : Z) (c : bytes) : string + bytes :=
  match c with
  | [t] => if Byte.eqb t Byte.x02 then inr (default [] dict) else inl "bad tag"%string
  | t :: x =>
      if Byte.eqb t Byte.x01 then inr x
      else match x with
           | [b] => inr (replicate (Z.to_nat n) b)
           | _ => inl "bad tag"%string
           end
  | [] => inl "empty"%string
  end.

#[export] Instance toy_zstd : Zstd := {|
  zstd_cctx _ _ := None;
  zstd_dctx _ := None;
  zstd_compress _ dict x :=
    if (zlen x <? 2 ^ 64) && (0 <? zlen x) then inr (to_le 8 (zlen x) ++ toy_body dict x)
    else inl "unsupported size"%string;
  zstd_decompress dict c cap :=
    let n := from_le (take 8 c) in
    if cap <? n then inl "destination too small"%string else toy_unbody dict n (drop 8 c);
  get_frame_content_size c := Some (Some (from_le (take 8 c)))
|}.

Lemma toy_unbody_body dict x : 0 < zlen x → toy_unbody dict (zlen x) (toy_body dict x) = inr x.
Proof.
  intros Hx. unfold toy_body. case_decide as Hd; [by subst|].
  destruct (uniform x) as [b|] eqn:Hu.
  - destruct x as [|y x]; [done|]. unfold uniform in Hu. case_decide as Hr; [|done].
    injection Hu as <-. cbn -[replicate]. unfold zlen. rewrite Nat2Z.id. by rewrite <-Hr.
  - destruct x; [done|]. done.
Qed.

#[export] Instance toy_zstd_laws : ZstdLaws.
Proof.
  constructor; intros level dict x c;
    cbn [toy_zstd zstd_compress zstd_decompress get_frame_content_size].
  - intros cap Hc Hcap. destruct (_ && _) eqn:Hs; [|done]. apply (inj inr) in Hc as <-.
    rewrite andb_true_iff, !Z.ltb_lt in Hs.
    rewrite take_app_length', drop_app_length' by done.
    rewrite from_to_le by lia. rewrite (proj2 (Z.ltb_ge _ _)) by lia. apply toy_unbody_body. lia.
  - intros Hc. destruct (_ && _) eqn:Hs; [|done]. apply (inj inr) in Hc as <-.
    rewrite andb_true_iff, !Z.ltb_lt in Hs.
    rewrite take_app_length' by done. by rewrite from_to_le by lia.
Qed.

Definition toy_dict : Dict := Dict_from_content 7 (replicate 50 Byte.x61).
Definition toy_compressor : Compressor := Compressor_new toy_dict 3.
Definition toy_registry : registry :=
  λ id, if id =? 7 then Some (replicate 50 Byte.x61) else None.
Definition toy_input : bytes := replicate 40 Byte.x20.
(** Caches left by a compressor without dictionary. *)
Definition toy_tls : Tls := mkTls (Some (19, 0, (19, None))) (Some (0, None)).


Lemma caches_transparent_witness :
  run_calls toy_tls [CCompress toy_compressor toy_input; CCompress Compressor_default toy_input;
                     CDecompress toy_compressor [Byte.x05]]
  = (λ k, (run_call tls_init k).2) <$>
    [CCompress toy_compressor toy_input; CCompress Compressor_default toy_input;
     CDecompress toy_compressor [Byte.x05]].
Proof.
  apply (caches_transparent toy_registry); [by vm_compute|].
  repeat constructor; by vm_compute.
Defined.

Lemma train_dictionary_within_witness :
  ∃ dict, train_dictionary [toy_input; [Byte.x01]] 60 = Ok dict ∧ zlen dict ≤ 60 ∧
    (zlen (concat [toy_input; [Byte.x01]]) < 60 →
       ∃ order rest, order ≡ₚ [toy_input; [Byte.x01]] ∧ dict = concat order ++ rest).
Proof. apply (train_dictionary_within [toy_input; [Byte.x01]] 60). lia. Defined.
End ToyZstd.
