(* ===== verification/FountainSig.v ===== *)
(** * FountainSig: the contract of the cold-start erasure code

    The receiver feeds coded symbols to a decoder per generation and the shim
    codes each generation with an encoder ([coding/src/fountain.rs]).
    [FountainCode] lists the operations they call and [FountainLaws] what they
    rely on; the receiver's and the shim's theorems are stated against it. *)

From stdpp Require Import pretty.
From S2P Require Import Prelude.
#[local] Open Scope Z_scope.

Inductive FountainError : Type :=
| FEmpty
| FUnderdetermined (have need : Z)
| FSizeMismatch (a b : Z).

(** The [thiserror] texts. *)
Definition show_usize (n : Z) : string := pretty n.

Definition FountainError_to_string (e : FountainError) : string :=
  match e with
  | FEmpty => "empty generation"
  | FUnderdetermined have need =>
      "decode failed: only " ++ show_usize have ++ " of " ++ show_usize need
        ++ " independent symbols"
  | FSizeMismatch a b => "symbol size mismatch: " ++ show_usize a ++ " vs " ++ show_usize b
  end%string.

(** The wire form of a systematic symbol: one coefficient, index [i], value 1. *)
Definition systematic_wire (i : Z) (src : bytes) : bytes :=
  to_le 2 1 ++ to_le 2 i ++ [Byte.x01] ++ src.

Class FountainCode := {
  FountainDecoder : Type;
  decoder_new : Z → Z → FountainDecoder;
  decoder_add : FountainDecoder → bytes → FountainDecoder * outcome FountainError bool;
  decoder_decode : FountainDecoder → FountainDecoder * outcome FountainError (list bytes)
}.

(** Add symbols until one is refused; the decoder keeps the ones before it. *)
Fixpoint decoder_add_all `{FC : FountainCode} (d : FountainDecoder) (wires : list bytes)
    : FountainDecoder * outcome FountainError unit :=
  match wires with
  | [] => (d, Ok tt)
  | w :: wires' =>
      match decoder_add d w with
      | (d', Ok _) => decoder_add_all d' wires'
      | (d', Err e) => (d', Err e)
      | (d', Panic) => (d', Panic)
      end
  end.

(** [coded srcs w]: [w] is a coded symbol of the generation [srcs].  A fresh
    decoder takes coded symbols without complaint and either recovers exactly
    the sources or reports that it needs more; when every systematic symbol is
    among them, it recovers them. *)
Class FountainLaws `{FC : FountainCode} := {
  coded : list bytes → bytes → Prop;
  coded_systematic : ∀ srcs s i src,
    0 < s → 0 < zlen srcs ≤ 2 ^ 16 → Forall (λ x : bytes, zlen x = s) srcs →
    srcs !! i = Some src → coded srcs (systematic_wire (Z.of_nat i) src);
  decode_coded : ∀ srcs s wires,
    0 < s → 0 < zlen srcs ≤ 2 ^ 16 → Forall (λ x : bytes, zlen x = s) srcs →
    Forall (coded srcs) wires →
    ∃ d, decoder_add_all (decoder_new (zlen srcs) s) wires = (d, Ok tt) ∧
      ((decoder_decode d).2 = Ok srcs ∨
       ∃ have need, (decoder_decode d).2 = Err (FUnderdetermined have need));
  decode_systematic : ∀ srcs s wires d,
    0 < s → 0 < zlen srcs ≤ 2 ^ 16 → Forall (λ x : bytes, zlen x = s) srcs →
    Forall (coded srcs) wires →
    (∀ i src, srcs !! i = Some src → systematic_wire (Z.of_nat i) src ∈ wires) →
    decoder_add_all (decoder_new (zlen srcs) s) wires = (d, Ok tt) →
    (decoder_decode d).2 = Ok srcs
}.
