(* ===== verification/Receiver.v ===== *)
(** * Receiver: the session logs of [receiver/src/lib.rs]

    The receiver's state is the content store and, per session, the cold-start
    bookkeeping.  One definition per handler; each returns the next state and
    the reply.  A handler holds its session's mutation lock from start to end
    and touches no other session's log, so handlers are atomic steps here. *)

From S2P Require Import Prelude Interfaces Block Merkle Frame Store Compress FountainSig.

Inductive ReceiverError : Type :=
| RFountain (msg : string)
| RCompress (msg : string)
| RFrame (msg : string)
| MissingRef
| NoSession (session_id : Z)
| ColdStartInProgress (session_id : Z)
| BaseRootMismatch (session_id : Z) (client current : MerkleRoot).

(** [CompressError::to_string]. *)
Definition CompressError_to_string (e : CompressError) : string :=
  match e with
  | Encode msg => "zstd encode: " ++ msg
  | Decode msg => "zstd decode: " ++ msg
  | DictId expected got =>
      "dictionary id mismatch: expected " ++ show_usize expected ++ " got " ++ show_usize got
  end%string.

Record LogPointer : Type := mkPointer {
  lp_session_id : Z;
  lp_root : MerkleRoot;
  lp_len : Z
}.

(** A resolved entry of an APPEND. *)
Inductive Resolved : Type :=
| RInline (id : BlockId) (block : Block)
| RRef (id : BlockId).

Definition resolved_id (r : Resolved) : BlockId :=
  match r with RInline id _ | RRef id => id end.

Section Receiver.
Context `{B3 : Blake3} `{CC : Codec} `{FC : FountainCode}.

Record SessionState : Type := mkState {
  pending : gset BlockId;
  acked : bool;
  decoders : gmap Z FountainDecoder
}.

Record Receiver : Type := mkReceiver {
  r_store : ContentStore;
  r_sessions : gmap Z SessionState
}.

Definition fresh_state : SessionState := mkState ∅ false ∅.

(** [entry(sid).or_insert_with(..)]. *)
Definition state_of (r : Receiver) (sid : Z) : SessionState :=
  default fresh_state (r_sessions r !! sid).

Definition touch (r : Receiver) (sid : Z) : Receiver :=
  mkReceiver (r_store r) (<[sid := state_of r sid]> (r_sessions r)).

Definition with_store (r : Receiver) (s : ContentStore) : Receiver :=
  mkReceiver s (r_sessions r).

Definition put_state (r : Receiver) (sid : Z) (st : SessionState) : Receiver :=
  mkReceiver (r_store r) (<[sid := st]> (r_sessions r)).

(** [Receiver::new]: rebuild the bookkeeping from a replayed store. *)
Definition recover_state (store : ContentStore) (sid : Z) : SessionState :=
  let pending : gset BlockId :=
    list_to_set (filter (λ id, contains store id = false) (session_ids store sid)) in
  mkState pending (bool_decide (pending = ∅)) ∅.

Definition Receiver_new (store : ContentStore) : Receiver :=
  mkReceiver store
    (foldl (λ g sid, <[sid := recover_state store sid]> g) ∅ (session_list store)).

(** ** APPEND *)

(** Decompress and parse the inline blocks; references stay. *)
Definition resolve1 (fb : FrameBlock) : outcome ReceiverError Resolved :=
  match fb with
  | Inline wire_block =>
      let comp := payload wire_block in
      let? canon := map_err (λ e, RCompress (CompressError_to_string e)) (codec_decompress comp) in
      let? '(block, id) := map_err RFrame (from_canonical_owned canon) in
      Ok (RInline id block)
  | Ref id => Ok (RRef id)
  end.

Fixpoint resolve (fbs : list FrameBlock) : outcome ReceiverError (list Resolved) :=
  match fbs with
  | [] => Ok []
  | fb :: fbs' =>
      let? x := resolve1 fb in
      let? xs := resolve fbs' in
      Ok (x :: xs)
  end.

(** Every reference names stored content or an earlier inline block. *)
Fixpoint validate (store : ContentStore) (available_inline : gset BlockId)
    (resolved : list Resolved) : bool :=
  match resolved with
  | [] => true
  | RInline id _ :: rs => validate store ({[id]} ∪ available_inline) rs
  | RRef id :: rs =>
      if negb (contains store id) && negb (bool_decide (id ∈ available_inline)) then false
      else validate store available_inline rs
  end.

Fixpoint apply_resolved (store : ContentStore) (sid : Z) (resolved : list Resolved)
    : ContentStore * outcome ReceiverError unit :=
  match resolved with
  | [] => (store, Ok tt)
  | RInline id block :: rs => apply_resolved (insert_with_id store sid block id).1 sid rs
  | RRef id :: rs =>
      match reference store sid id with
      | (store', Ok _) => apply_resolved store' sid rs
      | (store', Err _) => (store', Err MissingRef)
      | (store', Panic) => (store', Panic)
      end
  end.

Definition handle_append (r : Receiver) (frame : AppendFrame)
    : Receiver * outcome ReceiverError AckFrame :=
  let sid := ap_session_id frame in
  match resolve (ap_blocks frame) with
  | Err e => (r, Err e)
  | Panic => (r, Panic)
  | Ok resolved =>
      if negb (validate (r_store r) ∅ resolved) then (r, Err MissingRef)
      else
        let r := touch r sid in
        let st := state_of r sid in
        if negb (bool_decide (pending st = ∅)) then (r, Err (ColdStartInProgress sid))
        else
          let cur_root := session_root (r_store r) sid in
          let target_root :=
            foldl (λ root item, append_root root (resolved_id item)) (ap_base_root frame) resolved in
          if negb (bool_decide (ap_base_root frame = cur_root)) then
            if bool_decide (target_root = cur_root) then (r, Ok (mkAck sid cur_root))
            else (r, Err (BaseRootMismatch sid (ap_base_root frame) cur_root))
          else
            let '(store, res) := apply_resolved (r_store r) sid resolved in
            (with_store r store,
              let? _ := res in Ok (mkAck sid (session_root store sid)))
  end.

(** ** RESYNC *)

Definition handle_resync (r : Receiver) (frame : ResyncFrame) : Receiver * list BlockId :=
  let sid := rs_session_id frame in
  let missing := filter (λ id, contains (r_store r) id = false) (rs_manifest frame) in
  let store := seed_session (r_store r) sid (rs_manifest frame) (rs_client_root frame) in
  let st := state_of r sid in
  (put_state (with_store r store) sid
     (mkState (list_to_set missing) (bool_decide (missing = [])) (decoders st)),
   missing).

(** ** BULK *)

(** Pass 1: the [len:u32][comp] descriptors of the decoded stream.  The offset
    grows by at least five bytes per record, so [length flat] steps are enough. *)
Fixpoint parse_records (fuel : nat) (flat : bytes) (off : Z)
    : outcome ReceiverError (list (Z * Z)) :=
  match fuel with
  | O => Ok []
  | S fuel' =>
      if off + 4 <=? zlen flat then
        let? lb := slice flat off (off + 4) in
        let blen := from_le lb in
        let off := off + 4 in
        if blen =? 0 then Ok []
        else if zlen flat <? off + blen then Ok []
        else
          let? rest := parse_records fuel' flat (off + blen) in
          Ok ((off, blen) :: rest)
      else Ok []
  end.

(** Pass 2: decompress and parse each record.  The code runs this over a thread
    pool and keeps the order; when several records fail it reports one of them,
    here the first. *)
Fixpoint recover_records (flat : bytes) (frames : list (Z * Z))
    : outcome ReceiverError (list (Block * BlockId)) :=
  match frames with
  | [] => Ok []
  | (off, blen) :: frames' =>
      let? comp := slice flat off (off + blen) in
      let? canon := map_err (λ e, RCompress (CompressError_to_string e)) (codec_decompress comp) in
      let? bi := map_err RFrame (from_canonical_owned canon) in
      let? rest := recover_records flat frames' in
      Ok (bi :: rest)
  end.

(** Pass 3: content only. *)
Definition store_recovered (store : ContentStore) (sid : Z) (recovered : list (Block * BlockId))
    : ContentStore :=
  foldl (λ s bi, (store_content_with_id s sid bi.1 bi.2).1) store recovered.

Definition handle_bulk (r : Receiver) (frame : BulkFrame)
    : Receiver * outcome ReceiverError (option MerkleRoot) :=
  let sid := bk_session_id frame in
  let gen := bk_generation frame in
  let st := state_of r sid in
  let dec := default (decoder_new (bk_k frame) (bk_symbol_size frame)) (decoders st !! gen) in
  let keep d := put_state r sid (mkState (pending st) (acked st) (<[gen := d]> (decoders st))) in
  match decoder_add_all dec (bk_symbols frame) with
  | (d, Err e) => (keep d, Err (RFountain (FountainError_to_string e)))
  | (d, Panic) => (keep d, Panic)
  | (d, Ok _) =>
      match decoder_decode d with
      | (d, Err (FUnderdetermined _ _)) => (keep d, Ok None)
      | (d, Err e) => (keep d, Err (RFountain (FountainError_to_string e)))
      | (d, Panic) => (keep d, Panic)
      | (d, Ok symbols) =>
          let flat := concat symbols in
          match (let? frames := parse_records (length flat) flat 0 in
                 recover_records flat frames) with
          | Err e => (keep d, Err e)
          | Panic => (keep d, Panic)
          | Ok recovered =>
              let recovered_ids := recovered.*2 in
              let store := store_recovered (r_store r) sid recovered in
              let pend := foldl (λ (p : gset BlockId) id, p ∖ {[id]}) (pending st) recovered_ids in
              let done := bool_decide (pend = ∅) && negb (acked st) in
              let st' := mkState pend (if done then true else acked st) (delete gen (decoders st)) in
              (put_state (with_store r store) sid st',
               Ok (if done then Some (session_root store sid) else None))
          end
      end
  end.

(** ** Dispatch and queries *)

Definition handle_frame (r : Receiver) (f : Frame) : Receiver * outcome ReceiverError (option Frame) :=
  match f with
  | FAppend a =>
      let '(r, res) := handle_append r a in
      (r, let? ack := res in Ok (Some (FAck ack)))
  | FResync rs =>
      let '(r, missing) := handle_resync r rs in
      (r, match missing with
          | [] => Ok (Some (FAck (mkAck (rs_session_id rs) (session_root (r_store r) (rs_session_id rs)))))
          | _ => Ok (Some (FMissing (mkMissing (rs_session_id rs) missing)))
          end)
  | FBulk b =>
      let '(r, res) := handle_bulk r b in
      (r, let? o := res in
          Ok (match o with
              | Some root => Some (FAck (mkAck (bk_session_id b) root))
              | None => None
              end))
  | FAck _ => (r, Ok None)
  | FMissing _ => (r, Ok None)
  end.

Definition pointer (r : Receiver) (sid : Z) : option LogPointer :=
  match r_sessions r !! sid with
  | Some _ => Some (mkPointer sid (session_root (r_store r) sid) (session_len (r_store r) sid))
  | None => None
  end.

Definition Receiver_session_root (r : Receiver) (sid : Z) : option MerkleRoot :=
  match r_sessions r !! sid with
  | Some _ => Some (session_root (r_store r) sid)
  | None => None
  end.

Definition Receiver_reconstruct (r : Receiver) (sid : Z) : list Block :=
  match r_sessions r !! sid with
  | Some _ => reconstruct (r_store r) sid
  | None => []
  end.

Definition Receiver_reconstruct_range (r : Receiver) (sid from to : Z)
    : outcome string (list Block) :=
  match r_sessions r !! sid with
  | Some _ => reconstruct_range (r_store r) sid from to
  | None => Ok []
  end.
End Receiver.

(** ** Lemmas: the APPEND path *)

Section AppendLemmas.
Context `{B3 : Blake3} {B3L : Blake3Laws} `{CC : Codec} {CL : CodecLaws} `{FC : FountainCode}.

Lemma contains_true s id : contains s id = true ↔ is_Some (blocks s !! id).
Proof. unfold contains. by rewrite bool_decide_eq_true. Qed.

Lemma contains_false s id : contains s id = false ↔ blocks s !! id = None.
Proof. unfold contains. rewrite bool_decide_eq_false. by rewrite eq_None_not_Some. Qed.

(** [s'] extends session [sid] of [s] by [rids] and leaves the other logs. *)
Record extends (s s' : ContentStore) (sid : Z) (rids : list BlockId) : Prop := {
  ext_ids : session_ids s' sid = session_ids s sid ++ rids;
  ext_root : session_root s' sid = root_over (session_root s sid) rids;
  ext_other : ∀ sid', sid' ≠ sid → sessions s' !! sid' = sessions s !! sid';
  ext_blocks : blocks s ⊆ blocks s';
  ext_stored : Forall (λ id, is_Some (blocks s' !! id)) rids
}.

Lemma extends_nil s sid : extends s s sid [].
Proof. constructor; simpl; rewrite ?app_nil_r; done. Qed.

Lemma extends_cons s s1 s2 sid id rids :
  extends s s1 sid [id] → extends s1 s2 sid rids → extends s s2 sid (id :: rids).
Proof.
  intros [I1 R1 O1 B1 S1] [I2 R2 O2 B2 S2]. constructor.
  - by rewrite I2, I1, <-app_assoc.
  - rewrite R2, R1. done.
  - intros sid' Hne. by rewrite O2, O1.
  - by etrans.
  - constructor; [|done]. apply Forall_cons_iff in S1 as [[b Hb] _].
    exists b. by eapply lookup_weaken.
Qed.

Lemma extends_append s s' sid id :
  sessions s' = (append_session (sessions s) sid id).1 →
  blocks s ⊆ blocks s' → is_Some (blocks s' !! id) → extends s s' sid [id].
Proof.
  intros Hs Hb Hi. constructor.
  - by rewrite (session_ids_append _ _ _ _ Hs), log_of_ids.
  - by rewrite (session_root_append _ _ _ _ Hs), log_of_root.
  - intros sid' Hne. rewrite Hs, append_session_eq. by rewrite lookup_insert_ne.
  - done.
  - by constructor.
Qed.

Lemma insert_extends s sid b id : extends s (insert_with_id s sid b id).1 sid [id].
Proof.
  unfold insert_with_id. apply extends_append; [apply insert_sessions| |];
    rewrite insert_blocks; [apply put_block_subseteq|apply put_block_present].
Qed.

Lemma reference_ok s sid id :
  is_Some (blocks s !! id) →
  (reference s sid id).2 = Ok tt ∧ extends s (reference s sid id).1 sid [id].
Proof.
  intros [b Hb]. assert (blocks s !! id ≠ None) as Hn by (by rewrite Hb). split.
  - unfold reference. rewrite decide_False by done. by destruct (append_session _ _ _).
  - apply extends_append; rewrite ?reference_blocks; [|done|by eexists].
    rewrite reference_sessions. by rewrite decide_False.
Qed.

(** A validated batch is applied in full. *)
Lemma apply_resolved_ok s0 avail s sid rs :
  validate s0 avail rs = true →
  (∀ id, contains s0 id = true ∨ id ∈ avail → is_Some (blocks s !! id)) →
  ∃ s', apply_resolved s sid rs = (s', Ok tt) ∧ extends s s' sid (resolved_id <$> rs).
Proof.
  revert s avail. induction rs as [|[id b|id] rs IH]; intros s avail; simpl; intros Hv Hc.
  - exists s. split; [done|]. apply extends_nil.
  - pose proof (insert_extends s sid b id) as E.
    destruct (IH (insert_with_id s sid b id).1 ({[id]} ∪ avail) Hv) as (s' & -> & E').
    + intros i [Hi|Hi%elem_of_union].
      * destruct (Hc i (or_introl Hi)) as [x Hx]. exists x.
        eapply lookup_weaken; [exact Hx|apply E].
      * destruct Hi as [->%elem_of_singleton|Hi].
        -- apply (Forall_inv (ext_stored _ _ _ _ E)).
        -- destruct (Hc i (or_intror Hi)) as [x Hx]. exists x.
           eapply lookup_weaken; [exact Hx|apply E].
    + exists s'. split; [done|]. by eapply extends_cons.
  - destruct (negb _ && negb _) eqn:Hg; [done|].
    assert (is_Some (blocks s !! id)) as Hid.
    { apply Hc. rewrite andb_false_iff, !negb_false_iff, bool_decide_eq_true in Hg. done. }
    destruct (reference_ok s sid id Hid) as [Hr E]. destruct (reference s sid id) as [s1 r1].
    simpl in *. subst r1. destruct (IH s1 avail Hv) as (s' & -> & E').
    + intros i Hi. destruct (Hc i Hi) as [x Hx]. exists x.
      eapply lookup_weaken; [exact Hx|apply E].
    + exists s'. split; [done|]. by eapply extends_cons.
Qed.

Lemma target_root_over base rs :
  foldl (λ root item, append_root root (resolved_id item)) base rs
  = root_over base (resolved_id <$> rs).
Proof. revert base. induction rs as [|r rs IH]; intros base; simpl; [done|]. by rewrite IH. Qed.

Lemma resolve_no_panic fbs : no_panic (resolve fbs).
Proof.
  induction fbs as [|fb fbs IH]; simpl; [done|].
  apply obind_no_panic.
  - destruct fb as [b|id]; simpl; [|done]. apply obind_no_panic.
    + pose proof (codec_decompress_no_panic (payload b)) as Hp. unfold no_panic in *.
      by destruct (codec_decompress (payload b)).
    + intros canon _. apply obind_no_panic; [|by intros [] _].
      rewrite from_canonical_owned_spec. unfold no_panic.
      pose proof (from_canonical_not_panic canon) as Hf. unfold no_panic in Hf.
      by destruct (from_canonical canon).
  - intros x _. apply obind_no_panic; [done|]. by intros.
Qed.

(** The branches of [handle_append] in terms of the store. *)
Inductive append_outcome (r : Receiver) (frame : AppendFrame)
    : Receiver * outcome ReceiverError AckFrame → Prop :=
| AppendRejected r' e :
    r_store r' = r_store r → (∀ sid, state_of r' sid = state_of r sid) →
    append_outcome r frame (r', Err e)
| AppendReplayed rs :
    resolve (ap_blocks frame) = Ok rs →
    validate (r_store r) ∅ rs = true →
    pending (state_of r (ap_session_id frame)) = ∅ →
    ap_base_root frame ≠ session_root (r_store r) (ap_session_id frame) →
    root_over (ap_base_root frame) (resolved_id <$> rs)
      = session_root (r_store r) (ap_session_id frame) →
    append_outcome r frame
      (touch r (ap_session_id frame),
       Ok (mkAck (ap_session_id frame) (session_root (r_store r) (ap_session_id frame))))
| AppendApplied rs s' :
    resolve (ap_blocks frame) = Ok rs →
    validate (r_store r) ∅ rs = true →
    pending (state_of r (ap_session_id frame)) = ∅ →
    ap_base_root frame = session_root (r_store r) (ap_session_id frame) →
    apply_resolved (r_store r) (ap_session_id frame) rs = (s', Ok tt) →
    extends (r_store r) s' (ap_session_id frame) (resolved_id <$> rs) →
    append_outcome r frame
      (with_store (touch r (ap_session_id frame)) s',
       Ok (mkAck (ap_session_id frame)
                 (root_over (ap_base_root frame) (resolved_id <$> rs)))).

Lemma state_of_touch r sid sid' : state_of (touch r sid) sid' = state_of r sid'.
Proof.
  unfold state_of at 1, touch. simpl. destruct (decide (sid = sid')) as [<-|Hne].
  - by rewrite lookup_insert_eq.
  - by rewrite lookup_insert_ne.
Qed.

Lemma handle_append_outcome r frame : append_outcome r frame (handle_append r frame).
Proof.
  unfold handle_append. pose proof (resolve_no_panic (ap_blocks frame)) as Hnp.
  destruct (resolve (ap_blocks frame)) as [rs|e|] eqn:Hres; [|by constructor|done].
  destruct (validate (r_store r) ∅ rs) eqn:Hv; simpl; [|by constructor].
  rewrite state_of_touch. case_bool_decide as Hpend; simpl; [|constructor; [done|]].
  2:{ intros. apply state_of_touch. }
  rewrite target_root_over.
  case_bool_decide as Hbase; simpl.
  - destruct (apply_resolved_ok (r_store r) ∅ (r_store r) (ap_session_id frame) rs Hv)
      as (s' & Ha & E).
    { intros id [Hi|Hi]; [by apply contains_true|]. by apply elem_of_empty in Hi. }
    rewrite Ha. simpl. rewrite (ext_root _ _ _ _ E), <-Hbase.
    by eapply AppendApplied.
  - case_bool_decide; [by eapply AppendReplayed|].
    constructor; [done|]. intros. apply state_of_touch.
Qed.
End AppendLemmas.

(** ** The receiver invariant *)

Section Invariant.
Context `{B3 : Blake3} {B3L : Blake3Laws} `{CC : Codec} {CL : CodecLaws} `{FC : FountainCode}.

(** Every id of a session log has its content in the store or is still pending
    in that session's cold start. *)
Definition held (r : Receiver) : Prop :=
  ∀ sid id, id ∈ session_ids (r_store r) sid →
    is_Some (blocks (r_store r) !! id) ∨ id ∈ pending (state_of r sid).

Definition receiver_inv (r : Receiver) : Prop := content_ok (r_store r) ∧ held r.

(** Session [sid] can be rebuilt in full, and its blocks are those of its log. *)
Definition complete (r : Receiver) (sid : Z) : Prop :=
  (block_id <$> reconstruct (r_store r) sid) = session_ids (r_store r) sid.

Lemma complete_of_held r sid :
  content_ok (r_store r) →
  Forall (λ id, is_Some (blocks (r_store r) !! id)) (session_ids (r_store r) sid) →
  complete r sid.
Proof.
  intros Hc. unfold complete. rewrite reconstruct_ids.
  induction 1 as [|id l [b Hb] _ IH]; [done|]. cbn. rewrite Hb. cbn.
  destruct (Hc _ _ Hb) as [<- _]. apply f_equal, IH.
Qed.

Lemma no_pending_complete r sid :
  receiver_inv r → pending (state_of r sid) = ∅ → complete r sid.
Proof.
  intros [Hc Hh] Hp. apply complete_of_held; [done|]. apply Forall_elem. intros id Hid.
  destruct (Hh sid id Hid) as [|Hin]; [done|]. rewrite Hp in Hin. by apply elem_of_empty in Hin.
Qed.

Lemma parsed_content canon b id :
  from_canonical_owned canon = Ok (b, id) → id = block_id b ∧ block_wf b.
Proof.
  rewrite from_canonical_owned_spec. intros H. apply obind_ok_inv in H as (b' & Hb & [= -> <-]).
  split; [done|]. by apply from_canonical_inv in Hb as [? _].
Qed.

Definition resolved_ok (x : Resolved) : Prop :=
  match x with RInline id b => id = block_id b ∧ block_wf b | RRef _ => True end.

Lemma resolve_ok fbs rs : resolve fbs = Ok rs → Forall resolved_ok rs.
Proof.
  revert rs. induction fbs as [|fb fbs IH]; simpl; intros rs H; [injection H as <-; constructor|].
  apply obind_ok_inv in H as (x & Hx & H). apply obind_ok_inv in H as (xs & Hxs & [= <-]).
  constructor; [|by apply IH]. destruct fb as [b|id]; simpl in Hx; [|by injection Hx as <-].
  apply obind_ok_inv in Hx as (canon & _ & Hx). apply obind_ok_inv in Hx as ([b' id'] & Hp & [= <-]).
  unfold map_err in Hp. case_match; simplify_eq. by eapply parsed_content.
Qed.

Lemma apply_resolved_content s sid rs s' res :
  apply_resolved s sid rs = (s', res) → Forall resolved_ok rs → content_ok s → content_ok s'.
Proof.
  revert s. induction rs as [|[id b|id] rs IH]; intros s; simpl; intros Ha Hok Hc;
    [by simplify_eq|apply Forall_cons_iff in Hok as [Hx Hok]..].
  - eapply IH; [exact Ha|done|]. unfold content_ok, insert_with_id. rewrite insert_blocks.
    destruct Hx. by apply put_block_content.
  - pose proof (reference_blocks s sid id) as Hb.
    destruct (reference s sid id) as [s1 [|?|]] eqn:Hr; simpl in Hb; simplify_eq.
    + eapply IH; [exact Ha|done|]. unfold content_ok. by rewrite Hb.
    + unfold content_ok. by rewrite Hb.
    + unfold content_ok. by rewrite Hb.
Qed.

Lemma held_extends r s' sid rids :
  held r → extends (r_store r) s' sid rids → held (with_store (touch r sid) s').
Proof.
  intros Hh E sid' id. cbn [with_store r_store]. intros Hid.
  change (state_of (with_store (touch r sid) s') sid') with (state_of (touch r sid) sid').
  rewrite state_of_touch.
  assert (∀ i, is_Some (blocks (r_store r) !! i) → is_Some (blocks s' !! i)) as Hmono.
  { intros i [b Hb]. exists b. eapply lookup_weaken; [exact Hb|apply E]. }
  destruct (decide (sid' = sid)) as [->|Hne].
  - rewrite (ext_ids _ _ _ _ E) in Hid. apply elem_of_app in Hid as [Hid|Hid].
    + destruct (Hh sid id Hid); auto.
    + left. by eapply Forall_elem in Hid; [|apply (ext_stored _ _ _ _ E)].
  - unfold session_ids in Hid. rewrite (ext_other _ _ _ _ E) in Hid by done.
    destruct (Hh sid' id Hid); auto.
Qed.

Lemma append_inv r frame : receiver_inv r → receiver_inv (handle_append r frame).1.
Proof.
  intros [Hc Hh].
  destruct (handle_append_outcome r frame) as [r' e Hs Hst|rs Hres _ _ _ _|rs s' Hres Hv _ _ Ha E]; simpl.
  - split; [by rewrite Hs|]. intros sid id. rewrite Hs, Hst. apply Hh.
  - split; [done|]. intros sid id. rewrite state_of_touch. apply Hh.
  - split; [|by eapply held_extends]. cbn [with_store r_store].
    eapply apply_resolved_content; [exact Ha|by eapply resolve_ok|done].
Qed.

Lemma state_of_put r sid st sid' :
  state_of (put_state r sid st) sid' = if decide (sid = sid') then st else state_of r sid'.
Proof.
  unfold state_of, put_state. simpl. case_decide as Hd.
  - subst. by rewrite lookup_insert_eq.
  - by rewrite lookup_insert_ne.
Qed.

Lemma resync_inv r frame : receiver_inv r → receiver_inv (handle_resync r frame).1.
Proof.
  intros [Hc Hh]. unfold handle_resync. cbn [fst]. split.
  - unfold content_ok. cbn. by rewrite seed_blocks.
  - intros sid id. cbn [put_state with_store r_store]. rewrite seed_blocks.
    unfold session_ids. rewrite seed_sessions, state_of_put.
    case_decide as Hd.
    + subst. rewrite lookup_insert_eq. cbn. intros Hid.
      destruct (contains (r_store r) id) eqn:Hcon; [left; by apply contains_true|right].
      apply elem_of_list_to_set, list_elem_of_filter. done.
    + rewrite lookup_insert_ne by done. apply Hh.
Qed.

Lemma store_recovered_effect s sid rec :
  sessions (store_recovered s sid rec) = sessions s ∧
  blocks s ⊆ blocks (store_recovered s sid rec) ∧
  Forall (λ id, is_Some (blocks (store_recovered s sid rec) !! id)) rec.*2.
Proof.
  revert s. induction rec as [|[b id] rec IH]; intros s; [done|].
  change (store_recovered s sid ((b, id) :: rec))
    with (store_recovered (store_content_with_id s sid b id).1 sid rec).
  destruct (IH (store_content_with_id s sid b id).1) as (Hs & Hb & Hf).
  rewrite content_sessions in Hs. rewrite content_blocks in Hb. split_and!; [done| |].
  - etrans; [apply put_block_subseteq|exact Hb].
  - constructor; [|done]. destruct (put_block_present (blocks s) id b) as [x Hx].
    exists x. by eapply lookup_weaken.
Qed.

Lemma store_recovered_content s sid rec :
  Forall (λ bi, bi.2 = block_id bi.1 ∧ block_wf bi.1) rec → content_ok s →
  content_ok (store_recovered s sid rec).
Proof.
  intros H. revert s. induction H as [|[b id] rec [Hi Hw] _ IH]; intros s Hc; [done|].
  apply (IH (store_content_with_id s sid b id).1). unfold content_ok. rewrite content_blocks.
  by apply put_block_content.
Qed.

Lemma recover_records_ok flat frames rec :
  recover_records flat frames = Ok rec →
  Forall (λ bi, bi.2 = block_id bi.1 ∧ block_wf bi.1) rec.
Proof.
  revert rec. induction frames as [|[off blen] frames IH]; simpl; intros rec H;
    [injection H as <-; constructor|].
  apply obind_ok_inv in H as (comp & _ & H). apply obind_ok_inv in H as (canon & _ & H).
  apply obind_ok_inv in H as ([b id] & Hp & H). apply obind_ok_inv in H as (rest & Hr & [= <-]).
  constructor; [|by apply IH]. unfold map_err in Hp. case_match; simplify_eq.
  by eapply parsed_content.
Qed.

Lemma elem_of_retired (p : gset BlockId) l id :
  id ∈ foldl (λ (p : gset BlockId) id, p ∖ {[id]}) p l ↔ id ∈ p ∧ id ∉ l.
Proof.
  revert p. induction l as [|x l IH]; intros p; simpl; [set_solver|]. rewrite IH. set_solver.
Qed.

(** What a BULK frame can do: nothing but feed its decoder, or store what the
    generation held and retire it. *)
Inductive bulk_outcome (r : Receiver) (frame : BulkFrame)
    : Receiver * outcome ReceiverError (option MerkleRoot) → Prop :=
| BulkFed d res :
    (∀ root, res ≠ Ok (Some root)) →
    bulk_outcome r frame
      (put_state r (bk_session_id frame)
         (mkState (pending (state_of r (bk_session_id frame)))
                  (acked (state_of r (bk_session_id frame)))
                  (<[bk_generation frame := d]> (decoders (state_of r (bk_session_id frame))))), res)
| BulkDecoded rec pend fin :
    Forall (λ bi, bi.2 = block_id bi.1 ∧ block_wf bi.1) rec →
    (∀ id, id ∈ pend ↔ id ∈ pending (state_of r (bk_session_id frame)) ∧ id ∉ rec.*2) →
    fin = bool_decide (pend = ∅) && negb (acked (state_of r (bk_session_id frame))) →
    bulk_outcome r frame
      (put_state (with_store r (store_recovered (r_store r) (bk_session_id frame) rec))
         (bk_session_id frame)
         (mkState pend (if fin then true else acked (state_of r (bk_session_id frame)))
            (delete (bk_generation frame) (decoders (state_of r (bk_session_id frame))))),
       Ok (if fin then Some (session_root (r_store r) (bk_session_id frame)) else None)).

Lemma store_recovered_root s sid rec sid' :
  session_root (store_recovered s sid rec) sid' = session_root s sid'.
Proof.
  unfold session_root. by rewrite (proj1 (store_recovered_effect s sid rec)).
Qed.

Lemma handle_bulk_outcome r frame : bulk_outcome r frame (handle_bulk r frame).
Proof.
  unfold handle_bulk.
  destruct (decoder_add_all _ _) as [d [u|e|]]; [|by constructor..].
  destruct (decoder_decode d) as [d' [syms|e|]]; [|destruct e; constructor; congruence|by constructor].
  destruct (obind _ _) as [rec|e|] eqn:Hrec; [|by constructor..].
  apply obind_ok_inv in Hrec as (frames & _ & Hrec). rewrite store_recovered_root.
  constructor; [by eapply recover_records_ok| |done]. intros id. apply elem_of_retired.
Qed.

Lemma bulk_inv r frame : receiver_inv r → receiver_inv (handle_bulk r frame).1.
Proof.
  intros [Hc Hh].
  destruct (handle_bulk_outcome r frame) as [d res Hres|rec pend fin Hrec Hpend Hfin]; cbn [fst].
  - split; [done|]. intros sid id. cbn [put_state r_store]. rewrite state_of_put.
    case_decide as Hd; [subst|]; apply Hh.
  - split; [by apply store_recovered_content|].
    destruct (store_recovered_effect (r_store r) (bk_session_id frame) rec) as (Hs & Hb & Hst).
    intros sid id. cbn [put_state with_store r_store]. rewrite state_of_put.
    unfold session_ids. rewrite Hs. intros Hid. specialize (Hh sid id Hid) as [[b Hb']|Hp].
    + left. exists b. by eapply lookup_weaken.
    + destruct (decide (id ∈ rec.*2)) as [Hin|Hin].
      * left. by apply (proj1 (Forall_elem _ _) Hst).
      * right. destruct (decide (bk_session_id frame = sid)); [subst; by apply Hpend|exact Hp].
Qed.

Lemma handle_frame_inv r f : receiver_inv r → receiver_inv (handle_frame r f).1.
Proof.
  intros Hi. destruct f as [a|rs|b|a|m]; cbn [handle_frame]; try done.
  - pose proof (append_inv r a Hi). by destruct (handle_append r a).
  - pose proof (resync_inv r rs Hi). by destruct (handle_resync r rs).
  - pose proof (bulk_inv r b Hi). by destruct (handle_bulk r b).
Qed.

(** The receiver after a sequence of frames. *)
Definition run_frames (r : Receiver) (fs : list Frame) : Receiver :=
  foldl (λ r f, (handle_frame r f).1) r fs.

Lemma run_frames_inv r fs : receiver_inv r → receiver_inv (run_frames r fs).
Proof.
  revert r. induction fs as [|f fs IH]; intros r Hi; [done|].
  apply (IH (handle_frame r f).1). by apply handle_frame_inv.
Qed.

Lemma Receiver_new_state store sid :
  pending (state_of (Receiver_new store) sid) =
    pending (recover_state store sid) ∨ sessions store !! sid = None.
Proof.
  unfold Receiver_new, state_of, session_list. cbn [r_sessions].
  assert (∀ l (g : gmap Z SessionState),
    (sid ∈ l → foldl (λ g sid, <[sid := recover_state store sid]> g) g l !! sid
               = Some (recover_state store sid)) ∧
    (sid ∉ l → foldl (λ g sid, <[sid := recover_state store sid]> g) g l !! sid = g !! sid))
    as Hf.
  { induction l as [|x l IH]; intros g; simpl; [set_solver|].
    destruct (IH (<[x:=recover_state store x]> g)) as [IH1 IH2]. split.
    - intros [->|Hin]%elem_of_cons; [|by apply IH1].
      destruct (decide (x ∈ l)); [by apply IH1|]. rewrite IH2 by done. apply lookup_insert_eq.
    - intros [Hne Hnin]%not_elem_of_cons. rewrite IH2 by done. by rewrite lookup_insert_ne. }
  destruct (sessions store !! sid) as [log|] eqn:Hs; [left|by right].
  rewrite (proj1 (Hf _ ∅)); [done|]. apply list_elem_of_fmap. exists (sid, log).
  split; [done|]. by apply elem_of_map_to_list.
Qed.

Lemma Receiver_new_inv store : content_ok store → receiver_inv (Receiver_new store).
Proof.
  intros Hc. split; [done|]. intros sid id Hid. cbn [Receiver_new r_store] in *.
  destruct (Receiver_new_state store sid) as [->|Hn].
  - destruct (contains store id) eqn:Hcon; [left; by apply contains_true|right].
    simpl. apply elem_of_list_to_set, list_elem_of_filter. done.
  - unfold session_ids in Hid. rewrite Hn in Hid. by apply not_elem_of_nil in Hid.
Qed.
End Invariant.

(** ** Steps of one session *)

Section Steps.
Context `{B3 : Blake3} {B3L : Blake3Laws} `{CC : Codec} {CL : CodecLaws} `{FC : FountainCode}.

Lemma validate_mono s s' avail rs :
  blocks s ⊆ blocks s' → validate s avail rs = true → validate s' avail rs = true.
Proof.
  intros Hsub. revert avail. induction rs as [|[id b|id] rs IH]; intros avail; simpl; [done|apply IH|].
  destruct (contains s id) eqn:Hc; simpl.
  - apply contains_true in Hc as [b Hb].
    assert (contains s' id = true) as -> by (apply contains_true; exists b; by eapply lookup_weaken).
    apply IH.
  - case_bool_decide; simpl; [|done]. rewrite andb_false_r. apply IH.
Qed.

Lemma append_applied r frame rs :
  resolve (ap_blocks frame) = Ok rs → validate (r_store r) ∅ rs = true →
  pending (state_of r (ap_session_id frame)) = ∅ →
  ap_base_root frame = session_root (r_store r) (ap_session_id frame) →
  ∃ s', handle_append r frame =
      (with_store (touch r (ap_session_id frame)) s',
       Ok (mkAck (ap_session_id frame) (root_over (ap_base_root frame) (resolved_id <$> rs)))) ∧
    apply_resolved (r_store r) (ap_session_id frame) rs = (s', Ok tt) ∧
    extends (r_store r) s' (ap_session_id frame) (resolved_id <$> rs).
Proof.
  intros Hres Hv Hp Hb.
  destruct (apply_resolved_ok (r_store r) ∅ (r_store r) (ap_session_id frame) rs Hv)
    as (s' & Ha & E).
  { intros id [Hi|Hi]; [by apply contains_true|]. by apply elem_of_empty in Hi. }
  exists s'. split; [|done]. unfold handle_append. rewrite Hres, Hv. simpl.
  rewrite state_of_touch, Hp, bool_decide_true by done. simpl.
  rewrite bool_decide_true by done. simpl. rewrite Ha. simpl.
  by rewrite (ext_root _ _ _ _ E), Hb.
Qed.

(** The lost-ACK replay. *)
Lemma append_replayed r frame rs :
  resolve (ap_blocks frame) = Ok rs → validate (r_store r) ∅ rs = true →
  pending (state_of r (ap_session_id frame)) = ∅ →
  ap_base_root frame ≠ session_root (r_store r) (ap_session_id frame) →
  root_over (ap_base_root frame) (resolved_id <$> rs)
    = session_root (r_store r) (ap_session_id frame) →
  handle_append r frame =
    (touch r (ap_session_id frame),
     Ok (mkAck (ap_session_id frame) (session_root (r_store r) (ap_session_id frame)))).
Proof.
  intros Hres Hv Hp Hb Ht. unfold handle_append. rewrite Hres, Hv. simpl.
  rewrite state_of_touch, Hp, bool_decide_true by done. simpl.
  rewrite bool_decide_false by done. simpl.
  by rewrite target_root_over, Ht, bool_decide_true.
Qed.

(** An acknowledged frame, seen from the state it leaves. *)
Lemma append_cases r frame r1 ack :
  handle_append r frame = (r1, Ok ack) →
  ∃ rs, resolve (ap_blocks frame) = Ok rs ∧ validate (r_store r1) ∅ rs = true ∧
    pending (state_of r1 (ap_session_id frame)) = ∅ ∧
    ack = mkAck (ap_session_id frame) (root_over (ap_base_root frame) (resolved_id <$> rs)) ∧
    session_root (r_store r1) (ap_session_id frame)
      = root_over (ap_base_root frame) (resolved_id <$> rs).
Proof.
  intros H. destruct (handle_append_outcome r frame)
    as [r' e Hs Hst|rs Hres Hv Hp _ Ht|rs s' Hres Hv Hp Hb _ E]; [done|injection H as <- <-..].
  - exists rs. rewrite state_of_touch, Ht. done.
  - exists rs. split_and!; [done| | |done|].
    + eapply validate_mono; [apply E|done].
    + etrans; [apply f_equal, state_of_touch|done].
    + cbn. by rewrite (ext_root _ _ _ _ E), Hb.
Qed.

Definition resyncs (sid : Z) (f : Frame) : Prop :=
  match f with FResync rs => rs_session_id rs = sid | _ => False end.

(** A frame that does not resynchronise [sid] can only append to its log, and
    only when nothing is pending; pending shrinks and the acked flag stays. *)
Record session_step (r r' : Receiver) (sid : Z) : Prop := {
  step_log : ∃ rids, session_ids (r_store r') sid = session_ids (r_store r) sid ++ rids ∧
                     session_root (r_store r') sid = root_over (session_root (r_store r) sid) rids ∧
                     (pending (state_of r' sid) ≠ ∅ → rids = []);
  step_pending : pending (state_of r' sid) ⊆ pending (state_of r sid);
  step_acked : acked (state_of r sid) = true → acked (state_of r' sid) = true
}.

Lemma step_same r r' sid :
  sessions (r_store r') !! sid = sessions (r_store r) !! sid →
  pending (state_of r' sid) ⊆ pending (state_of r sid) →
  (acked (state_of r sid) = true → acked (state_of r' sid) = true) →
  session_step r r' sid.
Proof.
  intros Hs Hp Ha. split; [|done..]. exists []. unfold session_ids, session_root.
  rewrite Hs, app_nil_r. done.
Qed.

Lemma append_step r frame sid : session_step r (handle_append r frame).1 sid.
Proof.
  destruct (handle_append_outcome r frame) as [r' e Hs Hst|rs Hres _ _ _ _|rs s' Hres Hv Hp _ _ E]; cbn [fst].
  - apply step_same; by rewrite ?Hs, ?Hst.
  - apply step_same; by rewrite ?state_of_touch.
  - set (r' := with_store _ s').
    assert (state_of r' sid = state_of r sid) as Hst by apply state_of_touch.
    destruct (decide (sid = ap_session_id frame)) as [->|Hne].
    + split; [|by rewrite Hst..]. eexists. split_and!; [apply E|apply E|]. by rewrite Hst, Hp.
    + apply step_same; [by apply E|by rewrite Hst..].
Qed.

Lemma bulk_step r frame sid : session_step r (handle_bulk r frame).1 sid.
Proof.
  destruct (handle_bulk_outcome r frame) as [d res Hres|rec pend fin Hrec Hpend Hfin]; cbn [fst].
  - apply step_same; [done|rewrite state_of_put..];
      destruct (decide (bk_session_id frame = sid)); by subst.
  - apply step_same; [|rewrite state_of_put..].
    + cbn. by rewrite (proj1 (store_recovered_effect _ _ _)).
    + destruct (decide (bk_session_id frame = sid)); [subst sid; cbn; set_solver|done].
    + destruct (decide (bk_session_id frame = sid)); [subst sid; cbn; by destruct fin|done].
Qed.

Lemma resync_step r frame sid :
  rs_session_id frame ≠ sid → session_step r (handle_resync r frame).1 sid.
Proof.
  intros Hne. unfold handle_resync. cbn [fst]. apply step_same.
  - cbn. rewrite seed_sessions. by rewrite lookup_insert_ne.
  - by rewrite state_of_put, decide_False.
  - by rewrite state_of_put, decide_False.
Qed.

Lemma frame_step r f sid : ¬ resyncs sid f → session_step r (handle_frame r f).1 sid.
Proof.
  intros Hn. destruct f as [a|rs|b|a|m]; cbn [handle_frame].
  - pose proof (append_step r a sid). by destruct (handle_append r a).
  - pose proof (resync_step r rs sid Hn). by destruct (handle_resync r rs).
  - pose proof (bulk_step r b sid). by destruct (handle_bulk r b).
  - by apply step_same.
  - by apply step_same.
Qed.

Lemma step_trans r1 r2 r3 sid :
  session_step r1 r2 sid → session_step r2 r3 sid → session_step r1 r3 sid.
Proof.
  intros [(l1 & I1 & R1 & N1) P1 A1] [(l2 & I2 & R2 & N2) P2 A2]. split.
  - exists (l1 ++ l2). rewrite I2, I1, R2, R1, root_over_app, app_assoc. split_and!; [done..|].
    intros Hp. rewrite N1, N2; [done|done|]. intros He. rewrite He in P2. set_solver.
  - set_solver.
  - auto.
Qed.

Lemma run_frames_step r fs sid :
  Forall (λ f, ¬ resyncs sid f) fs → session_step r (run_frames r fs) sid.
Proof.
  intros H. revert r. induction H as [|f fs Hf _ IH]; intros r; [by apply step_same|].
  eapply step_trans; [by apply (frame_step r f)|apply (IH (handle_frame r f).1)].
Qed.

Lemma bulk_ack_acked r b r' root :
  handle_bulk r b = (r', Ok (Some root)) →
  acked (state_of r (bk_session_id b)) = false ∧ acked (state_of r' (bk_session_id b)) = true ∧
  pending (state_of r' (bk_session_id b)) = ∅ ∧
  root = session_root (r_store r') (bk_session_id b).
Proof.
  intros H. destruct (handle_bulk_outcome r b) as [d res Hres|rec pend fin Hrec Hpend Hfin].
  - injection H as _ H. by apply Hres in H.
  - injection H as <- H. destruct fin; [|done]. injection H as <-.
    symmetry in Hfin. apply andb_true_iff in Hfin as [He%bool_decide_eq_true Ha%negb_true_iff].
    rewrite state_of_put, decide_True by done. split_and!; [done..|].
    cbn [put_state with_store r_store]. by rewrite store_recovered_root.
Qed.
End Steps.

(** ** Theorems *)

Section Claims.
Context `{B3 : Blake3} {B3L : Blake3Laws} `{CC : Codec} {CL : CodecLaws} `{FC : FountainCode}.

(** C6: Whatever frames arrive, in whatever order and however malformed, every id
    of every session log has its content stored or is pending, and the stored
    content sits under its own address: starting from any replayed store. *)
Theorem receiver_invariant store fs :
  content_ok store → receiver_inv (run_frames (Receiver_new store) fs).
Proof. intros Hc. by apply run_frames_inv, Receiver_new_inv. Qed.

(** C37: An ACK is a promise the receiver keeps: when it answers any frame with an
    ACK, the ACK carries the root of that session's log and every block of that
    log can be rebuilt from the store, in order. *)
Theorem ack_is_complete store fs f r' a :
  content_ok store →
  handle_frame (run_frames (Receiver_new store) fs) f = (r', Ok (Some (FAck a))) →
  ack_root a = session_root (r_store r') (ack_session_id a) ∧ complete r' (ack_session_id a).
Proof.
  intros Hc. assert (Hi := run_frames_inv _ fs (Receiver_new_inv store Hc)).
  set (r := run_frames _ fs) in *. intros H.
  assert (Hi' : receiver_inv r').
  { pose proof (handle_frame_inv r f Hi) as Hi'. by rewrite H in Hi'. }
  assert (pending (state_of r' (ack_session_id a)) = ∅ ∧
          ack_root a = session_root (r_store r') (ack_session_id a)) as [Hp Hr];
    [|split; [done|by apply no_pending_complete]].
  destruct f as [fr|fr|fr|fr|fr]; cbn [handle_frame] in H; [| | |done|done].
  - destruct (handle_append_outcome r fr) as [r1 e Hs Hst|rs Hres _ Hpe _ _|rs s' Hres Hv Hpe Hb _ E];
      cbn [obind] in H; [done|injection H as <- <-..]; cbn [ack_session_id ack_root].
    + by rewrite state_of_touch.
    + split; [by etrans; [apply f_equal, state_of_touch|]|]. cbn. by rewrite (ext_root _ _ _ _ E), Hb.
  - unfold handle_resync in H. destruct (filter _ _) eqn:Hf; [|done]. injection H as <- <-.
    rewrite state_of_put, decide_True by done. done.
  - destruct (handle_bulk r fr) as [r1 [o|e|]] eqn:Hb; cbn [obind] in H; [|done..].
    destruct o as [root|]; [|done]. injection H as -> <-. cbn [ack_session_id ack_root].
    by apply bulk_ack_acked in Hb as (_ & _ & Hp & ->).
Qed.

(** C10: APPEND is all or nothing: it never panics; a refused frame leaves the store
    and every session's bookkeeping as they were; an accepted one is
    acknowledged with the root its base and its blocks determine, and has
    either been applied in full to that session only or been recognised as
    already applied. *)
Theorem append_atomic r frame :
  match handle_append r frame with
  | (_, Panic) => False
  | (r', Err _) => r_store r' = r_store r ∧ ∀ sid, state_of r' sid = state_of r sid
  | (r', Ok ack) => ∃ rs, resolve (ap_blocks frame) = Ok rs ∧
      ack = mkAck (ap_session_id frame) (root_over (ap_base_root frame) (resolved_id <$> rs)) ∧
      (extends (r_store r) (r_store r') (ap_session_id frame) (resolved_id <$> rs) ∧
         ap_base_root frame = session_root (r_store r) (ap_session_id frame)
       ∨ r_store r' = r_store r ∧
         ack_root ack = session_root (r_store r) (ap_session_id frame))
  end.
Proof.
  destruct (handle_append_outcome r frame) as [r' e Hs Hst|rs Hres _ _ _ Ht|rs s' Hres Hv _ Hb _ E].
  - done.
  - exists rs. rewrite Ht. split_and!; [done..|by right].
  - exists rs. split_and!; [done..|by left].
Qed.

(** APPEND is safe to retry: when a frame that moved the root has been
    acknowledged, sending it again yields the same ACK and changes nothing in
    the store. *)
Theorem append_retry r frame r1 ack :
  handle_append r frame = (r1, Ok ack) → ack_root ack ≠ ap_base_root frame →
  ∃ r2, handle_append r1 frame = (r2, Ok ack) ∧ r_store r2 = r_store r1.
Proof.
  intros H Hne. exists (touch r1 (ap_session_id frame)). split; [|done].
  destruct (append_cases r frame r1 ack H) as (rs & Hres & Hv & Hp & -> & Hroot).
  cbn [ack_root] in Hne. rewrite append_replayed with (rs := rs); [by rewrite Hroot|done..| |].
  - by rewrite Hroot.
  - done.
Qed.

(** Cold start: between a RESYNC and completion the session log is the client's
    manifest under the client's root, whatever other frames arrive and in
    whatever order BULK generations are decoded; later frames only extend it. *)
Theorem cold_start_log r frame fs :
  let sid := rs_session_id frame in
  let r' := run_frames (handle_resync r frame).1 fs in
  Forall (λ f, ¬ resyncs sid f) fs →
  ∃ suffix, session_ids (r_store r') sid = rs_manifest frame ++ suffix ∧
    session_root (r_store r') sid = root_over (rs_client_root frame) suffix ∧
    (pending (state_of r' sid) ≠ ∅ → suffix = []).
Proof.
  intros sid r' Hfs.
  destruct (run_frames_step (handle_resync r frame).1 fs sid Hfs) as [(l & I & R & N) _ _].
  exists l. fold r' in I, R, N. rewrite I, R.
  unfold handle_resync, session_ids, session_root. cbn. rewrite seed_sessions, lookup_insert_eq.
  done.
Qed.

(** The completion ACK is sent once: after a BULK frame has completed a cold
    start, no later BULK frame of the session is answered with an ACK until
    the session is resynchronised. *)
Theorem bulk_ack_once r b r1 root fs b' :
  handle_bulk r b = (r1, Ok (Some root)) →
  Forall (λ f, ¬ resyncs (bk_session_id b) f) fs →
  bk_session_id b' = bk_session_id b →
  ∀ root', (handle_bulk (run_frames r1 fs) b').2 ≠ Ok (Some root').
Proof.
  intros H Hfs Hsid root' H'.
  destruct (bulk_ack_acked r b r1 root H) as (_ & Ha & _).
  apply (step_acked _ _ _ (run_frames_step r1 fs _ Hfs)) in Ha.
  destruct (handle_bulk (run_frames r1 fs) b') as [r2 res] eqn:Hb. simpl in H'. subst res.
  apply bulk_ack_acked in Hb as (Hf & _). rewrite Hsid in Hf. congruence.
Qed.
End Claims.
