(* ===== verification/Gf256.v ===== *)
(** * Gf256: the field GF(2^8) of [coding/src/gf256.rs]

    The exp/log/multiply tables are built by the code's own loops and the field
    laws are proved of the tables (not of an abstract field).  The vector
    routines are in [GfVec], elimination in [Gauss]. *)

From S2P Require Import Prelude.

(** ** Bytes as bit vectors *)

Notation "x ⊕ y" := (byte.xor x y) (at level 50, left associativity) : dlr_scope.

Lemma unsigned_xor a b : byte.unsigned (a ⊕ b) = Z.lxor (byte.unsigned a) (byte.unsigned b).
Proof.
  unfold byte.xor. rewrite byte.unsigned_of_Z. unfold byte.wrap. apply Z.mod_small.
  pose proof (byte.unsigned_range a). pose proof (byte.unsigned_range b). split.
  - apply Z.lxor_nonneg. lia.
  - destruct (decide (Z.lxor (byte.unsigned a) (byte.unsigned b) = 0)) as [->|Hne]; [done|].
    apply Z.log2_lt_pow2.
    + assert (0 ≤ Z.lxor (byte.unsigned a) (byte.unsigned b)) by (apply Z.lxor_nonneg; lia). lia.
    + eapply Z.le_lt_trans; [apply Z.log2_lxor; lia|].
      apply Z.max_lub_lt; (destruct (decide (byte.unsigned a = 0)), (decide (byte.unsigned b = 0)));
        try (apply Z.log2_lt_pow2; lia); try (rewrite e; done); try (rewrite e0; done).
Qed.

Lemma xor_comm a b : a ⊕ b = b ⊕ a.
Proof. apply byte.unsigned_inj. rewrite !unsigned_xor. apply Z.lxor_comm. Qed.
Lemma xor_assoc a b c : a ⊕ b ⊕ c = a ⊕ (b ⊕ c).
Proof. apply byte.unsigned_inj. rewrite !unsigned_xor. apply Z.lxor_assoc. Qed.
Lemma xor_nilpotent a : a ⊕ a = Byte.x00.
Proof. apply byte.unsigned_inj. rewrite !unsigned_xor. apply Z.lxor_nilpotent. Qed.
Lemma xor_0_l a : Byte.x00 ⊕ a = a.
Proof. apply byte.unsigned_inj. rewrite !unsigned_xor. apply Z.lxor_0_l. Qed.
Lemma xor_0_r a : a ⊕ Byte.x00 = a.
Proof. by rewrite xor_comm, xor_0_l. Qed.
Lemma xor_swap a b c d : a ⊕ b ⊕ (c ⊕ d) = a ⊕ c ⊕ (b ⊕ d).
Proof. rewrite !xor_assoc. f_equal. rewrite <-!xor_assoc. f_equal. apply xor_comm. Qed.
Lemma xor_cancel a b : a ⊕ b = Byte.x00 → a = b.
Proof.
  intros H. rewrite <-(xor_0_r a), <-(xor_nilpotent b), <-xor_assoc, H. apply xor_0_l.
Qed.

(** All bytes, for exhaustive checks. *)
Definition all_bytes : list byte := byte.of_Z <$> seqZ 0 256.

Lemma all_bytes_complete b : b ∈ all_bytes.
Proof.
  apply list_elem_of_fmap. exists (byte.unsigned b). split; [by rewrite byte.of_Z_unsigned|].
  pose proof (byte.unsigned_range b). apply elem_of_seqZ. lia.
Qed.

Lemma check1 (P : byte → bool) : forallb P all_bytes = true → ∀ a, P a = true.
Proof.
  intros H a. rewrite forallb_forall in H. apply H. apply list_elem_of_In, all_bytes_complete.
Qed.

Lemma checkZ (P : Z → bool) n :
  forallb P (seqZ 0 n) = true → ∀ i, 0 ≤ i < n → P i = true.
Proof.
  intros H i Hi. rewrite forallb_forall in H. apply H, list_elem_of_In, elem_of_seqZ. lia.
Qed.

(** A map that is determined by its values on the eight unit bytes is additive
    when it is their combination. *)
Definition bit (b : byte) (i : Z) : bool := Z.testbit (byte.unsigned b) i.
Definition unit_byte (i : Z) : byte := byte.of_Z (Z.shiftl 1 i).

Definition by_bits (f : byte → byte) (b : byte) : byte :=
  foldr (λ i acc, (if bit b i then f (unit_byte i) else Byte.x00) ⊕ acc) Byte.x00 (seqZ 0 8).

Lemma bit_xor a b i : bit (a ⊕ b) i = xorb (bit a i) (bit b i).
Proof. unfold bit. by rewrite unsigned_xor, Z.lxor_spec. Qed.

Lemma by_bits_xor f a b : by_bits f (a ⊕ b) = by_bits f a ⊕ by_bits f b.
Proof.
  unfold by_bits. induction (seqZ 0 8) as [|i l IH]; simpl; [by rewrite xor_0_l|].
  rewrite IH, bit_xor, xor_swap. f_equal.
  destruct (bit a i), (bit b i); simpl; by rewrite ?xor_0_l, ?xor_0_r, ?xor_nilpotent.
Qed.

Lemma by_bits_id b : by_bits (λ x, x) b = b.
Proof.
  apply Byte.byte_dec_bl. apply (check1 (λ b, Byte.eqb (by_bits (λ x, x) b) b)). by vm_compute.
Qed.

Definition additive (f : byte → byte) : Prop := ∀ a b, f (a ⊕ b) = f a ⊕ f b.

Lemma additive_0 f : additive f → f Byte.x00 = Byte.x00.
Proof.
  intros H. pose proof (H Byte.x00 Byte.x00) as E. rewrite xor_0_l in E.
  by rewrite E, xor_nilpotent at 1.
Qed.

Lemma additive_by_bits f b : additive f → f b = by_bits f b.
Proof.
  intros H. rewrite <-(by_bits_id b) at 1. unfold by_bits.
  induction (seqZ 0 8) as [|i l IH]; simpl; [by apply additive_0|].
  rewrite H, IH. f_equal. case_match; [done|by apply additive_0].
Qed.

Lemma additive_ext f g :
  additive f → additive g →
  (∀ i, 0 ≤ i < 8 → f (unit_byte i) = g (unit_byte i)) → ∀ b, f b = g b.
Proof.
  intros Hf Hg He b. rewrite (additive_by_bits f b), (additive_by_bits g b) by done. unfold by_bits.
  assert (Forall (λ i, 0 ≤ i < 8) (seqZ 0 8)) as Hl.
  { apply Forall_elem. intros i Hi%elem_of_seqZ. lia. }
  induction Hl as [|i l Hi _ IH]; simpl; [done|]. by rewrite IH, He.
Qed.

(** ** Tables *)

Record GfTables : Type := mkTables {
  t_mul : list (list byte);
  t_exp : list byte;
  t_log : list byte
}.

(** Reading an array at an index that the types keep in range. *)
Definition at8 (t : list byte) (i : Z) : byte := default Byte.x00 (t !! Z.to_nat i).
Definition row8 (t : list (list byte)) (i : Z) : list byte := default [] (t !! Z.to_nat i).

(** The first loop of [build_tables]: walk the field with the generator 3. *)
Fixpoint build_walk (fuel : nat) (i g : Z) (exp log : list byte) : list byte * list byte :=
  match fuel with
  | O => (exp, log)
  | S fuel' =>
      let exp := <[Z.to_nat i := byte.of_Z g]> exp in
      let log := <[Z.to_nat g := byte.of_Z i]> log in
      let g2 := Z.lxor (wrap 16 (Z.shiftl g 1)) (if Z.land g 0x80 =? 0 then 0 else 0x11B) in
      build_walk fuel' (i + 1) (Z.land (Z.lxor g2 g) 0xFF) exp log
  end.

(** [for i in 0..256 { exp[255 + i] = exp[i] }]. *)
Fixpoint build_double (fuel : nat) (i : Z) (exp : list byte) : list byte :=
  match fuel with
  | O => exp
  | S fuel' => build_double fuel' (i + 1) (<[Z.to_nat (255 + i) := at8 exp i]> exp)
  end.

Definition build_row (exp log : list byte) (a : Z) : list byte :=
  if a =? 0 then replicate 256 Byte.x00
  else
    let la := byte.unsigned (at8 log a) in
    (λ b, if b =? 0 then Byte.x00 else at8 exp (la + byte.unsigned (at8 log b))) <$> seqZ 0 256.

Definition build_tables : GfTables :=
  let '(exp, log) := build_walk 255 0 1 (replicate 512 Byte.x00) (replicate 256 Byte.x00) in
  let exp := build_double 256 0 exp in
  let log := <[0%nat := Byte.x00]> log in
  mkTables (build_row exp log <$> seqZ 0 256) exp log.

(** [TABLES], built on first use and never changed. *)
Definition tables : GfTables := build_tables.

Definition gf_mul (a b : byte) : byte :=
  at8 (row8 (t_mul tables) (byte.unsigned a)) (byte.unsigned b).
Definition gf_add (a b : byte) : byte := byte.xor a b.
Definition mul_row (a : byte) : list byte := row8 (t_mul tables) (byte.unsigned a).

Definition gf_inv (a : byte) : byte :=
  if Byte.eqb a Byte.x00 then Byte.x00
  else at8 (t_exp tables) (255 - byte.unsigned (at8 (t_log tables) (byte.unsigned a))).

Definition gf_div (a b : byte) : byte :=
  if Byte.eqb b Byte.x00 then Byte.x00
  else if Byte.eqb a Byte.x00 then Byte.x00
  else
    let l := (byte.unsigned (at8 (t_log tables) (byte.unsigned a))
              - byte.unsigned (at8 (t_log tables) (byte.unsigned b))) mod 255 in
    at8 (t_exp tables) l.

Definition inv (a : byte) : byte := gf_inv a.
Definition add (a b : byte) : byte := byte.xor a b.
Definition mul (a b : byte) : byte := gf_mul a b.

(** ** Field laws *)

(** Multiplication by the generator 3. *)
Definition times3 (b : byte) : byte :=
  let g := byte.unsigned b in
  let g2 := Z.lxor (wrap 16 (Z.shiftl g 1)) (if Z.land g 0x80 =? 0 then 0 else 0x11B) in
  byte.of_Z (Z.land (Z.lxor g2 g) 0xFF).

Definition E (i : Z) : byte := at8 (t_exp tables) i.
Definition L (a : byte) : Z := byte.unsigned (at8 (t_log tables) (byte.unsigned a)).

Lemma times3_additive : additive times3.
Proof.
  assert (∀ b, times3 b = by_bits times3 b) as H.
  { intros b. apply Byte.byte_dec_bl.
    apply (check1 (λ b, Byte.eqb (times3 b) (by_bits times3 b))). by vm_compute. }
  intros a b. by rewrite !H, by_bits_xor.
Qed.

Lemma E_succ i : 0 ≤ i < 510 → E (i + 1) = times3 (E i).
Proof.
  intros Hi. apply Byte.byte_dec_bl.
  apply (checkZ (λ i, Byte.eqb (E (i + 1)) (times3 (E i))) 510); [by vm_compute|done].
Qed.

Lemma E_period i : 0 ≤ i < 255 → E (i + 255) = E i.
Proof.
  intros Hi. apply Byte.byte_dec_bl.
  apply (checkZ (λ i, Byte.eqb (E (i + 255)) (E i)) 255); [by vm_compute|done].
Qed.

Lemma E_L a : a ≠ Byte.x00 → E (L a) = a.
Proof.
  intros Ha. assert (Byte.eqb a Byte.x00 || Byte.eqb (E (L a)) a = true) as H.
  { apply (check1 (λ a, Byte.eqb a Byte.x00 || Byte.eqb (E (L a)) a)). by vm_compute. }
  apply orb_true_iff in H as [H|H]; by apply Byte.byte_dec_bl in H.
Qed.

Lemma L_range a : 0 ≤ L a < 255.
Proof.
  assert ((0 <=? L a) && (L a <? 255) = true) as H.
  { apply (check1 (λ a, (0 <=? L a) && (L a <? 255))). by vm_compute. }
  lia.
Qed.

Lemma L_E i : 0 ≤ i < 255 → E i ≠ Byte.x00 ∧ L (E i) = i.
Proof.
  intros Hi. assert (negb (Byte.eqb (E i) Byte.x00) && (L (E i) =? i) = true) as H.
  { apply (checkZ (λ i, negb (Byte.eqb (E i) Byte.x00) && (L (E i) =? i)) 255); [by vm_compute|done]. }
  apply andb_true_iff in H as [H1 H2%Z.eqb_eq]. split; [|done].
  intros H. rewrite H in H1. clear -H1. vm_compute in H1. discriminate H1.
Qed.

Lemma gf_mul_table a b :
  gf_mul a b = if Byte.eqb a Byte.x00 || Byte.eqb b Byte.x00 then Byte.x00 else E (L a + L b).
Proof.
  pose proof (byte.unsigned_range a) as Ha. pose proof (byte.unsigned_range b) as Hb.
  assert (∀ c, Byte.eqb c Byte.x00 = (byte.unsigned c =? 0)) as Hz by by intros [].
  unfold gf_mul, E, L, tables, build_tables.
  destruct (build_walk _ _ _ _ _) as [exp0 log0]. cbn [t_mul t_exp t_log].
  generalize (build_double 256 0 exp0), (<[0%nat:=Byte.x00]> log0). clear exp0 log0.
  intros exp log.
  unfold row8. rewrite list_lookup_fmap, lookup_seqZ_lt by lia.
  cbn [fmap option_fmap option_map default from_option]. unfold id.
  rewrite !Z.add_0_l, !Z2Nat.id by lia. unfold build_row. rewrite !Hz.
  destruct (Z.eqb_spec (byte.unsigned a) 0); cbn [orb].
  - unfold at8. rewrite lookup_replicate_2 by lia. done.
  - unfold at8 at 1. rewrite list_lookup_fmap, lookup_seqZ_lt by lia.
    cbn [fmap option_fmap option_map default from_option]. unfold id.
    rewrite !Z.add_0_l, !Z2Nat.id by lia. by destruct (byte.unsigned b =? 0).
Qed.

Lemma L_1 : L Byte.x01 = 0.
Proof. by vm_compute. Qed.

Lemma E_255 : E 255 = Byte.x01.
Proof. by vm_compute. Qed.

Lemma gf_inv_E a : a ≠ Byte.x00 → gf_inv a = E (255 - L a).
Proof.
  intros Ha. unfold gf_inv. destruct (Byte.eqb a Byte.x00) eqn:Ea;
    [by apply Byte.byte_dec_bl in Ea|]. unfold E, L. reflexivity.
Qed.

(** From here on the tables are used through their laws. *)
#[global] Opaque E L gf_mul gf_inv tables.

Lemma E_mod i : 0 ≤ i < 510 → E i = E (i mod 255).
Proof.
  intros Hi. destruct (decide (i < 255)); [by rewrite Z.mod_small by lia|].
  replace i with ((i - 255) + 255) at 1 by lia. rewrite E_period by lia. f_equal.
  rewrite <-(Z.mod_small (i - 255) 255) by lia.
  by rewrite <-(Z_mod_plus_full (i - 255) 1 255), Z.mul_1_l, Z.sub_add.
Qed.


Lemma gf_mul_nz a b : a ≠ Byte.x00 → b ≠ Byte.x00 → gf_mul a b = E (L a + L b).
Proof.
  intros Ha Hb. rewrite gf_mul_table.
  destruct (Byte.eqb a Byte.x00) eqn:Ea; [by apply Byte.byte_dec_bl in Ea|].
  by destruct (Byte.eqb b Byte.x00) eqn:Eb; [apply Byte.byte_dec_bl in Eb|].
Qed.

Lemma gf_mul_0_l b : gf_mul Byte.x00 b = Byte.x00.
Proof. by rewrite gf_mul_table. Qed.

Lemma gf_mul_comm a b : gf_mul a b = gf_mul b a.
Proof.
  rewrite (gf_mul_table a b), (gf_mul_table b a).
  by rewrite (orb_comm (Byte.eqb b _)), (Z.add_comm (L b)).
Qed.

Lemma gf_mul_0_r a : gf_mul a Byte.x00 = Byte.x00.
Proof. by rewrite gf_mul_comm, gf_mul_0_l. Qed.

(** Logarithms add. *)
Lemma gf_mul_log a b : a ≠ Byte.x00 → b ≠ Byte.x00 →
  gf_mul a b ≠ Byte.x00 ∧ L (gf_mul a b) = (L a + L b) mod 255.
Proof.
  intros Ha Hb. pose proof (L_range a). pose proof (L_range b).
  rewrite gf_mul_nz by assumption. rewrite E_mod by lia. apply L_E. apply Z.mod_pos_bound. lia.
Qed.

Lemma gf_mul_assoc a b c : gf_mul a (gf_mul b c) = gf_mul (gf_mul a b) c.
Proof.
  destruct (decide (a = Byte.x00)) as [->|Ha]; [by rewrite !gf_mul_0_l|].
  destruct (decide (b = Byte.x00)) as [->|Hb]; [by rewrite ?gf_mul_0_l, ?gf_mul_0_r, ?gf_mul_0_l|].
  destruct (decide (c = Byte.x00)) as [->|Hc]; [by rewrite !gf_mul_0_r|].
  destruct (gf_mul_log a b Ha Hb) as [Hab Lab]. destruct (gf_mul_log b c Hb Hc) as [Hbc Lbc].
  pose proof (L_range a). pose proof (L_range b). pose proof (L_range c).
  rewrite (gf_mul_nz a (gf_mul b c)), (gf_mul_nz (gf_mul a b) c), Lab, Lbc by assumption.
  pose proof (Z.mod_pos_bound (L a + L b) 255 ltac:(lia)).
  pose proof (Z.mod_pos_bound (L b + L c) 255 ltac:(lia)).
  rewrite (E_mod (L a + _)), (E_mod (_ + L c)) by lia.
  by rewrite Zplus_mod_idemp_r, Zplus_mod_idemp_l, Z.add_assoc.
Qed.

(** Multiplication by [a] is [L a] multiplications by the generator. *)
Lemma E_iter x n : x ≠ Byte.x00 → (n < 255)%nat →
  E (Z.of_nat n + L x) = Nat.iter n times3 x.
Proof.
  intros Hx. pose proof (L_range x). induction n as [|n IH]; intros Hn; simpl.
  - by apply E_L.
  - rewrite <-IH by lia. rewrite <-E_succ by lia. f_equal. lia.
Qed.

Lemma iter_times3_additive n : additive (Nat.iter n times3).
Proof.
  induction n as [|n IH]; intros a b; simpl; [done|]. by rewrite IH, times3_additive.
Qed.

Lemma gf_mul_iter a x : a ≠ Byte.x00 → gf_mul a x = Nat.iter (Z.to_nat (L a)) times3 x.
Proof.
  intros Ha. pose proof (L_range a).
  destruct (decide (x = Byte.x00)) as [->|Hx].
  - rewrite gf_mul_0_r. symmetry. apply additive_0, iter_times3_additive.
  - rewrite gf_mul_nz by assumption. rewrite <-E_iter; [|assumption|lia].
    rewrite Z2Nat.id by lia. reflexivity.
Qed.

Lemma gf_mul_xor_r a x y : gf_mul a (x ⊕ y) = gf_mul a x ⊕ gf_mul a y.
Proof.
  destruct (decide (a = Byte.x00)) as [->|Ha]; [by rewrite !gf_mul_0_l, xor_0_l|].
  rewrite !gf_mul_iter by assumption. apply iter_times3_additive.
Qed.

Lemma gf_mul_xor_l a b x : gf_mul (a ⊕ b) x = gf_mul a x ⊕ gf_mul b x.
Proof. rewrite !(gf_mul_comm _ x). apply gf_mul_xor_r. Qed.

Lemma gf_mul_1_l x : gf_mul Byte.x01 x = x.
Proof. rewrite gf_mul_iter by done. by rewrite L_1. Qed.

Lemma gf_mul_1_r x : gf_mul x Byte.x01 = x.
Proof. by rewrite gf_mul_comm, gf_mul_1_l. Qed.

Lemma gf_mul_inv a : a ≠ Byte.x00 → gf_mul (gf_inv a) a = Byte.x01 ∧ gf_inv a ≠ Byte.x00.
Proof.
  intros Ha. pose proof (L_range a). rewrite gf_inv_E by assumption.
  assert (E (255 - L a) ≠ Byte.x00 ∧ (L (E (255 - L a)) + L a) mod 255 = 0) as [Hn Hl].
  { rewrite (E_mod (255 - L a)) by lia.
    pose proof (Z.mod_pos_bound (255 - L a) 255 ltac:(lia)).
    destruct (L_E ((255 - L a) mod 255)) as [Hn ->]; [assumption|]. split; [assumption|].
    rewrite Zplus_mod_idemp_l, Z.sub_add. reflexivity. }
  split; [|assumption]. pose proof (L_range (E (255 - L a))).
  rewrite gf_mul_nz by assumption. rewrite E_mod by lia. rewrite Hl, <-(E_period 0) by lia.
  apply E_255.
Qed.

Lemma gf_mul_zero_inv a b : gf_mul a b = Byte.x00 → a = Byte.x00 ∨ b = Byte.x00.
Proof.
  intros H. destruct (decide (a = Byte.x00)) as [Ha|Ha]; [left; exact Ha|].
  destruct (decide (b = Byte.x00)) as [Hb|Hb]; [right; exact Hb|].
  destruct (gf_mul_log a b Ha Hb) as [Hn _]. contradiction.
Qed.

(** Shift-and-reduce multiplication modulo x^8 + x^4 + x^3 + x + 1. *)
Fixpoint poly_mul (fuel : nat) (a b acc : Z) : Z :=
  match fuel with
  | O => acc
  | S fuel' =>
      let acc := if Z.odd b then Z.lxor acc a else acc in
      let a2 := Z.shiftl a 1 in
      poly_mul fuel' (if Z.testbit a 7 then Z.lxor a2 0x11B else a2) (Z.shiftr b 1) acc
  end.

Definition gf_reference (a b : byte) : byte :=
  byte.of_Z (poly_mul 8 (byte.unsigned a) (byte.unsigned b) 0).

Lemma poly_mul_lxor fuel a b c p q :
  poly_mul fuel a (Z.lxor b c) (Z.lxor p q) = Z.lxor (poly_mul fuel a b p) (poly_mul fuel a c q).
Proof.
  revert a b c p q. induction fuel as [|fuel IH]; intros a b c p q; cbn [poly_mul]; [done|].
  rewrite Z.shiftr_lxor, <-IH, <-!Z.bit0_odd, Z.lxor_spec. apply f_equal.
  assert (∀ x y z, Z.lxor (Z.lxor x y) z = Z.lxor (Z.lxor x z) y) as Hsw.
  { intros x y z. by rewrite !Z.lxor_assoc, (Z.lxor_comm y z). }
  destruct (Z.testbit b 0), (Z.testbit c 0); cbn [xorb].
  - by rewrite <-Z.lxor_assoc, (Hsw p a q), Z.lxor_assoc, Z.lxor_nilpotent, Z.lxor_0_r.
  - apply Hsw.
  - apply Z.lxor_assoc.
  - reflexivity.
Qed.

Lemma of_Z_lxor x y : byte.of_Z (Z.lxor x y) = byte.of_Z x ⊕ byte.of_Z y.
Proof.
  apply byte.unsigned_inj. rewrite unsigned_xor, !byte.unsigned_of_Z. unfold byte.wrap.
  rewrite <-!Z.land_ones by done. apply Z.bits_inj'. intros n Hn.
  rewrite !Z.lxor_spec, !Z.land_spec, Z.lxor_spec.
  by destruct (Z.testbit x n), (Z.testbit y n), (Z.testbit (Z.ones 8) n).
Qed.

Lemma gf_reference_additive a : additive (gf_reference a).
Proof.
  intros x y. unfold gf_reference. rewrite unsigned_xor, <-of_Z_lxor. apply f_equal.
  apply (poly_mul_lxor 8 (byte.unsigned a) _ _ 0 0).
Qed.

Lemma gf_mul_reference a b : gf_mul a b = gf_reference a b.
Proof.
  apply (additive_ext (gf_mul a) (gf_reference a));
    [intros x y; apply gf_mul_xor_r|apply gf_reference_additive|].
  intros i Hi. apply Byte.byte_dec_bl.
  assert (∀ a, forallb (λ i, Byte.eqb (gf_mul a (unit_byte i)) (gf_reference a (unit_byte i)))
                 (seqZ 0 8) = true) as H.
  { apply check1. vm_compute. reflexivity. }
  specialize (H a). rewrite forallb_forall in H. apply H, list_elem_of_In, elem_of_seqZ. lia.
Qed.

Lemma mul_row_at a x : at8 (mul_row a) (byte.unsigned x) = gf_mul a x.
Proof. Transparent gf_mul. reflexivity. Qed.
#[global] Opaque gf_mul.

Lemma gf_div_E a b : a ≠ Byte.x00 → b ≠ Byte.x00 → gf_div a b = E ((L a - L b) mod 255).
Proof.
  intros Ha Hb. unfold gf_div.
  destruct (Byte.eqb b Byte.x00) eqn:Eb; [apply Byte.byte_dec_bl in Eb; contradiction|].
  destruct (Byte.eqb a Byte.x00) eqn:Ea; [apply Byte.byte_dec_bl in Ea; contradiction|].
  Transparent E L. unfold E, L. reflexivity.
Qed.
#[global] Opaque E L.

Lemma gf_div_mul a b : b ≠ Byte.x00 → gf_mul (gf_div a b) b = a.
Proof.
  intros Hb. destruct (decide (a = Byte.x00)) as [->|Ha].
  { unfold gf_div. destruct (Byte.eqb b Byte.x00); apply gf_mul_0_l. }
  rewrite gf_div_E by assumption. pose proof (L_range a). pose proof (L_range b).
  pose proof (Z.mod_pos_bound (L a - L b) 255 ltac:(lia)) as Hm.
  destruct (L_E _ Hm) as [Hn Hl].
  rewrite gf_mul_nz, Hl by assumption. rewrite E_mod by lia.
  rewrite Zplus_mod_idemp_l, Z.sub_add, Z.mod_small by lia. apply E_L. exact Ha.
Qed.

(** ** Theorem *)

(** C31: The tables the code builds at start-up are the multiplication of the AES
    field: the product is polynomial multiplication modulo
    x^8 + x^4 + x^3 + x + 1; with XOR as addition it is a commutative field,
    [gf_inv] is the inverse and [gf_div] the division of non-zero divisors. *)
Theorem tables_implement_aes_field :
  (∀ a b, gf_mul a b = gf_reference a b) ∧
  (∀ a b, gf_mul a b = gf_mul b a) ∧
  (∀ a b c, gf_mul a (gf_mul b c) = gf_mul (gf_mul a b) c) ∧
  (∀ a b c, gf_mul a (gf_add b c) = gf_add (gf_mul a b) (gf_mul a c)) ∧
  (∀ a, gf_mul Byte.x01 a = a) ∧
  (∀ a b, gf_mul a b = Byte.x00 → a = Byte.x00 ∨ b = Byte.x00) ∧
  (∀ a, a ≠ Byte.x00 → gf_mul (gf_inv a) a = Byte.x01) ∧
  (∀ a b, b ≠ Byte.x00 → gf_mul (gf_div a b) b = a).
Proof.
  split_and!.
  - exact gf_mul_reference.
  - exact gf_mul_comm.
  - exact gf_mul_assoc.
  - exact gf_mul_xor_r.
  - exact gf_mul_1_l.
  - exact gf_mul_zero_inv.
  - intros a Ha. apply gf_mul_inv. exact Ha.
  - exact gf_div_mul.
Qed.
