(* ===== verification/GfVec.v ===== *)
(** * GfVec: the vector routines of [coding/src/gf256.rs]

    [gf_axpy_slice] and [gf_scal_slice] with their SSSE3, AVX2 and NEON
    kernels, each proved equal to the byte-wise definition. *)

From S2P Require Import Prelude Gf256.

(** ** Vectors *)

Inductive Isa : Type := Scalar | Ssse3 | Avx2 | Neon.

(** [mul_nibble_tables]: [a * i] and [a * (i << 4)] for the sixteen nibbles. *)
Definition mul_nibble_tables (a : byte) : list byte :=
  ((λ i, at8 (mul_row a) i) <$> seqZ 0 16) ++ ((λ i, at8 (mul_row a) (Z.shiftl i 4)) <$> seqZ 0 16).

(** [pshufb] on one byte of a lane: zero when the index has its top bit set. *)
Definition shuffle_epi8 (tab : list byte) (i : byte) : byte :=
  if Z.testbit (byte.unsigned i) 7 then Byte.x00 else at8 tab (Z.land (byte.unsigned i) 15).
(** [vqtbl1q_u8] on one byte: zero when the index is out of range. *)
Definition vqtbl1q_u8 (tab : list byte) (i : byte) : byte :=
  if byte.unsigned i <? 16 then at8 tab (byte.unsigned i) else Byte.x00.

Definition and_mask (x : byte) : byte := byte.of_Z (Z.land (byte.unsigned x) 0x0f).

(** [srli_epi16(x, 4)]: 16-bit lanes, little endian. *)
Fixpoint srli_epi16_4 (x : list byte) : list byte :=
  match x with
  | l :: h :: x' =>
      let w := Z.shiftr (byte.unsigned l + 256 * byte.unsigned h) 4 in
      byte.of_Z w :: byte.of_Z (Z.shiftr w 8) :: srli_epi16_4 x'
  | _ => []
  end.
(** [vshrq_n_u8(x, 4)]. *)
Definition vshrq_4 (x : list byte) : list byte := (λ b, byte.of_Z (Z.shiftr (byte.unsigned b) 4)) <$> x.

(** The product of a vector register by the coefficient of [tabs]. *)
Definition kernel_x86 (tabs x : list byte) : list byte :=
  let lo := take 16 tabs in
  let hi := drop 16 tabs in
  let xl := and_mask <$> x in
  let xh := and_mask <$> srli_epi16_4 x in
  zip_with byte.xor (shuffle_epi8 lo <$> xl) (shuffle_epi8 hi <$> xh).

Definition kernel_neon (tabs x : list byte) : list byte :=
  let lo := take 16 tabs in
  let hi := drop 16 tabs in
  let xl := and_mask <$> x in
  let xh := and_mask <$> vshrq_4 x in
  zip_with byte.xor (vqtbl1q_u8 lo <$> xl) (vqtbl1q_u8 hi <$> xh).

(** The loops of the kernels: [w] bytes per step while they fit in [n]. *)
Fixpoint axpy_loop (fuel : nat) (kernel : list byte → list byte) (w n : nat) (src dst : list byte)
    : list byte :=
  match fuel with
  | O => dst
  | S fuel' =>
      if (w <=? n)%nat then
        zip_with byte.xor (take w dst) (kernel (take w src))
          ++ axpy_loop fuel' kernel w (n - w) (drop w src) (drop w dst)
      else dst
  end.

Fixpoint scal_loop (fuel : nat) (kernel : list byte → list byte) (w n : nat) (dst : list byte)
    : list byte :=
  match fuel with
  | O => dst
  | S fuel' =>
      if (w <=? n)%nat then kernel (take w dst) ++ scal_loop fuel' kernel w (n - w) (drop w dst)
      else dst
  end.

Definition axpy_avx2 (tabs src dst : list byte) (n : nat) := axpy_loop n (kernel_x86 tabs) 32 n src dst.
Definition axpy_ssse3 (tabs src dst : list byte) (n : nat) := axpy_loop n (kernel_x86 tabs) 16 n src dst.
Definition axpy_neon (tabs src dst : list byte) (n : nat) := axpy_loop n (kernel_neon tabs) 16 n src dst.
Definition scal_avx2 (tabs dst : list byte) (n : nat) := scal_loop n (kernel_x86 tabs) 32 n dst.
Definition scal_ssse3 (tabs dst : list byte) (n : nat) := scal_loop n (kernel_x86 tabs) 16 n dst.
Definition scal_neon (tabs dst : list byte) (n : nat) := scal_loop n (kernel_neon tabs) 16 n dst.

(** [for j in i..n { dst[j] ^= row[src[j]] }] and its scaling twin. *)
Fixpoint axpy_tail (row : list byte) (i n : nat) (src dst : list byte) : list byte :=
  match n, dst, src with
  | S n', d :: dst', s :: src' =>
      match i with
      | O => (d ⊕ at8 row (byte.unsigned s)) :: axpy_tail row 0 n' src' dst'
      | S i' => d :: axpy_tail row i' n' src' dst'
      end
  | _, _, _ => dst
  end.

Fixpoint scal_tail (row : list byte) (i : nat) (dst : list byte) : list byte :=
  match dst with
  | [] => []
  | d :: dst' =>
      match i with
      | O => at8 row (byte.unsigned d) :: scal_tail row 0 dst'
      | S i' => d :: scal_tail row i' dst'
      end
  end.

(** [gf_axpy_slice(a, src, dst)], on the detected instruction set. *)
Definition gf_axpy_slice (isa : Isa) (a : byte) (src dst : list byte) : list byte :=
  let n := Nat.min (length src) (length dst) in
  if Byte.eqb a Byte.x00 || (n =? 0)%nat then dst
  else if Byte.eqb a Byte.x01 then
    zip_with byte.xor (take n dst) (take n src) ++ drop n dst
  else
    let tabs := mul_nibble_tables a in
    let '(dst, i) :=
      match isa with
      | Avx2 => (axpy_avx2 tabs src dst n, (n - n mod 32)%nat)
      | Ssse3 => (axpy_ssse3 tabs src dst n, (n - n mod 16)%nat)
      | Neon => (axpy_neon tabs src dst n, (n - n mod 16)%nat)
      | Scalar => (dst, 0%nat)
      end in
    axpy_tail (mul_row a) i n src dst.

Definition gf_scal_slice (isa : Isa) (a : byte) (dst : list byte) : list byte :=
  let n := length dst in
  if (n =? 0)%nat then dst
  else if Byte.eqb a Byte.x00 then replicate n Byte.x00
  else if Byte.eqb a Byte.x01 then dst
  else
    let tabs := mul_nibble_tables a in
    let '(dst, i) :=
      match isa with
      | Avx2 => (scal_avx2 tabs dst n, (n - n mod 32)%nat)
      | Ssse3 => (scal_ssse3 tabs dst n, (n - n mod 16)%nat)
      | Neon => (scal_neon tabs dst n, (n - n mod 16)%nat)
      | Scalar => (dst, 0%nat)
      end in
    scal_tail (mul_row a) i dst.

Definition axpy (isa : Isa) (dst : list byte) (a : byte) (src : list byte) := gf_axpy_slice isa a src dst.
Definition scal_inplace (isa : Isa) (dst : list byte) (a : byte) := gf_scal_slice isa a dst.

(** ** The vector routines against the byte-wise definition *)

Fixpoint axpy_ref (a : byte) (src dst : list byte) : list byte :=
  match dst, src with
  | d :: dst', s :: src' => (d ⊕ gf_mul a s) :: axpy_ref a src' dst'
  | _, _ => dst
  end.

Definition scal_ref (a : byte) (dst : list byte) : list byte := gf_mul a <$> dst.

Lemma byte_wrap_small z : 0 ≤ z < 256 → byte.wrap z = z.
Proof. apply Z.mod_small. Qed.

Lemma nibbles x :
  byte.of_Z (Z.land (byte.unsigned x) 15) ⊕ byte.of_Z (Z.shiftl (Z.shiftr (byte.unsigned x) 4) 4) = x.
Proof. by destruct x. Qed.

Lemma nibble_tables_lo a i : 0 ≤ i < 16 →
  at8 (take 16 (mul_nibble_tables a)) i = gf_mul a (byte.of_Z i).
Proof.
  intros Hi. unfold mul_nibble_tables, at8 at 1.
  rewrite take_app_length' by (by rewrite length_fmap, length_seqZ).
  rewrite list_lookup_fmap, lookup_seqZ_lt by lia.
  cbn [fmap option_fmap option_map default from_option]. unfold id.
  rewrite Z.add_0_l, Z2Nat.id by lia. rewrite <-mul_row_at.
  by rewrite byte.unsigned_of_Z, byte_wrap_small by lia.
Qed.

Lemma nibble_tables_hi a i : 0 ≤ i < 16 →
  at8 (drop 16 (mul_nibble_tables a)) i = gf_mul a (byte.of_Z (Z.shiftl i 4)).
Proof.
  intros Hi. unfold mul_nibble_tables, at8 at 1.
  rewrite drop_app_length' by (by rewrite length_fmap, length_seqZ).
  rewrite list_lookup_fmap, lookup_seqZ_lt by lia.
  cbn [fmap option_fmap option_map default from_option]. unfold id.
  rewrite Z.add_0_l, Z2Nat.id by lia. rewrite <-mul_row_at.
  rewrite byte.unsigned_of_Z, byte_wrap_small; [done|]. rewrite Z.shiftl_mul_pow2 by lia. lia.
Qed.

(** The nibble decomposition of a product. *)
Lemma nibble_product a x :
  at8 (take 16 (mul_nibble_tables a)) (Z.land (byte.unsigned x) 15)
  ⊕ at8 (drop 16 (mul_nibble_tables a)) (Z.shiftr (byte.unsigned x) 4) = gf_mul a x.
Proof.
  assert (0 ≤ Z.land (byte.unsigned x) 15 < 16 ∧ 0 ≤ Z.shiftr (byte.unsigned x) 4 < 16) as [Hl Hh]
    by by destruct x.
  rewrite nibble_tables_lo, nibble_tables_hi by assumption.
  rewrite <-gf_mul_xor_r, nibbles. reflexivity.
Qed.

Lemma and_mask_nibble x :
  byte.unsigned (and_mask x) = Z.land (byte.unsigned x) 15 ∧
  Z.testbit (byte.unsigned (and_mask x)) 7 = false ∧
  Z.land (byte.unsigned (and_mask x)) 15 = Z.land (byte.unsigned x) 15 ∧
  (byte.unsigned (and_mask x) <? 16) = true.
Proof. by destruct x. Qed.

Lemma shuffle_masked tab x : shuffle_epi8 tab (and_mask x) = at8 tab (Z.land (byte.unsigned x) 15).
Proof. unfold shuffle_epi8. by destruct (and_mask_nibble x) as (_ & -> & -> & _). Qed.

Lemma vqtbl_masked tab x : vqtbl1q_u8 tab (and_mask x) = at8 tab (Z.land (byte.unsigned x) 15).
Proof. unfold vqtbl1q_u8. by destruct (and_mask_nibble x) as (-> & _ & _ & ->). Qed.

Lemma land15_of_Z z : Z.land (byte.unsigned (byte.of_Z z)) 15 = Z.land z 15.
Proof.
  rewrite byte.unsigned_of_Z. unfold byte.wrap. rewrite <-Z.land_ones by done.
  rewrite <-Z.land_assoc. done.
Qed.

Lemma high_nibble x : Z.land (Z.shiftr (byte.unsigned x) 4) 15 = Z.shiftr (byte.unsigned x) 4.
Proof. by destruct x. Qed.

(** A 16-bit lane shift, masked, is the high nibble of each byte. *)
Lemma srli_low l h :
  Z.land (Z.shiftr (byte.unsigned l + 256 * byte.unsigned h) 4) 15 = Z.shiftr (byte.unsigned l) 4.
Proof.
  rewrite Z.shiftr_div_pow2, (Z.land_ones _ 4) by done.
  rewrite Z.shiftr_div_pow2 by done.
  replace (byte.unsigned l + 256 * byte.unsigned h)
    with (byte.unsigned l + (16 * byte.unsigned h) * 2 ^ 4) by lia.
  rewrite Z.div_add by done. pose proof (byte.unsigned_range l).
  replace (16 * byte.unsigned h) with (byte.unsigned h * 2 ^ 4) by lia.
  rewrite Z_mod_plus_full. apply Z.mod_small.
  split; [apply Z.div_pos; lia|apply Z.div_lt_upper_bound; lia].
Qed.

Lemma srli_high l h :
  Z.land (Z.shiftr (Z.shiftr (byte.unsigned l + 256 * byte.unsigned h) 4) 8) 15
  = Z.shiftr (byte.unsigned h) 4.
Proof.
  rewrite Z.shiftr_shiftr by done. rewrite (Z.shiftr_div_pow2 _ (4 + 8)) by done.
  rewrite (Z.land_ones _ 4) by done. rewrite Z.shiftr_div_pow2 by done.
  pose proof (byte.unsigned_range l). pose proof (byte.unsigned_range h).
  assert ((byte.unsigned l + 256 * byte.unsigned h) / 2 ^ (4 + 8) = byte.unsigned h / 2 ^ 4) as ->.
  { replace (2 ^ (4 + 8)) with (256 * 16) by done.
    rewrite <-Z.div_div by done. replace (256 * byte.unsigned h) with (byte.unsigned h * 256) by lia.
    rewrite Z.div_add by done. rewrite (Z.div_small (byte.unsigned l)) by lia. done. }
  apply Z.mod_small. split; [apply Z.div_pos; lia|apply Z.div_lt_upper_bound; lia].
Qed.

(** The kernels multiply every byte (of an even-sized register). *)
Definition even_len (x : list byte) : Prop := Nat.even (length x) = true.

Lemma kernel_x86_ok a x : even_len x → kernel_x86 (mul_nibble_tables a) x = gf_mul a <$> x.
Proof.
  unfold kernel_x86, even_len. revert x. fix IH 1. intros [|l [|h x]] He; [done|done|].
  simpl in He. cbn [srli_epi16_4 fmap list_fmap zip_with]. f_equal; [|f_equal; [|by apply IH]].
  - rewrite !shuffle_masked, land15_of_Z, srli_low. apply nibble_product.
  - rewrite !shuffle_masked, land15_of_Z, srli_high. apply nibble_product.
Qed.

Lemma kernel_neon_ok a x : kernel_neon (mul_nibble_tables a) x = gf_mul a <$> x.
Proof.
  unfold kernel_neon, vshrq_4. induction x as [|b x IH]; [done|].
  cbn [fmap list_fmap zip_with]. f_equal; [|exact IH].
  rewrite !vqtbl_masked, land15_of_Z, high_nibble. apply nibble_product.
Qed.

(** ** The loops *)

Lemma axpy_ref_app a s1 s2 d1 d2 : length s1 = length d1 →
  axpy_ref a (s1 ++ s2) (d1 ++ d2) = zip_with byte.xor d1 (gf_mul a <$> s1) ++ axpy_ref a s2 d2.
Proof.
  revert d1. induction s1 as [|s s1 IH]; intros [|d d1] Hl; try done.
  cbn [app axpy_ref fmap list_fmap zip_with]. f_equal. apply IH. simpl in Hl. lia.
Qed.

Lemma axpy_ref_nil a dst : axpy_ref a [] dst = dst.
Proof. by destruct dst. Qed.

Lemma axpy_loop_ok a kernel w n src dst fuel :
  (∀ x, length x = w → kernel x = gf_mul a <$> x) → (0 < w)%nat → (n ≤ fuel)%nat →
  (n ≤ length src)%nat → (n ≤ length dst)%nat →
  axpy_loop fuel kernel w n src dst = axpy_ref a (take (n - n mod w) src) dst.
Proof.
  intros Hk Hw. revert n src dst. induction fuel as [|fuel IH]; intros n src dst Hf Hs Hd.
  { replace n with 0%nat by lia. cbn [axpy_loop Nat.sub take]. by rewrite axpy_ref_nil. }
  cbn [axpy_loop]. destruct (Nat.leb_spec w n) as [Hle|Hlt].
  - rewrite Hk by (rewrite length_take; lia). rewrite IH by (rewrite ?length_drop; lia).
    assert (n mod w = (n - w) mod w)%nat as Hm.
    { replace n with ((n - w) + 1 * w)%nat at 1 by lia. apply Nat.Div0.mod_add. }
    rewrite <-(take_drop w dst) at 3.
    replace (take (n - n mod w) src)
      with (take w src ++ take (n - w - (n - w) mod w) (drop w src)).
    + symmetry. apply axpy_ref_app. rewrite !length_take. lia.
    + assert ((n - w) mod w ≤ n - w)%nat by (apply Nat.Div0.mod_le).
      rewrite <-(take_drop w src) at 3.
      rewrite take_app_ge by (rewrite length_take; lia). f_equal.
      f_equal. rewrite length_take. lia.
  - rewrite Nat.mod_small by lia. replace (n - n)%nat with 0%nat by lia. cbn [take].
    by rewrite axpy_ref_nil.
Qed.

Lemma axpy_tail_ok a i n src dst :
  (i ≤ n)%nat → (n ≤ length src)%nat → (n ≤ length dst)%nat →
  axpy_tail (mul_row a) i n src (axpy_ref a (take i src) dst) = axpy_ref a (take n src) dst.
Proof.
  revert i src dst. induction n as [|n IH]; intros i src dst Hi Hs Hd.
  { replace i with 0%nat by lia. cbn [take axpy_tail]. by rewrite axpy_ref_nil. }
  destruct src as [|s src]; [simpl in Hs; lia|]. destruct dst as [|d dst]; [simpl in Hd; lia|].
  simpl in Hs, Hd. destruct i as [|i].
  - cbn [take axpy_ref axpy_tail]. rewrite mul_row_at. f_equal.
    rewrite <-(axpy_ref_nil a dst) at 1. apply (IH 0%nat); lia.
  - cbn [take axpy_ref axpy_tail]. f_equal. apply IH; lia.
Qed.

Lemma axpy_ref_take a src dst n : n = Nat.min (length src) (length dst) →
  axpy_ref a (take n src) dst = axpy_ref a src dst.
Proof.
  revert dst n. induction src as [|s src IH]; intros [|d dst] n ->; simpl; try done.
  f_equal. by apply IH.
Qed.

Lemma scal_loop_ok a kernel w n dst fuel :
  (∀ x, length x = w → kernel x = gf_mul a <$> x) → (0 < w)%nat → (n ≤ fuel)%nat →
  (n ≤ length dst)%nat →
  scal_loop fuel kernel w n dst
  = (gf_mul a <$> take (n - n mod w) dst) ++ drop (n - n mod w) dst.
Proof.
  intros Hk Hw. revert n dst. induction fuel as [|fuel IH]; intros n dst Hf Hd.
  { replace n with 0%nat by lia. done. }
  cbn [scal_loop]. destruct (Nat.leb_spec w n) as [Hle|Hlt].
  - rewrite Hk by (rewrite length_take; lia). rewrite IH by (rewrite ?length_drop; lia).
    assert (n mod w = (n - w) mod w)%nat as Hm.
    { replace n with ((n - w) + 1 * w)%nat at 1 by lia. apply Nat.Div0.mod_add. }
    assert ((n - w) mod w ≤ n - w)%nat by (apply Nat.Div0.mod_le).
    rewrite app_assoc, <-fmap_app, drop_drop. f_equal; [f_equal|f_equal; lia].
    rewrite <-(take_drop w dst) at 3.
    rewrite take_app_ge by (rewrite length_take; lia). f_equal. f_equal. rewrite length_take. lia.
  - rewrite Nat.mod_small by lia. by replace (n - n)%nat with 0%nat by lia.
Qed.

Lemma scal_tail_ok a i dst : (i ≤ length dst)%nat →
  scal_tail (mul_row a) i ((gf_mul a <$> take i dst) ++ drop i dst) = gf_mul a <$> dst.
Proof.
  revert i. induction dst as [|d dst IH]; intros i Hi.
  { by replace i with 0%nat by (simpl in Hi; lia). }
  destruct i as [|i]; cbn [take drop fmap list_fmap app scal_tail].
  - rewrite mul_row_at. f_equal. apply (IH 0%nat). lia.
  - f_equal. apply IH. simpl in Hi. lia.
Qed.

Lemma axpy_ref_0 src dst : axpy_ref Byte.x00 src dst = dst.
Proof.
  revert src. induction dst as [|d dst IH]; intros [|s src]; cbn [axpy_ref]; try reflexivity.
  by rewrite gf_mul_0_l, xor_0_r, IH.
Qed.

Lemma axpy_ref_1 src dst :
  zip_with byte.xor (take (Nat.min (length src) (length dst)) dst)
    (take (Nat.min (length src) (length dst)) src)
    ++ drop (Nat.min (length src) (length dst)) dst = axpy_ref Byte.x01 src dst.
Proof.
  revert src. induction dst as [|d dst IH]; intros [|s src];
    cbn [axpy_ref length Nat.min take drop zip_with app]; try reflexivity.
  rewrite gf_mul_1_l. f_equal. apply IH.
Qed.

Lemma axpy_simd_ok a kernel w src dst :
  (∀ x, length x = w → kernel x = gf_mul a <$> x) → (0 < w)%nat →
  let n := Nat.min (length src) (length dst) in
  axpy_tail (mul_row a) (n - n mod w) n src (axpy_loop n kernel w n src dst) = axpy_ref a src dst.
Proof.
  intros Hk Hw n. rewrite (axpy_loop_ok a) by (done || lia).
  rewrite axpy_tail_ok by lia. by apply axpy_ref_take.
Qed.

Lemma kernel_x86_w a w : Nat.even w = true →
  ∀ x, length x = w → kernel_x86 (mul_nibble_tables a) x = gf_mul a <$> x.
Proof. intros He x Hx. apply kernel_x86_ok. unfold even_len. by rewrite Hx. Qed.

Lemma gf_axpy_slice_eq isa a src dst : gf_axpy_slice isa a src dst = axpy_ref a src dst.
Proof.
  unfold gf_axpy_slice. destruct (Byte.eqb a Byte.x00) eqn:E0; cbn [orb].
  { apply Byte.byte_dec_bl in E0 as ->. by rewrite axpy_ref_0. }
  destruct (Nat.eqb_spec (Nat.min (length src) (length dst)) 0) as [Hn|Hn].
  { rewrite <-(axpy_ref_take a src dst 0) by done. cbn [take]. by rewrite axpy_ref_nil. }
  destruct (Byte.eqb a Byte.x01) eqn:E1.
  { apply Byte.byte_dec_bl in E1 as ->. apply axpy_ref_1. }
  destruct isa.
  - rewrite <-(axpy_ref_nil a dst) at 2. change (@nil byte) with (take 0 src).
    rewrite axpy_tail_ok by lia. by apply axpy_ref_take.
  - apply axpy_simd_ok; [by apply kernel_x86_w|lia].
  - apply axpy_simd_ok; [by apply kernel_x86_w|lia].
  - apply axpy_simd_ok; [intros; apply kernel_neon_ok|lia].
Qed.

Lemma scal_simd_ok a kernel w dst :
  (∀ x, length x = w → kernel x = gf_mul a <$> x) → (0 < w)%nat →
  let n := length dst in
  scal_tail (mul_row a) (n - n mod w) (scal_loop n kernel w n dst) = scal_ref a dst.
Proof.
  intros Hk Hw n. rewrite (scal_loop_ok a) by (done || lia). apply scal_tail_ok. lia.
Qed.

Lemma gf_scal_slice_eq isa a dst : gf_scal_slice isa a dst = scal_ref a dst.
Proof.
  unfold gf_scal_slice, scal_ref. destruct (Nat.eqb_spec (length dst) 0) as [Hn|Hn].
  { by destruct dst. }
  destruct (Byte.eqb a Byte.x00) eqn:E0.
  { apply Byte.byte_dec_bl in E0 as ->. clear Hn. induction dst as [|d dst IH]; [done|].
    cbn [length replicate fmap list_fmap]. by rewrite gf_mul_0_l, IH. }
  destruct (Byte.eqb a Byte.x01) eqn:E1.
  { apply Byte.byte_dec_bl in E1 as ->. clear. induction dst as [|d dst IH]; [done|].
    cbn [fmap list_fmap]. by rewrite gf_mul_1_l, <-IH. }
  destruct isa.
  - apply (scal_tail_ok a 0). lia.
  - apply scal_simd_ok; [by apply kernel_x86_w|lia].
  - apply scal_simd_ok; [by apply kernel_x86_w|lia].
  - apply scal_simd_ok; [intros; apply kernel_neon_ok|lia].
Qed.

(** [gf_dot]: a linear combination of rows; the shorter list decides how many. *)
Definition gf_dot (isa : Isa) (coeffs : list byte) (rows : list (list byte)) : list byte :=
  match rows with
  | [] => []
  | r0 :: _ =>
      foldl (λ out cr, if Byte.eqb cr.1 Byte.x00 then out else gf_axpy_slice isa cr.1 cr.2 out)
        (replicate (length r0) Byte.x00) (zip coeffs rows)
  end.

(** C32: The SIMD paths compute what the byte loop computes: on every instruction
    set, for every coefficient and every pair of lengths, [gf_axpy_slice] adds
    the product to the common prefix and keeps the rest of [dst], and
    [gf_scal_slice] multiplies every byte. *)
Theorem simd_matches_scalar isa a src dst :
  gf_axpy_slice isa a src dst = axpy_ref a src dst ∧
  gf_scal_slice isa a dst = (gf_mul a <$> dst).
Proof. split; [apply gf_axpy_slice_eq|apply gf_scal_slice_eq]. Qed.
