(* ===== verification/Gauss.v ===== *)
(** * Gauss: Gaussian elimination of [coding/src/gf256.rs]

    [gf_gauss_eliminate] works in place on a flat row-major matrix; here the
    flat buffer is cut into its rows, the row operations are those of the code,
    and the buffer is put together again.  The theorem: elimination keeps every
    linear relation the rows satisfy, and at full rank the coefficient part is
    the identity, so the right-hand sides are the solution. *)

From S2P Require Import Prelude Gf256 GfVec.

(** The first [n] rows of [row_len] bytes. *)
Fixpoint chunks (n row_len : nat) (mat : list byte) : list (list byte) :=
  match n with
  | O => []
  | S n' => take row_len mat :: chunks n' row_len (drop row_len mat)
  end.

Definition cell (row : list byte) (col : nat) : byte := default Byte.x00 (row !! col).

(** The pivot: the first row at or below [rank] with a non-zero entry. *)
Fixpoint find_pivot (rows : list (list byte)) (r rank col : nat) : option nat :=
  match rows with
  | [] => None
  | row :: rows' =>
      if (rank <=? r)%nat && negb (Byte.eqb (cell row col) Byte.x00) then Some r
      else find_pivot rows' (S r) rank col
  end.

Definition swap_rows (rows : list (list byte)) (i p : nat) : list (list byte) :=
  match rows !! i, rows !! p with
  | Some a, Some b => <[i := b]> (<[p := a]> rows)
  | _, _ => rows
  end.

(** One column: swap, normalise the pivot row, eliminate the others. *)
Definition eliminate_col (isa : Isa) (rows : list (list byte)) (rank p col : nat)
    : list (list byte) :=
  let rows := if (rank =? p)%nat then rows else swap_rows rows rank p in
  let pv := cell (default [] (rows !! rank)) col in
  let prow := gf_scal_slice isa (gf_inv pv) (default [] (rows !! rank)) in
  let rows := <[rank := prow]> rows in
  imap (λ r row,
    if (r =? rank)%nat then row
    else
      let f := cell row col in
      if Byte.eqb f Byte.x00 then row else gf_axpy_slice isa f prow row) rows.

Fixpoint gauss_loop (isa : Isa) (cols : list nat) (rows : list (list byte)) (rank : nat)
    : list (list byte) * nat :=
  match cols with
  | [] => (rows, rank)
  | col :: cols' =>
      match find_pivot rows 0 rank col with
      | None => gauss_loop isa cols' rows rank
      | Some p =>
          let rows := eliminate_col isa rows rank p col in
          let rank := S rank in
          if (rank =? length rows)%nat then (rows, rank) else gauss_loop isa cols' rows rank
      end
  end.

(** [gf_gauss_eliminate(mat, row_len, k)]: the matrix after elimination and the
    rank ([k] is at most [row_len] in every call). *)
Definition gf_gauss_eliminate (isa : Isa) (mat : list byte) (row_len k : nat) : list byte * nat :=
  if (row_len =? 0)%nat then (mat, 0%nat)
  else
    let n := (length mat / row_len)%nat in
    let '(rows, rank) := gauss_loop isa (seq 0 k) (chunks n row_len mat) 0 in
    (concat rows ++ drop (n * row_len) mat, rank).

(** ** Linear relations *)

(** The inner product of a row with a vector. *)
Fixpoint dotp (row y : list byte) : byte :=
  match row, y with
  | r :: row', v :: y' => gf_mul r v ⊕ dotp row' y'
  | _, _ => Byte.x00
  end.

Lemma dotp_scal a row y : dotp (scal_ref a row) y = gf_mul a (dotp row y).
Proof.
  revert y. induction row as [|r row IH]; intros [|v y]; simpl; rewrite ?gf_mul_0_r; try reflexivity.
  rewrite IH, gf_mul_xor_r, gf_mul_assoc. reflexivity.
Qed.

Lemma dotp_axpy f p row y : length p = length row →
  dotp (axpy_ref f p row) y = dotp row y ⊕ gf_mul f (dotp p y).
Proof.
  revert p y. induction row as [|r row IH]; intros [|q p] [|v y] Hl; simpl in *; try lia;
    rewrite ?gf_mul_0_r, ?xor_0_r; try reflexivity.
  rewrite IH by lia. rewrite gf_mul_xor_l, !gf_mul_xor_r, gf_mul_assoc, xor_swap. reflexivity.
Qed.

Lemma length_axpy_ref f p row : length (axpy_ref f p row) = length row.
Proof. revert p. induction row as [|r row IH]; intros [|q p]; simpl; auto. Qed.

Lemma cell_axpy f p row c : length p = length row →
  cell (axpy_ref f p row) c = cell row c ⊕ gf_mul f (cell p c).
Proof.
  unfold cell. revert p c. induction row as [|r row IH]; intros [|q p] c Hl; simpl in Hl; try lia.
  - simpl. rewrite gf_mul_0_r, xor_0_r. reflexivity.
  - destruct c as [|c]; [reflexivity|]. apply (IH p c). lia.
Qed.

Lemma cell_scal a row c : cell (scal_ref a row) c = gf_mul a (cell row c).
Proof.
  unfold cell, scal_ref. rewrite list_lookup_fmap. destruct (row !! c); [reflexivity|].
  simpl. rewrite gf_mul_0_r. reflexivity.
Qed.

(** A property of rows that the row operations keep. *)
Definition row_closed (P : list byte → Prop) : Prop :=
  (∀ a row, P row → P (scal_ref a row)) ∧
  (∀ f p row, P p → P row → P (axpy_ref f p row)).

Lemma swap_rows_Forall P rows i p : Forall P rows → Forall P (swap_rows rows i p).
Proof.
  intros H. unfold swap_rows. destruct (rows !! i) eqn:Ei; [|done]. destruct (rows !! p) eqn:Ep; [|done].
  apply Forall_insert; [apply Forall_insert; [done|]|]; by eapply Forall_lookup_1.
Qed.

Lemma length_swap_rows rows i p : length (swap_rows rows i p) = length rows.
Proof. unfold swap_rows. repeat case_match; by rewrite ?length_insert. Qed.

Lemma length_eliminate_col isa rows rank p col :
  length (eliminate_col isa rows rank p col) = length rows.
Proof.
  unfold eliminate_col. rewrite length_imap, length_insert.
  destruct (_ =? _)%nat; by rewrite ?length_swap_rows.
Qed.

Lemma eliminate_col_Forall isa P rows rank p col :
  row_closed P → (rank < length rows)%nat → Forall P rows →
  Forall P (eliminate_col isa rows rank p col).
Proof.
  intros [Hs Ha] Hr H. unfold eliminate_col.
  set (rows1 := if (rank =? p)%nat then rows else swap_rows rows rank p).
  assert (Forall P rows1) as H1 by (unfold rows1; case_match; [done|by apply swap_rows_Forall]).
  assert (length rows1 = length rows) as Hl by (unfold rows1; case_match; [done|apply length_swap_rows]).
  destruct (lookup_lt_is_Some_2 rows1 rank) as [row Hrow]; [lia|]. rewrite Hrow. cbn [default from_option].
  unfold id. rewrite gf_scal_slice_eq. set (prow := scal_ref _ row).
  assert (P prow) as Hp by (apply Hs; by eapply Forall_lookup_1).
  apply Forall_lookup_2. intros i x Hi. rewrite list_lookup_imap in Hi.
  destruct (<[rank:=prow]> rows1 !! i) as [y|] eqn:Hy; [|done]. simpl in Hi. injection Hi as <-.
  assert (P y) as Py.
  { eapply Forall_lookup_1; [|exact Hy]. by apply Forall_insert. }
  destruct (i =? rank)%nat; [done|]. destruct (Byte.eqb _ _); [done|].
  rewrite gf_axpy_slice_eq. by apply Ha.
Qed.

Lemma find_pivot_spec rows r rank col p :
  find_pivot rows r rank col = Some p →
  (rank ≤ p)%nat ∧ (r ≤ p)%nat ∧
  ∃ row, rows !! (p - r)%nat = Some row ∧ cell row col ≠ Byte.x00.
Proof.
  revert r. induction rows as [|row rows IH]; intros r; simpl; [done|].
  destruct (Nat.leb_spec rank r); cbn [andb].
  - destruct (Byte.eqb (cell row col) Byte.x00) eqn:Ez; cbn [negb].
    + intros (? & ? & row' & Hr & Hn)%IH. split_and!; [lia..|]. exists row'. split; [|exact Hn].
      by replace (p - r)%nat with (S (p - S r)) by lia.
    + intros [= <-]. split_and!; [lia..|]. exists row. rewrite Nat.sub_diag. split; [done|].
      intros Hz. rewrite Hz in Ez. discriminate Ez.
  - intros (? & ? & row' & Hr & Hn)%IH. split_and!; [lia..|]. exists row'. split; [|exact Hn].
    by replace (p - r)%nat with (S (p - S r)) by lia.
Qed.

Lemma find_pivot_0 rows rank col p :
  find_pivot rows 0 rank col = Some p →
  (rank ≤ p)%nat ∧ (p < length rows)%nat ∧
  ∃ row, rows !! p = Some row ∧ cell row col ≠ Byte.x00.
Proof.
  intros (? & _ & row & Hr & Hn)%find_pivot_spec. rewrite Nat.sub_0_r in Hr.
  split_and!; [done|by eapply lookup_lt_Some|by exists row].
Qed.

Lemma gauss_loop_Forall isa P cols rows rank :
  row_closed P → (rank ≤ length rows)%nat → Forall P rows →
  Forall P (gauss_loop isa cols rows rank).1.
Proof.
  intros HP. revert rows rank. induction cols as [|col cols IH]; intros rows rank Hr H; simpl; [done|].
  destruct (find_pivot rows 0 rank col) as [p|] eqn:Hf; [|by apply IH].
  assert (rank < length rows)%nat as Hlt by (apply find_pivot_0 in Hf as (? & ? & _); lia).
  assert (Forall P (eliminate_col isa rows rank p col)) by by apply eliminate_col_Forall.
  case_match; [done|]. apply IH; [|done]. rewrite length_eliminate_col. lia.
Qed.

(** ** The identity *)

(** The first [c] columns are those of the identity. *)
Definition ident (c : nat) (rows : list (list byte)) : Prop :=
  ∀ i j row, rows !! i = Some row → (j < c)%nat →
    cell row j = if (i =? j)%nat then Byte.x01 else Byte.x00.

Lemma swap_rows_lookup rows i p j a b :
  rows !! i = Some a → rows !! p = Some b →
  swap_rows rows i p !! j = if (j =? i)%nat then Some b else if (j =? p)%nat then Some a else rows !! j.
Proof.
  intros Hi Hp. unfold swap_rows. rewrite Hi, Hp.
  pose proof (lookup_lt_Some _ _ _ Hi). pose proof (lookup_lt_Some _ _ _ Hp).
  destruct (Nat.eqb_spec j i) as [->|Hji].
  { rewrite list_lookup_insert_eq; [done|]. by rewrite length_insert. }
  rewrite list_lookup_insert_ne by done.
  destruct (Nat.eqb_spec j p) as [->|Hjp]; [by rewrite list_lookup_insert_eq|].
  by rewrite list_lookup_insert_ne.
Qed.

Lemma swap_rows_ident c rows p a b :
  ident c rows → rows !! c = Some a → rows !! p = Some b → (c ≤ p)%nat → ident c (swap_rows rows c p).
Proof.
  intros H Ha Hb Hcp i j row. rewrite (swap_rows_lookup _ _ _ _ _ _ Ha Hb).
  destruct (Nat.eqb_spec i c) as [->|Hic]; [|destruct (Nat.eqb_spec i p) as [->|Hip]].
  - intros [= <-] Hj. rewrite (H p j b Hb Hj).
    destruct (Nat.eqb_spec p j); [lia|]. destruct (Nat.eqb_spec c j); [lia|]. done.
  - intros [= <-] Hj. rewrite (H c j a Ha Hj).
    destruct (Nat.eqb_spec c j); [lia|]. destruct (Nat.eqb_spec p j); [lia|]. done.
  - apply H.
Qed.

Lemma eliminate_col_ident isa rows p c m :
  ident c rows → Forall (λ row, length row = m) rows → find_pivot rows 0 c c = Some p →
  ident (S c) (eliminate_col isa rows c p c).
Proof.
  intros H Hlen Hf. apply find_pivot_0 in Hf as (Hcp & Hp & b & Hb & Hnz).
  destruct (lookup_lt_is_Some_2 rows c) as [a Ha]; [lia|].
  unfold eliminate_col.
  set (rows1 := if (c =? p)%nat then rows else swap_rows rows c p).
  assert (ident c rows1 ∧ rows1 !! c = Some b ∧ Forall (λ row, length row = m) rows1)
    as (H1 & Hc & Hl1).
  { unfold rows1. destruct (Nat.eqb_spec c p) as [->|Hne]; [done|]. split_and!.
    - by eapply swap_rows_ident.
    - rewrite (swap_rows_lookup _ _ _ _ _ _ Ha Hb). by rewrite Nat.eqb_refl.
    - by apply swap_rows_Forall. }
  rewrite Hc. cbn [default from_option]. unfold id. rewrite gf_scal_slice_eq.
  set (prow := scal_ref _ b).
  assert (∀ j, cell prow j = if (j <? c)%nat then Byte.x00
                             else gf_mul (gf_inv (cell b c)) (cell b j)) as Hprow.
  { intros j. unfold prow. rewrite cell_scal. destruct (Nat.ltb_spec j c) as [Hj|]; [|reflexivity].
    rewrite (H1 c j b Hc Hj). destruct (Nat.eqb_spec c j); [lia|]. apply gf_mul_0_r. }
  assert (cell prow c = Byte.x01) as Hone.
  { rewrite Hprow, Nat.ltb_irrefl. apply gf_mul_inv. exact Hnz. }
  assert (length prow = m) as Hlp.
  { unfold prow, scal_ref. rewrite length_fmap. by eapply Forall_lookup_1 in Hl1. }
  intros i j row. rewrite list_lookup_imap.
  destruct (Nat.eqb_spec i c) as [->|Hic].
  - rewrite list_lookup_insert_eq by (by eapply lookup_lt_Some). cbn. intros [= <-] Hj.
    destruct (Nat.eqb_spec c j) as [<-|Hne]; [exact Hone|].
    rewrite Hprow. destruct (Nat.ltb_spec j c); [reflexivity|lia].
  - rewrite list_lookup_insert_ne by done. destruct (rows1 !! i) as [y|] eqn:Hy; [|done].
    cbn. rewrite gf_axpy_slice_eq. intros [= <-] Hj.
    assert (length y = m) as Hly by (by eapply Forall_lookup_1 in Hl1).
    destruct (decide (j = c)) as [->|Hjc].
    + destruct (Nat.eqb_spec i c); [done|]. destruct (Byte.eqb (cell y c) Byte.x00) eqn:Ez.
      * apply Byte.byte_dec_bl in Ez. exact Ez.
      * rewrite cell_axpy by congruence. rewrite Hone, gf_mul_1_r. apply xor_nilpotent.
    + rewrite <-(H1 i j y Hy) by lia. destruct (Byte.eqb (cell y c) Byte.x00); [done|].
      rewrite cell_axpy by congruence. rewrite Hprow. destruct (Nat.ltb_spec j c); [|lia].
      rewrite gf_mul_0_r. apply xor_0_r.
Qed.

Lemma gauss_loop_rank isa cols rows rank :
  ((gauss_loop isa cols rows rank).2 ≤ rank + length cols)%nat.
Proof.
  revert rows rank. induction cols as [|col cols IH]; intros rows rank; simpl; [lia|].
  destruct (find_pivot _ _ _ _).
  - case_match; simpl; [lia|]. etrans; [apply IH|]. lia.
  - etrans; [apply IH|]. lia.
Qed.

Lemma gauss_loop_ident isa c m rows len :
  ident c rows → Forall (λ row, length row = len) rows →
  (gauss_loop isa (seq c m) rows c).2 = (c + m)%nat →
  ident (c + m) (gauss_loop isa (seq c m) rows c).1.
Proof.
  revert c rows. induction m as [|m IH]; intros c rows H Hl Hr; simpl in *.
  { by rewrite Nat.add_0_r. }
  destruct (find_pivot rows 0 c c) as [p|] eqn:Hf.
  - assert (ident (S c) (eliminate_col isa rows c p c)) as H' by by eapply eliminate_col_ident.
    assert (Forall (λ row, length row = len) (eliminate_col isa rows c p c)) as Hl'.
    { apply find_pivot_0 in Hf as (? & ? & _). apply eliminate_col_Forall; [|lia|done].
      split; [intros; unfold scal_ref; by rewrite length_fmap|intros; by rewrite length_axpy_ref]. }
    case_match; simpl in *.
    + replace (c + S m)%nat with (S c) by lia. done.
    + replace (c + S m)%nat with (S c + m)%nat by lia. apply IH; [done|done|lia].
  - pose proof (gauss_loop_rank isa (seq (S c) m) rows c) as Hle. rewrite length_seq in Hle. lia.
Qed.

(** ** Solutions *)

(** Byte [j] of every source. *)
Definition column (xs : list (list byte)) (j : nat) : list byte := (λ x, cell x j) <$> xs.

(** A row [coeffs | rhs] that the sources [xs] satisfy. *)
Definition satisfied (xs : list (list byte)) (s : nat) (row : list byte) : Prop :=
  length row = (length xs + s)%nat ∧
  ∀ j, (j < s)%nat → dotp (take (length xs) row) (column xs j) = cell row (length xs + j).

Lemma take_axpy_ref n f p row : length p = length row →
  take n (axpy_ref f p row) = axpy_ref f (take n p) (take n row).
Proof.
  revert n p. induction row as [|r row IH]; intros [|n] [|q p] Hl; simpl in *; try done.
  f_equal. apply IH. lia.
Qed.

Lemma satisfied_closed xs s : row_closed (satisfied xs s).
Proof.
  split.
  - intros a row [Hl Hr]. split; [unfold scal_ref; by rewrite length_fmap|]. intros j Hj.
    unfold scal_ref. rewrite <-fmap_take. change (dotp (scal_ref a (take (length xs) row)) (column xs j)
      = cell (scal_ref a row) (length xs + j)).
    rewrite dotp_scal, cell_scal, Hr by done. reflexivity.
  - intros f p row [Hlp Hp] [Hl Hr]. split; [by rewrite length_axpy_ref|]. intros j Hj.
    rewrite take_axpy_ref by congruence. rewrite dotp_axpy by (rewrite !length_take; lia).
    rewrite cell_axpy by congruence. rewrite Hr, Hp by done. reflexivity.
Qed.

Lemma cell_take n row j : (j < n)%nat → cell (take n row) j = cell row j.
Proof. intros Hj. unfold cell. by rewrite lookup_take_lt. Qed.

Lemma dotp_unit u v i :
  length u = length v →
  (∀ j, (j < length u)%nat → cell u j = if (i =? j)%nat then Byte.x01 else Byte.x00) →
  dotp u v = cell v i.
Proof.
  revert v i. induction u as [|a u IH]; intros [|b v] i Hl Hu; simpl in *; try lia; [done|].
  pose proof (Hu 0%nat ltac:(lia)) as H0. cbn in H0. subst a.
  destruct i as [|i]; cbn [Nat.eqb].
  - rewrite gf_mul_1_l. cbn. rewrite (IH v (length u)); [|lia|].
    + unfold cell. rewrite lookup_ge_None_2 by lia. apply xor_0_r.
    + intros j Hj. destruct (Nat.eqb_spec (length u) j); [lia|]. apply (Hu (S j)). lia.
  - rewrite gf_mul_0_l, xor_0_l. apply (IH v i); [lia|]. intros j Hj. apply (Hu (S j)). lia.
Qed.

Lemma list_eq_cells (u v : list byte) :
  length u = length v → (∀ j, (j < length u)%nat → cell u j = cell v j) → u = v.
Proof.
  revert v. induction u as [|a u IH]; intros [|b v] Hl H; simpl in *; try done.
  f_equal; [apply (H 0%nat); lia|]. apply IH; [lia|]. intros j Hj. apply (H (S j)). lia.
Qed.

Lemma cell_drop n row j : cell (drop n row) j = cell row (n + j).
Proof. unfold cell. by rewrite lookup_drop. Qed.

Lemma cell_column xs j i x : xs !! i = Some x → cell (column xs j) i = cell x j.
Proof. intros Hx. unfold column, cell at 1. rewrite list_lookup_fmap, Hx. done. Qed.

(** At full rank, row [i] reads: unknown [i] equals source [i]. *)
Lemma satisfied_ident xs s rows i row :
  Forall (λ x, length x = s) xs → Forall (satisfied xs s) rows →
  ident (length xs) rows → rows !! i = Some row →
  (∀ x, xs !! i = Some x → drop (length xs) row = x) ∧
  (∀ j, (j < length xs)%nat → cell row j = if (i =? j)%nat then Byte.x01 else Byte.x00).
Proof.
  intros Hxs Hs Hid Hrow. pose proof (Forall_lookup_1 _ _ _ _ Hs Hrow) as [Hl Hr].
  split; [|intros j Hj; by apply Hid]. intros x Hx.
  pose proof (Forall_lookup_1 _ _ _ _ Hxs Hx) as Hlx. simpl in Hlx.
  apply list_eq_cells; [rewrite length_drop; lia|]. intros j Hj. rewrite length_drop in Hj.
  rewrite cell_drop, <-Hr by lia.
  rewrite (dotp_unit _ _ i); [by apply cell_column|unfold column; rewrite length_take, length_fmap; lia|].
  intros l Hll. rewrite length_take in Hll. rewrite cell_take by lia. apply (Hid i l row Hrow). lia.
Qed.

Lemma chunks_concat rows len rest :
  Forall (λ row, length row = len) rows →
  chunks (length rows) len (concat rows ++ rest) = rows.
Proof.
  induction 1 as [|row rows Hl _ IH]; simpl; [done|]. rewrite <-app_assoc.
  rewrite take_app_length', drop_app_length' by done. by rewrite IH.
Qed.

(** [gf_gauss_eliminate] on a matrix made of whole rows. *)
Lemma gauss_eliminate_rows isa rows len k :
  (0 < len)%nat → Forall (λ row, length row = len) rows →
  gf_gauss_eliminate isa (concat rows) len k =
    (concat (gauss_loop isa (seq 0 k) rows 0).1, (gauss_loop isa (seq 0 k) rows 0).2).
Proof.
  intros Hlen Hl. unfold gf_gauss_eliminate. destruct (Nat.eqb_spec len 0); [lia|].
  rewrite (length_concat_const rows len) by done. rewrite Nat.div_mul by lia.
  rewrite <-(app_nil_r (concat rows)) at 1. rewrite chunks_concat by done.
  destruct (gauss_loop _ _ _ _) as [rows' rank]. simpl.
  rewrite drop_ge; [by rewrite app_nil_r|]. rewrite (length_concat_const rows len) by done. lia.
Qed.

(** Elimination solves the system: when the rows hold of the sources [xs] and
    the rank is the number of unknowns, then after elimination row [i] below
    the rank carries the unit vector [i] and source [i], and every other row
    has no coefficient left. *)
Lemma gauss_solves isa xs s rows mat rank :
  (0 < length xs)%nat → Forall (λ x, length x = s) xs → Forall (satisfied xs s) rows →
  gf_gauss_eliminate isa (concat rows) (length xs + s) (length xs) = (mat, rank) →
  rank = length xs →
  ∃ rows', mat = concat rows' ∧ Forall (satisfied xs s) rows' ∧
    ∀ i row, rows' !! i = Some row →
      (∀ x, xs !! i = Some x → drop (length xs) row = x) ∧
      (∀ j, (j < length xs)%nat → cell row j = if (i =? j)%nat then Byte.x01 else Byte.x00).
Proof.
  intros Hn Hxs Hs Hg Hrank.
  assert (Forall (λ row, length row = (length xs + s)%nat) rows) as Hl.
  { eapply Forall_impl; [|exact Hs]. by intros row [? _]. }
  rewrite gauss_eliminate_rows in Hg by (done || lia). injection Hg as <- Hr.
  set (rows' := (gauss_loop isa (seq 0 (length xs)) rows 0).1).
  assert (Forall (satisfied xs s) rows') as Hs'.
  { apply gauss_loop_Forall; [apply satisfied_closed|lia|done]. }
  exists rows'. split_and!; [done|done|]. intros i row Hrow.
  eapply satisfied_ident; [done|done| |done].
  apply (gauss_loop_ident isa 0 (length xs) rows (length xs + s)%nat); [|done|lia].
  intros ? ? ? ? ?. lia.
Qed.
