(* ===== verification/LinAlg.v ===== *)
(** * LinAlg: when elimination reaches full rank

    The counterpart of [Gauss]: row operations do not enlarge the kernel, and
    a column without a pivot shows a vector of the kernel, so a system whose
    kernel is trivial is solved.  Used by the random linear code and by the
    Reed-Solomon code. *)

From S2P Require Import Prelude Gf256 GfVec Gauss.

Definition kernel (rows : list (list byte)) (y : list byte) : Prop :=
  Forall (λ row, dotp row y = Byte.x00) rows.

(** No vector but zero is orthogonal to every row. *)
Definition independent (n : nat) (rows : list (list byte)) : Prop :=
  ∀ y, length y = n → kernel rows y → y = replicate n Byte.x00.

Lemma dotp_app row u v : (length u ≤ length row)%nat →
  dotp row (u ++ v) = dotp (take (length u) row) u ⊕ dotp (drop (length u) row) v.
Proof.
  revert row. induction u as [|a u IH]; intros row Hl; cbn [app length take].
  { rewrite drop_0, xor_0_l. reflexivity. }
  destruct row as [|r row]; cbn in Hl; [lia|]. cbn [dotp take drop].
  rewrite (IH row) by lia. by rewrite xor_assoc.
Qed.

Lemma dotp_nil_r row : dotp row [] = Byte.x00.
Proof. by destruct row. Qed.

Lemma dotp_zeros_r n row : dotp row (replicate n Byte.x00) = Byte.x00.
Proof.
  revert row. induction n as [|n IH]; intros [|r row]; cbn [replicate dotp]; try reflexivity.
  rewrite gf_mul_0_r, IH. apply xor_0_l.
Qed.

Lemma dotp_zeros_l n y : dotp (replicate n Byte.x00) y = Byte.x00.
Proof.
  revert y. induction n as [|n IH]; intros [|b y]; cbn [replicate dotp]; try reflexivity.
  rewrite gf_mul_0_l, IH. apply xor_0_l.
Qed.

Lemma dotp_take row y n : (length y ≤ n)%nat → dotp (take n row) y = dotp row y.
Proof.
  revert row n. induction y as [|b y IH]; intros [|r row] [|n] Hn; cbn in *; try lia; try reflexivity.
  by rewrite IH by lia.
Qed.

(** The unit vector of a column. *)
Definition unit_vec (n c : nat) : list byte := replicate c Byte.x00 ++ Byte.x01 :: replicate (n - S c) Byte.x00.

Lemma find_pivot_None rows r rank col :
  find_pivot rows r rank col = None →
  ∀ i row, rows !! i = Some row → (rank ≤ r + i)%nat → cell row col = Byte.x00.
Proof.
  revert r. induction rows as [|row0 rows IH]; intros r H i row Hi Hr; [done|]. cbn [find_pivot] in H.
  destruct ((rank <=? r)%nat && negb (Byte.eqb (cell row0 col) Byte.x00)) eqn:Hc; [done|].
  destruct i as [|i]; cbn in Hi.
  - injection Hi as ->. apply andb_false_iff in Hc as [Hc|Hc].
    + apply Nat.leb_gt in Hc. lia.
    + apply negb_false_iff in Hc. by apply Byte.byte_dec_bl in Hc.
  - apply (IH (S r) H i row Hi). lia.
Qed.

(** A column without a pivot, to the right of an identity: its entries give a
    vector of the kernel. *)
Definition null_vector (rows : list (list byte)) (c n : nat) : list byte :=
  ((λ row, cell row c) <$> take c rows) ++ Byte.x01 :: replicate (n - S c) Byte.x00.

Lemma null_vector_kernel rows c n :
  ident c rows → (c ≤ length rows)%nat → Forall (λ row, (c < length row)%nat) rows →
  find_pivot rows 0 c c = None → kernel rows (null_vector rows c n).
Proof.
  intros Hid Hc Hl Hf. apply Forall_lookup_2. intros i row Hi.
  set (u := (λ row, cell row c) <$> take c rows).
  assert (length u = c) as Hu by (unfold u; rewrite length_fmap, length_take; lia).
  assert (c < length row)%nat as Hlr by (by apply (Forall_lookup_1 _ _ _ _ Hl Hi)).
  unfold null_vector. fold u. rewrite dotp_app by lia. rewrite Hu.
  assert (dotp (drop c row) (Byte.x01 :: replicate (n - S c) Byte.x00) = cell row c) as ->.
  { unfold cell. destruct (drop c row) as [|b rest] eqn:Hd.
    { apply (f_equal length) in Hd. rewrite length_drop in Hd. cbn in Hd. lia. }
    rewrite <-(Nat.add_0_r c), <-lookup_drop, Hd. cbn [dotp lookup list_lookup default from_option].
    rewrite gf_mul_1_r, dotp_zeros_r, xor_0_r. reflexivity. }
  rewrite (dotp_unit (take c row) u i).
  - unfold cell at 1, u. rewrite list_lookup_fmap. destruct (decide (i < c)%nat) as [Hic|Hic].
    + rewrite lookup_take_lt, Hi by done. cbn. apply xor_nilpotent.
    + rewrite (lookup_ge_None_2 (take c rows)) by (rewrite length_take; lia). cbn.
      rewrite xor_0_l. apply (find_pivot_None _ _ _ _ Hf i row Hi). lia.
  - rewrite length_take. lia.
  - intros j Hj. rewrite length_take in Hj. rewrite cell_take by lia. apply (Hid i j row Hi). lia.
Qed.

(** Row operations do not enlarge the kernel. *)
Lemma eliminate_col_kernel isa rows rank p col len y :
  Forall (λ row, length row = len) rows → find_pivot rows 0 rank col = Some p →
  kernel (eliminate_col isa rows rank p col) y → kernel rows y.
Proof.
  intros Hlen Hf Hk. apply find_pivot_0 in Hf as (Hrp & Hp & b & Hb & Hnz).
  destruct (lookup_lt_is_Some_2 rows rank) as [a Ha]; [lia|].
  set (rows1 := if (rank =? p)%nat then rows else swap_rows rows rank p).
  assert (rows1 !! rank = Some b) as Hr1.
  { unfold rows1. destruct (Nat.eqb_spec rank p) as [->|]; [done|].
    rewrite (swap_rows_lookup _ _ _ _ _ _ Ha Hb). by rewrite Nat.eqb_refl. }
  assert (Forall (λ row, length row = len) rows1) as Hl1
    by (unfold rows1; case_match; [done|by apply swap_rows_Forall]).
  assert (kernel rows1 y) as Hk1.
  { unfold eliminate_col in Hk. fold rows1 in Hk. rewrite Hr1 in Hk. cbn [default from_option] in Hk.
    unfold id in Hk. rewrite gf_scal_slice_eq in Hk. set (prow := scal_ref _ b) in Hk.
    assert (dotp prow y = Byte.x00) as Hprow.
    { apply (Forall_lookup_1 _ _ rank prow) in Hk; [done|]. rewrite list_lookup_imap, list_lookup_insert_eq
        by (by eapply lookup_lt_Some). cbn. by rewrite Nat.eqb_refl. }
    assert (dotp b y = Byte.x00) as Hby.
    { unfold prow in Hprow. rewrite dotp_scal in Hprow. apply gf_mul_zero_inv in Hprow as [H0|]; [|done].
      by destruct (proj2 (gf_mul_inv _ Hnz)). }
    apply Forall_lookup_2. intros i row Hi. destruct (decide (i = rank)) as [->|Hne]; [congruence|].
    assert (length row = len ∧ length b = len) as [Hlr Hlb]
      by (split; by eapply Forall_lookup_1 in Hl1).
    eapply (Forall_lookup_1 _ _ i) in Hk.
    2:{ rewrite list_lookup_imap, list_lookup_insert_ne by done. rewrite Hi. reflexivity. }
    cbn beta iota in Hk. destruct (Nat.eqb_spec i rank); [done|]. destruct (Byte.eqb _ _); [done|].
    rewrite gf_axpy_slice_eq, dotp_axpy in Hk by (unfold prow, scal_ref; rewrite length_fmap; congruence).
    by rewrite Hprow, gf_mul_0_r, xor_0_r in Hk. }
  unfold rows1 in Hk1. destruct (Nat.eqb_spec rank p) as [->|Hne]; [done|].
  apply Forall_lookup_2. intros i row Hi.
  destruct (decide (i = rank)) as [->|Hir]; [|destruct (decide (i = p)) as [->|Hip]].
  - apply (Forall_lookup_1 _ _ p _ Hk1). rewrite (swap_rows_lookup _ _ _ _ _ _ Ha Hb), Nat.eqb_refl.
    destruct (Nat.eqb_spec p rank); congruence.
  - apply (Forall_lookup_1 _ _ rank _ Hk1). rewrite (swap_rows_lookup _ _ _ _ _ _ Ha Hb), Nat.eqb_refl. congruence.
  - apply (Forall_lookup_1 _ _ i _ Hk1). rewrite (swap_rows_lookup _ _ _ _ _ _ Ha Hb).
    destruct (Nat.eqb_spec i rank), (Nat.eqb_spec i p); congruence.
Qed.

Lemma length_rows_closed len : row_closed (λ row, length row = len).
Proof. split; [intros; unfold scal_ref; by rewrite length_fmap|intros; by rewrite length_axpy_ref]. Qed.

(** A pivot exists in every column of an independent system. *)
Lemma independent_pivot rows c n len :
  ident c rows → (c < n)%nat → (c ≤ length rows)%nat → Forall (λ row, length row = len) rows → (n ≤ len)%nat →
  independent n rows → is_Some (find_pivot rows 0 c c).
Proof.
  intros Hid Hcn Hcr Hl Hn Hind. destruct (find_pivot rows 0 c c) eqn:Hf; [by eexists|]. exfalso.
  assert (length (null_vector rows c n) = n) as Hlen.
  { unfold null_vector. rewrite length_app, length_fmap, length_take. cbn. rewrite length_replicate. lia. }
  pose proof (Hind _ Hlen (null_vector_kernel rows c n Hid Hcr
    ltac:(eapply Forall_impl; [|exact Hl]; cbn; lia) Hf)) as Hz.
  assert (null_vector rows c n !! c = Some Byte.x01) as H1.
  { unfold null_vector. rewrite lookup_app_r by (rewrite length_fmap, length_take; lia).
    rewrite length_fmap, length_take. by replace (c - c `min` length rows)%nat with 0%nat by lia. }
  rewrite Hz, lookup_replicate_2 in H1 by lia. done.
Qed.

Lemma gauss_loop_complete isa c m rows len :
  ident c rows → Forall (λ row, length row = len) rows → (c + m ≤ len)%nat → (c + m ≤ length rows)%nat →
  independent (c + m) rows → (gauss_loop isa (seq c m) rows c).2 = (c + m)%nat.
Proof.
  revert c rows. induction m as [|m IH]; intros c rows Hid Hl Hlen Hr Hind; cbn [seq gauss_loop].
  { cbn. lia. }
  destruct (independent_pivot rows c (c + S m) len) as [p Hf]; [done|lia|lia|done|lia|done|]. rewrite Hf.
  pose proof (eliminate_col_ident isa rows p c len Hid Hl Hf) as Hid'.
  pose proof Hf as (_ & Hp & _)%find_pivot_0.
  assert (Forall (λ row, length row = len) (eliminate_col isa rows c p c)) as Hl'
    by (apply eliminate_col_Forall; [apply length_rows_closed|lia|done]).
  rewrite length_eliminate_col. destruct (Nat.eqb_spec (S c) (length rows)) as [He|He].
  - cbn. lia.
  - replace (c + S m)%nat with (S c + m)%nat in * by lia. apply IH; [done|done|done| |].
    + rewrite length_eliminate_col. done.
    + intros y Hy Hk. apply Hind; [done|]. by eapply eliminate_col_kernel.
Qed.

Lemma gauss_loop_length isa cols rows rank : length (gauss_loop isa cols rows rank).1 = length rows.
Proof.
  revert rows rank. induction cols as [|col cols IH]; intros rows rank; cbn [gauss_loop]; [done|].
  destruct (find_pivot rows 0 rank col); [|apply IH].
  case_match; [cbn; apply length_eliminate_col|]. by rewrite IH, length_eliminate_col.
Qed.

(** An independent system of at least as many rows as unknowns has full rank. *)
Lemma gauss_full_rank isa rows len k :
  (0 < len)%nat → Forall (λ row, length row = len) rows → (k ≤ len)%nat → (k ≤ length rows)%nat →
  independent k rows → (gf_gauss_eliminate isa (concat rows) len k).2 = k.
Proof.
  intros H0 Hl Hk Hr Hind. rewrite gauss_eliminate_rows by done. cbn [snd].
  apply (gauss_loop_complete isa 0 k rows len); [intros ? ? ? ? ?; lia|done..].
Qed.

(** ** Combinations *)

(** [for (c, x) in cds { if c != 0 { axpy(acc, c, x) } }]. *)
Definition axpy_all (isa : Isa) (cds : list (byte * list byte)) (acc : list byte) : list byte :=
  foldl (λ acc cd, if Byte.eqb cd.1 Byte.x00 then acc else axpy isa acc cd.1 cd.2) acc cds.

Lemma axpy_all_cells isa g data size acc :
  Forall (λ d, length d = size) data → length acc = size →
  length (axpy_all isa (zip g data) acc) = size ∧
  ∀ j, cell (axpy_all isa (zip g data) acc) j = cell acc j ⊕ dotp g (column data j).
Proof.
  unfold axpy_all. intros Hd. revert g acc. induction Hd as [|d data Hd _ IH]; intros g acc Hacc.
  { destruct g; cbn; split; try done; intros j; by rewrite xor_0_r. }
  destruct g as [|c g]; [cbn; split; [done|]; intros j; by rewrite xor_0_r|]. cbn [zip zip_with foldl fst snd].
  destruct (Byte.eqb c Byte.x00) eqn:Hc.
  - apply Byte.byte_dec_bl in Hc as ->. destruct (IH g acc Hacc) as [H1 H2]. split; [done|]. intros j.
    rewrite H2. cbn. by rewrite gf_mul_0_l, xor_0_l.
  - unfold axpy. rewrite gf_axpy_slice_eq.
    destruct (IH g (axpy_ref c d acc)) as [H1 H2]; [by rewrite length_axpy_ref|]. split; [done|]. intros j.
    rewrite H2, cell_axpy by congruence. cbn. apply xor_assoc.
Qed.

Lemma cell_zeros n j : cell (replicate n Byte.x00) j = Byte.x00.
Proof.
  unfold cell. destruct (replicate n Byte.x00 !! j) as [b|] eqn:Hb; [|done].
  by apply lookup_replicate in Hb as [-> _].
Qed.

Lemma axpy_all_zeros isa g data size :
  Forall (λ d, length d = size) data →
  length (axpy_all isa (zip g data) (replicate size Byte.x00)) = size ∧
  ∀ j, cell (axpy_all isa (zip g data) (replicate size Byte.x00)) j = dotp g (column data j).
Proof.
  intros Hd. destruct (axpy_all_cells isa g data size (replicate size Byte.x00) Hd) as [H1 H2];
    [apply length_replicate|]. split; [done|]. intros j. by rewrite H2, cell_zeros, xor_0_l.
Qed.

Lemma dotp_unit_r e n c : (c < n)%nat → (n ≤ length e)%nat →
  dotp e (<[c := Byte.x01]> (replicate n Byte.x00)) = cell e c.
Proof.
  revert e c. induction n as [|n IH]; intros [|a e] c Hc Hl; cbn in Hl; try lia.
  cbn [replicate]. destruct c as [|c].
  - change (gf_mul a Byte.x01 ⊕ dotp e (replicate n Byte.x00) = a).
    rewrite gf_mul_1_r, dotp_zeros_r. apply xor_0_r.
  - change (gf_mul a Byte.x00 ⊕ dotp e (<[c := Byte.x01]> (replicate n Byte.x00)) = cell e c).
    rewrite gf_mul_0_r, xor_0_l. apply IH; lia.
Qed.

Lemma dotp_snoc u v a b : length u = length v → dotp (u ++ [a]) (v ++ [b]) = dotp u v ⊕ gf_mul a b.
Proof.
  revert v. induction u as [|x u IH]; intros [|y v] Hl; try done; cbn [app dotp].
  - apply xor_comm.
  - rewrite IH by (cbn in Hl; lia). symmetry. apply xor_assoc.
Qed.
