(* ===== verification/Fountain.v ===== *)
(** * Fountain: the rateless erasure code of [coding/src/fountain.rs]

    The decoder parses coded symbols off the wire, peels the ones of degree one
    and solves the rest by elimination.  The sources and the coverage graph are
    the code's: a symbol is a sparse map from source index to coefficient and a
    payload, and the decoder's state keeps what peeling did to it.  The encoder
    is in [Encoder]. *)

From S2P Require Import Prelude Gf256 GfVec Gauss FountainSig.

Record ParsedSym : Type := mkSym {
  cover : gmap nat byte;
  sym_payload : bytes
}.

Record Decoder : Type := mkDecoder {
  d_k : nat;
  d_symbol_size : nat;
  d_syms : list ParsedSym
}.

Definition Decoder_new (k symbol_size : Z) : Decoder :=
  mkDecoder (Z.to_nat k) (Z.to_nat symbol_size) [].

Definition rank (d : Decoder) : nat := length (d_syms d).

(** ** [add] *)

(** The coefficient list of a wire symbol: [n] entries (index:u16, coeff:u8). *)
Fixpoint parse_cover (n k : nat) (w : bytes) (m : gmap nat byte)
    : outcome FountainError (gmap nat byte) :=
  match n with
  | O => Ok m
  | S n' =>
      match w with
      | b0 :: b1 :: c :: w' =>
          let idx := Z.to_nat (from_le [b0; b1]) in
          let m := if (idx <? k)%nat && negb (Byte.eqb c Byte.x00) then <[idx := c]> m else m in
          parse_cover n' k w' m
      | _ => Panic
      end
  end.

Definition add (d : Decoder) (wire : bytes) : Decoder * outcome FountainError bool :=
  if zlen wire <? 2 then (d, Err (FSizeMismatch (zlen wire) 2))
  else
    let ncoeffs := from_le (ztake 2 wire) in
    let header_len := 2 + ncoeffs * 3 in
    if zlen wire <? header_len + Z.of_nat (d_symbol_size d)
    then (d, Err (FSizeMismatch (zlen wire) (header_len + Z.of_nat (d_symbol_size d))))
    else
      match parse_cover (Z.to_nat ncoeffs) (d_k d) (zdrop 2 wire) ∅ with
      | Err e => (d, Err e)
      | Panic => (d, Panic)
      | Ok m =>
          if decide (m = ∅) then (d, Ok false)
          else
            match slice wire header_len (header_len + Z.of_nat (d_symbol_size d)) with
            | Ok p => (mkDecoder (d_k d) (d_symbol_size d) (d_syms d ++ [mkSym m p]), Ok true)
            | Err e => (d, Err e)
            | Panic => (d, Panic)
            end
      end.

(** ** Peeling *)

Record Peel : Type := mkPeel {
  p_syms : list ParsedSym;
  p_revealed : list (option bytes);
  p_covers : list (list nat);
  p_degree : list nat;
  p_queue : list nat
}.

(** [covers[src]]: the symbols that cover [src]. *)
Definition build_covers (syms : list ParsedSym) (k : nat) : list (list nat) :=
  foldl (λ covers ss,
    foldl (λ covers idx, alter (λ l, l ++ [ss.1]) idx covers) covers
      (map_to_list (cover ss.2)).*1)
    (replicate k []) (zip (seq 0 (length syms)) syms).

Definition peel_init (syms : list ParsedSym) (k : nat) : Peel :=
  let degree := (λ sym, size (cover sym)) <$> syms in
  mkPeel syms (replicate k None) (build_covers syms k) degree
    (filter (λ si, degree !! si = Some 1%nat) (seq 0 (length syms))).

(** One dependent of the ripple: drop [target] from symbol [sj]. *)
Definition ripple1 (isa : Isa) (si target : nat) (x : bytes)
    (st : list ParsedSym * list nat * list nat) (sj : nat)
    : list ParsedSym * list nat * list nat :=
  let '(syms, degree, queue) := st in
  if (sj =? si)%nat || (default 0%nat (degree !! sj) =? 0)%nat then st
  else
    match syms !! sj with
    | None => st
    | Some sym =>
        match cover sym !! target with
        | None => st
        | Some c =>
            let d := (default 0%nat (degree !! sj) - 1)%nat in
            (<[sj := mkSym (delete target (cover sym)) (axpy isa (sym_payload sym) c x)]> syms,
             <[sj := d]> degree,
             if (d =? 1)%nat then queue ++ [sj] else queue)
        end
    end.

(** The first covered source that is not yet revealed. *)
Definition unrevealed_entry (revealed : list (option bytes)) (m : gmap nat byte)
    : option (nat * byte) :=
  list_find (λ ic, revealed !! ic.1 = Some None) (map_to_list m) ≫= λ x, Some x.2.

(** The peeling loop.  A symbol enters the queue at most once, so as many steps
    as there are symbols are enough. *)
Fixpoint peel_loop (fuel : nat) (isa : Isa) (st : Peel) : Peel :=
  match fuel with
  | O => st
  | S fuel' =>
      match p_queue st with
      | [] => st
      | si :: queue =>
          let st' := mkPeel (p_syms st) (p_revealed st) (p_covers st) (p_degree st) queue in
          if (default 0%nat (p_degree st !! si) =? 0)%nat then peel_loop fuel' isa st'
          else
            match p_syms st !! si with
            | None => st'
            | Some sym =>
                match unrevealed_entry (p_revealed st) (cover sym) with
                | None =>
                    peel_loop fuel' isa
                      (mkPeel (p_syms st) (p_revealed st) (p_covers st)
                         (<[si := 0%nat]> (p_degree st)) queue)
                | Some (target, coeff) =>
                    let inv_c := inv coeff in
                    let x := scal_inplace isa (sym_payload sym) inv_c in
                    let syms := <[si := mkSym (cover sym) []]> (p_syms st) in
                    let degree := <[si := 0%nat]> (p_degree st) in
                    let dependents := default [] (p_covers st !! target) in
                    let covers := <[target := []]> (p_covers st) in
                    let '(syms, degree, queue) :=
                      foldl (ripple1 isa si target x) (syms, degree, queue) dependents in
                    peel_loop fuel' isa
                      (mkPeel syms (<[target := Some x]> (p_revealed st)) covers degree queue)
                end
            end
      end
  end.

(** ** Residual *)

Definition unknowns_of (revealed : list (option bytes)) : list nat :=
  filter (λ i, revealed !! i = Some None) (seq 0 (length revealed)).

(** [col[u]]: the position of [u] among the unknowns. *)
Definition col_of (unknowns : list nat) (u : nat) : nat :=
  default 0%nat (fst <$> list_find (λ v, v = u) unknowns).

(** The residual row of one symbol; [None] when it says nothing about the
    unknowns or was consumed by a reveal. *)
Definition residual_row (revealed : list (option bytes)) (unknowns : list nat) (s : nat)
    (sym : ParsedSym) : outcome FountainError (option (list byte)) :=
  if (length (sym_payload sym) =? 0)%nat then Ok None
  else
    let entries := filter (λ ic, revealed !! ic.1 = Some None) (map_to_list (cover sym)) in
    let coeffs := foldl (λ row ic, alter (byte.xor ic.2) (col_of unknowns ic.1) row)
                    (replicate (length unknowns) Byte.x00) entries in
    match entries with
    | [] => Ok None
    | _ => if (length (sym_payload sym) =? s)%nat then Ok (Some (coeffs ++ sym_payload sym))
           else Panic
    end.

Fixpoint residual_rows (revealed : list (option bytes)) (unknowns : list nat) (s : nat)
    (syms : list ParsedSym) : outcome FountainError (list (list byte)) :=
  match syms with
  | [] => Ok []
  | sym :: syms' =>
      let? o := residual_row revealed unknowns s sym in
      let? rows := residual_rows revealed unknowns s syms' in
      Ok (match o with Some row => row :: rows | None => rows end)
  end.

(** [while piv < r && row[piv] == 0 { piv += 1 }]. *)
Fixpoint first_nonzero (row : list byte) (r : nat) : nat :=
  match r, row with
  | S r', b :: row' => if Byte.eqb b Byte.x00 then S (first_nonzero row' r') else 0%nat
  | _, _ => 0%nat
  end.

Definition reveal_row (r s : nat) (unknowns : list nat) (revealed : list (option bytes))
    (row : list byte) : list (option bytes) :=
  let piv := first_nonzero row r in
  if (piv <? r)%nat
  then <[default 0%nat (unknowns !! piv) := Some (take s (drop r row))]> revealed
  else revealed.

(** [revealed.into_iter().map(|o| o.unwrap_or_default())]. *)
Definition collect_revealed (revealed : list (option bytes)) : list bytes := default [] <$> revealed.

Definition finish (isa : Isa) (k s : nat) (syms : list ParsedSym) (revealed : list (option bytes))
    : outcome FountainError (list bytes) :=
  let unknowns := unknowns_of revealed in
  match unknowns with
  | [] => Ok (collect_revealed revealed)
  | _ =>
      let r := length unknowns in
      let row_len := (r + s)%nat in
      let? rows := residual_rows revealed unknowns s syms in
      let '(residual, rank) := gf_gauss_eliminate isa (concat rows) row_len r in
      if (rank <? r)%nat then Err (FUnderdetermined (Z.of_nat rank) (Z.of_nat r))
      else
        let revealed :=
          foldl (reveal_row r s unknowns) revealed
            (chunks (length residual / row_len) row_len residual) in
        if bool_decide (None ∈ revealed)
        then Err (FUnderdetermined (Z.of_nat rank) (Z.of_nat k))
        else Ok (collect_revealed revealed)
  end.

Definition peel_symbols (isa : Isa) (syms : list ParsedSym) (k s : nat)
    : list ParsedSym * outcome FountainError (list bytes) :=
  let st := peel_loop (length syms) isa (peel_init syms k) in
  (p_syms st, finish isa k s (p_syms st) (p_revealed st)).

Definition decode (isa : Isa) (d : Decoder) : Decoder * outcome FountainError (list bytes) :=
  if (length (d_syms d) <? d_k d)%nat
  then (d, Err (FUnderdetermined (Z.of_nat (length (d_syms d))) (Z.of_nat (d_k d))))
  else
    let '(syms, res) := peel_symbols isa (d_syms d) (d_k d) (d_symbol_size d) in
    (mkDecoder (d_k d) (d_symbol_size d) syms, res).

#[export] Instance fountain_code (isa : Isa) : FountainCode := {|
  FountainDecoder := Decoder;
  decoder_new := Decoder_new;
  decoder_add := add;
  decoder_decode := decode isa
|}.
