(* ===== verification/FountainCorrect.v ===== *)
(** * FountainCorrect: the fountain decoder recovers the sources

    Soundness: a fresh decoder fed with coded symbols of a generation (any
    subset, any order, with duplicates) either recovers exactly the sources or
    reports that it needs more.  Completeness: with every systematic symbol
    among them it recovers the sources.  Both by one invariant of the peeling
    loop and the solution lemma of the elimination. *)

From S2P Require Import Prelude Gf256 GfVec Gauss FountainSig Fountain.

(** ** Combinations of sources *)

Section Peeling.
Variable isa : Isa.
Variable xs : list bytes.
Variable s : nat.
Hypothesis Hs : (0 < s)%nat.
Hypothesis Hxs : Forall (λ x, length x = s) xs.

Definition source (i : nat) : bytes := default [] (xs !! i).

(** Byte [j] of the combination a cover stands for. *)
Definition comb (m : gmap nat byte) (j : nat) : byte :=
  map_fold (λ i c acc, gf_mul c (cell (source i) j) ⊕ acc) Byte.x00 m.

Lemma comb_delete m i c j :
  m !! i = Some c → comb m j = gf_mul c (cell (source i) j) ⊕ comb (delete i m) j.
Proof.
  intros Hi. unfold comb.
  apply (map_fold_delete_L (λ i c acc, gf_mul c (cell (source i) j) ⊕ acc)); [|done].
  intros. rewrite <-!xor_assoc. f_equal. apply xor_comm.
Qed.

Lemma comb_empty j : comb ∅ j = Byte.x00.
Proof. apply map_fold_empty. Qed.

(** A symbol that is what its cover says. *)
Definition sym_ok (sym : ParsedSym) : Prop :=
  length (sym_payload sym) = s ∧
  (∀ i c, cover sym !! i = Some c → (i < length xs)%nat ∧ c ≠ Byte.x00) ∧
  ∀ j, (j < s)%nat → cell (sym_payload sym) j = comb (cover sym) j.

Lemma source_lookup i : (i < length xs)%nat → xs !! i = Some (source i) ∧ length (source i) = s.
Proof.
  intros Hi. destruct (lookup_lt_is_Some_2 xs i Hi) as [x Hx]. unfold source. rewrite Hx.
  split; [done|]. by eapply Forall_lookup_1 in Hxs.
Qed.

Lemma sym_ok_ripple sym i c :
  sym_ok sym → cover sym !! i = Some c →
  sym_ok (mkSym (delete i (cover sym)) (axpy isa (sym_payload sym) c (source i))).
Proof.
  intros (Hl & Hk & Hp) Hi. destruct (Hk i c Hi) as [Hlt _].
  destruct (source_lookup i Hlt) as [_ Hsl].
  unfold sym_ok, axpy. cbn [cover sym_payload]. rewrite gf_axpy_slice_eq.
  split_and!.
  - by rewrite length_axpy_ref.
  - intros i' c' [_ Hi']%lookup_delete_Some. by apply Hk.
  - intros j Hj. rewrite cell_axpy by congruence. rewrite Hp by done.
    rewrite (comb_delete _ i c j Hi), xor_comm, <-xor_assoc, xor_nilpotent. apply xor_0_l.
Qed.

Lemma sym_ok_reveal sym i c :
  sym_ok sym → cover sym !! i = Some c → size (cover sym) = 1%nat →
  scal_inplace isa (sym_payload sym) (inv c) = source i.
Proof.
  intros (Hl & Hk & Hp) Hi Hsz. destruct (Hk i c Hi) as [Hlt Hc].
  destruct (source_lookup i Hlt) as [_ Hsl].
  unfold scal_inplace. rewrite gf_scal_slice_eq.
  apply list_eq_cells; [unfold scal_ref; by rewrite length_fmap, Hl, Hsl|].
  intros j Hj. unfold scal_ref in Hj. rewrite length_fmap, Hl in Hj.
  rewrite cell_scal, Hp, (comb_delete _ i c j Hi) by done.
  assert (delete i (cover sym) = ∅) as ->.
  { apply map_size_empty_inv. rewrite map_size_delete, Hi. lia. }
  rewrite comb_empty, xor_0_r, gf_mul_assoc. unfold inv.
  rewrite (proj1 (gf_mul_inv c Hc)). apply gf_mul_1_l.
Qed.

(** ** The invariant of peeling

    [U i]: source [i] is not revealed.  [M i si]: symbol [si] is registered as
    covering [i].  [W i]: source [i] arrived as a systematic symbol.  A symbol
    is either consumed (empty payload, degree 0) or live. *)
Definition live_ok (degree : list nat) (U : nat → Prop) (M : nat → nat → Prop)
    (si : nat) (sym : ParsedSym) : Prop :=
  sym_ok sym ∧ degree !! si = Some (size (cover sym)) ∧
  ∀ i, is_Some (cover sym !! i) → U i ∧ M i si.

Record Inv (syms : list ParsedSym) (degree queue : list nat) (U W : nat → Prop)
    (M : nat → nat → Prop) : Prop := {
  i_len : length degree = length syms;
  i_sym : ∀ si sym, syms !! si = Some sym →
    (sym_payload sym = [] ∧ degree !! si = Some 0%nat) ∨ live_ok degree U M si sym;
  i_queue : ∀ si, si ∈ queue → ∃ d, degree !! si = Some d ∧ (d ≤ 1)%nat;
  i_one : ∀ si, degree !! si = Some 1%nat → si ∈ queue;
  i_sys : ∀ i, W i → U i → ∃ si sym, syms !! si = Some sym ∧ sym_payload sym ≠ [] ∧
    size (cover sym) = 1%nat ∧ is_Some (cover sym !! i)
}.

Lemma payload_nonempty sym : sym_ok sym → sym_payload sym ≠ [].
Proof. intros (Hl & _) He. rewrite He in Hl. simpl in Hl. lia. Qed.

(** Live symbols of the code's state. *)
Lemma inv_live syms degree queue U W M si sym d :
  Inv syms degree queue U W M → syms !! si = Some sym → degree !! si = Some d → d ≠ 0%nat →
  live_ok degree U M si sym ∧ d = size (cover sym).
Proof.
  intros I Hsym Hd Hnz. destruct (i_sym _ _ _ _ _ _ I si sym Hsym) as [[_ H0]|Hl].
  - rewrite Hd in H0. injection H0 as ->. done.
  - split; [done|]. destruct Hl as (_ & Hsz & _). rewrite Hd in Hsz. by injection Hsz.
Qed.

(** The registration during a ripple: [target] only among the dependents left. *)
Definition rest_of (target : nat) (deps : list nat) (M : nat → nat → Prop) : nat → nat → Prop :=
  λ i sj, if decide (i = target) then sj ∈ deps else M i sj.

(** The number of steps left: the queue and the symbols that may still enter it. *)
Definition count2 (degree : list nat) : nat := length (filter (λ d, (2 ≤ d)%nat) degree).
Definition steps (degree queue : list nat) : nat := (length queue + count2 degree)%nat.

Lemma count2_insert degree i d d' :
  degree !! i = Some d →
  (count2 (<[i := d']> degree) + (if decide (2 ≤ d)%nat then 1 else 0)
   = count2 degree + (if decide (2 ≤ d')%nat then 1 else 0))%nat.
Proof.
  intros Hd. unfold count2. rewrite <-(take_drop_middle degree i d Hd) at 2.
  rewrite insert_take_drop by (by eapply lookup_lt_Some).
  rewrite !list.filter_app, !length_app, !list.filter_cons.
  repeat case_decide; simpl; lia.
Qed.

Definition dead (syms : list ParsedSym) (si : nat) : Prop :=
  ∀ sym, syms !! si = Some sym → sym_payload sym = [].

Lemma rest_of_tail syms degree queue U W M target sj deps :
  (∀ sym, syms !! sj = Some sym → sym_ok sym →
     degree !! sj = Some (size (cover sym)) → cover sym !! target = None) →
  Inv syms degree queue U W (rest_of target (sj :: deps) M) →
  Inv syms degree queue U W (rest_of target deps M).
Proof.
  intros Hno [Il Is Iq Io Iw]. split; try done.
  intros j sym Hj. destruct (Is j sym Hj) as [Hd|(Hok & Hdg & Hk)]; [by left|right].
  split_and!; [done|done|]. intros i Hi. destruct (Hk i Hi) as [HU HM]. split; [done|].
  unfold rest_of in *. case_decide; [|done]. subst i. apply elem_of_cons in HM as [->|HM]; [|done].
  rewrite (Hno sym Hj Hok Hdg) in Hi. by destruct Hi.
Qed.

(** A symbol of degree [d] loses the revealed [target] from its cover. *)
Lemma ripple_hit syms degree queue U W M target sj deps sym c d :
  syms !! sj = Some sym → cover sym !! target = Some c → degree !! sj = Some d → d ≠ 0%nat →
  (∀ i, W i → i ≠ target) →
  Inv syms degree queue U W (rest_of target (sj :: deps) M) →
  Inv (<[sj := mkSym (delete target (cover sym)) (axpy isa (sym_payload sym) c (source target))]> syms)
    (<[sj := (d - 1)%nat]> degree) (if (d - 1 =? 1)%nat then queue ++ [sj] else queue)
    U W (rest_of target deps M).
Proof.
  intros Hsym Hc Hd Hnz HW I.
  destruct (inv_live _ _ _ _ _ _ _ _ _ I Hsym Hd Hnz) as [(Hok & Hdg & Hk) Hsz].
  pose proof (lookup_lt_Some _ _ _ Hsym) as Hlts. pose proof (lookup_lt_Some _ _ _ Hd) as Hltd.
  assert (size (delete target (cover sym)) = (d - 1)%nat) as Hsz'.
  { rewrite map_size_delete, Hc. lia. }
  destruct I as [Il Is Iq Io Iw]. split.
  + by rewrite !length_insert.
  + intros j sym' Hj. destruct (decide (j = sj)) as [->|Hjs].
    * rewrite list_lookup_insert_eq in Hj by done. injection Hj as <-. right.
      split_and!; [by apply sym_ok_ripple|cbn [cover]; by rewrite list_lookup_insert_eq, Hsz'|].
      cbn [cover]. intros i [c' [Hi Hi']%lookup_delete_Some].
      destruct (Hk i ltac:(by eexists)) as [HU HM]. split; [done|].
      unfold rest_of in *. by rewrite decide_False in * by done.
    * rewrite list_lookup_insert_ne in Hj by done.
      destruct (Is j sym' Hj) as [[Hp Hz]|(Hok' & Hdg' & Hk')].
      -- left. by rewrite list_lookup_insert_ne.
      -- right. split_and!; [done|by rewrite list_lookup_insert_ne|].
         intros i Hi. destruct (Hk' i Hi) as [HU HM]. split; [done|].
         unfold rest_of in *. case_decide; [|done]. by apply elem_of_cons in HM as [->|].
  + intros j Hj.
    assert (j ∈ queue ∨ j = sj ∧ d = 2%nat) as Hj'.
    { destruct (Nat.eqb_spec (d - 1) 1); [|by left].
      apply elem_of_app in Hj as [Hj|Hj%list_elem_of_singleton]; [by left|right; split; [done|lia]]. }
    destruct (decide (j = sj)) as [->|Hjs].
    * rewrite list_lookup_insert_eq by done. eexists. split; [done|].
      destruct Hj' as [Hq|[_ ->]]; [|lia].
      destruct (Iq sj Hq) as (d0 & Hd0 & Hle). rewrite Hd in Hd0. injection Hd0 as ->. lia.
    * rewrite list_lookup_insert_ne by done. destruct Hj' as [Hq|[-> _]]; [by apply Iq|done].
  + intros j Hj. destruct (decide (j = sj)) as [->|Hjs].
    * rewrite list_lookup_insert_eq in Hj by done. injection Hj as Hj. rewrite Hj. simpl.
      apply elem_of_app. right. by apply list_elem_of_singleton.
    * rewrite list_lookup_insert_ne in Hj by done. apply Io in Hj.
      case_match; [apply elem_of_app; by left|done].
  + intros i Wi Ui. destruct (Iw i Wi Ui) as (j & sym' & Hj & Hp & H1 & Hi).
    destruct (decide (j = sj)) as [->|Hjs].
    * exfalso. rewrite Hsym in Hj. injection Hj as <-.
      assert (size (delete target (cover sym)) = 0%nat) as H0 by (rewrite map_size_delete, Hc; lia).
      apply map_size_empty_inv in H0. destruct Hi as [c' Hi].
      assert (delete target (cover sym) !! i = Some c') as Hx.
      { rewrite lookup_delete_ne by (intros ->; by apply (HW _ Wi)). done. }
      by rewrite H0, lookup_empty in Hx.
    * exists j, sym'. by rewrite list_lookup_insert_ne.
Qed.

Lemma ripple1_inv syms degree queue U W M si target sj deps :
  dead syms si →
  (∀ i, W i → i ≠ target) →
  Inv syms degree queue U W (rest_of target (sj :: deps) M) →
  let '(syms', degree', queue') :=
    ripple1 isa si target (source target) (syms, degree, queue) sj in
  Inv syms' degree' queue' U W (rest_of target deps M) ∧ dead syms' si ∧
  (steps degree' queue' ≤ steps degree queue)%nat.
Proof.
  intros Hdead HW I. unfold ripple1.
  destruct (Nat.eqb_spec sj si) as [->|Hne]; cbn [orb].
  { split_and!; [|done|done]. eapply rest_of_tail; [|exact I].
    intros sym Hsym Hok _. destruct (payload_nonempty _ Hok (Hdead _ Hsym)). }
  destruct (Nat.eqb_spec (default 0%nat (degree !! sj)) 0) as [Hz|Hnz].
  { split_and!; [|done|done]. eapply rest_of_tail; [|exact I].
    intros sym _ _ Hdg. rewrite Hdg in Hz. simpl in Hz. apply map_size_empty_inv in Hz as ->.
    apply lookup_empty. }
  destruct (syms !! sj) as [sym|] eqn:Hsym.
  2:{ split_and!; [|done|done]. eapply rest_of_tail; [|exact I]. intros sym Hs'. by rewrite Hsym in Hs'. }
  destruct (cover sym !! target) as [c|] eqn:Hc.
  2:{ split_and!; [|done|done]. eapply rest_of_tail; [|exact I].
      intros sym' Hs' _ _. rewrite Hsym in Hs'. by injection Hs' as <-. }
  destruct (degree !! sj) as [d|] eqn:Hd; [|done]. cbn [default from_option] in *. unfold id in *.
  split_and!.
  - by apply (ripple_hit _ _ _ _ _ _ _ _ _ sym c d).
  - intros sym' Hs'. rewrite list_lookup_insert_ne in Hs' by done. by apply Hdead.
  - unfold steps. pose proof (count2_insert degree sj d (d - 1)%nat Hd) as Hct.
    destruct (Nat.eqb_spec (d - 1) 1); rewrite ?length_app; simpl;
      repeat case_decide; lia.
Qed.

#[local] Arguments ripple1 : simpl never.

Lemma ripple_inv syms degree queue U W M si target deps :
  dead syms si →
  (∀ i, W i → i ≠ target) →
  Inv syms degree queue U W (rest_of target deps M) →
  let '(syms', degree', queue') :=
    foldl (ripple1 isa si target (source target)) (syms, degree, queue) deps in
  Inv syms' degree' queue' U W (rest_of target [] M) ∧ dead syms' si ∧
  (steps degree' queue' ≤ steps degree queue)%nat.
Proof.
  intros Hdead HW. revert syms degree queue Hdead.
  induction deps as [|sj deps IH]; intros syms degree queue Hdead I; simpl; [done|].
  pose proof (ripple1_inv _ _ _ _ _ _ si target sj deps Hdead HW I) as H1.
  destruct (ripple1 isa si target (source target) (syms, degree, queue) sj)
    as [[syms1 degree1] queue1]. destruct H1 as (I1 & Hd1 & Hs1).
  specialize (IH syms1 degree1 queue1 Hd1 I1).
  destruct (foldl _ _ deps) as [[syms2 degree2] queue2]. destruct IH as (I2 & Hd2 & Hs2).
  split_and!; [done|done|lia].
Qed.

(** ** The loop *)

Definition unrevealed (st : Peel) (i : nat) : Prop := p_revealed st !! i = Some None.
Definition registered (st : Peel) (i si : nat) : Prop := ∃ l, p_covers st !! i = Some l ∧ si ∈ l.

Record PInv (W : nat → Prop) (st : Peel) : Prop := {
  pi_inv : Inv (p_syms st) (p_degree st) (p_queue st) (unrevealed st) W (registered st);
  pi_len : length (p_revealed st) = length xs;
  pi_cov : length (p_covers st) = length xs;
  pi_val : ∀ i x, p_revealed st !! i = Some (Some x) → x = source i
}.

Lemma unrevealed_entry_Some rv m t c :
  unrevealed_entry rv m = Some (t, c) → m !! t = Some c ∧ rv !! t = Some None.
Proof.
  unfold unrevealed_entry. destruct (list_find _ _) as [[n [t' c']]|] eqn:Hf; [|done].
  simpl. intros [= -> ->]. apply list_find_Some in Hf as (Hl & Hp & _).
  split; [|done]. apply elem_of_map_to_list. by eapply list_elem_of_lookup_2.
Qed.

Lemma unrevealed_entry_None rv m i c :
  unrevealed_entry rv m = None → m !! i = Some c → rv !! i ≠ Some None.
Proof.
  unfold unrevealed_entry. destruct (list_find _ _) eqn:Hf; [done|]. intros _ Hi.
  apply list_find_None in Hf. apply (proj1 (Forall_elem _ _) Hf (i, c)).
  by apply elem_of_map_to_list.
Qed.

(** Popping a symbol of degree 0. *)
Lemma pop_skip syms degree si queue U W M :
  degree !! si = Some 0%nat →
  Inv syms degree (si :: queue) U W M → Inv syms degree queue U W M.
Proof.
  intros Hd [Il Is Iq Io Iw]. split; try done.
  - intros j Hj. apply Iq. by right.
  - intros j Hj. apply Io in Hj as Hq. apply elem_of_cons in Hq as [->|]; [|done].
    rewrite Hd in Hj. done.
Qed.

(** Consuming a symbol of degree 1 that covers [target]. *)
Lemma consume_inv syms degree si queue U W (covers : list (list nat)) sym target c :
  let M := λ i j : nat, ∃ l, covers !! i = Some l ∧ j ∈ l in
  degree !! si = Some 1%nat → syms !! si = Some sym → cover sym !! target = Some c →
  Inv syms degree (si :: queue) U W M →
  Inv (<[si := mkSym (cover sym) []]> syms) (<[si := 0%nat]> degree) queue U
    (λ i, W i ∧ i ≠ target) (rest_of target (default [] (covers !! target)) M).
Proof.
  intros M Hd Hsym Hc I.
  destruct (inv_live _ _ _ _ _ _ _ _ _ I Hsym Hd ltac:(done)) as [_ Hsz].
  pose proof (lookup_lt_Some _ _ _ Hsym) as Hlts. pose proof (lookup_lt_Some _ _ _ Hd) as Hltd.
  destruct I as [Il Is Iq Io Iw]. split.
  - by rewrite !length_insert.
  - intros j sym' Hj. destruct (decide (j = si)) as [->|Hne].
    + rewrite list_lookup_insert_eq in Hj by done. injection Hj as <-. left.
      split; [done|]. by rewrite list_lookup_insert_eq.
    + rewrite list_lookup_insert_ne in Hj by done.
      destruct (Is j sym' Hj) as [[Hp Hz]|(Hok & Hdg & Hk)].
      * left. by rewrite list_lookup_insert_ne.
      * right. split_and!; [done|by rewrite list_lookup_insert_ne|].
        intros i Hi. destruct (Hk i Hi) as [HU HM]. split; [done|].
        unfold rest_of. case_decide; [|done]. subst i. destruct HM as (l & -> & Hl). done.
  - intros j Hj. destruct (decide (j = si)) as [->|Hne].
    + exists 0%nat. rewrite list_lookup_insert_eq by done. split; [done|lia].
    + rewrite list_lookup_insert_ne by done. apply Iq. by right.
  - intros j Hj. destruct (decide (j = si)) as [->|Hne].
    + by rewrite list_lookup_insert_eq in Hj.
    + rewrite list_lookup_insert_ne in Hj by done. apply Io, elem_of_cons in Hj as [->|]; done.
  - intros i [Wi Hit] Ui. destruct (Iw i Wi Ui) as (j & sym' & Hj & Hp & H1 & Hi).
    exists j, sym'. split_and!; [|done..]. rewrite list_lookup_insert_ne; [done|]. intros ->.
    rewrite Hsym in Hj. injection Hj as <-.
    assert (size (delete target (cover sym)) = 0%nat) as H0 by (rewrite map_size_delete, Hc; lia).
    apply map_size_empty_inv in H0. destruct Hi as [c' Hi].
    assert (delete target (cover sym) !! i = Some c') as Hx by (by rewrite lookup_delete_ne).
    by rewrite H0, lookup_empty in Hx.
Qed.

(** Publishing [target]. *)
Lemma publish_inv syms degree queue W (rv : list (option bytes)) (covers : list (list nat)) target x :
  Inv syms degree queue (λ i : nat, rv !! i = Some None) (λ i, W i ∧ i ≠ target)
    (rest_of target [] (λ i j : nat, ∃ l, covers !! i = Some l ∧ j ∈ l)) →
  Inv syms degree queue (λ i : nat, <[target := Some x]> rv !! i = Some None) W
    (λ i j : nat, ∃ l, <[target := []]> covers !! i = Some l ∧ j ∈ l).
Proof.
  intros [Il Is Iq Io Iw]. split; try done.
  - intros j sym Hj. destruct (Is j sym Hj) as [Hd|(Hok & Hdg & Hk)]; [by left|right].
    split_and!; [done..|]. intros i Hi. destruct (Hk i Hi) as [HU HM].
    unfold rest_of in HM. case_decide; [by apply not_elem_of_nil in HM|].
    by rewrite !list_lookup_insert_ne.
  - intros i Wi Ui. destruct (decide (i = target)) as [->|Hne].
    + exfalso. destruct (decide (target < length rv)%nat).
      * by rewrite list_lookup_insert_eq in Ui.
      * rewrite lookup_ge_None_2 in Ui; [done|]. rewrite length_insert. lia.
    + rewrite list_lookup_insert_ne in Ui by done. by apply Iw.
Qed.

Lemma peel_loop_inv fuel W st :
  PInv W st → (steps (p_degree st) (p_queue st) ≤ fuel)%nat →
  PInv W (peel_loop fuel isa st) ∧ p_queue (peel_loop fuel isa st) = [].
Proof.
  revert st. induction fuel as [|fuel IH]; intros st P Hf.
  { simpl. split; [done|]. unfold steps in Hf. destruct (p_queue st) eqn:E; [done|].
    simpl in Hf. lia. }
  cbn [peel_loop]. destruct (p_queue st) as [|si queue] eqn:Hq; [done|].
  destruct P as [I Hrl Hcl Hv]. rewrite Hq in I.
  destruct (i_queue _ _ _ _ _ _ I si) as (d & Hd & Hle); [left|].
  rewrite Hd. cbn [default from_option]. unfold id.
  unfold steps in Hf. cbn [length Nat.add] in Hf.
  destruct (Nat.eqb_spec d 0) as [->|Hnz].
  { apply IH; [|unfold steps; cbn [p_degree p_queue]; lia]. split; cbn; try done. by eapply pop_skip. }
  assert (d = 1%nat) as -> by lia.
  pose proof (lookup_lt_Some _ _ _ Hd) as Hlt. rewrite (i_len _ _ _ _ _ _ I) in Hlt.
  destruct (lookup_lt_is_Some_2 _ _ Hlt) as [sym Hsym]. rewrite Hsym.
  destruct (inv_live _ _ _ _ _ _ _ _ _ I Hsym Hd ltac:(done)) as [(Hok & Hdg & Hk) Hsz].
  destruct (unrevealed_entry (p_revealed st) (cover sym)) as [[target c]|] eqn:Hu.
  2:{ exfalso. assert (cover sym ≠ ∅) as Hne by (intros E; by rewrite E, map_size_empty in Hsz).
      apply map_choose in Hne as (i & c & Hi).
      apply (unrevealed_entry_None _ _ i c Hu Hi). by apply (Hk i); eexists. }
  apply unrevealed_entry_Some in Hu as [Hc HU].
  rewrite (sym_ok_reveal sym target c) by done.
  pose proof (consume_inv _ _ _ _ _ _ _ _ _ _ Hd Hsym Hc I) as I1.
  assert (dead (<[si := mkSym (cover sym) []]> (p_syms st)) si) as Hdead.
  { intros sym' Hs'. rewrite list_lookup_insert_eq in Hs' by done. by injection Hs' as <-. }
  pose proof (ripple_inv _ _ _ _ _ _ si target _ Hdead (λ i H, proj2 H) I1) as H2.
  destruct (foldl _ _ _) as [[syms2 degree2] queue2]. destruct H2 as (I2 & _ & Hs2).
  apply IH.
  - split; cbn.
    + by apply publish_inv.
    + by rewrite length_insert.
    + by rewrite length_insert.
    + intros i x. destruct (decide (i = target)) as [->|Hne].
      * rewrite list_lookup_insert_eq by (by eapply lookup_lt_Some). congruence.
      * rewrite list_lookup_insert_ne by done. apply Hv.
  - cbn [p_degree p_queue]. etrans; [exact Hs2|]. unfold steps.
    pose proof (count2_insert _ si 1 0 Hd) as Hct. repeat case_decide; lia.
Qed.

(** ** The initial state *)

Definition reg (covers : list (list nat)) (i si : nat) : Prop :=
  ∃ l, covers !! i = Some l ∧ si ∈ l.

Lemma register_all covers si idxs :
  let covers' := foldl (λ cv idx, alter (λ l, l ++ [si]) idx cv) covers idxs in
  length covers' = length covers ∧
  (∀ i sj, reg covers i sj → reg covers' i sj) ∧
  (∀ i, i ∈ idxs → (i < length covers)%nat → reg covers' i si).
Proof.
  revert covers. induction idxs as [|x idxs IH]; intros covers; cbn zeta; cbn [foldl].
  { split_and!; [done|done|]. by intros i ?%not_elem_of_nil. }
  destruct (IH (alter (λ l, l ++ [si]) x covers)) as (Hl & Hm & Hr). rewrite length_alter in *.
  assert (∀ i sj, reg covers i sj → reg (alter (λ l, l ++ [si]) x covers) i sj) as Hm1.
  { intros i sj (l & Hi & Hin). destruct (decide (i = x)) as [->|Hne].
    - exists (l ++ [si]). rewrite list_lookup_alter_eq, Hi. split; [done|]. apply elem_of_app. by left.
    - exists l. by rewrite list_lookup_alter_ne. }
  split_and!; [done|auto|].
  intros i [->|Hi]%elem_of_cons Hlt; [|by apply Hr]. apply Hm.
  destruct (lookup_lt_is_Some_2 _ _ Hlt) as [l Hx]. exists (l ++ [si]).
  rewrite list_lookup_alter_eq, Hx. split; [done|]. apply elem_of_app. right. by left.
Qed.

Lemma build_covers_spec syms k :
  length (build_covers syms k) = k ∧
  ∀ si sym i, syms !! si = Some sym → is_Some (cover sym !! i) → (i < k)%nat →
    reg (build_covers syms k) i si.
Proof.
  unfold build_covers.
  assert (∀ l covers,
    let covers' := foldl (λ covers ss,
      foldl (λ covers idx, alter (λ l, l ++ [ss.1]) idx covers) covers
        (map_to_list (cover ss.2)).*1) covers l in
    length covers' = length covers ∧
    (∀ i sj, reg covers i sj → reg covers' i sj) ∧
    (∀ si sym i, (si, sym) ∈ l → is_Some (cover sym !! i) → (i < length covers)%nat →
       reg covers' i si)) as Hgen.
  { induction l as [|[sj sym0] l IH]; intros covers; cbn zeta; cbn [foldl fst snd].
    { split_and!; [done|done|]. by intros ? ? ? ?%not_elem_of_nil. }
    destruct (register_all covers sj (map_to_list (cover sym0)).*1) as (Hl1 & Hm1 & Hr1).
    destruct (IH (foldl (λ cv idx, alter (λ l, l ++ [sj]) idx cv) covers
                   (map_to_list (cover sym0)).*1)) as (Hl & Hm & Hr).
    rewrite Hl1 in *. split_and!; [done|auto|].
    intros si sym i [[= -> ->]|Hin]%elem_of_cons Hi Hlt; [|by eapply Hr].
    apply Hm, Hr1; [|done]. destruct Hi as [c Hc]. apply list_elem_of_fmap. exists (i, c).
    split; [done|]. by apply elem_of_map_to_list. }
  destruct (Hgen (zip (seq 0 (length syms)) syms) (replicate k [])) as (Hl & _ & Hr).
  rewrite length_replicate in *. split; [done|]. intros si sym i Hsi Hi Hlt.
  eapply Hr; [|done|done]. apply list_elem_of_lookup. exists si.
  rewrite lookup_zip_with, Hsi. rewrite lookup_seq_lt by (by eapply lookup_lt_Some). done.
Qed.

Lemma filter_ext_elem {A} (P Q : A → Prop) `{∀ x, Decision (P x), ∀ x, Decision (Q x)} (l : list A) :
  (∀ x, x ∈ l → P x ↔ Q x) → filter P l = filter Q l.
Proof.
  induction l as [|x l IH]; intros Hpq; [done|]. rewrite !list.filter_cons.
  rewrite IH by (intros y Hy; apply Hpq; by right).
  destruct (Hpq x) as [H1 H2]; [left|]. by repeat case_decide; try tauto.
Qed.

Lemma initial_steps degree :
  (steps degree (filter (λ si, degree !! si = Some 1%nat) (seq 0 (length degree)))
   ≤ length degree)%nat.
Proof.
  unfold steps. induction degree as [|d degree IH] using rev_ind; [done|].
  unfold count2 in *. rewrite length_app, seq_app, !list.filter_app, !length_app. simpl length.
  rewrite (filter_ext_elem _ (λ si, degree !! si = Some 1%nat)).
  - rewrite !list.filter_cons. rewrite lookup_app_r, Nat.sub_diag by lia. simpl.
    repeat case_decide; simplify_eq; simpl; lia.
  - intros si Hsi%elem_of_seq. rewrite lookup_app_l by lia. done.
Qed.

Lemma peel_init_inv syms W :
  Forall sym_ok syms →
  (∀ i, W i → ∃ si sym, syms !! si = Some sym ∧ size (cover sym) = 1%nat ∧ is_Some (cover sym !! i)) →
  PInv W (peel_init syms (length xs)).
Proof.
  intros Hsyms HW. destruct (build_covers_spec syms (length xs)) as [Hl Hr].
  assert (∀ si, ((λ sym, size (cover sym)) <$> syms) !! si = Some 1%nat → (si < length syms)%nat) as Hb.
  { intros si Hsi. apply lookup_lt_Some in Hsi. by rewrite length_fmap in Hsi. }
  split; cbn; [split|by rewrite length_replicate|done|].
  - by rewrite length_fmap.
  - intros si sym Hsi. right. pose proof (Forall_lookup_1 _ _ _ _ Hsyms Hsi) as Hok.
    split_and!; [done|by rewrite list_lookup_fmap, Hsi|].
    intros i [c Hi]. destruct Hok as (_ & Hk & _). destruct (Hk i c Hi) as [Hlt _].
    split; [by apply lookup_replicate|]. apply (Hr si sym); [done|by eexists|done].
  - intros si [Hd _]%list_elem_of_filter. exists 1%nat. split; [done|lia].
  - intros si Hd. apply list_elem_of_filter. split; [done|]. apply elem_of_seq.
    pose proof (Hb si Hd). lia.
  - intros i Wi _. destruct (HW i Wi) as (si & sym & Hsi & H1 & Hi). exists si, sym.
    split_and!; [done| |done|done]. apply payload_nonempty. by eapply Forall_lookup_1.
  - intros i x Hx. apply lookup_replicate in Hx as [? _]. done.
Qed.

(** ** The residual system *)

Lemma col_of_lookup unknowns u : u ∈ unknowns → unknowns !! col_of unknowns u = Some u.
Proof.
  intros Hu. unfold col_of. destruct (list_find (λ v, v = u) unknowns) as [[n v]|] eqn:Hf.
  - apply list_find_Some in Hf as (Hl & -> & _). done.
  - apply list_find_None in Hf. by destruct (proj1 (Forall_elem _ _) Hf u Hu).
Qed.

Lemma dotp_alter n c row v : (n < length row)%nat → length row = length v →
  dotp (alter (byte.xor c) n row) v = gf_mul c (cell v n) ⊕ dotp row v.
Proof.
  revert n v. induction row as [|r row IH]; intros n [|b v] Hn Hl; simpl in *; try lia.
  destruct n as [|n]; simpl.
  - rewrite gf_mul_xor_l, xor_assoc. reflexivity.
  - change ((r :: row) !! S n) with (row !! n). cbn [alter list_alter dotp].
    change (list_alter (byte.xor c) n row) with (alter (byte.xor c) n row).
    rewrite IH by lia. rewrite <-!xor_assoc, (xor_comm (gf_mul r b)). reflexivity.
Qed.

(** Scattering the entries of a cover over the columns of the unknowns. *)
Lemma scatter_dotp unknowns v l row :
  Forall (λ ic : nat * byte, ic.1 ∈ unknowns) l →
  length row = length unknowns → length v = length unknowns →
  let row' := foldl (λ row ic, alter (byte.xor ic.2) (col_of unknowns ic.1) row) row l in
  length row' = length unknowns ∧
  dotp row' v = foldr (λ ic acc, gf_mul ic.2 (cell v (col_of unknowns ic.1)) ⊕ acc) (dotp row v) l.
Proof.
  intros Hl. revert row. induction Hl as [|[i c] l Hi _ IH]; intros row Hr Hv; cbn zeta; [done|].
  cbn [foldl foldr fst snd] in *.
  destruct (IH (alter (byte.xor c) (col_of unknowns i) row)) as [H1 H2];
    [by rewrite length_alter|done|]. split; [done|]. rewrite H2.
  rewrite dotp_alter; [|rewrite Hr; eapply lookup_lt_Some; by apply col_of_lookup|congruence].
  clear. induction l as [|[i' c'] l IH]; cbn [foldr fst snd]; [done|].
  rewrite IH. rewrite <-!xor_assoc, (xor_comm (gf_mul c' _)). reflexivity.
Qed.

Lemma dotp_zeros n v : dotp (replicate n Byte.x00) v = Byte.x00.
Proof.
  revert v. induction n as [|n IH]; intros [|b v]; cbn [replicate dotp]; try reflexivity.
  rewrite gf_mul_0_l, IH. apply xor_0_l.
Qed.

Lemma comb_list m j :
  comb m j = foldr (λ ic acc, gf_mul ic.2 (cell (source ic.1) j) ⊕ acc) Byte.x00 (map_to_list m).
Proof.
  unfold comb. rewrite map_fold_foldr. induction (map_to_list m) as [|[i c] l IH]; simpl; [done|].
  by rewrite IH.
Qed.

Lemma filter_all {A} (P : A → Prop) `{∀ x, Decision (P x)} (l : list A) :
  Forall P l → filter P l = l.
Proof. induction 1 as [|x l Hx _ IH]; [done|]. by rewrite list.filter_cons_True, IH. Qed.

(** The row of a live symbol holds of the sources still unknown. *)
Lemma residual_row_ok rv unknowns sym :
  (∀ i, i ∈ unknowns ↔ rv !! i = Some None) →
  (sym_payload sym = [] ∨ sym_ok sym ∧ ∀ i, is_Some (cover sym !! i) → rv !! i = Some None) →
  ∃ o, residual_row rv unknowns s sym = Ok o ∧
    ∀ row, o = Some row → satisfied (source <$> unknowns) s row.
Proof.
  intros Hun [Hp|[(Hl & Hk & Hp) Hrv]]; unfold residual_row.
  { rewrite Hp. by exists None. }
  destruct (Nat.eqb_spec (length (sym_payload sym)) 0); [lia|].
  assert (Forall (λ ic, rv !! ic.1 = Some None) (map_to_list (cover sym))) as Hall.
  { apply Forall_elem. intros [i c] Hic%elem_of_map_to_list. apply Hrv. by eexists. }
  rewrite filter_all by done.
  destruct (map_to_list (cover sym)) as [|ic l] eqn:Hml; [by exists None|]. rewrite <-Hml in *.
  rewrite Hl, Nat.eqb_refl. eexists. split; [done|]. intros row [= <-].
  assert (Forall (λ ic : nat * byte, ic.1 ∈ unknowns) (map_to_list (cover sym))) as Hall'.
  { eapply Forall_impl; [|exact Hall]. intros ic'. apply Hun. }
  set (coeffs := foldl _ _ _).
  assert (∀ v, length v = length unknowns → length coeffs = length unknowns ∧
    dotp coeffs v = foldr (λ ic acc, gf_mul ic.2 (cell v (col_of unknowns ic.1)) ⊕ acc) Byte.x00
      (map_to_list (cover sym))) as Hsc.
  { intros v Hv. destruct (scatter_dotp unknowns v _ (replicate (length unknowns) Byte.x00) Hall')
      as [H1 H2]; [apply length_replicate|done|]. by rewrite dotp_zeros in H2. }
  assert (length coeffs = length unknowns) as Hlc.
  { apply (Hsc (replicate (length unknowns) Byte.x00)). apply length_replicate. }
  split; rewrite length_fmap; [by rewrite length_app, Hlc, Hl|].
  intros j Hj. rewrite take_app_length' by done.
  rewrite (proj2 (Hsc (column (source <$> unknowns) j) ltac:(unfold column; by rewrite !length_fmap))).
  unfold cell at 2. rewrite lookup_app_r by lia. rewrite Hlc, Nat.add_comm, Nat.add_sub.
  change (default Byte.x00 (sym_payload sym !! j)) with (cell (sym_payload sym) j).
  rewrite Hp, comb_list by done. clear -Hall'.
  induction Hall' as [|[i c] l' Hi _ IH]; cbn [foldr fst snd]; [done|]. rewrite IH.
  rewrite (cell_column _ j _ (source i)); [done|].
  by rewrite list_lookup_fmap, col_of_lookup.
Qed.

Lemma residual_rows_ok rv unknowns syms :
  (∀ i, i ∈ unknowns ↔ rv !! i = Some None) →
  Forall (λ sym, sym_payload sym = [] ∨
    sym_ok sym ∧ ∀ i, is_Some (cover sym !! i) → rv !! i = Some None) syms →
  ∃ rows, residual_rows rv unknowns s syms = Ok rows ∧
    Forall (satisfied (source <$> unknowns) s) rows.
Proof.
  intros Hun. induction 1 as [|sym syms Hsym _ IH]; simpl; [by exists []|].
  destruct (residual_row_ok rv unknowns sym Hun Hsym) as (o & -> & Ho).
  destruct IH as (rows & -> & Hrows). simpl. destruct o as [row|]; eexists; (split; [done|]); [|done].
  constructor; [by apply Ho|done].
Qed.

(** ** The result *)

Definition values_ok (rv : list (option bytes)) : Prop :=
  length rv = length xs ∧ ∀ i x, rv !! i = Some (Some x) → x = source i.

Lemma elem_of_unknowns rv i : i ∈ unknowns_of rv ↔ rv !! i = Some None.
Proof.
  unfold unknowns_of. rewrite list_elem_of_filter, elem_of_seq. split; [by intros [? _]|].
  intros Hi. split; [done|]. apply lookup_lt_Some in Hi. lia.
Qed.

Lemma collect_all rv : values_ok rv → None ∉ rv → collect_revealed rv = xs.
Proof.
  intros [Hl Hv] Hn. apply list_eq. intros i. unfold collect_revealed. rewrite list_lookup_fmap.
  destruct (rv !! i) as [o|] eqn:Hi.
  - destruct o as [x|]; [|by apply list_elem_of_lookup_2 in Hi].
    simpl. rewrite (Hv i x Hi). apply lookup_lt_Some in Hi. rewrite Hl in Hi.
    by destruct (source_lookup i Hi) as [-> _].
  - simpl. apply lookup_ge_None in Hi. rewrite Hl in Hi. symmetry. by apply lookup_ge_None.
Qed.

Lemma first_nonzero_spec row r :
  (r ≤ length row)%nat → (first_nonzero row r < r)%nat → cell row (first_nonzero row r) ≠ Byte.x00.
Proof.
  revert row. induction r as [|r IH]; intros row Hr; [simpl; lia|].
  destruct row as [|b row]; [simpl in Hr; lia|]. cbn [first_nonzero]. simpl in Hr.
  destruct (Byte.eqb b Byte.x00) eqn:Eb.
  - intros Hlt. apply (IH row); lia.
  - cbn. intros _ Hz. subst b. discriminate Eb.
Qed.

Lemma reveal_rows_ok unknowns rows rv :
  Forall (λ i, (i < length xs)%nat) unknowns →
  (∀ n row, rows !! n = Some row →
     length row = (length unknowns + s)%nat ∧ ∃ i,
     (∀ u, unknowns !! i = Some u → drop (length unknowns) row = source u) ∧
     ∀ j, (j < length unknowns)%nat → cell row j = if (i =? j)%nat then Byte.x01 else Byte.x00) →
  values_ok rv → values_ok (foldl (reveal_row (length unknowns) s unknowns) rv rows).
Proof.
  intros Hun. revert rv. induction rows as [|row rows IH]; intros rv Hrows Hv; [done|].
  cbn [foldl]. apply IH; [intros n row' Hn; by apply (Hrows (S n))|].
  destruct (Hrows 0%nat row eq_refl) as (Hlen & i & Hsol & Hcell).
  unfold reveal_row. destruct (Nat.ltb_spec (first_nonzero row (length unknowns)) (length unknowns))
    as [Hlt|]; [|done].
  pose proof (first_nonzero_spec row (length unknowns) ltac:(lia) Hlt) as Hnz.
  rewrite Hcell in Hnz by done.
  destruct (Nat.eqb_spec i (first_nonzero row (length unknowns))) as [Heq|]; [|done].
  rewrite <-Heq in *. destruct (lookup_lt_is_Some_2 _ _ Hlt) as [u Hu]. rewrite Hu.
  cbn [default from_option]. unfold id. rewrite (Hsol u Hu).
  pose proof (Forall_lookup_1 _ _ _ _ Hun Hu) as Hub. simpl in Hub.
  destruct (source_lookup u Hub) as [_ Hsl]. rewrite take_ge by lia.
  destruct Hv as [Hl Hv]. split; [by rewrite length_insert|]. intros i' x.
  destruct (decide (i' = u)) as [->|Hne].
  - rewrite list_lookup_insert_eq by lia. congruence.
  - rewrite list_lookup_insert_ne by done. apply Hv.
Qed.

Definition underdetermined (r : outcome FountainError (list bytes)) : Prop :=
  ∃ have need, r = Err (FUnderdetermined have need).

Lemma finish_sound syms rv :
  values_ok rv →
  Forall (λ sym, sym_payload sym = [] ∨
    sym_ok sym ∧ ∀ i, is_Some (cover sym !! i) → rv !! i = Some None) syms →
  finish isa (length xs) s syms rv = Ok xs ∨ underdetermined (finish isa (length xs) s syms rv).
Proof.
  intros Hv Hsyms. unfold finish.
  destruct (unknowns_of rv) as [|u0 us] eqn:Hu.
  { left. f_equal. apply collect_all; [done|]. intros [i Hi]%list_elem_of_lookup.
    apply elem_of_unknowns in Hi. rewrite Hu in Hi. by apply not_elem_of_nil in Hi. }
  rewrite <-Hu. set (un := unknowns_of rv) in *.
  assert (0 < length un)%nat as Hpos by (rewrite Hu; simpl; lia).
  assert (Forall (λ i, (i < length xs)%nat) un) as Hub.
  { apply Forall_elem. intros i Hi%elem_of_unknowns%lookup_lt_Some. destruct Hv as [<- _]. done. }
  assert (Forall (λ x, length x = s) (source <$> un)) as Hys.
  { apply Forall_fmap. eapply Forall_impl; [|exact Hub]. intros i Hi. by apply source_lookup. }
  destruct (residual_rows_ok rv un syms (elem_of_unknowns rv) Hsyms) as (rows & -> & Hrows).
  cbn [obind]. destruct (gf_gauss_eliminate _ _ _ _) as [mat rk] eqn:Hg.
  destruct (Nat.ltb_spec rk (length un)) as [Hlt|Hge]; [right; by eexists _, _|].
  assert (Forall (λ row, length row = (length un + s)%nat) rows) as Hlen.
  { eapply Forall_impl; [|exact Hrows]. intros row [Hr _]. by rewrite length_fmap in Hr. }
  assert (rk ≤ length un)%nat as Hle.
  { rewrite gauss_eliminate_rows in Hg by (done || lia). injection Hg as _ <-.
    etrans; [apply gauss_loop_rank|]. rewrite length_seq. lia. }
  rewrite <-(length_fmap source un) in Hg.
  destruct (gauss_solves isa (source <$> un) s rows mat rk) as (rows' & -> & Hsat & Hsol);
    [by rewrite length_fmap|done|done|done|rewrite length_fmap; lia|].
  rewrite !length_fmap in *.
  assert (Forall (λ row, length row = (length un + s)%nat) rows') as Hlen'.
  { eapply Forall_impl; [|exact Hsat]. intros row [Hr _]. by rewrite length_fmap in Hr. }
  rewrite (length_concat_const rows' _ Hlen'), Nat.div_mul by lia.
  rewrite <-(app_nil_r (concat rows')), chunks_concat by done.
  case_bool_decide as Hnone; [right; by eexists _, _|left]. f_equal.
  apply collect_all; [|done]. apply reveal_rows_ok; [done| |done].
  intros n row Hn. split; [by eapply Forall_lookup_1 in Hlen'|]. exists n.
  destruct (Hsol n row Hn) as [H1 H2]. split; [|done].
  intros u Hun. apply H1. by rewrite list_lookup_fmap, Hun.
Qed.

Lemma live_after W st :
  PInv W st → Forall (λ sym, sym_payload sym = [] ∨
    sym_ok sym ∧ ∀ i, is_Some (cover sym !! i) → p_revealed st !! i = Some None) (p_syms st).
Proof.
  intros [I _ _ _]. apply Forall_lookup_2. intros si sym Hsi.
  destruct (i_sym _ _ _ _ _ _ I si sym Hsi) as [[? _]|(Hok & _ & Hk)]; [by left|right].
  split; [done|]. intros i Hi. by apply Hk.
Qed.

(** Peeling honest symbols gives the sources, or asks for more. *)
Lemma peel_sound syms :
  Forall sym_ok syms →
  (peel_symbols isa syms (length xs) s).2 = Ok xs ∨
  underdetermined (peel_symbols isa syms (length xs) s).2.
Proof.
  intros Hsyms. unfold peel_symbols. cbn [snd].
  destruct (peel_loop_inv (length syms) (λ _, False) (peel_init syms (length xs))) as [P _].
  - apply peel_init_inv; [done|]. by intros i [].
  - cbn. rewrite <-(length_fmap (λ sym, size (cover sym)) syms) at 2. etrans; [|apply initial_steps].
    by rewrite length_fmap.
  - apply finish_sound; [|by eapply live_after]. split; apply P.
Qed.

(** With every systematic symbol present, peeling alone gives the sources. *)
Lemma peel_systematic syms :
  Forall sym_ok syms →
  (∀ i, (i < length xs)%nat → ∃ si sym, syms !! si = Some sym ∧ size (cover sym) = 1%nat ∧
     is_Some (cover sym !! i)) →
  (peel_symbols isa syms (length xs) s).2 = Ok xs.
Proof.
  intros Hsyms HW. unfold peel_symbols. cbn [snd].
  destruct (peel_loop_inv (length syms) (λ i, (i < length xs)%nat) (peel_init syms (length xs)))
    as [P Hq].
  - by apply peel_init_inv.
  - cbn. rewrite <-(length_fmap (λ sym, size (cover sym)) syms) at 2. etrans; [|apply initial_steps].
    by rewrite length_fmap.
  - set (st := peel_loop _ _ _) in *. destruct P as [I Hl Hc Hv].
    assert (∀ i, p_revealed st !! i ≠ Some None) as Hall.
    { intros i Hi. assert (i < length xs)%nat as Hlt by (rewrite <-Hl; by eapply lookup_lt_Some).
      destruct (i_sys _ _ _ _ _ _ I i Hlt Hi) as (si & sym & Hsi & Hp & H1 & _).
      destruct (i_sym _ _ _ _ _ _ I si sym Hsi) as [[? _]|(_ & Hd & _)]; [done|].
      rewrite H1 in Hd. apply (i_one _ _ _ _ _ _ I) in Hd. rewrite Hq in Hd.
      by apply not_elem_of_nil in Hd. }
    unfold finish. destruct (unknowns_of (p_revealed st)) as [|u us] eqn:Hu.
    + f_equal. apply collect_all; [by split|]. intros [i Hi]%list_elem_of_lookup. by apply (Hall i).
    + exfalso. apply (Hall u). apply elem_of_unknowns. rewrite Hu. by left.
Qed.
End Peeling.

(** ** The wire *)

(** Coded symbols of a generation: a list of (index, coefficient) entries and
    the combination of the sources they describe. *)
Definition cover_of (entries : list (nat * byte)) : gmap nat byte :=
  foldl (λ m ic, <[ic.1 := ic.2]> m) ∅ entries.

Definition entry_bytes (ic : nat * byte) : bytes := to_le 2 (Z.of_nat ic.1) ++ [ic.2].

Definition wire_of (entries : list (nat * byte)) (p : bytes) : bytes :=
  to_le 2 (zlen entries) ++ concat (entry_bytes <$> entries) ++ p.

Definition entry_ok (k : nat) (ic : nat * byte) : Prop :=
  (ic.1 < k)%nat ∧ Z.of_nat ic.1 < 2 ^ 16 ∧ ic.2 ≠ Byte.x00.

Definition coded_symbol (srcs : list bytes) (w : bytes) : Prop :=
  ∃ (entries : list (nat * byte)) (p : bytes), w = wire_of entries p ∧ entries ≠ [] ∧ zlen entries < 2 ^ 16 ∧
    Forall (entry_ok (length srcs)) entries ∧
    sym_ok srcs (length p) (mkSym (cover_of entries) p) ∧
    Forall (λ x : bytes, length x = length p) srcs.

Lemma parse_cover_entries k entries rest m :
  Forall (entry_ok k) entries →
  parse_cover (length entries) k (concat (entry_bytes <$> entries) ++ rest) m
  = Ok (foldl (λ m ic, <[ic.1 := ic.2]> m) m entries).
Proof.
  intros H. revert m. induction H as [|[i c] entries (Hi & Hw & Hc) _ IH]; intros m; [done|].
  cbn [fst snd] in *. cbn [length fmap list_fmap concat parse_cover foldl fst snd].
  unfold entry_bytes at 1. cbn [fst snd].
  pose proof (length_to_le 2 (Z.of_nat i)) as Hl. pose proof (from_to_le 2 (Z.of_nat i)) as Hf.
  destruct (to_le 2 (Z.of_nat i)) as [|b0 [|b1 [|]]]; try done.
  cbn [app]. rewrite Hf by lia. rewrite Nat2Z.id.
  rewrite (proj2 (Nat.ltb_lt i k) Hi). cbn [andb].
  destruct (Byte.eqb c Byte.x00) eqn:Ec; [by apply Byte.byte_dec_bl in Ec|]. cbn [negb].
  apply IH.
Qed.

Lemma zlen_entries entries : zlen (concat (entry_bytes <$> entries)) = zlen entries * 3.
Proof.
  induction entries as [|e entries IH]; [done|]. cbn [fmap list_fmap concat].
  unfold entry_bytes at 1. zl.
Qed.

Lemma cover_of_nonempty entries : entries ≠ [] → cover_of entries ≠ ∅.
Proof.
  destruct entries as [|[i c] entries _] using rev_ind; [done|]. intros _.
  unfold cover_of. rewrite foldl_app. simpl. apply insert_non_empty.
Qed.

Lemma add_coded (srcs : list bytes) d entries p :
  d_k d = length srcs → d_symbol_size d = length p → entries ≠ [] → zlen entries < 2 ^ 16 →
  Forall (entry_ok (length srcs)) entries →
  add d (wire_of entries p) =
    (mkDecoder (d_k d) (d_symbol_size d) (d_syms d ++ [mkSym (cover_of entries) p]), Ok true).
Proof.
  intros Hk Hs Hne Hlen Hent. unfold add, wire_of.
  pose proof (zlen_entries entries) as Hze.
  set (es := concat (entry_bytes <$> entries)) in *.
  assert (Z.of_nat (length p) = zlen p) as Hzp by done.
  destruct (Z.ltb_spec (zlen (to_le 2 (zlen entries) ++ es ++ p)) 2); [zl|].
  rewrite ztake_app by zl. rewrite from_to_le by zl. rewrite Hs, Hzp.
  destruct (Z.ltb_spec (zlen (to_le 2 (zlen entries) ++ es ++ p)) (2 + zlen entries * 3 + zlen p)); [zl|].
  rewrite zdrop_app by zl. unfold zlen at 1. rewrite Nat2Z.id, Hk.
  rewrite parse_cover_entries by done. fold (cover_of entries).
  rewrite decide_False by by apply cover_of_nonempty.
  rewrite slice_ok by zl. rewrite app_assoc, zdrop_app by zl.
  replace (2 + zlen entries * 3 + zlen p - (2 + zlen entries * 3)) with (zlen p) by lia.
  by rewrite ztake_all.
Qed.

Lemma add_all_coded isa srcs s wires d :
  d_k d = length srcs → d_symbol_size d = s → Forall (λ x : bytes, length x = s) srcs → srcs ≠ [] →
  Forall (coded_symbol srcs) wires →
  ∃ syms, decoder_add_all (FC := fountain_code isa) d wires
      = (mkDecoder (d_k d) s (d_syms d ++ syms), Ok tt) ∧
    length syms = length wires ∧ Forall (sym_ok srcs s) syms ∧
    ∀ entries p, wire_of entries p ∈ wires → length p = s → entries ≠ [] → zlen entries < 2 ^ 16 →
      Forall (entry_ok (length srcs)) entries → mkSym (cover_of entries) p ∈ syms.
Proof.
  intros Hk Hs Hsrcs Hne Hw. revert d Hk Hs. induction Hw as [|w wires Hc _ IH]; intros d Hk Hs.
  { exists []. cbn. rewrite app_nil_r. split_and!; [by destruct d; simpl in *; subst|done|done|].
    by intros ? ? ?%not_elem_of_nil. }
  destruct Hc as (entries & p & -> & Hen & Hel & Heo & Hok & Hp).
  assert (length p = s) as Hlp.
  { destruct srcs as [|x srcs]; [done|]. apply Forall_cons_iff in Hp as [<- _].
    by apply Forall_cons_iff in Hsrcs as [? _]. }
  cbn [decoder_add_all]. change (decoder_add (FountainCode := fountain_code isa)) with add.
  rewrite (add_coded srcs) by (done || congruence).
  destruct (IH (mkDecoder (d_k d) (d_symbol_size d) (d_syms d ++ [mkSym (cover_of entries) p])))
    as (syms & Ha & Hl & Hoks & Hmem); [done|done|].
  cbn [d_k d_symbol_size d_syms] in *. rewrite Ha.
  exists (mkSym (cover_of entries) p :: syms). split_and!.
  - by rewrite <-app_assoc.
  - simpl. by rewrite Hl.
  - constructor; [by rewrite <-Hlp|done].
  - intros entries' p' [Heq|Hin]%elem_of_cons Hp' Hn' Hl' He'; [|right; by apply Hmem].
    apply elem_of_cons. left.
    assert (Ha1 : add d (wire_of entries p) = _) by (apply (add_coded srcs); [done|congruence|done..]).
    assert (Ha2 : add d (wire_of entries' p') = _) by (apply (add_coded srcs); [done|congruence|done..]).
    rewrite Heq, Ha1 in Ha2. injection Ha2 as Ha2.
    apply app_inj_tail in Ha2 as [_ Ha2]. congruence.
Qed.

Lemma forall_zlen (s : Z) (xs : list bytes) :
  0 ≤ s → Forall (λ x : bytes, zlen x = s) xs → Forall (λ x : bytes, length x = Z.to_nat s) xs.
Proof. intros Hs. apply Forall_impl. unfold zlen. intros; lia. Qed.

Lemma systematic_wire_of i src : systematic_wire (Z.of_nat i) src = wire_of [(i, Byte.x01)] src.
Proof. reflexivity. Qed.

Lemma cover_of_unit i : cover_of [(i, Byte.x01)] = {[i := Byte.x01]}.
Proof. reflexivity. Qed.

Lemma systematic_coded srcs i src :
  zlen srcs ≤ 2 ^ 16 → (0 < length src)%nat → Forall (λ x : bytes, length x = length src) srcs →
  srcs !! i = Some src → coded_symbol srcs (systematic_wire (Z.of_nat i) src).
Proof.
  intros Hk Hs Hlen Hi. exists [(i, Byte.x01)], src.
  pose proof (lookup_lt_Some _ _ _ Hi) as Hlt.
  assert (entry_ok (length srcs) (i, Byte.x01)) as He.
  { split_and!; [done| |done]. cbn. unfold zlen in Hk. lia. }
  split_and!; [done|done|done|by apply Forall_singleton| |done].
  split_and!; [done|..]; cbn [cover sym_payload]; rewrite cover_of_unit.
  - intros i' c [<- <-]%lookup_singleton_Some. split; [done|apply He].
  - intros j Hj. rewrite (comb_delete srcs _ i Byte.x01) by apply lookup_singleton_eq.
    rewrite delete_singleton_eq, comb_empty, xor_0_r, gf_mul_1_l.
    unfold source. by rewrite Hi.
Qed.

Lemma decode_syms isa srcs s syms :
  (0 < s)%nat → Forall (λ x : bytes, length x = s) srcs → Forall (sym_ok srcs s) syms →
  let r := (decode isa (mkDecoder (length srcs) s syms)).2 in
  r = Ok srcs ∨ underdetermined r.
Proof.
  intros Hs Hx Hsyms. unfold decode. cbn [d_k d_symbol_size d_syms].
  destruct (Nat.ltb_spec (length syms) (length srcs)); [right; by eexists _, _|].
  pose proof (peel_sound isa srcs s Hs Hx syms Hsyms) as Hp.
  by destruct (peel_symbols isa syms (length srcs) s).
Qed.

(** Distinct sources have distinct systematic symbols, so all of them are at
    least as many as the sources. *)
Lemma systematic_enough srcs wires :
  zlen srcs ≤ 2 ^ 16 →
  (∀ i src, srcs !! i = Some src → systematic_wire (Z.of_nat i) src ∈ wires) →
  (length srcs ≤ length wires)%nat.
Proof.
  intros Hk Hall.
  set (sys := imap (λ i src, systematic_wire (Z.of_nat i) src) srcs).
  assert (length sys = length srcs) as <- by apply length_imap.
  apply (submseteq_length sys wires), NoDup_submseteq.
  - apply NoDup_alt. intros i j w Hi Hj. unfold sys in *. rewrite list_lookup_imap in Hi, Hj.
    destruct (srcs !! i) as [x|] eqn:Hx; [|done]. destruct (srcs !! j) as [y|] eqn:Hy; [|done].
    simpl in Hi, Hj. assert (systematic_wire (Z.of_nat i) x = systematic_wire (Z.of_nat j) y)
      as Heq by congruence.
    unfold systematic_wire in Heq. apply app_inj_1 in Heq as [_ Heq]; [|by rewrite !length_to_le].
    apply app_inj_1 in Heq as [Heq _]; [|by rewrite !length_to_le].
    apply lookup_lt_Some in Hx, Hy. unfold zlen in Hk.
    apply Nat2Z.inj. eapply to_le_inj; [| |exact Heq]; lia.
  - intros w [i Hi]%list_elem_of_lookup. unfold sys in Hi. rewrite list_lookup_imap in Hi.
    destruct (srcs !! i) as [x|] eqn:Hx; [|done]. simpl in Hi. injection Hi as <-. by apply Hall.
Qed.

Lemma decode_all_systematic isa srcs s wires syms :
  (0 < s)%nat → zlen srcs ≤ 2 ^ 16 → Forall (λ x : bytes, length x = s) srcs →
  (∀ i src, srcs !! i = Some src → systematic_wire (Z.of_nat i) src ∈ wires) →
  length syms = length wires → Forall (sym_ok srcs s) syms →
  (∀ entries p, wire_of entries p ∈ wires → length p = s → entries ≠ [] → zlen entries < 2 ^ 16 →
      Forall (entry_ok (length srcs)) entries → mkSym (cover_of entries) p ∈ syms) →
  (decode isa (mkDecoder (length srcs) s syms)).2 = Ok srcs.
Proof.
  intros Hs Hk Hx Hall Hl Hok Hmem. unfold decode. cbn [d_k d_symbol_size d_syms].
  pose proof (systematic_enough srcs wires Hk Hall).
  destruct (Nat.ltb_spec (length syms) (length srcs)); [lia|].
  pose proof (peel_systematic isa srcs s Hs Hx syms Hok) as Hp.
  destruct (peel_symbols isa syms (length srcs) s) as [syms' res]. apply Hp.
  intros i Hi. destruct (lookup_lt_is_Some_2 _ _ Hi) as [src Hsrc].
  assert (mkSym (cover_of [(i, Byte.x01)]) src ∈ syms) as [si Hsi]%list_elem_of_lookup.
  { apply Hmem; [by apply Hall|by eapply Forall_lookup_1 in Hx|done|done|].
    apply Forall_singleton. split_and!; cbn; [done|unfold zlen in Hk; lia|done]. }
  exists si, (mkSym (cover_of [(i, Byte.x01)]) src). cbn [cover].
  rewrite cover_of_unit, map_size_singleton. split_and!; [done|done|].
  rewrite lookup_singleton_eq. by eexists.
Qed.

(** The code discharges the contract of [FountainSig]. *)
#[export] Instance fountain_laws isa : FountainLaws (FC := fountain_code isa).
Proof.
  assert (∀ (srcs : list bytes) s, Decoder_new (zlen srcs) s = mkDecoder (length srcs) (Z.to_nat s) []) as Hnew.
  { intros srcs s. unfold Decoder_new, zlen. by rewrite Nat2Z.id. }
  refine {| coded := coded_symbol |}.
  - intros srcs s i src Hs [_ Hk] Hx Hi. apply forall_zlen in Hx; [|lia].
    pose proof (Forall_lookup_1 _ _ _ _ Hx Hi) as Hl. simpl in Hl.
    apply systematic_coded; [done|lia|by rewrite Hl|done].
  - intros srcs s wires Hs [Hn Hk] Hx Hw. apply forall_zlen in Hx; [|lia].
    assert (srcs ≠ []) as Hne by (by intros ->).
    destruct (add_all_coded isa srcs (Z.to_nat s) wires (mkDecoder (length srcs) (Z.to_nat s) []))
      as (syms & Ha & _ & Hok & _); [done..|].
    eexists. cbn [decoder_new fountain_code]. rewrite Hnew. split; [exact Ha|].
    cbn [decoder_decode fountain_code]. cbn [d_k d_syms app].
    apply decode_syms; [lia|done|done].
  - intros srcs s wires d Hs [Hn Hk] Hx Hw Hall. apply forall_zlen in Hx; [|lia].
    assert (srcs ≠ []) as Hne by (by intros ->).
    destruct (add_all_coded isa srcs (Z.to_nat s) wires (mkDecoder (length srcs) (Z.to_nat s) []))
      as (syms & Ha & Hl & Hok & Hmem); [done..|].
    cbn [decoder_new fountain_code]. rewrite Hnew, Ha. intros [= <-].
    cbn [decoder_decode fountain_code]. cbn [d_k d_syms app].
    by apply (decode_all_systematic isa srcs (Z.to_nat s) wires); [lia|..].
Defined.
