(* ===== verification/ReedSolomon.v ===== *)
(** * ReedSolomon: the fixed-rate erasure code of [coding/src/rs.rs]

    A systematic generator built from a Vandermonde matrix, memoised per
    process; encoding multiplies, decoding solves the system of the first [k]
    surviving symbols by the shared elimination. *)

From S2P Require Import Prelude Gf256 GfVec Gauss LinAlg Fountain FountainCorrect.

Inductive RsError : Type :=
| RsEmpty
| RsSizeMismatch (a b : nat)
| RsInsufficient (have need : nat).

Abbreviation matrix := (list (list byte)).

(** ** The generator *)

(** One Vandermonde row: [pow] runs over the powers of [alpha]. *)
Fixpoint powers (k : nat) (alpha pow : byte) : list byte :=
  match k with
  | O => []
  | S k' => pow :: powers k' alpha (gf_mul pow alpha)
  end.

(** [(i + 1) as u8]. *)
Definition alpha (i : nat) : byte := byte.of_Z (wrap 8 (Z.of_nat i + 1)).

Definition vandermonde (n k : nat) : matrix := (λ i, powers k (alpha i) Byte.x01) <$> seq 0 n.

(** [a | I]. *)
Definition augment (a : matrix) (k : nat) : matrix :=
  imap (λ i r, r ++ <[i := Byte.x01]> (replicate k Byte.x00)) a.

(** One pivot of [invert_matrix]: swap, scale, clear the column elsewhere. *)
Definition invert_step (isa : Isa) (rows : matrix) (r p col : nat) : matrix :=
  let rows := swap_rows rows r p in
  let pv := cell (default [] (rows !! r)) col in
  let prow := gf_scal_slice isa (inv pv) (default [] (rows !! r)) in
  let rows := <[r := prow]> rows in
  imap (λ rr row,
    if (rr =? r)%nat then row
    else
      let c := cell row col in
      if Byte.eqb c Byte.x00 then row else gf_axpy_slice isa c prow row) rows.

Fixpoint invert_loop (isa : Isa) (rs : list nat) (rows : matrix) (col : nat) : matrix :=
  match rs with
  | [] => rows
  | r :: rs' =>
      match find_pivot rows 0 r col with
      | None => invert_loop isa rs' rows (S col)
      | Some p => invert_loop isa rs' (invert_step isa rows r p col) (S col)
      end
  end.

Definition invert_matrix (isa : Isa) (a : matrix) (k : nat) : matrix :=
  drop k <$> invert_loop isa (seq 0 k) (augment a k) 0.

(** A parity row: the Vandermonde row times the inverse of the top block. *)
Definition parity_row (k : nat) (v : list byte) (w : matrix) : list byte :=
  (λ j, foldl (λ acc t, acc ⊕ gf_mul (cell v t) (cell (default [] (w !! t)) j)) Byte.x00 (seq 0 k)) <$> seq 0 k.

Definition build_generator (isa : Isa) (k m : nat) : matrix :=
  let v := vandermonde (k + m) k in
  let w := invert_matrix isa (take k v) k in
  ((λ j, <[j := Byte.x01]> (replicate k Byte.x00)) <$> seq 0 k)
  ++ ((λ row, parity_row k row w) <$> drop k v).

(** The process-wide memo table. *)
Definition Cache : Type := gmap (nat * nat) matrix.

Definition generator (isa : Isa) (cache : Cache) (k m : nat) : Cache * matrix :=
  match cache !! (k, m) with
  | Some g => (cache, g)
  | None =>
      let g := build_generator isa k m in
      (<[(k, m) := g]> cache, g)
  end.

(** ** The encoder *)

Record RsEncoder : Type := mkRs {
  rs_g : matrix;
  rs_k : nat;
  rs_n : nat;
  rs_symbol_size : nat
}.

Definition RsEncoder_new (isa : Isa) (cache : Cache) (k m symbol_size : nat)
    : Cache * outcome RsError RsEncoder :=
  if (k =? 0)%nat then (cache, Err RsEmpty)
  else
    let '(cache, g) := generator isa cache k m in
    (cache, Ok (mkRs g k (k + m) symbol_size)).

Fixpoint check_sizes (symbol_size : nat) (data : list bytes) : outcome RsError unit :=
  match data with
  | [] => Ok tt
  | d :: data' =>
      if negb (length d =? symbol_size)%nat then Err (RsSizeMismatch (length d) symbol_size)
      else check_sizes symbol_size data'
  end.

(** One parity symbol; zero coefficients are skipped. *)
Definition parity_symbol (isa : Isa) (g : list byte) (data : list bytes) (symbol_size : nat) : bytes :=
  axpy_all isa (zip g data) (replicate symbol_size Byte.x00).

Definition rs_encode (isa : Isa) (e : RsEncoder) (data : list bytes) : outcome RsError (list bytes) :=
  if negb (length data =? rs_k e)%nat then Err (RsSizeMismatch (length data) (rs_k e))
  else
    let? _ := check_sizes (rs_symbol_size e) data in
    Ok (data ++ ((λ i, parity_symbol isa (default [] (rs_g e !! i)) data (rs_symbol_size e))
                   <$> seq (rs_k e) (rs_n e - rs_k e))).

(** ** The decoder *)

(** The augmented rows; a survivor index past the generator and a symbol of
    another size panic. *)
Fixpoint survivor_rows (g : matrix) (k symbol_size : nat) (rows_in : list (nat * bytes))
    : outcome RsError matrix :=
  match rows_in with
  | [] => Ok []
  | (idx, sym) :: rows_in' =>
      let? grow := index g (Z.of_nat idx) in
      if negb (length sym =? symbol_size)%nat then Panic
      else
        let? rest := survivor_rows g k symbol_size rows_in' in
        Ok ((take k grow ++ sym) :: rest)
  end.

(** One row of the solution: its pivot says which source it holds. *)
Definition extract_row (k symbol_size : nat) (out : list bytes) (r : list byte) : list bytes :=
  let piv := first_nonzero r k in
  if (piv <? k)%nat then <[piv := take symbol_size (drop k r)]> out else out.

Definition rs_decode (isa : Isa) (cache : Cache) (k m symbol_size : nat) (survived : list (nat * bytes))
    : Cache * outcome RsError (list bytes) :=
  if (length survived <? k)%nat then (cache, Err (RsInsufficient (length survived) k))
  else
    let '(cache, g) := generator isa cache k m in
    let row_len := (k + symbol_size)%nat in
    (cache,
     let? rows := survivor_rows g k symbol_size (take k survived) in
     let '(mat, rank) := gf_gauss_eliminate isa (concat rows) row_len k in
     if (rank <? k)%nat then Err (RsInsufficient rank k)
     else if (row_len =? 0)%nat then Panic
     else
       let out := foldl (extract_row k symbol_size) (replicate k [])
                    (chunks (length mat / row_len) row_len mat) in
       if bool_decide ([] ∈ out) then Err (RsInsufficient rank k) else Ok out).

(** The unit test of the source: any four of the six symbols. *)
Example rs_any_k_reconstruct :
  let data := (λ i, (λ j, byte.of_Z (Z.land (i * 31 + j) 255)) <$> seqZ 0 8) <$> seqZ 0 4 in
  match (RsEncoder_new Avx2 ∅ 4 2 8) with
  | (cache, Ok e) =>
      match rs_encode Avx2 e data with
      | Ok cw => (rs_decode Ssse3 cache 4 2 8 ((λ i, (i, default [] (cw !! i))) <$> [0; 2; 3; 5]%nat)).2 = Ok data
      | _ => False
      end
  | _ => False
  end.
Proof. vm_compute. reflexivity. Qed.

(** ** Polynomials have few roots *)

Fixpoint eval (p : list byte) (x : byte) : byte :=
  match p with
  | [] => Byte.x00
  | c :: p' => c ⊕ gf_mul x (eval p' x)
  end.

(** The Horner values of [p] at [a]: the value, then the quotient by [x - a]. *)
Fixpoint horner (a : byte) (p : list byte) : list byte :=
  match p with
  | [] => []
  | c :: p' => let h := horner a p' in (c ⊕ gf_mul a (hd Byte.x00 h)) :: h
  end.

Lemma length_horner a p : length (horner a p) = length p.
Proof. induction p as [|c p IH]; cbn; [done|]. by rewrite IH. Qed.

Lemma horner_hd a p : hd Byte.x00 (horner a p) = eval p a.
Proof. induction p as [|c p IH]; cbn; [done|]. by rewrite IH. Qed.

Lemma horner_zero a p : Forall (eq Byte.x00) (horner a p) → Forall (eq Byte.x00) p.
Proof.
  induction p as [|c p IH]; cbn; [done|]. intros [Hc Hh]%Forall_cons_iff. constructor; [|by apply IH].
  assert (hd Byte.x00 (horner a p) = Byte.x00) as E by (by destruct Hh).
  rewrite E, gf_mul_0_r, xor_0_r in Hc. done.
Qed.

Lemma eval_divide a p x :
  eval p x = eval p a ⊕ gf_mul (x ⊕ a) (eval (tl (horner a p)) x).
Proof.
  rewrite <-(horner_hd a p). induction p as [|c p IH]; cbn; [by rewrite gf_mul_0_r|].
  rewrite IH. set (h := horner a p). set (q := eval (tl h) x).
  assert (eval h x = hd Byte.x00 h ⊕ gf_mul x q) as ->.
  { unfold q. destruct h; cbn; [by rewrite gf_mul_0_r|done]. }
  rewrite !gf_mul_xor_r, !gf_mul_xor_l, !gf_mul_xor_r, !gf_mul_assoc.
  rewrite (gf_mul_comm x a). set (e := hd Byte.x00 h).
  rewrite !xor_assoc. f_equal. rewrite <-!xor_assoc.
  do 2 f_equal. by rewrite (xor_comm (gf_mul a e)), xor_assoc, xor_nilpotent, xor_0_r.
Qed.

(** A polynomial of [k] coefficients with [k] distinct roots is zero. *)
Lemma roots_zero p roots :
  length roots = length p → NoDup roots → Forall (λ a, eval p a = Byte.x00) roots →
  Forall (eq Byte.x00) p.
Proof.
  revert p. induction roots as [|a roots IH]; intros p Hl Hnd Hr.
  { symmetry in Hl. apply nil_length_inv in Hl as ->. constructor. }
  apply list.NoDup_cons in Hnd as [Ha Hnd]. apply Forall_cons_iff in Hr as [Ha0 Hr].
  apply (horner_zero a). destruct (horner a p) as [|h q] eqn:Hh; [constructor|].
  assert (h = Byte.x00) as ->.
  { pose proof (horner_hd a p) as E. rewrite Hh, Ha0 in E. exact E. }
  constructor; [done|]. apply IH; [|done|].
  - pose proof (length_horner a p) as E. rewrite Hh in E. cbn in *. lia.
  - apply Forall_elem. intros b Hb. pose proof (proj1 (Forall_elem _ _) Hr b Hb) as Hb0. cbn in Hb0.
    rewrite (eval_divide a p b), Ha0, Hh, xor_0_l in Hb0. cbn in Hb0.
    apply gf_mul_zero_inv in Hb0 as [E|E]; [|done]. apply xor_cancel in E as ->. done.
Qed.

Lemma dotp_powers k a pow y : length y = k → dotp (powers k a pow) y = gf_mul pow (eval y a).
Proof.
  revert pow y. induction k as [|k IH]; intros pow [|c y] Hl; try done; cbn [powers dotp eval].
  { by rewrite gf_mul_0_r. }
  rewrite IH by (cbn in Hl; lia). by rewrite gf_mul_xor_r, gf_mul_assoc.
Qed.

Lemma length_powers k a pow : length (powers k a pow) = k.
Proof. revert pow. induction k; intros; cbn; auto. Qed.

Lemma alpha_inj i j : (i < 256)%nat → (j < 256)%nat → alpha i = alpha j → i = j.
Proof.
  intros Hi Hj E. unfold alpha in E. apply (f_equal byte.unsigned) in E.
  rewrite !byte.unsigned_of_Z in E. unfold byte.wrap, wrap in E. rewrite !Zmod_mod in E.
  change (2 ^ 8) with 256 in E.
  assert (∀ n, (n < 256)%nat → (Z.of_nat n + 1) mod 256 = if (n =? 255)%nat then 0 else Z.of_nat n + 1) as H.
  { intros n Hn. destruct (Nat.eqb_spec n 255) as [->|]; [done|]. apply Z.mod_small. lia. }
  rewrite !H in E by done. destruct (Nat.eqb_spec i 255), (Nat.eqb_spec j 255); lia.
Qed.

Lemma zeros_replicate p : Forall (eq Byte.x00) p → p = replicate (length p) Byte.x00.
Proof. induction 1 as [|c p <- _ IH]; cbn; [done|]. by rewrite <-IH. Qed.

(** Rows of distinct evaluation points are independent. *)
Lemma vandermonde_independent k idxs :
  length idxs = k → NoDup idxs → Forall (λ i, (i < 256)%nat) idxs →
  independent k ((λ i, powers k (alpha i) Byte.x01) <$> idxs).
Proof.
  intros Hl Hnd Hr y Hy Hk. rewrite <-Hy. apply zeros_replicate.
  apply (roots_zero y (alpha <$> idxs)).
  - rewrite length_fmap. congruence.
  - apply NoDup_fmap_2_strong; [|done]. intros i j Hi Hj. apply alpha_inj;
      by apply (proj1 (Forall_elem _ _) Hr).
  - apply Forall_fmap. unfold kernel in Hk. rewrite Forall_fmap in Hk.
    eapply Forall_impl; [|exact Hk]. intros i. cbn. rewrite dotp_powers by done. by rewrite gf_mul_1_l.
Qed.

(** ** The inverse of the top block *)

Lemma swap_rows_same rows r : swap_rows rows r r = rows.
Proof. unfold swap_rows. destruct (rows !! r) eqn:Hr; [|done]. by rewrite !list_insert_id by (rewrite ?list_insert_id; done). Qed.

Lemma invert_step_eq isa rows r p col : invert_step isa rows r p col = eliminate_col isa rows r p col.
Proof.
  unfold invert_step, eliminate_col, inv. destruct (Nat.eqb_spec r p) as [->|]; [|done].
  by rewrite swap_rows_same.
Qed.

Lemma invert_loop_spec isa c m rows len :
  ident c rows → length rows = (c + m)%nat → Forall (λ row, length row = len) rows → (c + m ≤ len)%nat →
  independent (c + m) rows →
  let rows' := invert_loop isa (seq c m) rows c in
  ident (c + m) rows' ∧ length rows' = (c + m)%nat ∧ Forall (λ row, length row = len) rows' ∧
  ∀ y, kernel rows' y → kernel rows y.
Proof.
  revert c rows. induction m as [|m IH]; intros c rows Hid Hr Hl Hlen Hind; cbn [seq invert_loop].
  { rewrite Nat.add_0_r in *. done. }
  destruct (independent_pivot rows c (c + S m) len) as [p Hf]; [done|lia|lia|done|lia|done|].
  rewrite Hf, invert_step_eq.
  pose proof (eliminate_col_ident isa rows p c len Hid Hl Hf) as Hid'.
  assert (Forall (λ row, length row = len) (eliminate_col isa rows c p c)) as Hl'
    by (apply eliminate_col_Forall; [apply length_rows_closed|lia|done]).
  assert (∀ y, kernel (eliminate_col isa rows c p c) y → kernel rows y) as Hk
    by (intros y; by eapply eliminate_col_kernel).
  replace (c + S m)%nat with (S c + m)%nat in * by lia.
  destruct (IH (S c) (eliminate_col isa rows c p c)) as (H1 & H2 & H3 & H4);
    [done|by rewrite length_eliminate_col|done|done| |].
  - intros y Hy Hky. apply Hind; auto.
  - cbn zeta. split_and!; [done|done|done|auto].
Qed.

Definition apply_matrix (w : matrix) (z : list byte) : list byte := (λ row, dotp row z) <$> w.

Lemma cell_unit k i j : (i < k)%nat →
  cell (<[i := Byte.x01]> (replicate k Byte.x00)) j = if (i =? j)%nat then Byte.x01 else Byte.x00.
Proof.
  intros Hi. unfold cell. destruct (Nat.eqb_spec i j) as [<-|Hne].
  - by rewrite list_lookup_insert_eq by (by rewrite length_replicate).
  - rewrite list_lookup_insert_ne by done. destruct (decide (j < k)%nat).
    + by rewrite lookup_replicate_2.
    + by rewrite lookup_ge_None_2 by (rewrite length_replicate; lia).
Qed.

Lemma dotp_unit_row k i z : (i < k)%nat → length z = k →
  dotp (<[i := Byte.x01]> (replicate k Byte.x00)) z = cell z i.
Proof.
  intros Hi Hz. apply dotp_unit; [by rewrite length_insert, length_replicate|]. intros j _. by apply cell_unit.
Qed.

Lemma augment_lookup a k i : augment a k !! i = (λ r, r ++ <[i := Byte.x01]> (replicate k Byte.x00)) <$> a !! i.
Proof. unfold augment. apply list_lookup_imap. Qed.

(** The matrix times its computed inverse is the identity. *)
Lemma invert_matrix_spec isa a k :
  length a = k → Forall (λ r, length r = k) a → independent k a →
  let w := invert_matrix isa a k in
  length w = k ∧ Forall (λ r, length r = k) w ∧
  ∀ z i row, length z = k → a !! i = Some row → dotp row (apply_matrix w z) = cell z i.
Proof.
  intros Ha Hl Hind. unfold invert_matrix.
  assert (Forall (λ row, length row = (k + k)%nat) (augment a k)) as Hal.
  { apply Forall_lookup_2. intros i row Hi. rewrite augment_lookup in Hi.
    destruct (a !! i) as [r|] eqn:Hr; [|done]. injection Hi as <-.
    rewrite length_app, length_insert, length_replicate. f_equal. by eapply Forall_lookup_1 in Hl. }
  destruct (invert_loop_spec isa 0 k (augment a k) (k + k)) as (Hid & Hlen & Hl' & Hker);
    [intros ? ? ? ? ?; lia|unfold augment; by rewrite length_imap|done|lia| |].
  { intros y Hy Hk. apply Hind; [done|]. apply Forall_lookup_2. intros i row Hi.
    eapply (Forall_lookup_1 _ _ i) in Hk; [|rewrite augment_lookup, Hi; done].
    cbn in Hk. rewrite <-(dotp_take _ _ k) in Hk by lia.
    rewrite take_app_length' in Hk; [done|]. by eapply Forall_lookup_1 in Hl. }
  cbn [Nat.add] in *. set (rows' := invert_loop isa (seq 0 k) (augment a k) 0) in *.
  split_and!; [by rewrite length_fmap| |].
  { apply Forall_fmap. eapply Forall_impl; [|exact Hl']. intros row Hrow. cbn in *. rewrite length_drop. lia. }
  intros z i row Hz Hi. set (wz := apply_matrix (drop k <$> rows') z).
  assert (length wz = k) as Hwz by (unfold wz, apply_matrix; by rewrite !length_fmap).
  assert (kernel rows' (wz ++ z)) as Hk.
  { apply Forall_lookup_2. intros j r Hj. pose proof (Forall_lookup_1 _ _ _ _ Hl' Hj) as Hlj. cbn in Hlj.
    rewrite dotp_app by lia. rewrite Hwz, (dotp_unit (take k r) wz j).
    - unfold cell, wz, apply_matrix. rewrite !list_lookup_fmap, Hj. cbn. apply xor_nilpotent.
    - rewrite length_take. lia.
    - intros l Hll. rewrite length_take in Hll. rewrite cell_take by lia. apply (Hid j l r Hj). lia. }
  apply Hker in Hk. eapply (Forall_lookup_1 _ _ i) in Hk; [|rewrite augment_lookup, Hi; done]. cbn in Hk.
  pose proof (Forall_lookup_1 _ _ _ _ Hl Hi) as Hlr. cbn in Hlr.
  rewrite dotp_app in Hk by (rewrite length_app; lia). rewrite Hwz, take_app_length', drop_app_length' in Hk by done.
  apply xor_cancel in Hk. rewrite Hk. apply dotp_unit_row; [|done]. apply lookup_lt_Some in Hi. lia.
Qed.

(** ** Products *)

Lemma dotp_foldl u v a n off :
  foldl (λ acc t, acc ⊕ gf_mul (cell u t) (cell v t)) a (seq off n)
  = a ⊕ dotp (take n (drop off u)) (take n (drop off v)).
Proof.
  revert a off. induction n as [|n IH]; intros a off; cbn [seq foldl].
  { rewrite !take_0. by rewrite xor_0_r. }
  rewrite IH, xor_assoc. f_equal.
  assert (∀ l : list byte, drop off l = match l !! off with Some x => x :: drop (S off) l | None => [] end) as Hd.
  { intros l. destruct (l !! off) eqn:E; [by apply drop_S|]. apply lookup_ge_None in E. by apply drop_ge. }
  rewrite (Hd u), (Hd v). unfold cell.
  destruct (u !! off) as [x|] eqn:Eu, (v !! off) as [y|] eqn:Ev; cbn [default from_option take dotp]; try reflexivity.
  - apply lookup_ge_None in Ev. rewrite (drop_ge v) by lia. unfold id. rewrite gf_mul_0_r, take_nil, dotp_nil_r. reflexivity.
  - apply lookup_ge_None in Eu. rewrite (drop_ge u) by lia. unfold id. rewrite gf_mul_0_l, take_nil. reflexivity.
  - apply lookup_ge_None in Eu. rewrite (drop_ge u) by lia. unfold id. rewrite gf_mul_0_l, take_nil. reflexivity.
Qed.

Lemma dotp_xor (f g : nat → byte) l x :
  dotp ((λ j, f j ⊕ g j) <$> l) x = dotp (f <$> l) x ⊕ dotp (g <$> l) x.
Proof.
  revert x. induction l as [|j l IH]; intros [|b x]; cbn; try reflexivity.
  rewrite IH, gf_mul_xor_l. apply xor_swap.
Qed.

Lemma dotp_scale a (f : nat → byte) l x :
  dotp ((λ j, gf_mul a (f j)) <$> l) x = gf_mul a (dotp (f <$> l) x).
Proof. rewrite <-dotp_scal. unfold scal_ref. by rewrite <-list_fmap_compose. Qed.

Lemma cells_seq w k : length w = k → cell w <$> seq 0 k = w.
Proof.
  intros <-. apply list_eq_cells; rewrite length_fmap, length_seq; [done|]. intros j Hj.
  unfold cell at 1. rewrite list_lookup_fmap, lookup_seq_lt by done. done.
Qed.

Lemma cell_column_default w j t : cell (column w j) t = cell (default [] (w !! t)) j.
Proof. unfold column, cell at 1. rewrite list_lookup_fmap. destruct (w !! t); [done|by destruct j]. Qed.

Lemma parity_row_spec k v w x :
  length v = k → length w = k → Forall (λ r, length r = k) w →
  dotp (parity_row k v w) x = dotp v (apply_matrix w x).
Proof.
  intros Hv Hw Hl. unfold parity_row.
  assert (∀ j, foldl (λ acc t, acc ⊕ gf_mul (cell v t) (cell (default [] (w !! t)) j)) Byte.x00 (seq 0 k)
    = dotp v (column w j)) as E.
  { intros j. transitivity (foldl (λ acc t, acc ⊕ gf_mul (cell v t) (cell (column w j) t)) Byte.x00 (seq 0 k)).
    - generalize Byte.x00 as acc, (seq 0 k) as l. intros acc l. revert acc.
      induction l as [|t l IH]; intros acc; cbn [foldl]; [done|]. by rewrite IH, cell_column_default.
    - rewrite dotp_foldl, xor_0_l, !drop_0, !take_ge; [done| |lia].
      unfold column. rewrite length_fmap. lia. }
  rewrite (list_fmap_ext _ (λ j, dotp v (column w j))) by (intros; apply E). clear E.
  assert (length v = length w) as Hvw by lia. clear Hv Hw. revert v Hvw.
  induction Hl as [|r w Hr _ IH]; intros [|a v] Hvw; try done; cbn [apply_matrix fmap list_fmap].
  - change (λ j, dotp [] (column [] j)) with (λ _ : nat, Byte.x00).
    clear. revert x. induction (seq 0 k) as [|j l IH]; intros [|b x]; cbn; try reflexivity.
    rewrite gf_mul_0_l, IH. apply xor_0_l.
  - cbn [dotp]. fold (apply_matrix w x). rewrite <-IH by (cbn in Hvw; lia).
    rewrite (dotp_xor (λ j, gf_mul a (cell r j)) (λ j, dotp v (column w j))), dotp_scale.
    by rewrite cells_seq.
Qed.

(** ** The generator is maximum distance separable *)

Section Generator.
Context (isa : Isa) (k m : nat) (Hn : (k + m ≤ 256)%nat).

Let w : matrix := invert_matrix isa (take k (vandermonde (k + m) k)) k.

Lemma top_block : take k (vandermonde (k + m) k) = (λ i, powers k (alpha i) Byte.x01) <$> seq 0 k.
Proof. unfold vandermonde. by rewrite <-fmap_take, take_seq, Nat.min_l by lia. Qed.

Lemma inverse_ok :
  length w = k ∧ Forall (λ r, length r = k) w ∧
  ∀ z i, length z = k → (i < k)%nat → dotp (powers k (alpha i) Byte.x01) (apply_matrix w z) = cell z i.
Proof.
  destruct (invert_matrix_spec isa (take k (vandermonde (k + m) k)) k) as (H1 & H2 & H3); rewrite ?top_block.
  - by rewrite length_fmap, length_seq.
  - apply Forall_fmap, Forall_elem. intros i _. apply length_powers.
  - apply vandermonde_independent; [apply length_seq|apply NoDup_seq|].
    apply Forall_elem. intros i Hi%elem_of_seq. lia.
  - split_and!; [done|done|]. intros z i Hz Hi. apply H3; [done|].
    rewrite top_block, list_lookup_fmap, lookup_seq_lt by done. done.
Qed.

(** Every row of the generator is a Vandermonde row times the inverse. *)
Lemma generator_row i : (i < k + m)%nat →
  ∃ g, build_generator isa k m !! i = Some g ∧ length g = k ∧
    (∀ y, length y = k → dotp g y = dotp (powers k (alpha i) Byte.x01) (apply_matrix w y)) ∧
    ((i < k)%nat → g = <[i := Byte.x01]> (replicate k Byte.x00)).
Proof.
  intros Hi. destruct inverse_ok as (Hw1 & Hw2 & Hw3). unfold build_generator. fold w.
  destruct (decide (i < k)%nat) as [Hik|Hik].
  - rewrite lookup_app_l by (by rewrite length_fmap, length_seq).
    rewrite list_lookup_fmap, lookup_seq_lt by done. eexists. split; [done|].
    split_and!; [by rewrite length_insert, length_replicate| |done].
    intros y Hy. cbn. by rewrite dotp_unit_row, Hw3.
  - rewrite lookup_app_r by (rewrite length_fmap, length_seq; lia).
    rewrite length_fmap, length_seq, list_lookup_fmap, lookup_drop.
    unfold vandermonde. rewrite list_lookup_fmap, lookup_seq_lt by lia. eexists. split; [done|].
    split_and!; [unfold parity_row; by rewrite length_fmap, length_seq| |lia].
    intros y Hy. rewrite parity_row_spec; [|apply length_powers|done|done]. by replace (k + (i - k))%nat with i by lia.
Qed.

(** Any [k] rows are independent. *)
Lemma generator_independent idxs rows :
  length idxs = k → NoDup idxs → Forall (λ i, (i < k + m)%nat) idxs →
  Forall2 (λ i g, build_generator isa k m !! i = Some g) idxs rows → independent k rows.
Proof.
  intros Hl Hnd Hr H2 y Hy Hk. destruct inverse_ok as (Hw1 & Hw2 & Hw3).
  assert (length (apply_matrix w y) = k) as Hwl by (unfold apply_matrix; by rewrite length_fmap).
  assert (apply_matrix w y = replicate k Byte.x00) as Hz.
  { apply (vandermonde_independent k idxs); [done|done| |done|].
    { eapply Forall_impl; [|exact Hr]. cbn. lia. }
    apply Forall_fmap. clear Hl Hnd. induction H2 as [|i g idxs rows Hg _ IH]; [constructor|].
    apply Forall_cons_iff in Hr as [Hi Hr]. apply Forall_cons_iff in Hk as [Hg0 Hk].
    constructor; [|by apply IH]. cbn. destruct (generator_row i Hi) as (g' & Hg' & _ & Hdot & _).
    rewrite Hg in Hg'. injection Hg' as <-. by rewrite <-Hdot. }
  apply list_eq_cells; [by rewrite length_replicate|]. intros j Hj. rewrite Hy in Hj.
  rewrite <-(Hw3 y j) by done. rewrite Hz, dotp_zeros_r. unfold cell. by rewrite lookup_replicate_2.
Qed.
End Generator.

(** ** Encoding *)

Lemma check_sizes_ok size data : Forall (λ d, length d = size) data → check_sizes size data = Ok tt.
Proof. induction 1 as [|d data Hd _ IH]; cbn; [done|]. by rewrite Hd, Nat.eqb_refl. Qed.

(** The codeword: symbol [i] is the product of generator row [i] and the data. *)
Lemma encode_spec isa isa' k m size data :
  (k + m ≤ 256)%nat → length data = k → Forall (λ d, length d = size) data →
  ∃ cw, rs_encode isa (mkRs (build_generator isa' k m) k (k + m) size) data = Ok cw ∧
    length cw = (k + m)%nat ∧ take k cw = data ∧
    ∀ i sym g, cw !! i = Some sym → build_generator isa' k m !! i = Some g →
      satisfied data size (g ++ sym).
Proof.
  intros Hn Hk Hd. unfold rs_encode. cbn [rs_k rs_n rs_g rs_symbol_size].
  rewrite Hk, Nat.eqb_refl, check_sizes_ok by done. cbn [negb obind]. eexists. split; [done|].
  replace (k + m - k)%nat with m by lia. split_and!.
  - by rewrite length_app, length_fmap, length_seq, Hk.
  - by apply take_app_length'.
  - intros i sym g Hi Hg.
    assert (i < k + m)%nat as Hlt.
    { apply lookup_lt_Some in Hi. rewrite length_app, length_fmap, length_seq in Hi. lia. }
    destruct (generator_row isa' k m Hn i Hlt) as (g' & Hg' & Hgl & _ & Hunit).
    rewrite Hg in Hg'. injection Hg' as <-.
    assert (length sym = size ∧ ∀ j, cell sym j = dotp g (column data j)) as [Hsl Hsc].
    { destruct (decide (i < k)%nat) as [Hik|Hik].
      - rewrite lookup_app_l in Hi by lia. split; [by eapply Forall_lookup_1 in Hd|]. intros j.
        rewrite (Hunit Hik), dotp_unit_row by (done || unfold column; by rewrite length_fmap).
        symmetry. by apply cell_column.
      - rewrite lookup_app_r, list_lookup_fmap, lookup_seq_lt in Hi by lia. cbn in Hi. injection Hi as <-.
        replace (k + (i - length data))%nat with i by lia. rewrite Hg. by apply axpy_all_zeros. }
    split; [rewrite length_app; lia|]. intros j Hj. rewrite Hk. rewrite take_app_length' by done.
    rewrite <-Hsc. unfold cell. rewrite lookup_app_r by lia. f_equal. f_equal. lia.
Qed.

(** ** Decoding *)

(** The generator does not depend on the instruction set. *)
Lemma build_generator_isa isa isa' k m : build_generator isa k m = build_generator isa' k m.
Proof.
  assert (∀ rows r p col, invert_step isa rows r p col = invert_step isa' rows r p col) as Hs.
  { intros. unfold invert_step. rewrite !gf_scal_slice_eq. apply imap_ext. intros i row _.
    by rewrite !gf_axpy_slice_eq. }
  assert (∀ rs rows col, invert_loop isa rs rows col = invert_loop isa' rs rows col) as Hl.
  { induction rs as [|r rs IH]; intros rows col; cbn [invert_loop]; [done|].
    destruct (find_pivot rows 0 r col); by rewrite ?Hs, IH. }
  unfold build_generator, invert_matrix. by rewrite Hl.
Qed.

Definition cache_ok (isa : Isa) (cache : Cache) : Prop :=
  ∀ k m g, cache !! (k, m) = Some g → g = build_generator isa k m.

Lemma cache_ok_empty isa : cache_ok isa ∅.
Proof. intros k m g H. by apply (lookup_empty_Some (M := gmap (nat * nat))) in H. Qed.

Lemma generator_ok isa cache k m :
  cache_ok isa cache →
  (generator isa cache k m).2 = build_generator isa k m ∧ cache_ok isa (generator isa cache k m).1.
Proof.
  intros Hc. unfold generator. destruct (cache !! (k, m)) as [g|] eqn:Hg; cbn; [split; [by apply Hc|done]|].
  split; [done|]. intros k' m' g' [[[= <- <-] <-]|[_ H]]%lookup_insert_Some; [done|by apply Hc].
Qed.

Lemma survivor_rows_ok g k size rows_in :
  Forall (λ x, (∃ row, g !! x.1 = Some row ∧ length row = k) ∧ length x.2 = size) rows_in →
  ∃ gs, Forall2 (λ i row, g !! i = Some row) rows_in.*1 gs ∧
    survivor_rows g k size rows_in = Ok (zip_with app gs rows_in.*2).
Proof.
  induction 1 as [|[i sym] rows_in [(row & Hrow & Hl) Hs] _ (gs & IH1 & IH2)]; cbn in *.
  { exists []. by split. }
  exists (row :: gs). split; [by constructor|]. unfold index. rewrite Nat2Z.id, Hrow. cbn [obind].
  rewrite Hs, Nat.eqb_refl. cbn [negb]. rewrite IH2. cbn [obind]. by rewrite take_ge by lia.
Qed.

Lemma extract_unit k size out r i :
  (i < k)%nat → length out = k → (k ≤ length r)%nat →
  (∀ j, (j < k)%nat → cell r j = if (i =? j)%nat then Byte.x01 else Byte.x00) →
  extract_row k size out r = <[i := take size (drop k r)]> out.
Proof.
  intros Hi Ho Hl Hc. unfold extract_row.
  assert (first_nonzero r k = i) as ->; [|by destruct (Nat.ltb_spec i k); [|lia]].
  clear Ho out. revert r i Hi Hl Hc. induction k as [|k IH]; intros [|b r] i Hi Hl Hc; cbn in Hl; try lia.
  pose proof (Hc 0%nat ltac:(lia)) as H0. cbn in H0. cbn [first_nonzero].
  destruct i as [|i]; cbn in H0; rewrite H0; cbn; [done|]. f_equal. apply IH; [lia|lia|].
  intros j Hj. apply (Hc (S j)). lia.
Qed.

Lemma extract_all k size rows data out :
  length rows = length data → length out = (k)%nat →
  Forall (λ x, length x = size) data →
  (∀ i row x, rows !! i = Some row → data !! i = Some x →
     drop k row = x ∧ length row = (k + size)%nat ∧
     ∀ j, (j < k)%nat → cell row j = if (k - length data + i =? j)%nat then Byte.x01 else Byte.x00) →
  (length data ≤ k)%nat →
  foldl (extract_row k size) out rows = take (k - length data) out ++ data.
Proof.
  revert data out. induction rows as [|row rows IH]; intros [|x data] out Hl Ho Hd Hr Hk; try done; cbn [foldl].
  { cbn. rewrite Nat.sub_0_r, take_ge, app_nil_r by lia. done. }
  destruct (Hr 0%nat row x eq_refl eq_refl) as (Hx & Hrl & Hc). apply Forall_cons_iff in Hd as [Hxl Hd].
  cbn [length] in *. rewrite (extract_unit k size out row (k - S (length data))); [|lia|done|lia|].
  2:{ intros j Hj. rewrite (Hc j Hj). by rewrite Nat.add_0_r. }
  rewrite Hx, take_ge by lia. rewrite (IH data); [|lia|by rewrite length_insert|done| |lia].
  - replace (k - length data)%nat with (S (k - S (length data))) by lia.
    rewrite (take_S_r _ _ x) by (rewrite list_lookup_insert_eq by lia; done).
    rewrite take_insert_ge by lia. by rewrite <-app_assoc.
  - intros i row' x' Hi Hx'. destruct (Hr (S i) row' x' Hi Hx') as (H1 & H2 & H3). split_and!; [done|done|].
    intros j Hj. rewrite (H3 j Hj). by replace (k - S (length data) + S i)%nat with (k - length data + i)%nat by lia.
Qed.

(** The rows of survivors hold of the data. *)
Lemma survivors_satisfied (G : matrix) (cw data : list bytes) size (rin : list (nat * bytes)) gs :
  (∀ i sym g, cw !! i = Some sym → G !! i = Some g → satisfied data size (g ++ sym)) →
  Forall (λ x, cw !! x.1 = Some x.2) rin → Forall2 (λ i g, G !! i = Some g) rin.*1 gs →
  Forall (satisfied data size) (zip_with app gs rin.*2).
Proof.
  intros Hsat Hin. revert gs. induction Hin as [|[i sym] rin Hi _ IH]; intros gs H2; cbn in *.
  { inversion H2; subst. constructor. }
  inversion H2 as [|? g ? gs' Hg H2']; subst. constructor; [by apply (Hsat i)|by apply IH].
Qed.

Lemma rows_independent k gs (syms : list bytes) :
  Forall (λ g, length g = k) gs → length gs = length syms → independent k gs →
  independent k (zip_with app gs syms).
Proof.
  intros Hl Hlen Hind y Hy Hk. apply Hind; [done|]. clear Hind. revert syms Hlen Hk.
  induction Hl as [|g gs Hg _ IH]; intros [|s syms] Hlen Hk; try done.
  cbn in Hk. apply Forall_cons_iff in Hk as [H0 Hk]. constructor; [|apply (IH syms); [cbn in Hlen; lia|done]].
  rewrite <-(dotp_take _ _ k) in H0 by lia. by rewrite take_app_length' in H0 by done.
Qed.

(** Elimination and extraction return the data. *)
Lemma solve_rows isa k size data rows :
  (0 < k)%nat → length data = k → Forall (λ d, length d = size) data → length rows = k →
  Forall (satisfied data size) rows → independent k rows →
  ∃ mat, gf_gauss_eliminate isa (concat rows) (k + size) k = (mat, k) ∧
    foldl (extract_row k size) (replicate k []) (chunks (length mat / (k + size)) (k + size) mat) = data.
Proof.
  intros Hk Hl Hd Hr Hs Hind.
  assert (Forall (λ row, length row = (k + size)%nat) rows) as Hrl.
  { eapply Forall_impl; [|exact Hs]. intros row [E _]. congruence. }
  destruct (gf_gauss_eliminate isa (concat rows) (k + size) k) as [mat rank] eqn:Hg.
  assert (rank = k) as ->.
  { pose proof (gauss_full_rank isa rows (k + size) k ltac:(lia) Hrl ltac:(lia) ltac:(lia) Hind) as E.
    by rewrite Hg in E. }
  exists mat. split; [done|].
  destruct (gauss_solves isa data size rows mat k) as (rows' & -> & Hs' & Hsol); [lia|done|done|by rewrite Hl|done|].
  assert (Forall (λ row, length row = (k + size)%nat) rows') as Hrl'.
  { eapply Forall_impl; [|exact Hs']. intros row [E _]. congruence. }
  assert (length rows' = k) as Hr'.
  { rewrite gauss_eliminate_rows in Hg by (done || lia). injection Hg as Hg _.
    apply (f_equal length) in Hg. rewrite (length_concat_const rows' (k + size)) in Hg by done.
    rewrite (length_concat_const _ (k + size)) in Hg.
    - rewrite gauss_loop_length in Hg. nia.
    - apply gauss_loop_Forall; [apply length_rows_closed|lia|done]. }
  rewrite (length_concat_const rows' (k + size)), Nat.div_mul by (done || lia).
  rewrite <-(app_nil_r (concat rows')), chunks_concat by done.
  rewrite (extract_all k size rows' data); [by rewrite Hl, Nat.sub_diag|lia|apply length_replicate|done| |lia].
  intros i row x Hi Hx. destruct (Hsol i row Hi) as [H1 H2]. rewrite Hl in *. split_and!.
  - by apply H1.
  - by eapply Forall_lookup_1 in Hrl'.
  - intros j Hj. rewrite Nat.sub_diag. by apply H2.
Qed.

(** Symbols of a codeword: the products of the generator's rows with the data. *)
Definition codeword (isa : Isa) (k m size : nat) (data cw : list bytes) : Prop :=
  length cw = (k + m)%nat ∧
  ∀ i sym g, cw !! i = Some sym → build_generator isa k m !! i = Some g → satisfied data size (g ++ sym).

Lemma decode_codeword isa isa' cache k m size data cw survived :
  (0 < k)%nat → (0 < size)%nat → (k + m ≤ 256)%nat → length data = k → Forall (λ d, length d = size) data →
  codeword isa k m size data cw → cache_ok isa' cache →
  Forall (λ x : nat * bytes, cw !! x.1 = Some x.2) survived → (k ≤ length survived)%nat →
  NoDup (take k survived).*1 → (rs_decode isa' cache k m size survived).2 = Ok data.
Proof.
  intros Hk Hs Hn Hl Hd [Hlen Hsat] Hc' Hsv Hsl Hnd. destruct (generator_ok isa' cache k m Hc') as [Hg' _].
  unfold rs_decode. destruct (Nat.ltb_spec (length survived) k); [lia|].
  destruct (generator isa' cache k m) as [c' g']. cbn [snd fst] in *. subst g'.
  rewrite (build_generator_isa isa' isa). set (G := build_generator isa k m) in *.
  set (rin := take k survived) in *.
  assert (length rin = k) as Hrl by (unfold rin; rewrite length_take; lia).
  assert (Forall (λ x : nat * bytes, cw !! x.1 = Some x.2) rin) as Hri by (by apply Forall_take).
  assert (∀ x, x ∈ rin → (x.1 < k + m)%nat ∧ ∃ g, G !! x.1 = Some g ∧ length g = k ∧ length x.2 = size) as Hin.
  { intros x Hx. pose proof (proj1 (Forall_elem _ _) Hri _ Hx) as Hx'. cbn in Hx'.
    assert (x.1 < k + m)%nat as Hlt by (apply lookup_lt_Some in Hx'; lia). split; [done|].
    destruct (generator_row isa k m Hn x.1 Hlt) as (g & Hg & Hgl & _). exists g. split_and!; [done|done|].
    destruct (Hsat x.1 x.2 g Hx' Hg) as [E _]. rewrite length_app in E. lia. }
  destruct (survivor_rows_ok G k size rin) as (gs & H2 & Hrows).
  { apply Forall_elem. intros x Hx. destruct (Hin x Hx) as (_ & g & ? & ? & ?). split; [by exists g|done]. }
  assert (length gs = k) as Hgsl by (rewrite <-(Forall2_length H2), length_fmap; done).
  assert (Forall (λ g, length g = k) gs) as Hgk.
  { apply Forall_lookup_2. intros j g Hj. destruct (Forall2_lookup_r _ _ _ _ _ H2 Hj) as (i & Hi & Hgi).
    apply list_elem_of_lookup_2, list_elem_of_fmap in Hi as (x & -> & Hx).
    destruct (Hin x Hx) as (_ & g' & Hg2 & Hgl & _). cbn in Hgi. congruence. }
  destruct (solve_rows isa' k size data (zip_with app gs rin.*2)) as (mat & Hmat & Hout); try done.
  { rewrite length_zip_with, length_fmap. lia. }
  { by apply (survivors_satisfied G cw). }
  { apply rows_independent; [done|rewrite length_fmap; lia|].
    apply (generator_independent isa k m Hn rin.*1 gs); [by rewrite length_fmap|done| |done].
    apply Forall_fmap, Forall_elem. intros x Hx. by apply Hin. }
  rewrite Hrows. cbn [obind]. rewrite Hmat, Nat.ltb_irrefl. destruct (Nat.eqb_spec (k + size) 0); [lia|].
  rewrite Hout, bool_decide_eq_false_2; [done|]. intros He. apply (proj1 (Forall_elem _ _) Hd) in He. cbn in He. lia.
Qed.

Lemma encode_codeword isa cache k m size data :
  (0 < k)%nat → (k + m ≤ 256)%nat → length data = k → Forall (λ d, length d = size) data → cache_ok isa cache →
  ∃ cw, (RsEncoder_new isa cache k m size).2 = Ok (mkRs (build_generator isa k m) k (k + m) size) ∧
    rs_encode isa (mkRs (build_generator isa k m) k (k + m) size) data = Ok cw ∧
    codeword isa k m size data cw ∧ take k cw = data.
Proof.
  intros Hk Hn Hl Hd Hc. unfold RsEncoder_new. destruct (Nat.eqb_spec k 0); [lia|].
  destruct (generator_ok isa cache k m Hc) as [Hg _].
  destruct (generator isa cache k m) as [c g]. cbn [snd fst] in *. subst g.
  destruct (encode_spec isa isa k m size data Hn Hl Hd) as (cw & Hcw & Hlen & Htk & Hsat). by exists cw.
Qed.

(** C11: Any [k] of the [n] symbols reconstruct: whenever [k + m <= 256], a decoder
    (on any machine, with its own memo table) that is given at least [k]
    symbols of a codeword, the first [k] with distinct indices, returns the
    data; encoding is systematic. *)
Theorem rs_any_k isa isa' cache cache' k m size data :
  (0 < k)%nat → (0 < size)%nat → (k + m ≤ 256)%nat → length data = k → Forall (λ d, length d = size) data →
  cache_ok isa cache → cache_ok isa' cache' →
  ∃ e cw, (RsEncoder_new isa cache k m size).2 = Ok e ∧ rs_encode isa e data = Ok cw ∧
    length cw = (k + m)%nat ∧ take k cw = data ∧
    ∀ survived, Forall (λ x : nat * bytes, cw !! x.1 = Some x.2) survived → (k ≤ length survived)%nat →
      NoDup (take k survived).*1 → (rs_decode isa' cache' k m size survived).2 = Ok data.
Proof.
  intros Hk Hs Hn Hl Hd Hc Hc'.
  destruct (encode_codeword isa cache k m size data Hk Hn Hl Hd Hc) as (cw & He & Hcw & Hword & Htk).
  eexists _, cw. split_and!; [done|done|apply Hword|done|]. intros survived Hsv Hsl Hnd.
  by apply (decode_codeword isa isa' cache' k m size data cw).
Qed.

(** ** Witnesses *)
Module RsWitness.
Definition data : list bytes := [[Byte.x01; Byte.x02]; [Byte.x03; Byte.xff]; [Byte.x00; Byte.x10]].

Lemma rs_any_k_witness :
  ∃ e cw, (RsEncoder_new Avx2 ∅ 3 2 2).2 = Ok e ∧ rs_encode Avx2 e data = Ok cw ∧
    length cw = 5%nat ∧ take 3 cw = data ∧
    ∀ survived, Forall (λ x : nat * bytes, cw !! x.1 = Some x.2) survived → (3 ≤ length survived)%nat →
      NoDup (take 3 survived).*1 → (rs_decode Neon ∅ 3 2 2 survived).2 = Ok data.
Proof.
  apply (rs_any_k Avx2 Neon ∅ ∅ 3 2 2 data); [lia|lia|lia|reflexivity| | |].
  - apply (bool_decide_unpack _). vm_compute. exact I.
  - apply cache_ok_empty.
  - apply cache_ok_empty.
Defined.

(** Past 256 symbols the evaluation points repeat: symbols 0 and 256 of a
    two-symbol generation are equal, and do not decode together. *)
Theorem rs_points_repeat :
  let data := [[Byte.x01]; [Byte.x02]] in
  match (RsEncoder_new Avx2 ∅ 2 255 1).2 with
  | Ok e =>
      match rs_encode Avx2 e data with
      | Ok cw =>
          (rs_decode Avx2 ∅ 2 255 1 [(0%nat, default [] (cw !! 0%nat)); (256%nat, default [] (cw !! 256%nat))]).2
          = Err (RsInsufficient 1 2)
      | _ => False
      end
  | _ => False
  end.
Proof. vm_compute. reflexivity. Qed.
End RsWitness.
