(* ===== verification/Rlnc.v ===== *)
(** * Rlnc: random linear network coding of [coding/src/rlnc.rs]

    Packets are linear combinations of the sources with their coefficient
    vector; the decoder keeps its rows in reduced form with the pivots cached.
    [code] draws coefficients until one is not zero: the loop runs on fuel. *)

From S2P Require Import Prelude Gf256 GfVec Gauss LinAlg FountainSig Fountain FountainCorrect.

Inductive RlncError : Type :=
| RlncInsufficient (have need : Z)
| RlncSingular (have : Z)
| RlncSizeMismatch (exp got : Z).

Record CodedPacket : Type := mkPacket { coeffs : list byte; pk_payload : bytes }.

(** ** The generator [Lcg] *)

Definition Lcg : Type := Z.
Definition Lcg_new (seed : Z) : Lcg := wrap 64 (0x9E3779B97F4A7C15 * Z.lxor seed 0xD1B54A32D192ED03).
Definition lcg_next_u64 (g : Lcg) : Lcg := wrap 64 (wrap 64 (g * 6364136223846793005) + 1442695040888963407).
(** [next_u8]: the new state and bits 40 to 47 of it. *)
Definition next_u8 (g : Lcg) : Lcg * byte :=
  let g := lcg_next_u64 g in (g, byte.of_Z (wrap 8 (Z.shiftr g 40))).

(** ** The encoder *)

Record RlncEncoder : Type := mkRlnc {
  e_k : nat;
  e_symbol_size : nat;
  e_source : list bytes;
  e_rng : Lcg
}.

(** [Vec::resize(n, 0)]. *)
Definition resize0 (n : nat) (l : bytes) : bytes := take n l ++ replicate (n - length l) Byte.x00.

Definition RlncEncoder_new (source : list bytes) (symbol_size : nat) (seed : Z) : RlncEncoder :=
  mkRlnc (length source) symbol_size (resize0 symbol_size <$> source) (Lcg_new seed).
Definition RlncEncoder_new_shared (source : list bytes) (symbol_size : nat) (seed : Z) : RlncEncoder :=
  mkRlnc (length source) symbol_size source (Lcg_new seed).

(** One round of the draw: [k] bytes. *)
Fixpoint draw (k : nat) (g : Lcg) : Lcg * list byte :=
  match k with
  | O => (g, [])
  | S k' => let '(g, v) := next_u8 g in let '(g, vs) := draw k' g in (g, v :: vs)
  end.

Fixpoint draw_loop (fuel : nat) (k : nat) (g : Lcg) : option (Lcg * list byte) :=
  match fuel with
  | O => None
  | S fuel' =>
      let '(g, cs) := draw k g in
      if existsb (λ c, negb (Byte.eqb c Byte.x00)) cs then Some (g, cs) else draw_loop fuel' k g
  end.

Definition code (fuel : nat) (isa : Isa) (e : RlncEncoder) : option (RlncEncoder * CodedPacket) :=
  match draw_loop fuel (e_k e) (e_rng e) with
  | None => None
  | Some (g, cs) =>
      let payload := axpy_all isa (zip cs (e_source e)) (replicate (e_symbol_size e) Byte.x00) in
      Some (mkRlnc (e_k e) (e_symbol_size e) (e_source e) g, mkPacket cs payload)
  end.

Fixpoint code_batch (fuel : nat) (isa : Isa) (n : nat) (e : RlncEncoder) : option (RlncEncoder * list CodedPacket) :=
  match n with
  | O => Some (e, [])
  | S n' =>
      match code fuel isa e with
      | None => None
      | Some (e, p) =>
          match code_batch fuel isa n' e with None => None | Some (e, ps) => Some (e, p :: ps) end
      end
  end.

(** The index loop of [code_sparse]; [guard] bounds its rounds. *)
Fixpoint sparse_loop (guard k degree : nat) (g : Lcg) (cs : list byte) (chosen : list nat)
    : Lcg * list byte * list nat :=
  match guard with
  | O => (g, cs, chosen)
  | S guard' =>
      if (length chosen <? degree)%nat then
        let g := lcg_next_u64 g in
        let idx := Z.to_nat (Z.shiftr g 40 mod Z.of_nat k) in
        if Byte.eqb (cell cs idx) Byte.x00 then
          let '(g, v) := next_u8 g in
          let c := byte.of_Z (Z.lor (byte.unsigned v) 1) in
          sparse_loop guard' k degree g (<[idx := c]> cs) (chosen ++ [idx])
        else sparse_loop guard' k degree g cs chosen
      else (g, cs, chosen)
  end.

Definition code_sparse (isa : Isa) (e : RlncEncoder) (degree : nat) : RlncEncoder * CodedPacket :=
  let degree := Nat.min (Nat.max degree 1) (e_k e) in
  let '(g, cs, chosen) := sparse_loop (8 * e_k e) (e_k e) degree (e_rng e) (replicate (e_k e) Byte.x00) [] in
  let payload := foldl (λ acc i, axpy isa acc (cell cs i) (default [] (e_source e !! i)))
                   (replicate (e_symbol_size e) Byte.x00) chosen in
  (mkRlnc (e_k e) (e_symbol_size e) (e_source e) g, mkPacket cs payload).

(** ** The decoder *)

Record RlncDecoder : Type := mkDec {
  r_k : nat;
  r_symbol_size : nat;
  r_rows : list (list byte);
  r_pivots : list nat
}.

Definition RlncDecoder_new (k symbol_size : nat) : RlncDecoder := mkDec k symbol_size [] [].
Definition rlnc_rank (d : RlncDecoder) : nat := length (r_rows d).

(** [row.iter().position(|&x| x != 0)]. *)
Fixpoint position_nonzero (row : list byte) : option nat :=
  match row with
  | [] => None
  | b :: row' => if negb (Byte.eqb b Byte.x00) then Some 0%nat else S <$> position_nonzero row'
  end.

(** Clear the cached pivots of a new row. *)
Definition reduce (isa : Isa) (rps : list (list byte * nat)) (row : list byte) : list byte :=
  foldl (λ row ep,
    let c := cell row ep.2 in if Byte.eqb c Byte.x00 then row else axpy isa row c ep.1) row rps.

Definition rlnc_add (isa : Isa) (d : RlncDecoder) (p : CodedPacket) : RlncDecoder * outcome RlncError bool :=
  if negb (length (coeffs p) =? r_k d)%nat
  then (d, Err (RlncSizeMismatch (Z.of_nat (r_k d)) (zlen (coeffs p))))
  else if negb (length (pk_payload p) =? r_symbol_size d)%nat
  then (d, Err (RlncSizeMismatch (Z.of_nat (r_symbol_size d)) (zlen (pk_payload p))))
  else
    let row := coeffs p ++ pk_payload p in
    let row := reduce isa (zip (r_rows d) (r_pivots d)) row in
    match position_nonzero (take (r_k d) row) with
    | Some piv =>
        let row := scal_inplace isa row (inv (cell row piv)) in
        let rows := (λ e, let c := cell e piv in
                          if Byte.eqb c Byte.x00 then e else axpy isa e c row) <$> r_rows d in
        (mkDec (r_k d) (r_symbol_size d) (rows ++ [row]) (r_pivots d ++ [piv]), Ok true)
    | None => (d, Ok false)
    end.

Fixpoint rlnc_add_all (isa : Isa) (d : RlncDecoder) (ps : list CodedPacket) : RlncDecoder :=
  match ps with
  | [] => d
  | p :: ps' => rlnc_add_all isa (rlnc_add isa d p).1 ps'
  end.

(** The placement of the rows; the pivots are columns of the coefficients. *)
Definition place_rows (k : nat) (rps : list (list byte * nat)) (out : list bytes) (seen : list bool)
    : list bytes * list bool :=
  foldl (λ os rp, (<[rp.2 := drop k rp.1]> os.1, <[rp.2 := true]> os.2)) (out, seen) rps.

Definition rlnc_decode (d : RlncDecoder) : outcome RlncError (list bytes) :=
  if (length (r_rows d) <? r_k d)%nat
  then Err (RlncInsufficient (zlen (r_rows d)) (Z.of_nat (r_k d)))
  else
    let '(out, seen) := place_rows (r_k d) (zip (r_rows d) (r_pivots d))
                          (replicate (r_k d) (replicate (r_symbol_size d) Byte.x00)) (replicate (r_k d) false) in
    if existsb negb seen then Err (RlncSingular (zlen (r_rows d))) else Ok out.

(** ** Sparse packets *)

(** [peel_decode]: the dense rows as sparse symbols. *)
Definition cover_of_row (k : nat) (r : list byte) : gmap nat byte :=
  foldl (λ m idx, if Byte.eqb (cell r idx) Byte.x00 then m else <[idx := cell r idx]> m) ∅ (seq 0 k).

Definition peel_decode (isa : Isa) (rows : list (list byte)) (k s : nat) : outcome FountainError (list bytes) :=
  let syms := omap (λ r,
    let c := cover_of_row k r in
    if bool_decide (c = ∅) then None else Some (mkSym c (take s (drop k r)))) rows in
  (peel_symbols isa syms k s).2.

(** The rows of [sparse_decode]: [copy_from_slice] panics on other sizes. *)
Fixpoint sparse_rows (packets : list CodedPacket) (k s : nat) : outcome RlncError (list (list byte)) :=
  match packets with
  | [] => Ok []
  | p :: ps =>
      if existsb (λ c, negb (Byte.eqb c Byte.x00)) (coeffs p) then
        if negb (length (coeffs p) =? k)%nat || negb (length (pk_payload p) =? s)%nat then Panic
        else let? rest := sparse_rows ps k s in Ok ((coeffs p ++ pk_payload p) :: rest)
      else sparse_rows ps k s
  end.

Definition sparse_decode (isa : Isa) (packets : list CodedPacket) (k s : nat) : outcome RlncError (list bytes) :=
  let? rows := sparse_rows packets k s in
  map_err (λ e, match e with
                | FUnderdetermined have need => RlncInsufficient have need
                | _ => RlncSingular (Z.of_nat k)
                end) (peel_decode isa rows k s).

(** ** The reduced form *)

Section Reduced.
Context (isa : Isa).

(** Rows with their pivots: each row has a one in its own pivot column and a
    zero in the pivot column of every other. *)
Definition rref (rps : list (list byte * nat)) : Prop :=
  ∀ i j e p e' p', rps !! i = Some (e, p) → rps !! j = Some (e', p') →
    cell e p' = if (i =? j)%nat then Byte.x01 else Byte.x00.

Lemma rref_tail ep rps : rref (ep :: rps) → rref rps.
Proof. intros H i j e p e' p' Hi Hj. apply (H (S i) (S j) e p e' p' Hi Hj). Qed.

Lemma reduce_cons e p rps row :
  reduce isa ((e, p) :: rps) row =
  reduce isa rps (if Byte.eqb (cell row p) Byte.x00 then row else axpy_ref (cell row p) e row).
Proof. unfold reduce. cbn [foldl fst snd]. unfold axpy. by rewrite gf_axpy_slice_eq. Qed.

Lemma reduce_closed P rps row :
  row_closed P → Forall (λ ep, P ep.1) rps → P row → P (reduce isa rps row).
Proof.
  intros Hc H. revert row. induction H as [|[e p] rps He _ IH]; intros row Hr; [done|].
  rewrite reduce_cons. apply IH. case_match; [done|]. by apply Hc.
Qed.

(** A column that is zero in every row keeps its value. *)
Lemma reduce_cell rps row len q :
  Forall (λ ep, length ep.1 = len ∧ cell ep.1 q = Byte.x00) rps → length row = len →
  cell (reduce isa rps row) q = cell row q.
Proof.
  intros H. revert row. induction H as [|[e p] rps [Hl Hq] _ IH]; intros row Hr; [done|].
  rewrite reduce_cons. case_match; [by apply IH|]. rewrite IH by (by rewrite length_axpy_ref).
  cbn in *. rewrite cell_axpy by congruence. rewrite Hq, gf_mul_0_r. apply xor_0_r.
Qed.

Lemma reduce_pivots rps row len :
  rref rps → Forall (λ ep, length ep.1 = len) rps → length row = len →
  ∀ i e p, rps !! i = Some (e, p) → cell (reduce isa rps row) p = Byte.x00.
Proof.
  revert row. induction rps as [|[e0 p0] rps IH]; intros row Hr Hl Hlen i e p Hi; [done|].
  apply Forall_cons_iff in Hl as [Hl0 Hl]. cbn in Hl0. rewrite reduce_cons.
  set (row1 := if Byte.eqb _ _ then _ else _).
  assert (length row1 = len) as Hl1 by (unfold row1; case_match; [done|by rewrite length_axpy_ref]).
  destruct i as [|i]; cbn in Hi.
  - injection Hi as -> ->. rewrite (reduce_cell rps row1 len); [|apply Forall_lookup_2|done].
    + unfold row1. destruct (Byte.eqb (cell row p) Byte.x00) eqn:Hc; [by apply Byte.byte_dec_bl in Hc|].
      rewrite cell_axpy by congruence. rewrite (Hr 0%nat 0%nat e p e p eq_refl eq_refl). cbn.
      rewrite gf_mul_1_r. apply xor_nilpotent.
    + intros j [e' p'] Hj. split; [by apply (Forall_lookup_1 _ _ _ _ Hl Hj)|].
      apply (Hr (S j) 0%nat e' p' e p Hj eq_refl).
  - by apply (IH row1 (rref_tail _ _ Hr) Hl Hl1 i e p).
Qed.

Lemma reduce_dotp rps row len y :
  Forall (λ ep, length ep.1 = len ∧ dotp ep.1 y = Byte.x00) rps → length row = len →
  dotp (reduce isa rps row) y = dotp row y.
Proof.
  intros H. revert row. induction H as [|[e p] rps [Hl Hq] _ IH]; intros row Hr; [done|].
  rewrite reduce_cons. case_match; [by apply IH|]. rewrite IH by (by rewrite length_axpy_ref).
  cbn in *. rewrite dotp_axpy by congruence. rewrite Hq, gf_mul_0_r. apply xor_0_r.
Qed.

Lemma position_nonzero_spec row :
  match position_nonzero row with
  | Some i => (i < length row)%nat ∧ cell row i ≠ Byte.x00
  | None => row = replicate (length row) Byte.x00
  end.
Proof.
  induction row as [|b row IH]; cbn; [done|]. destruct (Byte.eqb b Byte.x00) eqn:Hb; cbn [negb].
  - apply Byte.byte_dec_bl in Hb as ->. destruct (position_nonzero row) as [i|]; cbn.
    + destruct IH. split; [lia|done].
    + by rewrite <-IH.
  - split; [lia|]. cbn. intros ->. by cbn in Hb.
Qed.

(** ** One packet *)

Context (xs : list bytes) (s : nat).
Context (Hxs : Forall (λ x, length x = s) xs).
Let k : nat := length xs.

(** A packet that is the combination it claims. *)
Definition coded_packet (p : CodedPacket) : Prop :=
  length (coeffs p) = k ∧ length (pk_payload p) = s ∧ satisfied xs s (coeffs p ++ pk_payload p).

Record dec_ok (ps : list CodedPacket) (d : RlncDecoder) : Prop := {
  do_k : r_k d = k;
  do_size : r_symbol_size d = s;
  do_pivots : length (r_pivots d) = length (r_rows d);
  do_range : Forall (λ p, (p < k)%nat) (r_pivots d);
  do_rref : rref (zip (r_rows d) (r_pivots d));
  do_sat : Forall (satisfied xs s) (r_rows d);
  do_kernel : ∀ y, length y = k → kernel (r_rows d) y ↔ kernel (coeffs <$> ps) y
}.

Lemma new_dec_ok : dec_ok [] (RlncDecoder_new k s).
Proof. split; try done; try constructor; intros; constructor. Qed.

Lemma zip_fst_Forall (P : list byte → Prop) (rows : list (list byte)) (ps : list nat) :
  Forall P rows → Forall (λ ep, P ep.1) (zip rows ps).
Proof. intros H. revert ps. induction H; intros [|p ps]; cbn; constructor; auto. Qed.

Lemma zip_lookup_inv (rows : list (list byte)) (ps : list nat) i e p :
  zip rows ps !! i = Some (e, p) ↔ rows !! i = Some e ∧ ps !! i = Some p.
Proof. rewrite lookup_zip_with_Some. naive_solver. Qed.

(** Clearing the new pivot column keeps the reduced form. *)
Lemma rref_extend rows pivots row piv len :
  length pivots = length rows → Forall (λ e, length e = len) rows → length row = len →
  rref (zip rows pivots) → (∀ j p, pivots !! j = Some p → cell row p = Byte.x00) → cell row piv = Byte.x01 →
  let rows' := (λ e, if Byte.eqb (cell e piv) Byte.x00 then e else axpy_ref (cell e piv) row e) <$> rows in
  rref (zip (rows' ++ [row]) (pivots ++ [piv])).
Proof.
  intros Hlp Hl Hlr Hr Hz H1. cbn zeta. set (f := λ e : list byte, if Byte.eqb (cell e piv) Byte.x00 then e else axpy_ref (cell e piv) row e).
  assert (∀ e q, length e = len → cell row q = Byte.x00 → cell (f e) q = cell e q) as Hf.
  { intros e q He Hq. unfold f. case_match; [done|]. rewrite cell_axpy by congruence.
    rewrite Hq, gf_mul_0_r. apply xor_0_r. }
  assert (∀ e, length e = len → cell (f e) piv = Byte.x00) as Hfp.
  { intros e He. unfold f. destruct (Byte.eqb (cell e piv) Byte.x00) eqn:Hc; [by apply Byte.byte_dec_bl in Hc|].
    rewrite cell_axpy by congruence. rewrite H1, gf_mul_1_r. apply xor_nilpotent. }
  intros i j e p e' p' [Hi Hpi]%zip_lookup_inv [Hj Hpj]%zip_lookup_inv.
  apply lookup_app_Some in Hi, Hpi, Hj, Hpj. rewrite length_fmap in *.
  destruct Hpj as [Hpj|[Hgej Hpj]]; destruct Hi as [Hi|[Hgei Hi]].
  - rewrite list_lookup_fmap in Hi. destruct (rows !! i) as [e0|] eqn:He0; [|done]. injection Hi as <-.
    rewrite Hf; [|by apply (Forall_lookup_1 _ _ _ _ Hl He0)|by eapply Hz].
    assert (is_Some (rows !! j)) as [ej Hej] by (apply lookup_lt_is_Some_2; apply lookup_lt_Some in Hpj; lia).
    assert (is_Some (pivots !! i)) as [pi' Hpi'] by (apply lookup_lt_is_Some_2; apply lookup_lt_Some in He0; lia).
    apply (Hr i j e0 pi' ej p'); by apply zip_lookup_inv.
  - apply list_lookup_singleton_Some in Hi as [Hi <-]. rewrite (Hz j p' Hpj).
    apply lookup_lt_Some in Hpj. by destruct (Nat.eqb_spec i j); [lia|].
  - apply list_lookup_singleton_Some in Hpj as [Hpj <-]. rewrite list_lookup_fmap in Hi.
    destruct (rows !! i) as [e0|] eqn:He0; [|done]. injection Hi as <-.
    rewrite Hfp by (by apply (Forall_lookup_1 _ _ _ _ Hl He0)). apply lookup_lt_Some in He0.
    by destruct (Nat.eqb_spec i j); [lia|].
  - apply list_lookup_singleton_Some in Hpj as [Hpj <-]. apply list_lookup_singleton_Some in Hi as [Hi <-].
    rewrite H1. by destruct (Nat.eqb_spec i j); [|lia].
Qed.
(** The kernel after the elimination of a new pivot. *)
Lemma extend_kernel rows row c piv len y :
  Forall (λ e, length e = len) rows → length row = len → c ≠ Byte.x00 →
  let row' := scal_ref c row in
  kernel (((λ e, if Byte.eqb (cell e piv) Byte.x00 then e else axpy_ref (cell e piv) row' e) <$> rows) ++ [row']) y
  ↔ kernel rows y ∧ dotp row y = Byte.x00.
Proof.
  intros Hl Hlr Hc. cbn zeta. unfold kernel. rewrite Forall_app, Forall_fmap.
  assert (dotp (scal_ref c row) y = Byte.x00 ↔ dotp row y = Byte.x00) as Hr.
  { rewrite dotp_scal. split; [|intros ->; apply gf_mul_0_r]. by intros [|]%gf_mul_zero_inv. }
  assert (dotp (scal_ref c row) y = Byte.x00 → ∀ e, e ∈ rows →
    dotp (if Byte.eqb (cell e piv) Byte.x00 then e else axpy_ref (cell e piv) (scal_ref c row) e) y = dotp e y) as He.
  { intros H0 e Hin. case_match; [done|]. pose proof (proj1 (Forall_elem _ _) Hl e Hin) as Hle. cbn in Hle.
    rewrite dotp_axpy by (unfold scal_ref; rewrite length_fmap; congruence). rewrite H0, gf_mul_0_r. apply xor_0_r. }
  split.
  - intros [Hk [H0 _]%Forall_cons_iff]. split; [|by apply Hr]. apply Forall_elem. intros e Hin.
    rewrite <-(He H0 e Hin). by apply (proj1 (Forall_elem _ _) Hk).
  - intros [Hk H0%Hr]. split; [|by repeat constructor]. apply Forall_elem. intros e Hin. cbn.
    rewrite (He H0 e Hin). by apply (proj1 (Forall_elem _ _) Hk).
Qed.

(** A row that was reduced by the basis: still a combination of the sources, zero
    at the pivots, and with the packet's coefficients on the kernel. *)
Lemma reduced_row ps d p :
  dec_ok ps d → coded_packet p →
  let row := reduce isa (zip (r_rows d) (r_pivots d)) (coeffs p ++ pk_payload p) in
  satisfied xs s row ∧ (∀ j q, r_pivots d !! j = Some q → cell row q = Byte.x00) ∧
  ∀ y, length y = k → kernel (r_rows d) y ∧ dotp row y = Byte.x00 ↔ kernel (coeffs <$> ps ++ [p]) y.
Proof.
  intros [Hk Hs Hp Hrg Hr Hsat Hker] (Hpc & Hpp & Hps). cbn zeta.
  set (row0 := coeffs p ++ pk_payload p). set (rps := zip (r_rows d) (r_pivots d)).
  assert (Forall (λ e, length e = (k + s)%nat) (r_rows d)) as Hl by (eapply Forall_impl; [|exact Hsat]; by intros e [? _]).
  assert (length row0 = (k + s)%nat) as Hl0 by (apply Hps).
  split_and!.
  - apply reduce_closed; [apply satisfied_closed| |done]. by apply zip_fst_Forall.
  - intros j q Hq.
    assert (is_Some (r_rows d !! j)) as [e He] by (apply lookup_lt_is_Some_2; apply lookup_lt_Some in Hq; lia).
    apply (reduce_pivots rps row0 (k + s) Hr) with (i := j) (e := e); [|exact Hl0|by apply zip_lookup_inv].
    by apply (zip_fst_Forall (λ e, length e = (k + s)%nat)).
  - intros y Hy. assert (dotp row0 y = dotp (coeffs p) y) as Hc0.
    { rewrite <-(dotp_take row0 y k) by lia. unfold row0. by rewrite take_app_length'. }
    assert (kernel (r_rows d) y → dotp (reduce isa rps row0) y = dotp row0 y) as Hd1.
    { intros Hyk. apply (reduce_dotp rps row0 (k + s)); [|done].
      apply (zip_fst_Forall (λ e, length e = (k + s)%nat ∧ dotp e y = Byte.x00)). by apply Forall_and. }
    unfold kernel at 2. rewrite fmap_app, Forall_app, <-(Hker y Hy). cbn. rewrite Forall_cons_iff. split.
    + intros [H1 H2]. rewrite (Hd1 H1), Hc0 in H2. split; [done|]. by split.
    + intros [H1 [H2 _]]. split; [done|]. by rewrite (Hd1 H1), Hc0.
Qed.

Lemma add_packet_ok ps d p :
  dec_ok ps d → coded_packet p →
  ∃ d' b, rlnc_add isa d p = (d', Ok b) ∧ dec_ok (ps ++ [p]) d' ∧
    rlnc_rank d' = (rlnc_rank d + if b then 1 else 0)%nat.
Proof.
  intros Hok Hcp. destruct (reduced_row ps d p Hok Hcp) as (Hs1 & Hz & Hk').
  destruct Hok as [Hk Hs Hp Hrg Hr Hsat Hker], Hcp as (Hpc & Hpp & Hps). unfold rlnc_add.
  rewrite Hk, Hpc, Hs, Hpp, !Nat.eqb_refl. cbn [negb].
  set (row1 := reduce isa (zip (r_rows d) (r_pivots d)) (coeffs p ++ pk_payload p)) in *.
  assert (Forall (λ e, length e = (k + s)%nat) (r_rows d)) as Hl by (eapply Forall_impl; [|exact Hsat]; by intros e [? _]).
  assert (length row1 = (k + s)%nat) as Hl1 by (apply Hs1).
  pose proof (position_nonzero_spec (take k row1)) as Hpos.
  destruct (position_nonzero (take k row1)) as [piv|].
  - destruct Hpos as [Hpl Hpn]. rewrite length_take in Hpl. rewrite cell_take in Hpn by lia.
    destruct (gf_mul_inv _ Hpn) as [Hinv Hin0].
    unfold scal_inplace. rewrite gf_scal_slice_eq. unfold inv. set (c := gf_inv (cell row1 piv)) in *.
    eexists _, true. split; [done|]. split; [|unfold rlnc_rank; cbn; by rewrite length_app, length_fmap].
    rewrite (list_fmap_ext _ (λ e, if Byte.eqb (cell e piv) Byte.x00 then e else axpy_ref (cell e piv) (scal_ref c row1) e))
      by (intros; unfold axpy; by rewrite gf_axpy_slice_eq).
    split; cbn [r_k r_symbol_size r_rows r_pivots].
    + done.
    + done.
    + rewrite !length_app, length_fmap. cbn. lia.
    + apply Forall_app. split; [done|]. constructor; [lia|constructor].
    + apply (rref_extend _ _ _ _ (k + s)); [done|done|unfold scal_ref; by rewrite length_fmap|done| |].
      * intros j q Hq. by rewrite cell_scal, (Hz j q Hq), gf_mul_0_r.
      * rewrite cell_scal. exact Hinv.
    + assert (satisfied xs s (scal_ref c row1)) as Hsr by (apply (satisfied_closed xs s); exact Hs1).
      apply Forall_app. split; [|constructor; [exact Hsr|constructor]]. apply Forall_fmap.
      eapply Forall_impl; [|exact Hsat]. intros e He. cbn beta. unfold compose.
      destruct (Byte.eqb _ _); [exact He|]. apply (satisfied_closed xs s); [exact Hsr|exact He].
    + intros y Hy. rewrite (extend_kernel (r_rows d) row1 c piv (k + s)) by done. by apply Hk'.
  - eexists d, false. split; [done|]. split; [|unfold rlnc_rank; lia]. split; try done.
    intros y Hy. rewrite <-(Hk' y Hy). split; [|by intros [? _]]. intros Hyk. split; [done|].
    rewrite <-(dotp_take row1 y k) by lia. rewrite Hpos. apply dotp_zeros_l.
Qed.

Lemma add_all_packets_ok ps d ps' :
  dec_ok ps d → Forall coded_packet ps' → dec_ok (ps ++ ps') (rlnc_add_all isa d ps').
Proof.
  intros Hd H. revert ps d Hd. induction H as [|p ps' Hp _ IH]; intros ps d Hd; cbn; [by rewrite app_nil_r|].
  destruct (add_packet_ok ps d p Hd Hp) as (d' & b & -> & Hd' & _). cbn.
  rewrite cons_middle, (assoc_L (++)). by apply IH.
Qed.
(** ** Decoding *)

Lemma pivots_NoDup ps d : dec_ok ps d → NoDup (r_pivots d).
Proof.
  intros [_ _ Hp _ Hr _ _]. apply list.NoDup_alt. intros i j p Hi Hj.
  assert (is_Some (r_rows d !! i)) as [e He] by (apply lookup_lt_is_Some_2; apply lookup_lt_Some in Hi; lia).
  assert (is_Some (r_rows d !! j)) as [e' He'] by (apply lookup_lt_is_Some_2; apply lookup_lt_Some in Hj; lia).
  pose proof (Hr i i e p e p (proj2 (zip_lookup_inv _ _ _ _ _) (conj He Hi)) (proj2 (zip_lookup_inv _ _ _ _ _) (conj He Hi))) as H1.
  pose proof (Hr i j e p e' p (proj2 (zip_lookup_inv _ _ _ _ _) (conj He Hi)) (proj2 (zip_lookup_inv _ _ _ _ _) (conj He' Hj))) as H2.
  rewrite Nat.eqb_refl in H1. destruct (Nat.eqb_spec i j); [done|]. rewrite H1 in H2. discriminate H2.
Qed.

Lemma dotp_insert_r e y p v : (p < length y)%nat → (p < length e)%nat → cell y p = Byte.x00 →
  dotp e (<[p := v]> y) = dotp e y ⊕ gf_mul (cell e p) v.
Proof.
  revert e p. induction y as [|b y IH]; intros [|a e] p Hp Hl Hz; cbn in Hp, Hl; try lia.
  destruct p as [|p].
  - change (b = Byte.x00) in Hz. subst b. cbn [dotp].
    change (gf_mul a v ⊕ dotp e y = (gf_mul a Byte.x00 ⊕ dotp e y) ⊕ gf_mul a v).
    rewrite gf_mul_0_r, xor_0_l. apply xor_comm.
  - change (gf_mul a b ⊕ dotp e (<[p := v]> y) = (gf_mul a b ⊕ dotp e y) ⊕ gf_mul (cell e p) v).
    rewrite (IH e p) by (done || lia). symmetry. apply xor_assoc.
Qed.

Definition scatter (c : nat) (rps : list (list byte * nat)) (y : list byte) : list byte :=
  foldl (λ y ep, <[ep.2 := cell ep.1 c]> y) y rps.

Lemma scatter_cell c rps y q : q ∉ rps.*2 → cell (scatter c rps y) q = cell y q.
Proof.
  revert y. induction rps as [|[e p] rps IH]; intros y Hq; [done|]. cbn in Hq.
  apply not_elem_of_cons in Hq as [Hqp Hq]. change (scatter c ((e, p) :: rps) y) with (scatter c rps (<[p := cell e c]> y)). rewrite IH by done.
  unfold cell. by rewrite list_lookup_insert_ne.
Qed.

Lemma length_scatter c rps y : length (scatter c rps y) = length y.
Proof.
  revert y. induction rps as [|[e p] rps IH]; intros y; [done|].
  change (scatter c ((e, p) :: rps) y) with (scatter c rps (<[p := cell e c]> y)). rewrite IH. apply length_insert.
Qed.

(** Rows with zeros in the scattered columns do not see the change. *)
Lemma scatter_dotp_0 c rps y e :
  NoDup rps.*2 → Forall (λ ep, (ep.2 < length y)%nat ∧ cell e ep.2 = Byte.x00 ∧ cell y ep.2 = Byte.x00) rps →
  (length y ≤ length e)%nat → dotp e (scatter c rps y) = dotp e y.
Proof.
  revert y. induction rps as [|[e0 p] rps IH]; intros y Hnd H Hl; [done|].
  cbn in Hnd. apply list.NoDup_cons in Hnd as [Hni Hnd].
  apply Forall_cons_iff in H as [(Hp & He & Hy) H]. cbn in Hp, He, Hy.
  change (scatter c ((e0, p) :: rps) y) with (scatter c rps (<[p := cell e0 c]> y)).
  rewrite IH; [|done| |by rewrite length_insert].
  - rewrite dotp_insert_r by (done || lia). rewrite He, gf_mul_0_l. apply xor_0_r.
  - apply Forall_elem. intros ep Hep. pose proof (proj1 (Forall_elem _ _) H ep Hep) as (H1 & H2 & H3).
    rewrite length_insert. split_and!; [done|done|]. unfold cell. rewrite list_lookup_insert_ne; [done|].
    intros ->. apply Hni, list_elem_of_fmap. by exists ep.
Qed.

Lemma zip_snd (rows : list (list byte)) (pivots : list nat) : length pivots = length rows → (zip rows pivots).*2 = pivots.
Proof. intros H. by apply snd_zip; lia. Qed.

(** The rows before and after row [i] have their pivots in other columns than
    [e], the [i]-th, and none in a free column. *)
Lemma pivots_elsewhere ps d c i e p :
  dec_ok ps d → c ∉ r_pivots d → zip (r_rows d) (r_pivots d) !! i = Some (e, p) →
  let clear := Forall (λ ep : list byte * nat, (ep.2 < k)%nat ∧ cell e ep.2 = Byte.x00 ∧ ep.2 ≠ c) in
  clear (take i (zip (r_rows d) (r_pivots d))) ∧ clear (drop (S i) (zip (r_rows d) (r_pivots d))).
Proof.
  intros [_ _ Hp Hrg Hr _ _] Hfree Hz. cbn zeta.
  assert (∀ j ep, zip (r_rows d) (r_pivots d) !! j = Some ep → j ≠ i →
    (ep.2 < k)%nat ∧ cell e ep.2 = Byte.x00 ∧ ep.2 ≠ c) as Hother.
  { intros j [e' p'] Hj Hji. split_and!; cbn.
    - apply zip_lookup_inv in Hj as [_ Hj]. by apply (Forall_lookup_1 _ _ _ _ Hrg Hj).
    - rewrite (Hr i j e p e' p' Hz Hj). by destruct (Nat.eqb_spec i j).
    - intros ->. apply zip_lookup_inv in Hj as [_ Hj]. apply Hfree. by eapply list_elem_of_lookup_2. }
  split; apply Forall_lookup_2; intros j ep Hj.
  - apply lookup_take_Some in Hj as [Hj Hlt]. apply (Hother j ep Hj). lia.
  - rewrite lookup_drop in Hj. apply (Hother _ ep Hj). lia.
Qed.

(** Scattering a free column makes every row vanish. *)
Lemma row_vanishes ps d c i e :
  dec_ok ps d → (c < k)%nat → c ∉ r_pivots d → r_rows d !! i = Some e →
  dotp e (scatter c (zip (r_rows d) (r_pivots d)) (<[c := Byte.x01]> (replicate k Byte.x00))) = Byte.x00.
Proof.
  intros Hok Hc Hfree He. pose proof (pivots_NoDup ps d Hok) as Hnd. pose proof Hok as [_ _ Hp Hrg Hr Hsat _].
  set (u := <[c := Byte.x01]> (replicate k Byte.x00)).
  assert (length u = k) as Hu by (unfold u; by rewrite length_insert, length_replicate).
  assert (∀ q, q ≠ c → cell u q = Byte.x00) as Hu0.
  { intros q Hq. unfold u, cell. rewrite list_lookup_insert_ne by done. apply cell_zeros. }
  assert (is_Some (r_pivots d !! i)) as [p Hpi] by (apply lookup_lt_is_Some_2; apply lookup_lt_Some in He; lia).
  pose proof (Forall_lookup_1 _ _ _ _ Hsat He) as [Hle _].
  assert (zip (r_rows d) (r_pivots d) !! i = Some (e, p)) as Hz by (by apply zip_lookup_inv).
  destruct (pivots_elsewhere ps d c i e p Hok Hfree Hz) as [Hfp Hfq].
  pose proof (take_drop_middle _ _ _ Hz) as Hsplit.
  rewrite <-(zip_snd (r_rows d) (r_pivots d) Hp), <-Hsplit, fmap_app in Hnd. rewrite <-Hsplit.
  set (pre := take i _) in *. set (post := drop (S i) _) in *.
  apply list.NoDup_app in Hnd as (Hnd3 & Hdis & [Hpq Hnd4]%list.NoDup_cons).
  assert (p ≠ c) as Hpc by (intros ->; apply Hfree; by eapply list_elem_of_lookup_2).
  assert (p < k)%nat as Hpk by (by apply (Forall_lookup_1 _ _ _ _ Hrg Hpi)).
  assert (p ∉ pre.*2) as Hppre by (intros Hin; apply (Hdis p Hin); by left).
  unfold scatter. rewrite foldl_app. cbn [foldl]. fold (scatter c pre u).
  set (y1 := scatter c pre u).
  assert (length y1 = k) as Hy1 by (unfold y1; by rewrite length_scatter).
  assert (cell y1 p = Byte.x00) as Hy1p by (unfold y1; rewrite scatter_cell by done; by apply Hu0).
  change (dotp e (scatter c post (<[p := cell e c]> y1)) = Byte.x00).
  rewrite (scatter_dotp_0 c post); [|done| |rewrite length_insert; lia].
  - rewrite dotp_insert_r by (done || lia). unfold y1. rewrite scatter_dotp_0; [|done| |lia].
    + unfold u. rewrite (dotp_unit_r e k c) by (done || lia).
      rewrite (Hr i i e p e p Hz Hz), Nat.eqb_refl, gf_mul_1_l. apply xor_nilpotent.
    + eapply Forall_impl; [|exact Hfp]. intros ep (H2 & H3 & H4). rewrite Hu. split_and!; [done|done|by apply Hu0].
  - apply Forall_elem. intros ep Hep. pose proof (proj1 (Forall_elem _ _) Hfq ep Hep) as (H2 & H3 & H4).
    assert (ep.2 ∈ post.*2) as Hin by (apply list_elem_of_fmap; by exists ep).
    rewrite length_insert, Hy1. split_and!; [done|done|]. unfold cell. rewrite list_lookup_insert_ne by (intros ->; done).
    change (cell y1 ep.2 = Byte.x00). unfold y1. rewrite scatter_cell; [by apply Hu0|].
    intros Hin'. apply (Hdis _ Hin'). by right.
Qed.

(** A free column gives a vector of the kernel. *)
Lemma free_column_kernel ps d c : dec_ok ps d → (c < k)%nat → c ∉ r_pivots d → ¬ independent k (coeffs <$> ps).
Proof.
  intros Hok Hc Hfree Hind. set (u := <[c := Byte.x01]> (replicate k Byte.x00)).
  set (y := scatter c (zip (r_rows d) (r_pivots d)) u).
  assert (length y = k) as Hy by (unfold y, u; by rewrite length_scatter, length_insert, length_replicate).
  assert (cell y c = Byte.x01) as H1.
  { unfold y. rewrite scatter_cell by (rewrite zip_snd; [done|apply Hok]). unfold u, cell.
    by rewrite list_lookup_insert_eq by (by rewrite length_replicate). }
  assert (kernel (r_rows d) y) as Hk.
  { apply Forall_lookup_2. intros i e He. by apply (row_vanishes ps d c i e). }
  apply (do_kernel _ _ Hok y Hy) in Hk. pose proof (Hind y Hy Hk) as Hzero.
  rewrite Hzero, cell_zeros in H1. discriminate H1.
Qed.
(** At full rank every column is a pivot. *)
Lemma full_rank_pivots ps d : dec_ok ps d → (rlnc_rank d ≤ k)%nat ∧
  (rlnc_rank d = k → r_pivots d ≡ₚ seq 0 k) ∧ ((rlnc_rank d < k)%nat → ∃ c, (c < k)%nat ∧ c ∉ r_pivots d).
Proof.
  intros Hok. pose proof (pivots_NoDup ps d Hok) as Hnd. destruct Hok as [_ _ Hp Hrg _ _ _].
  assert (r_pivots d ⊆ seq 0 k) as Hsub.
  { intros p Hin. apply elem_of_seq. apply (proj1 (Forall_elem _ _) Hrg) in Hin. lia. }
  unfold rlnc_rank. rewrite <-Hp. pose proof (NoDup_submseteq _ _ Hnd Hsub) as Hsm.
  pose proof (submseteq_length _ _ Hsm) as Hle. rewrite length_seq in Hle. split_and!; [done| |].
  - intros Hk. apply submseteq_length_Permutation; [done|]. rewrite length_seq. lia.
  - intros Hlt. destruct (decide (Forall (λ c, c ∈ r_pivots d) (seq 0 k))) as [Hall|Hex].
    + exfalso. assert (seq 0 k ⊆ r_pivots d) as Hsub' by (intros c Hc; by apply (proj1 (Forall_elem _ _) Hall)).
      pose proof (NoDup_submseteq _ _ (NoDup_seq 0 k) Hsub') as Hl%submseteq_length. rewrite length_seq in Hl. lia.
    + apply not_Forall_Exists in Hex; [|apply _]. apply list.Exists_exists in Hex as (c & Hc%elem_of_seq & Hn).
      exists c. split; [lia|done].
Qed.

(** Each row then holds one source. *)
Lemma full_rank_row ps d i e p x :
  dec_ok ps d → rlnc_rank d = k → r_rows d !! i = Some e → r_pivots d !! i = Some p → xs !! p = Some x →
  drop k e = x.
Proof.
  intros Hok Hrk He Hpi Hx. destruct (full_rank_pivots ps d Hok) as (_ & Hperm & _). specialize (Hperm Hrk).
  pose proof (pivots_NoDup ps d Hok) as Hnd. destruct Hok as [_ _ Hp _ Hr Hsat _].
  pose proof (Forall_lookup_1 _ _ _ _ Hsat He) as [Hl Hrow]. pose proof (Forall_lookup_1 _ _ _ _ Hxs Hx) as Hlx. cbn in Hlx.
  apply list_eq_cells; [rewrite length_drop; fold k in Hl; lia|]. intros j Hj. rewrite length_drop in Hj. fold k in Hl.
  rewrite cell_drop, <-Hrow by lia. fold k.
  rewrite (dotp_unit _ _ p); [by apply cell_column|unfold column; rewrite length_take, length_fmap; fold k; lia|].
  intros q Hq. rewrite length_take in Hq. rewrite cell_take by lia.
  assert (q ∈ r_pivots d) as Hqp by (rewrite Hperm; apply elem_of_seq; lia).
  apply list_elem_of_lookup in Hqp as [j' Hj'].
  assert (is_Some (r_rows d !! j')) as [e' He'] by (apply lookup_lt_is_Some_2; apply lookup_lt_Some in Hj'; lia).
  rewrite (Hr i j' e p e' q) by (by apply zip_lookup_inv).
  destruct (Nat.eqb_spec i j') as [->|Hne], (Nat.eqb_spec p q) as [->|Hpq]; try done; [congruence|].
  destruct Hne. by eapply list.NoDup_lookup.
Qed.

Lemma place_rows_spec rps out seen :
  NoDup rps.*2 → length out = k → length seen = k → Forall (λ p, (p < k)%nat) rps.*2 →
  let '(out', seen') := place_rows k rps out seen in
  length out' = k ∧ length seen' = k ∧
  (∀ e p, (e, p) ∈ rps → out' !! p = Some (drop k e) ∧ seen' !! p = Some true) ∧
  (∀ q, q ∉ rps.*2 → out' !! q = out !! q ∧ seen' !! q = seen !! q).
Proof.
  revert out seen. induction rps as [|[e p] rps IH] using rev_ind; intros out seen Hnd Ho Hs Hr.
  { cbn. split_and!; try done. intros e p []%elem_of_nil. }
  rewrite fmap_app in Hnd, Hr. apply list.NoDup_app in Hnd as (Hnd & Hdis & _). apply Forall_app in Hr as [Hr [Hp _]%Forall_cons_iff].
  unfold place_rows. rewrite foldl_app. fold (place_rows k rps out seen). specialize (IH out seen Hnd Ho Hs Hr).
  destruct (place_rows k rps out seen) as [o se]. destruct IH as (H1 & H2 & H3 & H4). cbn [foldl fst snd] in *.
  rewrite !length_insert. split_and!; [done|done| |].
  - intros e' p' [Hin|[= -> ->]%list_elem_of_singleton]%elem_of_app.
    + assert (p' ≠ p) as Hne.
      { intros ->. apply (Hdis p); [apply list_elem_of_fmap; by exists (e', p)|by left]. }
      rewrite !list_lookup_insert_ne by done. by apply H3.
    + rewrite !list_lookup_insert_eq by lia. done.
  - intros q Hq. rewrite fmap_app in Hq. apply not_elem_of_app in Hq as [Hq Hqp]. cbn in Hqp.
    rewrite list_elem_of_singleton in Hqp. rewrite !list_lookup_insert_ne by done. by apply H4.
Qed.

(** What a decoder that has seen the packets [ps] returns. *)
Lemma decode_spec ps d : dec_ok ps d →
  (independent k (coeffs <$> ps) → rlnc_decode d = Ok xs) ∧
  (rlnc_decode d = Ok xs ∨ rlnc_decode d = Err (RlncInsufficient (Z.of_nat (rlnc_rank d)) (Z.of_nat k))).
Proof.
  intros Hok. destruct (full_rank_pivots ps d Hok) as (Hle & Hperm & Hfree).
  assert (rlnc_rank d = k → rlnc_decode d = Ok xs) as Hfull.
  { intros Hrk. specialize (Hperm Hrk). pose proof (pivots_NoDup ps d Hok) as Hnd.
    pose proof (λ i e p x, full_rank_row ps d i e p x Hok Hrk) as Hrow.
    destruct Hok as [Hk _ Hp Hrg _ _ _]. unfold rlnc_decode. unfold rlnc_rank in Hrk. rewrite Hk, Hrk, Nat.ltb_irrefl.
    pose proof (place_rows_spec (zip (r_rows d) (r_pivots d)) (replicate k (replicate (r_symbol_size d) Byte.x00))
      (replicate k false)) as Hpl. rewrite zip_snd in Hpl by done. rewrite !length_replicate in Hpl.
    specialize (Hpl Hnd eq_refl eq_refl Hrg). destruct (place_rows _ _ _ _) as [out seen].
    destruct Hpl as (Ho & Hs & Hin & _).
    assert (∀ q, (q < k)%nat → ∃ i e, r_rows d !! i = Some e ∧ r_pivots d !! i = Some q) as Hcol.
    { intros q Hq. assert (q ∈ r_pivots d) as [i Hi]%list_elem_of_lookup by (rewrite Hperm; apply elem_of_seq; lia).
      assert (is_Some (r_rows d !! i)) as [e He] by (apply lookup_lt_is_Some_2; apply lookup_lt_Some in Hi; lia).
      by exists i, e. }
    assert (∀ q i e, r_rows d !! i = Some e → r_pivots d !! i = Some q → (e, q) ∈ zip (r_rows d) (r_pivots d)) as Hz.
    { intros q i e He Hi. apply (list_elem_of_lookup_2 _ i). by apply zip_lookup_inv. }
    assert (existsb negb seen = false) as ->.
    { apply not_true_iff_false. intros (b & Hb & Hn)%existsb_exists. apply list_elem_of_In, list_elem_of_lookup in Hb as [q Hq].
      destruct (Hcol q) as (i & e & He & Hi); [rewrite <-Hs; by eapply lookup_lt_Some|].
      destruct (Hin e q (Hz q i e He Hi)) as [_ Ht]. rewrite Hq in Ht. by injection Ht as ->. }
    f_equal. apply list_eq. intros q. destruct (decide (q < k)%nat) as [Hq|Hq].
    - destruct (Hcol q Hq) as (i & e & He & Hi). destruct (Hin e q (Hz q i e He Hi)) as [-> _].
      destruct (lookup_lt_is_Some_2 xs q Hq) as [x Hx]. rewrite Hx. f_equal. by apply (Hrow i e q x).
    - rewrite !lookup_ge_None_2 by (fold k; lia). done. }
  assert ((rlnc_rank d < k)%nat → rlnc_decode d = Err (RlncInsufficient (Z.of_nat (rlnc_rank d)) (Z.of_nat k))) as Hshort.
  { intros Hlt. unfold rlnc_decode. rewrite (do_k _ _ Hok). unfold rlnc_rank in *.
    by destruct (Nat.ltb_spec (length (r_rows d)) k); [|lia]. }
  destruct (decide (rlnc_rank d = k)) as [Heq|Hne]; [split; auto|]. assert (rlnc_rank d < k)%nat as Hlt by lia.
  split; [|auto]. intros Hind. destruct (Hfree Hlt) as (c & Hc & Hn). by destruct (free_column_kernel ps d c Hok Hc Hn).
Qed.
End Reduced.

(** C13: Any order, any duplicates, any mix of encoders: packets that are
    combinations of the sources never make the decoder return wrong data; it
    returns exactly the sources or says how many more packets it needs, and it
    returns them as soon as the coefficient vectors received are of full rank. *)
Theorem rlnc_decode_exact isa xs s ps :
  Forall (λ x, length x = s) xs → Forall (coded_packet xs s) ps →
  let d := rlnc_add_all isa (RlncDecoder_new (length xs) s) ps in
  (independent (length xs) (coeffs <$> ps) → rlnc_decode d = Ok xs) ∧
  (rlnc_decode d = Ok xs ∨
   rlnc_decode d = Err (RlncInsufficient (Z.of_nat (rlnc_rank d)) (zlen xs))).
Proof.
  intros Hxs Hps. cbn zeta.
  pose proof (add_all_packets_ok isa xs s [] _ ps (new_dec_ok xs s) Hps) as Hok. cbn [app] in Hok.
  by apply (decode_spec xs s Hxs ps).
Qed.

(** ** The encoder's draw terminates *)

(** Bits 40 to 47. *)
Definition draw_byte (g : Lcg) : byte := byte.of_Z (wrap 8 (Z.shiftr g 40)).

Lemma draw_byte_zero g : draw_byte g = Byte.x00 → g mod 2 ^ 48 < 2 ^ 40.
Proof.
  unfold draw_byte. intros H. apply (f_equal byte.unsigned) in H. rewrite byte.unsigned_of_Z in H.
  unfold byte.wrap, wrap in H. rewrite Zmod_mod, Z.shiftr_div_pow2 in H by lia.
  change (byte.unsigned Byte.x00) with 0 in H.
  change (2 ^ 48) with (2 ^ 40 * 2 ^ 8). rewrite Z.rem_mul_r, H by done.
  pose proof (Z.mod_pos_bound g (2 ^ 40) ltac:(done)). lia.
Qed.

Lemma lcg_step_mod g :
  lcg_next_u64 g mod 2 ^ 48 = (268475395571501 * (g mod 2 ^ 48) + 135785246851407) mod 2 ^ 48.
Proof.
  assert ((2 ^ 48 | 2 ^ 64)) as Hd by (by exists (2 ^ 16)).
  unfold lcg_next_u64, wrap. rewrite Z.mod_mod_divide by done.
  rewrite Zplus_mod, Z.mod_mod_divide by done. rewrite (Zmult_mod g), (Z.mul_comm (g mod 2 ^ 48)).
  rewrite <-Zplus_mod. symmetry. rewrite Zplus_mod. symmetry. rewrite Zplus_mod. done.
Qed.

(** Of ten consecutive draws one is not zero: a small integer relation between
    the states (coefficients 15, 4, 6, 4, -15, 1, -3, 2, 5, -11) would
    otherwise put a fixed residue in a window it is not in. *)
Lemma ten_draws g : ¬ ∀ i, (i < 10)%nat → draw_byte (Nat.iter (S i) lcg_next_u64 g) = Byte.x00.
Proof.
  intros H.
  set (t := λ i : nat, Nat.iter (S i) lcg_next_u64 g mod 2 ^ 48).
  assert (∀ i, (i < 10)%nat → 0 ≤ t i < 2 ^ 40) as Hb.
  { intros i Hi. split; [by apply Z.mod_pos_bound|]. by apply draw_byte_zero, H. }
  assert (∀ i, ∃ q, t (S i) = 268475395571501 * t i + 135785246851407 - 2 ^ 48 * q) as Hs.
  { intros i. eexists. unfold t.
    change (Nat.iter (S (S i)) lcg_next_u64 g) with (lcg_next_u64 (Nat.iter (S i) lcg_next_u64 g)).
    rewrite lcg_step_mod.
    rewrite (Z.mod_eq _ (2 ^ 48)) by done. reflexivity. }
  pose proof (Hb 0%nat ltac:(lia)) as B0. pose proof (Hb 1%nat ltac:(lia)) as B1.
  pose proof (Hb 2%nat ltac:(lia)) as B2. pose proof (Hb 3%nat ltac:(lia)) as B3.
  pose proof (Hb 4%nat ltac:(lia)) as B4. pose proof (Hb 5%nat ltac:(lia)) as B5.
  pose proof (Hb 6%nat ltac:(lia)) as B6. pose proof (Hb 7%nat ltac:(lia)) as B7.
  pose proof (Hb 8%nat ltac:(lia)) as B8. pose proof (Hb 9%nat ltac:(lia)) as B9.
  destruct (Hs 0%nat) as [q0 E0], (Hs 1%nat) as [q1 E1], (Hs 2%nat) as [q2 E2], (Hs 3%nat) as [q3 E3],
    (Hs 4%nat) as [q4 E4], (Hs 5%nat) as [q5 E5], (Hs 6%nat) as [q6 E6], (Hs 7%nat) as [q7 E7], (Hs 8%nat) as [q8 E8].
  clearbody t. clear H Hb Hs.
  set (x := 15 * t 0%nat + 4 * t 1%nat + 6 * t 2%nat + 4 * t 3%nat - 15 * t 4%nat + t 5%nat - 3 * t 6%nat
            + 2 * t 7%nat + 5 * t 8%nat - 11 * t 9%nat).
  assert (- 29 * 2 ^ 40 ≤ x ≤ 37 * 2 ^ 40) as Hx by (unfold x; lia).
  assert (∃ q, x = 45939128477670 + 2 ^ 48 * q) as [q Hq].
  { exists (-283200040905559275321503087953942661084083138511111160536526061275991374079226245968533597320461059838702447609177157 * t 0%nat
      - 143232445494055734956786931195080239411924351834493094995593541392170772187179949299235716361426038452744396810593925
      + 296912589508112211701943745082365726098283294522743417228460162741533370424351523495560470585203343362204995797934507 * q0
      + 1105921043066450203633835373462902164009708393907125308083238473479681441914779936387920472785114648011 * q1
      + 4119264041728243605050296787655541021059971044386882441294446261630284998544505091182517 * q2
      + 15343171514691712219037683370438046798185200029884460879610390309592681021 * q3
      + 57149264952309131157170148143311791995442888137651701252006 * q4
      + 212865930714641611339548462611065368075001507 * q5
      + 792869418300011984009459465504 * q6
      + 2953229351286506 * q7
      + 11 * q8).
    unfold x. rewrite E8, E7, E6, E5, E4, E3, E2, E1, E0. ring. }
  clearbody x. lia.
Qed.

Lemma draw_spec k g :
  draw k g = (Nat.iter k lcg_next_u64 g, (λ i, draw_byte (Nat.iter (S i) lcg_next_u64 g)) <$> seq 0 k).
Proof.
  revert g. induction k as [|k IH]; intros g; [done|]. cbn [draw next_u8]. rewrite IH.
  rewrite (Nat.iter_succ_r k). cbn [seq fmap list_fmap]. f_equal. f_equal.
  rewrite <-fmap_S_seq, <-list_fmap_compose. apply list_fmap_ext. intros i j _. unfold compose. f_equal.
  symmetry. apply Nat.iter_succ_r.
Qed.

Lemma draw_loop_None fuel k g :
  draw_loop fuel k g = None → ∀ i, (i < fuel * k)%nat → draw_byte (Nat.iter (S i) lcg_next_u64 g) = Byte.x00.
Proof.
  revert g. induction fuel as [|fuel IH]; intros g H i Hi; [lia|]. cbn [draw_loop] in H. rewrite draw_spec in H.
  destruct (existsb _ _) eqn:Hex; [done|]. destruct (decide (i < k)%nat) as [Hik|Hik].
  - apply Byte.byte_dec_bl, negb_false_iff, not_true_iff_false. intros Hnz.
    apply not_true_iff_false in Hex. apply Hex, existsb_exists.
    exists (draw_byte (Nat.iter (S i) lcg_next_u64 g)). split; [|done]. apply list_elem_of_In, list_elem_of_fmap.
    exists i. split; [done|]. apply elem_of_seq. lia.
  - specialize (IH _ H (i - k)%nat ltac:(lia)). rewrite <-IH. f_equal.
    rewrite <-Nat.iter_add. f_equal. lia.
Qed.

Lemma draw_loop_total k g : (0 < k)%nat → is_Some (draw_loop 10 k g).
Proof.
  intros Hk. destruct (draw_loop 10 k g) eqn:H; [by eexists|]. exfalso. apply (ten_draws g).
  intros i Hi. apply (draw_loop_None 10 k g H). lia.
Qed.

Lemma draw_loop_length fuel k g g' cs : draw_loop fuel k g = Some (g', cs) → length cs = k.
Proof.
  revert g. induction fuel as [|fuel IH]; intros g H; [done|]. cbn [draw_loop] in H. rewrite draw_spec in H.
  destruct (existsb _ _); [|by eapply IH]. injection H as _ <-. by rewrite length_fmap, length_seq.
Qed.

(** ** The packets of the encoder *)

Section Encoder.
Context (isa : Isa) (xs : list bytes) (s : nat) (Hxs : Forall (λ x, length x = s) xs).

(** An encoder over the sources [xs]. *)
Definition enc_ok (e : RlncEncoder) : Prop := e_k e = length xs ∧ e_symbol_size e = s ∧ e_source e = xs.

Lemma coded_of_cells cs p :
  length cs = length xs → length p = s → (∀ j, cell p j = dotp cs (column xs j)) →
  coded_packet xs s (mkPacket cs p).
Proof.
  intros Hc Hp Hj. split; [done|]. split; [done|]. cbn. split; [rewrite length_app; lia|]. intros j _.
  rewrite take_app_length' by done. rewrite <-Hj. unfold cell. rewrite lookup_app_r by lia. f_equal. f_equal. lia.
Qed.

Lemma code_packet e : enc_ok e → (0 < length xs)%nat →
  ∃ e' p, code 10 isa e = Some (e', p) ∧ enc_ok e' ∧ coded_packet xs s p.
Proof.
  intros (Hk & Hs & Hsrc) Hpos. unfold code. rewrite Hk, Hs, Hsrc.
  destruct (draw_loop_total (length xs) (e_rng e) Hpos) as [[g cs] Hd]. rewrite Hd.
  eexists _, _. split; [done|]. split; [done|].
  destruct (axpy_all_zeros isa cs xs s Hxs) as [H1 H2].
  apply coded_of_cells; [by eapply draw_loop_length|done|done].
Qed.

Lemma code_batch_packets n e : enc_ok e → (0 < length xs)%nat →
  ∃ e' ps, code_batch 10 isa n e = Some (e', ps) ∧ enc_ok e' ∧ length ps = n ∧ Forall (coded_packet xs s) ps.
Proof.
  revert e. induction n as [|n IH]; intros e He Hpos; [by exists e, []|]. cbn [code_batch].
  destruct (code_packet e He Hpos) as (e1 & p & -> & He1 & Hp).
  destruct (IH e1 He1 Hpos) as (e2 & ps & -> & He2 & Hl & Hps). exists e2, (p :: ps).
  split_and!; [done|done|cbn; lia|by constructor].
Qed.

(** The support of a sparse coefficient vector. *)
Definition support (cs : list byte) (chosen : list nat) : Prop :=
  NoDup chosen ∧ ∀ i, cell cs i ≠ Byte.x00 ↔ i ∈ chosen.

Lemma lor_1_nonzero v : byte.of_Z (Z.lor (byte.unsigned v) 1) ≠ Byte.x00.
Proof. by destruct v. Qed.

Lemma sparse_loop_support guard k degree g cs chosen :
  (0 < k)%nat → length cs = k → support cs chosen →
  let '(_, cs', chosen') := sparse_loop guard k degree g cs chosen in
  length cs' = k ∧ support cs' chosen'.
Proof.
  intros Hk. revert g cs chosen. induction guard as [|guard IH]; intros g cs chosen Hl Hs; [done|].
  cbn [sparse_loop]. destruct (length chosen <? degree)%nat; [|done].
  set (idx := Z.to_nat (Z.shiftr (lcg_next_u64 g) 40 mod Z.of_nat k)).
  assert (idx < k)%nat as Hidx.
  { unfold idx. pose proof (Z.mod_pos_bound (Z.shiftr (lcg_next_u64 g) 40) (Z.of_nat k) ltac:(lia)). lia. }
  destruct (Byte.eqb (cell cs idx) Byte.x00) eqn:Hz; [|by apply IH].
  apply Byte.byte_dec_bl in Hz. cbn [next_u8]. set (c := byte.of_Z _).
  apply IH; [by rewrite length_insert|]. destruct Hs as [Hnd Hsup]. split.
  - apply list.NoDup_app. split_and!; [done| |apply NoDup_singleton].
    intros i Hi ->%list_elem_of_singleton. by apply Hsup in Hi.
  - intros i. rewrite elem_of_app, list_elem_of_singleton. destruct (decide (i = idx)) as [->|Hne].
    + unfold cell. rewrite list_lookup_insert_eq by lia. split; [by right|]. intros _. apply lor_1_nonzero.
    + unfold cell in *. rewrite list_lookup_insert_ne by done. rewrite Hsup. clear -Hne.
      split; [by left|]. by intros [|].
Qed.

Lemma dotp_support cs chosen y :
  length cs = length y → support cs chosen →
  dotp cs y = foldr (λ i acc, gf_mul (cell cs i) (cell y i) ⊕ acc) Byte.x00 chosen.
Proof.
  revert cs. induction chosen as [|i chosen IH]; intros cs Hl [Hnd Hsup].
  { cbn. assert (cs = replicate (length cs) Byte.x00) as ->; [|apply dotp_zeros_l].
    apply list_eq_cells; [by rewrite length_replicate|]. intros j _. rewrite cell_zeros.
    destruct (decide (cell cs j = Byte.x00)) as [|Hne]; [done|]. apply Hsup in Hne. by apply elem_of_nil in Hne. }
  apply list.NoDup_cons in Hnd as [Hni Hnd]. cbn [foldr].
  assert (cell cs i ≠ Byte.x00) as Hci by (apply Hsup; by left).
  assert (i < length cs)%nat as Hil.
  { destruct (decide (i < length cs)%nat); [done|]. destruct Hci. unfold cell. by rewrite lookup_ge_None_2 by lia. }
  set (cs0 := <[i := Byte.x00]> cs).
  assert (support cs0 chosen) as Hs0.
  { split; [done|]. intros j. unfold cs0. destruct (decide (j = i)) as [->|Hne].
    - unfold cell. rewrite list_lookup_insert_eq by done. split; [by intros []|]. done.
    - unfold cell in *. rewrite list_lookup_insert_ne by done. rewrite Hsup, elem_of_cons. clear -Hne.
      split; [by intros [|]|by right]. }
  transitivity (gf_mul (cell cs i) (cell y i) ⊕ dotp cs0 y).
  - unfold cs0. clear -Hil Hl. revert i y Hil Hl. induction cs as [|c cs IH]; intros i [|b y] Hi Hl; cbn in Hi, Hl; try lia.
    destruct i as [|i].
    + change (gf_mul c b ⊕ dotp cs y = gf_mul c b ⊕ (gf_mul Byte.x00 b ⊕ dotp cs y)).
      by rewrite gf_mul_0_l, xor_0_l.
    + change (gf_mul c b ⊕ dotp cs y = gf_mul (cell cs i) (cell y i) ⊕ (gf_mul c b ⊕ dotp (<[i := Byte.x00]> cs) y)).
      rewrite (IH i y) by lia. rewrite <-!xor_assoc. f_equal. apply xor_comm.
  - f_equal. rewrite (IH cs0); [|unfold cs0; by rewrite length_insert|done].
    clear -Hni. induction chosen as [|j chosen IH]; [done|]. apply not_elem_of_cons in Hni as [Hij Hni].
    cbn. rewrite IH by done. f_equal. f_equal. unfold cs0, cell. by rewrite list_lookup_insert_ne.
Qed.

Lemma code_sparse_packet e degree : enc_ok e → (0 < length xs)%nat →
  enc_ok (code_sparse isa e degree).1 ∧ coded_packet xs s (code_sparse isa e degree).2.
Proof.
  intros (Hk & Hs & Hsrc) Hpos. unfold code_sparse. rewrite Hk, Hs, Hsrc.
  pose proof (sparse_loop_support (8 * length xs) (length xs) (Nat.min (Nat.max degree 1) (length xs)) (e_rng e)
    (replicate (length xs) Byte.x00) [] Hpos (length_replicate _ _)) as Hloop.
  destruct (sparse_loop _ _ _ _ _ _) as [[g cs] chosen]. destruct Hloop as [Hl Hsup].
  { split; [constructor|]. intros i. rewrite cell_zeros. split; [done|]. by intros []%elem_of_nil. }
  split; [done|]. cbn [snd].
  assert (∀ acc, length acc = s → let r := foldl (λ acc i, axpy isa acc (cell cs i) (default [] (xs !! i))) acc chosen in
    length r = s ∧ ∀ j, cell r j = cell acc j ⊕ foldr (λ i acc, gf_mul (cell cs i) (cell (column xs j) i) ⊕ acc) Byte.x00 chosen)
    as Hfold.
  { assert (Forall (λ i, (i < length xs)%nat) chosen) as Hr.
    { apply Forall_elem. intros i Hi. apply Hsup in Hi. destruct (decide (i < length xs)%nat); [done|].
      destruct Hi. unfold cell. by rewrite lookup_ge_None_2 by lia. }
    clear Hsup. induction Hr as [|i chosen Hi _ IH]; intros acc Hacc; cbn [foldl foldr].
    { split; [done|]. intros j. by rewrite xor_0_r. }
    destruct (lookup_lt_is_Some_2 xs i Hi) as [x Hx]. rewrite Hx. cbn [default from_option]. unfold id, axpy.
    rewrite gf_axpy_slice_eq. pose proof (Forall_lookup_1 _ _ _ _ Hxs Hx) as Hlx. cbn in Hlx.
    destruct (IH (axpy_ref (cell cs i) x acc)) as [H1 H2]; [by rewrite length_axpy_ref|]. split; [done|]. intros j.
    rewrite H2, cell_axpy by congruence. rewrite (cell_column xs j i x Hx). apply xor_assoc. }
  destruct (Hfold (replicate s Byte.x00)) as [H1 H2]; [apply length_replicate|].
  apply coded_of_cells; [done|done|]. intros j. rewrite H2, cell_zeros, xor_0_l. symmetry. apply dotp_support; [|done].
  unfold column. by rewrite length_fmap.
Qed.
End Encoder.

(** ** Peeling sparse packets *)

Section Sparse.
Context (isa : Isa) (xs : list bytes) (s : nat) (Hxs : Forall (λ x, length x = s) xs) (Hs : (0 < s)%nat).

Lemma cover_of_row_S n r :
  cover_of_row (S n) r =
  if Byte.eqb (cell r n) Byte.x00 then cover_of_row n r else <[n := cell r n]> (cover_of_row n r).
Proof. unfold cover_of_row. by rewrite seq_S, foldl_app. Qed.

Lemma cover_of_row_lookup n r i c :
  cover_of_row n r !! i = Some c ↔ (i < n)%nat ∧ c = cell r i ∧ cell r i ≠ Byte.x00.
Proof.
  induction n as [|n IH]; [unfold cover_of_row; cbn; rewrite lookup_empty; split; [done|lia]|].
  rewrite cover_of_row_S. destruct (Byte.eqb (cell r n) Byte.x00) eqn:Hz.
  - apply Byte.byte_dec_bl in Hz. rewrite IH. split; [intros (? & ? & ?); split; [lia|done]|].
    intros (Hi & -> & Hne). split; [|done]. assert (i ≠ n) by congruence. lia.
  - rewrite lookup_insert_Some, IH. split.
    + intros [[<- <-]|[Hne (Hi & -> & Hnz)]]; [|split; [lia|done]]. split; [lia|]. split; [done|].
      intros E. by rewrite E in Hz.
    + intros (Hi & -> & Hnz). destruct (decide (n = i)) as [->|Hne]; [by left|]. right. split; [done|]. split; [lia|done].
Qed.

Lemma cover_of_row_comb n r j : (n ≤ length xs)%nat → (n ≤ length r)%nat →
  comb xs (cover_of_row n r) j = dotp (take n r) (take n (column xs j)).
Proof.
  intros Hn Hr. induction n as [|n IH]; [apply comb_empty|].
  rewrite cover_of_row_S. destruct (lookup_lt_is_Some_2 r n) as [a Ha]; [lia|].
  destruct (lookup_lt_is_Some_2 (column xs j) n) as [b Hb]; [unfold column; rewrite length_fmap; lia|].
  assert (cell (source xs n) j = b) as Hsb.
  { unfold column in Hb. rewrite list_lookup_fmap in Hb. unfold source.
    destruct (xs !! n); cbn in Hb |- *; [by injection Hb|done]. }
  rewrite (take_S_r _ _ b Hb), (take_S_r _ _ a Ha).
  rewrite dotp_snoc by (rewrite !length_take; unfold column; rewrite length_fmap; lia). rewrite <-IH by lia.
  assert (cell r n = a) as -> by (unfold cell; by rewrite Ha).
  destruct (Byte.eqb a Byte.x00) eqn:Hz.
  - apply Byte.byte_dec_bl in Hz as ->. rewrite gf_mul_0_l, xor_0_r. reflexivity.
  - rewrite (comb_delete _ _ n a) by apply lookup_insert_eq. rewrite delete_insert_id, Hsb; [apply xor_comm|].
    destruct (cover_of_row n r !! n) as [c|] eqn:Hc; [|done]. apply cover_of_row_lookup in Hc as [? _]. lia.
Qed.

Lemma sparse_symbol p :
  coded_packet xs s p →
  sym_ok xs s (mkSym (cover_of_row (length xs) (coeffs p ++ pk_payload p))
                 (take s (drop (length xs) (coeffs p ++ pk_payload p)))).
Proof.
  intros (Hc & Hp & Hl & Hsat). set (r := coeffs p ++ pk_payload p) in *.
  assert (length (take s (drop (length xs) r)) = s) as Hlen by (rewrite length_take, length_drop; lia).
  split; [done|]. split.
  - intros i c (Hi & -> & Hnz)%cover_of_row_lookup. done.
  - intros j Hj. cbn [sym_payload cover]. rewrite cell_take, cell_drop, <-Hsat by done.
    rewrite cover_of_row_comb by lia. by rewrite (take_ge (column xs j)) by (unfold column; rewrite length_fmap; lia).
Qed.

Lemma sparse_rows_ok ps : Forall (coded_packet xs s) ps →
  ∃ rows, sparse_rows ps (length xs) s = Ok rows ∧
    Forall (λ r, ∃ p, coded_packet xs s p ∧ r = coeffs p ++ pk_payload p) rows.
Proof.
  induction 1 as [|p ps Hp _ (rows & IH1 & IH2)]; cbn [sparse_rows]; [by exists []|].
  destruct (existsb _ _); [|by exists rows]. pose proof Hp as (-> & -> & _). rewrite !Nat.eqb_refl. cbn [negb orb].
  rewrite IH1. cbn [obind]. eexists. split; [done|]. constructor; [by exists p|done].
Qed.
End Sparse.

(** ** Theorems *)

(** A generation is never refused a packet: for a nonempty generation [code]
    finds a non-zero coefficient vector within ten rounds whatever the state of
    the generator, and the packet is the combination its vector says. *)
Theorem code_terminates isa source size seed :
  source ≠ [] → Forall (λ x, (length x ≤ size)%nat) source →
  ∀ n, ∃ e ps, code_batch 10 isa n (RlncEncoder_new source size seed) = Some (e, ps) ∧ length ps = n ∧
    Forall (coded_packet (resize0 size <$> source) size) ps.
Proof.
  intros Hne Hl n. set (xs := resize0 size <$> source).
  assert (Forall (λ x, length x = size) xs) as Hxs.
  { apply Forall_fmap. eapply Forall_impl; [|exact Hl]. intros x Hx. cbn in *. unfold resize0.
    rewrite length_app, length_take, length_replicate. lia. }
  destruct (code_batch_packets isa xs size Hxs n (RlncEncoder_new source size seed)) as (e & ps & H1 & _ & H2 & H3).
  - split_and!; try done. cbn. unfold xs. by rewrite length_fmap.
  - unfold xs. rewrite length_fmap. destruct source; [done|cbn; lia].
  - by exists e, ps.
Qed.

(** Sparse packets peel exactly: on combinations of the sources [sparse_decode]
    returns the sources or asks for more, and never panics. *)
Theorem sparse_decode_exact isa xs s ps :
  (0 < s)%nat → Forall (λ x, length x = s) xs → Forall (coded_packet xs s) ps →
  sparse_decode isa ps (length xs) s = Ok xs ∨
  ∃ have need, sparse_decode isa ps (length xs) s = Err (RlncInsufficient have need).
Proof.
  intros Hs Hxs Hps. unfold sparse_decode. destruct (sparse_rows_ok xs s ps Hps) as (rows & -> & Hr). cbn [obind].
  unfold peel_decode. set (syms := omap _ rows).
  assert (Forall (sym_ok xs s) syms) as Hsyms.
  { unfold syms. clear -Hr Hxs Hs. induction Hr as [|r rows (p & Hp & ->) _ IH]; [constructor|]. cbn.
    destruct (bool_decide _); [done|]. constructor; [by apply sparse_symbol|done]. }
  destruct (peel_sound isa xs s Hs Hxs syms Hsyms) as [->|(have & need & ->)]; [by left|right; by exists have, need].
Qed.

(** An empty generation has no non-zero coefficient vector: [code] never
    returns. *)
Theorem code_empty_diverges fuel isa size seed :
  code fuel isa (RlncEncoder_new [] size seed) = None.
Proof.
  unfold code. cbn [e_k RlncEncoder_new length e_rng]. generalize (Lcg_new seed). induction fuel as [|fuel IH]; intros g; [done|].
  cbn. apply (IH g).
Qed.

(** ** Witnesses *)
Module RlncWitness.
Definition xs : list bytes := [[Byte.x01; Byte.x02]; [Byte.x03; Byte.xff]; [Byte.x00; Byte.x10]].
Definition enc : RlncEncoder := RlncEncoder_new xs 2 0xA5A5.
Definition batch : list CodedPacket := match code_batch 10 Avx2 4 enc with Some (_, ps) => ps | None => [] end.
Definition sparse : list CodedPacket := [(code_sparse Avx2 enc 2).2; (code_sparse Avx2 enc 3).2].

Lemma xs_size : Forall (λ x, length x = 2%nat) xs.
Proof. apply (bool_decide_unpack _). vm_compute. exact I. Qed.
Lemma enc_enc_ok : enc_ok xs 2 enc.
Proof. done. Qed.

Lemma batch_coded : Forall (coded_packet xs 2) batch.
Proof.
  destruct (code_batch_packets Avx2 xs 2 xs_size 4 enc enc_enc_ok) as (e & ps & H & _ & _ & Hps); [cbn; lia|].
  unfold batch. rewrite H. exact Hps.
Qed.

Lemma sparse_coded : Forall (coded_packet xs 2) sparse.
Proof.
  constructor; [|constructor; [|constructor]]; apply (code_sparse_packet Avx2 xs 2 xs_size); try apply enc_enc_ok; cbn; lia.
Qed.

(** Four random packets of three sources decode. *)
Example batch_decodes :
  rlnc_decode (rlnc_add_all Neon (RlncDecoder_new 3 2) batch) = Ok xs.
Proof. vm_compute. reflexivity. Qed.

Lemma rlnc_decode_exact_witness :
  let d := rlnc_add_all Neon (RlncDecoder_new 3 2) batch in
  (independent 3 (coeffs <$> batch) → rlnc_decode d = Ok xs) ∧
  (rlnc_decode d = Ok xs ∨ rlnc_decode d = Err (RlncInsufficient (Z.of_nat (rlnc_rank d)) 3)).
Proof. pose proof (rlnc_decode_exact Neon xs 2 batch xs_size batch_coded) as H. exact H. Defined.

Lemma code_terminates_witness :
  ∃ e ps, code_batch 10 Scalar 2 (RlncEncoder_new [[Byte.x07]; []] 3 1) = Some (e, ps) ∧ length ps = 2%nat ∧
    Forall (coded_packet (resize0 3 <$> [[Byte.x07]; []]) 3) ps.
Proof.
  apply (code_terminates Scalar [[Byte.x07]; []] 3 1); [discriminate|].
  apply (bool_decide_unpack _). vm_compute. exact I.
Defined.

Lemma sparse_decode_exact_witness :
  sparse_decode Neon sparse 3 2 = Ok xs ∨
  ∃ have need, sparse_decode Neon sparse 3 2 = Err (RlncInsufficient have need).
Proof. apply (sparse_decode_exact Neon xs 2 sparse); [lia|exact xs_size|exact sparse_coded]. Defined.
End RlncWitness.
