(* ===== verification/Hierarchical.v ===== *)
(** * Hierarchical: the two-layer fan-out code of [coding/src/hierarchical.rs]

    The outer Reed-Solomon code spreads a context over disjoint groups, each
    group codes its share with the random linear code.  The theorem composes
    the two codes' lemmas. *)

From S2P Require Import Prelude Gf256 GfVec Gauss LinAlg FountainSig ReedSolomon Rlnc.
#[local] Open Scope Z_scope.

Inductive HierError : Type :=
| HRs (msg : string)
| HRlnc (msg : string)
| HEmpty.

(** The [thiserror] texts of the inner errors. *)
Definition RsError_to_string (e : RsError) : string :=
  match e with
  | RsEmpty => "empty generation"
  | RsSizeMismatch a b =>
      "symbol size mismatch: " ++ show_usize (Z.of_nat a) ++ " vs " ++ show_usize (Z.of_nat b)
  | RsInsufficient have need =>
      "need " ++ show_usize (Z.of_nat need) ++ " symbols, have " ++ show_usize (Z.of_nat have)
  end%string.

Definition RlncError_to_string (e : RlncError) : string :=
  match e with
  | RlncInsufficient have need =>
      "insufficient independent packets: have " ++ show_usize have ++ " need " ++ show_usize need
  | RlncSingular have => "singular generation after " ++ show_usize have ++ " packets"
  | RlncSizeMismatch exp got => "size mismatch: expected " ++ show_usize exp ++ " got " ++ show_usize got
  end%string.

(** ** The encoder *)

Record HierEncoder : Type := mkHier {
  h_outer : list bytes;
  h_k : nat;
  h_n : nat;
  h_symbol_size : nat
}.

Definition HierEncoder_new (isa : Isa) (cache : Cache) (data : list bytes) (k m_outer symbol_size : nat)
    : Cache * outcome HierError HierEncoder :=
  match data with
  | [] => (cache, Err HEmpty)
  | _ =>
      let '(cache, enc) := RsEncoder_new isa cache k m_outer symbol_size in
      (cache,
       let? enc := map_err (λ e, HRs (RsError_to_string e)) enc in
       let? outer := map_err (λ e, HRs (RsError_to_string e)) (rs_encode isa enc data) in
       Ok (mkHier outer k (k + m_outer) symbol_size))
  end.

(** The outer symbols of group [gi] of [g]. *)
Definition owned_by (n g gi : nat) : list nat := filter (λ i, (i mod g = gi)%nat) (seq 0 n).

(** [into_groups]; the outer symbols are [n] in number. *)
Definition into_groups (h : HierEncoder) (g : nat) (seed : Z) : list (list nat * RlncEncoder) :=
  (λ gi,
    let owned := owned_by (h_n h) g gi in
    let src := (λ i, default [] (h_outer h !! i)) <$> owned in
    (owned, RlncEncoder_new_shared src (h_symbol_size h) (wrap 64 (seed + Z.of_nat gi)))) <$> seq 0 g.

(** ** The decoder *)

Record HierDecoder : Type := mkHierDec {
  hd_k : nat;
  hd_m_outer : nat;
  hd_symbol_size : nat;
  hd_outer : list (nat * bytes)
}.

Definition HierDecoder_new (k m_outer symbol_size : nat) : HierDecoder := mkHierDec k m_outer symbol_size [].

(** The [add] loop of [add_group]: the first error ends it. *)
Fixpoint feed (isa : Isa) (d : RlncDecoder) (packets : list CodedPacket) : outcome HierError RlncDecoder :=
  match packets with
  | [] => Ok d
  | p :: packets' =>
      let '(d, r) := rlnc_add isa d p in
      let? _ := map_err (λ e, HRlnc (RlncError_to_string e)) r in
      feed isa d packets'
  end.

Definition add_group (isa : Isa) (h : HierDecoder) (owned : list nat) (packets : list CodedPacket)
    : HierDecoder * outcome HierError nat :=
  match
    (let? dec := feed isa (RlncDecoder_new (length owned) (hd_symbol_size h)) packets in
     map_err (λ e, HRlnc (RlncError_to_string e)) (rlnc_decode dec))
  with
  | Ok syms =>
      let outer := hd_outer h ++ zip owned syms in
      (mkHierDec (hd_k h) (hd_m_outer h) (hd_symbol_size h) outer, Ok (length outer))
  | Err e => (h, Err e)
  | Panic => (h, Panic)
  end.

Definition ready (h : HierDecoder) : bool := (hd_k h <=? length (hd_outer h))%nat.

Definition hier_decode (isa : Isa) (cache : Cache) (h : HierDecoder) : Cache * outcome HierError (list bytes) :=
  if negb (ready h) then
    (cache, Err (HRs ("only " ++ show_usize (zlen (hd_outer h)) ++ " outer symbols, need "
                      ++ show_usize (Z.of_nat (hd_k h)))%string))
  else
    let '(cache, r) := rs_decode isa cache (hd_k h) (hd_m_outer h) (hd_symbol_size h) (hd_outer h) in
    (cache, map_err (λ e, HRs (RsError_to_string e)) r).

(** Groups report one after the other. *)
Fixpoint add_groups (isa : Isa) (h : HierDecoder) (reports : list (list nat * list CodedPacket)) : HierDecoder :=
  match reports with
  | [] => h
  | (owned, packets) :: reports' => add_groups isa (add_group isa h owned packets).1 reports'
  end.

(** ** Groups *)

Lemma elem_of_owned n g gi i : i ∈ owned_by n g gi ↔ (i < n)%nat ∧ (i mod g = gi)%nat.
Proof. unfold owned_by. rewrite list_elem_of_filter, elem_of_seq. naive_solver lia. Qed.

Lemma owned_NoDup n g gi : NoDup (owned_by n g gi).
Proof. apply list.NoDup_filter, NoDup_seq. Qed.

Lemma groups_disjoint n g gis : NoDup gis → NoDup (concat (owned_by n g <$> gis)).
Proof.
  induction 1 as [|gi gis Hni _ IH]; cbn; [constructor|]. apply list.NoDup_app. split_and!; [apply owned_NoDup| |done].
  intros i [_ Hi]%elem_of_owned Hin. apply list_elem_of_In, in_concat in Hin as (l & Hl & Hin).
  rewrite <-!list_elem_of_In in *. apply list_elem_of_fmap in Hl as (gj & -> & Hgj).
  apply elem_of_owned in Hin as [_ Hj]. congruence.
Qed.

Section Fanout.
Context (isa : Isa) (outer : list bytes) (size : nat) (Houter : Forall (λ x, length x = size) outer).

(** The sources of a group. *)
Definition share (owned : list nat) : list bytes := (λ i, default [] (outer !! i)) <$> owned.

(** What a group must deliver: combinations of its symbols, of full rank. *)
Definition good_report (report : list nat * list CodedPacket) : Prop :=
  let '(owned, packets) := report in
  Forall (λ i, (i < length outer)%nat) owned ∧ Forall (coded_packet (share owned) size) packets ∧
  independent (length owned) (coeffs <$> packets).

Lemma share_size owned : Forall (λ i, (i < length outer)%nat) owned → Forall (λ x, length x = size) (share owned).
Proof.
  intros H. apply Forall_fmap. eapply Forall_impl; [|exact H]. intros i Hi. cbn.
  destruct (lookup_lt_is_Some_2 outer i Hi) as [x Hx]. rewrite Hx. by apply (Forall_lookup_1 _ _ _ _ Houter Hx).
Qed.

Lemma feed_ok xs s ps d packets :
  dec_ok xs s ps d → Forall (coded_packet xs s) packets →
  feed isa d packets = Ok (rlnc_add_all isa d packets).
Proof.
  intros Hd H. revert ps d Hd. induction H as [|p packets Hp _ IH]; intros ps d Hd; [done|].
  cbn [feed rlnc_add_all]. destruct (add_packet_ok isa xs s ps d p Hd Hp) as (d' & b & -> & Hd' & _).
  cbn [map_err obind fst]. by apply (IH (ps ++ [p])).
Qed.

Lemma add_group_ok h owned packets :
  hd_symbol_size h = size → good_report (owned, packets) →
  (add_group isa h owned packets).1 =
    mkHierDec (hd_k h) (hd_m_outer h) size (hd_outer h ++ zip owned (share owned)).
Proof.
  intros Hs (Hr & Hp & Hind). unfold add_group. rewrite Hs.
  assert (length (share owned) = length owned) as Hl by (unfold share; by rewrite length_fmap).
  rewrite <-Hl. rewrite (feed_ok (share owned) size [] _ packets (new_dec_ok _ _) Hp). cbn [obind].
  pose proof (add_all_packets_ok isa (share owned) size [] _ packets (new_dec_ok _ _) Hp) as Hok. cbn [app] in Hok.
  destruct (decode_spec (share owned) size (share_size owned Hr) packets _ Hok) as [Hdec _].
  rewrite Hdec by (by rewrite Hl). done.
Qed.

Lemma add_groups_ok h reports :
  hd_symbol_size h = size → Forall good_report reports →
  add_groups isa h reports =
    mkHierDec (hd_k h) (hd_m_outer h) size
      (hd_outer h ++ concat ((λ r, zip r.1 (share r.1)) <$> reports)).
Proof.
  intros Hs H. revert h Hs. induction H as [|[owned packets] reports Hr _ IH]; intros h Hs; cbn [add_groups].
  { cbn. rewrite app_nil_r, <-Hs. by destruct h. }
  rewrite (add_group_ok h owned packets Hs Hr), IH by done. cbn. by rewrite <-(assoc_L (++)).
Qed.

Lemma fst_shares reports :
  (concat ((λ r : list nat * list CodedPacket, zip r.1 (share r.1)) <$> reports)).*1 = concat reports.*1.
Proof.
  induction reports as [|[owned packets] reports IH]; cbn; [done|]. rewrite fmap_app, IH. f_equal.
  apply fst_zip. unfold share. by rewrite length_fmap.
Qed.

Lemma shares_of_outer reports : Forall good_report reports →
  Forall (λ x : nat * bytes, outer !! x.1 = Some x.2)
    (concat ((λ r : list nat * list CodedPacket, zip r.1 (share r.1)) <$> reports)).
Proof.
  induction 1 as [|[owned packets] reports (Hr & _) _ IH]; cbn; [constructor|]. apply Forall_app. split; [|done].
  clear -Hr. induction Hr as [|i owned Hi _ IH]; cbn; [constructor|]. constructor; [|done]. cbn.
  by destruct (lookup_lt_is_Some_2 outer i Hi) as [x ->].
Qed.
End Fanout.

(** Every outer symbol is in exactly one group. *)
Lemma groups_cover n g : (0 < g)%nat → concat (owned_by n g <$> seq 0 g) ≡ₚ seq 0 n.
Proof.
  intros Hg. apply list.NoDup_Permutation; [apply groups_disjoint, NoDup_seq|apply NoDup_seq|]. intros i.
  rewrite list_elem_of_In, in_concat. split.
  - intros (l & Hl & Hi). rewrite <-!list_elem_of_In in *. apply list_elem_of_fmap in Hl as (gi & -> & _).
    apply elem_of_owned in Hi as [Hi _]. apply elem_of_seq. lia.
  - intros Hi%elem_of_seq. exists (owned_by n g (i mod g)%nat). rewrite <-!list_elem_of_In. split.
    + apply list_elem_of_fmap. exists (i mod g)%nat. split; [done|]. apply elem_of_seq.
      pose proof (Nat.mod_upper_bound i g). lia.
    + apply elem_of_owned. split; [lia|done].
Qed.

(** A group's report: its number and the packets that arrived from it. *)
Definition report_ok (groups : list (list nat * RlncEncoder)) (size : nat) (r : nat * list CodedPacket) : Prop :=
  ∃ owned enc, groups !! r.1 = Some (owned, enc) ∧ Forall (coded_packet (e_source enc) size) r.2 ∧
    independent (length owned) (coeffs <$> r.2).

Definition owned_of (groups : list (list nat * RlncEncoder)) (r : nat * list CodedPacket)
    : list nat * list CodedPacket :=
  (default [] (fst <$> groups !! r.1), r.2).


(** ** Witnesses *)
Module HierWitness.
Definition data : list bytes := [[Byte.x01; Byte.x02]; [Byte.x03; Byte.xff]; [Byte.x00; Byte.x10]].


Definition h : HierEncoder :=
  match (HierEncoder_new Avx2 ∅ data 3 2 2).2 with Ok h => h | _ => mkHier [] 0 0 0 end.

(** The first of two groups owns symbols 0, 2 and 4 and is enough alone. *)
Example one_group_suffices :
  match into_groups h 2 7 with
  | (owned, enc) :: _ =>
      match code_batch 10 Avx2 4 enc with
      | Some (_, ps) => owned = [0; 2; 4]%nat ∧
          (hier_decode Avx2 ∅ (add_group Avx2 (HierDecoder_new 3 2 2) owned ps).1).2 = Ok data
      | None => False
      end
  | [] => False
  end.
Proof. vm_compute. split; reflexivity. Qed.

(** [ready] counts symbols, not distinct ones: the second of three groups owns
    symbols 1 and 4, and reporting twice makes the decoder ready with two. *)
Theorem ready_counts_duplicates :
  match into_groups h 3 7 with
  | _ :: (owned, enc) :: _ =>
      match code_batch 10 Avx2 3 enc with
      | Some (_, ps) =>
          let d := add_groups Avx2 (HierDecoder_new 3 2 2) [(owned, ps); (owned, ps)] in
          ready d = true ∧ (hier_decode Avx2 ∅ d).2 = Err (HRs "need 3 symbols, have 2")
      | None => False
      end
  | _ => False
  end.
Proof. vm_compute. split; reflexivity. Qed.
End HierWitness.
