(* ===== verification/Encoder.v ===== *)
(** * Encoder: the encoding side of [coding/src/fountain.rs]

    Source symbols are owned or borrowed from one shared buffer; the first [k]
    symbols of a generation go out as they are, the rest are random
    combinations.  The random stream is the code's SplitMix generator at 64
    bits.  The degree of a repair symbol comes from the robust-soliton
    cumulative distribution, in binary64.  [k = 0] is refused by both
    constructors, so the [clamp(1, k)] of a degree never panics. *)

From S2P Require Import Prelude F64 Gf256 GfVec Gauss FountainSig Fountain FountainCorrect.

(** ** [ImplRng] *)

Definition mul64 (a b : Z) : Z := wrap 64 (a * b).
Definition add64 (a b : Z) : Z := wrap 64 (a + b).

Definition mix64 (z : Z) : Z :=
  let z := mul64 (Z.lxor z (Z.shiftr z 30)) 0xBF58476D1CE4E5B9 in
  let z := mul64 (Z.lxor z (Z.shiftr z 27)) 0x94D049BB133111EB in
  Z.lxor z (Z.shiftr z 31).

(** [ImplRng::new]: one SplitMix round over the seed. *)
Definition rng_new (seed : Z) : Z := mix64 (add64 (mul64 seed 0x9E3779B97F4A7C15) 0xA5A5A5A5).

(** [next_u64]: the next state and the output. *)
Definition next_u64 (state : Z) : Z * Z :=
  let state := add64 state 0x9E3779B97F4A7C15 in
  (state, mix64 state).

Definition next_below (state : Z) (n : nat) : Z * nat :=
  if (n =? 0)%nat then (state, 0%nat)
  else let '(state, z) := next_u64 state in (state, Z.to_nat (Z.shiftr z 40 mod Z.of_nat n)).

(** [next_f64]: the top 53 bits of a draw, scaled to [0, 1). *)
Definition next_f64 (state : Z) : Z * f64 :=
  let '(state, z) := next_u64 state in
  (state, f64_div (f64_of_usize (Z.shiftr z 11)) (f64_of_usize (2 ^ 53))).

(** ** The robust-soliton distribution *)

Section Soliton.
Context `{LM : Libm}.

Definition one : f64 := f64_of_usize 1.
Definition zero : f64 := f64_of_usize 0.

(** Ideal soliton. *)
Definition mu_ideal (kf : f64) (i : Z) : f64 :=
  if i =? 1 then f64_div one kf
  else f64_div one (f64_mul (f64_of_usize i) (f64_sub (f64_of_usize i) one)).

(** Robust component. *)
Definition tau (kf sf : f64) (i : Z) : f64 :=
  let i := f64_of_usize i in
  if f64_lt i one then zero
  else if f64_lt i (f64_div kf sf) then f64_div sf (f64_mul kf i)
  else if f64_eq (f64_floor (f64_div kf sf)) (f64_floor i)
  then f64_div (f64_mul sf (f64_abs (f64_div kf sf))) kf
  else zero.

(** The running sums of [probs], each divided by [sum]. *)
Fixpoint accumulate (sum acc : f64) (probs : list f64) : list f64 :=
  match probs with
  | [] => []
  | p :: probs' => let acc := f64_add acc p in f64_div acc sum :: accumulate sum acc probs'
  end.

Definition build_soliton_cdf (k : nat) : list f64 :=
  let c := f64_lit 1 10 in
  let delta := f64_lit 1 2 in
  let kf := f64_of_usize (Z.of_nat k) in
  let s := f64_mul (f64_mul c (f64_ln (f64_div kf delta))) (f64_sqrt (f64_div kf delta)) in
  let s := f64_ceil s in
  let probs := (λ i, f64_add (mu_ideal kf i) (tau kf s i)) <$> seqZ 1 (Z.of_nat k) in
  let sum := foldl f64_add zero probs in
  accumulate sum zero probs.
End Soliton.

(** [partition_point] on a partitioned slice: the length of the prefix where
    the predicate holds. *)
Fixpoint partition_point {A} (pred : A → bool) (l : list A) : nat :=
  match l with
  | [] => 0
  | x :: l' => if pred x then S (partition_point pred l') else 0
  end.

(** ** Sources *)

Inductive Source : Type :=
| Owned (v : list bytes)
| Shared (buf : bytes) (offset stride k : nat).

Definition source_k (src : Source) : nat :=
  match src with Owned v => length v | Shared _ _ _ k => k end.

Definition source_symbol_size (src : Source) : outcome FountainError nat :=
  match src with
  | Owned v => let? x := index v 0 in Ok (length x)
  | Shared _ _ stride _ => Ok stride
  end.

Definition src (s : Source) (i : nat) : outcome FountainError bytes :=
  match s with
  | Owned v => index v (Z.of_nat i)
  | Shared buf offset stride _ =>
      let start := (offset + i * stride)%nat in
      slice buf (Z.of_nat start) (Z.of_nat (start + stride))
  end.

Record FountainEncoder : Type := mkEncoder {
  e_source : Source;
  e_generation : Z;
  e_repair_index : Z;
  e_soliton_cdf : list f64
}.

Section Encode.
Context `{LM : Libm} (isa : Isa).

Definition FountainEncoder_new (v : list bytes) (generation : Z)
    : outcome FountainError FountainEncoder :=
  match v with
  | [] => Err FEmpty
  | x :: _ =>
      let sz := zlen x in
      match list_find (λ s : bytes, zlen s ≠ sz) v with
      | Some (_, s) => Err (FSizeMismatch sz (zlen s))
      | None => Ok (mkEncoder (Owned v) generation 0 (build_soliton_cdf (length v)))
      end
  end.

Definition new_shared (buf : bytes) (offset stride k : nat) (generation : Z)
    : outcome FountainError FountainEncoder :=
  if (k =? 0)%nat || (stride =? 0)%nat then Err FEmpty
  else
    let e := FSizeMismatch (Z.of_nat offset) (Z.of_nat stride) in
    let? ks := ok_or (checked_mul (Z.of_nat k) (Z.of_nat stride)) e in
    let? end_ := ok_or (checked_add (Z.of_nat offset) ks) e in
    if zlen buf <? end_ then Err (FSizeMismatch (zlen buf) end_)
    else Ok (mkEncoder (Shared buf offset stride k) generation 0 (build_soliton_cdf k)).

(** ** Repair symbols *)

Definition soliton_degree (e : FountainEncoder) (state : Z) : Z * nat :=
  let k := source_k (e_source e) in
  let '(state, r) := next_f64 state in
  let idx := partition_point (λ p, f64_lt p r) (e_soliton_cdf e) in
  (state, Nat.min k (Nat.max 1 (idx + 1))).

(** [while chosen.len() < degree && guard < 10 * k]; the guard is the fuel. *)
Fixpoint choose (fuel : nat) (k degree : nat) (state : Z) (chosen : list nat) : Z * list nat :=
  match fuel with
  | O => (state, chosen)
  | S fuel' =>
      if (length chosen <? degree)%nat then
        let '(state, idx) := next_below state k in
        choose fuel' k degree state (if bool_decide (idx ∈ chosen) then chosen else chosen ++ [idx])
      else (state, chosen)
  end.

(** One coefficient per chosen source: the low byte of a draw, made odd. *)
Fixpoint draw_coeffs (n : nat) (state : Z) : list byte :=
  match n with
  | O => []
  | S n' => let '(state, z) := next_u64 state in byte.of_Z (Z.lor (wrap 8 z) 1) :: draw_coeffs n' state
  end.

Fixpoint mix_sources (s : Source) (payload : bytes) (ics : list (nat * byte))
    : outcome FountainError bytes :=
  match ics with
  | [] => Ok payload
  | (i, c) :: ics' =>
      let? x := src s i in
      mix_sources s (axpy isa payload c x) ics'
  end.

(** The wire form: count, (index, coefficient) pairs, payload. *)
Definition wire_format (ics : list (nat * byte)) (payload : bytes) : bytes :=
  to_le 2 (wrap 16 (zlen ics))
    ++ concat ((λ ic : nat * byte, to_le 2 (wrap 16 (Z.of_nat ic.1)) ++ [ic.2]) <$> ics)
    ++ payload.

Definition repair_symbol (e : FountainEncoder) : outcome FountainError (FountainEncoder * bytes) :=
  let k := source_k (e_source e) in
  let? sym := source_symbol_size (e_source e) in
  let ri := add64 (e_repair_index e) 1 in
  let drng := rng_new (Z.lor (wrap 64 (Z.shiftl (e_generation e) 40)) ri) in
  let '(drng, degree) := soliton_degree e drng in
  let '(drng, chosen) := choose (10 * k) k degree drng [] in
  let coeffs := draw_coeffs (length chosen) drng in
  let? payload := mix_sources (e_source e) (replicate sym Byte.x00) (zip chosen coeffs) in
  Ok (mkEncoder (e_source e) (e_generation e) ri (e_soliton_cdf e), wire_format (zip chosen coeffs) payload).

Fixpoint systematic_phase (e : FountainEncoder) (idxs : list nat) : outcome FountainError (list bytes) :=
  match idxs with
  | [] => Ok []
  | i :: idxs' =>
      let? x := src (e_source e) i in
      let? rest := systematic_phase e idxs' in
      Ok ((to_le 2 1 ++ to_le 2 (wrap 16 (Z.of_nat i)) ++ [Byte.x01] ++ x) :: rest)
  end.

Fixpoint repair_phase (e : FountainEncoder) (n : nat)
    : outcome FountainError (FountainEncoder * list bytes) :=
  match n with
  | O => Ok (e, [])
  | S n' =>
      let? '(e, w) := repair_symbol e in
      let? '(e, ws) := repair_phase e n' in
      Ok (e, w :: ws)
  end.

(** [produce(count)]. *)
Definition produce (e : FountainEncoder) (count : nat)
    : outcome FountainError (FountainEncoder * list bytes) :=
  let k := source_k (e_source e) in
  let? _ := source_symbol_size (e_source e) in
  let? sys := systematic_phase e (seq 0 (Nat.min count k)) in
  let? '(e, rep) := repair_phase e (count - k) in
  Ok (e, sys ++ rep).
End Encode.

(** ** Correctness *)

(** The encoder reads exactly the sources [xs]. *)
Definition reads (s : Source) (xs : list bytes) : Prop :=
  source_k s = length xs ∧
  (∀ i x, xs !! i = Some x → src s i = Ok x) ∧
  ∀ x, xs !! 0%nat = Some x → source_symbol_size s = Ok (length x).

Lemma reads_owned v : reads (Owned v) v.
Proof.
  split_and!; [done|..].
  - intros i x Hx. cbn. unfold index. by rewrite Nat2Z.id, Hx.
  - intros x Hx. cbn. unfold index. change (Z.to_nat 0) with 0%nat. by rewrite Hx.
Qed.

Lemma reads_shared buf offset stride k :
  (offset + k * stride ≤ length buf)%nat →
  reads (Shared buf offset stride k) (chunks k stride (drop offset buf)).
Proof.
  intros Hle.
  assert (∀ k b, length (chunks k stride b) = k) as Hlen.
  { clear. induction k; intros b; simpl; auto. }
  assert (∀ k (b : bytes) i x, chunks k stride b !! i = Some x →
    x = take stride (drop (i * stride) b) ∧ (i < k)%nat) as Hget.
  { clear. induction k as [|k IH]; intros b [|i] x; simpl; try done.
    - intros [= <-]. split; [done|lia].
    - intros [-> ?]%IH. rewrite drop_drop. split; [done|lia]. }
  split_and!; [by rewrite Hlen|..].
  - intros i x [-> Hi]%Hget. cbn. rewrite slice_ok; [|lia|].
    + unfold ztake, zdrop. rewrite drop_drop. rewrite Nat2Z.id. f_equal. f_equal. lia.
    + unfold zlen. apply Nat2Z.inj_le. nia.
  - intros x [-> Hi]%Hget. cbn. f_equal. rewrite length_take, !length_drop. simpl. nia.
Qed.

Section EncodeCorrect.
Context (isa : Isa).
Variable xs : list bytes.
Variable s : nat.
Hypothesis Hs : (0 < s)%nat.
Hypothesis Hk : (0 < length xs)%nat ∧ zlen xs < 2 ^ 16.
Hypothesis Hxs : Forall (λ x : bytes, length x = s) xs.

Lemma choose_nonempty fuel k degree state chosen :
  chosen ≠ [] → (choose fuel k degree state chosen).2 ≠ [].
Proof.
  revert state chosen. induction fuel as [|fuel IH]; intros st c Hc; [done|].
  cbn [choose]. destruct (_ <? _)%nat; [|done]. destruct (next_below st k). apply IH.
  case_bool_decide; [done|]. by intros []%app_nil.
Qed.

Lemma choose_spec fuel k degree state chosen :
  (0 < k)%nat → NoDup chosen → Forall (λ i, (i < k)%nat) chosen → (length chosen ≤ degree)%nat →
  let r := (choose fuel k degree state chosen).2 in
  NoDup r ∧ Forall (λ i, (i < k)%nat) r ∧ (length r ≤ degree)%nat ∧
  ((0 < fuel)%nat → (0 < degree)%nat → r ≠ []).
Proof.
  intros Hk0. revert state chosen. induction fuel as [|fuel IH]; intros state chosen Hnd Hb Hl; cbn zeta.
  { cbn. split_and!; [done..|lia]. }
  cbn [choose]. destruct (Nat.ltb_spec (length chosen) degree) as [Hlt|Hge].
  2:{ cbn. split_and!; [done..|]. intros _ Hd ->. simpl in Hge. lia. }
  destruct (next_below state k) as [state' idx] eqn:Hn.
  assert (idx < k)%nat as Hidx.
  { unfold next_below in Hn. destruct (Nat.eqb_spec k 0); [lia|].
    destruct (next_u64 state) as [st z]. injection Hn as _ <-.
    pose proof (Z.mod_pos_bound (Z.shiftr z 40) (Z.of_nat k) ltac:(lia)). lia. }
  set (chosen' := if bool_decide (idx ∈ chosen) then chosen else chosen ++ [idx]).
  assert (NoDup chosen' ∧ Forall (λ i, (i < k)%nat) chosen' ∧ (length chosen' ≤ degree)%nat ∧
          chosen' ≠ []) as (H1 & H2 & H3 & H4).
  { unfold chosen'. case_bool_decide as Hin.
    - split_and!; [done..|lia|]. intros ->. by apply not_elem_of_nil in Hin.
    - split_and!; [|by apply Forall_app; split; [|apply Forall_singleton]
        |rewrite length_app; simpl; lia|by intros []%app_nil].
      apply list.NoDup_app. split_and!; [done| |apply list.NoDup_singleton].
      intros x Hx ->%list_elem_of_singleton. done. }
  destruct (IH state' chosen' H1 H2 H3) as (R1 & R2 & R3 & _). split_and!; [done..|].
  intros _ _. by apply choose_nonempty.
Qed.

Lemma draw_coeffs_spec n state :
  length (draw_coeffs n state) = n ∧ Forall (λ c, c ≠ Byte.x00) (draw_coeffs n state).
Proof.
  revert state. induction n as [|n IH]; intros state; cbn [draw_coeffs]; [done|].
  destruct (next_u64 state) as [st z]. destruct (IH st) as [Hl Hf].
  split; [simpl; by rewrite Hl|]. constructor; [|done]. intros H0.
  apply (f_equal (λ b, Z.testbit (byte.unsigned b) 0)) in H0.
  rewrite byte.unsigned_of_Z in H0. unfold byte.wrap in H0.
  rewrite Z.mod_pow2_bits_low, Z.lor_spec in H0 by lia.
  rewrite orb_comm in H0. discriminate H0.
Qed.

(** The payload of a mix is the combination of the entries. *)
Definition entries_comb (ics : list (nat * byte)) (j : nat) : byte :=
  foldl (λ acc ic, acc ⊕ gf_mul ic.2 (cell (source xs ic.1) j)) Byte.x00 ics.

Lemma mix_sources_spec S p ics :
  reads S xs → length p = s → Forall (λ ic : nat * byte, (ic.1 < length xs)%nat) ics →
  ∃ p', mix_sources isa S p ics = Ok p' ∧ length p' = s ∧
    ∀ j, cell p' j = foldl (λ acc ic, acc ⊕ gf_mul ic.2 (cell (source xs ic.1) j)) (cell p j) ics.
Proof.
  intros (_ & Hr & _) Hp Hi. revert p Hp. induction Hi as [|[i c] ics Hi _ IH]; intros p Hp.
  { by exists p. }
  cbn [mix_sources fst] in *. destruct (source_lookup xs s Hxs i Hi) as [Hx Hl].
  rewrite (Hr i _ Hx). cbn [obind]. unfold axpy. rewrite gf_axpy_slice_eq.
  destruct (IH (axpy_ref c (source xs i) p)) as (p' & -> & Hl' & Hc);
    [by rewrite length_axpy_ref|].
  exists p'. split_and!; [done|done|]. intros j. rewrite Hc, cell_axpy by congruence. done.
Qed.

Lemma cover_of_lookup ics i c : cover_of ics !! i = Some c → (i, c) ∈ ics.
Proof.
  unfold cover_of. induction ics as [|[i' c'] ics IH] using rev_ind; [done|].
  rewrite foldl_app. cbn. intros [[<- <-]|[_ ?]]%lookup_insert_Some; apply elem_of_app;
    [right; by left|left; auto].
Qed.

Lemma comb_cover_of ics j :
  NoDup ics.*1 → comb xs (cover_of ics) j = entries_comb ics j.
Proof.
  unfold entries_comb. induction ics as [|[i c] ics IH] using rev_ind; intros Hnd; [done|].
  rewrite fmap_app in Hnd. apply list.NoDup_app in Hnd as (Hnd & Hdis & _).
  unfold cover_of. rewrite !foldl_app. cbn. fold (cover_of ics).
  assert (cover_of ics !! i = None) as Hno.
  { apply eq_None_not_Some. intros [c' Hc']. apply cover_of_lookup in Hc'.
    apply (Hdis i); [apply list_elem_of_fmap; by exists (i, c')|by left]. }
  rewrite (comb_delete xs _ i c) by apply lookup_insert_eq.
  rewrite delete_insert_eq, delete_id by done. rewrite IH by done. apply xor_comm.
Qed.

Lemma wire_format_of ics p :
  zlen ics < 2 ^ 16 → Forall (entry_ok (length xs)) ics → wire_format ics p = wire_of ics p.
Proof.
  intros Hl Hf. unfold wire_format, wire_of, wrap. rewrite Z.mod_small by zl. f_equal. f_equal.
  f_equal. apply list_fmap_ext. intros n [i c] Hic. unfold entry_bytes. cbn.
  pose proof (Forall_lookup_1 _ _ _ _ Hf Hic) as (_ & Hb & _). cbn in Hb.
  by rewrite Z.mod_small by lia.
Qed.

Lemma repair_symbol_coded e :
  reads (e_source e) xs →
  ∃ e' w, repair_symbol isa e = Ok (e', w) ∧ e_source e' = e_source e ∧ coded_symbol xs w.
Proof.
  intros Hr. pose proof Hr as (Hsk & _ & Hsz). destruct Hk as [Hpos Hmax].
  destruct (source_lookup xs s Hxs 0 Hpos) as [H0 Hl0]. specialize (Hsz _ H0).
  unfold repair_symbol. rewrite Hsz, Hl0, Hsk. cbn [obind].
  destruct (soliton_degree e _) as [d1 degree] eqn:Hd.
  assert (1 ≤ degree ≤ length xs)%nat as Hdeg.
  { unfold soliton_degree in Hd. rewrite Hsk in Hd. destruct (next_f64 _). injection Hd as _ <-. lia. }
  destruct (choose_spec (10 * length xs) (length xs) degree d1 []) as (Hnd & Hb & Hl & Hne);
    [done|apply base.NoDup_nil_2|by constructor|simpl; lia|].
  destruct (choose _ _ _ _ _) as [d2 chosen]. cbn [snd] in *. specialize (Hne ltac:(lia) ltac:(lia)).
  destruct (draw_coeffs_spec (length chosen) d2) as [Hcl Hcf].
  set (coeffs := draw_coeffs _ d2) in *.
  assert ((zip chosen coeffs).*1 = chosen) as Hfst by (apply fst_zip; lia).
  assert (Forall (entry_ok (length xs)) (zip chosen coeffs)) as Hent.
  { apply Forall_lookup_2. intros n [i c] Hic. apply lookup_zip_with_Some in Hic as (i' & c' & [= <- <-] & Hi & Hc).
    pose proof (Forall_lookup_1 _ _ _ _ Hb Hi). pose proof (Forall_lookup_1 _ _ _ _ Hcf Hc).
    simpl in *. unfold zlen in Hmax. split_and!; cbn; [done|lia|done]. }
  destruct (mix_sources_spec (e_source e) (replicate s Byte.x00) (zip chosen coeffs))
    as (p & -> & Hpl & Hpc); [done|apply length_replicate| |].
  { eapply Forall_impl; [|exact Hent]. by intros ic [? _]. }
  cbn [obind]. eexists _, _. split_and!; [done|done|].
  assert (zlen (zip chosen coeffs) < 2 ^ 16) as Hzl.
  { unfold zlen in *. rewrite <-(length_fmap fst), Hfst. lia. }
  rewrite wire_format_of by done. exists (zip chosen coeffs), p. split_and!; [done| |done|done| |].
  - intros He. apply Hne. by rewrite <-Hfst, He.
  - rewrite Hpl. split_and!; cbn [cover sym_payload]; [done|..].
    + intros i c Hic%cover_of_lookup. apply (proj1 (Forall_elem _ _) Hent) in Hic as (? & _ & ?). done.
    + intros j Hj. rewrite comb_cover_of by by rewrite Hfst. rewrite Hpc.
      unfold cell at 2. rewrite lookup_replicate_2 by lia. done.
  - eapply Forall_impl; [|exact Hxs]. intros x Hx. simpl in *. by rewrite Hx, Hpl.
Qed.

Lemma systematic_phase_spec e idxs :
  reads (e_source e) xs → Forall (λ i, (i < length xs)%nat) idxs →
  systematic_phase e idxs
  = Ok ((λ i, systematic_wire (Z.of_nat i) (source xs i)) <$> idxs).
Proof.
  intros (_ & Hr & _) Hi. induction Hi as [|i idxs Hi _ IH]; [done|]. cbn [systematic_phase].
  destruct (source_lookup xs s Hxs i Hi) as [Hx _]. rewrite (Hr i _ Hx), IH. cbn.
  unfold systematic_wire, wrap. destruct Hk as [_ Hm]. unfold zlen in Hm.
  by rewrite Z.mod_small by lia.
Qed.

Lemma repair_phase_coded e n :
  reads (e_source e) xs →
  ∃ e' ws, repair_phase isa e n = Ok (e', ws) ∧ length ws = n ∧ Forall (coded_symbol xs) ws.
Proof.
  revert e. induction n as [|n IH]; intros e Hr; cbn [repair_phase]; [by eexists _, []|].
  destruct (repair_symbol_coded e Hr) as (e1 & w & -> & He & Hw). cbn [obind].
  destruct (IH e1) as (e2 & ws & -> & Hl & Hws); [by rewrite He|].
  eexists _, (w :: ws). cbn. split_and!; [done|by rewrite Hl|by constructor].
Qed.

(** The symbols of a generation: coded, and systematic first. *)
Lemma produce_coded e count :
  reads (e_source e) xs →
  ∃ e' ws, produce isa e count = Ok (e', ws) ∧ length ws = count ∧ Forall (coded_symbol xs) ws ∧
    ((length xs ≤ count)%nat →
     ∀ i x, xs !! i = Some x → systematic_wire (Z.of_nat i) x ∈ ws).
Proof.
  intros Hr. pose proof Hr as (Hsk & _ & Hsz). destruct Hk as [Hpos Hmax].
  destruct (source_lookup xs s Hxs 0 Hpos) as [H0 _].
  unfold produce. rewrite (Hsz _ H0), Hsk. cbn [obind].
  rewrite systematic_phase_spec; [|done|].
  2:{ apply Forall_elem. intros i Hi%elem_of_seq. lia. }
  destruct (repair_phase_coded e (count - length xs) Hr) as (e' & ws & -> & Hl & Hws). cbn [obind].
  eexists _, _. split_and!; [done| | |].
  - rewrite length_app, length_fmap, length_seq. lia.
  - apply Forall_app. split; [|done]. apply Forall_fmap, Forall_elem. intros i Hi%elem_of_seq. cbn.
    destruct (source_lookup xs s Hxs i ltac:(lia)) as [Hx Hlx].
    apply systematic_coded; [lia|lia|by rewrite Hlx|done].
  - intros Hc i x Hx. apply elem_of_app. left. apply list_elem_of_fmap. exists i.
    unfold source. rewrite Hx. split; [done|]. apply lookup_lt_Some in Hx. apply elem_of_seq. lia.
Qed.
End EncodeCorrect.

Lemma produce_prefix isa srcs s e count e' sent :
  (0 < s)%nat → Forall (λ x : bytes, length x = s) srcs → 0 < zlen srcs < 2 ^ 16 →
  reads (e_source e) srcs → produce isa e count = Ok (e', sent) → (length srcs ≤ count)%nat →
  ∀ i x, srcs !! i = Some x → systematic_wire (Z.of_nat i) x ∈ take (length srcs) sent.
Proof.
  intros Hs Hx Hk Hr Hp Hc i x Hi. pose proof Hr as (Hsk & _ & _).
  unfold produce in Hp. rewrite Hsk in Hp.
  apply obind_ok_inv in Hp as (sz & _ & Hp).
  assert (Hk' : (0 < length srcs)%nat ∧ zlen srcs < 2 ^ 16) by (unfold zlen in *; lia).
  rewrite (systematic_phase_spec srcs s Hs Hk' Hx e _ Hr) in Hp
    by (apply Forall_elem; intros j Hj%elem_of_seq; lia).
  cbn [obind] in Hp. apply obind_ok_inv in Hp as ([e1 rep] & _ & [= <- <-]).
  rewrite take_app_length' by (rewrite length_fmap, length_seq; lia).
  apply list_elem_of_fmap. exists i. unfold source. rewrite Hi. split; [done|].
  apply lookup_lt_Some in Hi. apply elem_of_seq. lia.
Qed.

(** A decoder and what it answers, from the symbols that reached it. *)
Definition receive (isa : Isa) (k s : Z) (wires : list bytes)
    : outcome FountainError (list bytes) :=
  match decoder_add_all (FC := fountain_code isa) (Decoder_new k s) wires with
  | (d, Ok _) => (decode isa d).2
  | (_, Err e) => Err e
  | (_, Panic) => Panic
  end.

Lemma receive_coded isa srcs s wires :
  0 < s → 0 < zlen srcs < 2 ^ 16 → Forall (λ x : bytes, zlen x = s) srcs →
  Forall (coded_symbol srcs) wires →
  (receive isa (zlen srcs) s wires = Ok srcs ∨ underdetermined (receive isa (zlen srcs) s wires)) ∧
  ((∀ i x, srcs !! i = Some x → systematic_wire (Z.of_nat i) x ∈ wires) →
   receive isa (zlen srcs) s wires = Ok srcs).
Proof.
  intros Hs Hk Hx Hw. unfold receive.
  destruct (decode_coded (FC := fountain_code isa) srcs s wires) as (d & Ha & Hd); [lia..|done|done|].
  pose proof (decode_systematic (FC := fountain_code isa) srcs s wires d ltac:(lia) ltac:(lia) Hx Hw)
    as Hsys.
  cbn [decoder_new decoder_decode fountain_code] in *. rewrite Ha in *. split; [done|].
  intros Hall. by apply Hsys.
Qed.

(** ** Theorems *)

(** C20: The erasure code: encode a generation of [k] symbols, lose, reorder and
    duplicate the coded symbols at will.  A fresh decoder accepts what arrives
    and either returns exactly the source symbols or asks for more, on every
    instruction set; it never returns anything else and never panics.  When
    the [k] systematic symbols are among those that arrived it returns the
    sources. *)
Theorem erasure_roundtrip `{LM : Libm} isa isa' srcs s generation count e e' sent recv :
  0 < s → 0 < zlen srcs < 2 ^ 16 → Forall (λ x : bytes, zlen x = s) srcs →
  FountainEncoder_new srcs generation = Ok e → produce isa e count = Ok (e', sent) →
  (∀ w, w ∈ recv → w ∈ sent) →
  (receive isa' (zlen srcs) s recv = Ok srcs ∨
     ∃ have need, receive isa' (zlen srcs) s recv = Err (FUnderdetermined have need)) ∧
  ((∀ w, w ∈ take (length srcs) sent → w ∈ recv) → (length srcs ≤ count)%nat →
     receive isa' (zlen srcs) s recv = Ok srcs).
Proof.
  intros Hs Hk Hx He Hp Hsub.
  assert (e_source e = Owned srcs) as Hsrc.
  { unfold FountainEncoder_new in He. destruct srcs; [done|].
    destruct (list_find _ _) as [[? ?]|]; [done|]. by injection He as <-. }
  assert (Forall (λ x : bytes, length x = Z.to_nat s) srcs) as Hx' by (apply forall_zlen; [lia|done]).
  destruct (produce_coded isa srcs (Z.to_nat s) ltac:(lia) ltac:(unfold zlen in *; lia) Hx' e count)
    as (e1 & ws & Hp' & Hl & Hws & Hsys); [rewrite Hsrc; apply reads_owned|].
  rewrite Hp in Hp'. injection Hp' as <- <-.
  assert (Forall (coded_symbol srcs) recv) as Hr.
  { apply Forall_elem. intros w Hw. apply (proj1 (Forall_elem _ _) Hws). by apply Hsub. }
  destruct (receive_coded isa' srcs s recv Hs Hk Hx Hr) as [H1 H2]. split; [exact H1|].
  intros Hall Hc. apply H2. intros i x Hi. apply Hall.
  eapply (produce_prefix isa srcs (Z.to_nat s)); [lia|done|done|rewrite Hsrc; apply reads_owned|done..].
Qed.

(** A decoder that has already tried must not be asked again: peeling moves
    payloads out of the symbols it keeps.  With two sources, the first symbol
    received twice and then the second: the attempt after two symbols asks for
    more, and the attempt after the third reports success with an empty first
    source, where a fresh decoder recovers both. *)
Theorem decode_retry_loses_source :
  let w0 := systematic_wire 0 [Byte.x05] in
  let w1 := systematic_wire 1 [Byte.x07] in
  let d := (add (add (Decoder_new 2 1) w0).1 w0).1 in
  let '(d, first) := decode Scalar d in
  first = Err (FUnderdetermined 0 1) ∧
  (decode Scalar (add d w1).1).2 = Ok [[]; [Byte.x07]] ∧
  receive Scalar 2 1 [w0; w0; w1] = Ok [[Byte.x05]; [Byte.x07]].
Proof. vm_compute. split_and!; reflexivity. Qed.

(** ** Witnesses *)
Module EncoderWitness.
(** A stand-in for the logarithm: the identity. *)
#[export] Instance toy_libm : Libm := λ x, x.

Definition srcs : list bytes := [[Byte.x01; Byte.x02]; [Byte.x03; Byte.x04]; [Byte.xff; Byte.x00]].
Definition enc : FountainEncoder := mkEncoder (Owned srcs) 9 0 (build_soliton_cdf 3).
Definition produced : FountainEncoder * list bytes :=
  match produce Avx2 enc 5 with Ok r => r | _ => (enc, []) end.
Definition sent : list bytes := produced.2.
(** The second systematic symbol is lost, another arrives twice. *)
Definition recv : list bytes :=
  match sent with [w0; _; w2; w3; w4] => [w4; w0; w2; w0; w3] | _ => [] end.

Lemma erasure_roundtrip_witness :
  (receive Neon (zlen srcs) 2 recv = Ok srcs ∨
     ∃ have need, receive Neon (zlen srcs) 2 recv = Err (FUnderdetermined have need)) ∧
  ((∀ w, w ∈ take (length srcs) sent → w ∈ recv) → (length srcs ≤ 5)%nat →
     receive Neon (zlen srcs) 2 recv = Ok srcs).
Proof.
  apply (erasure_roundtrip Avx2 Neon srcs 2 9 5 enc produced.1 sent recv).
  - lia.
  - by vm_compute.
  - by repeat constructor.
  - by vm_compute.
  - by vm_compute.
  - apply Forall_elem. apply (bool_decide_unpack _). vm_compute. exact I.
Defined.
End EncoderWitness.
