(* ===== verification/Bulk.v ===== *)
(** * Bulk: sharding a payload into fountain generations ([coding/src/bulk.rs])

    Generations are coded over a thread pool; they share no state, so the order
    is that of the generation ids.  Buffer lengths and counts are natural
    numbers: they are sizes of allocations, far below the [usize] bound. *)

From S2P Require Import Prelude F64 Gf256 GfVec Gauss FountainSig Fountain FountainCorrect Encoder.

Inductive BulkError : Type :=
| BulkEmpty
| BulkGeneration (gen : Z) (inner : FountainError)
| BulkSizeMismatch (a b : Z).

(** The [thiserror] texts. *)
Definition BulkError_to_string (e : BulkError) : string :=
  match e with
  | BulkEmpty => "empty bulk payload"
  | BulkGeneration gen inner =>
      "generation " ++ show_usize gen ++ " decode failed: " ++ FountainError_to_string inner
  | BulkSizeMismatch a b => "size mismatch: " ++ show_usize a ++ " vs " ++ show_usize b
  end%string.

Record BulkConfig : Type := mkConfig {
  gen_size : nat;
  symbol_size : nat;
  repair_fraction : f64;
  generations : nat
}.

Definition BulkConfig_default : BulkConfig := mkConfig 1024 4096 (f64_lit 2 100) 16.

Definition with_repair_fraction (cfg : BulkConfig) (repair_fraction : f64) : BulkConfig :=
  mkConfig (gen_size cfg) (symbol_size cfg) repair_fraction (generations cfg).

Definition adapt_to_loss (cfg : BulkConfig) (loss_rate safety : f64) : BulkConfig :=
  let p := f64_clamp loss_rate (f64_of_usize 0) (f64_lit 95 100) in
  let eps_min := f64_lit 2 100 in
  with_repair_fraction cfg
    (if f64_le (f64_lit 95 100) p then f64_lit 1 2
     else
       let r := f64_div (f64_mul safety (f64_add p eps_min)) (f64_sub (f64_of_usize 1) p) in
       f64_clamp r eps_min (f64_lit 1 2)).

(** [(gen_size as f64 * repair_fraction).ceil() as usize]. *)
Definition repair_symbols (cfg : BulkConfig) : nat :=
  Z.to_nat (f64_as_usize (f64_ceil (f64_mul (f64_of_usize (Z.of_nat (gen_size cfg))) (repair_fraction cfg)))).

(** [usize::div_ceil]; panics on a zero divisor. *)
Definition div_ceil {E} (a b : nat) : outcome E nat :=
  if (b =? 0)%nat then Panic else Ok ((a + b - 1) / b)%nat.

Section Bulk.
Context `{LM : Libm} (isa : Isa).

(** One generation of [encode]. *)
Definition encode_generation (cfg : BulkConfig) (buf : bytes) (count : nat) (gi : nat)
    : outcome BulkError (list (Z * bytes)) :=
  let gen_id := wrap 32 (Z.of_nat gi) in
  let offset := (gi * (gen_size cfg * symbol_size cfg))%nat in
  let? enc := map_err (λ _, BulkSizeMismatch 0 0)
    (new_shared buf offset (symbol_size cfg) (gen_size cfg) gen_id) in
  let? '(_, wire) := map_err (λ _, BulkSizeMismatch 0 0) (produce isa enc count) in
  Ok ((λ w, (gen_id, w)) <$> wire).

Fixpoint encode_generations (cfg : BulkConfig) (buf : bytes) (count : nat) (gis : list nat)
    : outcome BulkError (list (Z * bytes)) :=
  match gis with
  | [] => Ok []
  | gi :: gis' =>
      let? ws := encode_generation cfg buf count gi in
      let? rest := encode_generations cfg buf count gis' in
      Ok (ws ++ rest)
  end.

Definition encode (payload : bytes) (cfg : BulkConfig) : outcome BulkError (list (Z * bytes)) :=
  if (length payload =? 0)%nat then Err BulkEmpty
  else
    let per_gen := gen_size cfg in
    let repair := repair_symbols cfg in
    let count := (gen_size cfg + repair)%nat in
    let full_gen_bytes := (per_gen * symbol_size cfg)%nat in
    let? n := div_ceil (length payload) (symbol_size cfg) in
    let total_syms := Nat.max n 1 in
    let? g := div_ceil total_syms per_gen in
    let total_full_gens := Nat.max g 1 in
    let padded_len := (total_full_gens * full_gen_bytes)%nat in
    let padded := take padded_len (payload ++ replicate (padded_len - length payload) Byte.x00) in
    encode_generations cfg padded count (seq 0 total_full_gens).

(** ** [decode] *)

(** Group the symbols by generation id, in order of arrival. *)
Definition group_symbols (coded : list (Z * bytes)) : gmap Z (list bytes) :=
  foldl (λ m gw, <[gw.1 := default [] (m !! gw.1) ++ [gw.2]]> m) ∅ coded.

(** [gens.sort_by_key]; the keys are distinct. *)
Fixpoint insert_gen (x : Z * list bytes) (l : list (Z * list bytes)) : list (Z * list bytes) :=
  match l with
  | [] => [x]
  | y :: l' => if x.1 <=? y.1 then x :: l else y :: insert_gen x l'
  end.
Definition sort_gens (l : list (Z * list bytes)) : list (Z * list bytes) := foldr insert_gen [] l.

(** Symbols that a decoder refuses are dropped. *)
Definition add_lenient (d : Decoder) (w : bytes) : Decoder := (add d w).1.

(** Fill a region of [n] zero bytes with the decoded symbols. *)
Definition fill_region (n : nat) (syms : list bytes) : bytes :=
  let flat := take n (concat syms) in
  flat ++ replicate (n - length flat) Byte.x00.

Fixpoint decode_gens (cfg : BulkConfig) (gens : list (Z * list bytes)) : outcome BulkError bytes :=
  match gens with
  | [] => Ok []
  | (gen_id, wire) :: gens' =>
      let dec := foldl add_lenient
        (Decoder_new (Z.of_nat (gen_size cfg)) (Z.of_nat (symbol_size cfg))) wire in
      let? syms := map_err (BulkGeneration gen_id) (decode isa dec).2 in
      let? rest := decode_gens cfg gens' in
      Ok (fill_region (gen_size cfg * symbol_size cfg) syms ++ rest)
  end.

Definition bulk_decode (coded : list (Z * bytes)) (cfg : BulkConfig) (original_len : nat)
    : outcome BulkError bytes :=
  let gens := sort_gens (map_to_list (group_symbols coded)) in
  let full_gen_bytes := (gen_size cfg * symbol_size cfg)%nat in
  if bool_decide (gens = []) || (full_gen_bytes =? 0)%nat then Ok []
  else
    let? out := decode_gens cfg gens in
    Ok (take original_len out).
End Bulk.

(** ** One generation: what the shim sends *)

Section OneGeneration.
Context `{LM : Libm} (isa : Isa).

Lemma div_ceil_small {E} a b : (0 < a ≤ b)%nat → div_ceil (E:=E) a b = Ok 1%nat.
Proof.
  intros H. unfold div_ceil. destruct (Nat.eqb_spec b 0); [lia|].
  f_equal. symmetry. apply (Nat.div_unique _ _ 1 (a - 1)); lia.
Qed.

Lemma div_ceil_bounds {E} a b q :
  (0 < b)%nat → div_ceil (E:=E) a b = Ok q → (a ≤ q * b)%nat ∧ ((0 < a)%nat → (q - 1) * b < a)%nat.
Proof.
  intros Hb H. unfold div_ceil in H. destruct (Nat.eqb_spec b 0); [lia|]. injection H as <-.
  pose proof (Nat.div_mod (a + b - 1) b ltac:(lia)) as Hd.
  pose proof (Nat.mod_upper_bound (a + b - 1) b ltac:(lia)). nia.
Qed.

Lemma chunks_lengths n len (b : bytes) :
  (n * len ≤ length b)%nat →
  length (chunks n len b) = n ∧ Forall (λ x : bytes, length x = len) (chunks n len b) ∧
  concat (chunks n len b) = take (n * len) b.
Proof.
  revert b. induction n as [|n IH]; intros b Hb; simpl; [done|].
  destruct (IH (drop len b)) as (H1 & H2 & H3); [rewrite length_drop; lia|].
  split_and!; [by rewrite H1|constructor; [rewrite length_take; lia|done]|].
  rewrite H3. rewrite <-(take_drop len b) at 3.
  rewrite take_app_ge by (rewrite length_take; lia). f_equal. f_equal. rewrite length_take. lia.
Qed.

(** A payload that fits one generation: the coded symbols are those of its
    zero-padded source symbols, the systematic ones included. *)
Lemma encode_one (payload : bytes) cfg :
  payload ≠ [] → (0 < symbol_size cfg)%nat → (0 < gen_size cfg)%nat → Z.of_nat (gen_size cfg) < 2 ^ 16 →
  (length payload ≤ gen_size cfg * symbol_size cfg)%nat →
  Z.of_nat (gen_size cfg * symbol_size cfg) < 2 ^ 63 →
  ∃ srcs ws,
    encode isa payload cfg = Ok ((λ w, (0, w)) <$> ws) ∧
    length ws = (gen_size cfg + repair_symbols cfg)%nat ∧
    length srcs = gen_size cfg ∧ Forall (λ x : bytes, length x = symbol_size cfg) srcs ∧
    concat srcs = payload ++ replicate (gen_size cfg * symbol_size cfg - length payload) Byte.x00 ∧
    Forall (coded_symbol srcs) ws ∧
    ∀ i x, srcs !! i = Some x → systematic_wire (Z.of_nat i) x ∈ ws.
Proof.
  intros Hne Hsym Hgen Hmax Hfit Hsz. unfold encode.
  destruct (Nat.eqb_spec (length payload) 0) as [H0|H0]; [by apply nil_length_inv in H0|].
  destruct (div_ceil (E:=BulkError) (length payload) (symbol_size cfg)) as [n|?|] eqn:Hn;
    [|unfold div_ceil in Hn; by destruct (_ =? _)%nat..|unfold div_ceil in Hn;
      destruct (Nat.eqb_spec (symbol_size cfg) 0); [lia|done]].
  apply div_ceil_bounds in Hn as [Hn1 Hn2]; [|done]. cbn [obind].
  assert (1 ≤ n ≤ gen_size cfg)%nat as Hn by nia.
  rewrite (div_ceil_small (Nat.max n 1) (gen_size cfg)) by lia. cbn [obind Nat.max].
  rewrite Nat.mul_1_l. set (len := (gen_size cfg * symbol_size cfg)%nat) in *.
  set (padded := payload ++ replicate (len - length payload) Byte.x00).
  assert (length padded = len) as Hpl.
  { unfold padded. rewrite length_app, length_replicate. lia. }
  rewrite take_ge by lia. cbn [seq encode_generations].
  unfold encode_generation. cbn [Nat.mul]. change (wrap 32 (Z.of_nat 0)) with 0.
  destruct (chunks_lengths (gen_size cfg) (symbol_size cfg) padded) as (Hc1 & Hc2 & Hc3); [lia|].
  set (srcs := chunks (gen_size cfg) (symbol_size cfg) padded) in *.
  assert (new_shared padded 0 (symbol_size cfg) (gen_size cfg) 0
    = Ok (mkEncoder (Shared padded 0 (symbol_size cfg) (gen_size cfg)) 0 0 (build_soliton_cdf (gen_size cfg)))) as ->.
  { unfold new_shared. destruct (Nat.eqb_spec (gen_size cfg) 0); [lia|].
    destruct (Nat.eqb_spec (symbol_size cfg) 0); [lia|]. cbn [orb].
    unfold checked_mul, checked_add, usize_max.
    rewrite (proj2 (Z.leb_le _ _)) by lia. cbn [ok_or obind].
    rewrite (proj2 (Z.leb_le _ _)) by lia. cbn [ok_or obind].
    rewrite (proj2 (Z.ltb_ge _ _)); [done|]. unfold zlen. lia. }
  cbn [map_err obind].
  destruct (produce_coded isa srcs (symbol_size cfg) Hsym ltac:(unfold zlen; lia) Hc2
    (mkEncoder (Shared padded 0 (symbol_size cfg) (gen_size cfg)) 0 0 (build_soliton_cdf (gen_size cfg)))
    (gen_size cfg + repair_symbols cfg))
    as (e' & ws & -> & Hwl & Hws & Hsys).
  { cbn [e_source]. apply (reads_shared padded 0). lia. }
  cbn [map_err obind]. exists srcs, ws. rewrite app_nil_r. split_and!; [done..| |done|].
  - rewrite Hc3. apply take_ge. lia.
  - apply Hsys. lia.
Qed.
End OneGeneration.

(** ** Adapting the repair margin *)

(** The repair margin stays between 2 % and 50 % of a generation for every
    observed loss rate and safety factor for which the model formula yields a
    number (a NaN is passed through, which [encode] reads as no repair). *)
Theorem adapt_to_loss_range cfg loss_rate safety :
  let r := repair_fraction (adapt_to_loss cfg loss_rate safety) in
  f64_is_nan r = true ∨
  f64_le (f64_lit 2 100) r = true ∧ f64_le r (f64_lit 1 2) = true.
Proof.
  unfold adapt_to_loss. cbn [with_repair_fraction repair_fraction].
  set (p := f64_clamp _ _ _). destruct (f64_le _ p); [right; by vm_compute|].
  set (r := f64_div _ _). destruct (f64_is_nan r) eqn:Hr.
  - left. destruct r; done.
  - right. apply f64_clamp_bounds; [exact Hr|vm_compute; reflexivity..].
Qed.
