(* ===== verification/Shim.v ===== *)
(** * Shim: the client side of [shim/src/lib.rs]

    One record per session; the content store and the cuckoo filter are shared
    by the sessions of a host, so the operations take them and return them.
    The filter is an interface without laws: what the shim sends is right
    whatever the filter answers. *)

From S2P Require Import Prelude Interfaces Block Merkle Filter Frame Store Compress FountainSig.
From S2P Require Import Encoder Bulk Receiver.
From S2P Require Import F64 GfVec.

Inductive ShimError : Type :=
| SCoding (msg : string)
| SCompress (msg : string)
| ColdStartRequired (session_id : Z).

Definition APPEND_LEVEL : Z := 3.

Record SessionShim : Type := mkShim {
  s_session_id : Z;
  s_ids : list BlockId;
  s_root : MerkleRoot;
  s_base_root : MerkleRoot;
  s_base_len : nat;
  s_level : Z;
  s_fountain_k : Z;
  s_fountain_symbol_size : Z
}.

Section Shim.
Context `{B3 : Blake3} `{CC : Codec} `{DF : DedupFilter} `{LM : Libm}.
Variable isa : Isa.

(** [SessionShim::with_filter]; [level] is the bulk compressor's level. *)
Definition SessionShim_new (session_id level : Z) : SessionShim :=
  mkShim session_id [] ROOT_ZERO ROOT_ZERO 0 level 64 1024.

(** ** Appending *)

(** The shared state of the sessions on a host. *)
Record Host : Type := mkHost { h_store : ContentStore; h_filter : Filter }.

(** One block of [ingest_turn]. *)
Definition ingest_block (sh : SessionShim) (h : Host) (b : Block) : SessionShim * Host * FrameBlock :=
  let '(c, id) := canonical_bytes_and_id b in
  let sh := mkShim (s_session_id sh) (s_ids sh ++ [id]) (append_root (s_root sh) id)
              (s_base_root sh) (s_base_len sh) (s_level sh) (s_fountain_k sh)
              (s_fountain_symbol_size sh) in
  let known := if filter_contains (h_filter h) id then contains (h_store h) id else false in
  if known then
    (sh, mkHost (reference (h_store h) (s_session_id sh) id).1 (h_filter h), Ref id)
  else
    let z := match codec_compress APPEND_LEVEL c with Ok z => z | _ => c end in
    let store := (insert_with_canonical (h_store h) (s_session_id sh) b id (Some c)).1 in
    let filter := filter_insert (h_filter h) id in
    (sh, mkHost store filter, Inline (mkBlock (kind b) (seq b) z)).

Fixpoint ingest_blocks (sh : SessionShim) (h : Host) (bs : list Block)
    : SessionShim * Host * list FrameBlock :=
  match bs with
  | [] => (sh, h, [])
  | b :: bs' =>
      let '(sh, h, fb) := ingest_block sh h b in
      let '(sh, h, fbs) := ingest_blocks sh h bs' in
      (sh, h, fb :: fbs)
  end.

Definition ingest_turn (sh : SessionShim) (h : Host) (bs : list Block)
    : SessionShim * Host * AppendFrame :=
  let '(sh, h, fbs) := ingest_blocks sh h bs in
  (sh, h, mkAppend (s_session_id sh) (s_base_root sh) fbs).

Definition ingest_coalesced (sh : SessionShim) (h : Host) (turns : list (list Block))
    : SessionShim * Host * AppendFrame := ingest_turn sh h (concat turns).

(** ** Acknowledgements *)

(** [for (i, id) in self.ids.iter().enumerate()]: the prefix whose root is
    [acked]. *)
Fixpoint find_prefix (acked r : MerkleRoot) (i : nat) (ids : list BlockId) : option nat :=
  match ids with
  | [] => None
  | id :: ids' =>
      let r := append_root r id in
      if bool_decide (r = acked) then Some (i + 1)%nat else find_prefix acked r (i + 1) ids'
  end.

Definition with_base (sh : SessionShim) (base : MerkleRoot) (len : nat) : SessionShim :=
  mkShim (s_session_id sh) (s_ids sh) (s_root sh) base len (s_level sh) (s_fountain_k sh)
    (s_fountain_symbol_size sh).

Definition apply_ack (sh : SessionShim) (acked : MerkleRoot) : SessionShim * bool :=
  if bool_decide (acked = s_root sh) then (with_base sh acked (length (s_ids sh)), true)
  else if bool_decide (acked = s_base_root sh) then (sh, true)
  else match find_prefix acked ROOT_ZERO 0 (s_ids sh) with
       | Some n => (with_base sh acked n, true)
       | None => (sh, false)
       end.

(** ** Cold start *)

Definition resync_frame (sh : SessionShim) : ResyncFrame :=
  mkResync (s_session_id sh) (s_root sh) (s_ids sh).

(** [[len:u32][compressed canonical bytes]] for every missing block the store
    has. *)
Fixpoint bulk_records (sh : SessionShim) (store : ContentStore) (missing : list BlockId)
    : outcome ShimError (list bytes) :=
  match missing with
  | [] => Ok []
  | id :: missing' =>
      match get store id with
      | None => bulk_records sh store missing'
      | Some b =>
          let c := canonical_bytes b in
          let? z := map_err (λ e, SCompress (CompressError_to_string e)) (codec_compress (s_level sh) c) in
          let? rest := bulk_records sh store missing' in
          Ok ((to_le 4 (wrap 32 (zlen z)) ++ z) :: rest)
      end
  end.

(** Pack whole records into generations of at most [full_gen_bytes]. *)
Fixpoint shard_records (full_gen_bytes : Z) (records : list bytes) (cur : bytes) : list bytes :=
  match records with
  | [] => match cur with [] => [] | _ => [cur] end
  | rec :: records' =>
      match cur with
      | [] => shard_records full_gen_bytes records' (cur ++ rec)
      | _ =>
          if full_gen_bytes <? zlen cur + zlen rec
          then cur :: shard_records full_gen_bytes records' rec
          else shard_records full_gen_bytes records' (cur ++ rec)
      end
  end.

(** One generation's BULK frame. *)
Definition bulk_frame (sh : SessionShim) (pct : Z) (gen : nat) (chunk : bytes)
    : outcome ShimError BulkFrame :=
  let sym := Z.to_nat (s_fountain_symbol_size sh) in
  let? n := div_ceil (length chunk) sym in
  let gsize := Nat.max n 1 in
  let cfg := mkConfig gsize sym (f64_div (f64_of_usize pct) (f64_of_usize 100)) 0 in
  let? coded := map_err (λ e, SCoding (BulkError_to_string e)) (encode isa chunk cfg) in
  Ok (mkBulk (s_session_id sh) (wrap 32 (Z.of_nat gen)) (wrap 32 (Z.of_nat gsize))
        (wrap 32 (Z.of_nat sym)) (coded.*2)).

Fixpoint bulk_frames_from (sh : SessionShim) (pct : Z) (gen : nat) (chunks : list bytes)
    : outcome ShimError (list BulkFrame) :=
  match chunks with
  | [] => Ok []
  | chunk :: chunks' =>
      let? f := bulk_frame sh pct gen chunk in
      let? fs := bulk_frames_from sh pct (S gen) chunks' in
      Ok (f :: fs)
  end.

Definition bulk_frames_for (sh : SessionShim) (store : ContentStore) (missing : list BlockId)
    (pct : Z) : outcome ShimError (list BulkFrame) :=
  match missing with
  | [] => Ok []
  | _ =>
      let? records := bulk_records sh store missing in
      let full_gen_bytes := s_fountain_k sh * s_fountain_symbol_size sh in
      bulk_frames_from sh pct 0 (shard_records full_gen_bytes records [])
  end.

Definition bulk_frames (sh : SessionShim) (store : ContentStore) (pct : Z)
    : outcome ShimError (list BulkFrame) :=
  let? missing := slice (s_ids sh) (Z.of_nat (s_base_len sh)) (zlen (s_ids sh)) in
  bulk_frames_for sh store missing pct.

(** ** The registry ([Shim]) *)

Record Registry : Type := mkRegistry {
  g_host : Host;
  g_level : Z;
  g_sessions : gmap Z SessionShim
}.

Definition Shim_new (store : ContentStore) (filter : Filter) (level : Z) : Registry :=
  mkRegistry (mkHost store filter) level ∅.

Definition session_entry (g : Registry) (sid : Z) : SessionShim :=
  default (SessionShim_new sid (g_level g)) (g_sessions g !! sid).

(** [Shim::session]: creates the session and returns a copy of it. *)
Definition session (g : Registry) (sid : Z) : Registry * SessionShim :=
  let s := session_entry g sid in
  (mkRegistry (g_host g) (g_level g) (<[sid := s]> (g_sessions g)), s).

Definition ingest (g : Registry) (sid : Z) (bs : list Block) : Registry * AppendFrame :=
  let '(s, h, f) := ingest_turn (session_entry g sid) (g_host g) bs in
  (mkRegistry h (g_level g) (<[sid := s]> (g_sessions g)), f).

Definition ingest_batch (g : Registry) (sid : Z) (turns : list (list Block)) : Registry * AppendFrame :=
  let '(s, h, f) := ingest_coalesced (session_entry g sid) (g_host g) turns in
  (mkRegistry h (g_level g) (<[sid := s]> (g_sessions g)), f).

Definition Shim_apply_ack (g : Registry) (sid : Z) (root : MerkleRoot) : Registry * bool :=
  match g_sessions g !! sid with
  | Some s =>
      let '(s, r) := apply_ack s root in
      (mkRegistry (g_host g) (g_level g) (<[sid := s]> (g_sessions g)), r)
  | None => (g, false)
  end.
End Shim.
