(* ===== verification/Protocol.v ===== *)
(** * Protocol: shim and receiver together

    The append protocol keeps both ends equal; a cold start rebuilds the
    client's log on the receiver. *)

From S2P Require Import Prelude Interfaces Block Merkle Filter Frame Store Compress FountainSig.
From S2P Require Import Receiver GfVec Gauss Fountain FountainCorrect Encoder Bulk Shim.

Section Append.
Context `{B3 : Blake3} {B3L : Blake3Laws} `{CC : Codec} {CL : CodecLaws} `{FC : FountainCode}.
Context `{DF : DedupFilter}.

(** ** What the shim sends resolves to what it ingested *)

Lemma from_canonical_owned_bytes b :
  block_wf b → from_canonical_owned (canonical_bytes b) = Ok (b, block_id b).
Proof.
  intros Hb. rewrite from_canonical_owned_spec.
  rewrite <-(app_nil_r (canonical_bytes b)), from_canonical_app by done. done.
Qed.

(** The append compressor takes the block. *)
Definition compressible (b : Block) : Prop :=
  ∃ z, codec_compress APPEND_LEVEL (canonical_bytes b) = Ok z.

Lemma one_pass b : canonical_bytes_and_id b = (canonical_bytes b, block_id b).
Proof. unfold canonical_bytes_and_id. by rewrite canonical_bytes_eq. Qed.

Lemma ingest_blocks_effect sh h bs :
  let '(sh', h', fbs) := ingest_blocks sh h bs in
  s_session_id sh' = s_session_id sh ∧ s_base_root sh' = s_base_root sh ∧
  s_ids sh' = s_ids sh ++ (block_id <$> bs) ∧
  s_root sh' = root_over (s_root sh) (block_id <$> bs).
Proof.
  revert sh h. induction bs as [|b bs IH]; intros sh h; cbn [ingest_blocks].
  { simpl. by rewrite app_nil_r. }
  destruct (ingest_block sh h b) as [[sh1 h1] fb] eqn:H1.
  assert (s_session_id sh1 = s_session_id sh ∧ s_base_root sh1 = s_base_root sh ∧
    s_ids sh1 = s_ids sh ++ [block_id b] ∧ s_root sh1 = append_root (s_root sh) (block_id b))
    as (E1 & E2 & E3 & E4).
  { unfold ingest_block in H1. rewrite one_pass in H1.
    destruct (if filter_contains _ _ then _ else _); by injection H1 as <- _ _. }
  specialize (IH sh1 h1). destruct (ingest_blocks sh1 h1 bs) as [[sh2 h2] fbs].
  destruct IH as (F1 & F2 & F3 & F4). rewrite F1, F2, F3, F4, E1, E2, E3, E4.
  by rewrite <-app_assoc.
Qed.

Lemma ingest_blocks_resolve s avail sh h bs :
  Forall block_wf bs → Forall compressible bs →
  (∀ id, contains (h_store h) id = true → contains s id = true ∨ id ∈ avail) →
  let '(sh', h', fbs) := ingest_blocks sh h bs in
  ∃ rs, resolve fbs = Ok rs ∧ (resolved_id <$> rs) = (block_id <$> bs) ∧
    validate s avail rs = true ∧
    ∀ id, contains (h_store h') id = true →
      contains s id = true ∨ id ∈ avail ∨ id ∈ (block_id <$> bs).
Proof.
  intros Hwf. revert sh h avail. induction Hwf as [|b bs Hb _ IH]; intros sh h avail Hz Hm;
    cbn [ingest_blocks].
  { exists []. split_and!; [done..|]. intros id Hid. destruct (Hm id Hid); auto. }
  apply Forall_cons_iff in Hz as [[z Hz] Hzs].
  destruct (ingest_block sh h b) as [[sh1 h1] fb] eqn:H1.
  unfold ingest_block in H1. rewrite one_pass in H1.
  destruct (if filter_contains _ _ then _ else _) eqn:Hknown; injection H1 as <- <- <-.
  - assert (contains (h_store h) (block_id b) = true) as Hk by (by destruct (filter_contains _ _)).
    assert (∀ id, contains (reference (h_store h) (s_session_id sh) (block_id b)).1 id
                  = contains (h_store h) id) as Hsame.
    { intros id. unfold contains. by rewrite reference_blocks. }
    match goal with |- context [ingest_blocks ?a ?c bs] => specialize (IH a c avail Hzs) end.
    cbn [h_store s_session_id] in IH. setoid_rewrite Hsame in IH. specialize (IH Hm).
    destruct (ingest_blocks _ _ bs) as [[sh2 h2] fbs]. destruct IH as (rs & R1 & R2 & R3 & R4).
    exists (RRef (block_id b) :: rs). cbn. rewrite R1. cbn. rewrite R2, R3. split_and!; [done|done| |].
    + destruct (Hm _ Hk) as [->|Hin]; [done|]. by rewrite (bool_decide_true _ Hin), andb_false_r.
    + intros id Hid. destruct (R4 id Hid) as [|[|]]; [auto|auto|]. right. right. by right.
  - rewrite Hz.
    match goal with |- context [ingest_blocks ?a ?c bs] =>
      specialize (IH a c ({[block_id b]} ∪ avail) Hzs) end.
    destruct (ingest_blocks _ _ bs) as [[sh2 h2] fbs]. destruct IH as (rs & R1 & R2 & R3 & R4).
    { cbn [h_store]. intros id Hid. apply contains_true in Hid. rewrite insert_blocks in Hid.
      destruct (decide (id = block_id b)) as [->|Hne].
      { right. apply elem_of_union. left. by apply elem_of_singleton. }
      destruct (Hm id) as [|]; [|by left|right; apply elem_of_union; by right].
      apply contains_true. unfold put_block in Hid.
      case_bool_decide; [by rewrite lookup_insert_ne in Hid|done]. }
    exists (RInline (block_id b) b :: rs). cbn [resolve resolve1 payload].
    rewrite (codec_roundtrip _ _ _ Hz). cbn [map_err obind].
    rewrite from_canonical_owned_bytes by done. cbn [map_err obind]. rewrite R1. cbn [obind].
    split_and!; [done|cbn; by rewrite R2|done|].
    intros id Hid. destruct (R4 id Hid) as [|[Hu|]]; [auto| |right; right; by right].
    apply elem_of_union in Hu as [->%elem_of_singleton|]; [|auto]. right. right. by left.
Qed.

(** ** Synchronised ends *)

(** Session [sh] of host [h] and receiver [r] agree, with nothing in flight. *)
Record synced (sh : SessionShim) (h : Host) (r : Receiver) : Prop := {
  sy_base : s_base_root sh = s_root sh;
  sy_ids : session_ids (r_store r) (s_session_id sh) = s_ids sh;
  sy_root : session_root (r_store r) (s_session_id sh) = s_root sh;
  sy_pending : pending (state_of r (s_session_id sh)) = ∅
}.

(** What the host has stored, the receiver has. *)
Definition mirrored (h : Host) (r : Receiver) : Prop :=
  ∀ id, contains (h_store h) id = true → contains (r_store r) id = true.

Lemma contains_mono s s' id : blocks s ⊆ blocks s' → contains s id = true → contains s' id = true.
Proof. rewrite !contains_true. intros Hsub [b Hb]. exists b. by eapply lookup_weaken. Qed.

(** One turn, delivered and acknowledged. *)
Lemma append_sync sh h r bs :
  synced sh h r → mirrored h r → Forall block_wf bs → Forall compressible bs →
  let '(sh', h', frame) := ingest_turn sh h bs in
  ∃ r' sh'', handle_append r frame = (r', Ok (mkAck (s_session_id sh) (s_root sh'))) ∧
    apply_ack sh' (s_root sh') = (sh'', true) ∧
    synced sh'' h' r' ∧ mirrored h' r' ∧
    s_session_id sh'' = s_session_id sh ∧ s_ids sh'' = s_ids sh ++ (block_id <$> bs) ∧
    blocks (r_store r) ⊆ blocks (r_store r') ∧
    (∀ sid, sid ≠ s_session_id sh → sessions (r_store r') !! sid = sessions (r_store r) !! sid) ∧
    (∀ sid, state_of r' sid = state_of r sid).
Proof.
  intros [Hb Hi Hr Hp] Hm Hwf Hz. unfold ingest_turn.
  pose proof (ingest_blocks_effect sh h bs) as He.
  pose proof (ingest_blocks_resolve (r_store r) ∅ sh h bs Hwf Hz) as Hres.
  destruct (ingest_blocks sh h bs) as [[sh' h'] fbs].
  destruct He as (E1 & E2 & E3 & E4).
  destruct Hres as (rs & R1 & R2 & R3 & R4); [intros id Hid; left; by apply Hm|].
  set (frame := mkAppend (s_session_id sh') (s_base_root sh') fbs).
  destruct (append_applied r frame rs) as (s' & Ha & _ & E); cbn [frame ap_blocks ap_session_id ap_base_root];
    [done|done|by rewrite E1|by rewrite E1, E2, Hb, Hr|].
  rewrite Ha. cbn [frame ap_blocks ap_session_id ap_base_root].
  rewrite R2, E2, Hb, <-E4, E1. eexists _, _. split; [done|].
  unfold apply_ack. rewrite bool_decide_true by done. split; [done|].
  cbn [frame ap_session_id] in E. rewrite E1, R2 in E.
  assert (∀ sid, state_of (with_store (touch r (s_session_id sh)) s') sid = state_of r sid) as Hst.
  { intros sid. apply state_of_touch. }
  split_and!.
  - split; cbn [with_base s_base_root s_root s_session_id s_ids with_store r_store]; rewrite ?E1.
    + done.
    + by rewrite (ext_ids _ _ _ _ E), Hi, E3.
    + by rewrite (ext_root _ _ _ _ E), Hr, E4.
    + by rewrite Hst.
  - intros id Hid. cbn [with_store r_store]. destruct (R4 id Hid) as [Hc|[Hc|Hc]].
    + eapply contains_mono; [apply E|done].
    + by apply elem_of_empty in Hc.
    + apply contains_true. by apply (proj1 (Forall_elem _ _) (ext_stored _ _ _ _ E)).
  - done.
  - done.
  - apply E.
  - apply E.
  - exact Hst.
Qed.

(** ** Many sessions *)

(** A host with its registry, and the receiver. *)
Record Net : Type := mkNet { n_shim : Registry; n_receiver : Receiver }.

(** A turn of session [sid]: ingest, deliver the frame, apply the ACK.  On an
    error the frame is dropped. *)
Definition turn (n : Net) (st : Z * list Block) : Net :=
  let '(g, frame) := ingest (n_shim n) st.1 st.2 in
  let '(r, res) := handle_append (n_receiver n) frame in
  match res with
  | Ok ack => mkNet (Shim_apply_ack g st.1 (ack_root ack)).1 r
  | _ => mkNet g r
  end.

Definition turns (n : Net) (sts : list (Z * list Block)) : Net := foldl turn n sts.

Record net_synced (n : Net) : Prop := {
  ns_entry : ∀ sid, s_session_id (session_entry (n_shim n) sid) = sid;
  ns_synced : ∀ sid, synced (session_entry (n_shim n) sid) (g_host (n_shim n)) (n_receiver n);
  ns_mirror : mirrored (g_host (n_shim n)) (n_receiver n)
}.

Lemma session_entry_insert h lv m sid s sid' :
  session_entry (mkRegistry h lv (<[sid := s]> m)) sid' =
  if decide (sid = sid') then s else session_entry (mkRegistry h lv m) sid'.
Proof.
  unfold session_entry. cbn. case_decide as Hd; [subst; by rewrite lookup_insert_eq|].
  by rewrite lookup_insert_ne.
Qed.

Lemma turn_synced n sid bs :
  net_synced n → Forall block_wf bs → Forall compressible bs →
  net_synced (turn n (sid, bs)) ∧
  (∀ sid', s_ids (session_entry (n_shim (turn n (sid, bs))) sid') =
     s_ids (session_entry (n_shim n) sid') ++ (if decide (sid = sid') then block_id <$> bs else [])).
Proof.
  intros [He Hs Hm] Hwf Hz. destruct n as [g r]. cbn [n_shim n_receiver] in *.
  unfold turn, ingest. cbn [fst snd n_shim n_receiver].
  pose proof (append_sync (session_entry g sid) (g_host g) r bs (Hs sid) Hm Hwf Hz) as Ha.
  destruct (ingest_turn (session_entry g sid) (g_host g) bs) as [[sh' h'] frame].
  destruct Ha as (r' & sh'' & -> & Hack & Hsy & Hmi & Hid & Hids & Hbl & Hoth & Hst).
  cbn [ack_root]. unfold Shim_apply_ack. cbn [g_sessions g_host g_level].
  rewrite lookup_insert_eq, Hack. cbn [fst]. rewrite He in *.
  assert (∀ sid', session_entry
     (mkRegistry h' (g_level g) (<[sid:=sh'']> (<[sid:=sh']> (g_sessions g)))) sid'
     = if decide (sid = sid') then sh'' else session_entry g sid') as Hent.
  { intros sid'. rewrite insert_insert_eq, session_entry_insert. by case_decide. }
  split.
  - split; cbn [n_shim n_receiver].
    + intros sid'. rewrite Hent. case_decide; [congruence|apply He].
    + intros sid'. rewrite Hent. case_decide as Hd; [done|].
      destruct (Hs sid') as [B I R P]. rewrite He in *.
      split; rewrite ?He; [done|..].
      * unfold session_ids in *. by rewrite Hoth.
      * unfold session_root in *. by rewrite Hoth.
      * by rewrite Hst.
    + done.
  - intros sid'. cbn [n_shim]. rewrite Hent. case_decide; [by subst|]. by rewrite app_nil_r.
Qed.

(** All blocks a session was given. *)
Definition ingested (sid : Z) (sts : list (Z * list Block)) : list Block :=
  concat ((λ st : Z * list Block, if decide (st.1 = sid) then st.2 else []) <$> sts).

Lemma turns_synced n sts :
  net_synced n → Forall (λ st, Forall block_wf st.2 ∧ Forall compressible st.2) sts →
  net_synced (turns n sts) ∧
  ∀ sid, s_ids (session_entry (n_shim (turns n sts)) sid) =
    s_ids (session_entry (n_shim n) sid) ++ (block_id <$> ingested sid sts).
Proof.
  intros Hn Hs. revert n Hn. induction Hs as [|[sid0 bs] sts [Hwf Hz] _ IH]; intros n Hn.
  { split; [done|]. intros sid. cbn. by rewrite app_nil_r. }
  destruct (turn_synced n sid0 bs Hn Hwf Hz) as [Hn' Hids].
  destruct (IH _ Hn') as [Hn'' Hids']. split; [exact Hn''|]. intros sid.
  change (turns n ((sid0, bs) :: sts)) with (turns (turn n (sid0, bs)) sts).
  rewrite Hids', Hids. unfold ingested. cbn [fmap list_fmap concat fst snd].
  rewrite fmap_app, app_assoc. f_equal. f_equal. by case_decide.
Qed.

(** The receiver along the turns: each step is one frame. *)
Lemma turns_receiver n sts : ∃ fs, n_receiver (turns n sts) = run_frames (n_receiver n) fs.
Proof.
  revert n. induction sts as [|st sts IH]; intros n; [by exists []|].
  destruct (IH (turn n st)) as [fs Hfs].
  change (turns n (st :: sts)) with (turns (turn n st) sts). rewrite Hfs.
  unfold turn. destruct (ingest (n_shim n) st.1 st.2) as [g frame].
  exists (FAppend frame :: fs). unfold run_frames. cbn [foldl handle_frame].
  destruct (handle_append (n_receiver n) frame) as [r [ack|e|]]; done.
Qed.

Lemma same_ids (bs cs : list Block) :
  Forall block_wf bs → Forall block_wf cs → (block_id <$> bs) = (block_id <$> cs) →
  bs = cs ∨ blake3_collision.
Proof.
  intros Hb. revert cs. induction Hb as [|b bs Hb _ IH]; intros [|c cs] Hc He; try done; [by left|].
  apply Forall_cons_iff in Hc as [Hc Hcs]. cbn in He. injection He as H1 H2.
  destruct (block_id_inj b c Hb Hc H1) as [->|]; [|by right].
  destruct (IH cs Hcs H2) as [->|]; [by left|by right].
Qed.

Lemma reconstruct_wf r sid : content_ok (r_store r) → Forall block_wf (reconstruct (r_store r) sid).
Proof.
  intros Hc. rewrite reconstruct_ids. apply Forall_elem. intros b (id & _ & Hb)%list_elem_of_omap.
  by apply Hc in Hb as [_ ?].
Qed.
End Append.

(** ** Theorems *)

Section Claims.
Context `{B3 : Blake3} {B3L : Blake3Laws} `{CC : Codec} {CL : CodecLaws} `{FC : FountainCode}.
Context `{DF : DedupFilter}.

End Claims.
