(* ===== verification/ColdStart.v ===== *)
(** * ColdStart: shim, bulk coding and receiver together

    A client that knows its whole log sends RESYNC; the receiver answers with
    the ids it lacks; the shim packs those blocks into fountain generations;
    the receiver decodes them.  This file proves that the receiver ends with
    the client's log, in whatever order the generations arrive. *)

From S2P Require Import Prelude Interfaces F64 Block Merkle Filter Frame Store Compress FountainSig.
From S2P Require Import Receiver GfVec Gauss Fountain FountainCorrect Encoder Bulk Shim Protocol.

(** ** The record stream *)

Section Records.
Context `{B3 : Blake3} {B3L : Blake3Laws} `{CC : Codec} {CL : CodecLaws}.

Definition record (z : bytes) : bytes := to_le 4 (wrap 32 (zlen z)) ++ z.

(** [z] is the compressed canonical form of the block and id [bi]. *)
Definition packs (z : bytes) (bi : Block * BlockId) : Prop :=
  1 ≤ zlen z < 2 ^ 32 ∧
  ∃ canon, codec_decompress z = Ok canon ∧ from_canonical_owned canon = Ok bi.

Lemma length_record z : length (record z) = (4 + length z)%nat.
Proof. unfold record. by rewrite length_app, length_to_le. Qed.

Lemma parse_padding fuel (pre : bytes) nz :
  parse_records fuel (pre ++ replicate nz Byte.x00) (zlen pre) = Ok [].
Proof.
  destruct fuel as [|fuel]; [done|]. cbn [parse_records]. zcase; [|done].
  rewrite slice_ok by zl. cbn [obind].
  match goal with |- context [from_le ?x] => assert (from_le x = 0) as -> end; [|done].
  unfold zdrop, ztake, zlen. rewrite Nat2Z.id, drop_app_length.
  replace (Z.of_nat (length pre) + 4 - Z.of_nat (length pre)) with 4 by lia.
  rewrite take_replicate. change (Z.to_nat 4) with 4%nat.
  by destruct nz as [|[|[|[|nz]]]].
Qed.

(** The receiver's two passes over a padded run of records. *)
Lemma records_recovered zs bis :
  Forall2 packs zs bis →
  ∀ fuel pre nz, (length zs ≤ fuel)%nat →
  ∃ offs, parse_records fuel (pre ++ concat (record <$> zs) ++ replicate nz Byte.x00) (zlen pre)
            = Ok offs ∧
    recover_records (pre ++ concat (record <$> zs) ++ replicate nz Byte.x00) offs = Ok bis.
Proof.
  induction 1 as [|z bi zs bis [Hz (canon & Hd & Hp)] _ IH]; intros fuel pre nz Hf.
  { exists []. split; [apply parse_padding|done]. }
  destruct fuel as [|fuel]; [simpl in Hf; lia|]. cbn [fmap list_fmap concat].
  destruct (IH fuel (pre ++ record z) nz ltac:(simpl in Hf; lia)) as (offs & IH1 & IH2).
  set (flat := pre ++ (record z ++ concat (record <$> zs)) ++ replicate nz Byte.x00).
  assert ((pre ++ record z) ++ concat (record <$> zs) ++ replicate nz Byte.x00 = flat) as Hflat.
  { unfold flat. by rewrite <-!app_assoc. }
  rewrite Hflat in IH1, IH2.
  assert (zlen flat = zlen pre + 4 + zlen z + zlen (concat (record <$> zs)) + Z.of_nat nz) as Hlen.
  { unfold flat, record, zlen. rewrite !length_app, length_replicate, length_to_le. lia. }
  pose proof (Zle_0_nat (length (concat (record <$> zs)))) as Hpos. fold (zlen (concat (record <$> zs))) in Hpos.
  exists ((zlen pre + 4, zlen z) :: offs).
  assert (slice (E:=ReceiverError) flat (zlen pre) (zlen pre + 4) = Ok (to_le 4 (wrap 32 (zlen z)))) as Hs1.
  { rewrite slice_ok by zl. f_equal. unfold flat, record, ztake, zdrop, zlen.
    rewrite Nat2Z.id, drop_app_length, <-!app_assoc.
    apply take_app_length'. rewrite length_to_le. lia. }
  assert (slice (E:=ReceiverError) flat (zlen pre + 4) (zlen pre + 4 + zlen z) = Ok z) as Hs2.
  { rewrite slice_ok by zl. f_equal. unfold flat, record, ztake, zdrop.
    rewrite <-!app_assoc, app_assoc. rewrite drop_app_length'.
    - apply take_app_length'. unfold zlen. lia.
    - unfold zlen. rewrite length_app, length_to_le. lia. }
  split.
  - cbn [parse_records]. rewrite (proj2 (Z.leb_le _ _)) by lia. rewrite Hs1. cbn [obind].
    unfold wrap. rewrite Z.mod_small by lia. rewrite from_to_le by lia.
    rewrite (proj2 (Z.eqb_neq _ _)) by lia. rewrite (proj2 (Z.ltb_ge _ _)) by lia.
    replace (zlen pre + 4 + zlen z) with (zlen (pre ++ record z));
      [by rewrite IH1|unfold zlen; rewrite length_app, length_record; lia].
  - cbn [recover_records]. rewrite Hs2. cbn [obind]. rewrite Hd. cbn [map_err obind].
    rewrite Hp. cbn [map_err obind]. by rewrite IH2.
Qed.
End Records.

(** ** Packing records into generations *)

(** Every generation is a non-empty run of whole records; together they are
    all the records, in order; none exceeds [limit]. *)
Lemma shard_records_spec full limit recs g0 :
  full ≤ limit → Forall (λ r : bytes, r ≠ [] ∧ zlen r ≤ limit) recs →
  Forall (λ r : bytes, r ≠ []) g0 → zlen (concat g0) ≤ limit →
  ∃ groups : list (list bytes), shard_records full recs (concat g0) = (@concat byte) <$> groups ∧
    concat groups = g0 ++ recs ∧
    Forall (λ g, concat g ≠ [] ∧ zlen (concat g) ≤ limit) groups.
Proof.
  intros Hfl Hr. revert g0. induction Hr as [|rec recs [Hne Hl] _ IH]; intros g0 Hg Hc; cbn [shard_records].
  - rewrite app_nil_r. destruct (concat g0) as [|b bs] eqn:E.
    + exists []. destruct g0 as [|[|] g0]; [done| |done]. by inversion Hg.
    + exists [g0]. cbn. rewrite E, app_nil_r. split_and!; [done..|]. constructor; [|done].
      rewrite E. done.
  - assert (∀ g, Forall (λ r : bytes, r ≠ []) g → Forall (λ r : bytes, r ≠ []) (g ++ [rec])) as Happ.
    { intros g H. apply Forall_app. split; [done|by constructor]. }
    destruct (concat g0) as [|b bs] eqn:E.
    + assert (g0 = []) as ->.
      { destruct g0 as [|[|] g0]; [done| |done]. by inversion Hg. }
      destruct (IH [rec]) as (groups & H1 & H2 & H3); [by apply (Happ [])|cbn; by rewrite app_nil_r|].
      cbn [concat] in H1. rewrite app_nil_r in H1. exists groups. by rewrite app_nil_l, H1.
    + rewrite <-E in *. zcase.
      * destruct (IH [rec]) as (groups & H1 & H2 & H3); [by apply (Happ [])|cbn; by rewrite app_nil_r|].
        cbn [concat] in H1. rewrite app_nil_r in H1.
        exists (g0 :: groups). cbn. rewrite H1, H2. split_and!; [done..|].
        constructor; [|done]. split; [by rewrite E|done].
      * destruct (IH (g0 ++ [rec])) as (groups & H1 & H2 & H3); [by apply Happ| |].
        { rewrite concat_app. cbn. rewrite app_nil_r. unfold zlen in *. rewrite length_app. lia. }
        rewrite concat_app in H1. cbn in H1. rewrite app_nil_r in H1.
        exists groups. rewrite H1, H2, <-app_assoc. done.
Qed.

(** ** One generation *)

Section Generation.
Context `{B3 : Blake3} {B3L : Blake3Laws} `{CC : Codec} {CL : CodecLaws} `{DF : DedupFilter}
  `{LM : Libm}.
Variables isa isa' : Isa.
#[local] Instance receiver_code : FountainCode := fountain_code isa'.

(** Block [b] compresses at [level] to a record of at most [limit] bytes. *)
Definition fits_record (level limit : Z) (b : Block) : Prop :=
  ∃ z, codec_compress level (canonical_bytes b) = Ok z ∧ 4 + zlen z ≤ limit.

Lemma bulk_records_spec sh store limit missing :
  content_ok store → limit < 2 ^ 32 →
  Forall (λ id, ∃ b, blocks store !! id = Some b ∧ fits_record (s_level sh) limit b) missing →
  ∃ zs bis, bulk_records sh store missing = Ok (record <$> zs) ∧ Forall2 packs zs bis ∧
    bis.*2 = missing ∧ Forall (λ bi, blocks store !! bi.2 = Some bi.1) bis ∧
    Forall (λ z, 4 + zlen z ≤ limit) zs.
Proof.
  intros Hc Hlim. induction 1 as [|id missing (b & Hb & z & Hz & Hl) _ IH]; cbn [bulk_records].
  { by exists [], []. }
  destruct IH as (zs & bis & IH1 & IH2 & IH3 & IH4 & IH5).
  destruct (Hc _ _ Hb) as [Hid Hwf]. unfold get. rewrite Hb, Hz, IH1. cbn [map_err obind].
  pose proof (codec_bound _ _ _ Hz) as Hbd.
  exists (z :: zs), ((b, id) :: bis). split_and!; [done| |cbn; by rewrite IH3|by constructor|by constructor].
  constructor; [|done]. split; [lia|]. exists (canonical_bytes b).
  rewrite (codec_roundtrip _ _ _ Hz). split; [done|]. subst id. by apply from_canonical_owned_bytes.
Qed.

(** A frame that brings exactly the blocks [bis], with their ids, to a receiver
    of session [sid] with no half-filled decoder. *)
Definition delivers (sid : Z) (f : BulkFrame) (bis : list (Block * BlockId)) : Prop :=
  bk_session_id f = sid ∧
  ∀ r : Receiver, decoders (state_of r sid) = ∅ →
    let r' := (handle_bulk r f).1 in
    (handle_bulk r f).2 = Ok (if bool_decide (pending (state_of r' sid) = ∅) && negb (acked (state_of r sid))
                              then Some (session_root (r_store r) sid) else None) ∧
    decoders (state_of r' sid) = ∅ ∧
    (∀ id, id ∈ pending (state_of r' sid) ↔ id ∈ pending (state_of r sid) ∧ id ∉ bis.*2) ∧
    acked (state_of r' sid) = bool_decide (pending (state_of r' sid) = ∅) || acked (state_of r sid) ∧
    r_store r' = store_recovered (r_store r) sid bis.

(** The receiver's work on a frame whose decoder recovers [syms]. *)
Lemma bulk_decoded f syms zs bis nz :
  receive isa' (bk_k f) (bk_symbol_size f) (bk_symbols f) = Ok syms →
  concat syms = concat (record <$> zs) ++ replicate nz Byte.x00 → Forall2 packs zs bis →
  delivers (bk_session_id f) f bis.
Proof.
  intros Hrec Hflat Hz. split; [done|]. intros r Hdec. unfold handle_bulk.
  rewrite Hdec, lookup_empty. cbn [default]. unfold receive in Hrec.
  change (decoder_new (bk_k f) (bk_symbol_size f))
    with (Decoder_new (bk_k f) (bk_symbol_size f) : FountainDecoder (FountainCode := receiver_code)).
  change (fountain_code isa') with receiver_code in Hrec.
  destruct (decoder_add_all (FC := receiver_code) _ (bk_symbols f)) as [d [u|e|]]; [|done..].
  change (decoder_decode d) with (decode isa' d).
  destruct (decode isa' d) as [d' res]. cbn [snd] in Hrec. subst res. cbn [fst].
  assert (length zs ≤ length (concat syms))%nat as Hfuel.
  { rewrite Hflat, length_app, <-(length_fmap record).
    assert (∀ l : list bytes, length (record <$> l) ≤ length (concat (record <$> l)))%nat as H.
    { induction l as [|x l IH]; [done|]. cbn. rewrite length_app, length_record. lia. }
    specialize (H zs). lia. }
  destruct (records_recovered zs bis Hz (length (concat syms)) [] nz Hfuel) as (offs & Hp & Hr).
  cbn [app] in Hp, Hr. change (zlen []) with 0 in Hp. rewrite <-Hflat in Hp, Hr.
  rewrite Hp. cbn [obind]. rewrite Hr. cbn [fst snd]. rewrite state_of_put, decide_True by done.
  cbn [decoders pending acked]. rewrite store_recovered_root. split_and!; [done|..].
  - apply delete_id, lookup_empty.
  - intros id. apply elem_of_retired.
  - by destruct (bool_decide _), (acked _).
  - done.
Qed.

(** The share of repair symbols a percentage asks for. *)
Definition repair_count (k sym : nat) (pct : Z) : nat :=
  repair_symbols (mkConfig k sym (f64_div (f64_of_usize pct) (f64_of_usize 100)) 0).

(** What the encoder puts into a frame of at most [kmax] source symbols. *)
Record coded_shape (sh : SessionShim) (pct kmax : Z) (f : BulkFrame) : Prop := {
  cs_generation : u32 (bk_generation f);
  cs_k : 1 ≤ bk_k f ≤ kmax;
  cs_sym : bk_symbol_size f = s_fountain_symbol_size sh;
  cs_count : length (bk_symbols f) = (Z.to_nat (bk_k f)
    + repair_count (Z.to_nat (bk_k f)) (Z.to_nat (s_fountain_symbol_size sh)) pct)%nat;
  cs_symbols : Forall (λ w, zlen w ≤ 2 + 3 * 2 ^ 16 + s_fountain_symbol_size sh) (bk_symbols f)
}.

(** A frame of the shape above that delivers blocks of [store]. *)
Definition ships (sh : SessionShim) (store : ContentStore) (pct kmax : Z) (f : BulkFrame)
    (bis : list (Block * BlockId)) : Prop :=
  delivers (s_session_id sh) f bis ∧ coded_shape sh pct kmax f ∧
  Forall (λ bi, blocks store !! bi.2 = Some bi.1) bis.

(** The repair margin stays within the frame's symbol count. *)
Definition margin_fits (pct kmax : Z) : Prop :=
  ∀ k, 1 ≤ k ≤ kmax → (repair_count (Z.to_nat k) 0 pct ≤ 2 ^ 23)%nat.

Lemma margin_checked pct n :
  forallb (λ k, Z.of_nat (repair_count k 0 pct) <=? 2 ^ 23) (List.seq 1 n) = true → margin_fits pct (Z.of_nat n).
Proof.
  intros H k Hk. pose proof (proj1 (forallb_forall _ _) H (Z.to_nat k)) as Hc.
  apply Z.leb_le in Hc; [|apply in_seq; lia].
  assert (Z.of_nat (2 ^ 23) = 2 ^ 23) by (rewrite Nat2Z.inj_pow; done). lia.
Qed.

Lemma coded_frame_wf sh pct kmax f :
  u128 (bk_session_id f) → 0 < s_fountain_symbol_size sh ≤ 2 ^ 16 → kmax ≤ 65535 →
  margin_fits pct kmax → coded_shape sh pct kmax f → frame_wf (FBulk f).
Proof.
  intros Hid Hsz Hk Hm [Hg Hkf Hsym Hc Hw]. cbn [frame_wf].
  assert (MAX_FRAME_COUNT = 2 ^ 24 ∧ MAX_INLINE_PAYLOAD_BYTES = 2 ^ 30) as [HF HI] by done.
  split_and!; [done|done|unfold u32; lia|unfold u32; lia| |].
  - specialize (Hm (bk_k f) Hkf).
    change (repair_count (Z.to_nat (bk_k f)) (Z.to_nat (s_fountain_symbol_size sh)) pct)
      with (repair_count (Z.to_nat (bk_k f)) 0 pct) in Hc.
    assert (Z.of_nat (2 ^ 23) = 2 ^ 23) by (rewrite Nat2Z.inj_pow; done). unfold zlen. lia.
  - eapply Forall_impl; [|exact Hw]. intros w Hw'. unfold symbol_wf. cbn in Hw'. lia.
Qed.

Lemma coded_symbol_size srcs (n : nat) w :
  srcs ≠ [] → Forall (λ x : bytes, length x = n) srcs → coded_symbol srcs w →
  zlen w ≤ 2 + 3 * 2 ^ 16 + Z.of_nat n.
Proof.
  intros Hne Hn (es & p & -> & _ & Hes & _ & _ & Hp). destruct srcs as [|x srcs]; [done|].
  apply Forall_cons_iff in Hn as [Hx _]. apply Forall_cons_iff in Hp as [Hp _].
  assert (length (concat (entry_bytes <$> es)) = (3 * length es)%nat) as He.
  { clear. induction es as [|e es IH]; [done|]. cbn [fmap list_fmap concat]. rewrite length_app.
    change (list_fmap _ _ entry_bytes es) with (entry_bytes <$> es). rewrite IH.
    unfold entry_bytes. destruct e. cbn. rewrite ?length_app, ?length_to_le. simpl. lia. }
  unfold wire_of, zlen in *. rewrite !length_app, length_to_le, He. lia.
Qed.

Lemma bulk_frame_delivers sh store pct kmax gen zs bis :
  0 < s_fountain_symbol_size sh ≤ 2 ^ 16 → kmax ≤ 65535 →
  Forall2 packs zs bis → Forall (λ bi, blocks store !! bi.2 = Some bi.1) bis → concat (record <$> zs) ≠ [] →
  zlen (concat (record <$> zs)) ≤ kmax * s_fountain_symbol_size sh →
  ∃ f, bulk_frame isa sh pct gen (concat (record <$> zs)) = Ok f ∧ ships sh store pct kmax f bis.
Proof.
  intros Hsym Hkm Hz Hbl Hne Hlim. set (chunk := concat (record <$> zs)) in *. unfold bulk_frame.
  set (sym := Z.to_nat (s_fountain_symbol_size sh)).
  assert (0 < sym)%nat as Hs0 by (unfold sym; lia).
  destruct (div_ceil (E:=ShimError) (length chunk) sym) as [n|?|] eqn:Hn;
    [|unfold div_ceil in Hn; by destruct (_ =? _)%nat
     |unfold div_ceil in Hn; by destruct (Nat.eqb_spec sym 0); [lia|]].
  apply div_ceil_bounds in Hn as [Hn1 Hn2]; [|done]. cbn [obind].
  assert (0 < length chunk)%nat as Hcl by (destruct chunk; [done|simpl; lia]).
  assert (Z.of_nat sym = s_fountain_symbol_size sh) as Hsz by (unfold sym; lia).
  assert (1 ≤ Z.of_nat n ≤ kmax) as Hn.
  { specialize (Hn2 Hcl). unfold zlen in Hlim. rewrite <-Hsz in Hlim. split; [nia|].
    apply Z.lt_succ_r. apply (Zmult_lt_reg_r _ _ (Z.of_nat sym)); nia. }
  rewrite Nat.max_l by lia. set (cfg := mkConfig n sym _ 0).
  assert (Z.of_nat (n * sym) < 2 ^ 63) as Hsz63 by (rewrite Nat2Z.inj_mul, Hsz; nia).
  destruct (encode_one isa chunk cfg) as (srcs & ws & -> & Hwl & Hsl & Hsf & Hsc & Hcoded & Hsys);
    cbn [cfg gen_size symbol_size]; [done|done|lia|lia|lia|done|].
  cbn [cfg map_err obind gen_size symbol_size] in *.
  assert (((λ w : bytes, (0, w)) <$> ws).*2 = ws) as ->.
  { clear. induction ws as [|w ws IH]; [done|]. cbn. f_equal. exact IH. }
  eexists. split; [done|].
  match goal with |- ships _ _ _ _ ?f _ => set (fr := f) end.
  assert (wrap 32 (Z.of_nat n) = Z.of_nat n) as Hwn by (apply Z.mod_small; lia).
  split; [|split; [|done]].
  2:{ split; cbn [fr bk_generation bk_k bk_symbol_size bk_symbols].
    - apply Z.mod_pos_bound. lia.
    - lia.
    - unfold wrap. rewrite Z.mod_small; lia.
    - rewrite Hwn, Nat2Z.id. exact Hwl.
    - eapply Forall_impl; [|exact Hcoded]. intros w Hw. rewrite <-Hsz.
      apply (coded_symbol_size srcs); [|done|done]. intros ->. simpl in Hsl. lia. }
  change (s_session_id sh) with (bk_session_id fr).
  apply (bulk_decoded fr srcs zs bis (n * sym - length chunk)%nat); [|done|done].
  cbn [fr bk_k bk_symbol_size bk_symbols]. unfold wrap.
  rewrite !Z.mod_small by (unfold sym; lia).
  assert (Forall (λ x : bytes, zlen x = Z.of_nat sym) srcs) as Hsf'.
  { eapply Forall_impl; [|exact Hsf]. intros x Hx. unfold zlen. simpl in Hx. by rewrite Hx. }
  replace (Z.of_nat n) with (zlen srcs) by (unfold zlen; by rewrite Hsl).
  destruct (receive_coded isa' srcs (Z.of_nat sym) ws) as [_ H]; [lia|unfold zlen; lia|done|done|].
  by apply H.
Qed.

(** All generations of a batch. *)
Lemma bulk_frames_deliver sh store pct kmax groups gen zs bis :
  0 < s_fountain_symbol_size sh ≤ 2 ^ 16 → kmax ≤ 65535 →
  concat groups = (record <$> zs) → Forall2 packs zs bis →
  Forall (λ bi, blocks store !! bi.2 = Some bi.1) bis →
  Forall (λ g : list bytes, concat g ≠ [] ∧ zlen (concat g) ≤ kmax * s_fountain_symbol_size sh) groups →
  ∃ fs biss, bulk_frames_from isa sh pct gen ((@concat byte) <$> groups) = Ok fs ∧
    Forall2 (ships sh store pct kmax) fs biss ∧ concat biss = bis.
Proof.
  intros Hsym Hlim Hcat Hz Hbl Hg. revert gen zs bis Hcat Hz Hbl.
  induction Hg as [|g groups [Hne Hl] _ IH]; intros gen zs bis Hcat Hz Hbl; cbn [fmap list_fmap bulk_frames_from].
  { cbn in Hcat. symmetry in Hcat. apply fmap_nil_inv in Hcat as ->. inversion Hz; subst.
    by exists [], []. }
  cbn [concat] in Hcat. symmetry in Hcat.
  apply fmap_app_inv in Hcat as (zs1 & zs2 & -> & Hgs & ->).
  apply Forall2_app_inv_l in Hz as (bis1 & bis2 & Hz1 & Hz2 & ->).
  apply Forall_app in Hbl as [Hb1 Hb2].
  destruct (bulk_frame_delivers sh store pct kmax gen zs1 bis1) as (f & -> & Hf); [done..|].
  destruct (IH (S gen) zs2 bis2 Hgs Hz2 Hb2) as (fs & biss & IH1 & IH2 & IH3). cbn [obind].
  rewrite IH1. cbn [obind].
  exists (f :: fs), (bis1 :: biss). split_and!; [done|by constructor|].
  cbn. by rewrite IH3.
Qed.
(** ** Delivery in any order *)

(** The receiver after a run of frames, each of which delivers its blocks. *)
Lemma run_delivers sid (ds : list BulkFrame) (r : Receiver) :
  Forall (λ f, ∃ bis, delivers sid f bis) ds → decoders (state_of r sid) = ∅ →
  (pending (state_of r sid) = ∅ → acked (state_of r sid) = true) →
  let r' := run_frames r (FBulk <$> ds) in
  (∀ id, id ∈ pending (state_of r' sid) →
     id ∈ pending (state_of r sid) ∧ ∀ f bis, f ∈ ds → delivers sid f bis → id ∉ bis.*2) ∧
  (pending (state_of r' sid) = ∅ → acked (state_of r' sid) = true) ∧
  sessions (r_store r') = sessions (r_store r).
Proof.
  intros H. revert r. induction H as [|f ds [ids0 H0] _ IH]; intros r Hd Ha; cbn zeta.
  { split_and!; [|done|done]. intros id Hid. split; [done|]. intros f ids Hin. by apply not_elem_of_nil in Hin. }
  change (run_frames r (FBulk <$> (f :: ds)))
    with (run_frames (handle_frame r (FBulk f)).1 (FBulk <$> ds)).
  assert ((handle_frame r (FBulk f)).1 = (handle_bulk r f).1) as ->.
  { cbn [handle_frame]. by destruct (handle_bulk r f). }
  destruct (proj2 H0 r Hd) as (_ & D & P & A & S).
  destruct (IH _ D) as (IH1 & IH2 & IH3).
  { intros Hp. by rewrite A, bool_decide_true. }
  split_and!; [|exact IH2|by rewrite IH3, S, (proj1 (store_recovered_effect _ _ _))].
  intros id Hid. destruct (IH1 id Hid) as [Hp1 Hrest]. split; [by apply P in Hp1 as [? _]|].
  intros f' ids [->|Hin]%elem_of_cons Hf'; [|by eapply Hrest].
  destruct (proj2 Hf' r Hd) as (_ & _ & Hf & _). by apply Hf in Hp1 as [_ ?].
Qed.

(** The blocks of a client's log, from its own store. *)
Definition client_blocks (store : ContentStore) (ids : list BlockId) : list Block :=
  omap (get store) ids.

Lemma client_blocks_spec store ids :
  content_ok store → Forall (λ id, is_Some (blocks store !! id)) ids →
  (block_id <$> client_blocks store ids) = ids ∧ Forall block_wf (client_blocks store ids).
Proof.
  intros Hc. unfold client_blocks. induction 1 as [|id ids [b Hb] _ [IH1 IH2]]; [done|].
  assert (get store id = Some b) as Hg by done. cbn. rewrite Hg. cbn. destruct (Hc _ _ Hb) as [<- Hwf].
  split; [by f_equal|by constructor].
Qed.

(** The shim can serve every answer to its RESYNC. *)
Lemma bulk_frames_for_spec sh store pct kmax missing :
  content_ok store → 0 < s_fountain_symbol_size sh ≤ 2 ^ 16 → s_fountain_k sh ≤ kmax → 1 ≤ kmax ≤ 65535 →
  Forall (λ id, ∃ b, blocks store !! id = Some b ∧
    fits_record (s_level sh) (kmax * s_fountain_symbol_size sh) b) missing →
  ∃ fs biss, bulk_frames_for isa sh store missing pct = Ok fs ∧
    Forall2 (ships sh store pct kmax) fs biss ∧ (concat biss).*2 = missing.
Proof.
  intros Hc Hsym Hk Hkm Hm. destruct (decide (missing = [])) as [->|Hne]; [by exists [], []|].
  assert (bulk_frames_for isa sh store missing pct =
    let? records := bulk_records sh store missing in
    bulk_frames_from isa sh pct 0
      (shard_records (s_fountain_k sh * s_fountain_symbol_size sh) records [])) as ->
    by (by destruct missing).
  destruct (bulk_records_spec sh store (kmax * s_fountain_symbol_size sh) missing)
    as (zs & bis & Hrec & Hz & Hids & Hbl & Hzl); [done|nia|done|].
  rewrite Hrec. cbn [obind].
  change (@nil byte) with (concat (@nil bytes)).
  destruct (shard_records_spec (s_fountain_k sh * s_fountain_symbol_size sh)
    (kmax * s_fountain_symbol_size sh) (record <$> zs) []) as (groups & -> & Hcat & Hg).
  { nia. }
  { apply Forall_fmap. eapply Forall_impl; [|exact Hzl]. intros z Hzl'. cbn.
    split; [|unfold zlen in *; rewrite length_record; lia].
    intros E. apply (f_equal length) in E. by rewrite length_record in E. }
  { done. }
  { change (zlen (concat [])) with 0. nia. }
  destruct (bulk_frames_deliver sh store pct kmax groups 0 zs bis)
    as (fs & biss & Hfs & Hd & Hcc); [done|lia|done..|].
  exists fs, biss. by rewrite Hcc.
Qed.

(** The whole transfer, for a bound [kmax] on the symbols of a generation. *)
Lemma cold_start_run sh store r pct kmax :
  receiver_inv r → decoders (state_of r (s_session_id sh)) = ∅ → content_ok store →
  0 < s_fountain_symbol_size sh ≤ 2 ^ 16 → s_fountain_k sh ≤ kmax → 1 ≤ kmax ≤ 65535 →
  Forall (λ id, ∃ b, blocks store !! id = Some b ∧
    fits_record (s_level sh) (kmax * s_fountain_symbol_size sh) b) (s_ids sh) →
  let '(r1, missing) := handle_resync r (resync_frame sh) in
  ∃ frames, bulk_frames_for isa sh store missing pct = Ok frames ∧
    Forall (λ f, ∃ bis, ships sh store pct kmax f bis) frames ∧
    ∀ ds, (∀ f, f ∈ ds ↔ f ∈ frames) →
      let r' := run_frames r1 (FBulk <$> ds) in
      pending (state_of r' (s_session_id sh)) = ∅ ∧
      acked (state_of r' (s_session_id sh)) = true ∧
      session_ids (r_store r') (s_session_id sh) = s_ids sh ∧
      session_root (r_store r') (s_session_id sh) = s_root sh ∧
      (reconstruct (r_store r') (s_session_id sh) = client_blocks store (s_ids sh)
       ∨ blake3_collision).
Proof.
  intros Hinv Hdec Hc Hsym Hk Hkm Hids.
  assert (Hinv1 := resync_inv r (resync_frame sh) Hinv).
  unfold handle_resync in *. cbn [resync_frame rs_session_id rs_manifest rs_client_root fst] in *.
  set (missing := filter _ (s_ids sh)) in *. set (r1 := put_state _ _ _) in *.
  destruct (bulk_frames_for_spec sh store pct kmax missing) as (fs & biss & Hfs & Hd & Hcc); [done..| |].
  { apply Forall_elem. intros id [_ Hid]%list_elem_of_filter. by apply (proj1 (Forall_elem _ _) Hids). }
  assert (Forall (λ f, ∃ bis, ships sh store pct kmax f bis) fs) as Hsh.
  { apply Forall_elem. intros f [i Hi]%list_elem_of_lookup.
    destruct (Forall2_lookup_l _ _ _ _ _ Hd Hi) as (ids & _ & ?). by exists ids. }
  exists fs. split_and!; [done..|]. intros ds Hds.
  assert (state_of r1 (s_session_id sh) = mkState (list_to_set missing) (bool_decide (missing = [])) ∅) as Hst.
  { unfold r1. by rewrite state_of_put, decide_True, Hdec. }
  assert (Forall (λ f, ∃ bis, delivers (s_session_id sh) f bis) ds) as Hdd.
  { apply Forall_elem. intros f Hf%Hds. destruct (proj1 (Forall_elem _ _) Hsh f Hf) as (ids & ? & _).
    by exists ids. }
  destruct (run_delivers (s_session_id sh) ds r1 Hdd) as (Hp & Ha & Hs).
  { by rewrite Hst. }
  { rewrite Hst. cbn. intros He. apply bool_decide_eq_true. destruct missing as [|id m]; [done|].
    exfalso. cbn in He. set_solver. }
  set (r' := run_frames r1 _) in *. cbn zeta.
  assert (pending (state_of r' (s_session_id sh)) = ∅) as Hempty.
  { apply set_eq. intros id. split; [|by intros ?%elem_of_empty]. intros Hid. exfalso.
    destruct (Hp id Hid) as [Hm Hno]. rewrite Hst in Hm. cbn in Hm. apply elem_of_list_to_set in Hm.
    rewrite <-Hcc in Hm. apply list_elem_of_fmap in Hm as ([b id'] & -> & Hm).
    apply list_elem_of_In, in_concat in Hm as (bis & Hids' & Hin).
    apply list_elem_of_In in Hids', Hin.
    apply list_elem_of_lookup in Hids' as [i Hi].
    destruct (Forall2_lookup_r _ _ _ _ _ Hd Hi) as (f & Hf & Hdel & _).
    apply (Hno f bis); [apply Hds, list_elem_of_lookup; by exists i|done|].
    apply list_elem_of_fmap. by exists (b, id'). }
  assert (session_ids (r_store r') (s_session_id sh) = s_ids sh ∧
          session_root (r_store r') (s_session_id sh) = s_root sh) as [Hi Hr].
  { unfold session_ids, session_root. rewrite Hs. unfold r1. cbn. by rewrite seed_sessions, lookup_insert_eq. }
  split_and!; [done|auto|done|done|].
  destruct (client_blocks_spec store (s_ids sh)) as [Hcb Hcw]; [done| |].
  { eapply Forall_impl; [|exact Hids]. intros id (b & Hb & _). by exists b. }
  assert (Hinv' : receiver_inv r') by (by apply run_frames_inv).
  apply same_ids; [apply reconstruct_wf, Hinv'|done|].
  rewrite Hcb, <-Hi. by apply no_pending_complete.
Qed.

End Generation.
