(* ===== verification/Web.v ===== *)
(** * Web: the HTTP and JSON libraries the sidecar calls

    Crates [serde_json] and [http] are parameters: a class holds the functions,
    a class of laws their documented behaviour.  Text that goes on the wire is
    kept as bytes.  [ToyWeb] gives concrete functions for the witnesses. *)

From S2P Require Import Prelude.

(** The bytes of an ASCII literal. *)
Definition ascii (s : string) : bytes := String.list_byte_of_string s.

(** [usize::saturating_add] and [saturating_sub]. *)
Definition sat_add (a b : Z) : Z := Z.min (a + b) usize_max.
Definition sat_sub (a b : Z) : Z := Z.max (a - b) 0.

(** [Option::filter]. *)
Definition opt_filter {A} (f : A → bool) (o : option A) : option A :=
  match o with Some a => if f a then Some a else None | None => None end.

(** [Vec::pop]. *)
Definition vec_pop {A} (v : list A) : list A * option A :=
  match rev v with [] => ([], None) | a :: r => (rev r, Some a) end.

Lemma vec_pop_snoc {A} (v : list A) a : vec_pop (v ++ [a]) = (v, Some a).
Proof. unfold vec_pop. rewrite rev_app_distr. simpl. by rewrite rev_involutive. Qed.

(** ** [serde_json] *)

(** [Value], its accessors, and the (de)serialisers at the types the sidecar
    uses; an error is its message.  A [Map] is its list of entries. *)
Class SerdeJson := {
  Value : Type;
  as_object : Value → option (list (bytes * Value));
  as_str : Value → option bytes;
  to_vec : Value → string + bytes;
  value_from_slice : bytes → string + Value;
  (** [from_slice::<ChatMetadata>]: the object [{"request": v}]. *)
  metadata_from_slice : bytes → string + Value;
  (** [from_slice::<MessageRole>]: an object with a string field [role]. *)
  role_from_slice : bytes → string + unit
}.

(** [Map::get]. *)
Definition map_get `{SJ : SerdeJson} (m : list (bytes * Value)) (key : bytes) : option Value :=
  snd <$> head (filter (λ kv, kv.1 = key) m).

(** [Map::contains_key]. *)
Definition contains_key `{SJ : SerdeJson} (m : list (bytes * Value)) (key : bytes) : bool :=
  bool_decide (is_Some (map_get m key)).

(** The compact representation of an object: braces around the members; there
    is text between them exactly when there are members. *)
Class SerdeJsonLaws `{SJ : SerdeJson} : Prop := {
  to_vec_object : ∀ v m b, as_object v = Some m → to_vec v = inr b →
    ∃ inner, b = ascii "{" ++ inner ++ ascii "}" ∧ (inner = [] ↔ m = [])
}.

(** ** [http] *)

(** [HeaderValue::from_str] and [HeaderValue::to_str]. *)
Class HttpText := {
  hv_from_str : bytes → option bytes;
  hv_to_str : bytes → option bytes
}.

Definition visible (b : byte) : bool := (32 <=? byte.unsigned b) && (byte.unsigned b <? 127).

Class HttpTextLaws `{HT : HttpText} : Prop := {
  hv_from_visible : ∀ s, Forall (λ b, visible b = true) s → hv_from_str s = Some s;
  hv_to_visible : ∀ s, Forall (λ b, visible b = true) s → hv_to_str s = Some s
}.

(** A header map: names are lower case, one name may have several values. *)
Abbreviation HeaderMap := (list (string * bytes)).

(** [HeaderMap::get]: the first value. *)
Definition header_get (h : HeaderMap) (name : string) : option bytes :=
  snd <$> head (filter (λ kv, kv.1 = name) h).

(** [HeaderMap::insert] replaces every value; [append] adds one. *)
Definition header_insert (h : HeaderMap) (name : string) (v : bytes) : HeaderMap :=
  filter (λ kv, kv.1 ≠ name) h ++ [(name, v)].
Definition header_append (h : HeaderMap) (name : string) (v : bytes) : HeaderMap :=
  h ++ [(name, v)].

Lemma header_get_insert h name v : header_get (header_insert h name v) name = Some v.
Proof.
  unfold header_get, header_insert. rewrite list.filter_app.
  replace (filter _ (filter _ h)) with (@nil (string * bytes)); [by rewrite filter_cons_True|].
  symmetry. induction h as [|[n w] h IH]; [done|]. rewrite filter_cons. case_decide as Hn; [|done].
  by rewrite filter_cons_False.
Qed.

(** ** Concrete instances for witnesses

    A JSON fragment: objects whose members are strings without escapes. *)
Module ToyWeb.

Inductive toy_value : Type :=
| TStr (s : bytes)
| TObj (m : list (bytes * bytes)).

Definition quote (s : bytes) : bytes := Byte.x22 :: s ++ [Byte.x22].

Definition member (kv : bytes * bytes) : bytes := quote kv.1 ++ ascii ":" ++ quote kv.2.

Fixpoint members (m : list (bytes * bytes)) : bytes :=
  match m with
  | [] => []
  | [kv] => member kv
  | kv :: m' => member kv ++ ascii "," ++ members m'
  end.

Definition print (v : toy_value) : bytes :=
  match v with
  | TStr s => quote s
  | TObj m => ascii "{" ++ members m ++ ascii "}"
  end.

(** Up to the closing quote. *)
Fixpoint scan (s : bytes) : option (bytes * bytes) :=
  match s with
  | [] => None
  | b :: s' =>
      if Byte.eqb b Byte.x22 then Some ([], s')
      else match scan s' with Some (w, r) => Some (b :: w, r) | None => None end
  end.

Definition expect (b : byte) (s : bytes) : option bytes :=
  match s with c :: s' => if Byte.eqb b c then Some s' else None | [] => None end.

Definition parse_str (s : bytes) : option (bytes * bytes) := expect Byte.x22 s ≫= scan.

Definition parse_member (s : bytes) : option ((bytes * bytes) * bytes) :=
  '(k, r) ← parse_str s; r ← expect Byte.x3a r; '(v, r) ← parse_str r; Some ((k, v), r).

(** Members up to the closing brace. *)
Fixpoint parse_members (fuel : nat) (s : bytes) : option (list (bytes * bytes) * bytes) :=
  match fuel with
  | O => None
  | S fuel =>
      '(kv, r) ← parse_member s;
      match expect Byte.x2c r with
      | Some r => '(m, r) ← parse_members fuel r; Some (kv :: m, r)
      | None => r ← expect Byte.x7d r; Some ([kv], r)
      end
  end.

Definition parse_value (s : bytes) : option (toy_value * bytes) :=
  match expect Byte.x7b s with
  | Some r =>
      match expect Byte.x7d r with
      | Some r => Some (TObj [], r)
      | None => '(m, r) ← parse_members (length r) r; Some (TObj m, r)
      end
  | None => '(w, r) ← parse_str s; Some (TStr w, r)
  end.

Definition whole {A} (o : option (A * bytes)) : string + A :=
  match o with Some (a, []) => inr a | _ => inl "syntax error" end.

Definition parse_metadata (s : bytes) : option (toy_value * bytes) :=
  r ← expect Byte.x7b s; '(k, r) ← parse_str r; r ← expect Byte.x3a r; '(v, r) ← parse_value r;
  r ← expect Byte.x7d r; if bool_decide (k = ascii "request") then Some (v, r) else None.

#[export] Instance toy_json : SerdeJson := {|
  Value := toy_value;
  as_object v := match v with TObj m => Some ((λ kv, (kv.1, TStr kv.2)) <$> m) | _ => None end;
  as_str v := match v with TStr s => Some s | _ => None end;
  to_vec v := inr (print v);
  value_from_slice s := whole (parse_value s);
  metadata_from_slice s := whole (parse_metadata s);
  role_from_slice s :=
    match parse_value s with
    | Some (TObj m, []) =>
        if bool_decide (ascii "role" ∈ m.*1) then inr tt else inl "missing field `role`"
    | _ => inl "syntax error"
    end
|}.

#[export] Instance toy_json_laws : SerdeJsonLaws.
Proof.
  constructor. intros [s|m] m' b Hm Hb; [done|]. injection Hm as <-. injection Hb as <-.
  exists (members m). split; [done|]. destruct m as [|kv [|kv' m]]; [done|..]; split; done.
Qed.

Definition accept (s : bytes) : option bytes := if forallb visible s then Some s else None.

#[export] Instance toy_http : HttpText := {| hv_from_str := accept; hv_to_str := accept |}.

#[export] Instance toy_http_laws : HttpTextLaws.
Proof.
  assert (∀ s, Forall (λ b, visible b = true) s → accept s = Some s) as H; [|by constructor].
  intros s Hs. unfold accept.
  replace (forallb visible s) with true; [done|]. symmetry. apply forallb_forall.
  intros b Hb%list_elem_of_In. by apply (proj1 (Forall_elem _ _) Hs).
Qed.
End ToyWeb.
