(* ===== verification/Failover.v ===== *)
(** * Failover: the session of the end-to-end binary ([bin/src/main.rs])

    The program that wires the parts together: a shim and a receiver exchange
    turns over the wire; a batch is ingested that the receiver never sees; a
    second, empty receiver takes the session over by RESYNC, MISSING and BULK
    (the generations in reverse order); the turns go on against it.  Every
    [expect], [assert!] and [panic!] of that path is a [Panic] here.  The byte
    totals and what is printed are left out, and so is the pruner that is fed on
    the side ([PruneSched]). *)

From stdpp Require Import pretty.
From S2P Require Import Prelude Interfaces F64 Block Merkle Filter Frame Store Compress FountainSig.
From S2P Require Import Receiver GfVec Gauss Fountain FountainCorrect Encoder Bulk Shim Protocol ColdStart.
From S2P Require Import Web.

(** [Result::expect]. *)
Definition expect {E A} (o : outcome E A) : outcome string A :=
  match o with Ok a => Ok a | _ => Panic end.

(** [assert!]. *)
Definition assert_true (b : bool) : outcome string unit := if b then Ok tt else Panic.

(** ** The program *)

Section Main.
Context `{B3 : Blake3} `{CC : Codec} `{DF : DedupFilter} `{LM : Libm}.
Variables isa isa' : Isa.
#[local] Hint Extern 0 FountainCode => exact (receiver_code isa') : typeclass_instances.

(** [decode_frame_bytes(&encode_frame(&frame)).expect(..)]. *)
Definition over_wire (f : Frame) : outcome string Frame :=
  expect (decode_frame_bytes (encode_frame f)).

(** One turn of the steady state. *)
Definition steady_turn (sid : Z) (g : Registry) (r : Receiver) (blocks : list Block)
    : outcome string (Registry * Receiver) :=
  let '(g, append) := ingest g sid blocks in
  let? back := over_wire (FAppend append) in
  let '(r, res) := handle_frame r back in
  let? ack_frame := expect res in
  match ack_frame with
  | Some (FAck ack) =>
      let '(g, advanced) := Shim_apply_ack g sid (ack_root ack) in
      let? _ := assert_true advanced in
      Ok (g, r)
  | _ => Ok (g, r)
  end.

Fixpoint steady_state (sid : Z) (g : Registry) (r : Receiver) (turns : list (list Block))
    : outcome string (Registry * Receiver) :=
  match turns with
  | [] => Ok (g, r)
  | blocks :: turns' =>
      let? '(g, r) := steady_turn sid g r blocks in
      steady_state sid g r turns'
  end.

(** The manifest is the log of the shim's store. *)
Definition shim_session_resync (g : Registry) (sid : Z) : ResyncFrame :=
  mkResync sid (session_root (h_store (g_host g)) sid) (session_ids (h_store (g_host g)) sid).

(** The BULK frames, with the root of the last completion ACK. *)
Fixpoint deliver_bulk (cold : Receiver) (completion_root : option MerkleRoot) (fs : list BulkFrame)
    : outcome string (Receiver * option MerkleRoot) :=
  match fs with
  | [] => Ok (cold, completion_root)
  | b :: fs' =>
      let? decoded := over_wire (FBulk b) in
      let '(cold, res) := handle_frame cold decoded in
      let? reply := expect res in
      deliver_bulk cold
        (match reply with Some (FAck a) => Some (ack_root a) | _ => completion_root end) fs'
  end.

(** The handshake with an empty receiver. *)
Definition cold_start (sid : Z) (g : Registry) : outcome string (Registry * Receiver) :=
  let resync := shim_session_resync g sid in
  let? f := over_wire (FResync resync) in
  let '(cold, res) := handle_frame (Receiver_new new) f in
  let? resp := expect res in
  match resp with
  | Some (FMissing m) =>
      let '(g, sh) := session g sid in
      let? bulk := expect (bulk_frames_for isa sh (h_store (g_host g)) (ms_missing m) 5) in
      let? '(cold, completion_root) := deliver_bulk cold None (reverse bulk) in
      match completion_root with
      | Some root =>
          let? _ := assert_true (bool_decide (root = rs_client_root resync)) in
          let '(g, advanced) := Shim_apply_ack g sid root in
          let? _ := assert_true advanced in
          Ok (g, cold)
      | None => Panic
      end
  | _ => Panic
  end.

(** The turn after the takeover. *)
Definition resume (sid : Z) (g : Registry) (cold : Receiver) (blocks : list Block)
    : outcome string (Registry * Receiver) :=
  let '(g, append) := ingest g sid blocks in
  let? f := over_wire (FAppend append) in
  let '(cold, res) := handle_frame cold f in
  let? reply := expect res in
  match reply with
  | Some (FAck a) =>
      let '(g, sh) := session g sid in
      let? _ := assert_true (bool_decide (ack_root a = s_root sh)) in
      let '(g, advanced) := Shim_apply_ack g sid (ack_root a) in
      let? _ := assert_true advanced in
      Ok (g, cold)
  | _ => Panic
  end.

(** The shim, the steady-state receiver and the one that took over. *)
Record Ends : Type := mkEnds { e_shim : Registry; e_receiver : Receiver; e_cold : Receiver }.

Definition main_session (filter : Filter) (level sid : Z) (turns batch : list (list Block))
    (resume_blocks : list Block) : outcome string Ends :=
  let g := Shim_new new filter level in
  let? '(g, r) := steady_state sid g (Receiver_new new) turns in
  let '(g, _) := ingest_batch g sid batch in
  let? '(g, cold) := cold_start sid g in
  let? '(g, cold) := resume sid g cold resume_blocks in
  Ok (mkEnds g r cold).
End Main.

Arguments e_shim {DF isa'} e.
Arguments e_receiver {DF isa'} e.
Arguments e_cold {DF isa'} e.

(** ** The generated turns *)

Definition turn_blocks (t seq : Z) : list Block :=
  [mkBlock Message seq (ascii ("user turn " ++ pretty t ++ ": please edit src/foo.rs and run the tests"));
   mkBlock ToolCall (seq + 1) (ascii ("tool_call: edit src/foo.rs (turn " ++ pretty t ++ ")"));
   mkBlock ToolResult (seq + 2) (ascii "file snapshot: fn main() { /* ... */ }")].

Fixpoint turns_from (ts : list Z) (seq : Z) : list (list Block) :=
  match ts with
  | [] => []
  | t :: ts' =>
      let system := if t =? 0 then [mkBlock System seq (ascii "system-prompt...")] else [] in
      let seq := seq + zlen system in
      (system ++ turn_blocks t seq) :: turns_from ts' (seq + 3)
  end.

Definition make_turns : list (list Block) := turns_from [0; 1; 2; 3; 4] 1.

Definition resume_turn : list Block := [mkBlock Message 999 (ascii "post-cold-start turn")].

(** ** The host keeps its session's log *)

Section Host.
Context `{B3 : Blake3} {B3L : Blake3Laws} `{CC : Codec} {CL : CodecLaws} `{DF : DedupFilter}.

(** Session [sh] is the only one of host [h]; its blocks satisfy [P]. *)
Record hosted (P : Block → Prop) (sh : SessionShim) (h : Host) : Prop := {
  ho_content : content_ok (h_store h);
  ho_blocks : ∀ id b, blocks (h_store h) !! id = Some b → P b;
  ho_own : ∀ id, contains (h_store h) id = true ↔ id ∈ s_ids sh;
  ho_ids : session_ids (h_store h) (s_session_id sh) = s_ids sh;
  ho_root : session_root (h_store h) (s_session_id sh) = s_root sh;
  ho_rooted : s_root sh = root_over ROOT_ZERO (s_ids sh)
}.

(** The fields an append leaves alone. *)
Definition same_params (sh sh' : SessionShim) : Prop :=
  s_session_id sh' = s_session_id sh ∧ s_level sh' = s_level sh ∧
  s_fountain_k sh' = s_fountain_k sh ∧ s_fountain_symbol_size sh' = s_fountain_symbol_size sh.

Lemma ingest_block_hosted P sh h b :
  block_wf b → P b → hosted P sh h →
  let '(sh', h', fb) := ingest_block sh h b in hosted P sh' h' ∧ same_params sh sh'.
Proof.
  intros Hwf Hb [C B O I R Z]. unfold ingest_block. rewrite one_pass.
  destruct (if filter_contains _ _ then _ else _) eqn:Hk; (split; [|done]).
  - assert (contains (h_store h) (block_id b) = true) as Hc by (by destruct (filter_contains _ _)).
    assert (sessions (reference (h_store h) (s_session_id sh) (block_id b)).1 =
      (append_session (sessions (h_store h)) (s_session_id sh) (block_id b)).1) as Hs.
    { rewrite reference_sessions, decide_False; [done|]. apply contains_true in Hc as [? ->]. done. }
    split; cbn [h_store s_ids s_root s_session_id]; unfold content_ok, contains;
      rewrite ?reference_blocks; [done|done|..].
    + intros id. rewrite elem_of_app, list_elem_of_singleton, <-O. unfold contains.
      split; [auto|]. intros [?| ->]; done.
    + by rewrite (session_ids_append _ _ _ _ Hs), log_of_ids, I.
    + by rewrite (session_root_append _ _ _ _ Hs), log_of_root, R.
    + by rewrite root_over_snoc, Z.
  - set (h' := insert_with_canonical _ _ _ _ _).
    assert (sessions h'.1 = (append_session (sessions (h_store h)) (s_session_id sh) (block_id b)).1) as Hs
      by apply insert_sessions.
    assert (blocks h'.1 = put_block (blocks (h_store h)) (block_id b) b) as Hbl by apply insert_blocks.
    split; cbn [h_store s_ids s_root s_session_id].
    + unfold content_ok. rewrite Hbl. by apply put_block_content.
    + intros id c. rewrite Hbl. unfold put_block. case_bool_decide; [|apply B].
      rewrite lookup_insert_Some. intros [[_ <-]|[_ Hc]]; [exact Hb|exact (B _ _ Hc)].
    + intros id. rewrite elem_of_app, list_elem_of_singleton, <-O, !contains_true, Hbl.
      unfold put_block. case_bool_decide as Hn.
      { rewrite lookup_insert_is_Some'. split; intros [H|H]; auto. }
      split; [auto|]. intros [?| ->]; [done|]. by apply not_eq_None_Some.
    + by rewrite (session_ids_append _ _ _ _ Hs), log_of_ids, I.
    + by rewrite (session_root_append _ _ _ _ Hs), log_of_root, R.
    + by rewrite root_over_snoc, Z.
Qed.

Lemma ingest_blocks_hosted P sh h bs :
  Forall (λ b, block_wf b ∧ P b) bs → hosted P sh h →
  let '(sh', h', fbs) := ingest_blocks sh h bs in hosted P sh' h' ∧ same_params sh sh'.
Proof.
  intros Hbs. revert sh h. induction Hbs as [|b bs [Hwf Hb] _ IH]; intros sh h Hh; cbn [ingest_blocks]; [done|].
  pose proof (ingest_block_hosted P sh h b Hwf Hb Hh) as H1.
  destruct (ingest_block sh h b) as [[sh1 h1] fb]. destruct H1 as [H1 (E1 & E2 & E3 & E4)].
  specialize (IH sh1 h1 H1). destruct (ingest_blocks sh1 h1 bs) as [[sh2 h2] fbs].
  destruct IH as [H2 (F1 & F2 & F3 & F4)]. split; [done|]. unfold same_params. by rewrite F1, F2, F3, F4.
Qed.

(** The block's compressed form is within the wire's ceiling too. *)
Definition sendable (b : Block) : Prop :=
  block_wf b ∧ compressible b ∧ zlen (payload b) + 18 ≤ MAX_BLOCK_PAYLOAD_BYTES.

Lemma ingest_blocks_frame sh h bs :
  Forall sendable bs →
  let '(_, _, fbs) := ingest_blocks sh h bs in
  length fbs = length bs ∧ Forall frame_block_wf fbs.
Proof.
  intros Hbs. revert sh h. induction Hbs as [|b bs ([Hseq Hp] & [z Hz] & Hs) _ IH]; intros sh h;
    cbn [ingest_blocks]; [done|].
  destruct (ingest_block sh h b) as [[sh1 h1] fb] eqn:H1.
  specialize (IH sh1 h1). destruct (ingest_blocks sh1 h1 bs) as [[sh2 h2] fbs].
  destruct IH as [IHl IHf]. split; [cbn; by rewrite IHl|constructor; [|done]].
  unfold ingest_block in H1. rewrite one_pass in H1.
  destruct (if filter_contains _ _ then _ else _); injection H1 as _ _ <-; cbn [frame_block_wf].
  - apply length_block_id.
  - rewrite Hz. pose proof (codec_bound _ _ _ Hz) as Hb. rewrite zlen_canonical_bytes in Hb.
    split; cbn [seq payload]; [done|lia].
Qed.
End Host.

(** ** One exchange *)

Section Takeover.
Context `{B3 : Blake3} {B3L : Blake3Laws} `{CC : Codec} {CL : CodecLaws} `{DF : DedupFilter} `{LM : Libm}.
Variables isa isa' : Isa.
#[local] Hint Extern 0 FountainCode => exact (receiver_code isa') : typeclass_instances.
Variables sid level : Z.
Hypothesis sid_u128 : u128 sid.

(** A block for the append path and, at the bulk level, within 1 MiB. *)
Definition transferable (b : Block) : Prop := sendable b ∧ fits_record level (1024 * 1024) b.

Record serving (g : Registry) : Prop := {
  rd_hosted : hosted transferable (session_entry g sid) (g_host g);
  rd_params : same_params (SessionShim_new sid level) (session_entry g sid)
}.

Lemma over_wire_ok f : frame_wf f → over_wire f = Ok f.
Proof.
  intros Hf. unfold over_wire. rewrite <-(app_nil_r (encode_frame f)).
  by rewrite (proj2 (frame_roundtrip f [] Hf)).
Qed.

Lemma rooted_wf sh h : hosted transferable sh h → id_wf (s_root sh).
Proof. intros H. unfold id_wf. rewrite (ho_rooted _ _ _ H). apply length_root_over. Qed.

(** Ingesting, by turn or by batch. *)
Lemma ingest_ready g bs :
  serving g → Forall transferable bs →
  let '(g', f) := ingest g sid bs in
  serving g' ∧ g_sessions g' !! sid = Some (session_entry g' sid) ∧
  s_ids (session_entry g' sid) = s_ids (session_entry g sid) ++ (block_id <$> bs) ∧
  (zlen bs ≤ MAX_FRAME_COUNT → id_wf (s_base_root (session_entry g sid)) → frame_wf (FAppend f)).
Proof.
  intros [Hh Hp] Hbs. unfold ingest, ingest_turn.
  assert (Forall (λ b, block_wf b ∧ transferable b) bs) as Hbs'.
  { eapply Forall_impl; [|exact Hbs]. intros b Hb. split; [apply Hb|done]. }
  assert (Forall sendable bs) as Hsend by (eapply Forall_impl; [|exact Hbs]; intros b Hb; apply Hb).
  pose proof (ingest_blocks_hosted transferable _ _ bs Hbs' Hh) as H1.
  pose proof (ingest_blocks_effect (session_entry g sid) (g_host g) bs) as H2.
  pose proof (ingest_blocks_frame (session_entry g sid) (g_host g) bs Hsend) as H3.
  destruct (ingest_blocks _ _ bs) as [[sh' h'] fbs].
  destruct H1 as [Hh' (E1 & E2 & E3 & E4)], H2 as (_ & F2 & F3 & _), H3 as [Hl Hf].
  destruct Hp as (P1 & P2 & P3 & P4).
  assert (session_entry (mkRegistry h' (g_level g) (<[sid:=sh']> (g_sessions g))) sid = sh') as He.
  { by rewrite session_entry_insert, decide_True. }
  split_and!.
  - split; cbn [g_host]; rewrite He; [done|]. unfold same_params. by rewrite E1, E2, E3, E4.
  - cbn [g_sessions]. by rewrite He, lookup_insert_eq.
  - by rewrite He.
  - intros Hn Hb. cbn [frame_wf ap_session_id ap_base_root ap_blocks]. rewrite E1, P1, F2.
    split_and!; [exact sid_u128|done| |done]. unfold zlen in *. by rewrite Hl.
Qed.

(** The ACK of the current root. *)
Lemma ack_ready g :
  serving g → g_sessions g !! sid = Some (session_entry g sid) →
  ∃ g', Shim_apply_ack g sid (s_root (session_entry g sid)) = (g', true) ∧ serving g' ∧
    g_host g' = g_host g ∧
    session_entry g' sid = with_base (session_entry g sid) (s_root (session_entry g sid))
                             (length (s_ids (session_entry g sid))).
Proof.
  intros [[C B O I R Z] Hp] Hl. set (sh := session_entry g sid) in *.
  set (sh' := with_base sh (s_root sh) (length (s_ids sh))).
  set (g' := mkRegistry (g_host g) (g_level g) (<[sid := sh']> (g_sessions g))).
  assert (session_entry g' sid = sh') as He by (unfold g'; by rewrite session_entry_insert, decide_True).
  exists g'. unfold Shim_apply_ack, apply_ack. rewrite Hl, bool_decide_true by done.
  split_and!; [done| |done|done]. split; rewrite He; [by split|done].
Qed.

(** A turn over the wire, acknowledged. *)
Lemma exchange g r bs :
  serving g → synced (session_entry g sid) (g_host g) r → mirrored (g_host g) r →
  Forall transferable bs → zlen bs ≤ MAX_FRAME_COUNT →
  let '(g1, f) := ingest g sid bs in
  ∃ r' g2, over_wire (FAppend f) = Ok (FAppend f) ∧
    handle_frame r (FAppend f) = (r', Ok (Some (FAck (mkAck sid (s_root (session_entry g1 sid)))))) ∧
    session g1 sid = (g1, session_entry g1 sid) ∧
    Shim_apply_ack g1 sid (s_root (session_entry g1 sid)) = (g2, true) ∧
    serving g2 ∧ synced (session_entry g2 sid) (g_host g2) r' ∧ mirrored (g_host g2) r' ∧
    s_ids (session_entry g2 sid) = s_ids (session_entry g sid) ++ (block_id <$> bs).
Proof.
  intros Hr Hs Hm Hbs Hn.
  assert (Forall block_wf bs ∧ Forall compressible bs) as [Hwf Hz].
  { split; (eapply Forall_impl; [|exact Hbs]); intros b Hb; apply Hb. }
  pose proof (ingest_ready g bs Hr Hbs) as Hi.
  pose proof (append_sync _ _ r bs Hs Hm Hwf Hz) as Ha.
  pose proof (rd_params _ Hr) as (P1 & _ & _ & _).
  assert (id_wf (s_base_root (session_entry g sid))) as Hb.
  { rewrite (sy_base _ _ _ Hs). apply (rooted_wf _ _ (rd_hosted _ Hr)). }
  unfold ingest in *. destruct (ingest_turn (session_entry g sid) (g_host g) bs) as [[sh' h'] f].
  set (g1 := mkRegistry h' (g_level g) (<[sid:=sh']> (g_sessions g))) in *.
  assert (session_entry g1 sid = sh') as He1 by (unfold g1; by rewrite session_entry_insert, decide_True).
  destruct Hi as ([Hh1 Hp1] & Hl1 & Hids1 & Hf).
  destruct Ha as (r' & sh'' & Ha & Hack & Hsy & Hmi & Hid & Hids & _).
  destruct (ack_ready g1) as (g2 & Hg2 & Hr2 & Hh2 & He2); [by split|done|].
  rewrite He1 in *.
  assert (sh'' = with_base sh' (s_root sh') (length (s_ids sh'))) as Hw.
  { unfold apply_ack in Hack. rewrite bool_decide_true in Hack by done. congruence. }
  rewrite <-Hw in He2. exists r', g2. rewrite He2, Hh2. split_and!; [|..|done|done|done|done].
  - apply over_wire_ok, Hf; done.
  - cbn [handle_frame]. rewrite Ha. cbn [obind]. by rewrite P1.
  - unfold session. rewrite He1. unfold g1 at 1 2 3. cbn [g_host g_level g_sessions].
    by rewrite insert_insert_eq.
  - done.
Qed.

(** ** The steady state *)

Lemma steady_state_synced turns g r :
  serving g → synced (session_entry g sid) (g_host g) r → mirrored (g_host g) r → receiver_inv r →
  Forall (λ bs, Forall transferable bs ∧ zlen bs ≤ MAX_FRAME_COUNT) turns →
  ∃ g' r', steady_state isa' sid g r turns = Ok (g', r') ∧
    serving g' ∧ synced (session_entry g' sid) (g_host g') r' ∧ receiver_inv r' ∧
    s_ids (session_entry g' sid) = s_ids (session_entry g sid) ++ (block_id <$> concat turns).
Proof.
  intros Hr Hs Hm Hinv Hts. revert g r Hr Hs Hm Hinv.
  induction Hts as [|bs turns [Hbs Hn] _ IH]; intros g r Hr Hs Hm Hinv; cbn [steady_state].
  { eexists _, _. cbn. by rewrite app_nil_r. }
  pose proof (exchange g r bs Hr Hs Hm Hbs Hn) as H. unfold steady_turn.
  destruct (ingest g sid bs) as [g1 f].
  destruct H as (r1 & g2 & -> & H1 & _ & H2 & Hr2 & Hs2 & Hm2 & Hids). cbn [obind].
  pose proof (handle_frame_inv r (FAppend f) Hinv) as Hinv1. rewrite H1 in *.
  cbn [expect obind ack_root fst] in *. rewrite H2. cbn [assert_true obind].
  destruct (IH g2 r1 Hr2 Hs2 Hm2 Hinv1) as (g' & r' & -> & ? & ? & ? & IHids).
  eexists _, _. split_and!; [done..|]. cbn [concat]. by rewrite IHids, Hids, <-app_assoc, <-fmap_app.
Qed.

(** ** The takeover *)

(** The margin of 5 % of a generation of at most 1024 symbols. *)
Lemma five_percent_fits : margin_fits 5 1024.
Proof. apply (margin_checked 5 1024). vm_compute. reflexivity. Qed.

Lemma bulk_frame_wf sh store f bis :
  s_session_id sh = sid → s_fountain_symbol_size sh = 1024 → ships isa' sh store 5 1024 f bis →
  frame_wf (FBulk f).
Proof.
  intros Hid Hsz [[Hsid _] [Hsh _]].
  apply (coded_frame_wf sh 5 1024); [by rewrite Hsid, Hid|lia|lia|apply five_percent_fits|done].
Qed.

(** Delivering BULK frames answers with the client root once nothing is
    pending. *)
Lemma deliver_bulk_run fs cold c root :
  Forall (λ f, frame_wf (FBulk f) ∧ ∃ bis, delivers isa' sid f bis) fs →
  decoders (state_of cold sid) = ∅ →
  acked (state_of cold sid) = bool_decide (pending (state_of cold sid) = ∅) →
  session_root (r_store cold) sid = root → (acked (state_of cold sid) = true → c = Some root) →
  ∃ c', deliver_bulk isa' cold c fs = Ok (run_frames cold (FBulk <$> fs), c') ∧
    (acked (state_of (run_frames cold (FBulk <$> fs)) sid) = true → c' = Some root).
Proof.
  intros Hfs. revert cold c. induction Hfs as [|f fs [Hwf (bis & Hsid & Hf)] _ IH];
    intros cold c Hd Ha Hr Hc; cbn [deliver_bulk]; [by exists c|].
  rewrite over_wire_ok by done. cbn [obind].
  change (run_frames cold (FBulk <$> (f :: fs)))
    with (run_frames (handle_frame cold (FBulk f)).1 (FBulk <$> fs)).
  cbn [handle_frame]. destruct (Hf cold Hd) as (Hres & D & P & A & S).
  destruct (handle_bulk cold f) as [cold' res]. cbn [fst snd] in *. subst res.
  cbn [expect obind].
  assert (session_root (r_store cold') sid = root) as Hr' by (by rewrite S, store_recovered_root).
  assert (acked (state_of cold' sid) = bool_decide (pending (state_of cold' sid) = ∅)) as Ha'.
  { rewrite A, Ha. destruct (bool_decide (pending (state_of cold' sid) = ∅)) eqn:E; [done|].
    cbn. apply bool_decide_eq_false in E. apply bool_decide_eq_false. intros Hp. apply E.
    apply set_eq. intros id. rewrite P, Hp. set_solver. }
  apply IH; [done|done|done|]. rewrite Ha', Ha in *. intros Hdone. rewrite Hdone in *. cbn [andb].
  destruct (bool_decide (pending (state_of cold sid) = ∅)) eqn:E; cbn [negb]; [by apply Hc|].
  cbn [ack_root]. by rewrite Hr.
Qed.

Lemma none_contained (ids : list BlockId) : filter (λ id, contains new id = false) ids = ids.
Proof.
  induction ids as [|id ids IH]; [done|]. rewrite filter_cons_True by done. by rewrite IH.
Qed.

Lemma hosted_ids_wf sh h : hosted transferable sh h → Forall id_wf (s_ids sh).
Proof.
  intros [C _ O _ _ _]. apply Forall_elem. intros id Hid. apply O, contains_true in Hid as [b Hb].
  destruct (C _ _ Hb) as [-> _]. apply length_block_id.
Qed.

(** The log the shim announces is the session's. *)
Lemma announced g : serving g → shim_session_resync g sid = resync_frame (session_entry g sid).
Proof.
  intros [[_ _ _ I R _] (P & _)]. unfold shim_session_resync, resync_frame.
  cbn in P. rewrite P in *. by rewrite I, R.
Qed.

(** The empty receiver after RESYNC: everything is missing. *)
Lemma resynced sh :
  ∃ cold, handle_resync (Receiver_new new) (resync_frame sh) = (cold, s_ids sh) ∧
    decoders (state_of cold (s_session_id sh)) = ∅ ∧
    acked (state_of cold (s_session_id sh)) = bool_decide (s_ids sh = []) ∧
    pending (state_of cold (s_session_id sh)) = list_to_set (s_ids sh) ∧
    session_root (r_store cold) (s_session_id sh) = s_root sh.
Proof.
  unfold handle_resync. cbn [resync_frame rs_session_id rs_manifest rs_client_root Receiver_new r_store].
  rewrite none_contained. eexists. split; [done|]. rewrite state_of_put, decide_True by done.
  split_and!; [done..|]. unfold session_root. cbn. by rewrite seed_sessions, lookup_insert_eq.
Qed.

Lemma cold_start_resumes g :
  serving g → g_sessions g !! sid = Some (session_entry g sid) →
  s_ids (session_entry g sid) ≠ [] → zlen (s_ids (session_entry g sid)) ≤ MAX_FRAME_COUNT →
  ∃ g' cold, cold_start isa isa' sid g = Ok (g', cold) ∧
    serving g' ∧ synced (session_entry g' sid) (g_host g') cold ∧ mirrored (g_host g') cold ∧
    receiver_inv cold ∧ s_ids (session_entry g' sid) = s_ids (session_entry g sid).
Proof.
  intros Hr Hl Hne Hn. pose proof Hr as [Hh (P1 & P2 & P3 & P4)]. cbn in P1, P2, P3, P4.
  unfold cold_start. rewrite announced by done. set (sh := session_entry g sid) in *.
  assert (session g sid = (g, sh)) as Hs.
  { unfold session. fold sh. rewrite insert_id by done. by destruct g. }
  rewrite over_wire_ok.
  2:{ cbn [frame_wf resync_frame rs_session_id rs_client_root rs_manifest]. rewrite P1.
      split_and!; [exact sid_u128|by eapply rooted_wf|done|by eapply hosted_ids_wf]. }
  cbn [obind handle_frame].
  assert (receiver_inv (Receiver_new new)) as Hinv0 by (by apply Receiver_new_inv).
  assert (Forall (λ id, ∃ b, blocks (h_store (g_host g)) !! id = Some b ∧
    fits_record (s_level sh) (1024 * s_fountain_symbol_size sh) b) (s_ids sh)) as Hfits.
  { apply Forall_elem. intros id Hid. apply (ho_own _ _ _ Hh), contains_true in Hid as [b Hb].
    exists b. split; [done|]. rewrite P2, P4. by apply (ho_blocks _ _ _ Hh) in Hb as [_ ?]. }
  pose proof (cold_start_run isa isa' sh (h_store (g_host g)) (Receiver_new new) 5 1024 Hinv0
    ltac:(done) (ho_content _ _ _ Hh) ltac:(lia) ltac:(lia) ltac:(lia) Hfits) as Hrun.
  pose proof (resync_inv (Receiver_new new) (resync_frame sh) Hinv0) as Hinv1.
  destruct (resynced sh) as (cold0 & Hrs & Hd0 & Ha0 & Hp0 & Hr0). rewrite Hrs in *. cbn [fst] in Hinv1.
  destruct Hrun as (frames & Hb & Hsh & Hrun).
  destruct (s_ids sh) as [|id ids] eqn:Hids; [done|]. cbn [expect obind ms_missing resync_frame rs_client_root].
  rewrite Hs, Hb. cbn [expect obind].
  destruct (Hrun (reverse frames)) as (Hp & Ha & Hi & Hro & _).
  { intros f. by rewrite elem_of_reverse. }
  rewrite P1 in *.
  destruct (deliver_bulk_run (reverse frames) cold0 None (s_root sh)) as (c & -> & Hc).
  { apply Forall_elem. intros f Hf. rewrite elem_of_reverse in Hf.
    destruct (proj1 (Forall_elem _ _) Hsh f Hf) as (ids' & Hf'). split; [by eapply bulk_frame_wf|].
    exists ids'. destruct Hf' as [Hf' _]. by rewrite P1 in Hf'. }
  { done. }
  { rewrite Ha0, Hp0, !bool_decide_false; [done|set_solver|done]. }
  { done. }
  { by rewrite Ha0. }
  cbn [obind]. rewrite (Hc Ha), bool_decide_true by done. cbn [assert_true obind].
  destruct (ack_ready g Hr Hl) as (g' & Hg & Hr' & Hh' & He). fold sh in Hg, He. rewrite Hg.
  cbn [assert_true obind]. eexists _, _. split; [done|]. rewrite He, Hh'.
  assert (receiver_inv (run_frames cold0 (FBulk <$> reverse frames))) as Hinv by (by apply run_frames_inv).
  split_and!; [done| | |done|done].
  - split; cbn [with_base s_base_root s_root s_session_id s_ids]; rewrite ?P1; [done|by rewrite Hids|done|done].
  - intros x Hx. apply (ho_own _ _ _ Hh) in Hx. rewrite Hids, <-Hi in Hx. apply contains_true.
    destruct (proj2 Hinv sid x Hx) as [|Hx']; [done|]. rewrite Hp in Hx'. by apply elem_of_empty in Hx'.
Qed.

Lemma ready_new filter : serving (Shim_new new filter level).
Proof.
  assert (session_entry (Shim_new new filter level) sid = SessionShim_new sid level) as He.
  { unfold session_entry. cbn. by rewrite lookup_empty. }
  split; rewrite He; [|done]. split; cbn; try done.
  intros id. split; [by intros ?%contains_true%is_Some_None|by intros ?%not_elem_of_nil].
Qed.

(** A receiver that is synchronised with the log rebuilds its blocks. *)
Lemma synced_blocks sh h r bs :
  synced sh h r → receiver_inv r → s_ids sh = (block_id <$> bs) → Forall block_wf bs →
  reconstruct (r_store r) (s_session_id sh) = bs ∨ blake3_collision.
Proof.
  intros [_ I _ P] Hinv Hids Hwf. apply same_ids; [apply reconstruct_wf, Hinv|done|].
  pose proof (no_pending_complete r (s_session_id sh) Hinv P) as Hc. unfold complete in Hc.
  by rewrite Hc, I.
Qed.

Lemma concat_part {A} (l : list A) ls : l ∈ ls → zlen l ≤ zlen (concat ls).
Proof.
  induction 1 as [l ls|l l' ls _ IH]; cbn [concat]; rewrite zlen_app.
  - pose proof (zlen_nonneg (concat ls)). lia.
  - pose proof (zlen_nonneg l'). lia.
Qed.

Lemma resume_synced g cold bs :
  serving g → synced (session_entry g sid) (g_host g) cold → mirrored (g_host g) cold → receiver_inv cold →
  Forall transferable bs → zlen bs ≤ MAX_FRAME_COUNT →
  ∃ g' cold', resume isa' sid g cold bs = Ok (g', cold') ∧ serving g' ∧
    synced (session_entry g' sid) (g_host g') cold' ∧ receiver_inv cold' ∧
    s_ids (session_entry g' sid) = s_ids (session_entry g sid) ++ (block_id <$> bs).
Proof.
  intros Hr Hs Hm Hi Hb Hn. unfold resume. pose proof (exchange g cold bs Hr Hs Hm Hb Hn) as Hx.
  destruct (ingest g sid bs) as [g1 f].
  destruct Hx as (cold' & g2 & -> & H1 & Hses & H2 & Hr2 & Hs2 & _ & Hids). cbn [obind].
  pose proof (handle_frame_inv cold (FAppend f) Hi) as Hi'. rewrite H1 in *.
  cbn [expect obind ack_root fst] in *. rewrite Hses, bool_decide_true by done. cbn [assert_true obind].
  rewrite H2. by eexists _, _.
Qed.

Lemma steady_from_new filter turns :
  Forall (λ bs, Forall transferable bs) turns → zlen (concat turns) ≤ MAX_FRAME_COUNT →
  ∃ g r, steady_state isa' sid (Shim_new new filter level) (Receiver_new new) turns = Ok (g, r) ∧
    serving g ∧ synced (session_entry g sid) (g_host g) r ∧ receiver_inv r ∧
    s_ids (session_entry g sid) = (block_id <$> concat turns).
Proof.
  intros Ht Hn. set (g0 := Shim_new new filter level).
  assert (session_entry g0 sid = SessionShim_new sid level) as He0.
  { unfold session_entry. cbn. by rewrite lookup_empty. }
  destruct (steady_state_synced turns g0 (Receiver_new new)) as (g & r & H & ? & ? & ? & Hids).
  - apply ready_new.
  - rewrite He0. by split.
  - by intros id ?%contains_true%is_Some_None.
  - by apply Receiver_new_inv.
  - apply Forall_elem. intros bs Hbs. split; [by apply (proj1 (Forall_elem _ _) Ht)|].
    pose proof (concat_part bs turns Hbs). lia.
  - rewrite He0 in Hids. by exists g, r.
Qed.

End Takeover.

(** ** The program's own turns *)

Module FailoverWitness.
Import Toy ToyZstd EncoderWitness.
#[local] Instance codec : Codec := cached_codec toy_compressor.
#[local] Instance codec_laws : CodecLaws := cached_codec_laws toy_compressor eq_refl.

Definition session_id : Z := 0x000A11CE0001.

Lemma session_id_u128 : u128 session_id. Proof. by vm_compute. Qed.

(** [transferable], decided. *)
Definition transferable_b (level : Z) (b : Block) : bool :=
  bool_decide (block_wf b) && (zlen (payload b) + 18 <=? MAX_BLOCK_PAYLOAD_BYTES) &&
  match codec_compress APPEND_LEVEL (canonical_bytes b), codec_compress level (canonical_bytes b) with
  | Ok _, Ok z => 4 + zlen z <=? 1024 * 1024
  | _, _ => false
  end.

Lemma transferable_b_spec level b : transferable_b level b = true → transferable level b.
Proof.
  unfold transferable_b, transferable, sendable, compressible, fits_record.
  intros [[Hwf%bool_decide_eq_true Hp%Z.leb_le]%andb_prop Hz]%andb_prop.
  destruct (codec_compress APPEND_LEVEL _) as [z1|?|]; [|done..].
  destruct (codec_compress level _) as [z2|?|]; [|done..]. apply Z.leb_le in Hz. eauto 8.
Qed.

Lemma turns_checked :
  forallb (forallb (transferable_b 19)) (make_turns ++ make_turns ++ [resume_turn]) = true.
Proof. vm_compute. reflexivity. Qed.

Lemma turns_transferable :
  Forall (λ bs, Forall (transferable 19) bs) (make_turns ++ make_turns ++ [resume_turn]).
Proof.
  apply Forall_elem. intros bs Hbs. apply Forall_elem. intros b Hb. apply transferable_b_spec.
  pose proof (proj1 (forallb_forall _ _) turns_checked bs (proj1 (list_elem_of_In _ _) Hbs)) as H.
  exact (proj1 (forallb_forall _ _) H b (proj1 (list_elem_of_In _ _) Hb)).
Qed.

Lemma turns_bounded :
  zlen (concat make_turns ++ concat make_turns) ≤ MAX_FRAME_COUNT ∧ zlen resume_turn ≤ MAX_FRAME_COUNT.
Proof. by vm_compute. Qed.

Lemma turns_nonempty : concat make_turns ++ concat make_turns ≠ [].
Proof. intros H. apply (f_equal length) in H. vm_compute in H. discriminate H. Qed.

End FailoverWitness.
