(* ===== verification/Sidecar.v ===== *)
(** * Sidecar: the HTTP front of the receiver ([sidecar/src/lib.rs])

    The chat endpoint decodes an envelope, applies its APPEND frame, flushes
    the WAL, rebuilds the conversation as one JSON request and forwards it; the
    frame endpoint speaks the bare protocol.  A handler is a program of the
    monad [handler]: the sidecar's state, and an early response.  Each line of a
    handler is one critical section of the code; handlers of different requests
    may interleave between lines. *)

From stdpp Require Import pretty.
From S2P Require Import Prelude Interfaces Block Merkle Frame Wal Store Compress FountainSig.
From S2P Require Import Receiver Web.

Definition PROTOCOL_VERSION : Z := 1.
Definition MAGIC : bytes := ascii "DLR1".
Definition MAX_METADATA_BYTES : Z := 2 * 1024 * 1024.
Definition MAX_REQUEST_BYTES : Z := 64 * 1024 * 1024.
Definition PROJECTION_CHUNK_BYTES : Z := 64 * 1024.
Definition PROJECTION_CACHE_JSON_BYTES : Z := 256 * 1024 * 1024.
Definition PROJECTION_CACHE_SESSIONS : Z := 64.

Definition CONTENT_TYPE : bytes := ascii "application/vnd.dlr.chat+binary; version=1".
Definition FRAME_CONTENT_TYPE : bytes := ascii "application/vnd.dlr.frame+binary; version=1".
Definition ACK_ROOT_HEADER : string := "x-dlr-ack-root".
Definition CURRENT_ROOT_HEADER : string := "x-dlr-current-root".
Definition SIDECAR_TOKEN_HEADER : string := "x-dlr-sidecar-token".

(** ** Errors *)

Inductive SidecarError : Type :=
| Envelope (msg : string)
| Metadata (msg : string)
| SFrame (msg : string)
| SReceiver (e : ReceiverError)
| RequestNotObject
| MessagesInMetadata
| InvalidMessage (index : Z)
| RequestInFlight
| InvalidAckHeader
| UnexpectedAckRoot
| UnexpectedFrame
| HttpStatus (status : Z) (message : string)
| Upstream (msg : string)
| Durability (e : io_error).

(** [{:#x}] and [{}] of a [u8], [{:?}] of a byte array. *)
Definition show_hex (b : byte) : string :=
  let n := byte.unsigned b in
  (if (n <? 16)%Z then "0x" ++ hex_digit n else "0x" ++ hex_u8 b)%string.
Definition show_u8 (b : byte) : string := show_usize (byte.unsigned b).
Definition show_array (l : bytes) : string :=
  ("[" ++ String.concat ", " (show_u8 <$> l) ++ "]")%string.

Definition FrameError_to_string (e : FrameError) : string :=
  match e with
  | Truncated => "frame truncated"
  | UnknownTag tag => "unknown frame tag " ++ show_hex tag
  | UnknownKind marker => "unknown block kind " ++ show_u8 marker
  | TooLarge n => "frame too large: " ++ show_usize n ++ " bytes"
  | Frame.MissingRef => "referenced block id not present"
  end%string.

Definition ReceiverError_to_string (e : ReceiverError) : string :=
  match e with
  | RFountain msg => "fountain: " ++ msg
  | RCompress msg => "compress: " ++ msg
  | RFrame msg => "frame: " ++ msg
  | MissingRef => "referenced block id not in store"
  | NoSession sid => "session " ++ show_usize sid ++ " not found"
  | ColdStartInProgress sid =>
      "session " ++ show_usize sid ++ " cold start in progress; bulk transfer not yet complete"
  | BaseRootMismatch sid client current =>
      "session " ++ show_usize sid ++ " base root mismatch: client " ++ show_array client
        ++ ", receiver " ++ show_array current
  end%string.

Definition SidecarError_to_string (e : SidecarError) : string :=
  match e with
  | Envelope msg => "invalid DLR envelope: " ++ msg
  | Metadata msg => "invalid request metadata: " ++ msg
  | SFrame msg => "invalid DLR frame: " ++ msg
  | SReceiver e => "receiver: " ++ ReceiverError_to_string e
  | RequestNotObject => "request metadata must be a JSON object"
  | MessagesInMetadata => "request metadata must not contain messages"
  | InvalidMessage i => "session block " ++ show_usize i ++ " is not a valid OpenAI message object"
  | RequestInFlight => "a prepared chat append is already awaiting an ACK"
  | InvalidAckHeader => "invalid x-dlr-ack-root header"
  | UnexpectedAckRoot => "sidecar ACK root did not match the prepared request"
  | UnexpectedFrame => "unexpected DLR frame during synchronization"
  | HttpStatus status msg => "sidecar returned HTTP " ++ show_usize status ++ ": " ++ msg
  | Upstream msg => "upstream transport: " ++ msg
  | Durability e => "durability: " ++ io_msg e
  end%string.

(** ** Roots in headers *)

Definition HEX : bytes := ascii "0123456789abcdef".

Definition hex_of (n : Z) : byte := default Byte.x00 (HEX !! Z.to_nat n).

Definition root_hex (root : MerkleRoot) : bytes :=
  concat ((λ b, [hex_of (Z.shiftr (byte.unsigned b) 4); hex_of (Z.land (byte.unsigned b) 15)]) <$> root).

Definition hex_nibble (value : byte) : option Z :=
  let v := byte.unsigned value in
  if (48 <=? v) && (v <=? 57) then Some (v - 48)
  else if (97 <=? v) && (v <=? 102) then Some (v - 97 + 10)
  else if (65 <=? v) && (v <=? 70) then Some (v - 65 + 10)
  else None.

(** The pairs of [as_chunks::<2>]. *)
Fixpoint parse_pairs (s : bytes) : option bytes :=
  match s with
  | hi :: lo :: s' =>
      h ← hex_nibble hi; l ← hex_nibble lo; rest ← parse_pairs s';
      Some (byte.of_Z (Z.lor (wrap 8 (Z.shiftl h 4)) l) :: rest)
  | _ => Some []
  end.

Definition parse_root_hex (value : bytes) : option MerkleRoot :=
  if negb (zlen value =? 64) then None else parse_pairs value.

(** ** Responses *)

Inductive RespBody : Type :=
| BEmpty
| BBytes (b : bytes)
| BError (message : string)
| BStatus (status : string)
| BStream (chunks : list (string + bytes)).

Record Response : Type := mkResponse {
  rsp_status : Z;
  rsp_headers : HeaderMap;
  rsp_body : RespBody
}.

Definition JSON_TYPE : HeaderMap := [("content-type", ascii "application/json")].

Definition error_response (status : Z) (message : string) : Response :=
  mkResponse status JSON_TYPE (BError message).

Definition healthz : Response := mkResponse 200 JSON_TYPE (BStatus "ok").

Definition constant_time_eq (left right : bytes) : bool :=
  if negb (length left =? length right)%nat then false
  else foldl (λ diff ab, Z.lor diff (Z.lxor (byte.unsigned ab.1) (byte.unsigned ab.2))) 0
         (zip left right) =? 0.

Definition forwarded_request_headers : list string :=
  ["authorization"; "openai-organization"; "openai-project"; "x-subconscious-code-session-id";
   "x-subconscious-client"; "x-request-id"; "x-trace-id"; "traceparent"].

Definition is_hop_by_hop_response_header (name : string) : bool :=
  bool_decide (name ∈ ["connection"; "keep-alive"; "proxy-authenticate"; "proxy-authorization"; "te";
    "trailer"; "transfer-encoding"; "upgrade"; "content-length"; ACK_ROOT_HEADER; CURRENT_ROOT_HEADER]).

(** [,"messages":[] *)
Definition MESSAGES_OPEN : bytes := ascii "," ++ Byte.x22 :: ascii "messages" ++ Byte.x22 :: ascii ":[".

(** ** The projection cache *)

Record CachedChatProjection : Type := mkProjection {
  cp_root : MerkleRoot;
  cp_message_count : Z;
  cp_chunks : list bytes;
  cp_json_bytes : Z
}.

Record ChatProjectionCache : Type := mkCache {
  entries : gmap Z CachedChatProjection;
  lru : list Z;
  cache_json_bytes : Z
}.

Definition cache_default : ChatProjectionCache := mkCache ∅ [] 0.

Definition cache_touch (c : ChatProjectionCache) (sid : Z) : ChatProjectionCache :=
  mkCache (entries c) (filter (λ id, id ≠ sid) (lru c) ++ [sid]) (cache_json_bytes c).

Definition cache_get (c : ChatProjectionCache) (sid : Z) (root : MerkleRoot)
    : ChatProjectionCache * option CachedChatProjection :=
  match entries c !! sid with
  | Some p => if bool_decide (cp_root p = root) then (cache_touch c sid, Some p) else (c, None)
  | None => (c, None)
  end.

Definition cache_remove (c : ChatProjectionCache) (sid : Z) : ChatProjectionCache :=
  let jb := match entries c !! sid with
            | Some p => sat_sub (cache_json_bytes c) (cp_json_bytes p)
            | None => cache_json_bytes c
            end in
  mkCache (delete sid (entries c)) (filter (λ id, id ≠ sid) (lru c)) jb.

(** The eviction loop of [insert]; it pops one id per round. *)
Fixpoint cache_evict (need : Z) (es : gmap Z CachedChatProjection) (jb : Z) (lru : list Z)
    : ChatProjectionCache :=
  if negb (bool_decide (es = ∅)) &&
     ((PROJECTION_CACHE_SESSIONS <=? Z.of_nat (size es)) ||
      (PROJECTION_CACHE_JSON_BYTES <? sat_add jb need))
  then match lru with
       | [] => mkCache es [] jb
       | oldest :: lru' =>
           match es !! oldest with
           | Some p => cache_evict need (delete oldest es) (sat_sub jb (cp_json_bytes p)) lru'
           | None => cache_evict need es jb lru'
           end
       end
  else mkCache es lru jb.

Definition cache_insert (c : ChatProjectionCache) (sid : Z) (p : CachedChatProjection)
    : ChatProjectionCache :=
  let c := cache_remove c sid in
  let c := cache_evict (cp_json_bytes p) (entries c) (cache_json_bytes c) (lru c) in
  mkCache (<[sid := p]> (entries c)) (lru c ++ [sid]) (sat_add (cache_json_bytes c) (cp_json_bytes p)).

(** ** Rendering the messages *)

(** The loop state of [append_projection_payloads]. *)
Record Render : Type := mkRender {
  rd_chunks : list bytes;
  rd_count : Z;
  rd_bytes : Z;
  rd_pending : bytes
}.

Definition render1 (s : Render) (payload : bytes) : Render :=
  let comma := bool_decide (0 < rd_count s) in
  let comma_bytes := if comma then 1 else 0 in
  let json_bytes := sat_add (sat_add (rd_bytes s) comma_bytes) (zlen payload) in
  let combined_len := sat_add comma_bytes (zlen payload) in
  let sep := if comma then ascii "," else [] in
  let count := sat_add (rd_count s) 1 in
  if combined_len <=? PROJECTION_CHUNK_BYTES then
    let flushed := PROJECTION_CHUNK_BYTES <? sat_add (zlen (rd_pending s)) combined_len in
    let chunks := if flushed then rd_chunks s ++ [rd_pending s] else rd_chunks s in
    let pend := if flushed then [] else rd_pending s in
    mkRender chunks count json_bytes (pend ++ sep ++ payload)
  else
    let chunks := if bool_decide (rd_pending s = []) then rd_chunks s
                  else rd_chunks s ++ [rd_pending s] in
    let chunks := if comma then chunks ++ [ascii ","] else chunks in
    mkRender (chunks ++ [payload]) count json_bytes [].

Definition append_projection_payloads (chunks : list bytes) (count json_bytes : Z) (payloads : list bytes)
    : list bytes * Z * Z :=
  let s := foldl render1 (mkRender chunks count json_bytes []) payloads in
  let chunks := if bool_decide (rd_pending s = []) then rd_chunks s else rd_chunks s ++ [rd_pending s] in
  (chunks, rd_count s, rd_bytes s).

Definition frame_session_id (f : Frame) : Z :=
  match f with
  | FAppend a => ap_session_id a
  | FResync r => rs_session_id r
  | FBulk b => bk_session_id b
  | FAck a => ack_session_id a
  | FMissing m => ms_session_id m
  end.

(** ** The server *)

Section Sidecar.
Context `{B3 : Blake3} `{CC : Codec} `{FC : FountainCode} `{SJ : SerdeJson} `{HT : HttpText}.

(** [chat_projections] is behind a mutex; the receiver has its own locks. *)
Record SidecarState : Type := mkSidecar {
  sc_receiver : Receiver;
  sc_upstream_url : bytes;
  sc_ingress_token : option bytes;
  sc_sync_wal : bool;
  sc_cache : ChatProjectionCache
}.

Definition with_receiver (st : SidecarState) (r : Receiver) : SidecarState :=
  mkSidecar r (sc_upstream_url st) (sc_ingress_token st) (sc_sync_wal st) (sc_cache st).
Definition with_cache (st : SidecarState) (c : ChatProjectionCache) : SidecarState :=
  mkSidecar (sc_receiver st) (sc_upstream_url st) (sc_ingress_token st) (sc_sync_wal st) c.

(** [str::trim_end_matches('/')]. *)
Fixpoint trim_slashes_rev (s : bytes) : bytes :=
  match s with
  | b :: s' => if Byte.eqb b Byte.x2f then trim_slashes_rev s' else s
  | [] => []
  end.
Definition trim_slashes (s : bytes) : bytes := rev (trim_slashes_rev (rev s)).

Definition SidecarState_new (receiver : Receiver) (upstream_url : bytes) (token : option bytes)
    (sync_wal : bool) : SidecarState :=
  mkSidecar receiver (trim_slashes upstream_url) token sync_wal cache_default.

(** *** Envelopes *)

Record ChatEnvelope : Type := mkEnvelope { env_request : Value; env_frame : bytes }.

Definition encode_parts (metadata frame : bytes) : outcome SidecarError bytes :=
  if MAX_METADATA_BYTES <? zlen metadata then Err (Envelope "metadata exceeds 2 MiB") else
  let? total := ok_or (n ← checked_add 4 2; n ← checked_add n 4; n ← checked_add n (zlen metadata);
                       checked_add n (zlen frame)) (Envelope "length overflow") in
  if MAX_REQUEST_BYTES <? total then Err (Envelope "request exceeds 64 MiB") else
  Ok (MAGIC ++ to_le 2 PROTOCOL_VERSION ++ to_le 4 (zlen metadata) ++ metadata ++ frame).

Definition ChatEnvelope_decode (body : bytes) : outcome SidecarError ChatEnvelope :=
  let? bad := (if zlen body <? 10 then Ok true
               else let? m := slice body 0 4 in Ok (negb (bool_decide (m = MAGIC)))) in
  if (bad : bool) then Err (Envelope "bad magic or truncated header") else
  let? v0 := index body 4 in
  let? v1 := index body 5 in
  if negb (from_le [v0; v1] =? PROTOCOL_VERSION) then Err (Envelope "unsupported protocol version") else
  let? len_bytes := slice body 6 10 in
  let metadata_len := from_le len_bytes in
  if MAX_METADATA_BYTES <? metadata_len then Err (Envelope "metadata exceeds 2 MiB") else
  let? frame_start := ok_or (checked_add 10 metadata_len) (Envelope "length overflow") in
  if zlen body <=? frame_start then Err (Envelope "missing frame") else
  let? meta := slice body 10 frame_start in
  let? request := of_result Metadata (metadata_from_slice meta) in
  let? frame := slice body frame_start (zlen body) in
  Ok (mkEnvelope request frame).

(** *** Validation *)

Definition validate_message_object (m : list (bytes * Value)) (index : Z) : outcome SidecarError unit :=
  match map_get m (ascii "role") ≫= as_str with
  | None => Err (InvalidMessage index)
  | Some _ => Ok tt
  end.

Definition validate_request_value (request : Value) : outcome SidecarError unit :=
  let? m := ok_or (as_object request) RequestNotObject in
  if contains_key m (ascii "messages") then Err MessagesInMetadata else Ok tt.

Definition validate_serialized_message (payload : bytes) (index : Z) : outcome SidecarError unit :=
  match role_from_slice payload with
  | inr _ => Ok tt
  | inl _ => Err (InvalidMessage index)
  end.

(** The block of one entry of the frame, and the inline blocks seen so far. *)
Definition chat_block (store : ContentStore) (inline : gmap BlockId Block) (fb : FrameBlock)
    : outcome SidecarError (Block * gmap BlockId Block) :=
  match fb with
  | Inline wire_block =>
      let? canonical := map_err (λ e, SFrame (CompressError_to_string e))
                          (codec_decompress (payload wire_block)) in
      let? '(block, id) := map_err SFrame (from_canonical_owned canonical) in
      Ok (block, <[id := block]> inline)
  | Ref id =>
      match blocks store !! id with
      | Some b => Ok (b, inline)
      | None => let? b := ok_or (inline !! id) (SReceiver MissingRef) in Ok (b, inline)
      end
  end.

Fixpoint validate_chat_blocks (store : ContentStore) (inline : gmap BlockId Block) (index : Z)
    (fbs : list FrameBlock) : outcome SidecarError unit :=
  match fbs with
  | [] => Ok tt
  | fb :: fbs' =>
      let? '(block, inline) := chat_block store inline fb in
      let? value := of_result Metadata (value_from_slice (payload block)) in
      let? object := ok_or (as_object value) (InvalidMessage index) in
      let? _ := validate_message_object object index in
      validate_chat_blocks store inline (index + 1) fbs'
  end.

Definition validate_chat_append (r : Receiver) (frame : AppendFrame) : outcome SidecarError unit :=
  validate_chat_blocks (r_store r) ∅ 0 (ap_blocks frame).

Definition authorized (st : SidecarState) (headers : HeaderMap) : bool :=
  match sc_ingress_token st with
  | None => true
  | Some expected =>
      match header_get headers SIDECAR_TOKEN_HEADER ≫= hv_to_str with
      | None => false
      | Some actual => constant_time_eq actual expected
      end
  end.

(** *** Projections *)

Fixpoint validate_payloads (index : Z) (bs : list Block) : outcome SidecarError (list bytes) :=
  match bs with
  | [] => Ok []
  | b :: bs' =>
      let? _ := validate_serialized_message (payload b) index in
      let? rest := validate_payloads (index + 1) bs' in
      Ok (payload b :: rest)
  end.

Definition extend_or_reconstruct_projection (r : Receiver) (sid : Z) (root : MerkleRoot)
    (cached : option CachedChatProjection) : outcome SidecarError CachedChatProjection :=
  let session_len := session_len (r_store r) sid in
  match opt_filter (λ p, cp_message_count p <=? session_len) cached with
  | Some p =>
      let start := cp_message_count p in
      let? additions := map_err Envelope (Receiver_reconstruct_range r sid start session_len) in
      if negb (zlen additions =? sat_sub session_len start)
      then Err (Envelope "session projection is incomplete") else
      match additions with
      | [] => Ok (mkProjection root start (cp_chunks p) (cp_json_bytes p))
      | _ =>
          let '(chunks, count, json_bytes) :=
            append_projection_payloads (cp_chunks p) start (cp_json_bytes p) (payload <$> additions) in
          Ok (mkProjection root count chunks json_bytes)
      end
  | None =>
      let? payloads := validate_payloads 0 (Receiver_reconstruct r sid) in
      let '(chunks, count, json_bytes) := append_projection_payloads [] 0 0 payloads in
      Ok (mkProjection root count chunks json_bytes)
  end.

(** The chunks of the upstream body, its announced length, the projection. *)
Definition reconstruct_request_body (r : Receiver) (sid : Z) (request : Value) (root : MerkleRoot)
    (cached : option CachedChatProjection) : outcome SidecarError (list bytes * Z * CachedChatProjection) :=
  let? _ := validate_request_value request in
  let? json := of_result Metadata (to_vec request) in
  let '(prefix, popped) := vec_pop json in
  if negb (bool_decide (popped = Some Byte.x7d)) then Err RequestNotObject else
  let prefix := prefix ++ MESSAGES_OPEN in
  let? projection := extend_or_reconstruct_projection r sid root cached in
  let total := sat_add (sat_add (zlen prefix) (cp_json_bytes projection)) 2 in
  Ok ([prefix] ++ cp_chunks projection ++ [ascii "]}"], total, projection).

(** *** Handlers *)

(** A handler step: the next state, and a value or the early response. *)
Definition handler (A : Type) : Type := SidecarState → SidecarState * outcome Response A.

Definition hret {A} (a : A) : handler A := λ st, (st, Ok a).
Definition hbind {A B} (m : handler A) (k : A → handler B) : handler B := λ st,
  match m st with
  | (st, Ok a) => k a st
  | (st, Err e) => (st, Err e)
  | (st, Panic) => (st, Panic)
  end.

#[local] Notation "'do!' x ':=' c 'in' k" := (hbind c (fun x => k))
  (at level 10, x name, c at level 200, k at level 200).
#[local] Notation "'do!' ''' p ':=' c 'in' k" := (hbind c (fun x => match x with p => k end))
  (at level 10, p strict pattern, c at level 200, k at level 200).

(** Leave with [to_response e] on an error. *)
Definition respond {E A} (to_response : E → Response) (m : SidecarState → outcome E A) : handler A :=
  λ st, (st, map_err to_response (m st)).

Definition bad_request (e : SidecarError) : Response := error_response 400 (SidecarError_to_string e).

Definition insert_root_header (h : HeaderMap) (name : string) (root : MerkleRoot) : HeaderMap :=
  match hv_from_str (root_hex root) with
  | Some value => header_insert h name value
  | None => h
  end.

Definition with_root_header (rsp : Response) (name : string) (root : MerkleRoot) : Response :=
  mkResponse (rsp_status rsp) (insert_root_header (rsp_headers rsp) name root) (rsp_body rsp).

Definition receiver_error_response (e : ReceiverError) : Response :=
  match e with
  | BaseRootMismatch _ _ current =>
      with_root_header (error_response 409 (ReceiverError_to_string e)) CURRENT_ROOT_HEADER current
  | ColdStartInProgress _ => error_response 409 (ReceiverError_to_string e)
  | MissingRef => error_response 409 (ReceiverError_to_string e)
  | _ => error_response 400 (ReceiverError_to_string e)
  end.

Definition authenticate (headers : HeaderMap) : handler unit :=
  respond (λ _ : unit, error_response 401 "invalid sidecar token")
    (λ st, if authorized st headers then Ok tt else Err tt).

(** [state.receiver.store().flush_wal(sync)]. *)
Definition flush_store (sync : SidecarState → bool) (fail : io_error → Response) : handler unit := λ st,
  let '(store, res) := flush_wal (r_store (sc_receiver st)) (sync st) in
  (with_receiver st (with_store (sc_receiver st) store), map_err fail res).

Definition flush_failed (e : io_error) : Response := error_response 500 (io_msg e).

Definition readyz (st : SidecarState) : SidecarState * outcome Response Response :=
  (do! _ := flush_store (λ _, false) (λ _, mkResponse 503 JSON_TYPE (BStatus "not_ready")) in
   hret (mkResponse 200 JSON_TYPE (BStatus "ready"))) st.

(** The bare protocol endpoint. *)
Definition forget_projection (sid : Z) : handler unit := λ st,
  (with_cache st (cache_remove (sc_cache st) sid), Ok tt).

Definition receive_frame (f : Frame) : handler (option Frame) := λ st,
  let '(r, res) := handle_frame (sc_receiver st) f in
  (with_receiver st r, map_err receiver_error_response res).

Definition post_frame (headers : HeaderMap) (body : bytes) : handler Response :=
  do! _ := authenticate headers in
  do! frame := respond (λ e, error_response 400 (FrameError_to_string e))
                 (λ _, decode_frame_bytes body) in
  do! _ := forget_projection (frame_session_id frame) in
  do! response := receive_frame frame in
  do! _ := flush_store sc_sync_wal flush_failed in
  hret (match response with
        | Some f => mkResponse 200 [("content-type", FRAME_CONTENT_TYPE)] (BBytes (encode_frame f))
        | None => mkResponse 204 [] BEmpty
        end).

(** The chat endpoint, up to the upstream request. *)
Definition admit_chat (headers : HeaderMap) (body : bytes) : handler (Value * AppendFrame) :=
  do! _ := authenticate headers in
  do! envelope := respond bad_request (λ _, ChatEnvelope_decode body) in
  do! _ := respond bad_request (λ _, validate_request_value (env_request envelope)) in
  do! frame := respond (error_response 400)
                 (λ _, let? f := map_err FrameError_to_string (decode_frame_bytes (env_frame envelope)) in
                       match f with
                       | FAppend f => Ok f
                       | _ => Err "chat endpoint requires APPEND"
                       end) in
  do! _ := respond bad_request (λ st, validate_chat_append (sc_receiver st) frame) in
  hret (env_request envelope, frame).

Definition cached_projection (sid : Z) (root : MerkleRoot) : handler (option CachedChatProjection) := λ st,
  let '(c, p) := cache_get (sc_cache st) sid root in (with_cache st c, Ok p).

Definition receive_append (frame : AppendFrame) : handler AckFrame := λ st,
  let '(r, res) := handle_append (sc_receiver st) frame in
  (with_receiver st r, map_err receiver_error_response res).

Definition store_projection (sid : Z) (p : CachedChatProjection) : handler unit := λ st,
  (with_cache st (cache_insert (sc_cache st) sid p), Ok tt).

Record OutRequest : Type := mkOut {
  out_url : bytes;
  out_headers : HeaderMap;
  out_body : list bytes
}.

Definition forwarded (headers : HeaderMap) : HeaderMap :=
  omap (λ name, (λ v, (name, v)) <$> header_get headers name) forwarded_request_headers.

Definition out_request (st : SidecarState) (headers : HeaderMap) (chunks : list bytes) (len : Z)
    : OutRequest :=
  mkOut (sc_upstream_url st ++ ascii "/v1/chat/completions")
    ([("content-type", ascii "application/json");
      ("content-length", ascii (show_usize len))] ++ forwarded headers) chunks.

(** From the rebuilt conversation on: the part after the append. *)
Definition render_chat (sid : Z) (request : Value) (root : MerkleRoot)
    (cached : option CachedChatProjection) : handler (list bytes * Z) :=
  do! '(chunks, len, p) :=
    respond bad_request (λ st, reconstruct_request_body (sc_receiver st) sid request root cached) in
  do! _ := store_projection sid p in
  hret (chunks, len).

Definition chat_request (headers : HeaderMap) (body : bytes) : handler (OutRequest * AckFrame) :=
  do! '(request, frame) := admit_chat headers body in
  do! cached := cached_projection (ap_session_id frame) (ap_base_root frame) in
  do! ack := receive_append frame in
  do! _ := flush_store sc_sync_wal flush_failed in
  do! '(chunks, len) := render_chat (ap_session_id frame) request (ack_root ack) cached in
  do! out := respond id (λ st, Ok (out_request st headers chunks len)) in
  hret (out, ack).

(** The upstream's answer. *)
Record UpResponse : Type := mkUp {
  up_status : Z;
  up_headers : HeaderMap;
  up_body : list (string + bytes)
}.

Definition proxy_response (u : UpResponse) (ack : AckFrame) : Response :=
  let status := if (100 <=? up_status u) && (up_status u <=? 999) then up_status u else 502 in
  let kept := filter (λ nv, is_hop_by_hop_response_header nv.1 = false) (up_headers u) in
  mkResponse status (insert_root_header (foldl (λ h nv, header_append h nv.1 nv.2) [] kept)
                       ACK_ROOT_HEADER (ack_root ack))
    (BStream (up_body u)).

(** The whole handler: [send] is the HTTP client's call of the upstream.  The
    request it sent, if any, is returned too. *)
Definition chat_completions (send : OutRequest → string + UpResponse) (headers : HeaderMap)
    (body : bytes) (st : SidecarState) : SidecarState * outcome Response Response * option OutRequest :=
  match chat_request headers body st with
  | (st, Ok (out, ack)) =>
      (st, Ok (match send out with
               | inr u => proxy_response u ack
               | inl e => with_root_header (error_response 502 e) ACK_ROOT_HEADER (ack_root ack)
               end), Some out)
  | (st, Err rsp) => (st, Ok rsp, None)
  | (st, Panic) => (st, Panic, None)
  end.

(** *** Start-up ([main.rs]) *)

(** The environment variable's value, if it is not empty, is the token. *)
Definition ingress_token (var : option bytes) : option bytes := opt_filter (λ v, negb (bool_decide (v = []))) var.

(** Refuse to listen beyond loopback without a token. *)
Definition may_bind (loopback : bool) (token : option bytes) : bool :=
  loopback || bool_decide (is_Some token).
End Sidecar.
