(* ===== verification/SidecarCorrect.v ===== *)
(** * Correctness of the sidecar

    Round trips of roots and envelopes, the projection as a rendering of the
    log, the cache, and the two endpoints. *)

From S2P Require Import Prelude Interfaces Block Merkle Frame Wal Store Recovery Compress FountainSig.
From S2P Require Import Receiver Web Sidecar.

(** ** Roots in headers *)

Definition hex_ok (b : byte) : bool :=
  let hi := hex_of (Z.shiftr (byte.unsigned b) 4) in
  let lo := hex_of (Z.land (byte.unsigned b) 15) in
  match hex_nibble hi, hex_nibble lo with
  | Some h, Some l =>
      Byte.eqb (byte.of_Z (Z.lor (wrap 8 (Z.shiftl h 4)) l)) b && visible hi && visible lo
  | _, _ => false
  end.

Lemma hex_ok_all b : hex_ok b = true.
Proof. by destruct b; vm_compute. Qed.

Lemma hex_pair b :
  ∃ h l, hex_nibble (hex_of (Z.shiftr (byte.unsigned b) 4)) = Some h ∧
    hex_nibble (hex_of (Z.land (byte.unsigned b) 15)) = Some l ∧
    byte.of_Z (Z.lor (wrap 8 (Z.shiftl h 4)) l) = b ∧
    visible (hex_of (Z.shiftr (byte.unsigned b) 4)) = true ∧
    visible (hex_of (Z.land (byte.unsigned b) 15)) = true.
Proof.
  pose proof (hex_ok_all b) as H. unfold hex_ok in H.
  destruct (hex_nibble _) as [h|]; [|done]. destruct (hex_nibble _) as [l|]; [|done].
  apply andb_prop in H as [[H1 H2]%andb_prop H3]. exists h, l. split_and!; try done.
  by apply Byte.byte_dec_bl.
Qed.

Lemma parse_root_pairs root : parse_pairs (root_hex root) = Some root.
Proof.
  induction root as [|b root IH]; [done|].
  change (root_hex (b :: root)) with
    (hex_of (Z.shiftr (byte.unsigned b) 4) :: hex_of (Z.land (byte.unsigned b) 15) :: root_hex root).
  destruct (hex_pair b) as (h & l & Hh & Hl & Hb & _).
  cbn [parse_pairs]. rewrite Hh, Hl, IH. simpl. by rewrite Hb.
Qed.

Lemma root_hex_visible root : Forall (λ b, visible b = true) (root_hex root).
Proof.
  induction root as [|b root IH]; [by constructor|].
  destruct (hex_pair b) as (h & l & _ & _ & _ & H1 & H2). by do 2 (constructor; [done|]).
Qed.

Lemma length_root_hex root : length (root_hex root) = (2 * length root)%nat.
Proof. induction root as [|b root IH]; [done|]. cbn -[hex_of]. unfold root_hex in IH. rewrite IH. lia. Qed.

Lemma root_hex_parses root : length root = 32%nat → parse_root_hex (root_hex root) = Some root.
Proof.
  intros Hl. unfold parse_root_hex. unfold zlen. rewrite length_root_hex, Hl. apply parse_root_pairs.
Qed.

(** ** The token comparison *)

Lemma lor_zero a b : Z.lor a b = 0 ↔ a = 0 ∧ b = 0.
Proof. apply Z.lor_eq_0_iff. Qed.

Lemma diff_zero (l k : bytes) d :
  length l = length k →
  foldl (λ diff ab, Z.lor diff (Z.lxor (byte.unsigned ab.1) (byte.unsigned ab.2))) d (zip l k) = 0
  ↔ d = 0 ∧ l = k.
Proof.
  revert k d. induction l as [|a l IH]; intros [|b k] d Hl; try done.
  { simpl. naive_solver. }
  cbn [zip zip_with foldl fst snd]. rewrite IH by (simpl in Hl; lia).
  rewrite lor_zero, Z.lxor_eq_0_iff. split.
  - intros [[-> Hab%byte.unsigned_inj] ->]. by rewrite Hab.
  - intros [-> [= -> ->]]. done.
Qed.

Lemma constant_time_eq_spec l k : constant_time_eq l k = true ↔ l = k.
Proof.
  unfold constant_time_eq. destruct (Nat.eqb_spec (length l) (length k)) as [Hl|Hl]; cbn [negb].
  - rewrite Z.eqb_eq, diff_zero by done. naive_solver.
  - split; [done|]. by intros ->.
Qed.

(** ** Envelopes *)

Section Envelope.
Context `{B3 : Blake3} `{CC : Codec} `{FC : FountainCode} `{SJ : SerdeJson} `{HT : HttpText}.

Lemma encode_parts_ok meta frame body :
  encode_parts meta frame = Ok body →
  body = MAGIC ++ to_le 2 PROTOCOL_VERSION ++ to_le 4 (zlen meta) ++ meta ++ frame ∧
  zlen meta ≤ MAX_METADATA_BYTES ∧ zlen body ≤ MAX_REQUEST_BYTES.
Proof.
  unfold encode_parts. destruct (Z.ltb_spec MAX_METADATA_BYTES (zlen meta)); [done|].
  intros (t & Ht & Hb)%obind_ok_inv.
  destruct (Z.ltb_spec MAX_REQUEST_BYTES t); [done|].
  assert (body = MAGIC ++ to_le 2 PROTOCOL_VERSION ++ to_le 4 (zlen meta) ++ meta ++ frame) as -> by congruence.
  split_and!; [done|lia|].
  unfold ok_or, checked_add in Ht.
  assert (t = 10 + zlen meta + zlen frame) as ->.
  { simpl in Ht. destruct (_ <=? usize_max); [simpl in Ht|done].
    destruct (_ <=? usize_max); [simpl in Ht|done]. injection Ht. lia. }
  rewrite !zlen_app, !zlen_to_le. change (zlen MAGIC) with 4. lia.
Qed.

(** The layout decodes to the frame it carries; only the metadata can fail. *)
Lemma decode_layout meta frame :
  zlen meta ≤ MAX_METADATA_BYTES → frame ≠ [] →
  ChatEnvelope_decode (MAGIC ++ to_le 2 PROTOCOL_VERSION ++ to_le 4 (zlen meta) ++ meta ++ frame)
  = (let? request := of_result Metadata (metadata_from_slice meta) in Ok (mkEnvelope request frame)).
Proof.
  intros Hm Hf. set (body := _ ++ _ ++ _ ++ _ ++ _).
  assert (0 < zlen frame) as Hpos by (destruct frame; [done|zl]).
  assert (zlen body = 10 + zlen meta + zlen frame) as Hlen
    by (unfold body; rewrite !zlen_app, !zlen_to_le; change (zlen MAGIC) with 4; lia).
  assert (MAX_METADATA_BYTES < 2 ^ 32) as Hmax by done. pose proof (zlen_nonneg meta).
  unfold ChatEnvelope_decode.
  destruct (Z.ltb_spec (zlen body) 10); [lia|].
  rewrite slice_ok by lia. cbn [obind]. change (ztake (4 - 0) (zdrop 0 body)) with MAGIC.
  rewrite bool_decide_true by done. cbn [negb obind].
  change (index body 4) with (Ok (E := SidecarError) Byte.x01).
  change (index body 5) with (Ok (E := SidecarError) Byte.x00). cbn [obind].
  change (from_le [Byte.x01; Byte.x00] =? PROTOCOL_VERSION) with true. cbn [negb].
  rewrite slice_ok by lia. cbn [obind].
  change (zdrop 6 body) with (to_le 4 (zlen meta) ++ meta ++ frame).
  rewrite ztake_app by (by rewrite zlen_to_le). rewrite from_to_le by (simpl; lia).
  destruct (Z.ltb_spec MAX_METADATA_BYTES (zlen meta)); [lia|].
  unfold checked_add at 1. destruct (Z.leb_spec (10 + zlen meta) usize_max); [|unfold usize_max in *; lia].
  cbn [ok_or obind]. destruct (Z.leb_spec (zlen body) (10 + zlen meta)); [lia|].
  rewrite slice_ok by lia. cbn [obind].
  assert (body = (MAGIC ++ to_le 2 PROTOCOL_VERSION ++ to_le 4 (zlen meta)) ++ meta ++ frame) as ->
    by (unfold body; by rewrite <-!(assoc_L (++))).
  rewrite zdrop_app by (rewrite !zlen_app, !zlen_to_le; done). rewrite ztake_app by lia.
  destruct (metadata_from_slice meta) as [e|request]; [done|]. cbn [of_result obind]. rewrite (assoc_L (++)).
  rewrite slice_ok by (rewrite ?zlen_app, ?zlen_to_le; change (zlen MAGIC) with 4; lia). cbn [obind].
  rewrite zdrop_app by (rewrite !zlen_app, !zlen_to_le; change (zlen MAGIC) with 4; lia).
  rewrite !zlen_app, !zlen_to_le. change (zlen MAGIC) with 4.
  replace (_ - _) with (zlen frame) by lia. by rewrite ztake_all.
Qed.

Lemma envelope_decodes meta frame body request :
  encode_parts meta frame = Ok body → metadata_from_slice meta = inr request → frame ≠ [] →
  ChatEnvelope_decode body = Ok (mkEnvelope request frame).
Proof. intros (-> & Hm & _)%encode_parts_ok Hr Hf. by rewrite decode_layout, Hr. Qed.

Lemma envelope_no_panic body : no_panic (ChatEnvelope_decode body).
Proof.
  unfold no_panic, ChatEnvelope_decode. destruct (Z.ltb_spec (zlen body) 10); [done|].
  rewrite slice_ok by lia. cbn [obind]. case_bool_decide; [|done]. cbn [negb].
  destruct (index_ok (E := SidecarError) body 4) as (v0 & -> & _); [lia|].
  destruct (index_ok (E := SidecarError) body 5) as (v1 & -> & _); [lia|]. cbn [obind].
  case_match; [done|]. rewrite slice_ok by lia. cbn [obind]. case_match; [done|].
  unfold checked_add. case_match; [|done]. cbn [ok_or obind].
  destruct (Z.leb_spec (zlen body) (10 + from_le (ztake (10 - 6) (zdrop 6 body)))) as [|Hl]; [done|].
  pose proof (from_le_bound (ztake (10 - 6) (zdrop 6 body))).
  rewrite slice_ok by lia. cbn [obind].
  destruct (metadata_from_slice _); [done|]. cbn [of_result obind]. by rewrite slice_ok by lia.
Qed.
End Envelope.

(** ** The rendered messages *)

(** The contents of a JSON array, and what is added to one that has [n]. *)
Definition commas (ps : list bytes) : bytes := concat ((λ p, ascii "," ++ p) <$> ps).
Definition join (ps : list bytes) : bytes :=
  match ps with [] => [] | p :: ps' => p ++ commas ps' end.
Definition continued (n : Z) (ps : list bytes) : bytes :=
  if bool_decide (0 < n) then commas ps else join ps.

Lemma commas_app ps qs : commas (ps ++ qs) = commas ps ++ commas qs.
Proof. unfold commas. by rewrite fmap_app, concat_app. Qed.

Lemma join_app ps qs : join (ps ++ qs) = join ps ++ continued (zlen ps) qs.
Proof.
  unfold continued. destruct ps as [|p ps]; [done|].
  rewrite bool_decide_true by (rewrite zlen_cons; pose proof (zlen_nonneg ps); lia).
  simpl. by rewrite commas_app, (assoc_L (++)).
Qed.

Lemma sat_add_le a b : 0 ≤ a → 0 ≤ b → 0 ≤ sat_add a b ≤ usize_max.
Proof. unfold sat_add, usize_max. lia. Qed.

Definition rd_text (s : Render) : bytes := concat (rd_chunks s) ++ rd_pending s.

Lemma concat_snoc (ls : list bytes) l : concat (ls ++ [l]) = concat ls ++ l.
Proof. rewrite concat_app. simpl. by rewrite app_nil_r. Qed.

Lemma render1_text s p :
  rd_text (render1 s p) =
    rd_text s ++ (if bool_decide (0 < rd_count s) then ascii "," else []) ++ p ∧
  rd_count (render1 s p) = sat_add (rd_count s) 1 ∧
  rd_bytes (render1 s p) =
    sat_add (sat_add (rd_bytes s) (if bool_decide (0 < rd_count s) then 1 else 0)) (zlen p).
Proof.
  unfold render1, rd_text. destruct (_ <=? PROJECTION_CHUNK_BYTES).
  - cbn [rd_chunks rd_pending rd_count rd_bytes]. split; [|done].
    destruct (_ <? _); rewrite ?concat_snoc; simpl; by rewrite ?(assoc_L (++)).
  - cbn [rd_chunks rd_pending rd_count rd_bytes]. split; [|done]. rewrite app_nil_r, concat_snoc.
    repeat case_bool_decide; rewrite ?concat_snoc; rewrite <-?(assoc_L (++)); try done.
    + by rewrite H0.
    + by rewrite H0.
Qed.

Lemma rendered_text s ps :
  0 ≤ rd_count s ≤ usize_max → 0 ≤ rd_bytes s ≤ usize_max →
  let s' := foldl render1 s ps in
  rd_text s' = rd_text s ++ continued (rd_count s) ps ∧
  rd_count s' = Z.min (rd_count s + zlen ps) usize_max ∧
  rd_bytes s' = Z.min (rd_bytes s + zlen (continued (rd_count s) ps)) usize_max.
Proof.
  revert s. induction ps as [|p ps IH]; intros s Hc Hb.
  { cbn [foldl]. unfold continued. replace (if bool_decide _ then _ else _) with (@nil byte)
      by (by case_bool_decide). rewrite app_nil_r, zlen_nil. split_and!; [done|lia|].
    change (zlen []) with 0. lia. }
  destruct (render1_text s p) as (T & C & B). cbn [foldl].
  assert (0 < rd_count (render1 s p)) as Hpos by (rewrite C; unfold sat_add, usize_max; lia).
  destruct (IH (render1 s p)) as (T' & C' & B').
  { rewrite C. apply sat_add_le; lia. }
  { rewrite B. pose proof (zlen_nonneg p). apply sat_add_le; [|done]. case_bool_decide; apply sat_add_le; lia. }
  unfold continued in T', B'. rewrite bool_decide_true in T', B' by done.
  rewrite T', C', B', T, C, B. pose proof (zlen_nonneg ps). pose proof (zlen_nonneg p).
  pose proof (zlen_nonneg (commas ps)).
  assert (continued (rd_count s) (p :: ps) =
    (if bool_decide (0 < rd_count s) then ascii "," else []) ++ p ++ commas ps) as ->
    by (unfold continued; by case_bool_decide).
  rewrite !zlen_app, zlen_cons. split_and!.
  - by rewrite <-!(assoc_L (++)).
  - unfold sat_add, usize_max in *. lia.
  - unfold sat_add. case_bool_decide; change (zlen (ascii ",")) with 1; change (zlen []) with 0;
      unfold usize_max in *; lia.
Qed.

(** [append_projection_payloads] adds the payloads to the array, in any
    chunking, and keeps the counts exact up to saturation. *)
Lemma append_payloads_spec chunks count json_bytes ps :
  0 ≤ count ≤ usize_max → 0 ≤ json_bytes ≤ usize_max →
  let '(chunks', count', json_bytes') := append_projection_payloads chunks count json_bytes ps in
  concat chunks' = concat chunks ++ continued count ps ∧
  count' = Z.min (count + zlen ps) usize_max ∧
  json_bytes' = Z.min (json_bytes + zlen (continued count ps)) usize_max.
Proof.
  intros Hc Hb. unfold append_projection_payloads.
  destruct (rendered_text (mkRender chunks count json_bytes []) ps Hc Hb) as (T & C & B).
  set (s := foldl _ _ _) in *. cbn [rd_count rd_bytes] in *. unfold rd_text in T. cbn [rd_chunks rd_pending] in T.
  split_and!; [|done|done]. rewrite app_nil_r in T. rewrite <-T.
  case_bool_decide as Hp; [by rewrite Hp, app_nil_r|by rewrite concat_snoc].
Qed.

Definition usizes (p : CachedChatProjection) : Prop :=
  0 ≤ cp_message_count p ≤ usize_max ∧ 0 ≤ cp_json_bytes p ≤ usize_max.

(** What a projection says of a log: it renders the first [cp_message_count]
    messages of it, if the log's length is a [usize]. *)
Definition renders (s : ContentStore) (sid : Z) (p : CachedChatProjection) : Prop :=
  zlen (session_ids s sid) ≤ usize_max →
  ∃ ids1 ids2 bs, session_ids s sid = ids1 ++ ids2 ∧
    Forall2 (λ id b, blocks s !! id = Some b) ids1 bs ∧
    cp_message_count p = zlen ids1 ∧
    concat (cp_chunks p) = join (payload <$> bs) ∧
    cp_json_bytes p = Z.min (zlen (join (payload <$> bs))) usize_max.

Lemma omap_stored (m : gmap BlockId Block) ids :
  Forall (λ id, is_Some (m !! id)) ids →
  Forall2 (λ id b, m !! id = Some b) ids (omap (λ id, m !! id) ids).
Proof.
  induction 1 as [|id ids [b Hb] _ IH]; [by constructor|]. cbn. rewrite Hb. by constructor.
Qed.

Lemma omap_Forall2 (m : gmap BlockId Block) ids bs :
  Forall2 (λ id b, m !! id = Some b) ids bs → omap (λ id, m !! id) ids = bs.
Proof. induction 1 as [|id b ids bs Hb _ IH]; [done|]. cbn. by rewrite Hb, IH. Qed.

Section Projection.
Context `{B3 : Blake3} `{CC : Codec} `{FC : FountainCode} `{SJ : SerdeJson} `{HT : HttpText}.

Definition stored (s : ContentStore) (sid : Z) : Prop :=
  Forall (λ id, is_Some (blocks s !! id)) (session_ids s sid).

Lemma session_len_ids s sid : session_len s sid = zlen (session_ids s sid).
Proof. unfold session_len, session_ids. by destruct (sessions s !! sid). Qed.

Lemma range_tail r sid ids1 ids2 :
  is_Some (r_sessions r !! sid) → session_ids (r_store r) sid = ids1 ++ ids2 →
  Receiver_reconstruct_range r sid (zlen ids1) (session_len (r_store r) sid)
  = Ok (omap (λ id, blocks (r_store r) !! id) ids2).
Proof.
  intros [ss Hs] Hi. unfold Receiver_reconstruct_range. rewrite Hs, session_len_ids, Hi.
  unfold reconstruct_range. revert Hi. unfold session_ids.
  destruct (sessions (r_store r) !! sid) as [log|]; cbn [fmap option_fmap option_map default].
  - intros E. change (ids log = ids1 ++ ids2) in E. rewrite E, zlen_app. pose proof (zlen_nonneg ids1). pose proof (zlen_nonneg ids2).
    rewrite Z.min_l, Z.min_l by lia. rewrite slice_ok by (rewrite ?zlen_app; lia). cbn [obind].
    rewrite zdrop_app by done. replace (_ - _) with (zlen ids2) by lia. by rewrite ztake_all.
  - intros E. by destruct ids1, ids2.
Qed.

(** The complete rendering of a log. *)
Definition renders_all (s : ContentStore) (sid : Z) (p : CachedChatProjection) : Prop :=
  cp_message_count p = zlen (session_ids s sid) ∧
  concat (cp_chunks p) = join (payload <$> reconstruct s sid) ∧
  cp_json_bytes p = Z.min (zlen (join (payload <$> reconstruct s sid))) usize_max.

Lemma renders_all_renders s sid p :
  stored s sid → (zlen (session_ids s sid) ≤ usize_max → renders_all s sid p) → renders s sid p.
Proof.
  intros Hs H Hl. destruct (H Hl) as (C & T & J). exists (session_ids s sid), [], (reconstruct s sid).
  rewrite app_nil_r, reconstruct_ids. rewrite reconstruct_ids in T, J.
  split_and!; [done|by apply omap_stored|done..].
Qed.

Lemma validate_payloads_ok i bs ps : validate_payloads i bs = Ok ps → ps = payload <$> bs.
Proof.
  revert i ps. induction bs as [|b bs IH]; intros i ps H; [by injection H as <-|].
  cbn [validate_payloads] in H. obinds. injection H as <-. cbn. by rewrite (IH _ _ Hm0).
Qed.

(** The messages after a rendered prefix, added to it. *)
Lemma extension_renders s sid root q ids1 ids2 bs adds :
  session_ids s sid = ids1 ++ ids2 → zlen (session_ids s sid) ≤ usize_max →
  Forall2 (λ id b, blocks s !! id = Some b) ids1 bs →
  Forall2 (λ id b, blocks s !! id = Some b) ids2 adds →
  concat (cp_chunks q) = join (payload <$> bs) →
  cp_json_bytes q = Z.min (zlen (join (payload <$> bs))) usize_max →
  let '(chunks, count, json_bytes) :=
    append_projection_payloads (cp_chunks q) (zlen ids1) (cp_json_bytes q) (payload <$> adds) in
  renders_all s sid (mkProjection root count chunks json_bytes).
Proof.
  intros Hi Hlen Hb Ha Ht Hj. rewrite Hi, zlen_app in Hlen.
  assert (reconstruct s sid = bs ++ adds) as Hrec.
  { rewrite reconstruct_ids, Hi. apply omap_Forall2. by apply Forall2_app. }
  assert (zlen (payload <$> bs) = zlen ids1) as Hlb
    by (unfold zlen; by rewrite length_fmap, (Forall2_length Hb)).
  assert (zlen (payload <$> adds) = zlen ids2) as Hla
    by (unfold zlen; by rewrite length_fmap, (Forall2_length Ha)).
  pose proof (zlen_nonneg ids1). pose proof (zlen_nonneg ids2).
  pose proof (zlen_nonneg (join (payload <$> bs))).
  pose proof (zlen_nonneg (continued (zlen ids1) (payload <$> adds))).
  pose proof (append_payloads_spec (cp_chunks q) (zlen ids1) (cp_json_bytes q) (payload <$> adds)) as Hap.
  destruct (append_projection_payloads _ _ _ _) as [[ch n] j].
  destruct Hap as (T & C & J); [lia|unfold usize_max in *; lia|].
  unfold renders_all. cbn [cp_message_count cp_chunks cp_json_bytes].
  rewrite T, C, J, Ht, Hj, Hla, Hrec, Hi, fmap_app, join_app, Hlb, !zlen_app.
  split_and!; [lia|done|]. unfold usize_max in *. lia.
Qed.

Lemma projection_renders r sid root cached p :
  is_Some (r_sessions r !! sid) → stored (r_store r) sid →
  zlen (session_ids (r_store r) sid) ≤ usize_max →
  (∀ q, cached = Some q → renders (r_store r) sid q) →
  extend_or_reconstruct_projection r sid root cached = Ok p →
  renders_all (r_store r) sid p ∧ cp_root p = root.
Proof.
  intros Hs Hst Hlen Hc H. unfold extend_or_reconstruct_projection in H.
  destruct (opt_filter _ cached) as [q|] eqn:Hq.
  - assert (cached = Some q) as Hcq.
    { destruct cached as [q'|]; [|done]. cbn in Hq. by destruct (_ <=? _). }
    destruct (Hc q Hcq Hlen) as (ids1 & ids2 & bs & Hi & Hb & Hn & Ht & Hj).
    rewrite Hn in H. rewrite (range_tail r sid ids1 ids2 Hs Hi) in H. cbn [map_err obind] in H.
    assert (Forall2 (λ id b, blocks (r_store r) !! id = Some b) ids2
              (omap (λ id, blocks (r_store r) !! id) ids2)) as Ha.
    { apply omap_stored. unfold stored in Hst. rewrite Hi in Hst. by apply Forall_app in Hst as [_ ?]. }
    pose proof (extension_renders _ _ root q _ _ _ _ Hi Hlen Hb Ha Ht Hj) as He.
    set (adds := omap _ ids2) in *. destruct (negb _); [done|].
    destruct adds as [|b0 adds'].
    + injection H as <-. split; [exact He|done].
    + destruct (append_projection_payloads _ _ _ _) as [[ch n] j]. injection H as <-. by split.
  - apply obind_ok_inv in H as (ps & Hps & H). apply validate_payloads_ok in Hps as ->.
    unfold Receiver_reconstruct in H. destruct Hs as [ss Hs]. rewrite Hs, reconstruct_ids in H.
    pose proof (extension_renders (r_store r) sid root (mkProjection root 0 [] 0) [] _ [] _
      eq_refl Hlen (Forall2_nil_2 _ _ _) (omap_stored _ _ Hst) eq_refl eq_refl) as He.
    cbn [cp_chunks cp_json_bytes] in He. change (zlen []) with 0 in He.
    destruct (append_projection_payloads _ _ _ _) as [[ch n] j]. injection H as <-. by split.
Qed.

(** The counters stay in range whatever the log is. *)
Lemma append_payloads_usizes root q ps :
  usizes q →
  let '(chunks, count, json_bytes) :=
    append_projection_payloads (cp_chunks q) (cp_message_count q) (cp_json_bytes q) ps in
  usizes (mkProjection root count chunks json_bytes).
Proof.
  intros [Hn Hj].
  pose proof (append_payloads_spec (cp_chunks q) (cp_message_count q) (cp_json_bytes q) ps Hn Hj) as H.
  destruct (append_projection_payloads _ _ _ _) as [[ch n] j]. destruct H as (_ & -> & ->).
  pose proof (zlen_nonneg ps). pose proof (zlen_nonneg (continued (cp_message_count q) ps)).
  unfold usizes. cbn. unfold usize_max in *. lia.
Qed.

Lemma projection_usizes r sid root cached p :
  (∀ q, cached = Some q → usizes q) →
  extend_or_reconstruct_projection r sid root cached = Ok p → usizes p.
Proof.
  intros Hc H. unfold extend_or_reconstruct_projection in H.
  destruct (opt_filter _ cached) as [q|] eqn:Hq.
  - assert (usizes q) as Hu.
    { apply Hc. destruct cached as [q'|]; [|done]. cbn in Hq. by destruct (_ <=? _). }
    apply obind_ok_inv in H as (adds & _ & H). destruct (negb _); [done|]. destruct adds as [|b adds].
    + injection H as <-. exact Hu.
    + pose proof (append_payloads_usizes root q (payload <$> b :: adds) Hu) as Ha.
      destruct (append_projection_payloads _ _ _ _) as [[ch n] j]. by injection H as <-.
  - apply obind_ok_inv in H as (ps & _ & H).
    pose proof (append_payloads_usizes root (mkProjection root 0 [] 0) ps) as Ha.
    cbn [cp_chunks cp_message_count cp_json_bytes] in Ha.
    destruct (append_projection_payloads _ _ _ _) as [[ch n] j]. injection H as <-. by apply Ha.
Qed.
End Projection.

(** ** The projection cache *)

Definition total_bytes (es : gmap Z CachedChatProjection) : Z :=
  map_fold (λ _ p acc, cp_json_bytes p + acc) 0 es.

Lemma total_insert es sid p :
  es !! sid = None → total_bytes (<[sid := p]> es) = cp_json_bytes p + total_bytes es.
Proof. intros H. unfold total_bytes. rewrite map_fold_insert_L; [done| |done]. intros. lia. Qed.

Lemma total_delete es sid p :
  es !! sid = Some p → total_bytes (delete sid es) = total_bytes es - cp_json_bytes p.
Proof.
  intros H. rewrite <-(insert_delete_id es sid p) at 2 by done.
  rewrite total_insert by apply lookup_delete_eq. lia.
Qed.

(** The books of the cache: the queue lists each entry once, the byte count is
    the sum of the entries, which are unsigned. *)
Record cache_books (es : gmap Z CachedChatProjection) (jb : Z) (q : list Z) : Prop := {
  cb_nodup : NoDup q;
  cb_keys : ∀ sid, sid ∈ q ↔ is_Some (es !! sid);
  cb_bytes : jb = total_bytes es;
  cb_entries : map_Forall (λ _ p, usizes p) es
}.

Lemma total_nonneg es :
  map_Forall (λ _ p, usizes p) es → 0 ≤ total_bytes es.
Proof.
  induction es as [|sid p es Hn IH] using map_ind; intros H; [done|].
  rewrite total_insert by done. apply map_Forall_insert in H as [[_ ?] ?]; [|done].
  specialize (IH H0). lia.
Qed.

Lemma total_member es sid p :
  map_Forall (λ _ p, usizes p) es → es !! sid = Some p →
  0 ≤ total_bytes es - cp_json_bytes p.
Proof.
  intros H Hp. rewrite <-(total_delete _ _ _ Hp). apply total_nonneg. by apply map_Forall_delete.
Qed.

Lemma books_drop es jb q sid p :
  cache_books es jb q → es !! sid = Some p →
  cache_books (delete sid es) (sat_sub jb (cp_json_bytes p)) (filter (λ id, id ≠ sid) q).
Proof.
  intros [Hn Hk Hb He] Hp. split.
  - by apply list.NoDup_filter.
  - intros sid'. rewrite list_elem_of_filter, Hk, lookup_delete_is_Some. naive_solver.
  - unfold sat_sub. rewrite (total_delete es sid p Hp). pose proof (total_member es sid p He Hp). lia.
  - by apply map_Forall_delete.
Qed.

Lemma books_remove c sid :
  cache_books (entries c) (cache_json_bytes c) (lru c) →
  cache_books (entries (cache_remove c sid)) (cache_json_bytes (cache_remove c sid)) (lru (cache_remove c sid)).
Proof.
  intros H. unfold cache_remove. cbn [entries cache_json_bytes lru].
  destruct (entries c !! sid) as [p|] eqn:Hp; [by apply books_drop|].
  rewrite delete_id by done. rewrite filter_every; [done|]. apply Forall_elem.
  intros sid' Hin ->. apply (cb_keys _ _ _ H) in Hin as [? ?]. congruence.
Qed.

(** Room for [need] more bytes and one more entry. *)
Definition has_room (need : Z) (c : ChatProjectionCache) : Prop :=
  entries c = ∅ ∨
  (Z.of_nat (size (entries c)) < PROJECTION_CACHE_SESSIONS ∧
   cache_json_bytes c + need ≤ PROJECTION_CACHE_JSON_BYTES).

Lemma cache_evict_spec need es jb q :
  0 ≤ need → cache_books es jb q →
  let c := cache_evict need es jb q in
  cache_books (entries c) (cache_json_bytes c) (lru c) ∧ entries c ⊆ es ∧ has_room need c.
Proof.
  intros Hneed. revert es jb. induction q as [|oldest q IH]; intros es jb H; cbn [cache_evict].
  - assert (es = ∅) as ->.
    { apply map_empty. intros sid. apply eq_None_not_Some. intros Hs. apply (cb_keys _ _ _ H) in Hs.
      by apply not_elem_of_nil in Hs. }
    cbn. split_and!; [done|done|by left].
  - destruct (negb _ && _) eqn:Hcond.
    + destruct (proj1 (cb_keys _ _ _ H oldest) ltac:(by left)) as [p Hp]. rewrite Hp.
      destruct (IH (delete oldest es) (sat_sub jb (cp_json_bytes p))) as (B & S & R).
      { pose proof (books_drop _ _ _ _ _ H Hp) as Hd. rewrite filter_cons_False in Hd by naive_solver.
        rewrite filter_every in Hd; [done|]. apply Forall_elem. intros sid Hin ->.
        pose proof (cb_nodup _ _ _ H) as Hn. by apply list.NoDup_cons in Hn as [? _]. }
      split_and!; [done| |done]. etrans; [done|]. apply delete_subseteq.
    + cbn. split_and!; [done|done|]. apply andb_false_iff in Hcond as [Hc|Hc].
      * left. by apply negb_false_iff, bool_decide_eq_true in Hc.
      * apply orb_false_iff in Hc as [H1 H2]. apply Z.leb_gt in H1. apply Z.ltb_ge in H2. right.
        cbn. split; [done|]. unfold sat_add, usize_max, PROJECTION_CACHE_JSON_BYTES in *. lia.
Qed.

(** The cache is within its limits: one entry may exceed the byte limit, alone. *)
Record cache_wf (c : ChatProjectionCache) : Prop := {
  cw_books : cache_books (entries c) (cache_json_bytes c) (lru c);
  cw_count : Z.of_nat (size (entries c)) ≤ PROJECTION_CACHE_SESSIONS;
  cw_limit : cache_json_bytes c ≤ PROJECTION_CACHE_JSON_BYTES ∨ (size (entries c) ≤ 1)%nat
}.

Lemma cache_default_wf : cache_wf cache_default.
Proof.
  split; [split|done|by left]; [apply NoDup_nil_2| |done|apply map_Forall_empty].
  intros sid. cbn. rewrite lookup_empty. split; [by intros ?%not_elem_of_nil|by intros ?%is_Some_None].
Qed.

Lemma size_subseteq (es es' : gmap Z CachedChatProjection) : es ⊆ es' → (size es ≤ size es')%nat.
Proof. intros H. rewrite <-!size_dom. by apply subseteq_size, subseteq_dom. Qed.

Lemma total_subseteq es es' :
  map_Forall (λ _ p, usizes p) es' → es ⊆ es' → total_bytes es ≤ total_bytes es'.
Proof.
  revert es'. induction es as [|sid p es Hn IH] using map_ind; intros es' H Hs.
  { change (total_bytes ∅) with 0. by apply total_nonneg. }
  assert (es' !! sid = Some p) as Hp by (eapply lookup_weaken; [|done]; apply lookup_insert_eq).
  rewrite total_insert by done. pose proof (total_delete _ _ _ Hp).
  assert (total_bytes es ≤ total_bytes (delete sid es')); [|lia].
  apply IH; [by apply map_Forall_delete|].
  apply map_subseteq_spec. intros i x Hi.
  assert (i ≠ sid) by congruence. rewrite lookup_delete_ne by done.
  eapply lookup_weaken; [|done]. by rewrite lookup_insert_ne.
Qed.

Lemma cache_remove_wf c sid : cache_wf c → cache_wf (cache_remove c sid).
Proof.
  intros [B C L]. pose proof (books_remove c sid B) as B'.
  assert (entries (cache_remove c sid) ⊆ entries c) as Hs by apply delete_subseteq.
  pose proof (size_subseteq _ _ Hs). split; [done|lia|].
  destruct L as [L|L]; [left|right; lia].
  rewrite (cb_bytes _ _ _ B'). rewrite (cb_bytes _ _ _ B) in L.
  pose proof (total_subseteq _ _ (cb_entries _ _ _ B) Hs). lia.
Qed.

Lemma cache_get_spec c sid root :
  let '(c', o) := cache_get c sid root in
  entries c' = entries c ∧ (cache_wf c → cache_wf c') ∧
  (∀ p, o = Some p → entries c !! sid = Some p ∧ cp_root p = root).
Proof.
  unfold cache_get. destruct (entries c !! sid) as [p|] eqn:Hp; [|done].
  case_bool_decide as Hr; [|done]. split_and!; [done| |by intros q [= <-]].
  intros [[N K Hb E] C L]. split; [|done..]. split; [| |done..]; cbn [cache_touch lru entries].
  - apply list.NoDup_app. split_and!; [by apply list.NoDup_filter| |apply NoDup_singleton].
    intros x [Hx _]%list_elem_of_filter. by rewrite list_elem_of_singleton.
  - intros sid'. rewrite elem_of_app, list_elem_of_filter, list_elem_of_singleton, K.
    destruct (decide (sid' = sid)) as [->|]; naive_solver.
Qed.

Lemma cache_insert_wf c sid p :
  usizes p → cache_wf c → cache_wf (cache_insert c sid p).
Proof.
  intros Hu Hc. pose proof (proj2 Hu) as Hp. apply (cache_remove_wf _ sid) in Hc as [B _ _]. unfold cache_insert.
  assert (entries (cache_remove c sid) !! sid = None) as Hsid by apply lookup_delete_eq.
  destruct (cache_evict_spec (cp_json_bytes p) _ _ _ ltac:(lia) B) as (B' & Hs & Hroom).
  set (c' := cache_evict _ _ _ _) in *.
  assert (entries c' !! sid = None) as Hn by (by eapply lookup_weaken_None).
  destruct B' as [N K J E].
  assert (sat_add (cache_json_bytes c') (cp_json_bytes p) = cp_json_bytes p + total_bytes (entries c')) as Hsum.
  { unfold sat_add. rewrite J. destruct Hroom as [He|[_ He]].
    - rewrite He. change (total_bytes ∅) with 0. lia.
    - unfold PROJECTION_CACHE_JSON_BYTES, usize_max in *. lia. }
  split; cbn [entries lru cache_json_bytes]; [split| |].
  - apply list.NoDup_app. split_and!; [done| |apply NoDup_singleton].
    intros x Hx%K. rewrite list_elem_of_singleton. intros ->. rewrite Hn in Hx. by apply is_Some_None in Hx.
  - intros sid'. rewrite elem_of_app, K, list_elem_of_singleton, lookup_insert_is_Some.
    destruct (decide (sid' = sid)); naive_solver.
  - by rewrite total_insert.
  - by apply map_Forall_insert_2.
  - rewrite map_size_insert_None by done. destruct Hroom as [He|[Hlt _]]; [|lia].
    rewrite He, map_size_empty. done.
  - rewrite Hsum. destruct Hroom as [He|[_ He]]; [right|left; lia].
    rewrite map_size_insert_None by done. by rewrite He, map_size_empty.
Qed.

(** What is in the cache afterwards. *)
Lemma cache_insert_entries c sid p sid' q :
  0 ≤ cp_json_bytes p → cache_wf c → entries (cache_insert c sid p) !! sid' = Some q →
  (sid' = sid ∧ q = p) ∨ (sid' ≠ sid ∧ entries c !! sid' = Some q).
Proof.
  intros Hp Hc. apply (cache_remove_wf _ sid) in Hc as [B _ _]. unfold cache_insert. cbn [entries].
  destruct (cache_evict_spec (cp_json_bytes p) _ _ _ Hp B) as (_ & Hs & _).
  intros [[-> <-]|[Hne Hq]]%lookup_insert_Some; [by left|]. right. split; [done|].
  eapply lookup_weaken in Hq; [|done]. change (delete sid (entries c) !! sid' = Some q) in Hq.
  by apply lookup_delete_Some in Hq as [_ ?].
Qed.
