(* ===== verification/SidecarServe.v ===== *)
(** * The endpoints of the sidecar

    The invariant of a running sidecar and that every request keeps it; what
    the chat endpoint forwards; what an acknowledgement means after a crash. *)

From stdpp Require Import pretty.
From S2P Require Import Prelude Interfaces Block Merkle Frame Wal Store Recovery Compress FountainSig.
From S2P Require Import Receiver Web Sidecar SidecarCorrect.

Section Serve.
Context `{B3 : Blake3} {B3L : Blake3Laws} `{CC : Codec} {CL : CodecLaws} `{FC : FountainCode}.
Context `{SJ : SerdeJson} {SJL : SerdeJsonLaws} `{HT : HttpText} {HTL : HttpTextLaws}.

(** ** The invariant *)

(** Every cached projection renders a prefix of its session's log. *)
Record sidecar_inv (st : SidecarState) : Prop := {
  si_receiver : receiver_inv (sc_receiver st);
  si_cache : cache_wf (sc_cache st);
  si_entries : ∀ sid p, entries (sc_cache st) !! sid = Some p → renders (r_store (sc_receiver st)) sid p
}.

Lemma renders_grows s s' sid p rids :
  blocks s ⊆ blocks s' → session_ids s' sid = session_ids s sid ++ rids →
  renders s sid p → renders s' sid p.
Proof.
  intros Hb Hi H Hl. destruct H as (ids1 & ids2 & bs & E & F & R).
  { rewrite Hi, zlen_app in Hl. pose proof (zlen_nonneg rids). lia. }
  exists ids1, (ids2 ++ rids), bs.
  split; [by rewrite Hi, E, (assoc_L (++))|]. split; [|done].
  eapply Forall2_impl; [|exact F]. intros id b Hid. cbn in Hid |- *. eapply lookup_weaken; [exact Hid|exact Hb].
Qed.

Lemma session_ids_same s s' sid :
  sessions s' !! sid = sessions s !! sid → session_ids s' sid = session_ids s sid.
Proof. unfold session_ids. by intros ->. Qed.

(** ** Flushing changes nothing a reader sees *)

Lemma flush_wal_view s sync :
  blocks (flush_wal s sync).1 = blocks s ∧ sessions (flush_wal s sync).1 = sessions s.
Proof.
  unfold flush_wal. destruct (wal_error s); [done|]. destruct (wal s) as [w|]; [|done].
  destruct (flush w sync) as [w' [[]|e|]]; cbn; rewrite ?blocks_latch, ?sessions_latch; done.
Qed.

Lemma receiver_inv_view r s :
  blocks s = blocks (r_store r) → sessions s = sessions (r_store r) →
  receiver_inv r → receiver_inv (with_store r s).
Proof.
  intros Hb Hs [Hc Hh]. split.
  - intros id b. cbn. rewrite Hb. apply Hc.
  - intros sid id. cbn. unfold session_ids. rewrite Hb, Hs. apply Hh.
Qed.

Lemma flush_store_spec sync fail st :
  let st' := (flush_store sync fail st).1 in
  (sidecar_inv st → sidecar_inv st') ∧ sc_cache st' = sc_cache st ∧
  blocks (r_store (sc_receiver st')) = blocks (r_store (sc_receiver st)) ∧
  sessions (r_store (sc_receiver st')) = sessions (r_store (sc_receiver st)) ∧
  r_sessions (sc_receiver st') = r_sessions (sc_receiver st).
Proof.
  unfold flush_store. pose proof (flush_wal_view (r_store (sc_receiver st)) (sync st)) as [Hb Hs].
  destruct (flush_wal _ _) as [s res]. cbn in *. split_and!; [|done..].
  intros [Hr Hc He]. split; cbn; [by apply receiver_inv_view|done|].
  intros sid p Hp. apply (renders_grows (r_store (sc_receiver st)) _ _ _ []); [by rewrite Hb| |by apply He].
  rewrite app_nil_r. apply session_ids_same. by rewrite Hs.
Qed.

(** ** Frames *)

(** A frame leaves the logs of the other sessions, and removes no block. *)
Lemma frame_elsewhere r f sid :
  frame_session_id f ≠ sid →
  sessions (r_store (handle_frame r f).1) !! sid = sessions (r_store r) !! sid.
Proof.
  intros Hne. destruct f as [a|rs|b|a|m]; cbn [frame_session_id handle_frame] in *; [..|done|done].
  - destruct (handle_append_outcome r a) as [r' e Hs _|rs _ _ _ _ _|rs s' _ _ _ _ _ E]; cbn.
    + by rewrite Hs.
    + done.
    + by apply E.
  - unfold handle_resync. cbn. rewrite seed_sessions. by rewrite lookup_insert_ne.
  - destruct (handle_bulk_outcome r b) as [d res _|rec pend fin _ _ _]; cbn; [done|].
    by rewrite (proj1 (store_recovered_effect _ _ _)).
Qed.

Lemma frame_blocks_append r a : blocks (r_store r) ⊆ blocks (r_store (handle_append r a).1).
Proof.
  destruct (handle_append_outcome r a) as [r' e Hs _|rs _ _ _ _ _|rs s' _ _ _ _ _ E]; cbn.
  - by rewrite Hs.
  - done.
  - by apply E.
Qed.

Lemma frame_blocks r f : blocks (r_store r) ⊆ blocks (r_store (handle_frame r f).1).
Proof.
  destruct f as [a|rs|b|a|m]; cbn [handle_frame]; [..|done|done].
  - pose proof (frame_blocks_append r a). by destruct (handle_append r a).
  - unfold handle_resync. cbn. by rewrite seed_blocks.
  - destruct (handle_bulk_outcome r b) as [d res _|rec pend fin _ _ _]; cbn; [done|].
    apply store_recovered_effect.
Qed.

(** ** Handlers keep the invariant *)

Definition preserves {A} (I : SidecarState → Prop) (m : handler A) : Prop :=
  ∀ st, I st → I (m st).1.

Abbreviation keeps := (preserves sidecar_inv).

Lemma preserves_bind {A B} I (m : handler A) (k : A → handler B) :
  preserves I m → (∀ a, preserves I (k a)) → preserves I (hbind m k).
Proof.
  intros Hm Hk st Hst. unfold hbind. specialize (Hm st Hst). destruct (m st) as [st1 [a|e|]]; [|done..].
  by apply Hk.
Qed.

Lemma preserves_respond {E A} I (f : E → Response) (m : SidecarState → outcome E A) :
  preserves I (respond f m).
Proof. by intros st. Qed.

Lemma preserves_ret {A} I (a : A) : preserves I (hret a).
Proof. by intros st. Qed.

Lemma keeps_flush sync fail : keeps (flush_store sync fail).
Proof. intros st Hst. by apply flush_store_spec. Qed.

Lemma hbind_ok {A B} (m : handler A) (k : A → handler B) st st' b :
  hbind m k st = (st', Ok b) → ∃ st1 a, m st = (st1, Ok a) ∧ k a st1 = (st', Ok b).
Proof. unfold hbind. destruct (m st) as [st1 [a|e|]]; [|done..]. by exists st1, a. Qed.

Lemma respond_ok {E A} (f : E → Response) (m : SidecarState → outcome E A) st st' a :
  respond f m st = (st', Ok a) → st' = st ∧ m st = Ok a.
Proof. unfold respond. intros [= <- H]. destruct (m st); naive_solver. Qed.

(** The generic endpoint forgets the projection of the session it may change. *)
Lemma frame_keeps st f :
  sidecar_inv st →
  sidecar_inv (with_receiver (with_cache st (cache_remove (sc_cache st) (frame_session_id f)))
                 (handle_frame (sc_receiver st) f).1).
Proof.
  intros [Hr Hc He]. split; cbn.
  - by apply handle_frame_inv.
  - by apply cache_remove_wf.
  - intros sid p [Hne Hp]%lookup_delete_Some.
    apply (renders_grows (r_store (sc_receiver st)) _ _ _ []); [apply frame_blocks| |by apply He].
    rewrite app_nil_r. by apply session_ids_same, frame_elsewhere.
Qed.

Lemma post_frame_keeps headers body : keeps (post_frame headers body).
Proof.
  unfold post_frame. apply preserves_bind; [apply preserves_respond|intros _].
  apply preserves_bind; [apply preserves_respond|intros f]. intros st Hst.
  pose proof (frame_keeps st f Hst) as H.
  unfold hbind at 1, forget_projection. unfold hbind at 1, receive_frame.
  cbn [sc_receiver with_cache]. destruct (handle_frame (sc_receiver st) f) as [r [o|e|]]; [|exact H..].
  cbn [map_err]. apply preserves_bind; [apply keeps_flush| |exact H]. intros. apply preserves_ret.
Qed.

(** ** The chat endpoint *)

(** A projection fetched for session [sid], in a state reached since. *)
Record fetched (st : SidecarState) (sid : Z) (cached : option CachedChatProjection) : Prop := {
  ft_inv : sidecar_inv st;
  ft_renders : ∀ q, cached = Some q → renders (r_store (sc_receiver st)) sid q ∧ usizes q
}.

Lemma fetch_spec st sid root :
  sidecar_inv st →
  ∃ st' cached, cached_projection sid root st = (st', Ok cached) ∧ fetched st' sid cached ∧
    sc_receiver st' = sc_receiver st.
Proof.
  intros [Hr Hc He]. unfold cached_projection. pose proof (cache_get_spec (sc_cache st) sid root) as H.
  destruct (cache_get _ _ _) as [c o]. destruct H as (He' & Hw & Ho). eexists _, _. split; [done|].
  split; [split; [split|]|done]; cbn; [done|by apply Hw|by rewrite He'|].
  intros q Hq. destruct (Ho q Hq) as [Hin _]. split; [by apply He|].
  by apply (cb_entries _ _ _ (cw_books _ Hc)) in Hin.
Qed.

(** After an acknowledged append, and after the flush: the session exists and
    its log can be rebuilt. *)
Record appended (st : SidecarState) (sid : Z) (ack : AckFrame) : Prop := {
  ad_session : is_Some (r_sessions (sc_receiver st) !! sid);
  ad_stored : stored (r_store (sc_receiver st)) sid;
  ad_ack : ack = mkAck sid (session_root (r_store (sc_receiver st)) sid)
}.

Lemma append_grows r frame :
  blocks (r_store r) ⊆ blocks (r_store (handle_append r frame).1) ∧
  ∀ sid, ∃ rids, session_ids (r_store (handle_append r frame).1) sid = session_ids (r_store r) sid ++ rids.
Proof.
  split; [exact (frame_blocks_append r frame)|]. intros sid.
  destruct (step_log _ _ _ (append_step r frame sid)) as (rids & H & _). by exists rids.
Qed.

Lemma append_fetched st frame cached :
  fetched st (ap_session_id frame) cached →
  let '(st', res) := receive_append frame st in
  fetched st' (ap_session_id frame) cached ∧
  ∀ ack, res = Ok ack → appended st' (ap_session_id frame) ack.
Proof.
  intros [[Hr Hc He] Hf]. unfold receive_append.
  pose proof (append_grows (sc_receiver st) frame) as [Hb Hi].
  pose proof (append_inv (sc_receiver st) frame Hr) as Hr'.
  assert (∀ sid p, renders (r_store (sc_receiver st)) sid p →
            renders (r_store (handle_append (sc_receiver st) frame).1) sid p) as Hg.
  { intros sid p Hp. destruct (Hi sid) as [rids E]. by eapply renders_grows. }
  destruct (handle_append (sc_receiver st) frame) as [r res] eqn:Ha. cbn [fst] in *. split.
  { split; [split; cbn; naive_solver|]. cbn. intros q Hq. split; [apply Hg|]; by apply Hf. }
  intros ack Hack. destruct res as [ack'|e|]; [|done..]. injection Hack as ->.
  destruct (append_cases _ _ _ _ Ha) as (rs & _ & _ & Hp & -> & Hroot). cbn.
  split; cbn; [| |by rewrite Hroot].
  - destruct (handle_append_outcome (sc_receiver st) frame) as [r' e' ? ?| |]; [done|..];
      injection Ha as <- _; cbn; rewrite lookup_insert_eq; by eexists.
  - apply Forall_elem. intros id Hid. destruct Hr' as [_ Hh].
    destruct (Hh _ _ Hid) as [|Hin]; [done|]. rewrite Hp in Hin. by apply elem_of_empty in Hin.
Qed.

Lemma flush_fetched sync fail st sid cached ack :
  fetched st sid cached → appended st sid ack →
  let st' := (flush_store sync fail st).1 in fetched st' sid cached ∧ appended st' sid ack.
Proof.
  intros [Hi Hf] [H1 H2 H3]. destruct (flush_store_spec sync fail st) as (K & _ & Hb & Hs & Hr).
  cbn zeta. set (st' := (flush_store sync fail st).1) in *.
  assert (session_ids (r_store (sc_receiver st')) sid = session_ids (r_store (sc_receiver st)) sid) as Hids
    by (apply session_ids_same; by rewrite Hs).
  split; [split; [by apply K|]|split].
  - intros q Hq. destruct (Hf q Hq) as [Hq1 Hq2]. split; [|done].
    apply (renders_grows (r_store (sc_receiver st)) _ _ _ []); [by rewrite Hb|by rewrite app_nil_r|done].
  - by rewrite Hr.
  - unfold stored. by rewrite Hids, Hb.
  - rewrite H3. unfold session_root. by rewrite Hs.
Qed.

(** The text of the forwarded request. *)
Definition request_text (inner : bytes) (s : ContentStore) (sid : Z) : bytes :=
  ascii "{" ++ inner ++ MESSAGES_OPEN ++ join (payload <$> reconstruct s sid) ++ ascii "]}".

Lemma Ok_pair {E A B} (a c : A) (b d : B) : Ok (E := E) (a, b) = Ok (c, d) → c = a ∧ d = b.
Proof. by intros [= -> ->]. Qed.

Lemma request_body_inv r sid request root cached chunks len p :
  reconstruct_request_body r sid request root cached = Ok (chunks, len, p) →
  ∃ m inner, as_object request = Some m ∧ to_vec request = inr (ascii "{" ++ inner ++ ascii "}") ∧
    (inner = [] ↔ m = []) ∧
    chunks = [(ascii "{" ++ inner) ++ MESSAGES_OPEN] ++ cp_chunks p ++ [ascii "]}"] ∧
    len = sat_add (sat_add (zlen ((ascii "{" ++ inner) ++ MESSAGES_OPEN)) (cp_json_bytes p)) 2 ∧
    extend_or_reconstruct_projection r sid root cached = Ok p.
Proof.
  unfold reconstruct_request_body. intros (u & Hm & Hb)%obind_ok_inv.
  unfold validate_request_value in Hm. apply obind_ok_inv in Hm as (m & Hm & _).
  destruct (as_object request) as [m'|] eqn:Ho; [|done]. clear Hm.
  apply obind_ok_inv in Hb as (json & Hj & Hb).
  destruct (to_vec request) as [|json'] eqn:Hv; [done|]. injection Hj as ->.
  destruct (to_vec_object request m' json Ho Hv) as (inner & -> & Hin).
  rewrite (assoc_L (++) (ascii "{")), (vec_pop_snoc (ascii "{" ++ inner) Byte.x7d : vec_pop (_ ++ ascii "}") = _) in Hb.
  rewrite bool_decide_true in Hb by done. cbn [negb] in Hb.
  apply obind_ok_inv in Hb as (p' & Hp & Hb). injection Hb as <- <- <-.
  exists m', inner. rewrite (assoc_L (++) (ascii "{")). done.
Qed.

Lemma render_spec st sid request root cached ack :
  fetched st sid cached → appended st sid ack →
  let '(st', res) := render_chat sid request root cached st in
  sidecar_inv st' ∧ sc_receiver st' = sc_receiver st ∧
  ∀ chunks len, res = Ok (chunks, len) →
    ∃ m inner, as_object request = Some m ∧ to_vec request = inr (ascii "{" ++ inner ++ ascii "}") ∧
      (inner = [] ↔ m = []) ∧
      (zlen (session_ids (r_store (sc_receiver st)) sid) ≤ usize_max →
       concat chunks = request_text inner (r_store (sc_receiver st)) sid ∧
       len = Z.min (zlen (concat chunks)) usize_max).
Proof.
  intros [Hi Hf] [H1 H2 H3]. unfold render_chat, hbind at 1, respond.
  destruct (reconstruct_request_body _ _ _ _ _) as [[[chunks len] p]|e|] eqn:Hb; cbn [map_err]; [|done..].
  destruct (request_body_inv _ _ _ _ _ _ _ _ Hb) as (m & inner & Ho & Hv & Hin & -> & -> & Hp).
  assert (usizes p) as Hu by (eapply projection_usizes; [intros q Hq; exact (proj2 (Hf q Hq))|exact Hp]).
  assert (zlen (session_ids (r_store (sc_receiver st)) sid) ≤ usize_max →
    renders_all (r_store (sc_receiver st)) sid p) as Hall.
  { intros Hl. exact (proj1 (projection_renders _ _ _ _ _ H1 H2 Hl (λ q Hq, proj1 (Hf q Hq)) Hp)). }
  destruct Hi as [Hr Hc He]. split; [|split; [done|]].
  - split; cbn; [done|by apply cache_insert_wf|]. intros sid' q Hq.
    apply cache_insert_entries in Hq as [[-> ->]|[_ ?]]; [|by apply He|apply Hu|done].
    by apply renders_all_renders.
  - intros c l [-> ->]%Ok_pair. exists m, inner. split; [exact Ho|]. split; [exact Hv|].
    split; [exact Hin|]. intros Hl. destruct (Hall Hl) as (_ & T & J). split.
    + cbn [concat app]. rewrite concat_snoc, T. unfold request_text. by rewrite <-!(assoc_L (++)).
    + cbn [concat app]. rewrite concat_snoc, T, J, !zlen_app. change (zlen (ascii "]}")) with 2.
      pose proof (zlen_nonneg (join (payload <$> reconstruct (r_store (sc_receiver st)) sid))).
      pose proof (zlen_nonneg inner). unfold sat_add, usize_max. change (zlen (ascii "{")) with 1.
      change (zlen MESSAGES_OPEN) with 13. lia.
Qed.

(** Admission reads the state only. *)
Lemma admit_same headers body st : (admit_chat headers body st).1 = st.
Proof.
  assert (∀ A B (m : handler A) (k : A → handler B), (m st).1 = st → (∀ a, (k a st).1 = st) →
            (hbind m k st).1 = st) as Hb.
  { intros A B m k Hm Hk. unfold hbind. destruct (m st) as [st1 [a|e|]]; cbn in *; subst; auto. }
  unfold admit_chat, authenticate. repeat (apply Hb; [done|intros ?]). done.
Qed.

Lemma admit_ok headers body st st' request frame :
  admit_chat headers body st = (st', Ok (request, frame)) →
  st' = st ∧ authorized st headers = true ∧
  ∃ fb, ChatEnvelope_decode body = Ok (mkEnvelope request fb) ∧
    validate_request_value request = Ok tt ∧ decode_frame_bytes fb = Ok (FAppend frame) ∧
    validate_chat_append (sc_receiver st) frame = Ok tt.
Proof.
  unfold admit_chat. intros (st1 & [] & H1 & H)%hbind_ok. apply respond_ok in H1 as [-> H1].
  apply hbind_ok in H as (st2 & [rq fb] & H2 & H). apply respond_ok in H2 as [-> H2].
  apply hbind_ok in H as (st3 & [] & H3 & H). apply respond_ok in H3 as [-> H3].
  apply hbind_ok in H as (st4 & f & H4 & H). apply respond_ok in H4 as [-> H4].
  apply hbind_ok in H as (st5 & [] & H5 & H). apply respond_ok in H5 as [-> H5].
  injection H as <- <- <-. cbn [env_request env_frame] in *.
  split; [done|]. split; [by destruct (authorized st headers)|]. exists fb.
  destruct (decode_frame_bytes fb) as [[]|e|] eqn:Hd; try done. injection H4 as <-. done.
Qed.

Definition chat_tail (headers : HeaderMap) (request : Value) (frame : AppendFrame)
    : handler (OutRequest * AckFrame) :=
  hbind (cached_projection (ap_session_id frame) (ap_base_root frame)) (λ cached,
  hbind (receive_append frame) (λ ack,
  hbind (flush_store sc_sync_wal flush_failed) (λ _,
  hbind (render_chat (ap_session_id frame) request (ack_root ack) cached) (λ cl,
  match cl with
  | (chunks, len) =>
      hbind (respond id (λ st, Ok (out_request st headers chunks len))) (λ out, hret (out, ack))
  end)))).

Lemma chat_request_tail headers body st :
  chat_request headers body st =
  hbind (admit_chat headers body) (λ rf, match rf with (request, frame) => chat_tail headers request frame end) st.
Proof. reflexivity. Qed.

Lemma chat_tail_spec headers request frame st :
  sidecar_inv st →
  let '(st', res) := chat_tail headers request frame st in
  sidecar_inv st' ∧
  ∀ out ack, res = Ok (out, ack) →
    appended st' (ap_session_id frame) ack ∧
    (∃ r1 s2, handle_append (sc_receiver st) frame = (r1, Ok ack) ∧
       flush_wal (r_store r1) (sc_sync_wal st) = (s2, Ok tt) ∧ sc_receiver st' = with_store r1 s2) ∧
    ∃ chunks len m inner, out = out_request st' headers chunks len ∧
      as_object request = Some m ∧ to_vec request = inr (ascii "{" ++ inner ++ ascii "}") ∧
      (inner = [] ↔ m = []) ∧
      (zlen (session_ids (r_store (sc_receiver st')) (ap_session_id frame)) ≤ usize_max →
       concat chunks = request_text inner (r_store (sc_receiver st')) (ap_session_id frame) ∧
       len = Z.min (zlen (concat chunks)) usize_max).
Proof.
  intros Hst. unfold chat_tail.
  destruct (fetch_spec st (ap_session_id frame) (ap_base_root frame) Hst) as (st1 & cached & Hf & F1 & Er).
  unfold hbind at 1. rewrite Hf. unfold hbind at 1.
  pose proof (append_fetched st1 frame cached F1) as Ha.
  assert (sc_sync_wal st1 = sc_sync_wal st) as Esync.
  { unfold cached_projection in Hf. destruct (cache_get _ _ _). by injection Hf as <- _. }
  destruct (receive_append frame st1) as [st2 [ack|e|]] eqn:Hra; destruct Ha as [F2 A2];
    [|split; [apply F2|done]..].
  specialize (A2 ack eq_refl). unfold hbind at 1.
  destruct (flush_fetched sc_sync_wal flush_failed st2 _ cached ack F2 A2) as [F3 A3].
  destruct (flush_store sc_sync_wal flush_failed st2) as [st3 [[]|e|]] eqn:Hfl; cbn [fst] in *;
    [|split; [apply F3|done]..].
  unfold hbind at 1. pose proof (render_spec st3 _ request (ack_root ack) cached ack F3 A3) as R.
  destruct (render_chat _ _ _ _ st3) as [st4 [[chunks len]|e|]]; destruct R as (I4 & E4 & R4);
    [|split; [exact I4|intros ? ?; discriminate]..].
  unfold hbind, respond, hret. split; [exact I4|]. intros out ack' H. injection H as <- <-.
  split; [|split].
  - destruct A3 as [Q1 Q2 Q3]. split; rewrite E4; done.
  - unfold receive_append in Hra. rewrite Er in Hra. destruct (handle_append (sc_receiver st) frame) as [r1 res].
    injection Hra as Hst2 Hres. unfold flush_store in Hfl. rewrite <-Hst2 in Hfl.
    cbn [sc_receiver with_receiver sc_sync_wal] in Hfl. rewrite Esync in Hfl.
    exists r1, (flush_wal (r_store r1) (sc_sync_wal st)).1.
    destruct (flush_wal _ _) as [s' res']. injection Hfl as <- Hres'. cbn [fst].
    split_and!; [by destruct res; simplify_eq/=|by destruct res' as [[]|?|]; simplify_eq/=|done].
  - destruct (R4 chunks len eq_refl) as (m & inner & R). exists chunks, len, m, inner.
    split; [done|]. by rewrite E4.
Qed.

Lemma chat_keeps headers body : keeps (chat_request headers body).
Proof.
  intros st Hst. rewrite chat_request_tail. unfold hbind at 1. pose proof (admit_same headers body st) as Hs.
  destruct (admit_chat headers body st) as [st' [[request frame]|e|]]; cbn [fst] in *; subst st'; [|done..].
  pose proof (chat_tail_spec headers request frame st Hst) as H.
  destruct (chat_tail headers request frame st) as [st' res]. apply H.
Qed.

(** ** What reaches the log *)

(** The store operations of a resolved APPEND. *)
Definition append_ops (sid : Z) (rs : list Resolved) : list store_op :=
  (λ x, match x with RInline id b => OInsert sid b id None | RRef id => OReference sid id end) <$> rs.

Lemma apply_resolved_exec s sid rs s' :
  apply_resolved s sid rs = (s', Ok tt) → s' = exec s (append_ops sid rs).
Proof.
  revert s. induction rs as [|[id b|id] rs IH]; intros s H; cbn in H.
  - by injection H.
  - by apply IH in H.
  - destruct (reference s sid id) as [s1 [u|e|]] eqn:Hr; [|done..]. apply IH in H as ->.
    change (exec s (append_ops sid (RRef id :: rs)))
      with (exec (reference s sid id).1 (append_ops sid rs)). by rewrite Hr.
Qed.

Lemma resolve_refs fbs rs :
  Forall frame_block_wf fbs → resolve fbs = Ok rs →
  Forall (λ x, match x with RRef id => length id = 32%nat | _ => True end) rs.
Proof.
  intros Hwf. revert rs. induction Hwf as [|fb fbs Hfb _ IH]; intros rs H; cbn [resolve] in H.
  { injection H as <-. constructor. }
  apply obind_ok_inv in H as (x & Hx & H). apply obind_ok_inv in H as (xs & Hxs & H). injection H as <-.
  constructor; [|by apply IH]. destruct fb as [w|id]; cbn [resolve1] in Hx; [|by injection Hx as <-].
  apply obind_ok_inv in Hx as (c & _ & Hx). apply obind_ok_inv in Hx as ([b i] & _ & Hx). by injection Hx as <-.
Qed.

Lemma append_ops_wf sid fbs rs :
  0 ≤ sid < 2 ^ 128 → Forall frame_block_wf fbs → resolve fbs = Ok rs →
  Forall op_wf (append_ops sid rs).
Proof.
  intros Hs Hf Hr. pose proof (resolve_ok fbs rs Hr) as Ho. pose proof (resolve_refs fbs rs Hf Hr) as Hl.
  clear Hr. induction Ho as [|[id b|id] rs Hx _ IH]; [constructor|..];
    apply Forall_cons_iff in Hl as [Hi Hl]; (constructor; [|by apply IH]).
  - destruct Hx as [-> Hb]. by cbn.
  - by cbn.
Qed.

(** Every decoded frame drives the store by well-formed operations. *)
Lemma append_exec r a :
  frame_wf (FAppend a) →
  ∃ os, r_store (handle_append r a).1 = exec (r_store r) os ∧ Forall op_wf os.
Proof.
  intros (Hsid & _ & _ & Hfb).
  destruct (handle_append_outcome r a) as [r' e Hs _|rs _ _ _ _ _|rs s' Hres _ _ _ Hap _]; cbn.
  - exists []. by split; [|constructor].
  - exists []. by split; [|constructor].
  - exists (append_ops (ap_session_id a) rs). split; [by apply apply_resolved_exec|].
    by eapply append_ops_wf.
Qed.

Lemma recovered_exec s sid rec :
  0 ≤ sid < 2 ^ 128 → Forall (λ bi : Block * BlockId, bi.2 = block_id bi.1 ∧ block_wf bi.1) rec →
  ∃ os, store_recovered s sid rec = exec s os ∧ Forall op_wf os.
Proof.
  intros Hs Hr. exists ((λ bi, OContent sid bi.1 bi.2) <$> rec). split.
  - unfold store_recovered, exec. revert s. clear Hr. induction rec as [|bi rec IH]; intros s; [done|]. apply IH.
  - induction Hr as [|bi rec [H1 H2] _ IH]; [constructor|]. constructor; [by cbn|exact IH].
Qed.

Lemma frame_exec r f :
  frame_wf f → ∃ os, r_store (handle_frame r f).1 = exec (r_store r) os ∧ Forall op_wf os.
Proof.
  destruct f as [a|rs|b|a|m]; cbn [handle_frame]; intros Hwf;
    [..|exists []; by split; [|constructor]|exists []; by split; [|constructor]].
  - destruct (append_exec r a Hwf) as (os & Ho & Hos). exists os. by destruct (handle_append r a).
  - destruct Hwf as (H1 & H2 & _ & H3).
    exists [OSeed (rs_session_id rs) (rs_manifest rs) (rs_client_root rs)]. split; [done|].
    constructor; [by cbn|constructor].
  - destruct Hwf as (H1 & _). destruct (handle_bulk_outcome r b) as [d res _|rec pend fin Hrec _ _]; cbn.
    + exists []. by split; [|constructor].
    + by apply recovered_exec.
Qed.

(** The log on disk describes the store. *)
Definition durable (s : ContentStore) : Prop := logged s ∧ is_Some (wal s).

Lemma exec_durable s os : Forall op_wf os → durable s → durable (exec s os).
Proof.
  intros Hos. revert s. induction Hos as [|o os Ho _ IH]; intros s [Hl [w Hw]]; [by split; [|eexists]|].
  apply IH. split; [by eapply exec1_logged|by eapply exec1_wal_some].
Qed.

Lemma flush_durable s sync : durable s → durable (flush_wal s sync).1.
Proof.
  intros [Hl [w Hw]]. destruct (flush_wal s sync) as [s' res] eqn:Hf. cbn [fst].
  destruct res as [u|e|].
  - split; [by eapply logged_flush|].
    destruct (flush_wal_ok s s' sync w u Hw Hf) as (_ & _ & _ & w' & Hw' & _). by exists w'.
  - unfold flush_wal in Hf. destruct (wal_error s) as [e'|] eqn:He.
    + injection Hf as <- _. by split; [|exists w].
    + rewrite Hw in Hf. destruct (flush w sync) as [w' [[]|e'|]]; try done. injection Hf as <- _.
      unfold latch_wal_error. cbn. rewrite He. split; [by intros ? _ ?|by exists w'].
  - exfalso. revert Hf. unfold flush_wal. destruct (wal_error s); [done|]. rewrite Hw. unfold flush, write_all.
    destruct (w_faults w) as [|[[? ?]|] [|[[? ?]|] ?]], sync; cbn; done.
Qed.

Definition on_disk (st : SidecarState) : Prop := durable (r_store (sc_receiver st)).

Lemma flush_on_disk sync fail : preserves on_disk (flush_store sync fail).
Proof.
  intros st H. apply (flush_durable _ (sync st)) in H. unfold flush_store.
  by destruct (flush_wal _ _).
Qed.

Lemma decoded_wf buf f : decode_frame_bytes buf = Ok f → frame_wf f.
Proof.
  unfold decode_frame_bytes. zcase; [done|]. intros (tag & _ & H)%obind_ok_inv.
  apply obind_ok_inv in H as (body & _ & H). by apply decode_body_wf in H as [? _].
Qed.

Lemma post_frame_on_disk headers body : preserves on_disk (post_frame headers body).
Proof.
  unfold post_frame. apply preserves_bind; [apply preserves_respond|intros _].
  intros st Hst. unfold hbind at 1, respond. destruct (decode_frame_bytes body) as [f|e|] eqn:Hd; [|done..].
  cbn [map_err]. revert st Hst. apply preserves_bind; [by intros st|intros _].
  apply preserves_bind; [|intros o; apply preserves_bind; [apply flush_on_disk|intros; apply preserves_ret]].
  intros st Hst. unfold receive_frame. destruct (frame_exec (sc_receiver st) f (decoded_wf _ _ Hd)) as (os & Ho & Hos).
  destruct (handle_frame (sc_receiver st) f) as [r res]. cbn in *. unfold on_disk. cbn. rewrite Ho.
  by apply exec_durable.
Qed.

Lemma chat_tail_on_disk headers request frame :
  frame_wf (FAppend frame) → preserves on_disk (chat_tail headers request frame).
Proof.
  intros Hwf. unfold chat_tail. apply preserves_bind.
  { intros st Hst. unfold cached_projection. by destruct (cache_get _ _ _). }
  intros cached. apply preserves_bind.
  { intros st Hst. unfold receive_append. destruct (append_exec (sc_receiver st) frame Hwf) as (os & Ho & Hos).
    destruct (handle_append (sc_receiver st) frame) as [r res]. cbn in *. unfold on_disk. cbn. rewrite Ho.
    by apply exec_durable. }
  intros ack. apply preserves_bind; [apply flush_on_disk|intros _]. apply preserves_bind.
  { unfold render_chat. apply preserves_bind; [apply preserves_respond|]. intros [[c l] p].
    apply preserves_bind; [by intros st|]. intros. apply preserves_ret. }
  intros [chunks len]. apply preserves_bind; [apply preserves_respond|]. intros. apply preserves_ret.
Qed.

Lemma chat_on_disk headers body : preserves on_disk (chat_request headers body).
Proof.
  intros st Hst. rewrite chat_request_tail. unfold hbind at 1. pose proof (admit_same headers body st) as Hs.
  destruct (admit_chat headers body st) as [st' [[request frame]|e|]] eqn:Ha; cbn [fst] in *; subst st'; [|done..].
  apply admit_ok in Ha as (_ & _ & fb & _ & _ & Hd & _).
  apply chat_tail_on_disk; [by eapply decoded_wf|done].
Qed.

(** ** Serving requests *)

Inductive http_request : Type :=
| ChatPost (headers : HeaderMap) (body : bytes)
| FramePost (headers : HeaderMap) (body : bytes)
| Ready.

Definition serve (send : OutRequest → string + UpResponse) (st : SidecarState) (rq : http_request)
    : SidecarState :=
  match rq with
  | ChatPost headers body => (chat_completions send headers body st).1.1
  | FramePost headers body => (post_frame headers body st).1
  | Ready => (readyz st).1
  end.

Lemma chat_state send headers body st :
  (chat_completions send headers body st).1.1 = (chat_request headers body st).1.
Proof. unfold chat_completions. by destruct (chat_request headers body st) as [st' [[out ack]|e|]]. Qed.

Lemma serve_inv send st rq : sidecar_inv st → sidecar_inv (serve send st rq).
Proof.
  intros Hst. destruct rq as [h b|h b|]; cbn [serve].
  - rewrite chat_state. by apply chat_keeps.
  - by apply post_frame_keeps.
  - unfold readyz. apply preserves_bind; [apply keeps_flush| |done]. intros. apply preserves_ret.
Qed.

Lemma serve_on_disk send st rq : on_disk st → on_disk (serve send st rq).
Proof.
  intros Hst. destruct rq as [h b|h b|]; cbn [serve].
  - rewrite chat_state. by apply chat_on_disk.
  - by apply post_frame_on_disk.
  - unfold readyz. apply preserves_bind; [apply flush_on_disk| |done]. intros. apply preserves_ret.
Qed.

Definition serve_all send (st : SidecarState) (rqs : list http_request) : SidecarState :=
  foldl (serve send) st rqs.

Lemma serve_all_inv send st rqs : sidecar_inv st → sidecar_inv (serve_all send st rqs).
Proof.
  revert st. induction rqs as [|rq rqs IH]; intros st Hst; [done|]. apply IH. by apply serve_inv.
Qed.

Lemma serve_all_on_disk send st rqs : on_disk st → on_disk (serve_all send st rqs).
Proof.
  revert st. induction rqs as [|rq rqs IH]; intros st Hst; [done|]. apply IH. by apply serve_on_disk.
Qed.

Lemma hbind_sync {A B} (m : handler A) (k : A → handler B) b :
  preserves (λ st, sc_sync_wal st = b) m → (∀ a, preserves (λ st, sc_sync_wal st = b) (k a)) →
  preserves (λ st, sc_sync_wal st = b) (hbind m k).
Proof. apply preserves_bind. Qed.

Lemma serve_sync send st rq : sc_sync_wal (serve send st rq) = sc_sync_wal st.
Proof.
  assert (∀ sync fail, preserves (λ s, sc_sync_wal s = sc_sync_wal st) (flush_store sync fail)) as Hf.
  { intros sync fail s Hs. unfold flush_store. by destruct (flush_wal _ _). }
  assert (∀ A (a : A), preserves (λ s, sc_sync_wal s = sc_sync_wal st) (hret a)) as Hret by (by intros A a s).
  destruct rq as [h b|h b|]; cbn [serve].
  - rewrite chat_state, chat_request_tail.
    apply (hbind_sync _ _ (sc_sync_wal st)); [|intros [request frame]|done].
    { intros s Hs. by rewrite admit_same. }
    unfold chat_tail. apply hbind_sync; [|intros cached].
    { intros s Hs. unfold cached_projection. by destruct (cache_get _ _ _). }
    apply hbind_sync; [|intros ack].
    { intros s Hs. unfold receive_append. by destruct (handle_append _ _). }
    apply hbind_sync; [apply Hf|intros _]. apply hbind_sync.
    { unfold render_chat. apply hbind_sync; [by intros s|]. intros [[c l] p]. by apply hbind_sync; [intros s|]. }
    intros [c l]. by apply hbind_sync; [intros s|].
  - unfold post_frame. apply (hbind_sync _ _ (sc_sync_wal st)); [by intros s|intros _|done].
    apply hbind_sync; [by intros s|intros f]. apply hbind_sync; [by intros s|intros _].
    apply hbind_sync; [|intros o; apply hbind_sync; [apply Hf|intros; apply Hret]].
    intros s Hs. unfold receive_frame. by destruct (handle_frame _ _).
  - unfold readyz. apply (hbind_sync _ _ (sc_sync_wal st)); [apply Hf|intros; apply Hret|done].
Qed.

Lemma serve_all_sync send st rqs : sc_sync_wal (serve_all send st rqs) = sc_sync_wal st.
Proof.
  revert st. induction rqs as [|rq rqs IH]; intros st; [done|]. etrans; [apply IH|apply serve_sync].
Qed.

Lemma flush_synced s s' w :
  flush_wal s true = (s', Ok tt) → wal s' = Some w → w_synced w = zlen (w_log w) ∧ wal_error s' = None.
Proof.
  intros Hf Hw. destruct (wal s) as [w0|] eqn:Hw0.
  - destruct (flush_wal_ok s s' true w0 tt Hw0 Hf) as (_ & He & _ & w' & Hw' & _ & Hsync).
    assert (w' = w) as -> by congruence. auto.
  - unfold flush_wal in Hf. rewrite Hw0 in Hf. destruct (wal_error s); simplify_eq.
Qed.

(** A log that describes the store reopens to it. *)
Lemma reopen_logged s w fs :
  logged s → wal s = Some w → wal_error s = None →
  ∃ s2, with_wal (mkFile (w_log w) false fs) = Ok s2 ∧ view s2 = view s.
Proof.
  intros Hl Hw He. destruct (Hl w Hw He) as (rs & Hrs & E & Hv).
  destruct (with_wal_logged rs [] fs Hrs ltac:(by left)) as (s2 & Hs2 & Hv2 & _).
  exists s2. rewrite app_nil_r, <-E in Hs2. split; [done|congruence].
Qed.

Lemma Receiver_new_absent s sid : sessions s !! sid = None → r_sessions (Receiver_new s) !! sid = None.
Proof.
  intros Hn. cbn. assert (sid ∉ session_list s) as Hl.
  { unfold session_list. intros ([k l] & -> & Hin)%list_elem_of_fmap.
    apply elem_of_map_to_list in Hin. cbn in Hn. congruence. }
  revert Hl. generalize (session_list s). intros l Hl.
  assert (∀ g : gmap Z SessionState, g !! sid = None →
    foldl (λ g sid, <[sid := recover_state s sid]> g) g l !! sid = None) as H; [|by apply H].
  induction l as [|k l IH]; intros g Hg; [done|]. apply not_elem_of_cons in Hl as [Hne Hl].
  cbn [foldl]. apply IH; [done|]. by rewrite lookup_insert_ne.
Qed.

Lemma Receiver_new_pending s sid : stored s sid → pending (state_of (Receiver_new s) sid) = ∅.
Proof.
  intros Hs. destruct (Receiver_new_state s sid) as [->|Hn].
  - unfold recover_state. cbn [pending]. replace (filter _ _) with (@nil BlockId); [done|].
    symmetry. unfold stored in Hs. induction Hs as [|id l Hid _ IH]; [done|]. rewrite filter_cons_False; [done|].
    rewrite contains_false. by apply not_eq_None_Some.
  - unfold state_of. by rewrite (Receiver_new_absent s sid Hn).
Qed.

Lemma new_inv store url token sync :
  content_ok store → sidecar_inv (SidecarState_new (Receiver_new store) url token sync).
Proof.
  intros Hc. split; cbn; [by apply Receiver_new_inv|apply cache_default_wf|].
  by intros sid p ?%lookup_empty_Some.
Qed.
End Serve.

(** ** Theorems *)

Section Claims.
Context `{B3 : Blake3} {B3L : Blake3Laws} `{CC : Codec} {CL : CodecLaws} `{FC : FountainCode}.
Context `{SJ : SerdeJson} {SJL : SerdeJsonLaws} `{HT : HttpText} {HTL : HttpTextLaws}.

(** C14: The invariant of the sidecar.  After any sequence of chat requests, frames
    and readiness probes, hostile ones included, the receiver's invariant
    holds, the projection cache is within its two limits (one oversized entry
    may stand alone) with exact books, and every cached projection is the
    rendering of a prefix of its session's log. *)
Theorem sidecar_invariant store url token sync send rqs :
  content_ok store →
  let st := serve_all send (SidecarState_new (Receiver_new store) url token sync) rqs in
  receiver_inv (sc_receiver st) ∧
  Z.of_nat (size (entries (sc_cache st))) ≤ PROJECTION_CACHE_SESSIONS ∧
  cache_json_bytes (sc_cache st) = total_bytes (entries (sc_cache st)) ∧
  (cache_json_bytes (sc_cache st) ≤ PROJECTION_CACHE_JSON_BYTES ∨ (size (entries (sc_cache st)) ≤ 1)%nat) ∧
  ∀ sid p, entries (sc_cache st) !! sid = Some p → renders (r_store (sc_receiver st)) sid p.
Proof.
  intros Hc st. destruct (serve_all_inv send _ rqs (new_inv store url token sync Hc)) as [Hr [B C L] He].
  split_and!; try done. apply B.
Qed.

Lemma root_header_get h name root :
  header_get (insert_root_header h name root) name = Some (root_hex root).
Proof.
  unfold insert_root_header. rewrite hv_from_visible by apply root_hex_visible. apply header_get_insert.
Qed.

Lemma chat_completions_sent send headers body st st' rsp out :
  chat_completions send headers body st = (st', rsp, Some out) →
  ∃ ack r, chat_request headers body st = (st', Ok (out, ack)) ∧ rsp = Ok r ∧
    header_get (rsp_headers r) ACK_ROOT_HEADER = Some (root_hex (ack_root ack)).
Proof.
  unfold chat_completions. destruct (chat_request headers body st) as [s [[o ack]|e|]]; [|done..].
  intros [= <- <- <-]. exists ack. eexists. split; [done|]. split; [done|].
  destruct (send o); apply root_header_get.
Qed.

(** C34: What the chat endpoint forwards.  From any state with the invariant,
    whenever the sidecar contacts the upstream, the request body it streams is
    the request object of the envelope with the member [messages] added: the
    array of the payloads of the whole session log, in order and none missing,
    whether the projection came from the cache or was rebuilt.  The announced
    content length is the length of that body, the log's root is what the
    response acknowledges, and the root was reached by the envelope's frame. *)
Theorem chat_forwards_conversation st send headers body st' rsp out :
  sidecar_inv st → chat_completions send headers body st = (st', rsp, Some out) →
  ∃ request fb frame m inner r,
    ChatEnvelope_decode body = Ok (mkEnvelope request fb) ∧
    decode_frame_bytes fb = Ok (FAppend frame) ∧
    as_object request = Some m ∧ to_vec request = inr (ascii "{" ++ inner ++ ascii "}") ∧
    (inner = [] ↔ m = []) ∧
    let sid := ap_session_id frame in
    let store := r_store (sc_receiver st') in
    complete (sc_receiver st') sid ∧
    rsp = Ok r ∧ header_get (rsp_headers r) ACK_ROOT_HEADER = Some (root_hex (session_root store sid)) ∧
    (zlen (session_ids store sid) ≤ usize_max →
     concat (out_body out) = request_text inner store sid ∧
     header_get (out_headers out) "content-length"
       = Some (ascii (show_usize (Z.min (zlen (request_text inner store sid)) usize_max)))).
Proof.
  intros Hst (ack & r & Hc & -> & Hh)%chat_completions_sent.
  rewrite chat_request_tail in Hc. apply hbind_ok in Hc as (st1 & [request frame] & Ha & Hc).
  apply admit_ok in Ha as (-> & _ & fb & He & _ & Hd & _).
  pose proof (chat_tail_spec headers request frame st Hst) as H. rewrite Hc in H.
  destruct H as ([Hr _ _] & H).
  destruct (H out ack eq_refl) as ([A1 A2 A3] & _ & chunks & len & m & inner & -> & Ho & Hv & Hin & Hl).
  exists request, fb, frame, m, inner, r. cbv zeta. split_and!; try done.
  - apply complete_of_held; [apply Hr|done].
  - by rewrite Hh, A3.
  - intros Hfit. destruct (Hl Hfit) as (Hb & Hlen).
    cbn [out_body out_headers out_request]. split; [done|]. rewrite Hlen, Hb. reflexivity.
Qed.

(** C7: An acknowledged chat survives a crash.  Start a sidecar with [sync_wal] on
    a store whose log describes it, serve anything, then a chat request that
    reaches the upstream: its whole log is synced.  Reopening that log gives
    the same blocks and sessions; the restarted receiver reports the
    acknowledged root, has nothing pending and rebuilds the conversation. *)
Theorem ack_survives_restart store url token send rqs headers body st' rsp out :
  content_ok store → durable store →
  let st := serve_all send (SidecarState_new (Receiver_new store) url token true) rqs in
  chat_completions send headers body st = (st', rsp, Some out) →
  ∃ w r frame fb request, wal (r_store (sc_receiver st')) = Some w ∧ w_synced w = zlen (w_log w) ∧
    ChatEnvelope_decode body = Ok (mkEnvelope request fb) ∧ decode_frame_bytes fb = Ok (FAppend frame) ∧
    ∀ fs, ∃ s2, with_wal (mkFile (w_log w) false fs) = Ok s2 ∧
      view s2 = view (r_store (sc_receiver st')) ∧
      rsp = Ok r ∧ header_get (rsp_headers r) ACK_ROOT_HEADER
        = Some (root_hex (session_root (r_store (Receiver_new s2)) (ap_session_id frame))) ∧
      pending (state_of (Receiver_new s2) (ap_session_id frame)) = ∅ ∧
      reconstruct (r_store (Receiver_new s2)) (ap_session_id frame)
        = reconstruct (r_store (sc_receiver st')) (ap_session_id frame).
Proof.
  intros Hcont Hdur st (ack & r & Hc & -> & Hh)%chat_completions_sent.
  assert (sidecar_inv st) as Hst by (apply serve_all_inv, new_inv, Hcont).
  assert (on_disk st) as Hdisk by (by apply serve_all_on_disk).
  assert (sc_sync_wal st = true) as Hsync by apply serve_all_sync.
  pose proof (chat_on_disk headers body st Hdisk) as Hdisk'. rewrite Hc in Hdisk'.
  destruct Hdisk' as [Hl [w Hw]]. cbn [fst] in Hl, Hw.
  rewrite chat_request_tail in Hc. apply hbind_ok in Hc as (st1 & [request frame] & Ha & Hc).
  apply admit_ok in Ha as (-> & _ & fb & He & _ & Hd & _).
  pose proof (chat_tail_spec headers request frame st Hst) as H. rewrite Hc in H.
  destruct H as ([Hr _ _] & H). destruct (H out ack eq_refl) as ([_ A2 A3] & (r1 & s' & Hap & Hf & E2) & _).
  rewrite Hsync in Hf. rewrite E2 in *. cbn [with_store r_store] in *.
  destruct (flush_synced _ _ _ Hf Hw) as [Hfull Hnone].
  exists w, r, frame, fb, request. split_and!; try done. intros fs.
  destruct (reopen_logged _ w fs Hl Hw Hnone) as (s2 & Hs2 & Hv). exists s2.
  unfold view in Hv. injection Hv as Hb Hs. split_and!; try done.
  - unfold view. by rewrite Hb, Hs.
  - rewrite Hh, A3. cbn. unfold session_root. by rewrite Hs.
  - rewrite Receiver_new_pending; [done|]. unfold stored, session_ids in *. by rewrite Hb, Hs.
  - cbn. unfold reconstruct. by rewrite Hb, Hs.
Qed.
(** The token guards both endpoints.  With a token configured, a request is
    admitted exactly when its token header is printable and equal to it; any
    other request gets a 401, reaches neither the receiver nor the upstream,
    and changes nothing. *)
Theorem token_guards st send headers body token :
  sc_ingress_token st = Some token →
  (authorized st headers = true ↔ header_get headers SIDECAR_TOKEN_HEADER ≫= hv_to_str = Some token) ∧
  (header_get headers SIDECAR_TOKEN_HEADER ≫= hv_to_str ≠ Some token →
   chat_completions send headers body st = (st, Ok (error_response 401 "invalid sidecar token"), None) ∧
   post_frame headers body st = (st, Err (error_response 401 "invalid sidecar token"))).
Proof.
  intros Ht.
  assert (authorized st headers = true ↔ header_get headers SIDECAR_TOKEN_HEADER ≫= hv_to_str = Some token) as Ha.
  { unfold authorized. rewrite Ht. destruct (_ ≫= _) as [actual|]; [|done].
    rewrite constant_time_eq_spec. naive_solver. }
  split; [exact Ha|]. intros Hne.
  assert (authorized st headers = false) as Hf by (apply not_true_is_false; by rewrite Ha).
  unfold chat_completions, chat_request, admit_chat, post_frame, hbind, authenticate, respond.
  rewrite Hf. done.
Qed.

(** An empty request object is forwarded as malformed JSON: the sidecar cuts
    the closing brace and appends a comma before the messages, so the body
    starts with a brace and a comma. *)
Theorem empty_request_malformed st send headers body st' rsp out request fb :
  sidecar_inv st → chat_completions send headers body st = (st', rsp, Some out) →
  ChatEnvelope_decode body = Ok (mkEnvelope request fb) → as_object request = Some [] →
  take 2 (concat (out_body out)) = ascii "{,".
Proof.
  intros Hst (ack & r & Hc & -> & _)%chat_completions_sent Henv Hobj.
  rewrite chat_request_tail in Hc. apply hbind_ok in Hc as (st1 & [request' frame] & Ha & Hc).
  apply admit_ok in Ha as (-> & _ & fb' & He & _ & _ & _). rewrite Henv in He. injection He as <- <-.
  unfold chat_tail in Hc. apply hbind_ok in Hc as (s1 & p1 & _ & Hc).
  apply hbind_ok in Hc as (s2 & a2 & _ & Hc). apply hbind_ok in Hc as (s3 & u3 & _ & Hc).
  apply hbind_ok in Hc as (s4 & [c4 l4] & Hr & Hc). unfold render_chat in Hr.
  apply hbind_ok in Hr as (s5 & [[c5 l5] p5] & Hb & Hr). apply respond_ok in Hb as [_ Hb].
  apply hbind_ok in Hr as (s6 & u6 & _ & Hr). injection Hr as _ <- <-.
  apply hbind_ok in Hc as (s7 & o7 & Ho & Hc). apply respond_ok in Ho as [_ Ho].
  injection Hc as _ <- _. injection Ho as <-.
  destruct (request_body_inv _ _ _ _ _ _ _ _ Hb) as (m & inner & Hm & _ & Hin & -> & _ & _).
  assert (m = []) as -> by congruence. rewrite (proj2 Hin eq_refl). reflexivity.
Qed.
End Claims.
