(* ===== verification/Lifecycle.v ===== *)
(** * Lifecycle: the sidecar process ([sidecar/src/main.rs])

    A process refuses or opens its log, serves requests and flushes when it is
    told to stop; then the next process opens what is on disk.  [left_on_disk] is every
    content the log can have after any number of such lives, orderly ones and
    ones that were cut short.  Binding the socket, building the HTTP client,
    creating the log's directory and waiting for the signal are the operating
    system's. *)

From S2P Require Import Prelude Interfaces Block Merkle Frame Wal Store Recovery Compress FountainSig.
From S2P Require Import Receiver Web Sidecar SidecarCorrect SidecarServe.

(** The arguments [main] uses: whether the address is a loopback one, the
    upstream, the value of the token variable, and [--sync-wal]. *)
Record Args : Type := mkArgs {
  a_loopback : bool;
  a_upstream_url : bytes;
  a_token_var : option bytes;
  a_sync_wal : bool
}.

Inductive StartError : Type := RefusedBind | StartIo (e : io_error).

Section Process.
Context `{B3 : Blake3} `{CC : Codec} `{FC : FountainCode} `{SJ : SerdeJson} `{HT : HttpText}.

(** [main] up to the listener. *)
Definition start (args : Args) (file : wal_file) : outcome StartError SidecarState :=
  let token := ingress_token (a_token_var args) in
  if negb (may_bind (a_loopback args) token) then Err RefusedBind
  else
    let? store := map_err StartIo (with_wal file) in
    Ok (SidecarState_new (Receiver_new store) (a_upstream_url args) token (a_sync_wal args)).

(** After the server has returned: everything accepted goes to the disk. *)
Definition stop (st : SidecarState) : SidecarState * outcome io_error unit :=
  let '(store, res) := flush_wal (r_store (sc_receiver st)) true in
  (with_receiver st (with_store (sc_receiver st) store), res).

(** A whole orderly life. *)
Definition main (args : Args) (file : wal_file) (send : OutRequest → string + UpResponse)
    (rqs : list http_request) : outcome StartError (SidecarState * outcome io_error unit) :=
  let? st := start args file in
  Ok (stop (serve_all send st rqs)).

(** The store of a process, and its log. *)
Definition store_of (st : SidecarState) : ContentStore := r_store (sc_receiver st).

(** What can be on disk: nothing; the log after an orderly life; the log of a
    life without write errors, cut anywhere. *)
Inductive left_on_disk : bytes → Prop :=
| DiskFresh : left_on_disk []
| DiskStopped data args fs send rqs st w :
    left_on_disk data → main args (mkFile data false fs) send rqs = Ok (st, Ok tt) →
    wal (store_of st) = Some w → left_on_disk (w_log w)
| DiskCrashed data args fs send rqs st w n :
    left_on_disk data → start args (mkFile data false fs) = Ok st →
    wal (store_of (serve_all send st rqs)) = Some w →
    wal_error (store_of (serve_all send st rqs)) = None →
    0 ≤ n ≤ zlen (w_log w) → left_on_disk (ztake n (w_log w)).
End Process.

(** ** What is on disk is a log, up to a torn record *)

Definition torn (tail : bytes) : Prop :=
  tail = [] ∨ ∃ r q, rec_wf r ∧ rec_bytes r = tail ++ q ∧ q ≠ [].

Lemma log_cut rs n :
  Forall rec_wf rs → 0 ≤ n ≤ zlen (log_bytes rs) →
  ∃ rs' tail, ztake n (log_bytes rs) = log_bytes rs' ++ tail ∧ Forall rec_wf rs' ∧ torn tail.
Proof.
  intros Hrs. revert n. induction Hrs as [|r rs Hr _ IH]; intros n Hn.
  { exists [], []. split_and!; [|done|by left]. apply take_nil. }
  change (log_bytes (r :: rs)) with (rec_bytes r ++ log_bytes rs) in *. rewrite zlen_app in Hn.
  destruct (decide (zlen (rec_bytes r) ≤ n)) as [Hge|Hlt].
  - destruct (IH (n - zlen (rec_bytes r))) as (rs' & tail & E & Hrs' & Ht); [lia|].
    exists (r :: rs'), tail. split_and!; [|by constructor|done].
    change (log_bytes (r :: rs')) with (rec_bytes r ++ log_bytes rs'). rewrite <-app_assoc, <-E.
    unfold ztake, zlen in *. rewrite take_app, (take_ge (rec_bytes r)) by lia. do 2 f_equal. lia.
  - exists [], (ztake n (rec_bytes r)). split_and!; [|done|].
    + unfold ztake, zlen in *. by rewrite take_app_le by lia.
    + right. exists r, (zdrop n (rec_bytes r)). split_and!; [done|by rewrite ztake_zdrop|].
      intros E. apply (f_equal zlen) in E. rewrite zlen_zdrop, zlen_nil in E by lia. lia.
Qed.

(** Opening any file at all yields content under its own id. *)
Section Content.
Context `{B3 : Blake3}.

Lemma replay_record_content s sid v p s' :
  content_ok s → replay_record s sid v p = Ok s' → content_ok s'.
Proof.
  intros Hc H. unfold replay_record in H. unfold content_ok.
  assert (∀ b, from_canonical p = Ok b → block_wf b) as Hwf.
  { intros b Hb. by apply from_canonical_inv in Hb as [? _]. }
  destruct (decide (v = VAR_INSERT)).
  { destruct (from_canonical p) as [b|?|]; [|by injection H as <-|done]. injection H as <-.
    unfold insert, insert_with_id. rewrite insert_blocks. apply put_block_content; auto. }
  destruct (decide (v = VAR_REFERENCE)).
  { destruct (zlen p =? 32); injection H as <-; [|done]. by rewrite reference_blocks. }
  destruct (decide (v = VAR_SEED)).
  { destruct (4 <=? zlen p); [|by injection H as <-]. apply obind_ok_inv in H as (c & _ & H).
    case_match; [|by injection H as <-].
    apply obind_ok_inv in H as (ids & _ & H). apply obind_ok_inv in H as (rt & _ & H).
    injection H as <-. by rewrite seed_blocks. }
  destruct (decide (v = VAR_CONTENT)); [|by injection H as <-].
  destruct (from_canonical p) as [b|?|]; [|by injection H as <-|done].
  assert (s' = (store_content s sid b).1) as -> by congruence. unfold store_content. rewrite content_blocks. apply put_block_content; auto.
Qed.

Lemma replay_loop_content fuel pos r s n s' :
  content_ok s → replay_loop fuel pos r s = Ok (n, s') → content_ok s'.
Proof.
  revert pos r s. induction fuel as [|fuel IH]; intros pos r s Hc H; cbn [replay_loop] in H; [done|].
  destruct (read_exact_or_eof r HEADER) as [[hdr r1]|]; [|by simplify_eq].
  apply obind_ok_inv in H as (sb & _ & H). apply obind_ok_inv in H as (v & _ & H).
  apply obind_ok_inv in H as (lb & _ & H). destruct (MAX_RECORD_BYTES <? _); [done|].
  destruct (read_exact_or_eof r1 _) as [[p r2]|]; [|by simplify_eq].
  apply obind_ok_inv in H as (s1 & Hs1 & H). eapply IH; [|exact H]. by eapply replay_record_content.
Qed.

Lemma with_wal_content file s : with_wal file = Ok s → content_ok s.
Proof.
  unfold with_wal, Wal_open. destruct (f_locked file); [done|]. intros H.
  apply obind_ok_inv in H as ([w s1] & H1 & H). apply obind_ok_inv in H1 as ([n s2] & H2 & H1).
  injection H1 as _ <-. injection H as <-. unfold content_ok, set_wal.
  assert (content_ok s2) as Hc by (eapply (replay_loop_content _ _ _ new); [done|exact H2]).
  by destruct (wal s2).
Qed.
End Content.

(** ** Lives *)

Section Lives.
Context `{B3 : Blake3} {B3L : Blake3Laws} `{CC : Codec} {CL : CodecLaws} `{FC : FountainCode}.
Context `{SJ : SerdeJson} {SJL : SerdeJsonLaws} `{HT : HttpText} {HTL : HttpTextLaws}.

Lemma start_ok args file st :
  start args file = Ok st → ∃ s, with_wal file = Ok s ∧
    st = SidecarState_new (Receiver_new s) (a_upstream_url args) (ingress_token (a_token_var args)) (a_sync_wal args).
Proof.
  unfold start. destruct (negb (may_bind _ _)); [done|]. intros H.
  apply obind_ok_inv in H as (s & Hs & H). injection H as <-. exists s. split; [|done].
  destruct (with_wal file); by simplify_eq/=.
Qed.

(** A process on a log starts with the log's state. *)
Lemma start_logged args rs tail fs st :
  Forall rec_wf rs → torn tail → start args (mkFile (log_bytes rs ++ tail) false fs) = Ok st →
  view (store_of st) = view (foldl apply_rec new rs) ∧ on_disk st ∧ sidecar_inv st.
Proof.
  intros Hrs Ht (s & Hs & ->)%start_ok.
  destruct (with_wal_logged rs tail fs Hrs Ht) as (s' & Hs' & Hv & Hl & Hw & _).
  assert (s' = s) as -> by congruence. split_and!; [done|by split|].
  apply new_inv. by eapply with_wal_content.
Qed.

Lemma stop_ok st st' w :
  on_disk st → stop st = (st', Ok tt) → wal (store_of st') = Some w →
  view (store_of st') = view (store_of st) ∧ w_synced w = zlen (w_log w) ∧
  ∃ rs, Forall rec_wf rs ∧ w_log w = log_bytes rs ∧ view (foldl apply_rec new rs) = view (store_of st).
Proof.
  intros [Hl [w0 Hw0]] H Hw. unfold stop in H.
  destruct (flush_wal (r_store (sc_receiver st)) true) as [s res] eqn:Hf. injection H as <- ->.
  unfold store_of in *. cbn [sc_receiver with_receiver with_store r_store] in *.
  destruct (flush_wal_ok _ s true w0 tt Hw0 Hf) as (_ & He & Hv & w' & Hw' & _ & Hs).
  assert (w' = w) as -> by congruence. split_and!; [done|by apply Hs|].
  destruct (logged_flush _ _ _ _ Hl Hf w Hw He) as (rs & Hrs & Elog & Ev). exists rs.
  split_and!; [done..|]. by rewrite Ev.
Qed.

Lemma disk_is_log data : left_on_disk data → ∃ rs tail, data = log_bytes rs ++ tail ∧ Forall rec_wf rs ∧ torn tail.
Proof.
  induction 1 as [|data args fs send rqs st w _ (rs & tail & -> & Hrs & Ht) Hm Hw
                  |data args fs send rqs st w n _ (rs & tail & -> & Hrs & Ht) Hs Hw He Hn].
  - exists [], []. split_and!; [done..|by left].
  - unfold main in Hm. apply obind_ok_inv in Hm as (st0 & Hs & Hm).
    assert (stop (serve_all send st0 rqs) = (st, Ok tt)) as Hst by congruence.
    destruct (start_logged _ _ _ _ _ Hrs Ht Hs) as (_ & Hd & _).
    destruct (stop_ok _ _ _ (serve_all_on_disk send _ rqs Hd) Hst Hw) as (_ & _ & rs' & Hrs' & -> & _).
    exists rs', []. split_and!; [by rewrite app_nil_r|done|by left].
  - destruct (start_logged _ _ _ _ _ Hrs Ht Hs) as (_ & Hd & _).
    destruct (serve_all_on_disk send _ rqs Hd) as [Hl _].
    destruct (Hl w Hw He) as (rs' & Hrs' & E & _). rewrite E in *. by apply log_cut.
Qed.
End Lives.

(** ** Theorems *)

Section Claims.
Context `{B3 : Blake3} {B3L : Blake3Laws} `{CC : Codec} {CL : CodecLaws} `{FC : FountainCode}.
Context `{SJ : SerdeJson} {SJL : SerdeJsonLaws} `{HT : HttpText} {HTL : HttpTextLaws}.

(** C36: The sidecar always comes back.  From whatever earlier processes left on
    disk, stopped in order or cut off at any byte, a process that may bind
    starts, with the sidecar's invariant; and when a life ends with a
    successful flush (also one that did not sync each request) all of its log is
    synced and the next process starts with exactly its blocks and sessions. *)
Theorem sidecar_restarts data args fs :
  left_on_disk data →
  (may_bind (a_loopback args) (ingress_token (a_token_var args)) = true →
   ∃ st, start args (mkFile data false fs) = Ok st ∧ sidecar_inv st ∧ on_disk st) ∧
  ∀ send rqs st, main args (mkFile data false fs) send rqs = Ok (st, Ok tt) →
    ∃ w, wal (store_of st) = Some w ∧ w_synced w = zlen (w_log w) ∧
      ∀ args' fs' st', start args' (mkFile (w_log w) false fs') = Ok st' →
        view (store_of st') = view (store_of st).
Proof.
  intros (rs & tail & -> & Hrs & Ht)%disk_is_log. split.
  - intros Hbind. destruct (with_wal_logged rs tail fs Hrs Ht) as (s & Hs & _).
    assert (start args (mkFile (log_bytes rs ++ tail) false fs) = Ok (SidecarState_new (Receiver_new s)
      (a_upstream_url args) (ingress_token (a_token_var args)) (a_sync_wal args))) as E.
    { unfold start. by rewrite Hbind, Hs. }
    eexists. split; [exact E|]. by destruct (start_logged _ _ _ _ _ Hrs Ht E) as (_ & ? & ?).
  - intros send rqs st Hm. unfold main in Hm. apply obind_ok_inv in Hm as (st0 & Hs & Hm).
    assert (stop (serve_all send st0 rqs) = (st, Ok tt)) as Hst by congruence.
    destruct (start_logged _ _ _ _ _ Hrs Ht Hs) as (_ & Hd & _).
    pose proof (serve_all_on_disk send _ rqs Hd) as Hd'.
    assert (is_Some (wal (store_of st))) as [w Hw].
    { pose proof (flush_durable _ true Hd') as [_ Hw]. unfold stop in Hst.
      destruct (flush_wal _ true) as [s res]. by injection Hst as <- _. }
    destruct (stop_ok _ _ _ Hd' Hst Hw) as (Hv & Hsync & rs' & Hrs' & Elog & Ev).
    exists w. split_and!; [done..|]. intros args' fs' st' Hs'.
    rewrite Elog, <-(app_nil_r (log_bytes rs')) in Hs'.
    destruct (start_logged _ _ _ _ _ Hrs' (or_introl eq_refl) Hs') as (Hv' & _). congruence.
Qed.
End Claims.
