(* ===== verification/ChatClient.v ===== *)
(** * ChatClient: the client side of [sidecar/src/lib.rs]

    [ChatSession] turns messages into APPEND envelopes and waits for their
    acknowledgement; [DlrChatClient] drives it over HTTP.  An HTTP exchange is
    split at the network: [send_chat] takes the response that came back. *)

From S2P Require Import Prelude Interfaces F64 Block Merkle Filter Frame Wal Store Compress FountainSig.
From S2P Require Import Receiver GfVec Gauss Fountain FountainCorrect Encoder Bulk Shim Protocol ColdStart.
From S2P Require Import Recovery Web Sidecar SidecarCorrect SidecarServe.

Section Client.
Context `{B3 : Blake3} `{CC : Codec} `{DF : DedupFilter} `{LM : Libm} `{SJ : SerdeJson} `{HT : HttpText}.
Variable isa : Isa.

Record PreparedChatRequest : Type := mkPrepared {
  pr_body : bytes;
  pr_expected_root : MerkleRoot;
  pr_request_json_bytes : Z;
  pr_new_messages_json_bytes : Z
}.

(** The shim owns its store and filter. *)
Record ChatSession : Type := mkChat {
  c_shim : SessionShim;
  c_host : Host;
  c_next_seq : Z;
  c_pending_root : option MerkleRoot
}.

Definition session_id_from_key (key : bytes) : Z := from_le (take 16 (blake3 key)).

(** [filter] is the fresh filter of [SessionShim::new]. *)
Definition ChatSession_new (filter : Filter) (session_key : bytes) : ChatSession :=
  mkChat (SessionShim_new (session_id_from_key session_key) (c_level Compressor_default))
    (mkHost new filter) 1 None.

Definition message_kind (m : list (bytes * Value)) : BlockKind :=
  match map_get m (ascii "role") ≫= as_str with
  | Some role =>
      if bool_decide (role = ascii "system") || bool_decide (role = ascii "developer") then System
      else if bool_decide (role = ascii "tool") then ToolResult
      else if bool_decide (role = ascii "assistant") &&
              bool_decide (is_Some (map_get m (ascii "tool_calls"))) then ToolCall
      else Message
  | None => Message
  end.

Fixpoint serialize_messages (index : Z) (ms : list Value) : outcome SidecarError (list (BlockKind * bytes)) :=
  match ms with
  | [] => Ok []
  | message :: ms' =>
      let? object := ok_or (as_object message) (InvalidMessage index) in
      let? _ := validate_message_object object index in
      let? json := of_result Metadata (to_vec message) in
      let? rest := serialize_messages (index + 1) ms' in
      Ok ((message_kind object, json) :: rest)
  end.

(** [{"request":] *)
Definition REQUEST_OPEN : bytes := ascii "{" ++ Byte.x22 :: ascii "request" ++ Byte.x22 :: ascii ":".

Fixpoint worst_case (size : Z) (serialized : list (BlockKind * bytes)) : outcome SidecarError Z :=
  match serialized with
  | [] => Ok size
  | (_, payload) :: rest =>
      let? size := ok_or (n ← checked_add size 39; checked_add n (zlen payload))
                     (Envelope "length overflow") in
      worst_case size rest
  end.

(** [u64::saturating_add(1)]. *)
Fixpoint number_blocks (seq : Z) (serialized : list (BlockKind * bytes)) : Z * list Block :=
  match serialized with
  | [] => (seq, [])
  | (kind, payload) :: rest =>
      let '(seq', bs) := number_blocks (Z.min (seq + 1) (2 ^ 64 - 1)) rest in
      (seq', mkBlock kind seq payload :: bs)
  end.

Definition sum_payloads (serialized : list (BlockKind * bytes)) : Z :=
  foldl (λ n kp, n + zlen kp.2) 0 serialized.

(** Everything before the shim is touched: the serialised messages, the request
    and the metadata. *)
Definition check_request (ms : list Value) (request : Value)
    : outcome SidecarError (list (BlockKind * bytes) * bytes * bytes) :=
  let? object := ok_or (as_object request) RequestNotObject in
  if contains_key object (ascii "messages") then Err MessagesInMetadata else
  let? serialized := serialize_messages 0 ms in
  let? _ := validate_request_value request in
  let? request_json := of_result Metadata (to_vec request) in
  let metadata := REQUEST_OPEN ++ request_json ++ ascii "}" in
  if MAX_METADATA_BYTES <? zlen metadata then Err (Envelope "metadata exceeds 2 MiB") else
  let? base := ok_or (n ← checked_add 10 (zlen metadata); checked_add n 53) (Envelope "length overflow") in
  let? worst := worst_case base serialized in
  if MAX_REQUEST_BYTES <? worst then Err (Envelope "request exceeds 64 MiB") else
  Ok (serialized, request_json, metadata).

Definition prepare_ref (c : ChatSession) (ms : list Value) (request : Value)
    : ChatSession * outcome SidecarError PreparedChatRequest :=
  match c_pending_root c with
  | Some _ => (c, Err RequestInFlight)
  | None =>
      match check_request ms request with
      | Err e => (c, Err e)
      | Panic => (c, Panic)
      | Ok (serialized, request_json, metadata) =>
          let '(seq, bs) := number_blocks (c_next_seq c) serialized in
          let '(shim, host, append) := ingest_turn (c_shim c) (c_host c) bs in
          let expected_root := s_root shim in
          let frame := encode_frame (FAppend append) in
          match encode_parts metadata frame with
          | Ok body =>
              (mkChat shim host seq (Some expected_root),
               Ok (mkPrepared body expected_root (zlen request_json) (sum_payloads serialized)))
          | Err e => (mkChat shim host seq None, Err e)
          | Panic => (mkChat shim host seq None, Panic)
          end
      end
  end.

Definition chat_apply_ack (c : ChatSession) (root : MerkleRoot) : ChatSession * bool :=
  let '(shim, applied) := apply_ack (c_shim c) root in
  let pend := if applied && bool_decide (c_pending_root c = Some root) then None else c_pending_root c in
  (mkChat shim (c_host c) (c_next_seq c) pend, applied).

Definition chat_resync_frame (c : ChatSession) : bytes := encode_frame (FResync (resync_frame (c_shim c))).

(** [ShimError::to_string]. *)
Definition ShimError_to_string (e : ShimError) : string :=
  match e with
  | SCoding msg => "coding error: " ++ msg
  | SCompress msg => "compress error: " ++ msg
  | ColdStartRequired sid => "session " ++ show_usize sid ++ " unknown to receiver; cold start required"
  end%string.

Definition chat_bulk_frames_for (c : ChatSession) (missing : list BlockId) (pct : Z)
    : outcome SidecarError (list bytes) :=
  let? frames := map_err (λ e, SFrame (ShimError_to_string e))
                   (bulk_frames_for isa (c_shim c) (h_store (c_host c)) missing pct) in
  Ok ((λ f, encode_frame (FBulk f)) <$> frames).

(** The HTTP driver. *)
Record DlrChatClient : Type := mkClient { base_url : bytes; client_token : option bytes }.

Definition DlrChatClient_new (url : bytes) (token : option bytes) : DlrChatClient :=
  mkClient (trim_slashes url) token.

(** [request.header(..)] adds a value; the token goes last. *)
Definition with_token (cl : DlrChatClient) (h : HeaderMap) : HeaderMap :=
  match client_token cl with
  | Some token => header_append h SIDECAR_TOKEN_HEADER token
  | None => h
  end.

Definition chat_post (cl : DlrChatClient) (prepared : PreparedChatRequest) (headers : HeaderMap) : OutRequest :=
  mkOut (base_url cl ++ ascii "/v1/dlr/chat/completions")
    (with_token cl (header_append headers "content-type" CONTENT_TYPE)) [pr_body prepared].

Definition frame_post (cl : DlrChatClient) (frame : bytes) : OutRequest :=
  mkOut (base_url cl ++ ascii "/v1/dlr/frame")
    (with_token cl [("content-type", FRAME_CONTENT_TYPE)]) [frame].

(** [send_chat] once the request's result is there. *)
Definition send_chat (c : ChatSession) (prepared : PreparedChatRequest) (sent : string + Response)
    : ChatSession * outcome SidecarError Response :=
  match sent with
  | inl e => (c, Err (Upstream e))
  | inr response =>
      match header_get (rsp_headers response) ACK_ROOT_HEADER with
      | None => (c, Ok response)
      | Some value =>
          match hv_to_str value ≫= parse_root_hex with
          | None => (c, Err InvalidAckHeader)
          | Some root =>
              if negb (bool_decide (root = pr_expected_root prepared)) then (c, Err UnexpectedAckRoot)
              else let '(c, applied) := chat_apply_ack c root in
                   if negb applied then (c, Err UnexpectedAckRoot) else (c, Ok response)
          end
      end
  end.

(** [exchange_frame] once the response is there. *)
Definition exchange_result (sent : string + Response) (text : Response → string) (raw : Response → string + bytes)
    : outcome SidecarError (option Frame) :=
  match sent with
  | inl e => Err (Upstream e)
  | inr response =>
      if rsp_status response =? 204 then Ok None
      else if negb ((200 <=? rsp_status response) && (rsp_status response <=? 299))
      then Err (HttpStatus (rsp_status response) (text response))
      else let? body := of_result Upstream (raw response) in
           map_err (λ e, SFrame (FrameError_to_string e))
             (let? f := decode_frame_bytes body in Ok (Some f))
  end.

Definition apply_protocol_ack (c : ChatSession) (ack : AckFrame) : ChatSession * outcome SidecarError unit :=
  if negb (ack_session_id ack =? s_session_id (c_shim c)) then (c, Err UnexpectedAckRoot)
  else let '(c, applied) := chat_apply_ack c (ack_root ack) in
       if negb applied then (c, Err UnexpectedAckRoot) else (c, Ok tt).

(** [synchronize] over a network state [W]: [exchange] posts a frame. *)
Section Synchronize.
Variables (W : Type) (exchange : W → bytes → W * outcome SidecarError (option Frame)).

(** The loop over the bulk frames keeps the last acknowledgement. *)
Fixpoint send_bulk (w : W) (completion : option AckFrame) (frames : list bytes)
    : W * outcome SidecarError (option AckFrame) :=
  match frames with
  | [] => (w, Ok completion)
  | f :: frames' =>
      match exchange w f with
      | (w, Ok (Some (FAck ack))) => send_bulk w (Some ack) frames'
      | (w, Ok _) => send_bulk w completion frames'
      | (w, Err e) => (w, Err e)
      | (w, Panic) => (w, Panic)
      end
  end.

Definition synchronize (w : W) (c : ChatSession) (pct : Z) : W * ChatSession * outcome SidecarError unit :=
  match exchange w (chat_resync_frame c) with
  | (w, Err e) => (w, c, Err e)
  | (w, Panic) => (w, c, Panic)
  | (w, Ok (Some (FAck ack))) => let '(c, r) := apply_protocol_ack c ack in (w, c, r)
  | (w, Ok (Some (FMissing missing))) =>
      if ms_session_id missing =? s_session_id (c_shim c) then
        match chat_bulk_frames_for c (ms_missing missing) pct with
        | Err e => (w, c, Err e)
        | Panic => (w, c, Panic)
        | Ok frames =>
            match send_bulk w None frames with
            | (w, Err e) => (w, c, Err e)
            | (w, Panic) => (w, c, Panic)
            | (w, Ok None) => (w, c, Err UnexpectedFrame)
            | (w, Ok (Some ack)) => let '(c, r) := apply_protocol_ack c ack in (w, c, r)
            end
        end
      else (w, c, Err UnexpectedFrame)
  | (w, Ok _) => (w, c, Err UnexpectedFrame)
  end.
End Synchronize.
End Client.

(** ** The size bound of a prepared request *)

Section Bound.
Context `{B3 : Blake3} {B3L : Blake3Laws} `{CC : Codec} {CL : CodecLaws} `{DF : DedupFilter}.
Context `{SJ : SerdeJson} `{HT : HttpText}.

(** The worst case of the entries, given the payloads. *)
Definition worst_sum (ps : list bytes) : Z := foldr (λ p n, 39 + zlen p + n) 0 ps.

Lemma worst_sum_nonneg ps : 0 ≤ worst_sum ps.
Proof. induction ps as [|p ps IH]; simpl; [done|]. pose proof (zlen_nonneg p). lia. Qed.

Lemma worst_case_sum size ser w :
  worst_case size ser = Ok w → w = size + worst_sum ser.*2.
Proof.
  revert size. induction ser as [|[k p] ser IH]; intros size H; cbn [worst_case] in H.
  { injection H as <-. simpl. lia. }
  apply obind_ok_inv in H as (n & Hn & H). apply IH in H as ->.
  change (worst_sum ((k, p) :: ser).*2) with (39 + zlen p + worst_sum ser.*2).
  unfold ok_or, checked_add in Hn. destruct (_ <=? usize_max); [cbn in Hn|done].
  destruct (_ <=? usize_max); [|done]. injection Hn as <-. lia.
Qed.

Lemma number_blocks_payloads seq ser : payload <$> (number_blocks seq ser).2 = ser.*2.
Proof.
  revert seq. induction ser as [|[k p] ser IH]; intros seq; cbn [number_blocks]; [done|].
  specialize (IH (Z.min (seq + 1) (2 ^ 64 - 1))). destruct (number_blocks _ ser) as [s' bs].
  cbn in *. by rewrite IH.
Qed.

Lemma number_blocks_wf seq ser :
  0 ≤ seq < 2 ^ 64 → Forall (λ p, zlen p ≤ MAX_REQUEST_BYTES) ser.*2 →
  Forall block_wf (number_blocks seq ser).2 ∧ 0 ≤ (number_blocks seq ser).1 < 2 ^ 64.
Proof.
  revert seq. induction ser as [|[k p] ser IH]; intros seq Hs Hp; cbn [number_blocks]; [done|].
  cbn in Hp. apply Forall_cons_iff in Hp as [Hp Hps].
  destruct (IH (Z.min (seq + 1) (2 ^ 64 - 1))) as [H1 H2]; [lia|done|].
  destruct (number_blocks _ ser) as [s' bs]. cbn in *. split; [|done]. constructor; [|done].
  split; cbn; [done|]. etrans; [exact Hp|]. by vm_compute.
Qed.

(** An entry on the wire is within its share of the worst case. *)
Definition entry_fits (p : bytes) (fb : FrameBlock) : Prop :=
  frame_block_size fb ≤ 39 + zlen p ∧
  match fb with Inline b => 0 ≤ seq b < 2 ^ 64 | Ref i => id_wf i end.

Lemma ingest_block_fits sh h b :
  0 ≤ seq b < 2 ^ 64 → entry_fits (payload b) (ingest_block sh h b).2.
Proof.
  intros Hs. unfold ingest_block. rewrite one_pass. pose proof (zlen_nonneg (payload b)).
  destruct (if filter_contains _ _ then _ else _); cbn [snd]; split; cbn [frame_block_size payload seq]; [lia| | |done].
  - apply length_block_id.
  - destruct (codec_compress APPEND_LEVEL (canonical_bytes b)) as [z|e|] eqn:Hz;
      [apply codec_bound in Hz|..]; rewrite zlen_canonical_bytes in *; lia.
Qed.

Lemma ingest_blocks_fit sh h bs :
  Forall (λ b, 0 ≤ seq b < 2 ^ 64) bs →
  Forall2 entry_fits (payload <$> bs) (ingest_blocks sh h bs).2.
Proof.
  intros Hb. revert sh h. induction Hb as [|b bs Hs _ IH]; intros sh h; cbn [ingest_blocks]; [constructor|].
  pose proof (ingest_block_fits sh h b Hs) as H. destruct (ingest_block sh h b) as [[sh1 h1] fb].
  specialize (IH sh1 h1). destruct (ingest_blocks sh1 h1 bs) as [[sh2 h2] fbs]. by constructor.
Qed.

Lemma layout_size fb :
  (match fb with Ref i => id_wf i | _ => True end) → zlen (frame_block_layout fb) = frame_block_size fb.
Proof.
  destruct fb as [b|i]; cbn [frame_block_layout frame_block_size]; intros Hi; [zl|].
  assert (zlen i = 32) by (unfold zlen, id_wf in *; lia). zl.
Qed.

Lemma entries_size ps fbs :
  Forall2 entry_fits ps fbs → zlen (concat (frame_block_layout <$> fbs)) ≤ worst_sum ps.
Proof.
  induction 1 as [|p fb ps fbs [H1 H2] _ IH]; [done|].
  change (worst_sum (p :: ps)) with (39 + zlen p + worst_sum ps).
  change (concat (frame_block_layout <$> fb :: fbs))
    with (frame_block_layout fb ++ concat (frame_block_layout <$> fbs)).
  rewrite zlen_app, layout_size; [lia|]. by destruct fb.
Qed.

Lemma entries_wf ps fbs :
  Forall2 entry_fits ps fbs → worst_sum ps ≤ MAX_REQUEST_BYTES →
  Forall frame_block_wf fbs ∧ 39 * zlen fbs ≤ worst_sum ps.
Proof.
  induction 1 as [|p fb ps fbs [H1 H2] _ IH]; intros Hm; [done|].
  change (worst_sum (p :: ps)) with (39 + zlen p + worst_sum ps) in *.
  pose proof (worst_sum_nonneg ps). pose proof (zlen_nonneg p).
  destruct IH as [IH1 IH2]; [lia|]. rewrite zlen_cons. split; [|lia]. constructor; [|done].
  destruct fb as [b|i]; cbn [frame_block_wf frame_block_size] in *; [|done]. split; [done|].
  assert (MAX_REQUEST_BYTES ≤ MAX_BLOCK_PAYLOAD_BYTES) by (by vm_compute). lia.
Qed.

(** ** Preparing a request *)

(** A session between requests. *)
Record session_ok (c : ChatSession) : Prop := {
  so_seq : 0 ≤ c_next_seq c < 2 ^ 64;
  so_sid : u128 (s_session_id (c_shim c));
  so_base : id_wf (s_base_root (c_shim c))
}.

Lemma base_size {E} (e : E) z b :
  ok_or (n ← checked_add 10 z; checked_add n 53) e = Ok b → b = 63 + z.
Proof.
  unfold ok_or, checked_add. destruct (_ <=? usize_max); [cbn|done].
  destruct (_ <=? usize_max); [|done]. intros H. assert (10 + z + 53 = b) by congruence. lia.
Qed.

Lemma check_request_ok ms request ser rj meta :
  check_request ms request = Ok (ser, rj, meta) →
  zlen meta ≤ MAX_METADATA_BYTES ∧ 63 + zlen meta + worst_sum ser.*2 ≤ MAX_REQUEST_BYTES ∧
  meta = REQUEST_OPEN ++ rj ++ ascii "}" ∧ to_vec request = inr rj ∧ serialize_messages 0 ms = Ok ser.
Proof.
  unfold check_request. intros (m & _ & H)%obind_ok_inv. destruct (contains_key _ _); [done|].
  apply obind_ok_inv in H as (s & Hs & H). apply obind_ok_inv in H as (u & _ & H).
  apply obind_ok_inv in H as (j & Hj & H). destruct (to_vec request) as [|j'] eqn:Hv; [done|]. injection Hj as ->.
  destruct (Z.ltb_spec MAX_METADATA_BYTES (zlen (REQUEST_OPEN ++ j ++ ascii "}"))); [done|].
  apply obind_ok_inv in H as (base & Hb & H). apply obind_ok_inv in H as (w & Hw & H).
  destruct (Z.ltb_spec MAX_REQUEST_BYTES w); [done|]. apply worst_case_sum in Hw.
  assert (base = 63 + zlen (REQUEST_OPEN ++ j ++ ascii "}")) as Hbase.
  { by eapply base_size. }
  assert (ser = s ∧ rj = j ∧ meta = REQUEST_OPEN ++ j ++ ascii "}") as (-> & -> & ->) by (split_and!; congruence).
  split_and!; [lia|lia|done|done|done].
Qed.

Lemma zlen_append_frame a :
  id_wf (ap_base_root a) →
  zlen (encode_frame (FAppend a)) = 53 + zlen (concat (frame_block_layout <$> ap_blocks a)).
Proof.
  intros Hb. rewrite encode_frame_layout. cbn [body_layout].
  assert (zlen (ap_base_root a) = 32) by (unfold zlen, id_wf in *; lia). zl.
Qed.

Lemma worst_sum_each ps : Forall (λ p, zlen p ≤ worst_sum ps) ps.
Proof.
  induction ps as [|p ps IH]; [constructor|].
  change (worst_sum (p :: ps)) with (39 + zlen p + worst_sum ps). pose proof (worst_sum_nonneg ps).
  constructor; [lia|]. eapply Forall_impl; [|exact IH]. intros q Hq. cbn in *. pose proof (zlen_nonneg p). lia.
Qed.

Lemma encode_parts_fits meta frame :
  zlen meta ≤ MAX_METADATA_BYTES → 10 + zlen meta + zlen frame ≤ MAX_REQUEST_BYTES →
  ∃ body, encode_parts meta frame = Ok body.
Proof.
  intros Hm Ht. unfold encode_parts. destruct (Z.ltb_spec MAX_METADATA_BYTES (zlen meta)); [lia|].
  pose proof (zlen_nonneg meta). pose proof (zlen_nonneg frame).
  assert (MAX_REQUEST_BYTES < usize_max) by done.
  assert ((n ← checked_add 4 2; n ← checked_add n 4; n ← checked_add n (zlen meta); checked_add n (zlen frame))
    = Some (10 + zlen meta + zlen frame)) as ->.
  { change (checked_add 4 2) with (Some 6). cbn [mbind option_bind].
    change (checked_add 6 4) with (Some 10). cbn [mbind option_bind]. unfold checked_add.
    destruct (Z.leb_spec (10 + zlen meta) usize_max); [|lia]. cbn [mbind option_bind].
    destruct (Z.leb_spec (10 + zlen meta + zlen frame) usize_max); [done|lia]. }
  cbn [ok_or obind]. destruct (Z.ltb_spec MAX_REQUEST_BYTES (10 + zlen meta + zlen frame)); [lia|].
  by eexists.
Qed.

Lemma worst_case_no_panic size ser : no_panic (worst_case size ser).
Proof.
  revert size. induction ser as [|[k p] ser IH]; intros size; [done|]. cbn [worst_case].
  apply obind_no_panic; [by destruct (_ ≫= _)|]. intros. apply IH.
Qed.

Lemma serialize_no_panic i ms : no_panic (serialize_messages i ms).
Proof.
  revert i. induction ms as [|m ms IH]; intros i; [done|]. cbn [serialize_messages].
  apply obind_no_panic; [by destruct (as_object m)|]. intros o _.
  apply obind_no_panic; [unfold validate_message_object; by destruct (_ ≫= _)|]. intros _ _.
  apply obind_no_panic; [by destruct (to_vec m)|]. intros j _. by apply obind_no_panic; [apply IH|].
Qed.

Lemma check_request_no_panic ms request : no_panic (check_request ms request).
Proof.
  unfold check_request, validate_request_value. destruct (as_object request) as [m|]; [|done].
  cbn [ok_or obind]. destruct (contains_key m _); [done|].
  apply obind_no_panic; [apply serialize_no_panic|]. intros ser _.
  destruct (to_vec request) as [e|j]; [done|]. cbn [of_result obind]. destruct (_ <? _); [done|].
  apply obind_no_panic; [by destruct (_ ≫= _)|]. intros b _.
  apply obind_no_panic; [apply worst_case_no_panic|]. intros w _. by destruct (_ <? _).
Qed.

(** Once the checks pass, the request is prepared. *)
Lemma prepare_passes c ms request ser rj meta :
  session_ok c → c_pending_root c = None → check_request ms request = Ok (ser, rj, meta) →
  let '(seq, bs) := number_blocks (c_next_seq c) ser in
  let '(shim, host, append) := ingest_turn (c_shim c) (c_host c) bs in
  ∃ body, prepare_ref c ms request =
      (mkChat shim host seq (Some (s_root shim)),
       Ok (mkPrepared body (s_root shim) (zlen rj) (sum_payloads ser))) ∧
    encode_parts meta (encode_frame (FAppend append)) = Ok body ∧ frame_wf (FAppend append) ∧
    Forall block_wf bs ∧ 0 ≤ seq < 2 ^ 64 ∧ payload <$> bs = ser.*2.
Proof.
  intros [Hs Hu Hb] Hp Hc. pose proof Hc as Hck. apply check_request_ok in Hc as (Hm & Hw & -> & _ & _).
  pose proof (worst_sum_nonneg ser.*2). pose proof (zlen_nonneg (REQUEST_OPEN ++ rj ++ ascii "}")) as Hz.
  assert (Forall (λ p, zlen p ≤ MAX_REQUEST_BYTES) ser.*2) as Hps.
  { eapply Forall_impl; [|apply worst_sum_each]. cbn. intros q Hq. lia. }
  destruct (number_blocks_wf (c_next_seq c) ser Hs Hps) as [Hwf Hseq].
  pose proof (number_blocks_payloads (c_next_seq c) ser) as Hpay.
  unfold prepare_ref. rewrite Hp, Hck. destruct (number_blocks (c_next_seq c) ser) as [seq' bs].
  cbn [fst snd] in *. unfold ingest_turn.
  pose proof (ingest_blocks_effect (c_shim c) (c_host c) bs) as He.
  pose proof (ingest_blocks_fit (c_shim c) (c_host c) bs) as Hfit.
  destruct (ingest_blocks (c_shim c) (c_host c) bs) as [[shim host] fbs]. cbn [snd] in Hfit.
  destruct He as (E1 & E2 & _ & _). rewrite Hpay in Hfit. assert (Forall (λ b, 0 ≤ seq b < 2 ^ 64) bs) as Hsq by (eapply Forall_impl; [|exact Hwf]; by intros b [? _]).
  specialize (Hfit Hsq).
  pose proof (entries_size _ _ Hfit) as Hsize. destruct (entries_wf _ _ Hfit ltac:(lia)) as [Hfw Hcount].
  set (append := mkAppend _ _ _).
  assert (frame_wf (FAppend append)) as Hfwf.
  { cbn. rewrite E1, E2. split_and!; [done|done| |done]. 
    assert (MAX_REQUEST_BYTES ≤ 39 * MAX_FRAME_COUNT) by (by vm_compute). lia. }
  destruct (encode_parts_fits (REQUEST_OPEN ++ rj ++ ascii "}") (encode_frame (FAppend append))) as [body Hbody];
    [done| |].
  { rewrite zlen_append_frame by (cbn; by rewrite E2). cbn [append ap_blocks]. lia. }
  exists body. rewrite Hbody. done.
Qed.

Lemma prepare_inv c ms request c' res :
  session_ok c → prepare_ref c ms request = (c', res) →
  (c' = c ∧ ∃ e, res = Err e) ∨
  ∃ ser rj meta body, c_pending_root c = None ∧ check_request ms request = Ok (ser, rj, meta) ∧
    let '(seq, bs) := number_blocks (c_next_seq c) ser in
    let '(shim, host, append) := ingest_turn (c_shim c) (c_host c) bs in
    c' = mkChat shim host seq (Some (s_root shim)) ∧
    res = Ok (mkPrepared body (s_root shim) (zlen rj) (sum_payloads ser)) ∧
    encode_parts meta (encode_frame (FAppend append)) = Ok body ∧ frame_wf (FAppend append) ∧
    Forall block_wf bs ∧ 0 ≤ seq < 2 ^ 64 ∧ payload <$> bs = ser.*2.
Proof.
  intros Hok H. destruct (c_pending_root c) as [r|] eqn:Hp.
  { left. unfold prepare_ref in H. rewrite Hp in H. injection H as <- <-. eauto. }
  pose proof (check_request_no_panic ms request) as Hnp.
  destruct (check_request ms request) as [[[ser rj] meta]|e|] eqn:Hc; [|left|done].
  - right. exists ser, rj, meta. pose proof (prepare_passes c ms request ser rj meta Hok Hp Hc) as Hpass.
    destruct (number_blocks _ _) as [seq' bs]. destruct (ingest_turn _ _ _) as [[shim host] append].
    destruct Hpass as (body & Hpr & Hrest). exists body. rewrite Hpr in H. injection H as <- <-. done.
  - unfold prepare_ref in H. rewrite Hp, Hc in H. injection H as <- <-. eauto.
Qed.
End Bound.

(** ** Client and sidecar in step *)

Section InStep.
Context `{B3 : Blake3} {B3L : Blake3Laws} `{CC : Codec} {CL : CodecLaws} `{FC : FountainCode} `{DF : DedupFilter}.
Context `{SJ : SerdeJson} {SJL : SerdeJsonLaws} `{HT : HttpText} {HTL : HttpTextLaws}.

(** Between two turns: [hist] are the blocks of the conversation so far. *)
Record in_step (c : ChatSession) (st : SidecarState) (hist : list Block) : Prop := {
  is_session : session_ok c;
  is_idle : c_pending_root c = None;
  is_inv : sidecar_inv st;
  is_synced : synced (c_shim c) (c_host c) (sc_receiver st);
  is_mirrored : mirrored (c_host c) (sc_receiver st);
  is_ids : s_ids (c_shim c) = block_id <$> hist;
  is_root : s_root (c_shim c) = root_over ROOT_ZERO (s_ids (c_shim c));
  is_wf : Forall block_wf hist
}.

(** A flush changes neither side's view. *)
Lemma synced_view sh h r s :
  blocks s = blocks (r_store r) → sessions s = sessions (r_store r) →
  synced sh h r → synced sh h (with_store r s).
Proof.
  intros Hb Hs [B I R P]. split; [done|..]; cbn; [|unfold session_root; rewrite Hs; exact R|done].
  unfold session_ids. rewrite Hs. exact I.
Qed.

Lemma mirrored_view h r s :
  blocks s = blocks (r_store r) → mirrored h r → mirrored h (with_store r s).
Proof. intros Hb Hm id Hid. cbn. unfold contains. rewrite Hb. by apply Hm. Qed.

(** The sidecar decodes the metadata and the frame the client encoded. *)
Lemma envelope_parts meta append body request fb frame :
  encode_parts meta (encode_frame (FAppend append)) = Ok body → frame_wf (FAppend append) →
  ChatEnvelope_decode body = Ok (mkEnvelope request fb) → decode_frame_bytes fb = Ok (FAppend frame) →
  frame = append ∧ metadata_from_slice meta = inr request.
Proof.
  intros (-> & Hm & _)%encode_parts_ok Hwf Hd Hf.
  rewrite decode_layout in Hd by (done || by rewrite encode_frame_layout).
  destruct (metadata_from_slice meta) as [e|rq]; [done|]. cbn [of_result obind] in Hd.
  assert (fb = encode_frame (FAppend append)) as -> by congruence.
  destruct (frame_roundtrip (FAppend append) [] Hwf) as [_ Hr]. rewrite app_nil_r in Hr. split; congruence.
Qed.

(** The sidecar's side of a forwarded request. *)
Record forwards (st st' : SidecarState) (rsp : outcome Response Response) (out : OutRequest)
    (meta : bytes) (append : AppendFrame) (r1 : Receiver) (ack : AckFrame) : Prop := {
  fw_append : handle_append (sc_receiver st) append = (r1, Ok ack);
  fw_store : ∃ s2, sc_receiver st' = with_store r1 s2 ∧ view s2 = view (r_store r1);
  fw_inv : sidecar_inv st';
  fw_stored : stored (r_store (sc_receiver st')) (ap_session_id append);
  fw_response : ∃ resp, rsp = Ok resp ∧
    header_get (rsp_headers resp) ACK_ROOT_HEADER = Some (root_hex (ack_root ack));
  fw_body : ∃ request inner, metadata_from_slice meta = inr request ∧
    to_vec request = inr (ascii "{" ++ inner ++ ascii "}") ∧
    (zlen (session_ids (r_store (sc_receiver st')) (ap_session_id append)) ≤ usize_max →
     concat (out_body out) = request_text inner (r_store (sc_receiver st')) (ap_session_id append))
}.

Lemma forwarded_append st send headers body st' rsp out append meta :
  sidecar_inv st → encode_parts meta (encode_frame (FAppend append)) = Ok body → frame_wf (FAppend append) →
  chat_completions send headers body st = (st', rsp, Some out) →
  ∃ r1 ack, forwards st st' rsp out meta append r1 ack.
Proof.
  intros Hinv Hbody Hwf (ack & resp & Hc & -> & Hh)%chat_completions_sent.
  rewrite chat_request_tail in Hc. apply hbind_ok in Hc as (st1 & [rq frame] & Ha & Hc).
  apply admit_ok in Ha as (-> & _ & fb & He & _ & Hd & _).
  destruct (envelope_parts _ _ _ _ _ _ Hbody Hwf He Hd) as [-> Hmeta].
  pose proof (chat_tail_spec headers rq append st Hinv) as Hs. rewrite Hc in Hs. destruct Hs as [Hinv' Hs].
  destruct (Hs out ack eq_refl) as ([_ A2 _] & (r1 & s2 & Hap & Hf & Er) & chunks & len & m & inner & -> & _ & Hv & _ & Hb).
  exists r1, ack. split; [done| |done|done|by exists resp|].
  - exists s2. split; [done|]. pose proof (flush_wal_view (r_store r1) (sc_sync_wal st)) as [Hbl Hse].
    rewrite Hf in Hbl, Hse. unfold view. cbn in *. by rewrite Hbl, Hse.
  - exists rq, inner. split; [done|]. split; [exact Hv|]. intros Hl. by apply Hb.
Qed.

Lemma send_chat_acked c shim' root resp body j1 j2 :
  header_get (rsp_headers resp) ACK_ROOT_HEADER = Some (root_hex root) → length root = 32%nat →
  apply_ack (c_shim c) root = (shim', true) → c_pending_root c = Some root →
  send_chat c (mkPrepared body root j1 j2) (inr resp) =
    (mkChat shim' (c_host c) (c_next_seq c) None, Ok resp).
Proof.
  intros Hh Hl Ha Hp. unfold send_chat. rewrite Hh, hv_to_visible by apply root_hex_visible.
  cbn [mbind option_bind]. rewrite root_hex_parses by done. cbn [pr_expected_root].
  rewrite bool_decide_true by done. unfold chat_apply_ack. rewrite Ha. cbn [negb andb].
  by rewrite bool_decide_true.
Qed.

(** The conversation in a receiver that holds its ids. *)
Lemma conversation_rebuilt r sid hist :
  receiver_inv r → stored (r_store r) sid → Forall block_wf hist →
  session_ids (r_store r) sid = block_id <$> hist →
  reconstruct (r_store r) sid = hist ∨ blake3_collision.
Proof.
  intros [Hc Hh] Hst Hwf Hids. apply same_ids; [by apply reconstruct_wf|done|].
  rewrite <-Hids. by apply complete_of_held.
Qed.

(** [inner] is the text of the request's members once it went through the
    envelope: serialised, wrapped, parsed and serialised again. *)
Definition carried (request : Value) (inner : bytes) : Prop :=
  ∃ rj request', to_vec request = inr rj ∧
    metadata_from_slice (REQUEST_OPEN ++ rj ++ ascii "}") = inr request' ∧
    to_vec request' = inr (ascii "{" ++ inner ++ ascii "}").

(** One turn that the sidecar forwarded. *)
Lemma turn_in_step c st hist ms request c1 prep send headers st' rsp out :
  (∀ b, block_wf b → compressible b) →
  in_step c st hist → prepare_ref c ms request = (c1, Ok prep) →
  chat_completions send headers (pr_body prep) st = (st', rsp, Some out) →
  ∃ resp c2 bs ser inner, rsp = Ok resp ∧ send_chat c1 prep (inr resp) = (c2, Ok resp) ∧
    in_step c2 st' (hist ++ bs) ∧ serialize_messages 0 ms = Ok ser ∧ payload <$> bs = ser.*2 ∧
    carried request inner ∧
    (zlen (hist ++ bs) ≤ usize_max →
     concat (out_body out) = ascii "{" ++ inner ++ MESSAGES_OPEN ++ join (payload <$> hist ++ bs) ++ ascii "]}"
     ∨ blake3_collision).
Proof.
  intros Hz [Hok Hidle Hinv Hsy Hmi Hids Hroot Hwf] Hprep Hchat.
  destruct (prepare_inv c ms request c1 _ Hok Hprep) as [[_ [e He]]|(ser & rj & meta & body & _ & Hck & H)]; [done|].
  apply check_request_ok in Hck as (_ & _ & -> & Hv & Hser).
  destruct (number_blocks (c_next_seq c) ser) as [seq' bs].
  pose proof (append_sync (c_shim c) (c_host c) (sc_receiver st) bs Hsy Hmi) as Hsync.
  pose proof (ingest_blocks_effect (c_shim c) (c_host c) bs) as Heff. unfold ingest_turn in Hsync, H.
  destruct (ingest_blocks (c_shim c) (c_host c) bs) as [[shim host] fbs].
  destruct H as (-> & [= ->] & Hbody & Hfwf & Hbwf & Hseq & Hpay). cbn [pr_body] in Hchat.
  destruct (forwarded_append _ _ _ _ _ _ _ _ _ Hinv Hbody Hfwf Hchat)
    as (r1 & ack & [Hap (s2 & Er & Hview) Hinv' Hst (resp & -> & Hh) (rq & inner & Hmeta & Hrq & Hb)]).
  destruct Hsync as (r' & sh2 & Hap' & Hack & Hsy' & Hmi' & Hsid & Hids' & _); [done| |].
  { eapply Forall_impl; [|exact Hbwf]. exact Hz. }
  rewrite Hap' in Hap. injection Hap as <- <-. cbn [ap_session_id ack_root] in *.
  destruct Heff as (E1 & E2 & E3 & E4). injection Hview as Hvb Hvs.
  assert (s_root shim = root_over ROOT_ZERO (s_ids shim)) as Hroot'
    by (rewrite E4, E3, Hroot; symmetry; apply root_over_app).
  eexists resp, _, bs, ser, inner. split; [done|]. split.
  { eapply send_chat_acked; [exact Hh| |exact Hack|done]. rewrite Hroot'. apply length_root_over. }
  assert (session_ids (r_store (sc_receiver st')) (s_session_id shim) = block_id <$> hist ++ bs) as Hlog.
  { rewrite Er. cbn. unfold session_ids. rewrite Hvs, E1, <-Hsid. rewrite fmap_app, <-Hids, <-Hids'.
    exact (sy_ids _ _ _ Hsy'). }
  assert (Forall block_wf (hist ++ bs)) as Hwf' by (by apply Forall_app).
  split; [|split; [done|split; [done|split; [by exists rj, rq|]]]].
  - assert (s_root sh2 = s_root shim ∧ s_base_root sh2 = s_root shim) as [F1 F2].
    { unfold apply_ack in Hack. rewrite bool_decide_true in Hack by done. by injection Hack as <-. }
    split; cbn [c_shim c_host c_next_seq c_pending_root]; [split; cbn|done|done|..].
    + done.
    + rewrite Hsid. apply Hok.
    + rewrite F2, Hroot'. apply length_root_over.
    + rewrite Er. by apply synced_view.
    + rewrite Er. by apply mirrored_view.
    + by rewrite Hids', Hids, fmap_app.
    + by rewrite F1, Hroot', E3, Hids'.
    + done.
  - intros Hl. destruct (conversation_rebuilt (sc_receiver st') (s_session_id shim) (hist ++ bs)) as [Hrec|];
      [apply Hinv'|done|done|done|left|by right].
    rewrite Hb; [unfold request_text; by rewrite Hrec|]. rewrite Hlog. unfold zlen in *. by rewrite length_fmap.
Qed.
End InStep.

(** ** Theorems *)

Section Claims.
Context `{B3 : Blake3} {B3L : Blake3Laws} `{CC : Codec} {CL : CodecLaws} `{FC : FountainCode} `{DF : DedupFilter}.
Context `{SJ : SerdeJson} {SJL : SerdeJsonLaws} `{HT : HttpText} {HTL : HttpTextLaws}.

(** C28: Preparing a request is all or nothing.  It never panics; on an error
    (a request in flight, a bad message, an oversized envelope) the session is
    exactly as before; on success the request in flight is the new root, and
    the body decodes to the metadata and to a well-formed APPEND frame of this
    session.  So the size estimate covers the encoded frame, and the error
    path behind the shim is dead. *)
Theorem prepare_atomic c ms request c' res :
  session_ok c → prepare_ref c ms request = (c', res) →
  (c' = c ∧ ∃ e, res = Err e) ∨
  (∃ prep append rj, res = Ok prep ∧ c_pending_root c' = Some (pr_expected_root prep) ∧
     pr_expected_root prep = s_root (c_shim c') ∧ to_vec request = inr rj ∧
     zlen (pr_body prep) ≤ MAX_REQUEST_BYTES ∧
     ap_session_id append = s_session_id (c_shim c) ∧ ap_base_root append = s_base_root (c_shim c) ∧
     decode_frame_bytes (encode_frame (FAppend append)) = Ok (FAppend append) ∧
     ∀ request', metadata_from_slice (REQUEST_OPEN ++ rj ++ ascii "}") = inr request' →
       ChatEnvelope_decode (pr_body prep) = Ok (mkEnvelope request' (encode_frame (FAppend append)))).
Proof.
  intros Hok H. destruct (prepare_inv c ms request c' res Hok H) as [?|(ser & rj & meta & body & _ & Hck & Hp)];
    [by left|right].
  apply check_request_ok in Hck as (_ & _ & -> & Hv & _).
  destruct (number_blocks (c_next_seq c) ser) as [seq' bs].
  pose proof (ingest_blocks_effect (c_shim c) (c_host c) bs) as Heff. unfold ingest_turn in Hp.
  destruct (ingest_blocks (c_shim c) (c_host c) bs) as [[shim host] fbs].
  destruct Hp as (-> & -> & Hb & Hwf & _ & _ & _). destruct Heff as (E1 & E2 & _ & _).
  exists (mkPrepared body (s_root shim) (zlen rj) (sum_payloads ser)),
    (mkAppend (s_session_id shim) (s_base_root shim) fbs), rj.
  split; [done|]. cbn [c_pending_root pr_expected_root c_shim pr_body].
  split; [done|]. split; [done|]. split; [exact Hv|].
  split; [by apply encode_parts_ok in Hb as (_ & _ & ?)|]. split; [exact E1|]. split; [exact E2|]. split.
  - destruct (frame_roundtrip _ [] Hwf) as [_ Hr]. by rewrite app_nil_r in Hr.
  - intros request' Hm. eapply envelope_decodes; [exact Hb|exact Hm|]. by rewrite encode_frame_layout.
Qed.

(** Turns of one session against one sidecar: prepare, post, read the response.
    [None] when a turn is refused on either side. *)
Fixpoint chat_turns (send : OutRequest → string + UpResponse) (headers : HeaderMap) (c : ChatSession)
    (st : SidecarState) (turns : list (list Value * Value))
    : option (ChatSession * SidecarState * list OutRequest) :=
  match turns with
  | [] => Some (c, st, [])
  | (ms, request) :: turns' =>
      match prepare_ref c ms request with
      | (c, Ok prep) =>
          match chat_completions send headers (pr_body prep) st with
          | (st, Ok rsp, Some out) =>
              match send_chat c prep (inr rsp) with
              | (c, Ok _) =>
                  '(c, st, outs) ← chat_turns send headers c st turns'; Some (c, st, out :: outs)
              | _ => None
              end
          | _ => None
          end
      | _ => None
      end
  end.

(** The JSON of the messages of some turns. *)
Definition wire_messages (turns : list (list Value * Value)) : list bytes :=
  concat ((λ t, match serialize_messages 0 t.1 with Ok ser => ser.*2 | _ => [] end) <$> turns).

Definition forwards_messages (out : OutRequest) (request : Value) (messages : list bytes) : Prop :=
  zlen messages ≤ usize_max →
  ∃ inner, carried request inner ∧
    (concat (out_body out) = ascii "{" ++ inner ++ MESSAGES_OPEN ++ join messages ++ ascii "]}"
     ∨ blake3_collision).

Lemma turns_in_step send headers c st hist turns c' st' outs :
  (∀ b, block_wf b → compressible b) →
  in_step c st hist → chat_turns send headers c st turns = Some (c', st', outs) →
  (∃ hist', in_step c' st' hist') ∧ length outs = length turns ∧
  ∀ i out t, outs !! i = Some out → turns !! i = Some t →
    forwards_messages out t.2 ((payload <$> hist) ++ wire_messages (take (S i) turns)).
Proof.
  intros Hz. revert c st hist outs. induction turns as [|[ms request] turns IH]; intros c st hist outs Hin H.
  { injection H as <- <- <-. split; [by exists hist|done]. }
  cbn [chat_turns] in H. destruct (prepare_ref c ms request) as [c1 [prep|e|]] eqn:Hp; [|done..].
  destruct (chat_completions send headers (pr_body prep) st) as [[st1 rsp] [out0|]] eqn:Hc; [|by destruct rsp].
  destruct (turn_in_step _ _ _ _ _ _ _ _ _ _ _ _ Hz Hin Hp Hc)
    as (resp & c2 & bs & ser & inner & -> & Hs & Hin' & Hser & Hpay & Hcar & Hbody).
  rewrite Hs in H. destruct (chat_turns send headers c2 st1 turns) as [[[c3 st3] outs']|] eqn:Ht; [|done].
  injection H as <- <- <-. destruct (IH _ _ _ _ Hin' Ht) as (Hlast & Hlen & Hall).
  assert (∀ l, (payload <$> hist) ++ wire_messages ((ms, request) :: l)
             = (payload <$> hist ++ bs) ++ wire_messages l) as Hw.
  { intros l. unfold wire_messages. cbn [fmap list_fmap concat fst]. rewrite Hser, fmap_app, Hpay.
    by rewrite (assoc_L (++)). }
  split; [done|]. split; [cbn; by rewrite Hlen|]. intros [|i] out t Hout Hturn.
  - injection Hout as <-. injection Hturn as <-. cbn [take]. rewrite Hw. unfold wire_messages. cbn. rewrite app_nil_r.
    intros Hl. exists inner. split; [done|]. apply Hbody. unfold zlen in *. by rewrite length_fmap in Hl.
  - change (take (S (S i)) ((ms, request) :: turns)) with ((ms, request) :: take (S i) turns). rewrite Hw.
    by apply Hall.
Qed.

Lemma new_in_step filter key store url token sync :
  content_ok store → sessions store !! session_id_from_key key = None →
  in_step (ChatSession_new filter key) (SidecarState_new (Receiver_new store) url token sync) [].
Proof.
  intros Hc Hs. assert (u128 (session_id_from_key key)) as Hu.
  { unfold u128, session_id_from_key. pose proof (from_le_bound (take 16 (blake3 key))) as Hb.
    rewrite length_take, blake3_length in Hb. exact Hb. }
  split; cbn; [split; cbn; [done|done|done]|done|by apply new_inv|split; cbn|..|done|done|constructor].
  - done.
  - unfold session_ids. by rewrite Hs.
  - unfold session_root. by rewrite Hs.
  - apply Receiver_new_pending. unfold stored, session_ids. rewrite Hs. constructor.
  - by intros id ?%contains_true%is_Some_None.
Qed.


(** A client configured with the sidecar's token is admitted at both endpoints,
    as long as the caller's own headers do not carry another token. *)
Theorem client_admitted cl st prepared headers frame token :
  client_token cl = Some token → sc_ingress_token st = Some token →
  Forall (λ b, visible b = true) token → header_get headers SIDECAR_TOKEN_HEADER = None →
  authorized st (out_headers (chat_post cl prepared headers)) = true ∧
  authorized st (out_headers (frame_post cl frame)) = true.
Proof.
  intros Hc Hs Hv Hn. assert (∀ h, header_get h SIDECAR_TOKEN_HEADER = None →
    authorized st (with_token cl h) = true) as H.
  { intros h Hh. unfold authorized, with_token. rewrite Hs, Hc. unfold header_get, header_append in *.
    rewrite list.filter_app, head_app. destruct (head (filter _ h)); [done|].
    change (match hv_to_str token with Some actual => constant_time_eq actual token | None => false end = true).
    rewrite hv_to_visible by done. by apply constant_time_eq_spec. }
  split; apply H; [|done]. unfold header_get, header_append in *.
  rewrite list.filter_app, head_app. by destruct (head (filter _ headers)).
Qed.
End Claims.
