(* ===== verification/Synchronize.v ===== *)
(** * Synchronize: the client's recovery against the sidecar

    [DlrChatClient::synchronize] posts RESYNC and BULK frames to the frame
    endpoint.  This file plugs the two together and proves that a
    synchronisation that returns [Ok] left the sidecar with the client's log. *)

From S2P Require Import Prelude Interfaces F64 Block Merkle Filter Frame Wal Store Compress FountainSig.
From S2P Require Import Receiver GfVec Gauss Fountain FountainCorrect Encoder Bulk Shim Protocol ColdStart.
From S2P Require Import Recovery Web Sidecar SidecarCorrect SidecarServe ChatClient.

Section Synchronize.
Context `{B3 : Blake3} {B3L : Blake3Laws} `{CC : Codec} {CL : CodecLaws} `{FC : FountainCode} `{DF : DedupFilter}.
Context `{LM : Libm} `{SJ : SerdeJson} {SJL : SerdeJsonLaws} `{HT : HttpText} {HTL : HttpTextLaws}.
Variable isa : Isa.

(** The body of a response as bytes; an error body is the JSON of its message,
    which only error texts use. *)
Definition body_bytes (rsp : Response) : string + bytes :=
  match rsp_body rsp with
  | BBytes b => inr b
  | BEmpty => inr []
  | _ => inl "not a frame"
  end.
Definition body_text (rsp : Response) : string :=
  match rsp_body rsp with BError msg => msg | _ => "" end.

(** A frame posted to the sidecar; a handler that panics closes the connection. *)
Definition sidecar_exchange (headers : HeaderMap) (st : SidecarState) (body : bytes)
    : SidecarState * outcome SidecarError (option Frame) :=
  match post_frame headers body st with
  | (st', Ok rsp) | (st', Err rsp) => (st', exchange_result (inr rsp) body_text body_bytes)
  | (st', Panic) => (st', exchange_result (inl "connection closed") body_text body_bytes)
  end.

(** ** Replies are well formed *)

Definition roots_ok (s : ContentStore) : Prop :=
  ∀ sid log, sessions s !! sid = Some log → length (root log) = 32%nat.

Lemma append_session_roots (s : ContentStore) sid id m :
  roots_ok s → m = (append_session (sessions s) sid id).1 →
  ∀ sid' log, m !! sid' = Some log → length (root log) = 32%nat.
Proof.
  intros Hr ->. rewrite append_session_eq. cbn [fst].
  intros sid' log [[_ <-]|[_ Hl]]%lookup_insert_Some; [apply length_append_root|by eapply Hr].
Qed.

Lemma exec_roots s os : Forall op_wf os → roots_ok s → roots_ok (exec s os).
Proof.
  intros Hos. revert s. induction Hos as [|o os Ho _ IH]; intros s Hr; [done|]. apply IH.
  unfold roots_ok. destruct o as [sid b i c|sid i|sid l r|sid b i]; cbn [exec1].
  - eapply append_session_roots; [done|]. apply insert_sessions.
  - rewrite reference_sessions. case_decide; [done|]. by eapply append_session_roots.
  - rewrite seed_sessions. destruct Ho as (_ & _ & Hl).
    intros sid' log [[_ <-]|[_ H]]%lookup_insert_Some; [done|by eapply Hr].
  - by rewrite content_sessions.
Qed.

Lemma session_root_32 s sid : roots_ok s → id_wf (session_root s sid).
Proof.
  intros Hr. unfold session_root, id_wf. destruct (sessions s !! sid) as [log|] eqn:Hs; [by eapply Hr|done].
Qed.

Lemma reply_wf r f r' g :
  frame_wf f → roots_ok (r_store r) → handle_frame r f = (r', Ok (Some g)) → frame_wf g.
Proof.
  intros Hf Hr H. destruct (frame_exec r f Hf) as (os & Ho & Hos). rewrite H in Ho. cbn [fst] in Ho.
  assert (roots_ok (r_store r')) as Hr' by (rewrite Ho; by apply exec_roots).
  destruct f as [a|rs|b|a|m]; cbn [handle_frame] in H; [..|done|done].
  - destruct (handle_append r a) as [r1 [ack|e|]] eqn:Ha; [|done..]. injection H as <- <-.
    destruct (append_cases _ _ _ _ Ha) as (rs & _ & _ & _ & -> & Hroot). cbn. split; [apply Hf|].
    rewrite <-Hroot. by apply session_root_32.
  - unfold handle_resync in H. destruct Hf as (Hsid & _ & Hn & Hids). cbn -[seed_session] in H.
    set (missing := filter _ (rs_manifest rs)) in H.
    assert (zlen missing ≤ MAX_FRAME_COUNT) as Hm.
    { pose proof (list.length_filter (λ id, contains (r_store r) id = false) (rs_manifest rs)).
      unfold zlen, missing in *. lia. }
    assert (Forall id_wf missing) as Hw
      by (apply Forall_elem; intros i [_ Hi]%list_elem_of_filter; by apply (proj1 (Forall_elem _ _) Hids)).
    destruct missing as [|i l]; injection H as <- <-; [|by cbn].
    cbn -[seed_session]. split; [done|]. by apply session_root_32.
  - destruct (handle_bulk_outcome r b) as [d res Hres|rec pend fin _ _ _]; cbn in H.
    + destruct res as [[root|]|e|]; try done. by destruct (Hres root).
    + destruct fin; [|done]. injection H as <- <-. cbn. split; [apply Hf|]. by apply session_root_32.
Qed.

(** ** One exchange *)

(** Early responses of the frame endpoint are errors. *)
Definition refuses {A} (m : handler A) : Prop :=
  ∀ st st' rsp, m st = (st', Err rsp) → 400 ≤ rsp_status rsp.

Lemma refuses_bind {A B} (m : handler A) (k : A → handler B) :
  refuses m → (∀ a, refuses (k a)) → refuses (hbind m k).
Proof.
  intros Hm Hk st st' rsp. unfold hbind. destruct (m st) as [s [a|e|]] eqn:E; [apply Hk| |done].
  intros [= <- <-]. by eapply Hm.
Qed.

Lemma refuses_respond {E A} (f : E → Response) (m : SidecarState → outcome E A) :
  (∀ e, 400 ≤ rsp_status (f e)) → refuses (respond f m).
Proof. intros Hf st st' rsp. unfold respond. destruct (m st); intros H; try done. by injection H as _ <-. Qed.

Lemma post_frame_refuses headers body : refuses (post_frame headers body).
Proof.
  unfold post_frame. apply refuses_bind; [by apply refuses_respond|intros _].
  apply refuses_bind; [by apply refuses_respond|intros f]. apply refuses_bind; [done|intros _].
  apply refuses_bind; [|intros o; apply refuses_bind; [|done]].
  - intros st st' rsp. unfold receive_frame. destruct (handle_frame _ _) as [r [o|e|]]; try done.
    intros [= _ <-]. by destruct e.
  - intros st st' rsp. unfold flush_store. destruct (flush_wal _ _) as [s [u|e|]]; try done. by intros [= _ <-].
Qed.

Lemma exchange_ok headers st body st' o :
  roots_ok (r_store (sc_receiver st)) → sidecar_exchange headers st body = (st', Ok o) →
  ∃ f r1 s2, decode_frame_bytes body = Ok f ∧ handle_frame (sc_receiver st) f = (r1, Ok o) ∧
    sc_receiver st' = with_store r1 s2 ∧ view s2 = view (r_store r1) ∧ roots_ok s2.
Proof.
  intros Hr H. unfold sidecar_exchange in H. destruct (post_frame headers body st) as [s [rsp|rsp|]] eqn:Hp; [| |done].
  2:{ apply post_frame_refuses in Hp. injection H as _ H. unfold exchange_result in H.
      destruct (Z.eqb_spec (rsp_status rsp) 204); [lia|].
      destruct (Z.leb_spec (rsp_status rsp) 299); [lia|]. by rewrite andb_false_r in H. }
  injection H as -> H. unfold post_frame in Hp. apply hbind_ok in Hp as (s1 & [] & H1 & Hp). apply respond_ok in H1 as [-> _].
  apply hbind_ok in Hp as (s2 & f & H2 & Hp). apply respond_ok in H2 as [-> Hd].
  apply hbind_ok in Hp as (s3 & [] & H3 & Hp). injection H3 as <-.
  apply hbind_ok in Hp as (s4 & g & H4 & Hp). unfold receive_frame in H4. cbn [sc_receiver with_cache] in H4.
  destruct (handle_frame (sc_receiver st) f) as [r1 res] eqn:Hf. injection H4 as <- Hg.
  assert (res = Ok g) as -> by (by destruct res; simplify_eq/=).
  apply hbind_ok in Hp as (s5 & [] & H5 & Hp). injection Hp as <- <-.
  unfold flush_store in H5. cbn [sc_receiver with_receiver] in H5.
  pose proof (flush_wal_view (r_store r1) (sc_sync_wal (with_receiver (with_cache st (cache_remove (sc_cache st) (frame_session_id f))) r1))) as [Hb Hs].
  destruct (flush_wal _ _) as [sf rf]. injection H5 as <- _. cbn [fst] in Hb, Hs.
  assert (roots_ok (r_store r1)) as Hr1.
  { destruct (frame_exec (sc_receiver st) f (decoded_wf _ _ Hd)) as (os & Ho & Hos). rewrite Hf in Ho.
    cbn in Ho. rewrite Ho. by apply exec_roots. }
  exists f, r1, sf. split_and!; [done| |done|unfold view; by rewrite Hb, Hs|unfold roots_ok; by rewrite Hs].
  rewrite Hf. f_equal. destruct g as [g|]; cbn in H; [|by injection H as <-].
  destruct (frame_roundtrip g [] (reply_wf _ _ _ _ (decoded_wf _ _ Hd) Hr Hf)) as [_ Hrt].
  rewrite app_nil_r in Hrt. rewrite Hrt in H. cbn in H. by injection H as <-.
Qed.

(** ** The loop over the bulk frames *)

(** What the client relies on: the sidecar keeps session [sid] with log [l] and
    root [rt]; an acknowledgement of that session is of this root, and came
    when nothing was pending. *)
Record resynced (sid : Z) (l : list BlockId) (rt : MerkleRoot) (st : SidecarState)
    (completion : option AckFrame) : Prop := {
  re_inv : receiver_inv (sc_receiver st);
  re_roots : roots_ok (r_store (sc_receiver st));
  re_ids : session_ids (r_store (sc_receiver st)) sid = l;
  re_root : session_root (r_store (sc_receiver st)) sid = rt;
  re_ack : ∀ ack, completion = Some ack → ack_session_id ack = sid →
    ack_root ack = rt ∧ pending (state_of (sc_receiver st) sid) = ∅
}.

(** A BULK frame keeps the logs, shrinks what is pending, and acknowledges a
    session only when nothing of it is pending. *)
Lemma bulk_effect r b r' o sid :
  receiver_inv r → handle_frame r (FBulk b) = (r', Ok o) →
  receiver_inv r' ∧ sessions (r_store r') = sessions (r_store r) ∧
  (pending (state_of r sid) = ∅ → pending (state_of r' sid) = ∅) ∧
  (o = None ∨ o = Some (FAck (mkAck (bk_session_id b) (session_root (r_store r) (bk_session_id b)))) ∧
              (bk_session_id b = sid → pending (state_of r' sid) = ∅)).
Proof.
  intros Hi H. cbn [handle_frame] in H. pose proof (bulk_inv r b Hi) as Hi'.
  destruct (handle_bulk_outcome r b) as [d res Hres|rec pend fin Hrec Hpend Hfin]; cbn [fst] in Hi';
    injection H as <- Ho; (split; [exact Hi'|]).
  - split; [done|]. rewrite !state_of_put. split; [by case_decide as Hd; [subst|]|]. left.
    destruct res as [[root|]|e|]; try done; [by destruct (Hres root)|]. by injection Ho as <-.
  - cbn [put_state with_store r_store]. rewrite (proj1 (store_recovered_effect _ _ _)). split; [done|].
    rewrite state_of_put. split.
    + intros Hp. destruct (decide (bk_session_id b = sid)) as [Hd|Hd]; [|exact Hp]. subst. cbn. apply set_eq. intros id. rewrite Hpend, Hp. set_solver.
    + destruct fin; cbn in Ho; subst o; [|by left]. right. split; [done|]. intros Hd.
      rewrite decide_True by done. cbn. symmetry in Hfin. apply andb_prop in Hfin as [Hf _].
      by apply bool_decide_eq_true in Hf.
Qed.

Lemma bulk_resynced headers sid l rt st completion b st' o :
  resynced sid l rt st completion →
  sidecar_exchange headers st (encode_frame (FBulk b)) = (st', Ok o) →
  (∀ f, o = Some f → ∃ ack, f = FAck ack) ∧
  resynced sid l rt st' (match o with Some (FAck ack) => Some ack | _ => completion end).
Proof.
  intros [Hi Hr Hl Hrt Hack] H.
  destruct (exchange_ok _ _ _ _ _ Hr H) as (f & r1 & s2 & Hd & Hf & Er & Hv & Hr2). injection Hv as Hb Hs.
  assert (∃ b', f = FBulk b') as [b' ->].
  { rewrite encode_frame_layout in Hd. unfold decode_frame_bytes in Hd. cbn in Hd.
    apply obind_ok_inv in Hd as (tag & Htag & Hd). injection Htag as <-.
    apply obind_ok_inv in Hd as (body & _ & Hd). apply decode_body_wf in Hd as [_ Ht].
    destruct f; try done. by eexists. }
  destruct (bulk_effect _ _ _ _ sid Hi Hf) as (Hi1 & Hs1 & Hp1 & Ho).
  assert (sessions s2 = sessions (r_store (sc_receiver st))) as Hs2 by congruence.
  split.
  { intros g Hg. destruct Ho as [->|[-> _]]; [done|]. injection Hg as <-. by eexists. }
  split; rewrite Er; cbn [with_store r_store].
  - by apply receiver_inv_view.
  - done.
  - unfold session_ids in *. by rewrite Hs2.
  - unfold session_root in *. by rewrite Hs2.
  - intros ack Ha Hsid. change (state_of (with_store r1 s2) sid) with (state_of r1 sid).
    destruct Ho as [->|[-> Ho]].
    + destruct (Hack ack Ha Hsid) as [? ?]. auto.
    + injection Ha as <-. cbn in *. subst sid. split; [done|]. by apply Ho.
Qed.

Lemma send_bulk_resynced headers sid l rt st completion bs st' res :
  resynced sid l rt st completion →
  send_bulk SidecarState (sidecar_exchange headers) st completion ((λ b, encode_frame (FBulk b)) <$> bs)
    = (st', Ok res) →
  resynced sid l rt st' res.
Proof.
  revert st completion. induction bs as [|b bs IH]; intros st completion Hre H; cbn [fmap list_fmap send_bulk] in H.
  { by injection H as <- <-. }
  destruct (sidecar_exchange headers st (encode_frame (FBulk b))) as [st1 [o|e|]] eqn:He; [|done..].
  destruct (bulk_resynced _ _ _ _ _ _ _ _ _ Hre He) as [Ho Hre'].
  destruct o as [f|]; [|by eapply IH].
  destruct (Ho f eq_refl) as [ack ->]. by eapply IH.
Qed.

(** A RESYNC frame makes the client's log the session's; the reply is an ACK of
    its root, when every block is there, or the list of the missing ones. *)
Lemma resync_resynced headers st c st' o :
  sidecar_inv st → roots_ok (r_store (sc_receiver st)) →
  frame_wf (FResync (resync_frame (c_shim c))) →
  sidecar_exchange headers st (chat_resync_frame c) = (st', Ok o) →
  resynced (s_session_id (c_shim c)) (s_ids (c_shim c)) (s_root (c_shim c)) st'
    (match o with Some (FAck ack) => Some ack | _ => None end).
Proof.
  intros [Hi _ _] Hr Hwf H. destruct (exchange_ok _ _ _ _ _ Hr H) as (f & r1 & s2 & Hd & Hf & Er & Hv & Hr2).
  injection Hv as Hb Hs. unfold chat_resync_frame in Hd.
  destruct (frame_roundtrip _ [] Hwf) as [_ Hrt]. rewrite app_nil_r, Hd in Hrt. injection Hrt as ->.
  pose proof (handle_frame_inv (sc_receiver st) (FResync (resync_frame (c_shim c))) Hi) as Hi1. rewrite Hf in Hi1.
  cbn [handle_frame] in Hf. unfold handle_resync in Hf. cbn [rs_session_id resync_frame rs_manifest rs_client_root] in Hf.
  set (missing := filter _ (s_ids (c_shim c))) in Hf. set (sid := s_session_id (c_shim c)) in *.
  set (rs := put_state _ _ _) in Hf.
  assert (r1 = rs) as -> by (by destruct missing; injection Hf).
  assert (sessions s2 !! sid = Some (mkLog (s_ids (c_shim c)) (s_root (c_shim c)))) as Hsid.
  { rewrite Hs. cbn. by rewrite seed_sessions, lookup_insert_eq. }
  split; rewrite Er; cbn [with_store r_store].
  - by apply receiver_inv_view.
  - done.
  - unfold session_ids. by rewrite Hsid.
  - unfold session_root. by rewrite Hsid.
  - intros ack Hack Hs'. change (state_of (with_store rs s2) sid) with (state_of rs sid).
    unfold rs. rewrite state_of_put, decide_True by done. cbn [pending].
    destruct missing as [|i l]; injection Hf as <-; [|done]. injection Hack as <-. cbn -[seed_session session_root].
    split; [|done]. cbn [rs put_state with_store r_store] in Hs. unfold session_root. by rewrite <-Hs, Hsid.
Qed.

(** The acknowledgement that ends a synchronisation moves the base root. *)
Lemma protocol_ack_spec c ack c' :
  apply_protocol_ack c ack = (c', Ok tt) →
  ack_session_id ack = s_session_id (c_shim c) ∧
  (ack_root ack = s_root (c_shim c) →
   s_base_root (c_shim c') = s_root (c_shim c) ∧ s_ids (c_shim c') = s_ids (c_shim c) ∧
   s_root (c_shim c') = s_root (c_shim c) ∧ s_session_id (c_shim c') = s_session_id (c_shim c)).
Proof.
  unfold apply_protocol_ack. destruct (Z.eqb_spec (ack_session_id ack) (s_session_id (c_shim c))) as [Hs|]; [|done].
  cbn [negb]. intros H. split; [done|]. intros Hr. unfold chat_apply_ack, apply_ack in H.
  rewrite bool_decide_true in H by done. cbn in H. injection H as <-. cbn. auto.
Qed.

(** Client and sidecar agree on the session. *)
Definition agreed (st : SidecarState) (c c' : ChatSession) : Prop :=
  session_ids (r_store (sc_receiver st)) (s_session_id (c_shim c)) = s_ids (c_shim c) ∧
  session_root (r_store (sc_receiver st)) (s_session_id (c_shim c)) = s_root (c_shim c) ∧
  complete (sc_receiver st) (s_session_id (c_shim c)) ∧
  s_base_root (c_shim c') = s_root (c_shim c) ∧ s_ids (c_shim c') = s_ids (c_shim c) ∧
  s_root (c_shim c') = s_root (c_shim c) ∧ s_session_id (c_shim c') = s_session_id (c_shim c).

Lemma resynced_agreed st c ack c' :
  resynced (s_session_id (c_shim c)) (s_ids (c_shim c)) (s_root (c_shim c)) st (Some ack) →
  apply_protocol_ack c ack = (c', Ok tt) → agreed st c c'.
Proof.
  intros [Ri _ Rl Rr Ra] Hp. destruct (protocol_ack_spec _ _ _ Hp) as [Hs Hbase].
  destruct (Ra ack eq_refl Hs) as [Hroot Hpend].
  exact (conj Rl (conj Rr (conj (no_pending_complete _ _ Ri Hpend) (Hbase Hroot)))).
Qed.

(** A synchronisation that returns [Ok]. *)
Lemma synchronize_agreed headers st c pct st' c' :
  sidecar_inv st → roots_ok (r_store (sc_receiver st)) →
  frame_wf (FResync (resync_frame (c_shim c))) →
  synchronize isa SidecarState (sidecar_exchange headers) st c pct = (st', c', Ok tt) →
  agreed st' c c'.
Proof.
  intros Hi Hr Hwf H.
  unfold synchronize in H.
  destruct (sidecar_exchange headers st (chat_resync_frame c)) as [st1 [o|e|]] eqn:He; [|done..].
  pose proof (resync_resynced _ _ _ _ _ Hi Hr Hwf He) as Hre.
  destruct o as [[a|rs|b|ack|ms]|]; try done.
  { destruct (apply_protocol_ack c ack) as [c1 r] eqn:Hp. injection H as -> -> ->. by eapply resynced_agreed. }
  destruct (ms_session_id ms =? _); [|done]. unfold chat_bulk_frames_for in H.
  destruct (bulk_frames_for _ _ _ _ _) as [frames|e|]; [|done..]. cbn [map_err obind] in H.
  destruct (send_bulk _ _ _ _ _) as [st2 [[ack|]|e|]] eqn:Hb; [|done..].
  pose proof (send_bulk_resynced _ _ _ _ _ _ _ _ _ Hre Hb) as Hre2.
  destruct (apply_protocol_ack c ack) as [c1 r] eqn:Hp. injection H as -> -> ->. by eapply resynced_agreed.
Qed.
End Synchronize.

(** ** Theorems *)

Section Claims.
Context `{B3 : Blake3} {B3L : Blake3Laws} `{CC : Codec} {CL : CodecLaws} `{FC : FountainCode} `{DF : DedupFilter}.
Context `{LM : Libm} `{SJ : SerdeJson} {SJL : SerdeJsonLaws} `{HT : HttpText} {HTL : HttpTextLaws}.

(** C15: A synchronisation that returns [Ok] synchronised.  Whatever the sidecar
    held before and however the cold start went (nothing missing, or bulk
    frames in between), the sidecar then has the client's log and root, holds
    every block of it, and the client's base root is its root, so the next
    APPEND starts where both sides are. *)
Theorem synchronize_sound isa headers st c pct st' c' :
  sidecar_inv st → roots_ok (r_store (sc_receiver st)) →
  frame_wf (FResync (resync_frame (c_shim c))) →
  synchronize isa SidecarState (sidecar_exchange headers) st c pct = (st', c', Ok tt) →
  agreed st' c c'.
Proof. apply synchronize_agreed. Qed.
End Claims.
