(* ===== verification/SyncLive.v ===== *)
(** * SyncLive: a synchronisation comes to its end

    [Synchronize] says what a synchronisation that returned [Ok] achieved.  This
    file proves that it returns [Ok]: against a sidecar that lets the client in
    and whose log writes succeed, every RESYNC and BULK frame is answered and
    the last answer is the acknowledgement the client waits for. *)

From S2P Require Import Prelude Interfaces F64 Block Merkle Filter Frame Wal Store Compress FountainSig.
From S2P Require Import Receiver GfVec Gauss Fountain FountainCorrect Encoder Bulk Shim Protocol ColdStart.
From S2P Require Import Recovery Web Sidecar SidecarCorrect SidecarServe ChatClient Synchronize.

(** ** A store whose log writes succeed *)

Section Healthy.
Context `{B3 : Blake3}.

(** No error is latched and the disk has no fault ahead. *)
Definition healthy (s : ContentStore) : Prop :=
  wal_error s = None ∧ ∀ w, wal s = Some w → w_faults w = [].

Lemma write_seq_healthy w parts :
  w_faults w = [] → ∃ w', write_seq w parts = (w', Ok tt) ∧ w_faults w' = [].
Proof.
  revert w. induction parts as [|bs parts IH]; intros w Hw; cbn [write_seq]; [by exists w|].
  unfold write_all. rewrite Hw. by apply IH.
Qed.

Lemma record_healthy s w : wal_error s = None → w_faults w = [] → healthy (record_wal_result s (w, Ok tt)).
Proof. intros He Hw. split; [done|]. intros w' Hw'. cbn in Hw'. by injection Hw' as <-. Qed.

Lemma record_len_fits n : n ≤ MAX_RECORD_BYTES → record_len n = Ok n.
Proof.
  intros Hn. assert (MAX_RECORD_BYTES < 2 ^ 32) by done. unfold record_len.
  destruct (Z.ltb_spec MAX_RECORD_BYTES n); [lia|]. destruct (Z.ltb_spec n (2 ^ 32)); [done|lia].
Qed.

Lemma seed_healthy s sid ids root :
  healthy s → 32 * zlen ids + 36 ≤ MAX_RECORD_BYTES → healthy (seed_session s sid ids root).
Proof.
  intros [He Hw] Hn. assert (MAX_RECORD_BYTES < 2 ^ 32) by done.
  pose proof (zlen_nonneg ids). unfold seed_session.
  set (s' := if bool_decide _ then _ else _).
  assert (wal s' = wal s ∧ wal_error s' = None) as [Hs1 Hs2] by (unfold s'; by case_bool_decide).
  rewrite Hs1. destruct (wal s) as [w|] eqn:Hwal; [|by split; [|rewrite Hs1]].
  unfold append_seed, checked_mul, checked_add, usize_max.
  rewrite (proj2 (Z.leb_le _ _)) by lia. cbn [mbind option_bind].
  rewrite (proj2 (Z.leb_le _ _)) by lia. rewrite record_len_fits by lia.
  rewrite (proj2 (Z.ltb_lt _ _)) by lia.
  match goal with |- context [write_seq w ?ps] =>
    destruct (write_seq_healthy w ps (Hw w eq_refl)) as (w' & -> & Hw') end.
  by apply record_healthy.
Qed.

Lemma content_healthy s sid b id :
  healthy s → zlen (canonical_bytes b) ≤ MAX_RECORD_BYTES → healthy (store_content_with_id s sid b id).1.
Proof.
  intros [He Hw] Hn. unfold store_content_with_id.
  case_bool_decide; cbn [fst wal set_blocks set_stats];
    (destruct (wal s) as [w|] eqn:Hwal; [|by split; cbn; rewrite ?Hwal]).
  - unfold append_content. rewrite record_len_fits by done.
    match goal with |- context [write_seq w ?ps] =>
      destruct (write_seq_healthy w ps (Hw w eq_refl)) as (w' & -> & Hw') end.
    by apply record_healthy.
  - split; cbn; [done|]. by rewrite Hwal.
Qed.

Lemma recovered_healthy s sid (bis : list (Block * BlockId)) :
  healthy s → Forall (λ bi, zlen (canonical_bytes bi.1) ≤ MAX_RECORD_BYTES) bis →
  healthy (store_recovered s sid bis).
Proof.
  intros Hs Hbis. revert s Hs. induction Hbis as [|[b id] bis Hb _ IH]; intros s Hs; [done|].
  apply (IH (store_content_with_id s sid b id).1). by apply content_healthy.
Qed.

Lemma flush_healthy s sync : healthy s → ∃ s', flush_wal s sync = (s', Ok tt) ∧ view s' = view s ∧ healthy s'.
Proof.
  intros [He Hw]. pose proof (flush_wal_view s sync) as [Hb Hs]. unfold flush_wal in *. rewrite He in *.
  destruct (wal s) as [w|] eqn:Hwal; [|by exists s; split_and!; [..|split; [|rewrite Hwal]]].
  unfold flush, write_all in *. rewrite (Hw w eq_refl) in *. destruct sync; cbn in *;
    eexists; (split_and!; [done|unfold view; by cbn|]); split; cbn; try done; by intros ? [= <-].
Qed.
(** The record limit of the log is below what a frame may carry: a manifest of
    [MAX_FRAME_COUNT] ids, or a block of more than 512 MiB, is accepted but
    cannot be logged, and the error it latches refuses every later flush. *)
Lemma oversized_seed_latches s sid ids root w sync :
  wal s = Some w → wal_error s = None → zlen ids = MAX_FRAME_COUNT →
  ∃ e, flush_wal (seed_session s sid ids root) sync = (seed_session s sid ids root, Err e).
Proof.
  intros Hw He Hn. assert (MAX_FRAME_COUNT = 2 ^ 24 ∧ MAX_RECORD_BYTES = 2 ^ 29) as [HF HR] by done.
  assert (is_Some (wal_error (seed_session s sid ids root))) as [e Hl]; [|exists e; unfold flush_wal; by rewrite Hl].
  unfold seed_session. set (s' := if bool_decide _ then _ else _).
  assert (wal s' = wal s ∧ wal_error s' = None) as [Hs1 Hs2] by (unfold s'; by case_bool_decide).
  rewrite Hs1, Hw. unfold append_seed, checked_mul, checked_add, usize_max.
  rewrite (proj2 (Z.leb_le _ _)) by lia. cbn [mbind option_bind]. rewrite (proj2 (Z.leb_le _ _)) by lia.
  unfold record_len. rewrite (proj2 (Z.ltb_lt _ _)) by lia.
  unfold record_wal_result, latch_wal_error. cbn. rewrite Hs2. by eexists.
Qed.

Lemma oversized_block_latches s sid b id w sync :
  wal s = Some w → wal_error s = None → blocks s !! id = None → MAX_RECORD_BYTES < zlen (canonical_bytes b) →
  ∃ e, flush_wal (store_content_with_id s sid b id).1 sync = ((store_content_with_id s sid b id).1, Err e).
Proof.
  intros Hw He Hb Hn.
  assert (is_Some (wal_error (store_content_with_id s sid b id).1)) as [e Hl];
    [|exists e; unfold flush_wal; by rewrite Hl].
  unfold store_content_with_id. rewrite bool_decide_true by done. cbn [fst wal set_blocks set_stats]. rewrite Hw.
  unfold append_content, record_len. rewrite (proj2 (Z.ltb_lt _ _)) by done.
  unfold record_wal_result, latch_wal_error. cbn. rewrite He. by eexists.
Qed.
End Healthy.

(** ** One exchange *)

Section Live.
Context `{B3 : Blake3} {B3L : Blake3Laws} `{CC : Codec} {CL : CodecLaws} `{DF : DedupFilter} `{LM : Libm}.
Context `{SJ : SerdeJson} {SJL : SerdeJsonLaws} `{HT : HttpText} {HTL : HttpTextLaws}.
Variables isa isa' : Isa.
#[local] Hint Extern 0 FountainCode => exact (receiver_code isa') : typeclass_instances.
Variable headers : HeaderMap.

(** The sidecar answers: the token is right and the store is healthy. *)
Record answering (st : SidecarState) : Prop := {
  an_token : authorized st headers = true;
  an_roots : roots_ok (r_store (sc_receiver st));
  an_healthy : healthy (r_store (sc_receiver st))
}.

Lemma exchange_answers st f r1 o :
  answering st → frame_wf f → handle_frame (sc_receiver st) f = (r1, Ok o) → healthy (r_store r1) →
  ∃ st' s2, sidecar_exchange headers st (encode_frame f) = (st', Ok o) ∧
    sc_receiver st' = with_store r1 s2 ∧ view s2 = view (r_store r1) ∧ answering st'.
Proof.
  intros [Hauth Hr Hh] Hf H Hh1.
  assert (∀ g, o = Some g → frame_wf g) as Ho.
  { intros g ->. by eapply reply_wf. }
  assert (roots_ok (r_store r1)) as Hr1.
  { destruct (frame_exec (sc_receiver st) f Hf) as (os & Ho1 & Hos). rewrite H in Ho1.
    cbn [fst] in Ho1. rewrite Ho1. by apply exec_roots. }
  destruct (flush_healthy (r_store r1) (sc_sync_wal st) Hh1) as (s2 & Hfl & Hv & Hh2).
  exists (with_receiver (with_receiver (with_cache st (cache_remove (sc_cache st) (frame_session_id f))) r1)
            (with_store r1 s2)), s2.
  destruct (frame_roundtrip f [] Hf) as [_ Hrt]. rewrite app_nil_r in Hrt.
  unfold sidecar_exchange, post_frame, hbind, authenticate, respond. rewrite Hauth. cbn [map_err].
  rewrite Hrt. cbn [map_err forget_projection]. unfold receive_frame. cbn [sc_receiver with_cache].
  rewrite H. cbn [map_err]. unfold flush_store. cbn [sc_receiver with_receiver with_cache sc_sync_wal].
  rewrite Hfl. cbn [map_err hret]. split_and!; [|done|done|].
  - f_equal. destruct o as [g|]; [|done]. unfold exchange_result. cbn.
    destruct (frame_roundtrip g [] (Ho g eq_refl)) as [_ Hg]. rewrite app_nil_r in Hg. by rewrite Hg.
  - split; cbn [sc_receiver with_receiver with_store r_store]; [exact Hauth| |done].
    injection Hv as _ Hs. unfold roots_ok. by rewrite Hs.
Qed.

(** ** The bulk frames *)

(** Session [sid] of the sidecar between two bulk frames. *)
Record receiving (sid : Z) (rt : MerkleRoot) (st : SidecarState) (completion : option AckFrame) : Prop := {
  rc_answers : answering st;
  rc_decoders : decoders (state_of (sc_receiver st) sid) = ∅;
  rc_acked : acked (state_of (sc_receiver st) sid) = bool_decide (pending (state_of (sc_receiver st) sid) = ∅);
  rc_root : session_root (r_store (sc_receiver st)) sid = rt;
  rc_done : pending (state_of (sc_receiver st) sid) = ∅ → completion = Some (mkAck sid rt)
}.

(** What the client sends: frames that carry blocks the log has room for. *)
Definition sendable_frame (sid : Z) (f : BulkFrame) (bis : list (Block * BlockId)) : Prop :=
  frame_wf (FBulk f) ∧ delivers isa' sid f bis ∧
  Forall (λ bi, zlen (canonical_bytes bi.1) ≤ MAX_RECORD_BYTES) bis.

Lemma bulk_received sid rt st completion f bis :
  receiving sid rt st completion → sendable_frame sid f bis →
  ∃ st' o, sidecar_exchange headers st (encode_frame (FBulk f)) = (st', Ok o) ∧
    receiving sid rt st' (match o with Some (FAck a) => Some a | _ => completion end) ∧
    ∀ id, id ∈ pending (state_of (sc_receiver st') sid) →
          id ∈ pending (state_of (sc_receiver st) sid) ∧ id ∉ bis.*2.
Proof.
  intros [Han Hd Ha Hr Hc] (Hwf & [Hsid Hf] & Hlen).
  destruct (Hf (sc_receiver st) Hd) as (Hres & D & P & A & S).
  destruct (handle_bulk (sc_receiver st) f) as [r1 res] eqn:Hb. cbn [fst snd] in *. subst res.
  set (fin := _ && _) in Hb.
  destruct (exchange_answers st (FBulk f) r1
    (if fin then Some (FAck (mkAck sid rt)) else None)) as (st' & s2 & He & Er & Hv & Han').
  { done. } { done. }
  { cbn [handle_frame]. rewrite Hb. cbn [obind]. destruct fin; [|done]. by rewrite Hr, Hsid. }
  { rewrite S. apply recovered_healthy; [apply Han|done]. }
  injection Hv as Hbl Hse.
  assert (∀ sid', state_of (sc_receiver st') sid' = state_of r1 sid') as Hst by (intros; by rewrite Er).
  eexists _, _. split; [exact He|]. split; [|intros id; rewrite Hst; apply P].
  split; rewrite ?Hst; [done|done| |..].
  - rewrite A, Ha. destruct (bool_decide (pending (state_of r1 sid) = ∅)) eqn:E; [done|].
    cbn. apply bool_decide_eq_false in E. apply bool_decide_eq_false. intros Hp. apply E.
    apply set_eq. intros id. rewrite P, Hp. set_solver.
  - rewrite Er. cbn [with_store r_store]. unfold session_root. rewrite Hse, S.
    by rewrite (proj1 (store_recovered_effect _ _ _)).
  - intros Hp. unfold fin. rewrite (bool_decide_true _ Hp), Ha. cbn [andb].
    destruct (bool_decide_reflect (pending (state_of (sc_receiver st) sid) = ∅)); cbn [negb];
      [by apply Hc|done].
Qed.

Lemma send_bulk_completes sid rt fs biss st completion :
  receiving sid rt st completion → Forall2 (sendable_frame sid) fs biss →
  ∃ st' res, send_bulk SidecarState (sidecar_exchange headers) st completion
      ((λ b, encode_frame (FBulk b)) <$> fs) = (st', Ok res) ∧
    receiving sid rt st' res ∧
    ∀ id, id ∈ pending (state_of (sc_receiver st') sid) →
          id ∈ pending (state_of (sc_receiver st) sid) ∧ id ∉ (concat biss).*2.
Proof.
  intros Hre Hfs. revert st completion Hre.
  induction Hfs as [|f bis fs biss Hf _ IH]; intros st completion Hre; cbn [fmap list_fmap send_bulk].
  { eexists _, _. split_and!; [done..|]. intros id Hid. split; [done|]. by apply not_elem_of_nil. }
  destruct (bulk_received _ _ _ _ _ _ Hre Hf) as (st1 & o & -> & Hre1 & Hp1).
  destruct (IH st1 _ Hre1) as (st' & res & He & Hre' & Hp').
  exists st', res. split_and!; [by destruct o as [[]|]|done|].
  intros id Hid. destruct (Hp' id Hid) as [Hid1 Hn]. destruct (Hp1 id Hid1) as [? Hn1].
  split; [done|]. cbn [concat]. rewrite fmap_app. by rewrite not_elem_of_app.
Qed.

(** ** The whole synchronisation *)

Lemma protocol_ack_current c :
  (apply_protocol_ack c (mkAck (s_session_id (c_shim c)) (s_root (c_shim c)))).2 = Ok tt.
Proof.
  unfold apply_protocol_ack. cbn [ack_session_id ack_root]. rewrite Z.eqb_refl. cbn [negb].
  unfold chat_apply_ack, apply_ack. by rewrite bool_decide_true.
Qed.

(** The client's log is in its own store, and every block of it fits a
    generation of at most [kmax] symbols and a record of the log. *)
Record transmissible (c : ChatSession) (pct kmax : Z) : Prop := {
  tr_content : content_ok (h_store (c_host c));
  tr_symbol : 0 < s_fountain_symbol_size (c_shim c) ≤ 2 ^ 16;
  tr_k : s_fountain_k (c_shim c) ≤ kmax;
  tr_kmax : 1 ≤ kmax ≤ 65535;
  tr_margin : margin_fits pct kmax;
  tr_frame : frame_wf (FResync (resync_frame (c_shim c)));
  tr_seed : 32 * zlen (s_ids (c_shim c)) + 36 ≤ MAX_RECORD_BYTES;
  tr_blocks : Forall (λ id, ∃ b, blocks (h_store (c_host c)) !! id = Some b ∧
    fits_record (s_level (c_shim c)) (kmax * s_fountain_symbol_size (c_shim c)) b ∧
    zlen (canonical_bytes b) ≤ MAX_RECORD_BYTES) (s_ids (c_shim c))
}.

(** The frames for any part of the log. *)
Lemma bulk_frames_sendable c pct kmax missing :
  transmissible c pct kmax → missing ⊆ s_ids (c_shim c) →
  ∃ fs biss, chat_bulk_frames_for isa c missing pct = Ok ((λ f, encode_frame (FBulk f)) <$> fs) ∧
    Forall2 (sendable_frame (s_session_id (c_shim c))) fs biss ∧ (concat biss).*2 = missing.
Proof.
  intros [Hc Hsym Hk Hkm Hm Hf _ Hb] Hsub. set (sh := c_shim c) in *.
  assert (∀ id b, id ∈ missing → blocks (h_store (c_host c)) !! id = Some b →
    zlen (canonical_bytes b) ≤ MAX_RECORD_BYTES) as Hlen.
  { intros id b Hid Hlk. destruct (proj1 (Forall_elem _ _) Hb id (Hsub _ Hid)) as (b' & Hb' & _ & ?). congruence. }
  destruct (bulk_frames_for_spec isa isa' sh (h_store (c_host c)) pct kmax missing)
    as (fs & biss & Hfs & Hd & Hcc); [done..| |].
  { apply Forall_elem. intros id Hid. destruct (proj1 (Forall_elem _ _) Hb id (Hsub _ Hid)) as (b & ? & ? & _).
    by exists b. }
  exists fs, biss. unfold chat_bulk_frames_for. fold sh. rewrite Hfs. split_and!; [done| |done].
  assert (Forall (λ bis : list (Block * BlockId), bis.*2 ⊆ missing) biss) as Hin.
  { apply Forall_elem. intros bis Hbis id (bi & -> & Hid)%list_elem_of_fmap. rewrite <-Hcc.
    apply list_elem_of_fmap. exists bi. split; [done|]. apply list_elem_of_In, in_concat.
    exists bis. by rewrite <-!list_elem_of_In. }
  clear Hfs Hcc. induction Hd as [|f bis fs biss (Hdl & Hsh & Hst) _ IH]; [done|].
  apply Forall_cons_iff in Hin as [Hin1 Hin]. constructor; [|by apply IH]. split_and!.
  - destruct Hf as [Hu _]. apply (coded_frame_wf sh pct kmax); [|done|lia|done|done].
    rewrite (proj1 Hdl). exact Hu.
  - done.
  - apply Forall_elem. intros bi Hbi. apply (Hlen bi.2).
    + apply Hin1, list_elem_of_fmap. by exists bi.
    + by apply (proj1 (Forall_elem _ _) Hst).
Qed.

(** After RESYNC: an acknowledgement, or the missing part and an open transfer. *)
Lemma resync_answered st c pct kmax :
  answering st → decoders (state_of (sc_receiver st) (s_session_id (c_shim c))) = ∅ →
  transmissible c pct kmax →
  ∃ st' missing, missing ⊆ s_ids (c_shim c) ∧
    sidecar_exchange headers st (chat_resync_frame c) =
      (st', Ok (Some (match missing with
                      | [] => FAck (mkAck (s_session_id (c_shim c)) (s_root (c_shim c)))
                      | _ => FMissing (mkMissing (s_session_id (c_shim c)) missing)
                      end))) ∧
    (missing ≠ [] → receiving (s_session_id (c_shim c)) (s_root (c_shim c)) st' None ∧
       pending (state_of (sc_receiver st') (s_session_id (c_shim c))) = list_to_set missing).
Proof.
  intros Han Hd Htr. set (sh := c_shim c) in *.
  set (missing := filter (λ id, contains (r_store (sc_receiver st)) id = false) (s_ids sh)).
  set (r1 := (handle_resync (sc_receiver st) (resync_frame sh)).1).
  assert (session_root (r_store r1) (s_session_id sh) = s_root sh) as Hroot.
  { unfold r1, session_root. cbn. by rewrite seed_sessions, lookup_insert_eq. }
  destruct (exchange_answers st (FResync (resync_frame sh)) r1
    (Some (match missing with
           | [] => FAck (mkAck (s_session_id sh) (s_root sh))
           | _ => FMissing (mkMissing (s_session_id sh) missing)
           end))) as (st' & s2 & He & Er & Hv & Han').
  { done. } { apply Htr. }
  { rewrite <-Hroot. cbn [handle_frame]. unfold r1, handle_resync. cbn [fst].
    change (rs_manifest (resync_frame sh)) with (s_ids sh). fold missing. by destruct missing. }
  { apply seed_healthy; [apply Han|apply Htr]. }
  exists st', missing. split_and!; [by intros id [_ ?]%list_elem_of_filter|done|]. intros Hne.
  injection Hv as _ Hse.
  assert (state_of (sc_receiver st') (s_session_id sh) = mkState (list_to_set missing) false ∅) as Hst.
  { rewrite Er. change (state_of (with_store r1 s2) ?x) with (state_of r1 x). unfold r1, handle_resync.
    cbn [fst]. rewrite state_of_put, decide_True by done. change (rs_session_id (resync_frame sh)) with (s_session_id sh).
    rewrite Hd. change (rs_manifest (resync_frame sh)) with (s_ids sh). fold missing.
    by rewrite bool_decide_false. }
  assert ((list_to_set missing : gset BlockId) ≠ ∅) as Hp.
  { destruct missing; [done|]. cbn. set_solver. }
  split; [|by rewrite Hst]. split; rewrite ?Hst; cbn [decoders acked pending]; [done|done| | |done].
  - by rewrite bool_decide_false.
  - rewrite <-Hroot, Er. unfold session_root. cbn [with_store r_store]. by rewrite Hse.
Qed.
End Live.

(** ** Theorems *)

Section Claims.
Context `{B3 : Blake3} {B3L : Blake3Laws} `{CC : Codec} {CL : CodecLaws} `{DF : DedupFilter} `{LM : Libm}.
Context `{SJ : SerdeJson} {SJL : SerdeJsonLaws} `{HT : HttpText} {HTL : HttpTextLaws}.
Variables isa isa' : Isa.
#[local] Hint Extern 0 FountainCode => exact (receiver_code isa') : typeclass_instances.

(** C16: Synchronisation succeeds.  Against a sidecar that accepts the client's
    token, whose log writes succeed and that has no half-received generation of
    the session, a client whose log is in its store gets every frame answered
    and [synchronize] returns [Ok], whatever part of the log was missing; both
    sides then agree on log, content and base root. *)
Theorem synchronize_completes headers st c pct kmax :
  sidecar_inv st → answering isa' headers st →
  decoders (state_of (sc_receiver st) (s_session_id (c_shim c))) = ∅ →
  transmissible c pct kmax →
  ∃ st' c', synchronize isa SidecarState (sidecar_exchange headers) st c pct = (st', c', Ok tt) ∧
    agreed st' c c'.
Proof.
  intros Hinv Han Hd Htr.
  enough (∃ st' c', synchronize isa SidecarState (sidecar_exchange headers) st c pct = (st', c', Ok tt))
    as (st' & c' & H).
  { exists st', c'. split; [done|].
    eapply synchronize_agreed; [exact Hinv|apply Han|apply Htr|exact H]. }
  unfold synchronize. pose proof (protocol_ack_current c) as Hack.
  destruct (resync_answered isa' headers st c pct kmax Han Hd Htr) as (st1 & missing & Hsub & -> & Hre).
  destruct (apply_protocol_ack c _) as [c1 r1] eqn:Hap. cbn [snd] in Hack. subst r1.
  destruct missing as [|id missing]; [rewrite Hap; by eexists _, _|]. cbn [ms_session_id ms_missing].
  rewrite Z.eqb_refl. destruct (Hre ltac:(done)) as [Hrc Hpend].
  destruct (bulk_frames_sendable isa isa' c pct kmax (id :: missing) Htr Hsub) as (fs & biss & -> & Hfs & Hcc).
  destruct (send_bulk_completes isa' headers _ _ fs biss st1 None Hrc Hfs) as (st2 & res & -> & Hrc2 & Hp2).
  rewrite (rc_done _ _ _ _ _ _ Hrc2).
  - rewrite Hap. by eexists _, _.
  - apply set_eq. intros x. split; [|by intros ?%elem_of_empty]. intros Hx.
    destruct (Hp2 x Hx) as [H1 H2]. rewrite Hpend, elem_of_list_to_set in H1. by rewrite Hcc in H2.
Qed.
End Claims.
