(* ===== verification/Pruner.v ===== *)
(** * Pruner: the incremental top-K window of [prune/src/incremental.rs]

    Survivors are kept twice: in a B-tree ordered by (score, clock), here a
    sorted association list, and in a hash index by block id.  The clock is a
    [u64] that grows by one per insertion; sizes and their total are
    non-negative integers below the [usize] bound. *)

From stdpp Require Import sorting.
From S2P Require Import Prelude Block.

Inductive Budget : Type :=
| Blocks (n : Z)
| Tokens (n : Z).

(** B-tree keys, in lexicographic order. *)
Definition key : Type := Z * Z.
Definition key_lt (a b : key) : Prop := a.1 < b.1 ∨ a.1 = b.1 ∧ a.2 < b.2.
Definition key_ltb (a b : key) : bool := (a.1 <? b.1) || (a.1 =? b.1) && (a.2 <? b.2).

Definition entry : Type := key * BlockId.

(** [BTreeMap::insert] and [BTreeMap::remove]. *)
Fixpoint bt_insert (k : key) (v : BlockId) (l : list entry) : list entry :=
  match l with
  | [] => [(k, v)]
  | (k', v') :: l' =>
      if key_ltb k k' then (k, v) :: l
      else if bool_decide (k = k') then (k, v) :: l'
      else (k', v') :: bt_insert k v l'
  end.
Definition bt_remove (k : key) (l : list entry) : list entry := filter (λ e, e.1 ≠ k) l.

(** [(score, seq, size)]. *)
Record Slot : Type := mkSlot { sl_score : Z; sl_seq : Z; sl_size : Z }.

Record IncrementalPruner : Type := mkPruner {
  pr_budget : Budget;
  pr_ordered : list entry;
  pr_index : gmap BlockId Slot;
  pr_total_size : Z;
  pr_clock : Z;
  pr_scorer : Z → Z → Z
}.

Definition default_score (seq size : Z) : Z :=
  Z.lor (wrap 64 (Z.shiftl seq 20)) (Z.min size (2 ^ 20 - 1)).

Definition new_with (budget : Budget) (scorer : Z → Z → Z) : IncrementalPruner :=
  mkPruner budget [] ∅ 0 0 scorer.
Definition IncrementalPruner_new (budget : Z) : IncrementalPruner := new_with (Blocks budget) default_score.
Definition new_token_budget (token_budget : Z) : IncrementalPruner :=
  new_with (Tokens token_budget) default_score.

Definition over_budget (p : IncrementalPruner) : bool :=
  match pr_budget p with
  | Blocks b => b <? zlen (pr_ordered p)
  | Tokens b => (b <? pr_total_size p) && (1 <? zlen (pr_ordered p))
  end.

(** The eviction loop; each round removes a survivor. *)
Fixpoint evict (fuel : nat) (p : IncrementalPruner) (evicted : option BlockId)
    : outcome string (IncrementalPruner * option BlockId) :=
  match fuel with
  | O => Ok (p, evicted)
  | S fuel' =>
      if over_budget p then
        match pr_ordered p with
        | [] => Panic
        | (_, ev_id) :: rest =>
            match pr_index p !! ev_id with
            | None => Panic
            | Some slot =>
                let p := mkPruner (pr_budget p) rest (delete ev_id (pr_index p))
                           (pr_total_size p - sl_size slot) (pr_clock p) (pr_scorer p) in
                let evicted := match evicted with None => Some ev_id | Some _ => evicted end in
                match pr_budget p with
                | Blocks _ => Ok (p, evicted)
                | Tokens _ => evict fuel' p evicted
                end
            end
        end
      else Ok (p, evicted)
  end.

(** Drop the old entry of a re-inserted id. *)
Definition forget (p : IncrementalPruner) (id : BlockId) : IncrementalPruner :=
  match pr_index p !! id with
  | Some old =>
      mkPruner (pr_budget p) (bt_remove (sl_score old, sl_seq old) (pr_ordered p)) (pr_index p)
        (pr_total_size p - sl_size old) (pr_clock p) (pr_scorer p)
  | None => p
  end.

Definition place (p : IncrementalPruner) (id : BlockId) (size : Z) : IncrementalPruner :=
  let clock := pr_clock p + 1 in
  let s := pr_scorer p clock size in
  mkPruner (pr_budget p) (bt_insert (s, clock) id (pr_ordered p))
    (<[id := mkSlot s clock size]> (pr_index p)) (pr_total_size p + size) clock (pr_scorer p).

Definition insert (p : IncrementalPruner) (id : BlockId) (size : Z)
    : outcome string (IncrementalPruner * option BlockId) :=
  let p := place (forget p id) id size in
  evict (length (pr_ordered p)) p None.

(** Survivors, highest score first. *)
Definition window (p : IncrementalPruner) : list BlockId := reverse (pr_ordered p).*2.

(** [sort_unstable_by_key(seq)]; the sequence numbers are distinct. *)
Fixpoint seq_insert (x : BlockId * Z) (l : list (BlockId * Z)) : list (BlockId * Z) :=
  match l with
  | [] => [x]
  | y :: l' => if x.2 <=? y.2 then x :: l else y :: seq_insert x l'
  end.

(** Survivors in insertion order. *)
Definition window_ordered (p : IncrementalPruner) : list BlockId :=
  (foldr seq_insert [] ((λ e : BlockId * Slot, (e.1, sl_seq e.2)) <$> map_to_list (pr_index p))).*1.

Definition len (p : IncrementalPruner) : Z := zlen (pr_ordered p).
Definition is_empty (p : IncrementalPruner) : bool := bool_decide (pr_ordered p = []).
Definition total_size (p : IncrementalPruner) : Z := pr_total_size p.

(** A run of insertions. *)
Fixpoint insert_all (p : IncrementalPruner) (xs : list (BlockId * Z)) : outcome string IncrementalPruner :=
  match xs with
  | [] => Ok p
  | (id, size) :: xs' => let? '(p, _) := insert p id size in insert_all p xs'
  end.

(** ** Ordered entries *)

Definition elt (a b : entry) : Prop := key_lt a.1 b.1.

Lemma key_ltb_spec a b : BoolSpec (key_lt a b) (¬ key_lt a b) (key_ltb a b).
Proof.
  unfold key_ltb, key_lt. destruct (Z.ltb_spec a.1 b.1), (Z.eqb_spec a.1 b.1), (Z.ltb_spec a.2 b.2);
    simpl; constructor; lia.
Qed.

Lemma key_lt_total a b : ¬ key_lt a b → a ≠ b → key_lt b a.
Proof.
  destruct a as [a1 a2], b as [b1 b2]. unfold key_lt. cbn. intros H Hne.
  assert (a1 ≠ b1 ∨ a2 ≠ b2) by (destruct (decide (a1 = b1)); [right; congruence|by left]). lia.
Qed.

Lemma key_lt_trans a b c : key_lt a b → key_lt b c → key_lt a c.
Proof. unfold key_lt. lia. Qed.

Lemma key_lt_irrefl a : ¬ key_lt a a.
Proof. unfold key_lt. lia. Qed.

Abbreviation sorted := (StronglySorted elt).

Lemma elem_of_bt_insert k v l e :
  sorted l → e ∈ bt_insert k v l ↔ e = (k, v) ∨ e ∈ l ∧ e.1 ≠ k.
Proof.
  induction 1 as [|[k' v'] l Hs IH Hf]; cbn [bt_insert].
  { rewrite list_elem_of_singleton. split; [by left|]. intros [?|[H _]]; [done|]. by apply not_elem_of_nil in H. }
  assert (∀ x, x ∈ l → key_lt k' x.1) as Hgt by (intros x Hx; by apply (proj1 (Forall_elem _ _) Hf)).
  destruct (key_ltb_spec k k') as [Hlt|Hge].
  - rewrite elem_of_cons. split; [|naive_solver]. intros [?|Hin]; [by left|right]. split; [done|].
    apply elem_of_cons in Hin as [->|Hin]; cbn; intros He.
    { rewrite He in Hlt. by apply key_lt_irrefl in Hlt. }
    apply Hgt in Hin. rewrite He in Hin. by apply (key_lt_irrefl k), (key_lt_trans _ k').
  - case_bool_decide as Hd.
    + subst k'. rewrite elem_of_cons. split.
      * intros [?|Hin]; [by left|right]. split; [by right|]. intros He. apply Hgt in Hin. rewrite He in Hin.
        by apply key_lt_irrefl in Hin.
      * intros [?|[[->|Hin]%elem_of_cons Hne]]; [by left|done|by right].
    + rewrite elem_of_cons, IH, elem_of_cons. split.
      * intros [->|[?|[? ?]]]; [right; split; [by left|by apply not_eq_sym]|by left|right; split; [by right|done]].
      * intros [?|[[?|?] ?]]; [right; by left|by left|right; right; done].
Qed.

Lemma bt_insert_sorted k v l : sorted l → sorted (bt_insert k v l).
Proof.
  induction 1 as [|[k' v'] l Hs IH Hf]; cbn [bt_insert]; [repeat constructor|].
  destruct (key_ltb_spec k k') as [Hlt|Hge].
  - constructor; [by constructor|]. constructor; [done|]. eapply Forall_impl; [|exact Hf].
    intros x Hx. unfold elt in *. cbn in *. by eapply key_lt_trans.
  - case_bool_decide as Hd; [subst; by constructor|]. constructor; [done|]. apply Forall_elem.
    intros x [->|[Hx _]]%elem_of_bt_insert; [|by apply (proj1 (Forall_elem _ _) Hf)|done].
    unfold elt. cbn. by apply key_lt_total.
Qed.

Lemma bt_insert_fresh k v l : (∀ e, e ∈ l → e.1 ≠ k) → bt_insert k v l ≡ₚ (k, v) :: l.
Proof.
  induction l as [|[k' v'] l IH]; intros Hf; cbn [bt_insert]; [done|].
  destruct (key_ltb k k'); [done|]. rewrite bool_decide_false.
  - rewrite IH by (intros e He; apply Hf; by right). apply Permutation_swap.
  - intros ->. by apply (Hf (k', v')); [left|].
Qed.

Lemma sorted_filter (P : entry → Prop) `{∀ e, Decision (P e)} l : sorted l → sorted (filter P l).
Proof.
  induction 1 as [|e l Hs IH Hf]; [constructor|]. rewrite filter_cons. case_decide; [|done].
  constructor; [done|]. apply Forall_elem. intros x [_ Hx]%list_elem_of_filter.
  by apply (proj1 (Forall_elem _ _) Hf).
Qed.

Lemma sorted_key_inj l k a b : sorted l → (k, a) ∈ l → (k, b) ∈ l → a = b.
Proof.
  induction 1 as [|[k' v'] l Hs IH Hf]; [by intros ?%not_elem_of_nil|].
  assert (∀ v, (k', v) ∈ l → False) as Hno.
  { intros v Hv. apply (proj1 (Forall_elem _ _) Hf) in Hv. by apply key_lt_irrefl in Hv. }
  intros [Ea|Ha]%elem_of_cons [Eb|Hb]%elem_of_cons; [congruence| | |auto]; exfalso.
  - injection Ea as -> ->. eauto.
  - injection Eb as -> ->. eauto.
Qed.

(** ** The invariant *)

Definition sizes (m : gmap BlockId Slot) : Z := map_fold (λ _ s acc, sl_size s + acc) 0 m.

Lemma sizes_delete m id s : m !! id = Some s → sizes m = sl_size s + sizes (delete id m).
Proof. intros H. unfold sizes. rewrite (map_fold_delete_L _ _ id s m); [done|intros; lia|done]. Qed.

Lemma sizes_insert m id s : m !! id = None → sizes (<[id := s]> m) = sl_size s + sizes m.
Proof. intros H. unfold sizes. rewrite map_fold_insert_L; [done|intros; lia|done]. Qed.

Definition slot_key (s : Slot) : key := (sl_score s, sl_seq s).

(** The B-tree and the index hold the same survivors; the total is the sum of
    their sizes; sequence numbers are distinct and at most the clock. *)
Record pruner_ok (p : IncrementalPruner) : Prop := {
  po_sorted : sorted (pr_ordered p);
  po_index : ∀ k id, (k, id) ∈ pr_ordered p ↔ ∃ s, pr_index p !! id = Some s ∧ k = slot_key s;
  po_total : pr_total_size p = sizes (pr_index p);
  po_clock : ∀ id s, pr_index p !! id = Some s → sl_seq s ≤ pr_clock p;
  po_seq : ∀ a b s t, pr_index p !! a = Some s → pr_index p !! b = Some t → sl_seq s = sl_seq t → a = b
}.

Lemma new_with_ok budget scorer : pruner_ok (new_with budget scorer).
Proof.
  split; cbn; [constructor| |done|by intros|by intros].
  intros k id. split; [by intros ?%not_elem_of_nil|]. by intros (? & ? & _).
Qed.

(** The entries of the other ids, after [forget]. *)
Lemma forget_ordered p id :
  pruner_ok p →
  sorted (pr_ordered (forget p id)) ∧
  ∀ k a, (k, a) ∈ pr_ordered (forget p id) ↔ (k, a) ∈ pr_ordered p ∧ a ≠ id.
Proof.
  intros [Hs Hi _ _ _]. unfold forget. destruct (pr_index p !! id) as [old|] eqn:Hold; cbn.
  - split; [by apply sorted_filter|]. intros k a. unfold bt_remove. rewrite list_elem_of_filter. cbn.
    split; intros [H1 H2].
    + split; [done|]. intros ->. apply Hi in H2 as (s & Hs' & ->). rewrite Hold in Hs'. by injection Hs' as <-.
    + split; [|done]. intros ->. apply H2. eapply sorted_key_inj; [exact Hs|exact H1|]. apply Hi. by exists old.
  - split; [done|]. intros k a. split; [|naive_solver]. intros H. split; [done|]. intros ->.
    apply Hi in H as (s & Hs' & _). congruence.
Qed.

Lemma forget_total p id :
  pruner_ok p → pr_total_size (forget p id) = sizes (delete id (pr_index p)).
Proof.
  intros [_ _ Ht _ _]. unfold forget. destruct (pr_index p !! id) as [old|] eqn:Hold; cbn.
  - rewrite Ht, (sizes_delete _ _ _ Hold). lia.
  - by rewrite delete_id.
Qed.

Lemma forget_fields p id :
  pr_index (forget p id) = pr_index p ∧ pr_clock (forget p id) = pr_clock p ∧
  pr_budget (forget p id) = pr_budget p ∧ pr_scorer (forget p id) = pr_scorer p.
Proof. unfold forget. by destruct (pr_index p !! id). Qed.

Lemma place_ok p id size : pruner_ok p → pruner_ok (place (forget p id) id size).
Proof.
  intros Hok. destruct (forget_ordered p id Hok) as [Hs He]. pose proof (forget_total p id Hok) as Ht.
  destruct (forget_fields p id) as (Fi & Fc & Fb & Fs). destruct Hok as [_ Hi _ Hc Hq].
  set (k0 := (pr_scorer p (pr_clock p + 1) size, pr_clock p + 1)).
  assert (∀ e, e ∈ pr_ordered (forget p id) → e.1 ≠ k0) as Hfresh.
  { intros [k a] [Ha _]%He. cbn. apply Hi in Ha as (s & Hs' & ->). apply Hc in Hs'.
    unfold slot_key, k0. intros [= _ E]. lia. }
  unfold place. rewrite Fi, Fc, Fb, Fs. split; cbn.
  - by apply bt_insert_sorted.
  - intros k a. rewrite elem_of_bt_insert by done. split.
    + intros [[= -> ->]|[[Ha Hne]%He _]].
      * eexists. rewrite lookup_insert_eq. by split.
      * apply Hi in Ha as (s & Hs' & ->). exists s. by rewrite lookup_insert_ne by done.
    + intros (s & [[<- <-]|[Hne Hs']]%lookup_insert_Some & ->); [by left|right].
      assert ((slot_key s, a) ∈ pr_ordered (forget p id)) as Hin.
      { apply He. split; [apply Hi; by exists s|done]. }
      split; [done|]. by apply Hfresh in Hin.
  - rewrite Ht, <-insert_delete_eq, sizes_insert by apply lookup_delete_eq. cbn. lia.
  - intros a s [[<- <-]|[Hne Hs']]%lookup_insert_Some; cbn; [lia|]. apply Hc in Hs'. lia.
  - intros a b s t [[<- <-]|[Ha Hsa]]%lookup_insert_Some [[<- <-]|[Hb Hsb]]%lookup_insert_Some;
      cbn; [done|apply Hc in Hsb; lia|apply Hc in Hsa; lia|by apply Hq].
Qed.

(** One eviction. *)
Definition pop (p : IncrementalPruner) (rest : list entry) (ev : BlockId) (s : Slot) : IncrementalPruner :=
  mkPruner (pr_budget p) rest (delete ev (pr_index p)) (pr_total_size p - sl_size s) (pr_clock p)
    (pr_scorer p).

Lemma pop_ok p k ev rest :
  pruner_ok p → pr_ordered p = (k, ev) :: rest →
  ∃ s, pr_index p !! ev = Some s ∧ pruner_ok (pop p rest ev s).
Proof.
  intros [Hs Hi Ht Hc Hq] Ho. rewrite Ho in *.
  destruct (proj1 (Hi k ev)) as (s & Hev & ->); [by left|]. exists s. split; [done|].
  inversion Hs as [|? ? Hs' Hf]; subst. unfold pop. split; cbn.
  - done.
  - intros k a. split.
    + intros Ha. destruct (proj1 (Hi k a)) as (t & Hta & ->); [by right|]. exists t. split; [|done].
      rewrite lookup_delete_ne; [done|]. intros <-. rewrite Hev in Hta. injection Hta as <-.
      apply (proj1 (Forall_elem _ _) Hf) in Ha. by apply key_lt_irrefl in Ha.
    + intros (t & [Hne Hta]%lookup_delete_Some & ->).
      destruct (proj1 (elem_of_cons _ _ _) (proj2 (Hi (slot_key t) a) (ex_intro _ t (conj Hta eq_refl))))
        as [E|]; [congruence|done].
  - rewrite Ht, (sizes_delete _ _ _ Hev). lia.
  - intros a t [_ Hta]%lookup_delete_Some. by apply Hc in Hta.
  - intros a b t u [_ Ha]%lookup_delete_Some [_ Hb]%lookup_delete_Some. by apply Hq.
Qed.

Definition within_budget (p : IncrementalPruner) : Prop :=
  match pr_budget p with
  | Blocks b => zlen (pr_ordered p) ≤ b
  | Tokens b => pr_total_size p ≤ b ∨ zlen (pr_ordered p) ≤ 1
  end.

(** The eviction loop drops the lowest survivors, and no more than it must. *)
Lemma evict_spec fuel p ev :
  pruner_ok p → (length (pr_ordered p) ≤ fuel)%nat →
  match pr_budget p with Blocks b => 0 ≤ b ∧ zlen (pr_ordered p) ≤ b + 1 | Tokens _ => True end →
  ∃ p' ev' n, evict fuel p ev = Ok (p', ev') ∧ pruner_ok p' ∧ within_budget p' ∧
    pr_budget p' = pr_budget p ∧ pr_clock p' = pr_clock p ∧ pr_scorer p' = pr_scorer p ∧
    pr_ordered p' = drop n (pr_ordered p) ∧ pr_index p' ⊆ pr_index p ∧
    (over_budget p = false → n = 0%nat) ∧
    (over_budget p = true → (n > 0)%nat ∧ match pr_budget p with Blocks _ => n = 1%nat | _ => True end).
Proof.
  revert p ev. induction fuel as [|fuel IH]; intros p ev Hok Hf Hb; cbn [evict].
  { assert (pr_ordered p = []) as Ho by (by apply nil_length_inv; lia).
    assert (over_budget p = false) as Hov.
    { unfold over_budget. rewrite Ho in *. revert Hb. destruct (pr_budget p); cbn; intros Hb;
        [apply Z.ltb_ge; unfold zlen in *; cbn; lia|apply andb_false_r]. }
    exists p, ev, 0%nat. rewrite Hov. split_and!; try done.
    unfold within_budget. rewrite Ho in *. revert Hb.
    destruct (pr_budget p); cbn; intros Hb; unfold zlen in *; cbn; [lia|right; lia]. }
  destruct (over_budget p) eqn:Hov.
  2:{ exists p, ev, 0%nat. split_and!; try done. unfold over_budget, within_budget in *.
      destruct (pr_budget p); [by apply Z.ltb_ge in Hov|].
      apply andb_false_iff in Hov as [?%Z.ltb_ge|?%Z.ltb_ge]; [by left|by right]. }
  destruct (pr_ordered p) as [|[k e] rest] eqn:Ho.
  { exfalso. revert Hb Hov. unfold over_budget. rewrite Ho. destruct (pr_budget p); intros Hb Hov;
      [apply Z.ltb_lt in Hov; change (zlen (@nil entry)) with 0 in *; lia|by rewrite andb_false_r in Hov]. }
  destruct (pop_ok p k e rest Hok Ho) as (s & Hs & Hok'). rewrite Hs.
  fold (pop p rest e s). change (pr_budget (pop p rest e s)) with (pr_budget p).
  assert (pr_index (pop p rest e s) ⊆ pr_index p) as Hsub by apply delete_subseteq.
  revert Hb. destruct (pr_budget p) as [b|b] eqn:Hbud; intros Hb.
  - eexists _, _, 1%nat. split_and!; try done; [|intros _; split; [lia|done]].
    unfold within_budget. cbn. rewrite Hbud. unfold zlen in *. cbn in Hb. lia.
  - destruct (IH (pop p rest e s) (match ev with None => Some e | Some _ => ev end))
      as (p' & ev' & n & -> & H1 & H2 & H3 & H4 & H5 & H6 & H7 & _); [done|cbn in *; lia|cbn; by rewrite Hbud|].
    eexists p', ev', (S n). split_and!; try done; [by rewrite H3; cbn|by etrans|intros _; split; [lia|done]].
Qed.

Definition budget_ok (b : Budget) : Prop := match b with Blocks n | Tokens n => 0 ≤ n end.

Lemma forget_shorter p id : (length (pr_ordered (forget p id)) ≤ length (pr_ordered p))%nat.
Proof. unfold forget. destruct (pr_index p !! id); [apply length_filter|done]. Qed.

Lemma place_fresh p id size :
  pruner_ok p →
  pr_ordered (place (forget p id) id size)
    ≡ₚ ((pr_scorer p (pr_clock p + 1) size, pr_clock p + 1), id) :: pr_ordered (forget p id).
Proof.
  intros Hok. destruct (forget_ordered p id Hok) as [_ He]. destruct Hok as [_ Hi _ Hc _].
  destruct (forget_fields p id) as (_ & Fc & _ & Fs). unfold place. rewrite Fc, Fs. apply bt_insert_fresh.
  intros [k a] [Ha _]%He. cbn. apply Hi in Ha as (s & Hs' & ->). apply Hc in Hs'.
  unfold slot_key. intros [= _ E]. lia.
Qed.

(** One insertion returns, keeps the invariant and restores the budget. *)
Lemma insert_ok p id size :
  pruner_ok p → within_budget p → budget_ok (pr_budget p) →
  ∃ p' ev n, insert p id size = Ok (p', ev) ∧ pruner_ok p' ∧ within_budget p' ∧
    pr_budget p' = pr_budget p ∧ pr_clock p' = pr_clock p + 1 ∧ pr_scorer p' = pr_scorer p ∧
    pr_ordered p' = drop n (pr_ordered (place (forget p id) id size)) ∧
    pr_index p' ⊆ <[id := mkSlot (pr_scorer p (pr_clock p + 1) size) (pr_clock p + 1) size]> (pr_index p) ∧
    (over_budget (place (forget p id) id size) = false → n = 0%nat) ∧
    (over_budget (place (forget p id) id size) = true →
       match pr_budget p with Blocks _ => n = 1%nat | _ => True end).
Proof.
  intros Hok Hw Hb. unfold insert. set (q := place (forget p id) id size).
  destruct (forget_fields p id) as (Fi & Fc & Fb & Fs).
  assert (length (pr_ordered q) ≤ S (length (pr_ordered p)))%nat as Hlen.
  { unfold q. rewrite (place_fresh p id size Hok). cbn. pose proof (forget_shorter p id). lia. }
  destruct (evict_spec (length (pr_ordered q)) q None) as (p' & ev & n & -> & H1 & H2 & H3 & H4 & H5 & H6 & H7 & H8 & H9).
  - by apply place_ok.
  - done.
  - unfold q, place. cbn. fold q. rewrite Fb. unfold within_budget in Hw. unfold budget_ok in Hb.
    destruct (pr_budget p); [|done]. unfold zlen in *. unfold q, place in Hlen. cbn in Hlen. lia.
  - exists p', ev, n. unfold q, place in H3, H4, H5, H7. cbn in H3, H4, H5, H7.
    rewrite Fb in H3. rewrite Fc in H4, H7. rewrite Fs in H5, H7. rewrite Fi in H7.
    split_and!; try done. intros Ho. apply H9 in Ho as [_ Hn]. unfold q, place in Hn. cbn in Hn.
    by rewrite Fb in Hn.
Qed.

Lemma insert_all_ok p xs :
  pruner_ok p → within_budget p → budget_ok (pr_budget p) →
  ∃ p', insert_all p xs = Ok p' ∧ pruner_ok p' ∧ within_budget p' ∧
    pr_budget p' = pr_budget p ∧ pr_clock p' = pr_clock p + zlen xs ∧ pr_scorer p' = pr_scorer p.
Proof.
  revert p. induction xs as [|[id size] xs IH]; intros p Hok Hw Hb; cbn [insert_all].
  { exists p. change (zlen (@nil (BlockId * Z))) with 0. split_and!; try done. lia. }
  destruct (insert_ok p id size Hok Hw Hb) as (p1 & ev & n & -> & H1 & H2 & H3 & H4 & H5 & _). cbn [obind].
  destruct (IH p1 H1 H2) as (p2 & -> & G1 & G2 & G3 & G4 & G5); [by rewrite H3|].
  exists p2. rewrite G3, G4, G5, H3, H4, H5, zlen_cons. split_and!; try done. lia.
Qed.

Lemma new_within b sc : budget_ok b → within_budget (new_with b sc).
Proof. intros H. unfold within_budget. cbn. destruct b; cbn in *; [done|right; done]. Qed.

Lemma insert_all_snoc p xs id size :
  insert_all p (xs ++ [(id, size)]) =
  let? p' := insert_all p xs in let? '(p'', _) := insert p' id size in Ok p''.
Proof.
  revert p. induction xs as [|[i s] xs IH]; intros p; cbn [insert_all app obind].
  { destruct (insert p id size) as [[? ?]|?|]; done. }
  destruct (insert p i s) as [[? ?]|?|]; cbn [obind]; [apply IH|done..].
Qed.

(** ** The reference: rank the whole log *)

(** Every block of the log with its key: its score and its arrival number. *)
Definition scored (scorer : Z → Z → Z) (xs : list (BlockId * Z)) : list entry :=
  imap (λ i x, ((scorer (Z.of_nat i + 1) x.2, Z.of_nat i + 1), x.1)) xs.

(** The log in ascending order of keys. *)
Definition ranking (scorer : Z → Z → Z) (xs : list (BlockId * Z)) : list entry :=
  foldl (λ l e, bt_insert e.1 e.2 l) [] (scored scorer xs).

Lemma ranking_snoc sc xs id size :
  ranking sc (xs ++ [(id, size)]) =
  bt_insert (sc (zlen xs + 1) size, zlen xs + 1) id (ranking sc xs).
Proof.
  unfold ranking, scored. rewrite imap_app, foldl_app. cbn. unfold zlen. by rewrite Nat.add_0_r.
Qed.

Lemma ranking_spec sc xs :
  sorted (ranking sc xs) ∧ length (ranking sc xs) = length xs ∧
  ∀ e, e ∈ ranking sc xs → e.1.2 ≤ zlen xs.
Proof.
  induction xs as [|[id size] xs (IH1 & IH2 & IH3)] using rev_ind.
  { split_and!; [constructor|done|]. by intros e ?%not_elem_of_nil. }
  rewrite ranking_snoc.
  assert (∀ e, e ∈ ranking sc xs → e.1 ≠ (sc (zlen xs + 1) size, zlen xs + 1)) as Hf.
  { intros [[a b] c] He%IH3 [= _ E]. cbn in He. lia. }
  split_and!.
  - by apply bt_insert_sorted.
  - rewrite (bt_insert_fresh _ _ _ Hf). cbn. by rewrite IH2, length_app, Nat.add_comm.
  - intros e [->|[He _]]%elem_of_bt_insert; [|apply IH3 in He|done]; rewrite zlen_app, zlen_cons; cbn;
      change (zlen []) with 0; lia.
Qed.

(** Inserting above a dropped prefix. *)
Lemma drop_bt_insert n k v l :
  sorted l → (∀ e, e ∈ l → e.1 ≠ k) →
  drop 1 (bt_insert k v (drop n l)) = drop (S n) (bt_insert k v l).
Proof.
  intros Hs. revert n. induction Hs as [|[k' v'] l Hs IH Hf]; intros n Hk; [by destruct n|].
  destruct n as [|n]; [done|]. cbn [drop bt_insert].
  assert (k ≠ k') as Hne by (intros ->; by apply (Hk (k', v')); [left|]).
  destruct (key_ltb_spec k k') as [Hlt|Hge].
  - cbn [drop]. destruct (drop n l) as [|[k2 v2] r] eqn:E; [done|]. cbn [bt_insert].
    assert ((k2, v2) ∈ l) as Hin.
    { rewrite <-(take_drop n l), E. apply elem_of_app. right. by left. }
    apply (proj1 (Forall_elem _ _) Hf) in Hin. unfold elt in Hin. cbn in Hin.
    destruct (key_ltb_spec k k2) as [_|H]; [done|]. exfalso. apply H. by eapply key_lt_trans.
  - rewrite bool_decide_false by done. apply IH. intros e He. apply Hk. by right.
Qed.

(** Where the survivors come from. *)
Lemma index_history budget sc xs p id s :
  budget_ok budget → insert_all (new_with budget sc) xs = Ok p → pr_index p !! id = Some s →
  1 ≤ sl_seq s ∧ xs !! Z.to_nat (sl_seq s - 1) = Some (id, sl_size s).
Proof.
  intros Hb. revert p id s. induction xs as [|[i size] xs IH] using rev_ind; intros p id s.
  { intros [= <-]. cbn. by rewrite lookup_empty. }
  rewrite insert_all_snoc.
  destruct (insert_all_ok (new_with budget sc) xs) as (p1 & Hp1 & O1 & W1 & B1 & C1 & S1);
    [apply new_with_ok|by apply new_within|done|].
  rewrite Hp1. cbn [obind].
  destruct (insert_ok p1 i size O1 W1) as (p2 & ev & n & -> & _ & _ & _ & _ & _ & _ & Hsub & _);
    [by rewrite B1|]. cbn [obind]. intros [= <-] Hs.
  apply (lookup_weaken _ _ _ _ Hs) in Hsub.
  apply lookup_insert_Some in Hsub as [[<- <-]|[Hne Hold]].
  - rewrite C1. cbn. pose proof (zlen_nonneg xs). split; [lia|].
    rewrite lookup_app_r by (unfold zlen; lia). replace (Z.to_nat _ - length xs)%nat with 0%nat by (unfold zlen; lia).
    done.
  - destruct (IH _ _ _ Hp1 Hold) as [H1 H2]. split; [done|]. by rewrite lookup_app_l by (by eapply lookup_lt_Some).
Qed.

Lemma ordered_top_k b sc xs p :
  0 ≤ b → NoDup xs.*1 → insert_all (new_with (Blocks b) sc) xs = Ok p →
  pr_ordered p = drop (length xs - Z.to_nat b) (ranking sc xs).
Proof.
  intros Hb. revert p. induction xs as [|[i size] xs IH] using rev_ind; intros p Hnd.
  { by intros [= <-]. }
  rewrite fmap_app in Hnd. apply list.NoDup_app in Hnd as (Hnd & Hnew & _). rewrite insert_all_snoc.
  destruct (insert_all_ok (new_with (Blocks b) sc) xs) as (p1 & Hp1 & O1 & W1 & B1 & C1 & S1);
    [apply new_with_ok|by apply new_within|done|].
  rewrite Hp1. cbn [obind].
  assert (pr_index p1 !! i = None) as Hi.
  { apply eq_None_not_Some. intros [s Hs]. apply (index_history (Blocks b) sc xs p1) in Hs as [_ Hs]; [|done|done].
    apply (Hnew i); [|by left]. apply list_elem_of_fmap. exists (i, sl_size s). split; [done|].
    by eapply list_elem_of_lookup_2. }
  destruct (insert_ok p1 i size O1 W1) as (p2 & ev & n & -> & _ & _ & _ & _ & _ & Ho & _ & Hn0 & Hn1);
    [by rewrite B1|]. cbn [obind]. intros [= <-].
  assert (forget p1 i = p1) as Hfg by (unfold forget; by rewrite Hi). rewrite Hfg in *.
  specialize (IH p1 Hnd Hp1). destruct (ranking_spec sc xs) as (Rs & Rl & Rf).
  assert (∀ e, e ∈ ranking sc xs → e.1 ≠ (sc (zlen xs + 1) size, zlen xs + 1)) as Hf.
  { intros [[x y] c] He%Rf [= _ E]. cbn in He. lia. }
  assert (pr_ordered (place p1 i size)
    = bt_insert (sc (zlen xs + 1) size, zlen xs + 1) i (drop (length xs - Z.to_nat b) (ranking sc xs))) as Hpl.
  { unfold place. cbn. by rewrite S1, C1, IH. }
  rewrite Ho, ranking_snoc, length_app. cbn [length].
  assert (zlen (pr_ordered (place p1 i size)) = zlen (pr_ordered p1) + 1) as Hzl.
  { pose proof (place_fresh p1 i size O1) as Hp. rewrite Hfg in Hp. unfold zlen. rewrite Hp. cbn. lia. }
  assert (zlen (pr_ordered p1) = Z.min (zlen xs) b) as Hzp.
  { unfold zlen. rewrite IH, length_drop, Rl. lia. }
  unfold over_budget in Hn0, Hn1. change (pr_budget (place p1 i size)) with (pr_budget p1) in *.
  rewrite B1 in Hn0, Hn1. cbn [new_with pr_budget] in Hn0, Hn1.
  destruct (Z.ltb_spec b (zlen (pr_ordered (place p1 i size)))) as [Hlt|Hge].
  - rewrite Hn1 by done. rewrite Hpl. unfold zlen in *.
    replace (length xs + 1 - Z.to_nat b)%nat with (S (length xs - Z.to_nat b)) by lia.
    by apply drop_bt_insert.
  - rewrite Hn0 by done. rewrite Hpl. unfold zlen in *.
    replace (length xs - Z.to_nat b)%nat with 0%nat by lia.
    by replace (length xs + 1 - Z.to_nat b)%nat with 0%nat by lia.
Qed.

(** ** Log order *)

Definition by_seq (a b : BlockId * Z) : Prop := a.2 ≤ b.2.

Lemma seq_insert_perm x l : seq_insert x l ≡ₚ x :: l.
Proof.
  induction l as [|y l IH]; cbn; [done|]. destruct (_ <=? _); [done|]. rewrite IH. apply Permutation_swap.
Qed.

Lemma seq_sort_spec l :
  foldr seq_insert [] l ≡ₚ l ∧ StronglySorted by_seq (foldr seq_insert [] l).
Proof.
  induction l as [|x l [IH1 IH2]]; cbn; [split; [done|constructor]|].
  split; [by rewrite seq_insert_perm, IH1|]. clear IH1. induction IH2 as [|y l' Hs IH Hf]; cbn.
  { repeat constructor. }
  destruct (Z.leb_spec x.2 y.2) as [Hle|Hgt].
  - constructor; [by constructor|]. constructor; [done|]. eapply Forall_impl; [|exact Hf].
    intros z Hz. unfold by_seq in *. lia.
  - constructor; [done|]. apply Forall_elem. intros z Hz. rewrite seq_insert_perm in Hz.
    apply elem_of_cons in Hz as [->|Hz]; [unfold by_seq; lia|]. by apply (proj1 (Forall_elem _ _) Hf).
Qed.

(** The log with its arrival numbers, restricted to [ids]. *)
Definition numbered (xs : list (BlockId * Z)) : list (BlockId * Z) :=
  imap (λ i x, (x.1, Z.of_nat i + 1)) xs.

Lemma numbered_snoc xs x : numbered (xs ++ [x]) = numbered xs ++ [(x.1, zlen xs + 1)].
Proof. unfold numbered. rewrite imap_app. cbn. unfold zlen. by rewrite Nat.add_0_r. Qed.

Lemma elem_of_numbered xs id n :
  (id, n) ∈ numbered xs ↔ 1 ≤ n ∧ ∃ size, xs !! Z.to_nat (n - 1) = Some (id, size).
Proof.
  unfold numbered. rewrite list_elem_of_lookup. split.
  - intros [i Hi]. rewrite list_lookup_imap in Hi. destruct (xs !! i) as [[a s]|] eqn:E; [|done].
    injection Hi as <- <-. split; [lia|]. exists s. by replace (Z.to_nat _) with i by lia.
  - intros (Hn & size & Hs). exists (Z.to_nat (n - 1)). rewrite list_lookup_imap, Hs. cbn. f_equal. f_equal. lia.
Qed.

Lemma numbered_ids xs : (numbered xs).*1 = xs.*1.
Proof.
  induction xs as [|x xs IH] using rev_ind; [done|]. by rewrite numbered_snoc, !fmap_app, IH.
Qed.

Lemma filter_numbered (P : BlockId → Prop) `{∀ i, Decision (P i)} xs :
  (filter (λ e, P e.1) (numbered xs)).*1 = filter P (xs.*1).
Proof.
  rewrite <-(numbered_ids xs). induction (numbered xs) as [|e l IH]; [done|].
  rewrite fmap_cons, !filter_cons. destruct (decide (P e.1)); by rewrite ?fmap_cons, IH.
Qed.

Lemma numbered_sorted (P : BlockId → Prop) `{∀ i, Decision (P i)} xs :
  StronglySorted by_seq (filter (λ e, P e.1) (numbered xs)) ∧
  NoDup (filter (λ e, P e.1) (numbered xs)).
Proof.
  induction xs as [|x xs [IH1 IH2]] using rev_ind; [split; [constructor|apply base.NoDup_nil_2]|].
  assert (∀ e, e ∈ filter (λ e, P e.1) (numbered xs) → e.2 ≤ zlen xs) as Hle.
  { intros [id n] [_ He]%list_elem_of_filter. apply elem_of_numbered in He as (Hn & s & Hs).
    apply lookup_lt_Some in Hs. unfold zlen. cbn. lia. }
  rewrite numbered_snoc, list.filter_app, filter_cons, filter_nil.
  case_decide; [|by rewrite app_nil_r].
  split.
  - clear IH2. induction IH1 as [|e l Hs IH Hf]; cbn; [repeat constructor|].
    constructor; [apply IH; intros e' He'; apply Hle; by right|]. apply Forall_app. split; [done|].
    repeat constructor. unfold by_seq. cbn. pose proof (Hle e ltac:(by left)). lia.
  - apply list.NoDup_app. split_and!; [done| |apply list.NoDup_singleton].
    intros e He ->%list_elem_of_singleton. apply Hle in He. cbn in He. lia.
Qed.

(** ** Theorems *)

(** The pruner's bookkeeping: any sequence of insertions, with any scoring
    function and budget, runs without panicking; the B-tree and the hash index
    then hold the same survivors, the running total is the sum of their sizes,
    and the budget is met (a token budget may be exceeded by a single
    survivor only). *)
Theorem pruner_invariant budget sc xs :
  budget_ok budget →
  ∃ p, insert_all (new_with budget sc) xs = Ok p ∧ pruner_ok p ∧
    match budget with
    | Blocks b => len p ≤ b
    | Tokens b => total_size p ≤ b ∨ len p ≤ 1
    end.
Proof.
  intros Hb. destruct (insert_all_ok (new_with budget sc) xs) as (p & Hp & H1 & H2 & H3 & _);
    [apply new_with_ok|by apply new_within|done|].
  exists p. split_and!; [done|done|]. unfold within_budget in H2. rewrite H3 in H2. exact H2.
Qed.

(** The incremental window is the window a full re-scan would give: after any
    log of distinct blocks, the survivors of a block budget [b] are the [b]
    best of the whole log, best first, under the scoring function (later
    arrivals winning ties). *)
Theorem top_k_window b sc xs p :
  0 ≤ b → NoDup xs.*1 → insert_all (new_with (Blocks b) sc) xs = Ok p →
  window p = take (Z.to_nat b) (reverse (ranking sc xs).*2).
Proof.
  intros Hb Hnd Hp. unfold window. rewrite (ordered_top_k b sc xs p Hb Hnd Hp), fmap_drop.
  destruct (ranking_spec sc xs) as (_ & Hl & _).
  set (r := (ranking sc xs).*2).
  assert (length r = length xs) as Hr by (unfold r; by rewrite length_fmap).
  rewrite <-(take_drop (length xs - Z.to_nat b) r) at 2. rewrite reverse_app.
  destruct (decide (Z.to_nat b ≤ length xs)%nat) as [Hle|Hgt].
  - rewrite take_app_length'; [done|]. rewrite length_reverse, length_drop. lia.
  - replace (length xs - Z.to_nat b)%nat with 0%nat by lia. rewrite take_0, drop_0, reverse_nil, app_nil_r.
    rewrite take_ge; [done|]. rewrite length_reverse. lia.
Qed.

(** For a log of distinct blocks and any budget and score, [window_ordered] is
    the log restricted to the survivors. *)
Lemma window_ordered_filter budget sc xs p :
  budget_ok budget → NoDup xs.*1 → insert_all (new_with budget sc) xs = Ok p →
  window_ordered p = filter (λ id, id ∈ window p) xs.*1.
Proof.
  intros Hb Hnd Hp.
  destruct (insert_all_ok (new_with budget sc) xs) as (p' & Hp' & Hok & _);
    [apply new_with_ok|by apply new_within|done|].
  rewrite Hp in Hp'. injection Hp' as <-.
  rewrite <-(filter_numbered (λ id, id ∈ window p)). unfold window_ordered. f_equal.
  set (l := (λ e : BlockId * Slot, (e.1, sl_seq e.2)) <$> map_to_list (pr_index p)).
  destruct (seq_sort_spec l) as [Hperm Hsorted].
  destruct (numbered_sorted (λ id, id ∈ window p) xs) as [Hs2 Hnd2].
  assert (∀ id n, (id, n) ∈ l ↔ ∃ s, pr_index p !! id = Some s ∧ n = sl_seq s) as Hl.
  { intros id n. unfold l. rewrite list_elem_of_fmap. split.
    - intros ([a s] & [= -> ->] & Ha%elem_of_map_to_list). by exists s.
    - intros (s & Hs & ->). exists (id, s). split; [done|]. by apply elem_of_map_to_list. }
  assert (∀ id, id ∈ window p ↔ is_Some (pr_index p !! id)) as Hw.
  { intros id. unfold window. rewrite elem_of_reverse, list_elem_of_fmap. split.
    - intros ([k a] & -> & Ha). apply (po_index _ Hok) in Ha as (s & Hs & _). by exists s.
    - intros [s Hs]. exists (slot_key s, id). split; [done|]. apply (po_index _ Hok). by exists s. }
  apply (StronglySorted_unique_strong by_seq); [|done|done|].
  - intros [a n] [a' n'] Ha Ha' H1 H2. unfold by_seq in *. cbn in *. assert (n = n') as -> by lia. f_equal.
    rewrite Hperm in Ha. apply Hl in Ha as (s & Hs & ->).
    apply list_elem_of_filter in Ha' as [_ Ha']. apply elem_of_numbered in Ha' as (_ & z & Hz).
    destruct (index_history _ _ _ _ _ _ Hb Hp Hs) as [_ Hx]. rewrite Hx in Hz. by injection Hz.
  - rewrite Hperm. apply list.NoDup_Permutation; [|done|].
    + unfold l. apply (NoDup_fmap_1 fst). rewrite <-list_fmap_compose.
      apply (NoDup_fst_map_to_list (pr_index p)).
    + intros [id n]. rewrite Hl, list_elem_of_filter, elem_of_numbered. cbn. split.
      * intros (s & Hs & ->). destruct (index_history _ _ _ _ _ _ Hb Hp Hs) as [H1 H2].
        split; [apply Hw; by exists s|]. split; [done|]. by exists (sl_size s).
      * intros (Hin & Hn & z & Hz). apply Hw in Hin as [s Hs]. exists s. split; [done|].
        destruct (index_history _ _ _ _ _ _ Hb Hp Hs) as [H1 H2].
        assert (Z.to_nat (n - 1) = Z.to_nat (sl_seq s - 1)) as E; [|lia].
        apply (list.NoDup_lookup xs.*1 _ _ id); [done|..]; rewrite list_lookup_fmap;
          [by rewrite Hz|by rewrite H2].
Qed.

(** ** Witnesses *)
Module PrunerWitness.
Definition id (n : Z) : BlockId := to_le 32 n.
Definition log : list (BlockId * Z) := [(id 1, 10); (id 2, 50); (id 3, 30); (id 4, 20)].
(** Score by size alone. *)
Definition by_size (seq size : Z) : Z := size.

Lemma pruner_invariant_witness :
  ∃ p, insert_all (new_with (Tokens 90) by_size) log = Ok p ∧ pruner_ok p ∧
    (total_size p ≤ 90 ∨ len p ≤ 1).
Proof. apply (pruner_invariant (Tokens 90) by_size log). cbn. lia. Defined.

Definition kept : IncrementalPruner :=
  match insert_all (new_with (Blocks 2) by_size) log with Ok p => p | _ => new_with (Blocks 2) by_size end.

Lemma log_distinct : NoDup log.*1.
Proof. apply (bool_decide_unpack _). vm_compute. exact I. Qed.

Lemma kept_eq : insert_all (new_with (Blocks 2) by_size) log = Ok kept.
Proof.
  unfold kept. destruct (insert_all_ok (new_with (Blocks 2) by_size) log) as (p & -> & _);
    [apply new_with_ok|apply new_within; cbn; lia|cbn; lia|done].
Qed.

Lemma top_k_window_witness : window kept = [id 2; id 3].
Proof.
  rewrite (top_k_window 2 by_size log kept ltac:(lia) log_distinct kept_eq). vm_compute. reflexivity.
Defined.
End PrunerWitness.
