(* ===== verification/Prune.v ===== *)
(** * Prune: the retention policies and schedulers of [prune/src/lib.rs]

    [ImportancePolicy] scores every block in [f32] and fills a token budget
    greedily; the schedulers run a policy on logs the receiver reconstructs, or
    keep an incremental pruner per session.  The thread pools the schedulers
    use keep the order of their inputs. *)

From stdpp Require Import sorting.
From S2P Require Import Prelude Interfaces F64 Block Merkle Frame Store Compress FountainSig.
From S2P Require Import Receiver Pruner.

Record PruneWindow : Type := mkWindow {
  w_session_id : Z;
  w_blocks : list Block;
  w_approx_tokens : Z
}.

(** [trait PrunePolicy]. *)
Class PrunePolicy := prune : Z → list Block → Z → outcome string PruneWindow.

(** ** The importance policy *)

Record ImportancePolicy : Type := mkPolicy {
  recency_decay : f32;
  tool_result_weight : f32;
  system_weight : f32
}.

Definition ImportancePolicy_default : ImportancePolicy :=
  mkPolicy (f32_lit 15 10) (f32_lit 13 10) (f32_lit 2 1).

Definition approx_tokens (b : Block) : Z := Z.max (zlen (payload b) / 4) 1.

Definition is_system (b : Block) : bool :=
  match kind b with System | Summary => true | _ => false end.

Section Importance.
Context `{PW : Powf} (pol : ImportancePolicy).

Definition score (n : nat) (i : nat) (b : Block) : f32 :=
  let base :=
    match kind b with
    | System | Summary => f32_infinity
    | ToolResult => tool_result_weight pol
    | _ => f32_of_usize 1
    end in
  let recency := f32_powf (f32_div (f32_of_usize (Z.of_nat (n - i))) (f32_of_usize (Z.of_nat (Nat.max n 1))))
                   (recency_decay pol) in
  let length_factor :=
    f32_add (f32_of_usize 1)
      (f32_min (f32_div (f32_of_usize (zlen (payload b))) (f32_of_usize 4096)) (f32_of_usize 2)) in
  f32_mul (f32_mul base recency) length_factor.

(** The comparison of the sort: score descending, then index ascending. *)
Definition before (a b : nat * f32) : bool :=
  match default Eq (f32_partial_cmp b.2 a.2) with
  | Lt => true
  | Gt => false
  | Eq => (a.1 <=? b.1)%nat
  end.

Fixpoint insert_by {A} (le : A → A → bool) (x : A) (l : list A) : list A :=
  match l with
  | [] => [x]
  | y :: l' => if le x y then x :: l else y :: insert_by le x l'
  end.
Definition sort_by {A} (le : A → A → bool) (l : list A) : list A := foldr (insert_by le) [] l.

(** The greedy fill.  [log[idx]] is in range: the indices come from the log. *)
Fixpoint fill (log : list Block) (budget_tokens : Z) (scored : list (nat * f32))
    (kept : list nat) (tokens : Z) : outcome string (list nat * Z) :=
  match scored with
  | [] => Ok (kept, tokens)
  | (idx, _) :: scored' =>
      let? b := index log (Z.of_nat idx) in
      let t := approx_tokens b in
      if (budget_tokens <? tokens + t) && negb (bool_decide (kept = [])) && negb (is_system b)
      then fill log budget_tokens scored' kept tokens
      else
        let tokens := tokens + t in
        let kept := kept ++ [idx] in
        if budget_tokens <=? tokens then Ok (kept, tokens)
        else fill log budget_tokens scored' kept tokens
  end.

Fixpoint pick (log : list Block) (idxs : list nat) : outcome string (list Block) :=
  match idxs with
  | [] => Ok []
  | i :: idxs' =>
      let? b := index log (Z.of_nat i) in
      let? bs := pick log idxs' in
      Ok (b :: bs)
  end.

Definition importance_prune (session_id : Z) (log : list Block) (budget_tokens : Z)
    : outcome string PruneWindow :=
  let n := length log in
  if (n =? 0)%nat then Ok (mkWindow session_id [] 0)
  else
    let scored := imap (λ i b, (i, score n i b)) log in
    let scored := sort_by before scored in
    let? '(kept, tokens) := fill log budget_tokens scored [] 0 in
    let kept := sort_by Nat.leb kept in
    let? blocks := pick log kept in
    Ok (mkWindow session_id blocks tokens).
End Importance.

(** ** Lemmas *)

Definition tokens_of (bs : list Block) : Z := foldr (λ b acc, approx_tokens b + acc) 0 bs.

Lemma tokens_of_perm bs cs : bs ≡ₚ cs → tokens_of bs = tokens_of cs.
Proof. unfold tokens_of. induction 1; simpl; lia. Qed.

Lemma tokens_of_app bs cs : tokens_of (bs ++ cs) = tokens_of bs + tokens_of cs.
Proof. unfold tokens_of. induction bs as [|b bs IH]; simpl; [done|]. rewrite IH. lia. Qed.

Lemma insert_by_perm {A} (le : A → A → bool) x l : insert_by le x l ≡ₚ x :: l.
Proof.
  induction l as [|y l IH]; cbn; [done|]. destruct (le x y); [done|]. rewrite IH. apply Permutation_swap.
Qed.

Lemma sort_by_perm {A} (le : A → A → bool) (l : list A) : sort_by le l ≡ₚ l.
Proof. induction l as [|x l IH]; cbn; [done|]. by rewrite insert_by_perm, IH. Qed.

Lemma sort_nat_sorted l : StronglySorted (≤)%nat (sort_by Nat.leb l).
Proof.
  induction l as [|x l IH]; cbn; [constructor|]. fold (sort_by Nat.leb l).
  induction IH as [|y l' Hs IH Hf]; cbn; [repeat constructor|].
  destruct (Nat.leb_spec x y) as [Hle|Hgt].
  - constructor; [by constructor|]. constructor; [done|]. eapply Forall_impl; [|exact Hf]. cbn. lia.
  - constructor; [done|]. apply Forall_elem. intros z Hz. rewrite insert_by_perm in Hz.
    apply elem_of_cons in Hz as [->|Hz]; [lia|]. by apply (proj1 (Forall_elem _ _) Hf).
Qed.

(** Blocks at ascending positions form a sublist of the log. *)
Lemma pick_ok log idxs :
  Forall (λ i, (i < length log)%nat) idxs →
  ∃ bs, pick log idxs = Ok bs ∧ Forall2 (λ i b, log !! i = Some b) idxs bs.
Proof.
  induction 1 as [|i idxs Hi _ (bs & IH1 & IH2)]; [by exists []|]. cbn [pick].
  destruct (lookup_lt_is_Some_2 log i Hi) as [b Hb].
  unfold index. rewrite Nat2Z.id, Hb. cbn [obind]. rewrite IH1. cbn [obind].
  exists (b :: bs). split; [done|by constructor].
Qed.

Lemma pick_sublist (log : list Block) idxs bs off :
  StronglySorted (≤)%nat idxs → NoDup idxs → Forall (λ i, (off ≤ i)%nat) idxs →
  Forall2 (λ i b, log !! (i - off)%nat = Some b) idxs bs → bs `sublist_of` log.
Proof.
  revert off idxs bs. induction log as [|x log IH]; intros off idxs bs Hs Hnd Hoff H2.
  { destruct H2 as [|i b idxs bs Hi _]; [constructor|]. by rewrite lookup_nil in Hi. }
  destruct H2 as [|i b idxs bs Hi H2]; [apply sublist_nil_l|].
  apply list.NoDup_cons in Hnd as [Hni Hnd]. inversion Hs as [|? ? Hs' Hf]; subst.
  inversion Hoff as [|? ? Hoi Hoff']; subst.
  assert (Forall2 (λ j c, log !! (j - S off)%nat = Some c) idxs bs) as H2'.
  { apply Forall2_same_length_lookup. split; [by eapply Forall2_length|].
    intros n j c Hj Hc. pose proof (Forall2_lookup_lr _ _ _ _ _ _ H2 Hj Hc) as Hjc. cbn in Hjc.
    apply list_elem_of_lookup_2 in Hj.
    assert (i ≤ j)%nat by (by apply (proj1 (Forall_elem _ _) Hf)). assert (i ≠ j) by (by intros ->).
    by replace (j - off)%nat with (S (j - S off)) in Hjc by lia. }
  destruct (decide (i = off)) as [->|Hne].
  - rewrite Nat.sub_diag in Hi. injection Hi as ->. constructor.
    apply (IH (S off) idxs bs Hs' Hnd); [|done]. apply Forall_elem. intros j Hj.
    assert (off ≤ j)%nat by (by apply (proj1 (Forall_elem _ _) Hf)). assert (off ≠ j) by (by intros ->). lia.
  - constructor. apply (IH (S off) (i :: idxs) (b :: bs)); [done|by apply list.NoDup_cons| |].
    + constructor; [lia|]. apply Forall_elem. intros j Hj.
      assert (i ≤ j)%nat by (by apply (proj1 (Forall_elem _ _) Hf)). lia.
    + constructor; [|done]. replace (i - off)%nat with (S (i - S off)) in Hi by lia. done.
Qed.

Definition blocks_at (log : list Block) (idxs : list nat) : list Block := omap (λ i, log !! i) idxs.

Lemma blocks_at_perm log xs ys : xs ≡ₚ ys → blocks_at log xs ≡ₚ blocks_at log ys.
Proof.
  unfold blocks_at. induction 1 as [|i xs ys _ IH|i j xs|xs ys zs _ IH1 _ IH2]; cbn; [done| | |by rewrite IH1].
  - destruct (log !! i); [by rewrite IH|done].
  - destruct (log !! i), (log !! j); try done. apply Permutation_swap.
Qed.

Lemma picked_at log idxs bs : Forall2 (λ i b, log !! i = Some b) idxs bs → bs = blocks_at log idxs.
Proof. unfold blocks_at. induction 1 as [|i b idxs bs Hi _ IH]; cbn; [done|]. rewrite Hi. by f_equal. Qed.

(** What the greedy fill keeps. *)
Lemma fill_spec log budget scored kept tokens :
  Forall (λ i, (i < length log)%nat) scored.*1 → NoDup (kept ++ scored.*1) →
  Forall (λ b, is_system b = false) log → kept = [] ∨ tokens < budget →
  (kept = [] → tokens = 0) → scored ≠ [] ∨ kept ≠ [] →
  ∃ sel, let kept' := kept ++ sel in
    fill log budget scored kept tokens = Ok (kept', tokens + tokens_of (blocks_at log sel)) ∧
    NoDup kept' ∧ Forall (λ i, (i < length log)%nat) sel ∧ kept' ≠ [] ∧
    (tokens + tokens_of (blocks_at log sel) ≤ budget ∨ length kept' = 1%nat).
Proof.
  intros Hr Hnd Hsys Hinv H0 Hne. revert kept tokens Hr Hnd Hinv H0 Hne.
  induction scored as [|[i sc] scored IH]; intros kept tokens Hr Hnd Hinv H0 Hne; cbn [fill].
  { exists []. cbn. rewrite app_nil_r in *. rewrite Z.add_0_r. split_and!; [done..|by destruct Hne|].
    destruct Hinv as [->|]; [by destruct Hne|left; lia]. }
  cbn in Hr, Hnd. apply Forall_cons_iff in Hr as [Hi Hr].
  destruct (lookup_lt_is_Some_2 log i Hi) as [b Hb].
  unfold index. rewrite Nat2Z.id, Hb. cbn [obind].
  assert (is_system b = false) as Hb' by (apply (Forall_lookup_1 _ _ _ _ Hsys Hb)). rewrite Hb', andb_true_r.
  assert (1 ≤ approx_tokens b) as Ht by (unfold approx_tokens; lia).
  destruct ((budget <? tokens + approx_tokens b) && negb (bool_decide (kept = []))) eqn:Hskip.
  { apply andb_true_iff in Hskip as [_ Hk%negb_true_iff%bool_decide_eq_false].
    apply (IH kept tokens); [done| |done|done|by right].
    eapply sublist_NoDup; [exact Hnd|]. apply sublist_app; [done|]. by constructor. }
  set (kept1 := kept ++ [i]).
  assert (NoDup (kept1 ++ scored.*1)) as Hnd1 by (unfold kept1; by rewrite <-app_assoc).
  assert (tokens + approx_tokens b ≤ budget ∨ kept = []) as Hadd.
  { apply andb_false_iff in Hskip as [H%Z.ltb_ge|H%negb_false_iff%bool_decide_eq_true]; [by left|by right]. }
  assert (blocks_at log [i] = [b]) as Hbi by (unfold blocks_at; cbn; by rewrite Hb).
  destruct (Z.leb_spec budget (tokens + approx_tokens b)) as [Hfull|Hroom].
  - exists [i]. cbn zeta. fold kept1. rewrite Hbi. cbn. rewrite Z.add_0_r. split_and!; [done| | | |].
    + apply list.NoDup_app in Hnd1. apply Hnd1.
    + by constructor.
    + unfold kept1. by intros []%app_nil.
    + destruct Hadd as [?| ->]; [left; lia|by right].
  - destruct (IH kept1 (tokens + approx_tokens b)) as (sel & Hf & H1 & H2 & H3 & H4); [done|done|by right| |right|].
    { unfold kept1. by intros []%app_nil. }
    { unfold kept1. by intros []%app_nil. }
    assert (blocks_at log (i :: sel) = b :: blocks_at log sel) as Hbs by (unfold blocks_at; cbn; by rewrite Hb).
    exists (i :: sel). cbn zeta in *. rewrite Hbs. change (tokens_of (b :: blocks_at log sel))
      with (approx_tokens b + tokens_of (blocks_at log sel)). rewrite Z.add_assoc.
    fold kept1. replace (kept ++ i :: sel) with (kept1 ++ sel) by (unfold kept1; by rewrite <-app_assoc).
    split_and!; [done|done|by constructor|done|done].
Qed.

(** ** Theorem: the importance policy *)

(** On a log without system or summary blocks the window is a sublist of the
    log in log order, never empty unless the log is, its token count is the sum
    over its blocks, and it is within the budget unless it is a single block;
    whatever the weights and the power function. *)
Theorem importance_window `{PW : Powf} pol sid log budget :
  Forall (λ b, is_system b = false) log →
  ∃ w, importance_prune pol sid log budget = Ok w ∧ w_session_id w = sid ∧
    w_blocks w `sublist_of` log ∧ w_approx_tokens w = tokens_of (w_blocks w) ∧
    (log ≠ [] → w_blocks w ≠ []) ∧
    (w_approx_tokens w ≤ budget ∨ (length (w_blocks w) ≤ 1)%nat).
Proof.
  intros Hsys. unfold importance_prune. destruct (Nat.eqb_spec (length log) 0) as [H0|H0].
  { apply nil_length_inv in H0 as ->. eexists. split; [done|]. cbn. split_and!; [done|constructor|done|done|right; lia]. }
  set (sc := imap _ log). set (srt := sort_by before sc).
  assert (srt.*1 ≡ₚ List.seq 0 (length log)) as Hperm.
  { unfold srt. rewrite (sort_by_perm before sc). unfold sc.
    assert (∀ (f : nat → Block → f32) (l : list Block) o,
      (imap (λ i b, ((o + i)%nat, f i b)) l).*1 = List.seq o (length l)) as Hi.
    { clear. intros f l. revert f. induction l as [|b l IH]; intros f o; [done|]. cbn. rewrite Nat.add_0_r. f_equal.
      rewrite <-(IH (λ i b, f (S i) b) (S o)). f_equal. apply imap_ext. intros i x _. cbn. f_equal. lia. }
    by rewrite (Hi (λ i b, score pol (length log) i b) log 0%nat). }
  destruct (fill_spec log budget srt [] 0) as (sel & -> & Hnd & Hr & Hne & Hb).
  - rewrite Hperm. apply Forall_elem. intros i Hi%elem_of_seq. lia.
  - cbn. rewrite Hperm. apply NoDup_seq.
  - done.
  - by left.
  - done.
  - left. intros E. rewrite E in Hperm. cbn in Hperm. apply Permutation_nil in Hperm.
    apply (f_equal length) in Hperm. rewrite length_seq in Hperm. done.
  - cbn [obind app] in *. pose proof (sort_by_perm Nat.leb sel) as Hsp.
    destruct (pick_ok log (sort_by Nat.leb sel)) as (bs & -> & Hbs); [by rewrite Hsp|]. cbn [obind].
    eexists. split; [done|]. cbn. pose proof (picked_at _ _ _ Hbs) as Hat.
    assert (length bs = length sel) as Hl.
    { transitivity (length (sort_by Nat.leb sel)); [symmetry; by eapply Forall2_length|by rewrite Hsp]. }
    split_and!; [done| | | |].
    + apply (pick_sublist log (sort_by Nat.leb sel) bs 0); [apply sort_nat_sorted|by rewrite Hsp| |].
      * apply Forall_elem. intros; lia.
      * eapply Forall2_impl; [|exact Hbs]. intros i b. by rewrite Nat.sub_0_r.
    + rewrite Hat. symmetry. apply tokens_of_perm, blocks_at_perm, Hsp.
    + intros _ ->. by destruct sel.
    + rewrite Hl. destruct Hb; [left; lia|right; lia].
Qed.
