(* ===== verification/PruneSched.v ===== *)
(** * PruneSched: the prune schedulers of [prune/src/lib.rs]

    The schedulers share the receiver with the transport ([Arc<Receiver>]): its
    state is an argument of every operation that reads it, so that appends may
    happen between scheduling and running.  The thread pool's parallel map
    keeps the order of its input. *)

From stdpp Require Import sorting.
From S2P Require Import Prelude Interfaces F64 Block Merkle Frame Store Compress FountainSig.
From S2P Require Import Receiver Pruner Prune.

(** ** Job queues *)

Record PruneJob : Type := mkJob { j_session_id : Z; j_budget_tokens : Z }.

(** [PruneScheduler]: the pending jobs, oldest first. *)
Record PruneScheduler : Type := mkSched { ps_pending : list PruneJob }.
Definition PruneScheduler_new : PruneScheduler := mkSched [].

Definition schedule (s : PruneScheduler) (session_id budget_tokens : Z) : PruneScheduler :=
  mkSched (ps_pending s ++ [mkJob session_id budget_tokens]).

Definition pending_count (s : PruneScheduler) : Z := zlen (ps_pending s).

Section Run.
Context `{P : PrunePolicy} {B3 : Blake3} {FC : FountainCode}.

(** The body of the worker: reconstruct the log as it is now, then prune. *)
Definition run_job (r : Receiver) (j : PruneJob) : outcome string PruneWindow :=
  prune (j_session_id j) (Receiver_reconstruct r (j_session_id j)) (j_budget_tokens j).

Fixpoint collect {A B} (f : A → outcome string B) (l : list A) : outcome string (list B) :=
  match l with
  | [] => Ok []
  | x :: l' => let? y := f x in let? ys := collect f l' in Ok (y :: ys)
  end.

(** [Vec::pop] takes the last element. *)
Definition run_one (s : PruneScheduler) (r : Receiver)
    : outcome string (PruneScheduler * option PruneWindow) :=
  match reverse (ps_pending s) with
  | [] => Ok (s, None)
  | job :: rest =>
      let? w := run_job r job in
      Ok (mkSched (reverse rest), Some w)
  end.

Definition run_all (s : PruneScheduler) (r : Receiver)
    : outcome string (PruneScheduler * list PruneWindow) :=
  let? ws := collect (run_job r) (ps_pending s) in
  Ok (mkSched [], ws).

(** [PriorityPruneScheduler]: a max-heap on the sequence number. *)
Record PriorityPruneScheduler : Type := mkPrio { pp_pending : list (Z * PruneJob); pp_seq : Z }.
Definition PriorityPruneScheduler_new : PriorityPruneScheduler := mkPrio [] 0.

Definition pp_schedule (s : PriorityPruneScheduler) (session_id budget_tokens : Z)
    : PriorityPruneScheduler :=
  let seq := pp_seq s + 1 in
  mkPrio ((seq, mkJob session_id budget_tokens) :: pp_pending s) seq.

(** [BinaryHeap::pop]: a greatest element. *)
Fixpoint heap_pop (h : list (Z * PruneJob)) : option ((Z * PruneJob) * list (Z * PruneJob)) :=
  match h with
  | [] => None
  | x :: h' =>
      match heap_pop h' with
      | None => Some (x, [])
      | Some (y, rest) => if y.1 <=? x.1 then Some (x, y :: rest) else Some (y, x :: rest)
      end
  end.

Fixpoint heap_drain (fuel : nat) (h : list (Z * PruneJob)) : list (Z * PruneJob) :=
  match fuel with
  | O => []
  | S fuel' =>
      match heap_pop h with
      | None => []
      | Some (j, rest) => j :: heap_drain fuel' rest
      end
  end.

Definition pp_run_all (s : PriorityPruneScheduler) (r : Receiver)
    : outcome string (PriorityPruneScheduler * list PruneWindow) :=
  let jobs := heap_drain (length (pp_pending s)) (pp_pending s) in
  let? ws := collect (λ j, run_job r j.2) jobs in
  Ok (mkPrio [] (pp_seq s), ws).

Definition pp_pending_count (s : PriorityPruneScheduler) : Z := zlen (pp_pending s).
End Run.

(** ** The incremental scheduler *)

Record IncrementalPruneScheduler : Type := mkIncr {
  token_budget : Z;
  pruners : gmap Z IncrementalPruner
}.

Definition IncrementalPruneScheduler_new (budget : Z) : IncrementalPruneScheduler := mkIncr budget ∅.

Section Incremental.
Context `{B3 : Blake3} {FC : FountainCode}.

(** The size the cold ingest gives an id: its payload length, 0 when absent. *)
Definition stored_size (s : ContentStore) (id : BlockId) : Z :=
  default 0 ((λ b, zlen (payload b)) <$> get s id).

Definition ingest_session (s : IncrementalPruneScheduler) (r : Receiver) (session_id : Z)
    : outcome string IncrementalPruneScheduler :=
  let store := r_store r in
  let ids := session_ids store session_id in
  let? p := insert_all (new_token_budget (token_budget s)) ((λ id, (id, stored_size store id)) <$> ids) in
  Ok (mkIncr (token_budget s) (<[session_id := p]> (pruners s))).

Definition ingest_block (s : IncrementalPruneScheduler) (session_id : Z) (id : BlockId) (size : Z)
    : outcome string IncrementalPruneScheduler :=
  let p := default (new_token_budget (token_budget s)) (pruners s !! session_id) in
  let? '(p, _) := Pruner.insert p id size in
  Ok (mkIncr (token_budget s) (<[session_id := p]> (pruners s))).

Definition incremental_window (s : IncrementalPruneScheduler) (r : Receiver) (session_id : Z)
    : option PruneWindow :=
  match pruners s !! session_id with
  | None => None
  | Some p =>
      let ids := window_ordered p in
      let blocks := omap (get (r_store r)) ids in
      Some (mkWindow session_id blocks (tokens_of blocks))
  end.

Definition session_count (s : IncrementalPruneScheduler) : Z := Z.of_nat (size (pruners s)).
End Incremental.

(** ** What the default score keeps: a suffix of the log *)

Definition total (xs : list (BlockId * Z)) : Z := foldr (λ x acc, x.2 + acc) 0 xs.

(** The longest suffix within the budget, and at least the last entry. *)
Fixpoint recent (b : Z) (xs : list (BlockId * Z)) : list (BlockId * Z) :=
  match xs with
  | [] => []
  | x :: xs' => if (b <? total xs) && (1 <? zlen xs) then recent b xs' else xs
  end.

Definition nonneg_sizes (xs : list (BlockId * Z)) : Prop := Forall (λ x, 0 ≤ x.2) xs.

Lemma total_app xs ys : total (xs ++ ys) = total xs + total ys.
Proof. unfold total. induction xs as [|x xs IH]; cbn; [done|]. rewrite IH. lia. Qed.

Lemma recent_suffix b xs : recent b xs `suffix_of` xs.
Proof.
  induction xs as [|x xs IH]; [done|]. cbn [recent]. case_match; [|done]. by apply suffix_cons_r.
Qed.

(** Feeding the log in pieces keeps the same suffix. *)
Lemma recent_app b xs zs : nonneg_sizes zs → recent b (recent b xs ++ zs) = recent b (xs ++ zs).
Proof.
  intros Hz. assert (0 ≤ total zs) as Ht.
  { clear -Hz. induction Hz as [|z zs H _ IH]; [done|]. unfold total in *. cbn. lia. }
  induction xs as [|y xs IH]; [done|]. cbn [recent app].
  destruct ((b <? total (y :: xs)) && (1 <? zlen (y :: xs))) eqn:Hc; [|done].
  apply andb_true_iff in Hc as [H1%Z.ltb_lt H2%Z.ltb_lt].
  rewrite IH. change (y :: xs ++ zs) with ((y :: xs) ++ zs). rewrite total_app, zlen_app.
  pose proof (zlen_nonneg zs).
  by destruct (Z.ltb_spec b (total (y :: xs) + total zs)), (Z.ltb_spec 1 (zlen (y :: xs) + zlen zs)); try lia.
Qed.

Lemma recent_idem b xs : recent b (recent b xs) = recent b xs.
Proof. pose proof (recent_app b xs [] ltac:(constructor)) as H. by rewrite !app_nil_r in H. Qed.

(** The score grows with the clock below [2^44] insertions. *)
Lemma default_score_eq seq size :
  0 ≤ seq < 2 ^ 44 → 0 ≤ size → default_score seq size = seq * 2 ^ 20 + Z.min size (2 ^ 20 - 1).
Proof.
  intros Hs Hz. unfold default_score, wrap. rewrite Z.shiftl_mul_pow2 by lia. rewrite Z.mod_small by lia.
  rewrite <-(Z.add_lor_land (seq * 2 ^ 20)).
  assert (Z.land (seq * 2 ^ 20) (Z.min size (2 ^ 20 - 1)) = 0) as ->; [|lia].
  apply Z.bits_inj'. intros n Hn. rewrite Z.land_spec, Z.bits_0.
  destruct (decide (n < 20)).
  - by rewrite Z.mul_pow2_bits_low by lia.
  - rewrite (Z.bits_above_log2 (Z.min size (2 ^ 20 - 1))); [apply andb_false_r|lia|].
    destruct (decide (Z.min size (2 ^ 20 - 1) = 0)) as [->|]; [cbn; lia|]. apply Z.log2_lt_pow2; [lia|].
    apply Z.lt_le_trans with (2 ^ 20); [lia|]. by apply Z.pow_le_mono_r; lia.
Qed.

(** The B-tree of a run whose survivors are [ys], inserted after [o] others. *)
Fixpoint entries (o : Z) (ys : list (BlockId * Z)) : list entry :=
  match ys with
  | [] => []
  | (id, size) :: ys' => ((default_score (o + 1) size, o + 1), id) :: entries (o + 1) ys'
  end.

Lemma zlen_survivors o ys : zlen (entries o ys) = zlen ys.
Proof. revert o. induction ys as [|[id z] ys IH]; intros o; cbn [entries]; [done|]. by rewrite !zlen_cons, IH. Qed.

Lemma bt_insert_last o ys id size :
  0 ≤ o → o + zlen ys + 1 < 2 ^ 44 → nonneg_sizes ys → 0 ≤ size →
  let c := o + zlen ys + 1 in
  bt_insert (default_score c size, c) id (entries o ys) = entries o (ys ++ [(id, size)]).
Proof.
  intros Ho Hlt Hn Hz. cbn zeta. revert o Ho Hlt. induction Hn as [|[y z] ys Hy _ IH]; intros o Ho Hlt.
  { cbn. by rewrite zlen_nil, Z.add_0_r. }
  rewrite zlen_cons in *. cbn [bt_insert entries app]. pose proof (zlen_nonneg ys). cbn in Hy.
  rewrite (default_score_eq (o + (1 + zlen ys) + 1)), (default_score_eq (o + 1)) by lia.
  set (m := 2 ^ 20) in *. assert (m = 1048576) as Hm by done. unfold key_ltb. cbn [fst snd].
  destruct (Z.ltb_spec ((o + (1 + zlen ys) + 1) * m + Z.min size (m - 1)) ((o + 1) * m + Z.min z (m - 1))); [nia|].
  destruct (Z.eqb_spec ((o + (1 + zlen ys) + 1) * m + Z.min size (m - 1)) ((o + 1) * m + Z.min z (m - 1))); [nia|].
  cbn [orb andb]. rewrite bool_decide_eq_false_2 by (intros [= ? ?]; nia). f_equal.
  rewrite <-(default_score_eq (o + (1 + zlen ys) + 1)) by lia.
  replace (o + (1 + zlen ys) + 1) with (o + 1 + zlen ys + 1) by lia. apply IH; lia.
Qed.

(** A pruner with token budget [b] whose survivors are [ys]. *)
Record keeps (b o : Z) (ys : list (BlockId * Z)) (p : IncrementalPruner) : Prop := {
  kp_budget : pr_budget p = Tokens b;
  kp_scorer : pr_scorer p = default_score;
  kp_clock : pr_clock p = o + zlen ys;
  kp_ordered : pr_ordered p = entries o ys;
  kp_total : pr_total_size p = total ys;
  kp_size : ∀ id z, (id, z) ∈ ys → sl_size <$> pr_index p !! id = Some z;
  kp_fresh : ∀ id, id ∉ ys.*1 → pr_index p !! id = None
}.

Lemma keeps_new b : keeps b 0 [] (new_token_budget b).
Proof. split; try done. intros id z []%elem_of_nil. Qed.

Lemma evict_recent b o ys p ev fuel :
  keeps b o ys p → NoDup ys.*1 → (length ys ≤ fuel)%nat →
  ∃ p' ev' o', evict fuel p ev = Ok (p', ev') ∧ keeps b o' (recent b ys) p' ∧
    o ≤ o' ∧ o' + zlen (recent b ys) = o + zlen ys.
Proof.
  revert o ys p ev. induction fuel as [|fuel IH]; intros o ys p ev Hk Hnd Hf; cbn [evict].
  { assert (ys = []) as -> by (apply nil_length_inv; lia). by exists p, ev, o. }
  assert (over_budget p = (b <? total ys) && (1 <? zlen ys)) as ->.
  { unfold over_budget. by rewrite (kp_budget _ _ _ _ Hk), (kp_total _ _ _ _ Hk), (kp_ordered _ _ _ _ Hk), zlen_survivors. }
  destruct ys as [|[id z] ys]; [rewrite andb_false_r; by exists p, ev, o|]. cbn [recent].
  destruct ((b <? total ((id, z) :: ys)) && (1 <? zlen ((id, z) :: ys))) eqn:Hover; [|by exists p, ev, o].
  destruct Hk as [Hb Hs Hc Ho Ht Hz Hfr]. rewrite Ho. cbn [entries].
  destruct (pr_index p !! id) as [slot|] eqn:Hi.
  2:{ specialize (Hz id z). rewrite Hi in Hz. by discriminate Hz; left. }
  assert (sl_size slot = z) as Hsl.
  { specialize (Hz id z ltac:(left)). rewrite Hi in Hz. by injection Hz. }
  cbn [pr_budget]. rewrite Hb. cbn in Hnd. apply list.NoDup_cons in Hnd as [Hni Hnd].
  destruct (IH (o + 1) ys (mkPruner (Tokens b) (entries (o + 1) ys) (delete id (pr_index p))
    (pr_total_size p - sl_size slot) (pr_clock p) (pr_scorer p))
    (match ev with None => Some id | Some _ => ev end)) as (p' & ev' & o' & He & Hk' & H1 & H2).
  - split; cbn; [done|done| |done| | |].
    + rewrite Hc, zlen_cons. lia.
    + rewrite Ht, Hsl. change (total ((id, z) :: ys)) with (z + total ys). lia.
    + intros a w Ha. rewrite lookup_delete_ne; [apply Hz; by right|].
      intros <-. apply Hni. apply list_elem_of_fmap. by exists (id, w).
    + intros a Ha. destruct (decide (a = id)) as [->|Hne]; [apply lookup_delete_eq|].
      rewrite lookup_delete_ne by done. apply Hfr. cbn. by intros [?|?]%elem_of_cons.
  - done.
  - cbn in Hf. lia.
  - exists p', ev', o'. rewrite zlen_cons. split_and!; [done|done|lia|lia].
Qed.

Lemma insert_recent b o ys p id z :
  keeps b o ys p → NoDup (ys.*1 ++ [id]) → nonneg_sizes ys → 0 ≤ z → 0 ≤ o → o + zlen ys + 1 < 2 ^ 44 →
  ∃ p' ev' o', Pruner.insert p id z = Ok (p', ev') ∧ keeps b o' (recent b (ys ++ [(id, z)])) p' ∧
    o ≤ o' ∧ o' + zlen (recent b (ys ++ [(id, z)])) = o + zlen ys + 1.
Proof.
  intros Hk Hnd Hn Hz Ho Hlt. pose proof Hnd as (Hnd1 & Hdis & _)%list.NoDup_app.
  assert (id ∉ ys.*1) as Hni by (intros Hin; apply (Hdis id Hin); by left).
  destruct Hk as [Hb Hs Hc Hord Ht Hsz Hfr].
  unfold Pruner.insert. unfold forget. rewrite (Hfr id Hni).
  assert (keeps b o (ys ++ [(id, z)]) (place p id z)) as Hk.
  { unfold place. rewrite Hs, Hc, Hord, Hb, Ht. split; cbn; [done|done| | | | |].
    - rewrite zlen_app. change (zlen [(id, z)]) with 1. lia.
    - by apply bt_insert_last.
    - rewrite total_app. change (total [(id, z)]) with (z + 0). lia.
    - intros a w [Ha|[= -> ->]%list_elem_of_singleton]%elem_of_app.
      + rewrite lookup_insert_ne; [by apply Hsz|]. intros <-. apply Hni, list_elem_of_fmap. by exists (id, w).
      + by rewrite lookup_insert_eq.
    - intros a Ha. rewrite fmap_app, elem_of_app in Ha. cbn in Ha. rewrite list_elem_of_singleton in Ha.
      rewrite lookup_insert_ne by (intros <-; auto). apply Hfr; auto. }
  destruct (evict_recent b o _ _ None (length (pr_ordered (place p id z))) Hk) as (p' & ev' & o' & -> & Hk' & H1 & H2).
  - by rewrite fmap_app.
  - rewrite (kp_ordered _ _ _ _ Hk). pose proof (zlen_survivors o (ys ++ [(id, z)])) as E. unfold zlen in E. lia.
  - exists p', ev', o'. split_and!; [done|done|done|]. rewrite H2, zlen_app. change (zlen [(id, z)]) with 1. lia.
Qed.

Lemma insert_all_recent b o ys p xs :
  keeps b o ys p → NoDup (ys.*1 ++ xs.*1) → nonneg_sizes (ys ++ xs) → 0 ≤ o → o + zlen ys + zlen xs < 2 ^ 44 →
  ys = recent b ys →
  ∃ p' o', insert_all p xs = Ok p' ∧ keeps b o' (recent b (ys ++ xs)) p'.
Proof.
  revert o ys p. induction xs as [|[id z] xs IH]; intros o ys p Hk Hnd Hn Ho Hlt Hr; cbn [insert_all].
  { exists p, o. rewrite app_nil_r, <-Hr. done. }
  rewrite zlen_cons in Hlt. cbn in Hnd. pose proof (zlen_nonneg xs).
  apply Forall_app in Hn as [Hn1 [Hz Hn2]%Forall_cons_iff]. cbn in Hz.
  rewrite cons_middle, (assoc_L (++)) in Hnd.
  destruct (insert_recent b o ys p id z) as (p' & ev' & o' & -> & Hk' & H1 & H2); [done| |done|done|done|lia|].
  { by apply list.NoDup_app in Hnd as (? & _). }
  cbn [obind]. set (ys' := recent b (ys ++ [(id, z)])) in *.
  assert (nonneg_sizes (ys ++ [(id, z)])) as Hn' by (apply Forall_app; split; [done|by constructor]).
  destruct (recent_suffix b (ys ++ [(id, z)])) as [pre E]. fold ys' in E.
  destruct (IH o' ys' p') as (p2 & o2 & -> & Hk2); [done| | |lia|lia| |].
  - rewrite <-(fmap_app fst ys [(id, z)] : _ = ys.*1 ++ [id]), E, fmap_app, <-(assoc_L (++)) in Hnd.
    by apply list.NoDup_app in Hnd as (_ & _ & ?).
  - unfold nonneg_sizes in *. rewrite E in Hn'. apply Forall_app in Hn' as [_ ?]. by apply Forall_app.
  - symmetry. apply recent_idem.
  - exists p2, o2. split; [done|]. unfold ys' in Hk2. rewrite recent_app, <-(assoc_L (++)) in Hk2 by done. done.
Qed.

(** ** The window of a session *)

Section Window.
Context `{B3 : Blake3} {FC : FountainCode}.

(** The append path, one call per block. *)
Fixpoint ingest_blocks (s : IncrementalPruneScheduler) (sid : Z) (bs : list Block)
    : outcome string IncrementalPruneScheduler :=
  match bs with
  | [] => Ok s
  | b :: bs' => let? s := ingest_block s sid (block_id b) (zlen (payload b)) in ingest_blocks s sid bs'
  end.

Definition bytes_of (bs : list Block) : Z := foldr (λ b acc, zlen (payload b) + acc) 0 bs.

(** The longest suffix of a log within a byte budget, and at least its last block. *)
Fixpoint recent_blocks (budget : Z) (log : list Block) : list Block :=
  match log with
  | [] => []
  | _ :: log' => if (budget <? bytes_of log) && (1 <? zlen log) then recent_blocks budget log' else log
  end.

Definition sized (b : Block) : BlockId * Z := (block_id b, zlen (payload b)).

Lemma recent_sized budget log : recent budget (sized <$> log) = sized <$> recent_blocks budget log.
Proof.
  assert (∀ l, total (sized <$> l) = bytes_of l) as Ht.
  { unfold total, bytes_of. induction l as [|b l IH]; cbn; [done|]. by rewrite IH. }
  assert (∀ l, zlen (sized <$> l) = zlen l) as Hz by (intros l; unfold zlen; by rewrite length_fmap).
  induction log as [|b log IH]; [done|]. rewrite fmap_cons. cbn [recent recent_blocks].
  rewrite <-fmap_cons, Ht, Hz. case_match; [exact IH|done].
Qed.

Lemma recent_blocks_suffix budget log : recent_blocks budget log `suffix_of` log.
Proof. induction log as [|b log IH]; [done|]. cbn. case_match; [by apply suffix_cons_r|done]. Qed.

Lemma insert_all_app p xs ys : insert_all p (xs ++ ys) = let? p' := insert_all p xs in insert_all p' ys.
Proof.
  revert p. induction xs as [|[id z] xs IH]; intros p; [done|]. cbn [insert_all app].
  destruct (Pruner.insert p id z) as [[q ev]|e|]; cbn [obind]; [apply IH|done..].
Qed.

Lemma ingest_blocks_pruner s sid bs p p' :
  pruners s !! sid = Some p → insert_all p (sized <$> bs) = Ok p' →
  ∃ s', ingest_blocks s sid bs = Ok s' ∧ pruners s' !! sid = Some p'.
Proof.
  revert s p. induction bs as [|b bs IH]; intros s p Hs Hp; cbn [ingest_blocks].
  { injection Hp as <-. by exists s. }
  rewrite fmap_cons in Hp. cbn [insert_all sized] in Hp. unfold ingest_block. rewrite Hs.
  change (default (new_token_budget (token_budget s)) (Some p)) with p.
  destruct (Pruner.insert p (block_id b) (zlen (payload b))) as [[q ev]|e|]; cbn [obind] in *; [|done..].
  apply (IH _ q); [cbn; apply lookup_insert_eq|done].
Qed.

Lemma reconstruct_get r sid b : content_ok (r_store r) →
  b ∈ reconstruct (r_store r) sid → get (r_store r) (block_id b) = Some b.
Proof.
  intros Hc. rewrite reconstruct_ids, list_elem_of_omap. intros (id & _ & Hb). unfold get.
  by destruct (Hc _ _ Hb) as [<- _].
Qed.

Lemma sized_log r sid : content_ok (r_store r) → complete r sid →
  (λ id, (id, stored_size (r_store r) id)) <$> session_ids (r_store r) sid
  = sized <$> reconstruct (r_store r) sid.
Proof.
  intros Hc Hcomp. rewrite <-Hcomp, <-list_fmap_compose. apply list_fmap_ext. intros i b Hb. cbn.
  unfold sized, stored_size. rewrite (reconstruct_get r sid b); [done|done|by eapply list_elem_of_lookup_2].
Qed.

Lemma fetch_all r sid bs : content_ok (r_store r) → bs ⊆ reconstruct (r_store r) sid →
  omap (get (r_store r)) (block_id <$> bs) = bs.
Proof.
  intros Hc Hsub. induction bs as [|b bs IH]; [done|]. cbn.
  rewrite (reconstruct_get r sid b); [|done|apply Hsub; by left]. f_equal. apply IH.
  intros x Hx. apply Hsub. by right.
Qed.

Lemma keeps_window b o ys p xs :
  0 ≤ b → keeps b o ys p → ys `suffix_of` xs → NoDup xs.*1 → insert_all (new_token_budget b) xs = Ok p →
  window_ordered p = ys.*1.
Proof.
  intros Hb Hk [pre ->] Hnd Hp. rewrite (window_ordered_filter (Tokens b) default_score _ p Hb Hnd Hp).
  assert (∀ o, (entries o ys).*2 = ys.*1) as He.
  { clear. induction ys as [|[id z] ys IH]; intros o; cbn; [done|]. by rewrite IH. }
  assert (∀ id, id ∈ window p ↔ id ∈ ys.*1) as Hw.
  { intros id. unfold window. by rewrite elem_of_reverse, (kp_ordered _ _ _ _ Hk), He. }
  rewrite fmap_app in *. rewrite list.filter_app. apply list.NoDup_app in Hnd as (_ & Hdis & _).
  rewrite (filter_every _ ys.*1), filter_none; [done| |].
  - apply Forall_elem. intros id Hid. rewrite Hw. by apply Hdis.
  - apply Forall_elem. intros id Hid. by apply Hw.
Qed.

(** ** Theorems *)

End Window.

(** ** The queues *)

Section Queues.
Context `{P : PrunePolicy} {B3 : Blake3} {FC : FountainCode}.

Definition schedule_jobs (s : PruneScheduler) (js : list PruneJob) : PruneScheduler :=
  foldl (λ s j, schedule s (j_session_id j) (j_budget_tokens j)) s js.
Definition pp_schedule_jobs (s : PriorityPruneScheduler) (js : list PruneJob) : PriorityPruneScheduler :=
  foldl (λ s j, pp_schedule s (j_session_id j) (j_budget_tokens j)) s js.

Lemma schedule_jobs_pending s js : ps_pending (schedule_jobs s js) = ps_pending s ++ js.
Proof.
  revert s. induction js as [|[sid b] js IH]; intros s; cbn; [by rewrite app_nil_r|].
  rewrite IH. cbn. by rewrite <-(assoc_L (++)).
Qed.

(** The heap of a run of [schedule] calls, latest first. *)
Definition later (x y : Z * PruneJob) : Prop := y.1 < x.1.

Lemma pp_schedule_jobs_pending js :
  let s := pp_schedule_jobs PriorityPruneScheduler_new js in
  StronglySorted later (pp_pending s) ∧ (pp_pending s).*2 = reverse js ∧
  pp_seq s = zlen js ∧ Forall (λ x, x.1 ≤ pp_seq s) (pp_pending s).
Proof.
  induction js as [|[sid b] js IH] using rev_ind; [cbn; split_and!; repeat constructor|].
  unfold pp_schedule_jobs in *. rewrite foldl_app. cbn [foldl].
  set (s := foldl _ PriorityPruneScheduler_new js) in *. destruct IH as (Hs & Hj & Hq & Hf).
  unfold pp_schedule. cbn [pp_pending pp_seq j_session_id j_budget_tokens]. split_and!.
  - constructor; [done|]. eapply Forall_impl; [|exact Hf]. intros x Hx. unfold later. cbn in *. lia.
  - rewrite fmap_cons, Hj, reverse_app. done.
  - rewrite Hq, zlen_app. done.
  - constructor; [done|]. eapply Forall_impl; [|exact Hf]. intros x Hx. cbn in *. lia.
Qed.

Lemma heap_pop_sorted x h : StronglySorted later (x :: h) → heap_pop (x :: h) = Some (x, h).
Proof.
  revert x. induction h as [|y h IH]; intros x Hs; [done|]. inversion Hs as [|? ? Hs' Hf]; subst.
  cbn [heap_pop] in *. rewrite (IH y Hs'). inversion Hf as [|? ? Hxy _]; subst. unfold later in Hxy.
  by destruct (Z.leb_spec y.1 x.1); [|lia].
Qed.

Lemma heap_drain_sorted h : StronglySorted later h → heap_drain (length h) h = h.
Proof.
  induction h as [|x h IH]; intros Hs; [done|]. cbn [heap_drain length].
  rewrite heap_pop_sorted by done. f_equal. apply IH. by inversion Hs.
Qed.

Lemma collect_ok {A B} (f : A → outcome string B) l ys :
  Forall2 (λ x y, f x = Ok y) l ys → collect f l = Ok ys.
Proof. induction 1 as [|x y l ys Hx _ IH]; cbn; [done|]. by rewrite Hx, IH. Qed.

(** Every scheduled job is run once, on the log as it is when the jobs run, and
    none stays behind: [PruneScheduler::run_all] returns the windows in the
    order of scheduling, [PriorityPruneScheduler::run_all] the latest first. *)
Theorem run_all_drains r js ws :
  Forall2 (λ j w, run_job r j = Ok w) js ws →
  run_all (schedule_jobs PruneScheduler_new js) r = Ok (PruneScheduler_new, ws) ∧
  pp_run_all (pp_schedule_jobs PriorityPruneScheduler_new js) r = Ok (mkPrio [] (zlen js), reverse ws).
Proof.
  intros H2. split.
  - unfold run_all. rewrite schedule_jobs_pending. cbn [ps_pending PruneScheduler_new app].
    by rewrite (collect_ok _ _ _ H2).
  - unfold pp_run_all. destruct (pp_schedule_jobs_pending js) as (Hs & Hj & Hq & _).
    rewrite heap_drain_sorted, Hq by done.
    rewrite (collect_ok _ _ (reverse ws)); [done|]. apply Forall2_reverse in H2. rewrite <-Hj in H2.
    by apply Forall2_fmap_l in H2.
Qed.
End Queues.
