(* ===== verification/Flow.v ===== *)
(** * Flow: the credit window of [transport/src/flow.rs]

    [CreditFlow] is two atomics updated by compare-and-swap loops.  A call is a
    small program whose every access to an atomic is one step; threads
    interleave arbitrarily, calls start at any time, and a weak exchange may
    fail for no reason.  Each location has a single modification order, so the
    relaxed loads are modelled as reads of its current value. *)

From stdpp Require Import relations.
From S2P Require Import Prelude.

Record CreditFlow : Type := mkFlow { available : Z; capacity : Z }.

Definition CreditFlow_new (window_bytes : Z) : CreditFlow := mkFlow window_bytes window_bytes.

(** [u64::saturating_add]. *)
Definition saturating_add (a b : Z) : Z := Z.min (a + b) (2 ^ 64 - 1).

(** A call between two accesses to the atomics. *)
Inductive Pc : Type :=
| TakeStart (n : Z)
| TakeLoop (n a : Z)
| GrantStart (n : Z)
| GrantCap (n cap : Z)
| GrantLoop (n cap a : Z)
| ReaimStart (new_bdp : Z)
| Finished (result : Z).

(** [compare_exchange_weak]: the new state on success, the current value on
    failure. *)
Definition cas (spurious : bool) (f : CreditFlow) (expected new : Z) : CreditFlow + Z :=
  if negb spurious && (available f =? expected)
  then inl (mkFlow new (capacity f)) else inr (available f).

(** One step of [take]; a finished [take] returns the credit it got. *)
Definition take_step (spurious : bool) (f : CreditFlow) (n a : Z) : CreditFlow * Pc :=
  if a =? 0 then (f, Finished 0)
  else
    let give := Z.min n a in
    match cas spurious f a (a - give) with
    | inl f => (f, Finished give)
    | inr cur => (f, TakeLoop n cur)
    end.

Definition grant_step (spurious : bool) (f : CreditFlow) (n cap a : Z) : CreditFlow * Pc :=
  let nxt := Z.min (saturating_add a n) cap in
  match cas spurious f a nxt with
  | inl f => (f, Finished 0)
  | inr cur => (f, GrantLoop n cap cur)
  end.

(** [reaim]: swap the capacity, then grant the growth. *)
Definition reaim_step (f : CreditFlow) (new_bdp : Z) : CreditFlow * Pc :=
  let old := capacity f in
  let f := mkFlow (available f) new_bdp in
  if old <? new_bdp then (f, GrantStart (new_bdp - old)) else (f, Finished 0).

Definition run1 (spurious : bool) (f : CreditFlow) (pc : Pc) : CreditFlow * Pc :=
  match pc with
  | TakeStart n => (f, TakeLoop n (available f))
  | TakeLoop n a => take_step spurious f n a
  | GrantStart n => (f, GrantCap n (capacity f))
  | GrantCap n cap => (f, GrantLoop n cap (available f))
  | GrantLoop n cap a => grant_step spurious f n cap a
  | ReaimStart new_bdp => reaim_step f new_bdp
  | Finished r => (f, Finished r)
  end.

(** ** Sequential calls *)

(** A call that runs alone. *)
Fixpoint run_alone (fuel : nat) (f : CreditFlow) (pc : Pc) : CreditFlow * Pc :=
  match fuel with
  | O => (f, pc)
  | S fuel' => let '(f, pc) := run1 false f pc in run_alone fuel' f pc
  end.

(** Five steps are enough for any call (theorem [calls_finish]). *)
Definition call_alone (f : CreditFlow) (pc : Pc) : CreditFlow * Pc := run_alone 5 f pc.

(** The unit tests of the source. *)
Example take_and_grant :
  let f := CreditFlow_new 1000 in
  let '(f, r1) := call_alone f (TakeStart 400) in
  let '(f, r2) := call_alone f (TakeStart 700) in
  let '(f, _) := call_alone f (GrantStart 500) in
  r1 = Finished 400 ∧ r2 = Finished 600 ∧ available f = 500.
Proof. vm_compute. split_and!; reflexivity. Qed.

Example reaim_grows_credit :
  let '(f, _) := call_alone (CreditFlow_new 1000) (TakeStart 1000) in
  available (call_alone f (ReaimStart 2000)).1 = 1000.
Proof. vm_compute. reflexivity. Qed.

(** ** Interleavings *)

(** The atomics, the calls made so far, and (for the statement) the credit that
    grants have been asked to add. *)
Record Sys : Type := mkSys { flow : CreditFlow; calls : list Pc; issued : Z }.

Definition Sys_new (window : Z) : Sys := mkSys (CreditFlow_new window) [] 0.

Inductive step : Sys → Sys → Prop :=
| step_take f cs i n : 0 ≤ n → step (mkSys f cs i) (mkSys f (cs ++ [TakeStart n]) i)
| step_grant f cs i n : 0 ≤ n → step (mkSys f cs i) (mkSys f (cs ++ [GrantStart n]) (i + n))
| step_reaim f cs i b : 0 ≤ b → step (mkSys f cs i) (mkSys f (cs ++ [ReaimStart b]) i)
| step_run f cs i t pc spurious f' pc' :
    cs !! t = Some pc → run1 spurious f pc = (f', pc') →
    step (mkSys f cs i)
      (mkSys f' (<[t := pc']> cs)
         (match pc, pc' with ReaimStart _, GrantStart n => i + n | _, _ => i end)).

(** Credit handed out by a call, and credit a call may still add. *)
Definition taken1 (pc : Pc) : Z := match pc with Finished r => r | _ => 0 end.
Definition pending1 (pc : Pc) : Z :=
  match pc with GrantStart n | GrantCap n _ | GrantLoop n _ _ => n | _ => 0 end.

Definition sum_of (g : Pc → Z) (cs : list Pc) : Z := foldr (λ pc acc, g pc + acc) 0 cs.
#[global] Arguments sum_of : simpl never.
Definition taken (s : Sys) : Z := sum_of taken1 (calls s).

Definition pc_ok (pc : Pc) : Prop :=
  match pc with
  | TakeStart n | GrantStart n | ReaimStart n | Finished n => 0 ≤ n
  | TakeLoop n a => 0 ≤ n ∧ 0 ≤ a
  | GrantCap n cap => 0 ≤ n ∧ 0 ≤ cap
  | GrantLoop n cap a => 0 ≤ n ∧ 0 ≤ cap ∧ 0 ≤ a
  end.

Record sys_ok (window : Z) (s : Sys) : Prop := {
  so_avail : 0 ≤ available (flow s);
  so_cap : 0 ≤ capacity (flow s);
  so_pcs : Forall pc_ok (calls s);
  so_credit : taken s + available (flow s) + sum_of pending1 (calls s) ≤ window + issued s
}.

Lemma sum_of_snoc g cs pc : sum_of g (cs ++ [pc]) = sum_of g cs + g pc.
Proof. unfold sum_of. induction cs as [|c cs IH]; cbn; [lia|]. rewrite IH. lia. Qed.

Lemma sum_of_insert g cs t pc pc' : cs !! t = Some pc → sum_of g (<[t := pc']> cs) = sum_of g cs - g pc + g pc'.
Proof.
  revert t. induction cs as [|c cs IH]; intros [|t] Ht; cbn in Ht; try done.
  - injection Ht as ->. unfold sum_of. cbn. lia.
  - change (g c + sum_of g (<[t := pc']> cs) = g c + sum_of g cs - g pc + g pc'). rewrite (IH t Ht). lia.
Qed.

(** One step of one call, with its effect on the books. *)
Lemma run1_ok spurious f pc f' pc' :
  0 ≤ available f → 0 ≤ capacity f → pc_ok pc → run1 spurious f pc = (f', pc') →
  0 ≤ available f' ∧ 0 ≤ capacity f' ∧ pc_ok pc' ∧
  taken1 pc' + available f' + pending1 pc' ≤
    taken1 pc + available f + pending1 pc
      + match pc, pc' with ReaimStart _, GrantStart n => n | _, _ => 0 end.
Proof.
  intros Ha Hc Hp. unfold run1, take_step, grant_step, reaim_step, cas, saturating_add.
  destruct pc as [n|n a|n|n cap|n cap a|b|r]; cbn in Hp |- *; intros E; repeat case_match; simplify_eq; cbn; try lia.
Qed.

Lemma step_ok window s s' : step s s' → sys_ok window s → sys_ok window s'.
Proof.
  intros Hs [Ha Hc Hp Hb]. unfold taken in *.
  destruct Hs as [f cs i n Hn|f cs i n Hn|f cs i n Hn|f cs i t pc spurious f' pc' Ht Hr]; cbn in *.
  1-3: split; cbn; unfold taken; cbn; rewrite ?sum_of_snoc; cbn; try lia; apply Forall_app; by repeat constructor.
  destruct (run1_ok spurious f pc f' pc') as (H1 & H2 & H3 & H4); [done|done|by eapply Forall_lookup_1|done|].
  split; cbn; [done|done|by apply Forall_insert|]. unfold taken. cbn. rewrite !(sum_of_insert _ _ _ pc) by done.
  destruct pc; try lia. destruct pc'; lia.
Qed.

(** ** Calls that run alone *)

Lemma run_finished fuel f r : run_alone fuel f (Finished r) = (f, Finished r).
Proof. induction fuel as [|fuel IH]; [done|]. exact IH. Qed.

Lemma finished_finishes fuel f r : ∃ r', (run_alone fuel f (Finished r)).2 = Finished r'.
Proof. rewrite run_finished. by eexists. Qed.

Lemma finish_prefix fuel f pc f' pc' :
  run1 false f pc = (f', pc') → (∃ r, (run_alone fuel f' pc').2 = Finished r) →
  ∃ r, (run_alone (S fuel) f pc).2 = Finished r.
Proof. intros H. cbn [run_alone]. by rewrite H. Qed.

(** A fresh value never fails the exchange. *)
Lemma take_finishes f n fuel : ∃ r, (run_alone (S fuel) f (TakeLoop n (available f))).2 = Finished r.
Proof.
  cbn [run_alone run1]. unfold take_step, cas. rewrite Z.eqb_refl. cbn [negb andb].
  destruct (available f =? 0); apply finished_finishes.
Qed.

Lemma grant_finishes f n cap fuel : ∃ r, (run_alone (S fuel) f (GrantLoop n cap (available f))).2 = Finished r.
Proof.
  cbn [run_alone run1]. unfold grant_step, cas. rewrite Z.eqb_refl. cbn [negb andb].
  apply finished_finishes.
Qed.

(** ** Theorems *)

(** C19: The window is never oversold: whatever calls run, however they interleave
    and however often an exchange fails, the credit handed to senders is at
    most the initial window plus the credit granted (growth of the window
    included), and the counter never goes below zero. *)
Theorem never_oversells window s :
  0 ≤ window → rtc step (Sys_new window) s →
  0 ≤ available (flow s) ∧ taken s + available (flow s) ≤ window + issued s.
Proof.
  intros Hw Hs. assert (sys_ok window (Sys_new window)) as H0.
  { split; cbn; try done; unfold taken, sum_of; cbn; lia. }
  assert (sys_ok window s) as [Ha _ Hp Hb] by (induction Hs as [|s s1 s2 Hst _ IH]; [done|by apply IH, (step_ok _ s)]).
  split; [done|]. enough (0 ≤ sum_of pending1 (calls s)) by lia.
  clear -Hp. unfold sum_of. induction Hp as [|pc cs Hpc _ IH]; cbn; [done|]. destruct pc; cbn in *; lia.
Qed.

(** No call can be starved by its own loop: from any state of the atomics and
    any point of a call, five steps that no other thread interrupts (and whose
    exchanges do not fail spuriously) finish it. *)
Theorem calls_finish f pc : ∃ r, (call_alone f pc).2 = Finished r.
Proof.
  unfold call_alone. destruct (run1 false f pc) as [f' pc'] eqn:E. apply (finish_prefix 4 f pc f' pc' E).
  destruct pc as [n|n a|n|n cap|n cap a|b|r]; cbn [run1] in E.
  - injection E as <- <-. apply (take_finishes f n 3).
  - unfold take_step, cas in E. repeat case_match; simplify_eq; [apply finished_finishes..|apply (take_finishes _ n 3)].
  - injection E as <- <-. eapply finish_prefix; [reflexivity|]. apply (grant_finishes f n _ 2).
  - injection E as <- <-. apply (grant_finishes f n cap 3).
  - unfold grant_step, cas in E. repeat case_match; simplify_eq; [apply finished_finishes|apply (grant_finishes _ n cap 3)].
  - unfold reaim_step in E. repeat case_match; simplify_eq; [|apply finished_finishes].
    do 2 (eapply finish_prefix; [reflexivity|]). apply (grant_finishes _ _ _ 1).
  - injection E as <- <-. apply finished_finishes.
Qed.

(** ** Shrinking the window *)

(** A grant that follows a shrink takes credit back: 900 bytes of unspent
    credit are gone after a grant of one byte. *)
Theorem grant_recalls_credit :
  let f := (call_alone (CreditFlow_new 1000) (ReaimStart 100)).1 in
  available f = 1000 ∧ available (call_alone f (GrantStart 1)).1 = 100.
Proof. vm_compute. split; reflexivity. Qed.

(** ** Witnesses *)
Module FlowWitness.
(** Two senders race for the window: both load 10, one exchange fails. *)
Definition s2 : Sys := mkSys (mkFlow 0 10) [Finished 7; Finished 3] 0.

Lemma race : rtc step (Sys_new 10) s2.
Proof.
  eapply rtc_l; [apply (step_take _ _ _ 7); lia|]. eapply rtc_l; [apply (step_take _ _ _ 7); lia|]. cbn [app].
  eapply rtc_l; [apply (step_run _ _ _ 0 (TakeStart 7) false); reflexivity|].
  eapply rtc_l; [apply (step_run _ _ _ 1 (TakeStart 7) false); reflexivity|].
  eapply rtc_l; [apply (step_run _ _ _ 0 (TakeLoop 7 10) false); reflexivity|].
  eapply rtc_l; [apply (step_run _ _ _ 1 (TakeLoop 7 10) false); reflexivity|].
  eapply rtc_l; [apply (step_run _ _ _ 1 (TakeLoop 7 3) true); reflexivity|].
  eapply rtc_l; [apply (step_run _ _ _ 1 (TakeLoop 7 3) false); reflexivity|]. apply rtc_refl.
Qed.

Lemma never_oversells_witness :
  taken s2 = 10 ∧ 0 ≤ available (flow s2) ∧ taken s2 + available (flow s2) ≤ 10 + issued s2.
Proof. split; [reflexivity|]. apply (never_oversells 10 s2); [lia|exact race]. Defined.
End FlowWitness.
