(* ===== verification/Pipeline.v ===== *)
(** * Pipeline: the staged byte pipeline of [transport/src/pipeline.rs]

    Every stage is a thread between two bounded channels; [run] feeds a batch
    from a thread of its own while it collects at the tail.  The threads
    interleave arbitrarily: [step] is one action of one of them.  A channel of
    capacity zero hands an item over when its receiver waits.

    [BytePipeline] is not [Sync] (the tail is a [Receiver]), so runs of one
    pipeline follow each other.  Stages are total functions: a panic aborts the
    process in the release profile.

    [step_conserves] (no item is lost, doubled or overtaken), [step_measure]
    (every action brings some item nearer to the tail) and [progress] (someone
    can always move) give the theorem on [run]. *)

From stdpp Require Import relations.
From S2P Require Import Prelude.

(** ** Threads and channels *)

Inductive ThreadPc : Type :=
| Idle
| Computing (item : bytes)
| Sending (out : bytes).

(** A stage thread with the channel it receives from. *)
Record StageThread : Type := mkStage {
  st_fn : bytes → bytes;
  st_rx : list bytes;
  st_pc : ThreadPc
}.

(** The persistent threads, and the channel of the tail. *)
Record Workers : Type := mkWorkers { w_threads : list StageThread; w_tail : list bytes }.

Record BytePipeline : Type := mkPipeline {
  stages : list (bytes → bytes);
  cap : nat;
  workers : option Workers
}.

Definition BytePipeline_new (cap : nat) : BytePipeline := mkPipeline [] cap None.

Definition stage (p : BytePipeline) (f : bytes → bytes) : BytePipeline :=
  mkPipeline (stages p ++ [f]) (cap p) (workers p).

Definition spawn (stages : list (bytes → bytes)) : Workers :=
  mkWorkers ((λ f, mkStage f [] Idle) <$> stages) [].

(** [get_or_init]: the stages are taken on the first use. *)
Definition get_workers (p : BytePipeline) : BytePipeline * Workers :=
  match workers p with
  | Some w => (p, w)
  | None => let w := spawn (stages p) in (mkPipeline [] (cap p) (Some w), w)
  end.

(** A batch in progress: what the feeder has left, the threads, the tail
    channel, and what the collector has of the [want] items. *)
Record RunState : Type := mkRun {
  feed : list bytes;
  threads : list StageThread;
  tail : list bytes;
  out : list bytes;
  want : nat
}.

Section run.
Context (cap : nat).

(** [send] of [x] to the channel before [ths] (or to the tail): queue it if
    there is room; on a channel without buffer, hand it to a waiting
    receiver. *)
Definition offer (ths : list StageThread) (tl o : list bytes) (w : nat) (x : bytes)
    : option (list StageThread * list bytes * list bytes) :=
  match ths with
  | [] =>
      if (length tl <? cap)%nat then Some ([], tl ++ [x], o)
      else match cap, tl with
           | O, [] => if (length o <? w)%nat then Some ([], [], o ++ [x]) else None
           | _, _ => None
           end
  | t :: ths' =>
      if (length (st_rx t) <? cap)%nat
      then Some (mkStage (st_fn t) (st_rx t ++ [x]) (st_pc t) :: ths', tl, o)
      else match cap, st_rx t, st_pc t with
           | O, [], Idle => Some (mkStage (st_fn t) [] (Computing x) :: ths', tl, o)
           | _, _, _ => None
           end
  end.

Inductive step : RunState → RunState → Prop :=
| step_feed x fd ths tl o w ths' tl' o' :
    offer ths tl o w x = Some (ths', tl', o') →
    step (mkRun (x :: fd) ths tl o w) (mkRun fd ths' tl' o' w)
| step_recv fd pre f x q post tl o w :
    step (mkRun fd (pre ++ mkStage f (x :: q) Idle :: post) tl o w)
         (mkRun fd (pre ++ mkStage f q (Computing x) :: post) tl o w)
| step_compute fd pre f q x post tl o w :
    step (mkRun fd (pre ++ mkStage f q (Computing x) :: post) tl o w)
         (mkRun fd (pre ++ mkStage f q (Sending (f x)) :: post) tl o w)
| step_send fd pre f q y post tl o w post' tl' o' :
    offer post tl o w y = Some (post', tl', o') →
    step (mkRun fd (pre ++ mkStage f q (Sending y) :: post) tl o w)
         (mkRun fd (pre ++ mkStage f q Idle :: post') tl' o' w)
| step_collect fd ths y tl o w :
    (length o < w)%nat →
    step (mkRun fd ths (y :: tl) o w) (mkRun fd ths tl (o ++ [y]) w).

(** ** What is on its way *)

Definition pc_items (f : bytes → bytes) (pc : ThreadPc) : list bytes :=
  match pc with Idle => [] | Computing x => [f x] | Sending y => [y] end.

(** The items that come out of [ths] when [items] follow those inside. *)
Fixpoint through (ths : list StageThread) (items : list bytes) : list bytes :=
  match ths with
  | [] => items
  | t :: ths => through ths (pc_items (st_fn t) (st_pc t) ++ (st_fn t <$> (st_rx t ++ items)))
  end.

Definition emerging (s : RunState) : list bytes := out s ++ tail s ++ through (threads s) (feed s).

Lemma through_app pre post items : through (pre ++ post) items = through post (through pre items).
Proof. revert items. induction pre as [|t pre IH]; intros items; [done|]. cbn. apply IH. Qed.

Lemma offer_conserves ths tl o w x ths' tl' o' items :
  offer ths tl o w x = Some (ths', tl', o') →
  o' ++ tl' ++ through ths' items = o ++ tl ++ through ths (x :: items).
Proof.
  unfold offer. destruct ths as [|[f q pc] ths]; cbn [st_fn st_rx st_pc].
  - case_match; [|repeat case_match]; intros [= <- <- <-]; cbn; by rewrite <-!app_assoc.
  - case_match; [|repeat case_match]; intros [= <- <- <-]; simplify_eq; cbn; by rewrite <-?app_assoc.
Qed.

(** No action loses, doubles or reorders an item. *)
Lemma step_conserves s s' : step s s' → emerging s' = emerging s ∧ want s' = want s.
Proof.
  intros Hs. split; [|by destruct Hs]. unfold emerging. destruct Hs; cbn [out tail threads feed].
  - by eapply offer_conserves.
  - rewrite !through_app. by destruct pre.
  - rewrite !through_app. done.
  - rewrite !through_app. cbn. by erewrite offer_conserves.
  - by rewrite <-!app_assoc.
Qed.

(** ** Every action is progress *)

Definition pc_cost (d : nat) (pc : ThreadPc) : nat :=
  match pc with Idle => 0 | Computing _ => 3 * d | Sending _ => 3 * d - 1 end.

(** Actions left for the items inside [ths]. *)
Fixpoint cost (ths : list StageThread) : nat :=
  match ths with
  | [] => 0
  | t :: ths' => length (st_rx t) * (3 * length ths + 1) + pc_cost (length ths) (st_pc t) + cost ths'
  end.

Definition measure (s : RunState) : nat :=
  length (feed s) * (3 * length (threads s) + 2) + cost (threads s) + length (tail s).

Lemma offer_cost ths tl o w x ths' tl' o' :
  offer ths tl o w x = Some (ths', tl', o') →
  length ths' = length ths ∧ (cost ths' + length tl' ≤ cost ths + length tl + 3 * length ths + 1)%nat.
Proof.
  unfold offer. destruct ths as [|[f q pc] ths]; cbn [st_fn st_rx st_pc].
  - case_match; [|repeat case_match]; intros [= <- <- <-]; cbn; rewrite ?length_app; cbn; lia.
  - case_match; [|repeat case_match]; intros [= <- <- <-]; simplify_eq; cbn [length cost st_rx st_pc st_fn];
      rewrite ?length_app; cbn [length pc_cost]; (split; [done|lia]).
Qed.

Lemma cost_app pre ths ths' k k' :
  length ths = length ths' → (cost ths + k < cost ths' + k')%nat →
  (cost (pre ++ ths) + k < cost (pre ++ ths') + k')%nat.
Proof.
  intros Hl Hc. induction pre as [|t pre IH]; [done|]. cbn [app cost length]. rewrite !length_app, Hl in *. lia.
Qed.

Lemma step_measure s s' : step s s' → (measure s' < measure s)%nat.
Proof.
  unfold measure. destruct 1 as [x fd ths tl o w ths' tl' o' Ho| | |fd pre f q y post tl o w post' tl' o' Ho|];
    cbn [feed threads tail].
  - destruct (offer_cost _ _ _ _ _ _ _ _ Ho) as [-> ?]. cbn [length]. lia.
  - rewrite !length_app, <-!Nat.add_assoc. apply Nat.add_lt_mono_l, cost_app; cbn [cost st_rx st_pc pc_cost length]; nia.
  - rewrite !length_app, <-!Nat.add_assoc. apply Nat.add_lt_mono_l, cost_app; cbn [cost st_rx st_pc pc_cost length]; nia.
  - destruct (offer_cost _ _ _ _ _ _ _ _ Ho) as [Hl Hc]. rewrite !length_app. cbn [length]. rewrite Hl, <-!Nat.add_assoc.
    apply Nat.add_lt_mono_l, cost_app; cbn [cost st_rx st_pc pc_cost length]; rewrite Hl; lia.
  - cbn [length]. lia.
Qed.

(** ** Someone can always move *)

Definition stage_free (t : StageThread) : Prop := st_rx t = [] ∧ st_pc t = Idle.

Lemma offer_free ths o w x :
  Forall stage_free ths → (length o < w)%nat → ∃ r, offer ths [] o w x = Some r.
Proof.
  intros Hf Hw. unfold offer. destruct Hf as [|t ths [Hq Hp] _].
  - rewrite (proj2 (Nat.ltb_lt _ _) Hw). destruct cap; cbn; eauto.
  - rewrite Hq, Hp. cbn. destruct cap; cbn; eauto.
Qed.

Lemma threads_move fd ths o w pre :
  (length o < w)%nat →
  Forall stage_free ths ∨ ∃ s', step (mkRun fd (pre ++ ths) [] o w) s'.
Proof.
  intros Hw. revert pre. induction ths as [|[f q pc] ths IH]; intros pre; [by left|].
  destruct (IH (pre ++ [mkStage f q pc])) as [Hf|Hs]; [|right; by rewrite <-app_assoc in Hs].
  destruct pc as [|x|y].
  - destruct q as [|x q]; [left; by constructor|]. right. eexists. apply step_recv.
  - right. eexists. apply step_compute.
  - right. destruct (offer_free ths o w y Hf Hw) as [[[ths' tl'] o'] Ho]. eexists. by eapply step_send.
Qed.

Lemma through_free ths items : Forall stage_free ths → items = [] → through ths items = [].
Proof.
  intros Hf. revert items. induction Hf as [|t ths [Hq Hp] _ IH]; intros items Hi; [done|].
  cbn. apply IH. by rewrite Hq, Hp, Hi.
Qed.

Lemma progress s :
  (length (out s) < want s)%nat → (length (emerging s) = want s) → ∃ s', step s s'.
Proof.
  destruct s as [fd ths tl o w]. unfold emerging. cbn [feed threads tail out want]. intros Hw He.
  destruct tl as [|y tl]; [|eexists; by apply step_collect].
  destruct (threads_move fd ths o w [] Hw) as [Hf|]; [|done].
  destruct fd as [|x fd].
  - rewrite through_free, app_nil_r in He by done. lia.
  - destruct (offer_free ths o w x Hf Hw) as [[[ths' tl'] o'] Ho]. eexists. by eapply step_feed.
Qed.
End run.

(** ** [run] *)

(** A batch starts on the threads as they are. *)
Definition run_start (w : Workers) (input : list bytes) : RunState :=
  mkRun input (w_threads w) (w_tail w) [] (length input).

(** [run] has returned: the collector has its [n] items and the feeder has
    ended. *)
Definition run_done (s : RunState) : Prop := length (out s) = want s ∧ feed s = [].

(** [run p input]: an empty batch returns at once; the result of a batch is
    that of some interleaving. *)
Inductive run (p : BytePipeline) (input : list bytes) : BytePipeline → list bytes → Prop :=
| run_empty : input = [] → run p input p []
| run_batch p' w s :
    input ≠ [] → get_workers p = (p', w) → rtc (step (cap p)) (run_start w input) s → run_done s →
    run p input (mkPipeline (stages p') (cap p') (Some (mkWorkers (threads s) (tail s)))) (out s).

(** All the stages, applied in order. *)
Definition apply_stages (fs : list (bytes → bytes)) (x : bytes) : bytes := foldl (λ x f, f x) x fs.

Definition apply_batch (fs : list (bytes → bytes)) (input : list bytes) : list bytes :=
  apply_stages fs <$> input.

Lemma through_spawn fs items :
  through ((λ f, mkStage f [] Idle) <$> fs) items = apply_stages fs <$> items.
Proof.
  revert items. induction fs as [|f fs IH]; intros items; cbn.
  - unfold apply_stages. cbn. by rewrite list_fmap_id.
  - rewrite IH, <-list_fmap_compose. done.
Qed.

Definition quiescent (w : Workers) : Prop := Forall stage_free (w_threads w) ∧ w_tail w = [].
Definition worker_stages (w : Workers) : list (bytes → bytes) := st_fn <$> w_threads w.

Lemma quiescent_spawn w : quiescent w → w = spawn (worker_stages w).
Proof.
  destruct w as [ths tl]. intros [Hf Ht]. cbn in *. unfold spawn, worker_stages. f_equal; [|done]. cbn.
  clear Ht. induction Hf as [|[f q pc] ths [Hq Hp] _ IH]; [done|]. cbn in *. subst. by f_equal.
Qed.

Lemma spawn_quiescent fs : quiescent (spawn fs).
Proof. split; [|done]. apply Forall_fmap, Forall_true. done. Qed.

Lemma offer_fns cap ths tl o w x ths' tl' o' :
  offer cap ths tl o w x = Some (ths', tl', o') → st_fn <$> ths' = st_fn <$> ths.
Proof.
  unfold offer. destruct ths as [|[f q pc] ths]; cbn [st_fn st_rx st_pc];
    (case_match; [|repeat case_match]); intros [= <- <- <-]; done.
Qed.

Lemma step_fns cap s s' : step cap s s' → st_fn <$> threads s' = st_fn <$> threads s.
Proof.
  destruct 1; cbn [threads]; rewrite ?fmap_app; cbn; [by eapply offer_fns|done|done| |done].
  do 2 f_equal. by eapply offer_fns.
Qed.

Lemma run_reachable cap w input s :
  quiescent w → rtc (step cap) (run_start w input) s →
  emerging s = apply_stages (worker_stages w) <$> input ∧ want s = length input ∧
  st_fn <$> threads s = worker_stages w.
Proof.
  intros Hq. revert s. apply rtc_ind_r.
  - split_and!; [|done|done]. unfold emerging. cbn. pose proof (quiescent_spawn w Hq) as E.
    by rewrite <-through_spawn, (f_equal w_tail E), (f_equal w_threads E).
  - intros y z _ Hs (He & Hw & Hf). destruct (step_conserves _ _ _ Hs) as [-> ->].
    split_and!; [done|done|]. by rewrite (step_fns _ _ _ Hs).
Qed.

Lemma through_nil ths items : through ths items = [] → items = [] ∧ Forall stage_free ths.
Proof.
  revert items. induction ths as [|[f q pc] ths IH]; intros items; cbn; [by split|].
  intros [H Hf]%IH. apply app_nil in H as [Hp H]. apply fmap_nil_inv, app_nil in H as [-> ->].
  split; [done|]. constructor; [|done]. by destruct pc.
Qed.

Lemma start_measure w input :
  quiescent w → measure (run_start w input) = (length input * (3 * length (w_threads w) + 2))%nat.
Proof.
  intros [Hf Ht]. unfold measure, run_start. cbn. rewrite Ht. cbn.
  enough (cost (w_threads w) = 0%nat) by lia. clear Ht.
  induction Hf as [|t ths [Hq Hp] _ IH]; cbn; [done|]. by rewrite Hq, Hp, IH.
Qed.

Lemma nsteps_measure cap k s s' : nsteps (step cap) k s s' → (k + measure s' ≤ measure s)%nat.
Proof. induction 1 as [|k s s1 s' Hs _ IH]; [done|]. apply step_measure in Hs. lia. Qed.

(** A complete batch, and the state of the threads after it. *)
Lemma batch_complete cap w input s :
  quiescent w → rtc (step cap) (run_start w input) s → length (out s) = length input →
  out s = apply_stages (worker_stages w) <$> input ∧ run_done s ∧ mkWorkers (threads s) (tail s) = w.
Proof.
  intros Hq Hr Hl. destruct (run_reachable _ _ _ _ Hq Hr) as (He & Hw & Hfn).
  pose proof (f_equal length He) as Hlen. unfold emerging in *. rewrite !length_app, length_fmap in Hlen.
  assert (tail s = []) as Ht by (apply length_zero_iff_nil; lia).
  assert (through (threads s) (feed s) = []) as Hth by (apply length_zero_iff_nil; lia).
  rewrite Ht, Hth, app_nil_r in He. split; [done|]. apply through_nil in Hth as [Hfd Hfree].
  split; [by split; [rewrite Hw|]|]. rewrite (quiescent_spawn w Hq), <-Hfn.
  by apply (quiescent_spawn (mkWorkers (threads s) (tail s))).
Qed.

(** C21: A batch through the pipeline, under every interleaving of the feeder, the
    stage threads and the collector and for every channel capacity: what has
    been collected is always a prefix of the batch with all stages applied in
    order; while items are missing some thread can move, and no run is longer
    than [n * (3 * stages + 2)] actions, so the batch completes; when it does
    the feeder has ended and every thread is idle with empty channels, ready
    for the next batch. *)
Theorem pipeline_batch cap w input :
  quiescent w →
  (∀ k s, nsteps (step cap) k (run_start w input) s → (k ≤ length input * (3 * length (w_threads w) + 2))%nat) ∧
  (∀ s, rtc (step cap) (run_start w input) s →
     out s `prefix_of` (apply_stages (worker_stages w) <$> input) ∧
     ((length (out s) < length input)%nat → ∃ s', step cap s s') ∧
     (length (out s) = length input →
        out s = apply_stages (worker_stages w) <$> input ∧ run_done s ∧ mkWorkers (threads s) (tail s) = w)).
Proof.
  intros Hq. split.
  { intros k s Hk%nsteps_measure. rewrite start_measure in Hk by done. lia. }
  intros s Hr. destruct (run_reachable _ _ _ _ Hq Hr) as (He & Hw & Hfn). split_and!.
  - rewrite <-He. unfold emerging. by eexists.
  - intros Hlt. apply progress; [by rewrite Hw|]. by rewrite He, length_fmap.
  - intros Hl. by apply (batch_complete cap).
Qed.

(** ** Batches in sequence *)

Inductive runs : BytePipeline → list (list bytes) → list (list bytes) → Prop :=
| runs_nil p : runs p [] []
| runs_cons p p' input o inputs os :
    run p input p' o → runs p' inputs os → runs p (input :: inputs) (o :: os).

(** A pipeline built by [new] and [stage]. *)
Definition build (cap : nat) (fs : list (bytes → bytes)) : BytePipeline := foldl stage (BytePipeline_new cap) fs.

Lemma build_spec cap fs : build cap fs = mkPipeline fs cap None.
Proof.
  unfold build. induction fs as [|f fs IH] using rev_ind; [done|]. rewrite foldl_app, IH. done.
Qed.

Definition pipeline_ready (p : BytePipeline) (fs : list (bytes → bytes)) : Prop :=
  (get_workers p).2 = spawn fs.

Lemma run_correct p fs input p' o :
  pipeline_ready p fs → run p input p' o → pipeline_ready p' fs ∧ o = apply_stages fs <$> input.
Proof.
  intros Hr. destruct 1 as [->|p1 w s _ Hg Hs [Hl Hd]]; [done|]. unfold pipeline_ready in Hr.
  rewrite Hg in Hr. cbn in Hr. subst w.
  assert (worker_stages (spawn fs) = fs) as Hfs.
  { unfold worker_stages, spawn. cbn. rewrite <-list_fmap_compose. apply list_fmap_id. }
  destruct (run_reachable _ _ _ _ (spawn_quiescent fs) Hs) as (_ & Hw & _).
  destruct (batch_complete _ _ _ _ (spawn_quiescent fs) Hs) as (Ho & _ & Hws); [congruence|].
  rewrite Hfs in Ho. split; [|done]. unfold pipeline_ready. cbn. exact Hws.
Qed.

(** Repeated runs reuse the threads without mixing batches: whatever the
    interleavings were, the results of a sequence of runs are the batches with
    the stages applied in insertion order. *)
Theorem pipeline_runs cap fs inputs os :
  runs (build cap fs) inputs os → os = apply_batch fs <$> inputs.
Proof.
  assert (pipeline_ready (build cap fs) fs) as Hr by (by rewrite build_spec). revert Hr. generalize (build cap fs).
  intros p Hr Hruns. induction Hruns as [p|p p' input o inputs os Hrun _ IH]; [done|].
  destruct (run_correct _ _ _ _ _ Hr Hrun) as [Hr' ->]. cbn. f_equal. by apply IH.
Qed.

(** A stage added after the first batch never runs: the threads exist. *)
Lemma late_stage_ignored p f w : workers p = Some w → (get_workers (stage p f)).2 = (get_workers p).2.
Proof. intros Hw. unfold get_workers, stage. cbn. by rewrite Hw. Qed.

(** ** Witnesses: two stages on channels without buffer *)

Definition inc_bytes (x : bytes) : bytes := (λ b, byte.of_Z (byte.unsigned b + 1)) <$> x.
Definition double_bytes (x : bytes) : bytes := (λ b, byte.of_Z (byte.unsigned b * 2)) <$> x.
Definition batch1 : list bytes := [[byte.of_Z 1; byte.of_Z 2]; [byte.of_Z 10]].

Lemma pipeline_batch_witness : ∃ s', step 0 (run_start (spawn [inc_bytes; double_bytes]) batch1) s'.
Proof.
  apply (pipeline_batch 0 (spawn [inc_bytes; double_bytes]) batch1 (spawn_quiescent _)); [apply rtc_refl|cbn; lia].
Defined.

(** One item through one stage. *)
Lemma one_item_run p f x :
  cap p = 1%nat → (get_workers p).2 = spawn [f] →
  run p [x] (mkPipeline (stages (get_workers p).1) (cap (get_workers p).1) (Some (spawn [f]))) [f x].
Proof.
  intros Hc Hw. destruct (get_workers p) as [p' w] eqn:E. cbn in *. subst w.
  apply (run_batch p [x] p' (spawn [f]) (mkRun [] [mkStage f [] Idle] [] [f x] 1)); [done|done|rewrite Hc|done].
  eapply rtc_l; [by apply step_feed|]. eapply rtc_l; [apply (step_recv _ _ [])|].
  eapply rtc_l; [apply (step_compute _ _ [])|]. eapply rtc_l; [by apply (step_send _ _ [])|].
  eapply rtc_l; [apply step_collect; cbn; lia|]. apply rtc_refl.
Qed.

Lemma two_runs : runs (build 1 [inc_bytes]) [[[byte.of_Z 1]]; [[byte.of_Z 7]]] [[inc_bytes [byte.of_Z 1]]; [inc_bytes [byte.of_Z 7]]].
Proof. eapply runs_cons; [by apply one_item_run|]. eapply runs_cons; [by apply one_item_run|]. apply runs_nil. Qed.

Lemma pipeline_runs_witness :
  [[inc_bytes [byte.of_Z 1]]; [inc_bytes [byte.of_Z 7]]]
  = apply_batch [inc_bytes] <$> [[[byte.of_Z 1]]; [[byte.of_Z 7]]].
Proof. exact (pipeline_runs 1 [inc_bytes] _ _ two_runs). Defined.
