(* ===== verification/Transport.v ===== *)
(** * Transport: the transport crate's surface, the loopback and multipath

    [transport/src/lib.rs] (errors, paths), [loopback.rs], [multipath.rs] and
    the deferred bindings of [quic.rs] and [rdma.rs].  A channel of the
    loopback is the documented FIFO of the channel library: a send blocks while
    it is full, a receive while it is empty; an operation that blocks has not
    happened yet ([None]).  Channels without buffer are not covered by the
    loopback model: there a send completes only together with a receive.

    [step_fifo] is the per-operation invariant behind the delivery theorem;
    [dispatch_log] is the round robin of the multipath sink in closed form. *)

From S2P Require Import Prelude F64.

(** ** [lib.rs] *)

Inductive TransportError : Type := Closed | Full | Other (msg : string).

Inductive Path : Type := PLoopback | PQuic | PMultipathQuic | PRoceRdma | PBluefield | PRdmaTb5.

Definition substrate (p : Path) : string :=
  match p with
  | PLoopback => "loopback/UDS"
  | PQuic => "QUIC (RFC 9000)"
  | PMultipathQuic => "Multipath QUIC"
  | PRoceRdma => "RoCEv2/InfiniBand"
  | PBluefield => "BlueField-2 offload"
  | PRdmaTb5 => "RDMA-over-Thunderbolt-5"
  end.

(** ** Channels *)

(** A bounded channel: what it holds, and whether each side is still there. *)
Record Chan : Type := mkChan { ch_cap : nat; ch_queue : list bytes; ch_tx : bool; ch_rx : bool }.

Definition bounded (cap : nat) : Chan := mkChan cap [] true true.

(** [Sender::send]; [None] while it blocks. *)
Definition chan_send (c : Chan) (b : bytes) : option (Chan * outcome TransportError ()) :=
  if negb (ch_rx c) then Some (c, Err Closed)
  else if (length (ch_queue c) <? ch_cap c)%nat
  then Some (mkChan (ch_cap c) (ch_queue c ++ [b]) (ch_tx c) (ch_rx c), Ok tt)
  else None.

(** [Receiver::recv]; [None] while it blocks. *)
Definition chan_recv (c : Chan) : option (Chan * outcome TransportError bytes) :=
  match ch_queue c with
  | b :: q => Some (mkChan (ch_cap c) q (ch_tx c) (ch_rx c), Ok b)
  | [] => if ch_tx c then None else Some (c, Err Closed)
  end.

(** [Receiver::try_recv]. *)
Definition chan_try_recv (c : Chan) : Chan * outcome TransportError (option bytes) :=
  match ch_queue c with
  | b :: q => (mkChan (ch_cap c) q (ch_tx c) (ch_rx c), Ok (Some b))
  | [] => (c, if ch_tx c then Ok None else Err Closed)
  end.

(** ** [loopback.rs] *)

Inductive Side : Type := A | B.
#[global] Instance Side_eq_dec : EqDecision Side.
Proof. solve_decision. Defined.
Definition other_side (s : Side) : Side := match s with A => B | B => A end.

(** A connected pair: the channel each side sends on, and its stream counter. *)
Record Loop : Type := mkLoop { l_tx : Side → Chan; l_next : Side → Z }.

Definition loopback_pair (cap : nat) : Loop := mkLoop (λ _, bounded cap) (λ _, 0).

Definition set_side {X} (s : Side) (x : X) (f : Side → X) : Side → X :=
  λ s', if decide (s' = s) then x else f s'.

Record Stream : Type := mkStream { s_side : Side; s_session : Z; s_id : Z }.

Definition loop_open (l : Loop) (s : Side) (session_id : Z) : Loop * Stream :=
  let id := l_next l s + 1 in (mkLoop (l_tx l) (set_side s id (l_next l)), mkStream s session_id id).

Definition loop_accept (l : Loop) (s : Side) : Loop * Stream := loop_open l s 0.

(** [LoopbackSink::send]: the stream id, then the frame. *)
Definition tagged (st : Stream) (frame : bytes) : bytes := to_le 8 (s_id st) ++ frame.

Definition loop_send (l : Loop) (st : Stream) (frame : bytes) : option (Loop * outcome TransportError ()) :=
  match chan_send (l_tx l (s_side st)) (tagged st frame) with
  | Some (c, r) => Some (mkLoop (set_side (s_side st) c (l_tx l)) (l_next l), r)
  | None => None
  end.

(** The 8-byte tag is stripped, not looked at. *)
Definition strip {E} (b : bytes) : outcome E bytes := if 8 <=? zlen b then slice b 8 (zlen b) else Ok b.

Definition loop_recv (l : Loop) (st : Stream) : option (Loop * outcome TransportError bytes) :=
  match chan_recv (l_tx l (other_side (s_side st))) with
  | Some (c, r) => Some (mkLoop (set_side (other_side (s_side st)) c (l_tx l)) (l_next l), obind r strip)
  | None => None
  end.

Definition loop_try_recv (l : Loop) (st : Stream) : Loop * outcome TransportError (option bytes) :=
  let '(c, r) := chan_try_recv (l_tx l (other_side (s_side st))) in
  (mkLoop (set_side (other_side (s_side st)) c (l_tx l)) (l_next l),
   let? b := r in match b with Some b => let? b := strip b in Ok (Some b) | None => Ok None end).

(** [close] of a sink does nothing. *)
Definition loop_close {E} (l : Loop) (st : Stream) : Loop * outcome E () := (l, Ok tt).

(** ** Delivery *)

(** One operation on the pair, with what it sent or received. *)
Inductive LoopOp : Type :=
| OpOpen (s : Side) (session_id : Z)
| OpSend (st : Stream) (frame : bytes)
| OpRecv (st : Stream)
| OpTryRecv (st : Stream).

(** The frames a history has sent from [side], and the frames received by the
    other side. *)
Record LoopLog : Type := mkLog { lg_sent : Side → list bytes; lg_recv : Side → list bytes }.

Definition note {X} (s : Side) (x : X) (f : Side → list X) : Side → list X := set_side s (f s ++ [x]) f.

Definition loop_step (ll : Loop * LoopLog) (op : LoopOp) : option (Loop * LoopLog) :=
  let '(l, lg) := ll in
  match op with
  | OpOpen s sid => Some ((loop_open l s sid).1, lg)
  | OpSend st frame =>
      match loop_send l st frame with
      | Some (l, Ok _) => Some (l, mkLog (note (s_side st) frame (lg_sent lg)) (lg_recv lg))
      | Some (l, _) => Some (l, lg)
      | None => None
      end
  | OpRecv st =>
      match loop_recv l st with
      | Some (l, Ok b) => Some (l, mkLog (lg_sent lg) (note (other_side (s_side st)) b (lg_recv lg)))
      | Some (l, _) => Some (l, lg)
      | None => None
      end
  | OpTryRecv st =>
      match loop_try_recv l st with
      | (l, Ok (Some b)) => Some (l, mkLog (lg_sent lg) (note (other_side (s_side st)) b (lg_recv lg)))
      | (l, _) => Some (l, lg)
      end
  end.

Fixpoint loop_run (ll : Loop * LoopLog) (ops : list LoopOp) : option (Loop * LoopLog) :=
  match ops with
  | [] => Some ll
  | op :: ops => match loop_step ll op with Some ll => loop_run ll ops | None => None end
  end.

Definition log0 : LoopLog := mkLog (λ _, []) (λ _, []).

(** ** [multipath.rs] *)

(** The [FrameSend] trait: a sink and what a send does to it. *)
Class FrameSend (S : Type) : Type := {
  fs_send : S → bytes → outcome TransportError S;
  fs_close : S → outcome TransportError S
}.

Record MultipathSink (S : Type) : Type := mkMpSink { mp_sinks : list S; mp_next : Z }.
Arguments mkMpSink {S}. Arguments mp_sinks {S}. Arguments mp_next {S}.

Section multipath.
Context {S : Type} `{FrameSend S}.

Definition MultipathSink_new (sinks : list S) : MultipathSink S := mkMpSink sinks 0.

(** [fetch_add(1) % n]: the counter wraps at [usize]; no paths is a division by
    zero. *)
Definition next_index (next : Z) (n : Z) : Z := next mod n.

(** [send]: the counter advances whatever the sink answers. *)
Definition mp_send (m : MultipathSink S) (frame : bytes) : MultipathSink S * outcome TransportError () :=
  let n := zlen (mp_sinks m) in
  let next' := wrap 64 (mp_next m + 1) in
  if n =? 0 then (mkMpSink (mp_sinks m) next', Panic)
  else
    let i := Z.to_nat (next_index (mp_next m) n) in
    match mp_sinks m !! i with
    | None => (mkMpSink (mp_sinks m) next', Panic)
    | Some s =>
        match fs_send s frame with
        | Ok s' => (mkMpSink (<[i := s']> (mp_sinks m)) next', Ok tt)
        | Err e => (mkMpSink (mp_sinks m) next', Err e)
        | Panic => (mkMpSink (mp_sinks m) next', Panic)
        end
    end.

(** [close]: every sink is closed; the last error is the answer. *)
Fixpoint close_all (sinks : list S) (last : outcome TransportError ()) : list S * outcome TransportError () :=
  match sinks with
  | [] => ([], last)
  | s :: sinks =>
      let '(s, last) := match fs_close s with
                        | Ok s' => (s', last)
                        | Err e => (s, Err e)
                        | Panic => (s, Panic)
                        end in
      let '(sinks, last) := close_all sinks last in (s :: sinks, last)
  end.
Definition mp_close (m : MultipathSink S) : MultipathSink S * outcome TransportError () :=
  let '(sinks, r) := close_all (mp_sinks m) (Ok tt) in (mkMpSink sinks (mp_next m), r).

(** A batch of frames, every send successful. *)
Fixpoint mp_send_all (m : MultipathSink S) (frames : list bytes) : option (MultipathSink S) :=
  match frames with
  | [] => Some m
  | f :: frames => match mp_send m f with (m, Ok _) => mp_send_all m frames | _ => None end
  end.
End multipath.

(** ** The deferred bindings: [quic.rs] and [rdma.rs] *)

Record QuicConfig : Type := mkQuic {
  q_addr : string;
  max_idle_ms : Z;
  initial_window : Z;
  max_streams : Z
}.

Definition QuicConfig_default : QuicConfig := mkQuic "0.0.0.0:0" 30000 (Z.shiftl 1 20) 256.

Record RdmaConfig : Type := mkRdma {
  device : string;
  port : Z;
  gid_index : Z;
  mtu : Z;
  max_wr : Z;
  dpu_offload : bool
}.

Definition RdmaConfig_default : RdmaConfig := mkRdma "mlx5_0" 1 3 4096 1024 false.

(** [..Default::default()] with another device. *)
Definition rdma_on (device : string) (dpu_offload : bool) : RdmaConfig :=
  mkRdma device (port RdmaConfig_default) (gid_index RdmaConfig_default) (mtu RdmaConfig_default)
    (max_wr RdmaConfig_default) dpu_offload.

(** [BluefieldOffload]: a configuration, no transport. *)
Record BluefieldOffload : Type := mkBluefield { bf_cfg : RdmaConfig }.
Definition BluefieldOffload_new : BluefieldOffload := mkBluefield (rdma_on "bluefield-2" true).

(** The placeholder halves of a QUIC stream. *)
Record QuicSink : Type := mkQuicSink { q_buf : bytes }.

#[global] Instance quic_sink_send : FrameSend QuicSink := {
  fs_send _ _ := Err (Other "quic sink not yet bound");
  fs_close s := Ok s
}.

Definition quic_recv : outcome TransportError bytes := Err (Other "quic source not yet bound").
Definition quic_try_recv : outcome TransportError (option bytes) := Ok None.

(** ** Transports *)

(** The implementations of the [Transport] trait other than multipath; a loopback
    endpoint is a side of a pair. *)
Inductive Transport : Type :=
| TLoopback (pair : nat) (side : Side)
| TQuic (cfg : QuicConfig)
| TRdma (cfg : RdmaConfig)
| TTb5 (cfg : RdmaConfig).

(** [QuicTransport::new] accepts every configuration. *)
Definition QuicTransport_new (cfg : QuicConfig) : outcome TransportError Transport := Ok (TQuic cfg).
Definition RdmaTransport_new (cfg : RdmaConfig) : Transport := TRdma cfg.
Definition Tb5Transport_new : Transport := TTb5 (rdma_on "thunderbolt5" false).

Definition kind (t : Transport) : string :=
  match t with
  | TLoopback _ _ => "loopback"
  | TQuic _ => "quic"
  | TRdma _ => "rdma"
  | TTb5 _ => "rdma-tb5"
  end.

Definition World : Type := list Loop.
(** A stream, and the pair it runs over. *)
Definition NetStream : Type := (nat * Stream)%type.

Definition transport_open (w : World) (t : Transport) (session_id : Z) : World * outcome TransportError NetStream :=
  match t with
  | TLoopback p s =>
      match w !! p with
      | Some l => let '(l, st) := loop_open l s session_id in (<[p := l]> w, Ok (p, st))
      | None => (w, Panic)
      end
  | TQuic _ => (w, Err (Other "QUIC transport is deferred to the second pass; use LoopbackTransport"))
  | TRdma _ => (w, Err (Other "RDMA verbs binding is second pass"))
  | TTb5 _ => (w, Err (Other "RDMA-over-TB5 binding is second pass"))
  end.

Definition transport_accept (w : World) (t : Transport) : World * outcome TransportError NetStream :=
  match t with
  | TLoopback p s =>
      match w !! p with
      | Some l => let '(l, st) := loop_accept l s in (<[p := l]> w, Ok (p, st))
      | None => (w, Panic)
      end
  | TQuic _ => (w, Err (Other "QUIC accept deferred to second pass"))
  | TRdma _ => (w, Err (Other "RDMA accept is second pass"))
  | TTb5 _ => (w, Err (Other "TB5 accept is second pass"))
  end.

(** A multipath transport over such transports. *)
Record MultipathTransport : Type := mkMp { paths : list Transport; weights : list f32; mpt_next : Z }.

Definition MultipathTransport_new (ps : list Transport) (ws : list f32) : MultipathTransport :=
  mkMp ps (if zlen ws =? zlen ps then ws else replicate (length ps) (f32_of_usize 1)) 0.

(** [mp_pick]: the weights are not used; the counter advances. *)
Definition mp_pick {E} (m : MultipathTransport) : MultipathTransport * outcome E nat :=
  let m' := mkMp (paths m) (weights m) (wrap 64 (mpt_next m + 1)) in
  if zlen (paths m) =? 0 then (m', Panic)
  else (m', Ok (Z.to_nat (next_index (mpt_next m) (zlen (paths m))))).

Definition mp_open (w : World) (m : MultipathTransport) (session_id : Z)
    : World * MultipathTransport * outcome TransportError NetStream :=
  match mp_pick (E:=TransportError) m with
  | (m, Ok i) => match paths m !! i with
                 | Some p => let '(w, r) := transport_open w p session_id in (w, m, r)
                 | None => (w, m, Panic)
                 end
  | (m, Err e) => (w, m, Err e)
  | (m, Panic) => (w, m, Panic)
  end.

(** [accept]: the first path that accepts. *)
Fixpoint accept_any (w : World) (ps : list Transport) : World * outcome TransportError NetStream :=
  match ps with
  | [] => (w, Err Closed)
  | p :: ps =>
      match transport_accept w p with
      | (w, Ok s) => (w, Ok s)
      | (w, Panic) => (w, Panic)
      | (w, Err _) => accept_any w ps
      end
  end.
Definition mp_accept (w : World) (m : MultipathTransport) : World * outcome TransportError NetStream :=
  accept_any w (paths m).

(** Only loopback paths carry streams today: opening over any other transport
    fails and changes nothing, so a multipath accept returns a stream of the
    first loopback path, and none if there is none. *)
Lemma deferred_refuse w t sid :
  kind t ≠ "loopback"%string →
  (∃ e, transport_open w t sid = (w, Err e)) ∧ (∃ e, transport_accept w t = (w, Err e)).
Proof. destruct t; intros H; [by destruct H|split; eexists; done..]. Qed.

Lemma accept_first_loopback w ts p s l ps :
  Forall (λ t, kind t ≠ "loopback"%string) ts → w !! p = Some l →
  accept_any w (ts ++ TLoopback p s :: ps) = (<[p := (loop_accept l s).1]> w, Ok (p, (loop_accept l s).2)).
Proof.
  intros Hts Hp. induction Hts as [|t ts Ht _ IH]; cbn [app accept_any].
  - cbn [transport_accept]. rewrite Hp. by destruct (loop_accept l s).
  - destruct (proj2 (deferred_refuse w t 0 Ht)) as [e ->]. exact IH.
Qed.

(** ** Loopback delivery *)

Record loop_ok (cap : nat) (l : Loop) (lg : LoopLog) (s : Side) : Prop := {
  lo_fifo : lg_sent lg s = lg_recv lg s ++ (zdrop 8 <$> ch_queue (l_tx l s));
  lo_tagged : Forall (λ b, 8 ≤ zlen b) (ch_queue (l_tx l s));
  lo_cap : ch_cap (l_tx l s) = cap ∧ (length (ch_queue (l_tx l s)) ≤ cap)%nat;
  lo_alive : ch_tx (l_tx l s) = true ∧ ch_rx (l_tx l s) = true
}.

Lemma set_side_eq {X} s (x : X) f : set_side s x f s = x.
Proof. unfold set_side. by rewrite decide_True. Qed.
Lemma set_side_ne {X} s s' (x : X) f : s' ≠ s → set_side s x f s' = f s'.
Proof. intros. unfold set_side. by rewrite decide_False. Qed.

Lemma strip_ok {E} b : 8 ≤ zlen b → strip (E:=E) b = Ok (zdrop 8 b).
Proof.
  intros Hb. unfold strip. rewrite (proj2 (Z.leb_le _ _)), slice_ok by lia. f_equal.
  unfold ztake, zdrop. apply take_ge. rewrite length_drop. unfold zlen in *. lia.
Qed.

Lemma tagged_ok st frame : zdrop 8 (tagged st frame) = frame ∧ 8 ≤ zlen (tagged st frame).
Proof.
  unfold tagged. split; [apply zdrop_app; by rewrite zlen_to_le|]. rewrite zlen_app, zlen_to_le.
  pose proof (zlen_nonneg frame). lia.
Qed.

(** Taking the head of a channel and noting it. *)
Lemma loop_ok_take cap l lg s b q nx :
  loop_ok cap l lg s → ch_queue (l_tx l s) = b :: q →
  strip (E:=TransportError) b = Ok (zdrop 8 b) ∧
  loop_ok cap (mkLoop (set_side s (mkChan (ch_cap (l_tx l s)) q (ch_tx (l_tx l s)) (ch_rx (l_tx l s))) (l_tx l)) nx)
    (mkLog (lg_sent lg) (note s (zdrop 8 b) (lg_recv lg))) s.
Proof.
  intros [Hf Ht [Hc Hl] Ha] Hq. rewrite Hq in *. inversion_clear Ht as [|? ? Hb Ht']. split; [by apply strip_ok|].
  split; cbn [l_tx lg_sent lg_recv]; rewrite ?set_side_eq; cbn [ch_queue ch_cap ch_tx ch_rx].
  - unfold note. rewrite set_side_eq, Hf, <-app_assoc. done.
  - done.
  - cbn in Hl. split; [done|lia].
  - done.
Qed.

Lemma loop_ok_other cap l lg s s' c nx sent recv :
  loop_ok cap l lg s' → s' ≠ s → sent s' = lg_sent lg s' → recv s' = lg_recv lg s' →
  loop_ok cap (mkLoop (set_side s c (l_tx l)) nx) (mkLog sent recv) s'.
Proof. intros [Hf Ht Hc Ha] Hne Hs Hr. split; cbn; rewrite ?set_side_ne, ?Hs, ?Hr by done; done. Qed.

(** Every operation keeps the books of both directions. *)
Lemma step_fifo cap l lg op l' lg' :
  (∀ s, loop_ok cap l lg s) → loop_step (l, lg) op = Some (l', lg') → ∀ s, loop_ok cap l' lg' s.
Proof.
  intros Hok. destruct op as [s0 sid|st frame|st|st]; cbn [loop_step].
  - intros [= <- <-] s. destruct (Hok s). by split.
  - unfold loop_send, chan_send. destruct (Hok (s_side st)) as [Hf Ht [Hc Hl] [Ha Hr]]. rewrite Hr. cbn [negb].
    destruct (Nat.ltb_spec (length (ch_queue (l_tx l (s_side st)))) (ch_cap (l_tx l (s_side st)))); [|done].
    intros [= <- <-] s. destruct (decide (s = s_side st)) as [->|Hne].
    + destruct (tagged_ok st frame) as [Hz Hg].
      split; cbn [l_tx lg_sent lg_recv]; unfold note; rewrite ?set_side_eq; cbn [ch_queue ch_cap ch_tx ch_rx].
      * rewrite Hf, fmap_app. cbn. by rewrite Hz, app_assoc.
      * apply Forall_app. split; [done|]. by constructor.
      * rewrite length_app. cbn. split; [done|lia].
      * done.
    + eapply loop_ok_other; [apply Hok|done| |done]. unfold note. by rewrite set_side_ne.
  - unfold loop_recv, chan_recv. set (s0 := other_side (s_side st)). pose proof (Hok s0) as Hs0.
    destruct (ch_queue (l_tx l s0)) as [|b q] eqn:Hq.
    { by rewrite (proj1 (lo_alive _ _ _ _ Hs0)). }
    destruct (loop_ok_take cap l lg s0 b q (l_next l) Hs0 Hq) as [Hst Hok']. cbn [obind]. rewrite Hst.
    intros [= <- <-] s. destruct (decide (s = s0)) as [->|Hne]; [exact Hok'|].
    eapply loop_ok_other; [apply Hok|done|done|]. unfold note. by rewrite set_side_ne.
  - unfold loop_try_recv, chan_try_recv. set (s0 := other_side (s_side st)). pose proof (Hok s0) as Hs0.
    destruct (ch_queue (l_tx l s0)) as [|b q] eqn:Hq.
    { rewrite (proj1 (lo_alive _ _ _ _ Hs0)). cbn. intros [= <- <-] s.
      destruct (Hok s) as [Hf Ht Hc Ha]. unfold set_side.
      split; cbn; (destruct (decide (s = s0)) as [->|]; done). }
    destruct (loop_ok_take cap l lg s0 b q (l_next l) Hs0 Hq) as [Hst Hok']. cbn [obind]. rewrite Hst. cbn [obind].
    intros [= <- <-] s. destruct (decide (s = s0)) as [->|Hne]; [exact Hok'|].
    eapply loop_ok_other; [apply Hok|done|done|]. unfold note. by rewrite set_side_ne.
Qed.

Lemma loop_run_ok cap ops : ∀ l lg l' lg',
  (∀ s, loop_ok cap l lg s) → loop_run (l, lg) ops = Some (l', lg') → ∀ s, loop_ok cap l' lg' s.
Proof.
  induction ops as [|op ops IH]; intros l lg l' lg' Hok; cbn [loop_run]; [by intros [= <- <-]|].
  destruct (loop_step (l, lg) op) as [[l1 lg1]|] eqn:E; [|done]. apply IH. by eapply step_fifo.
Qed.

(** C33: Loopback delivery.  After any history of opens, sends and receives on the
    streams of a pair, and in each direction, the frames sent are exactly the
    frames received by the peer followed by those still in the channel: none is
    lost, doubled, reordered or altered by the tag, and at most [cap] are in
    flight. *)
Theorem loopback_delivery cap ops l lg s :
  loop_run (loopback_pair cap, log0) ops = Some (l, lg) →
  lg_sent lg s = lg_recv lg s ++ (zdrop 8 <$> ch_queue (l_tx l s)) ∧ (length (ch_queue (l_tx l s)) ≤ cap)%nat.
Proof.
  intros E. assert (∀ s, loop_ok cap (loopback_pair cap) log0 s) as H0.
  { intros s'. split; cbn; [done|constructor|split; [done|lia]|done]. }
  destruct (loop_run_ok cap ops _ _ _ _ H0 E s) as [Hf _ [_ Hc] _]. by split.
Qed.

(** The tag is never read: every stream of an endpoint receives from the one
    channel, whatever stream the peer sent on. *)
Lemma streams_share_channel l st st' : s_side st = s_side st' → loop_recv l st = loop_recv l st'.
Proof. intros E. unfold loop_recv. by rewrite E. Qed.

(** ** The round robin *)

(** What path [i] of [n] gets of [frames] when the counter is at [c]. *)
Fixpoint stripe (n i c : Z) (frames : list bytes) : list bytes :=
  match frames with
  | [] => []
  | f :: frames => if c mod n =? i then f :: stripe n i (wrap 64 (c + 1)) frames else stripe n i (wrap 64 (c + 1)) frames
  end.

Section sinks.
Context {S : Type} `{FrameSend S}.

Fixpoint send_many (s : S) (frames : list bytes) : outcome TransportError S :=
  match frames with
  | [] => Ok s
  | f :: frames => let? s := fs_send s f in send_many s frames
  end.

Lemma dispatch_log frames : ∀ m m' i s,
  mp_send_all m frames = Some m' → mp_sinks m !! i = Some s →
  length (mp_sinks m') = length (mp_sinks m) ∧
  ∃ s', mp_sinks m' !! i = Some s' ∧
    send_many s (stripe (zlen (mp_sinks m)) (Z.of_nat i) (mp_next m) frames) = Ok s'.
Proof.
  induction frames as [|f frames IH]; intros m m' i s; cbn [mp_send_all stripe].
  { intros [= <-] Hi. split; [done|]. by exists s. }
  unfold mp_send. destruct (Z.eqb_spec (zlen (mp_sinks m)) 0) as [|Hn]; [done|].
  unfold next_index. pose proof (zlen_nonneg (mp_sinks m)).
  pose proof (Z.mod_pos_bound (mp_next m) (zlen (mp_sinks m)) ltac:(lia)) as Hb.
  set (j := Z.to_nat _). destruct (mp_sinks m !! j) as [sj|] eqn:Hj; [|done].
  destruct (fs_send sj f) as [sj'| |] eqn:Hs; [|done..]. intros Hall Hi.
  destruct (Z.eqb_spec (mp_next m mod zlen (mp_sinks m)) (Z.of_nat i)) as [E|Hne].
  - assert (j = i) as Hji by (unfold j; lia). rewrite Hji in *. rewrite Hi in Hj. injection Hj as <-.
    destruct (IH _ _ i sj' Hall) as [Hl (s' & Hs' & Hm)]; [cbn; by apply list_lookup_insert_eq; eapply lookup_lt_Some|].
    cbn in Hl, Hm. rewrite length_insert in Hl. split; [done|]. exists s'. split; [done|].
    cbn. rewrite Hs. cbn. unfold zlen in *. by rewrite length_insert in Hm.
  - assert (j ≠ i) as Hji by (unfold j; lia).
    destruct (IH _ _ i s Hall) as [Hl (s' & Hs' & Hm)]; [cbn; by rewrite list_lookup_insert_ne|].
    cbn in Hl, Hm. rewrite length_insert in Hl. split; [done|]. exists s'. split; [done|].
    unfold zlen in *. by rewrite length_insert in Hm.
Qed.
End sinks.

Lemma concat_insert_cons {A} (ls : list (list A)) i l x :
  ls !! i = Some l → concat (<[i := x :: l]> ls) ≡ₚ x :: concat ls.
Proof.
  revert i. induction ls as [|k ls IH]; intros [|i] Hi; cbn in Hi; try done.
  - injection Hi as ->. done.
  - change (<[Datatypes.S i := x :: l]> (k :: ls)) with (k :: <[i := x :: l]> ls). cbn.
    rewrite (IH i Hi). by rewrite Permutation_middle.
Qed.

(** The stripes together are the frames. *)
Lemma stripes_perm n frames : ∀ c,
  (0 < n)%nat → concat ((λ i, stripe (Z.of_nat n) (Z.of_nat i) c frames) <$> seq 0 n) ≡ₚ frames.
Proof.
  induction frames as [|f frames IH]; intros c Hn; cbn [stripe].
  { clear. generalize 0%nat. induction n; intros k; cbn; auto. }
  pose proof (Z.mod_pos_bound c (Z.of_nat n) ltac:(lia)) as Hb. set (j := Z.to_nat (c mod Z.of_nat n)).
  set (ls := (λ i, stripe (Z.of_nat n) (Z.of_nat i) (wrap 64 (c + 1)) frames) <$> seq 0 n).
  assert (ls !! j = Some (stripe (Z.of_nat n) (Z.of_nat j) (wrap 64 (c + 1)) frames)) as Hj.
  { unfold ls. rewrite list_lookup_fmap, lookup_seq_lt by (unfold j; lia). done. }
  assert (((λ i, if c mod Z.of_nat n =? Z.of_nat i
            then f :: stripe (Z.of_nat n) (Z.of_nat i) (wrap 64 (c + 1)) frames
            else stripe (Z.of_nat n) (Z.of_nat i) (wrap 64 (c + 1)) frames) <$> seq 0 n)
          = <[j := f :: stripe (Z.of_nat n) (Z.of_nat j) (wrap 64 (c + 1)) frames]> ls) as ->.
  { apply list_eq. intros i. destruct (decide (i < n)%nat) as [Hi|Hi].
    - rewrite list_lookup_fmap, lookup_seq_lt by done. cbn [fmap option_fmap option_map Nat.add].
      destruct (decide (i = j)) as [->|Hij].
      + rewrite list_lookup_insert_eq by (unfold ls; rewrite length_fmap, length_seq; lia).
        rewrite (proj2 (Z.eqb_eq _ _)) by (unfold j; lia). done.
      + rewrite list_lookup_insert_ne by done. unfold ls.
        rewrite list_lookup_fmap, lookup_seq_lt by done. cbn [fmap option_fmap option_map Nat.add].
        rewrite (proj2 (Z.eqb_neq _ _)) by (unfold j in Hij; lia). done.
    - rewrite !lookup_ge_None_2; [done|..]; rewrite ?length_insert; unfold ls; rewrite ?length_fmap, ?length_seq; lia. }
  rewrite (concat_insert_cons _ _ _ _ Hj). unfold ls. by rewrite IH.
Qed.

(** The number of frames on path [i], while the counter does not wrap. *)
Lemma stripe_length n i frames : ∀ c,
  0 < n → 0 ≤ i < n → 0 ≤ c → c + zlen frames ≤ 2 ^ 64 →
  zlen (stripe n i c frames) = (c + zlen frames + (n - 1 - i)) / n - (c + (n - 1 - i)) / n.
Proof.
  induction frames as [|f frames IH]; intros c Hn Hi Hc Hw; cbn [stripe].
  { rewrite zlen_nil, Z.add_0_r. lia. }
  rewrite zlen_cons in *. pose proof (zlen_nonneg frames).
  assert (zlen frames = 0 ∨ wrap 64 (c + 1) = c + 1) as Hcase.
  { destruct (decide (zlen frames = 0)); [by left|right]. unfold wrap. apply Z.mod_small. lia. }
  assert (zlen (stripe n i (wrap 64 (c + 1)) frames)
          = (c + 1 + zlen frames + (n - 1 - i)) / n - (c + 1 + (n - 1 - i)) / n) as E.
  { destruct Hcase as [H0| ->]; [|apply IH; lia].
    destruct frames; [|rewrite zlen_cons in H0; pose proof (zlen_nonneg frames); lia].
    cbn [stripe]. rewrite zlen_nil, Z.add_0_r. lia. }
  assert ((c + 1 + (n - 1 - i)) / n = (c + (n - 1 - i)) / n + if c mod n =? i then 1 else 0) as Hstep.
  { pose proof (Z.div_mod c n ltac:(lia)). pose proof (Z.mod_pos_bound c n Hn). set (q := c / n) in *. set (r := c mod n) in *.
    destruct (Z.eqb_spec r i) as [->|Hne].
    - rewrite <-(Z.div_unique_pos (c + 1 + (n - 1 - i)) n (q + 1) 0) by lia.
      rewrite <-(Z.div_unique_pos (c + (n - 1 - i)) n q (n - 1)) by lia. lia.
    - destruct (decide (r < i)).
      + rewrite <-(Z.div_unique_pos (c + 1 + (n - 1 - i)) n q (r + n - i)) by lia.
        rewrite <-(Z.div_unique_pos (c + (n - 1 - i)) n q (r + n - 1 - i)) by lia. lia.
      + rewrite <-(Z.div_unique_pos (c + 1 + (n - 1 - i)) n (q + 1) (r - i)) by lia.
        rewrite <-(Z.div_unique_pos (c + (n - 1 - i)) n (q + 1) (r - i - 1)) by lia. lia. }
  replace (c + (1 + zlen frames) + (n - 1 - i)) with (c + 1 + zlen frames + (n - 1 - i)) by lia.
  destruct (c mod n =? i); rewrite ?zlen_cons, E, Hstep; lia.
Qed.

(** The multipath sink spreads a batch.  When every send succeeds, each path
    has received, in order, exactly its stripe of the frames; the stripes
    together are the batch, and their lengths differ by at most one. *)
Theorem multipath_spread {S} `{FrameSend S} (sinks : list S) frames m :
  mp_send_all (MultipathSink_new sinks) frames = Some m → sinks ≠ [] → zlen frames ≤ 2 ^ 64 →
  (∀ i s, sinks !! i = Some s → ∃ s', mp_sinks m !! i = Some s' ∧
     send_many s (stripe (zlen sinks) (Z.of_nat i) 0 frames) = Ok s') ∧
  concat ((λ i, stripe (zlen sinks) (Z.of_nat i) 0 frames) <$> seq 0 (length sinks)) ≡ₚ frames ∧
  (∀ i, (i < length sinks)%nat →
     zlen frames / zlen sinks ≤ zlen (stripe (zlen sinks) (Z.of_nat i) 0 frames) ≤ zlen frames / zlen sinks + 1).
Proof.
  intros Hall Hne Hlen. assert (0 < length sinks)%nat as Hn by (destruct sinks; [done|cbn; lia]). split_and!.
  - intros i s Hi. destruct (dispatch_log frames _ _ i s Hall Hi) as [_ Hs]. exact Hs.
  - by apply stripes_perm.
  - intros i Hi. set (n := zlen sinks). assert (0 < n ∧ 0 ≤ Z.of_nat i < n) as [Hn0 Hi0] by (unfold n, zlen; lia).
    rewrite stripe_length by lia. set (L := zlen frames) in *. pose proof (zlen_nonneg frames).
    rewrite Z.add_0_l, (Z.div_small (0 + (n - 1 - Z.of_nat i))) by lia.
    pose proof (Z.div_mod L n ltac:(lia)). pose proof (Z.mod_pos_bound L n Hn0).
    split; [rewrite Z.sub_0_r; apply Z.div_le_mono; lia|].
    rewrite Z.sub_0_r. apply Z.lt_succ_r, Z.div_lt_upper_bound; [done|]. nia.
Qed.

(** ** Witnesses *)

Definition sA : Stream := mkStream A 7 1.
Definition sB : Stream := mkStream B 0 1.
Definition loop_history : list LoopOp :=
  [OpOpen A 7; OpOpen B 0; OpSend sA [Byte.x01]; OpSend sA [Byte.x02; Byte.x03]; OpRecv sB; OpSend sB []; OpTryRecv sA].

Lemma loopback_delivery_witness :
  ∃ l lg, loop_run (loopback_pair 2, log0) loop_history = Some (l, lg) ∧
    lg_sent lg A = lg_recv lg A ++ (zdrop 8 <$> ch_queue (l_tx l A)) ∧ (length (ch_queue (l_tx l A)) ≤ 2)%nat.
Proof.
  eexists _, _. split; [reflexivity|]. apply (loopback_delivery 2 loop_history). reflexivity.
Defined.

(** A sink that keeps what it is sent. *)
#[global] Instance log_sink : FrameSend (list bytes) := {| fs_send s f := Ok (s ++ [f]); fs_close s := Ok s |}.

Definition five : list bytes := [[Byte.x00]; [Byte.x01]; [Byte.x02]; [Byte.x03]; [Byte.x04]].

Lemma multipath_spread_witness :
  ∃ m, mp_send_all (MultipathSink_new [[]; []]) five = Some m ∧
    concat ((λ i, stripe 2 (Z.of_nat i) 0 five) <$> seq 0 2) ≡ₚ five.
Proof.
  eexists. split; [reflexivity|].
  refine (proj1 (proj2 (multipath_spread [[]; []] five _ _ _ _))); [reflexivity|done|by vm_compute].
Defined.
