(* ===== verification/Zeckendorf.v ===== *)
(** * Zeckendorf: the self-delimiting integers of [coding/src/zeckendorf.rs]

    Codewords, the bit-continuous stream and its decoder.  Bit positions are
    [usize], kept in [nat] (a buffer fits in memory, so none of their sums
    overflows); values are [u64], kept in [Z].  The additions that the source
    leaves unchecked ([n + 1] in [push], [v - 1] in [decode_all]) panic in a
    build with overflow checks and wrap in the release profile: [checks] says
    which build it is.  The theorems hold in both.

    [push_all_spec] and [codeword_decode] give the round trip of a stream; the
    self-synchronisation of the decoder is [relock]. *)

From stdpp Require Import relations.
From S2P Require Import Prelude.

(** ** The table *)

Definition u64_max : Z := 2 ^ 64 - 1.

(** The loop of [fib_table]: the two last entries and the rest, newest first. *)
Fixpoint fib_extend (fuel : nat) (last prev : Z) (f : list Z) : list Z :=
  match fuel with
  | O => f
  | S fuel' =>
      if last <=? u64_max / 2
      then let n := wrap 64 (last + prev) in fib_extend fuel' n last (f ++ [n])
      else f
  end.

(** The entries at least double every other turn, so 128 turns are enough. *)
Definition fib_table : list Z := Eval vm_compute in fib_extend 128 2 1 [1; 2].

(** ** Bits of a buffer *)

Definition bit_at (buf : bytes) (i : nat) : Z :=
  match buf !! Nat.shiftr i 3 with
  | None => 0
  | Some b => Z.land (Z.shiftr (byte.unsigned b) (Z.of_nat (Nat.land i 7))) 1
  end.

(** [buf[i >> 3] |= 1 << (i & 7)]: panics out of range. *)
Definition set_bit {E} (buf : bytes) (i : nat) : outcome E bytes :=
  match buf !! Nat.shiftr i 3 with
  | None => Panic
  | Some b =>
      Ok (<[Nat.shiftr i 3 :=
              byte.of_Z (Z.lor (byte.unsigned b) (Z.shiftl 1 (Z.of_nat (Nat.land i 7))))]> buf)
  end.

Definition div_ceil8 (n : nat) : nat := ((n + 7) / 8)%nat.

(** ** One codeword *)

(** The number of leading table entries that are at most [n]. *)
Fixpoint find_hi (fibs : list Z) (n : Z) (hi : nat) : nat :=
  match fibs with
  | f :: fibs => if f <=? n then find_hi fibs n (S hi) else hi
  | [] => hi
  end.

(** The greedy loop, from index [idx] down. *)
Fixpoint greedy {E} (idx : nat) (rem : Z) (out : bytes) : outcome E bytes :=
  match idx with
  | O => Ok out
  | S idx =>
      let? f := index fib_table (Z.of_nat idx) in
      if f <=? rem
      then let? out := set_bit out idx in greedy idx (rem - f) out
      else greedy idx rem out
  end.

Definition zeck_encode {E} (n : Z) : outcome E bytes :=
  if n <=? 0 then Panic
  else
    let hi := find_hi fib_table n 0 in
    let nbits := S hi in
    let? out := greedy hi n (replicate (div_ceil8 nbits) Byte.x00) in
    set_bit out hi.

(** The value of the data bits [start .. start + n_data]. *)
Definition decode_value (bits : bytes) (start n_data : nat) : Z :=
  foldl (λ val fib_idx,
           if bit_at bits (start + fib_idx) =? 0 then val
           else match fib_table !! fib_idx with
                | Some f => wrap 64 (val + f)
                | None => val
                end) 0 (seq 0 n_data).

(** The scan for the terminator from bit [i]; the buffer has
    [8 * length bits] bits, so that many turns are enough. *)
Fixpoint decode_scan (fuel : nat) (bits : bytes) (start i : nat) : option (Z * nat) :=
  match fuel with
  | O => None
  | S fuel =>
      if (length bits <=? Nat.shiftr i 3)%nat then None
      else if (bit_at bits i =? 1) && (bit_at bits (i + 1) =? 1)
      then
        let term := (i + 1)%nat in
        let n_data := (term - start)%nat in
        if (n_data =? 0)%nat then Some (0, (term + 1 - start)%nat)
        else Some (decode_value bits start n_data, (term + 1 - start)%nat)
      else decode_scan fuel bits start (S i)
  end.

Definition decode_at (bits : bytes) (start : nat) : option (Z * nat) :=
  decode_scan (S (8 * length bits)) bits start start.

Definition zeck_decode (bits : bytes) : option (Z * nat) := decode_at bits 0.

(** ** Streams *)

Record ZeckStream : Type := mkZeck { zs_buf : bytes; zs_bits : nat }.

Definition ZeckStream_new : ZeckStream := mkZeck [] 0.

(** [u8::leading_zeros]. *)
Definition leading_zeros8 (b : byte) : nat :=
  if byte.unsigned b =? 0 then 8%nat else Z.to_nat (7 - Z.log2 (byte.unsigned b)).

(** The search of [codeword_nbits] from the last byte, [bi] bytes to go. *)
Fixpoint nbits_from (cw : bytes) (bi : nat) : nat :=
  match bi with
  | O => O
  | S bi =>
      match cw !! bi with
      | Some b => if bool_decide (b = Byte.x00) then nbits_from cw bi
                  else (bi * 8 + 8 - leading_zeros8 b)%nat
      | None => nbits_from cw bi
      end
  end.
Definition codeword_nbits (cw : bytes) : nat := nbits_from cw (length cw).

(** Bits [j .. j + todo] of the codeword into the buffer at offset [base]. *)
Fixpoint copy_bits {E} (todo j : nat) (cw : bytes) (base : nat) (buf : bytes) : outcome E bytes :=
  match todo with
  | O => Ok buf
  | S todo =>
      let? b := index cw (Z.of_nat (Nat.shiftr j 3)) in
      let? buf :=
        if Z.land (Z.shiftr (byte.unsigned b) (Z.of_nat (Nat.land j 7))) 1 =? 1
        then set_bit buf (base + j) else Ok buf in
      copy_bits todo (S j) cw base buf
  end.

Section stream.
Context (checks : bool) {E : Type}.

(** An unchecked [u64] operation with the exact result [z]. *)
Definition u64_arith (z : Z) : outcome E Z :=
  if (0 <=? z) && (z <=? u64_max) then Ok z
  else if checks then Panic else Ok (wrap 64 z).

Definition push (s : ZeckStream) (n : Z) : outcome E ZeckStream :=
  let? m := u64_arith (n + 1) in
  let? cw := zeck_encode m in
  let nbits := codeword_nbits cw in
  let need := div_ceil8 (zs_bits s + nbits) in
  let buf := if (length (zs_buf s) <? need)%nat then resize need Byte.x00 (zs_buf s) else zs_buf s in
  let? buf := copy_bits nbits 0 cw (zs_bits s) buf in
  Ok (mkZeck buf (zs_bits s + nbits)).

Fixpoint push_all (s : ZeckStream) (ns : list Z) : outcome E ZeckStream :=
  match ns with
  | [] => Ok s
  | n :: ns => let? s := push s n in push_all s ns
  end.

Definition zs_finish (s : ZeckStream) : bytes := zs_buf s.

(** A codeword is at least two bits long, so the bits of the buffer bound the
    turns of the loop (lemma [decode_loop_fuel]). *)
Fixpoint decode_loop (fuel : nat) (buf : bytes) (i : nat) (out : list Z) : outcome E (list Z) :=
  match fuel with
  | O => Ok out
  | S fuel =>
      match decode_at buf i with
      | Some (v, used) => let? n := u64_arith (v - 1) in decode_loop fuel buf (i + used) (out ++ [n])
      | None => Ok out
      end
  end.

Definition decode_all (buf : bytes) : outcome E (list Z) :=
  decode_loop (S (8 * length buf)) buf 0 [].
End stream.

(** The unit tests of the source. *)
Example stream_test :
  (let? s := push_all true (E:=unit) ZeckStream_new [0; 1; 5; 9; 42; 1000] in
   decode_all true (zs_finish s)) = Ok [0; 1; 5; 9; 42; 1000].
Proof. vm_compute. reflexivity. Qed.

Example codeword_test :
  Forall (λ n, (let? cw := zeck_encode (E:=unit) n in
                ok_or (zeck_decode cw) tt) = Ok (n, match zeck_encode (E:=unit) n with
                                                    | Ok cw => codeword_nbits cw | _ => O end))
    [1; 2; 3; 7; 10; 100; 1000000; u64_max / 2; u64_max].
Proof. repeat constructor; vm_compute; reflexivity. Qed.

(** ** Bits, as booleans *)

Definition bit (buf : bytes) (i : nat) : bool :=
  match buf !! (i / 8)%nat with
  | None => false
  | Some b => Z.testbit (byte.unsigned b) (Z.of_nat (i mod 8))
  end.

Lemma shiftr3 i : Nat.shiftr i 3 = (i / 8)%nat.
Proof. by rewrite Nat.shiftr_div_pow2. Qed.

Lemma land7 i : Nat.land i 7 = (i mod 8)%nat.
Proof. change 7%nat with (Nat.ones 3). by rewrite Nat.land_ones. Qed.

Lemma land_shiftr_bit z k : 0 ≤ k → Z.land (Z.shiftr z k) 1 = Z.b2z (Z.testbit z k).
Proof.
  intros Hk. change 1 with (Z.ones 1) at 1. rewrite Z.land_ones by lia. change (2 ^ 1) with 2. rewrite <-Z.bit0_mod.
  by rewrite Z.shiftr_spec.
Qed.

Lemma bit_at_bit buf i : bit_at buf i = Z.b2z (bit buf i).
Proof.
  unfold bit_at, bit. rewrite shiftr3, land7. destruct (buf !! _); [|done].
  apply land_shiftr_bit. lia.
Qed.

Lemma bit_at_1 buf i : (bit_at buf i =? 1) = bit buf i.
Proof. rewrite bit_at_bit. by destruct (bit buf i). Qed.

Lemma bit_at_0 buf i : (bit_at buf i =? 0) = negb (bit buf i).
Proof. rewrite bit_at_bit. by destruct (bit buf i). Qed.

Lemma bit_out buf i : (8 * length buf ≤ i)%nat → bit buf i = false.
Proof.
  intros Hi. unfold bit. rewrite lookup_ge_None_2; [done|]. by apply Nat.div_le_lower_bound; lia.
Qed.

Lemma bit_zeros n i : bit (replicate n Byte.x00) i = false.
Proof.
  unfold bit. destruct (decide (i / 8 < n)%nat).
  - rewrite lookup_replicate_2 by done. apply Z.bits_0.
  - by rewrite lookup_ge_None_2 by (rewrite length_replicate; lia).
Qed.

Lemma bit_app buf k i : (i < 8 * length buf)%nat → bit (buf ++ k) i = bit buf i.
Proof. intros Hi. unfold bit. rewrite lookup_app_l; [done|]. apply Nat.Div0.div_lt_upper_bound. lia. Qed.

Lemma byte_or_bit b k j :
  0 ≤ k < 8 → 0 ≤ j < 8 →
  Z.testbit (byte.unsigned (byte.of_Z (Z.lor (byte.unsigned b) (Z.shiftl 1 k)))) j
  = Z.testbit (byte.unsigned b) j || (j =? k).
Proof.
  intros Hk Hj. rewrite byte.unsigned_of_Z. unfold byte.wrap.
  rewrite Z.mod_pow2_bits_low by lia. rewrite Z.lor_spec. f_equal.
  rewrite Z.shiftl_1_l, Z.pow2_bits_eqb by lia. apply Z.eqb_sym.
Qed.

(** Setting a bit in range changes that bit only. *)
Lemma set_bit_ok {E} buf i :
  (i < 8 * length buf)%nat →
  ∃ buf', set_bit (E:=E) buf i = Ok buf' ∧ length buf' = length buf ∧
    ∀ j, bit buf' j = bit buf j || (j =? i)%nat.
Proof.
  intros Hi. assert (i / 8 < length buf)%nat as Hq by (apply Nat.Div0.div_lt_upper_bound; lia).
  unfold set_bit. rewrite shiftr3, land7.
  destruct (lookup_lt_is_Some_2 _ _ Hq) as [b Hb]. rewrite Hb.
  eexists; split; [done|]; split; [apply length_insert|]. intros j. unfold bit.
  destruct (decide (i / 8 = j / 8)%nat) as [Heq|Hne].
  - rewrite <-Heq, list_lookup_insert_eq by done. rewrite Hb.
    rewrite byte_or_bit; [|pose proof (Nat.mod_upper_bound i 8); lia|pose proof (Nat.mod_upper_bound j 8); lia].
    f_equal. pose proof (Nat.div_mod_eq i 8). pose proof (Nat.div_mod_eq j 8).
    destruct (Nat.eqb_spec j i); [apply Z.eqb_eq; by subst|apply Z.eqb_neq; lia].
  - rewrite list_lookup_insert_ne by done.
    destruct (Nat.eqb_spec j i) as [->|]; [done|]. by rewrite orb_false_r.
Qed.

(** ** Fibonacci numbers *)

Fixpoint fib_pair (n : nat) : Z * Z :=
  match n with O => (1, 2) | S n => let '(a, b) := fib_pair n in (b, a + b) end.
Definition fib (n : nat) : Z := (fib_pair n).1.

Lemma fib_SS n : fib (S (S n)) = fib (S n) + fib n.
Proof. unfold fib. simpl. destruct (fib_pair n). simpl. lia. Qed.

Lemma fib_mono n : 1 ≤ fib n < fib (S n).
Proof.
  induction n as [|n IH]; [done|]. rewrite fib_SS. lia.
Qed.

Lemma fib_mono_le n m : (n ≤ m)%nat → fib n ≤ fib m.
Proof. induction 1 as [|m _ IH]; [done|]. pose proof (fib_mono m). lia. Qed.

(** The table holds every Fibonacci number below [2 ^ 64]. *)
Lemma fib_table_spec : fib_table = fib <$> seq 0 92.
Proof. vm_compute. reflexivity. Qed.

Lemma fib_table_next : u64_max < fib 92.
Proof. vm_compute. reflexivity. Qed.

Lemma fib_table_lookup j : (j < 92)%nat → fib_table !! j = Some (fib j).
Proof. intros Hj. rewrite fib_table_spec, list_lookup_fmap, lookup_seq_lt by done. done. Qed.

#[global] Opaque fib_table fib.

(** [find_hi] counts the table entries that are at most [n]. *)
Lemma find_hi_spec n k j :
  (j + k = 92)%nat → 1 ≤ n ≤ u64_max → (j = 0%nat ∨ fib (j - 1) ≤ n) →
  ∃ hi, find_hi (fib <$> seq j k) n j = S hi ∧ (hi < 92)%nat ∧ fib hi ≤ n < fib (S hi).
Proof.
  revert j. induction k as [|k IH]; intros j Hj Hn Hlo; simpl.
  - destruct Hlo as [->|Hlo]; [lia|]. pose proof fib_table_next. exists (j - 1)%nat.
    replace (S (j - 1)) with j by lia. assert (j = 92%nat) as -> by lia. split; [done|]. lia.
  - zcase.
    + apply IH; [lia|done|]. right. by rewrite Nat.sub_succ, Nat.sub_0_r.
    + destruct Hlo as [->|Hlo]; [change (fib 0) with 1 in *; lia|].
      destruct j as [|j]; [change (fib 0) with 1 in *; lia|].
      exists j. rewrite Nat.sub_succ, Nat.sub_0_r in Hlo. split; [done|]. lia.
Qed.

(** ** Codewords

    [cw_at f n hi]: the bits [f] start with the codeword of [n], whose last
    data bit is bit [hi] and whose terminator is bit [S hi]. *)
Fixpoint bits_value (f : nat → bool) (k : nat) : Z :=
  match k with O => 0 | S k => bits_value f k + if f k then fib k else 0 end.

Record cw_at (f : nat → bool) (n : Z) (hi : nat) : Prop := {
  cw_value : bits_value f (S hi) = n;
  cw_last : f hi = true;
  cw_term : f (S hi) = true;
  cw_sparse : ∀ j, (j < hi)%nat → f j && f (S j) = false
}.

Lemma bits_value_ext f g k : (∀ j, (j < k)%nat → f j = g j) → bits_value f k = bits_value g k.
Proof.
  induction k as [|k IH]; intros H; simpl; [done|]. rewrite IH by (intros; apply H; lia).
  by rewrite (H k) by lia.
Qed.

Lemma cw_at_ext f g n hi :
  (∀ j, (j ≤ S hi)%nat → f j = g j) → cw_at f n hi → cw_at g n hi.
Proof.
  intros H [H1 H2 H3 H4]. split.
  - rewrite <-H1. apply bits_value_ext. intros. symmetry. apply H. lia.
  - rewrite <-H2. symmetry. apply H. lia.
  - rewrite <-H3. symmetry. apply H. lia.
  - intros j Hj. rewrite <-!H by lia. auto.
Qed.

(** The greedy loop writes the Zeckendorf digits of [rem] below [idx]. *)
Lemma greedy_spec {E} idx rem out :
  (idx ≤ 92)%nat → (idx ≤ 8 * length out)%nat → 0 ≤ rem < fib idx →
  (∀ j, (j < idx)%nat → bit out j = false) →
  ∃ out', greedy (E:=E) idx rem out = Ok out' ∧ length out' = length out ∧
    (∀ j, (idx ≤ j)%nat → bit out' j = bit out j) ∧
    bits_value (bit out') idx = rem ∧
    (∀ j, (S j < idx)%nat → bit out' j && bit out' (S j) = false) ∧
    (∀ k, idx = S k → bit out' k = (fib k <=? rem)).
Proof.
  revert rem out. induction idx as [|idx IH]; intros rem out Hi Hlen Hrem Hout.
  { exists out. change (fib 0) with 1 in Hrem. cbn. split_and!; auto with lia. }
  cbn [greedy]. unfold index. rewrite Nat2Z.id, fib_table_lookup by lia. cbn.
  assert (rem - fib idx < fib idx ∧ ∀ k, idx = S k → rem - fib idx < fib k) as [Hsub Hnext].
  { split; [|intros k ->; rewrite fib_SS in Hrem; lia].
    destruct idx as [|k]; [change (fib 0) with 1; change (fib 1) with 2 in *; lia|].
    rewrite fib_SS in Hrem. pose proof (fib_mono k). lia. }
  destruct (Z.leb_spec (fib idx) rem) as [Hle|Hlt].
  - destruct (set_bit_ok (E:=E) out idx) as (out1 & -> & Hl1 & Hb1); [lia|]. cbn.
    destruct (IH (rem - fib idx) out1) as (out' & Hg & Hl & Hhi & Hv & Hsp & Htop); [lia..| |].
    { intros j Hj. rewrite Hb1, Hout by lia. apply Nat.eqb_neq. lia. }
    assert (bit out' idx = true) as Hset.
    { rewrite Hhi by lia. rewrite Hb1, Nat.eqb_refl. apply orb_true_r. }
    exists out'. split_and!; [done|congruence|..].
    + intros j Hj. rewrite Hhi, Hb1 by lia. rewrite (proj2 (Nat.eqb_neq j idx)) by lia. apply orb_false_r.
    + cbn. rewrite Hv, Hset. lia.
    + intros j Hj. destruct (decide (S j = idx)) as [Heq|]; [|apply Hsp; lia].
      rewrite (Htop j) by lia. rewrite (proj2 (Z.leb_gt _ _)); [done|]. apply Hnext. lia.
    + intros k [= <-]. rewrite Hset. symmetry. by apply Z.leb_le.
  - destruct (IH rem out) as (out' & Hg & Hl & Hhi & Hv & Hsp & Htop); [lia..|auto with lia|].
    assert (bit out' idx = false) as Hset by (rewrite Hhi by lia; apply Hout; lia).
    exists out'. split_and!; [done|done|auto with lia|..].
    + cbn. rewrite Hv, Hset. lia.
    + intros j Hj. destruct (decide (S j = idx)) as [Heq|]; [|apply Hsp; lia].
      by rewrite Heq, Hset, andb_false_r.
    + intros k [= <-]. rewrite Hset. symmetry. by apply Z.leb_gt.
Qed.

Lemma div_ceil8_bound n : (n ≤ 8 * div_ceil8 n < n + 8)%nat.
Proof. unfold div_ceil8. pose proof (Nat.div_mod_eq (n + 7) 8). pose proof (Nat.mod_upper_bound (n + 7) 8). lia. Qed.

(** An encoded number is its codeword followed by zero bits. *)
Lemma zeck_encode_spec {E} n :
  1 ≤ n ≤ u64_max →
  ∃ cw hi, zeck_encode (E:=E) n = Ok cw ∧ cw_at (bit cw) n hi ∧
    (∀ j, (S hi < j)%nat → bit cw j = false) ∧ (S (S hi) ≤ 8 * length cw)%nat.
Proof.
  intros Hn. unfold zeck_encode. rewrite (proj2 (Z.leb_gt _ _)) by lia.
  rewrite fib_table_spec.
  destruct (find_hi_spec n 92 0) as (hi & -> & Hhi & Hf); [done|done|by left|].
  pose proof (div_ceil8_bound (S (S hi))) as Hceil.
  destruct (greedy_spec (E:=E) (S hi) n (replicate (div_ceil8 (S (S hi))) Byte.x00))
    as (out & -> & Hl & Hge & Hv & Hsp & Htop); [lia|rewrite length_replicate; lia|lia|intros; apply bit_zeros|].
  rewrite length_replicate in Hl. cbn [obind].
  destruct (set_bit_ok (E:=E) out (S hi)) as (cw & -> & Hl' & Hb); [lia|].
  assert (∀ j, (j ≤ hi)%nat → bit cw j = bit out j) as Hlow.
  { intros j Hj. rewrite Hb, (proj2 (Nat.eqb_neq _ _)) by lia. apply orb_false_r. }
  exists cw, hi. split; [done|]. split; [|split; [|lia]].
  - split.
    + rewrite <-Hv. apply bits_value_ext. auto with lia.
    + rewrite Hlow, (Htop hi) by lia. apply Z.leb_le. lia.
    + by rewrite Hb, Nat.eqb_refl, orb_true_r.
    + intros j Hj. rewrite !Hlow by lia. auto with lia.
  - intros j Hj. rewrite Hb, Hge, bit_zeros by lia. apply Nat.eqb_neq. lia.
Qed.

Lemma byte_bit_high b j : 8 ≤ j → Z.testbit (byte.unsigned b) j = false.
Proof.
  intros Hj. pose proof (byte.unsigned_range b).
  rewrite <-(Z.mod_small (byte.unsigned b) (2 ^ 8)) by lia. apply Z.mod_pow2_bits_high. lia.
Qed.

Lemma byte_zero b : (∀ j, 0 ≤ j < 8 → Z.testbit (byte.unsigned b) j = false) → b = Byte.x00.
Proof.
  intros H. rewrite <-(byte.of_Z_unsigned b). change Byte.x00 with (byte.of_Z 0). f_equal.
  apply Z.bits_inj'. intros j Hj. rewrite Z.bits_0.
  destruct (decide (j < 8)); [apply H; lia|apply byte_bit_high; lia].
Qed.

Lemma bit_byte cw q b m : cw !! q = Some b → (m < 8)%nat → bit cw (8 * q + m) = Z.testbit (byte.unsigned b) (Z.of_nat m).
Proof.
  intros Hb Hm. unfold bit. replace ((8 * q + m) / 8)%nat with q.
  - rewrite Hb. do 2 f_equal. rewrite Nat.add_comm, Nat.mul_comm, Nat.Div0.mod_add. by apply Nat.mod_small.
  - rewrite Nat.mul_comm, Nat.div_add_l by done. rewrite Nat.div_small; lia.
Qed.

(** [codeword_nbits] is one more than the position of the highest set bit. *)
Lemma codeword_nbits_spec cw k :
  bit cw k = true → (∀ j, (k < j)%nat → bit cw j = false) → codeword_nbits cw = S k.
Proof.
  intros Hk Hhi. unfold codeword_nbits.
  pose proof (Nat.div_mod_eq k 8). pose proof (Nat.mod_upper_bound k 8 ltac:(done)).
  destruct (cw !! (k / 8)%nat) as [b|] eqn:Hb; [|by unfold bit in Hk; rewrite Hb in Hk].
  pose proof (lookup_lt_Some _ _ _ Hb) as Hlen.
  assert (∀ bi, (k / 8 < bi ≤ length cw)%nat → nbits_from cw bi = S k) as Hgo; [|apply Hgo; lia].
  induction bi as [|bi IH]; intros Hbi; [lia|]. cbn.
  destruct (decide (bi = k / 8)%nat) as [->|Hne].
  - rewrite Hb. rewrite bool_decide_false.
    2:{ intros ->. unfold bit in Hk. rewrite Hb in Hk. by rewrite Z.bits_0 in Hk. }
    unfold leading_zeros8. assert (Z.log2 (byte.unsigned b) = Z.of_nat (k mod 8)) as Hlog.
    { apply Z.log2_bits_unique.
      - unfold bit in Hk. by rewrite Hb in Hk.
      - intros m Hm. destruct (decide (m < 8)); [|apply byte_bit_high; lia].
        rewrite <-(Z2Nat.id m) by lia. rewrite <-(bit_byte cw (k / 8)) by (done || lia). apply Hhi. lia. }
    destruct (Z.eqb_spec (byte.unsigned b) 0) as [Hb0|Hb0]; [|rewrite Hlog; lia].
    unfold bit in Hk. by rewrite Hb, Hb0, Z.bits_0 in Hk.
  - destruct (lookup_lt_is_Some_2 cw bi) as [c Hc]; [lia|]. rewrite Hc.
    rewrite bool_decide_true; [apply IH; lia|]. apply byte_zero. intros j Hj.
    rewrite <-(Z2Nat.id j) by lia. rewrite <-(bit_byte cw bi) by (done || lia). apply Hhi. lia.
Qed.

(** ** The stream *)

Lemma copy_bits_spec {E} todo j cw base buf :
  (j + todo ≤ 8 * length cw)%nat → (base + j + todo ≤ 8 * length buf)%nat →
  ∃ buf', copy_bits (E:=E) todo j cw base buf = Ok buf' ∧ length buf' = length buf ∧
    ∀ p, bit buf' p = bit buf p || (bool_decide (base + j ≤ p < base + j + todo)%nat && bit cw (p - base)).
Proof.
  revert j buf. induction todo as [|todo IH]; intros j buf Hcw Hbuf; cbn [copy_bits].
  { exists buf. split_and!; [done..|]. intros p. rewrite bool_decide_false by lia. by rewrite orb_false_r. }
  unfold index. rewrite Nat2Z.id, shiftr3, land7.
  destruct (lookup_lt_is_Some_2 cw (j / 8)) as [b Hb]; [apply Nat.Div0.div_lt_upper_bound; lia|].
  rewrite Hb. cbn [obind]. rewrite land_shiftr_bit by lia.
  assert (Z.testbit (byte.unsigned b) (Z.of_nat (j mod 8)) = bit cw j) as -> by (unfold bit; by rewrite Hb).
  assert (∃ buf1, (if Z.b2z (bit cw j) =? 1 then set_bit (E:=E) buf (base + j) else Ok buf) = Ok buf1 ∧
    length buf1 = length buf ∧ ∀ p, bit buf1 p = bit buf p || ((p =? base + j)%nat && bit cw j)) as (buf1 & -> & Hl1 & H1).
  { destruct (bit cw j) eqn:Hj; cbn.
    - destruct (set_bit_ok (E:=E) buf (base + j)) as (buf1 & -> & ? & Hs); [lia|].
      exists buf1. split_and!; [done..|]. intros p. by rewrite Hs, andb_true_r.
    - exists buf. split_and!; [done..|]. intros p. by rewrite andb_false_r, orb_false_r. }
  cbn [obind]. destruct (IH (S j) buf1) as (buf' & -> & Hl' & H'); [lia..|].
  exists buf'. split_and!; [done|congruence|]. intros p. rewrite H', H1, <-orb_assoc. f_equal.
  destruct (Nat.eqb_spec p (base + j)) as [->|Hne].
  - rewrite bool_decide_false by lia. rewrite bool_decide_true by lia.
    replace (base + j - base)%nat with j by lia. cbn. by rewrite orb_false_r.
  - cbn. f_equal. apply bool_decide_ext. lia.
Qed.

(** The bits written so far, then zeros to the end of the last byte. *)
Record zs_ok (s : ZeckStream) : Prop := {
  zs_len : length (zs_buf s) = div_ceil8 (zs_bits s);
  zs_pad : ∀ j, (zs_bits s ≤ j)%nat → bit (zs_buf s) j = false
}.

Lemma bit_resize need buf j : (length buf ≤ need)%nat → bit (resize need Byte.x00 buf) j = bit buf j.
Proof.
  intros Hn. rewrite resize_ge by done. destruct (decide (j < 8 * length buf)%nat); [by apply bit_app|].
  rewrite (bit_out buf) by lia. unfold bit.
  rewrite lookup_app_r by (apply Nat.div_le_lower_bound; lia).
  destruct (_ !! _) as [b|] eqn:Hb; [|done]. apply lookup_replicate in Hb as [-> _]. apply Z.bits_0.
Qed.

Lemma u64_arith_ok checks {E} z : 0 ≤ z ≤ u64_max → u64_arith checks (E:=E) z = Ok z.
Proof. intros Hz. unfold u64_arith. by rewrite !(proj2 (Z.leb_le _ _)) by lia. Qed.

(** Pushing appends the codeword of [n + 1] and keeps every bit before it. *)
Lemma push_spec checks {E} s n :
  zs_ok s → 0 ≤ n < u64_max →
  ∃ s' hi, push checks (E:=E) s n = Ok s' ∧ zs_ok s' ∧ zs_bits s' = (zs_bits s + S (S hi))%nat ∧
    (∀ j, (j < zs_bits s)%nat → bit (zs_buf s') j = bit (zs_buf s) j) ∧
    cw_at (λ j, bit (zs_buf s') (zs_bits s + j)) (n + 1) hi.
Proof.
  intros [Hlen Hpad] Hn. unfold push. rewrite u64_arith_ok by lia. cbn [obind].
  destruct (zeck_encode_spec (E:=E) (n + 1)) as (cw & hi & -> & Hcw & Hz & Hcl); [lia|]. cbn [obind].
  rewrite (codeword_nbits_spec cw (S hi)) by (auto; apply Hcw).
  set (need := div_ceil8 (zs_bits s + S (S hi))). pose proof (div_ceil8_bound (zs_bits s)).
  pose proof (div_ceil8_bound (zs_bits s + S (S hi))) as Hneed. fold need in Hneed.
  assert (length (zs_buf s) ≤ need)%nat as Hle by lia.
  set (buf := if (length (zs_buf s) <? need)%nat then _ else _).
  assert (length buf = need ∧ ∀ j, bit buf j = bit (zs_buf s) j) as [Hbl Hbuf].
  { unfold buf. destruct (Nat.ltb_spec (length (zs_buf s)) need); [|split; [lia|done]].
    split; [apply length_resize|]. intros j. by apply bit_resize. }
  destruct (copy_bits_spec (E:=E) (S (S hi)) 0 cw (zs_bits s) buf) as (buf' & -> & Hl' & Hb'); [lia..|].
  cbn [obind]. exists (mkZeck buf' (zs_bits s + S (S hi))), hi. cbn [zs_buf zs_bits].
  split; [done|]. split; [split; cbn [zs_buf zs_bits]|].
  - lia.
  - intros j Hj. rewrite Hb', Hbuf, Hpad by lia. by rewrite bool_decide_false by lia.
  - split_and!; [done| |].
    + intros j Hj. rewrite Hb', Hbuf, bool_decide_false by lia. apply orb_false_r.
    + eapply cw_at_ext, Hcw. intros j Hj. rewrite Hb', Hbuf, Hpad, bool_decide_true by lia.
      cbn. f_equal. lia.
Qed.

(** [encodes buf p ns q]: the bits [p .. q] of [buf] are the codewords of
    [ns], one after the other. *)
Inductive encodes (buf : bytes) : nat → list Z → nat → Prop :=
| encodes_nil p : encodes buf p [] p
| encodes_cons p n ns hi q :
    cw_at (λ j, bit buf (p + j)) (n + 1) hi → n < u64_max →
    encodes buf (p + S (S hi)) ns q → encodes buf p (n :: ns) q.

Lemma encodes_len buf p ns q : encodes buf p ns q → (p + 2 * length ns ≤ q)%nat.
Proof. induction 1; simpl; lia. Qed.

Lemma push_all_spec checks {E} ns : ∀ s,
  zs_ok s → Forall (λ n, 0 ≤ n < u64_max) ns →
  ∃ s', push_all checks (E:=E) s ns = Ok s' ∧ zs_ok s' ∧ (zs_bits s ≤ zs_bits s')%nat ∧
    (∀ j, (j < zs_bits s)%nat → bit (zs_buf s') j = bit (zs_buf s) j) ∧
    encodes (zs_buf s') (zs_bits s) ns (zs_bits s').
Proof.
  induction ns as [|n ns IH]; intros s Hs Hns; cbn [push_all].
  { exists s. split_and!; auto. constructor. }
  inversion_clear Hns as [|? ? Hn Hr].
  destruct (push_spec checks (E:=E) s n Hs Hn) as (s1 & hi & -> & Hs1 & Hb1 & Hp1 & Hc). cbn [obind].
  destruct (IH s1 Hs1 Hr) as (s' & -> & Hs' & Hb' & Hp' & He).
  exists s'. split_and!; [done|done|lia| |].
  - intros j Hj. rewrite Hp', Hp1 by lia. done.
  - econstructor; [|lia|rewrite <-Hb1; exact He].
    eapply cw_at_ext, Hc. intros j Hj. symmetry. apply Hp'. lia.
Qed.

(** ** The decoder *)

Lemma decode_value_spec buf p k :
  (k ≤ 92)%nat → decode_value buf p k = bits_value (λ j, bit buf (p + j)) k mod 2 ^ 64.
Proof.
  unfold decode_value. induction k as [|k IH]; intros Hk; [done|].
  rewrite seq_S, foldl_app. cbn [foldl Nat.add]. rewrite IH, bit_at_0, fib_table_lookup by lia. cbn [bits_value].
  destruct (bit buf (p + k)); cbn [negb].
  - unfold wrap. by rewrite Zplus_mod_idemp_l.
  - by rewrite Z.add_0_r.
Qed.

(** The scan stops at the first pair of set bits. *)
Lemma decode_scan_first fuel buf start i t :
  (start ≤ i ≤ t)%nat → (t - i < fuel)%nat → bit buf t = true → bit buf (S t) = true →
  (∀ j, (i ≤ j < t)%nat → bit buf j && bit buf (S j) = false) →
  decode_scan fuel buf start i = Some (decode_value buf start (S t - start), (S (S t) - start)%nat).
Proof.
  revert i. induction fuel as [|fuel IH]; intros i Hi Hf Ht Ht' Hno; [lia|]. cbn [decode_scan].
  assert (t < 8 * length buf)%nat as Hin.
  { destruct (decide (t < 8 * length buf)%nat); [done|]. by rewrite bit_out in Ht by lia. }
  rewrite shiftr3. destruct (Nat.leb_spec (length buf) (i / 8)) as [Hout|_].
  { pose proof (Nat.div_mod_eq i 8). lia. }
  rewrite !bit_at_1, !Nat.add_1_r. destruct (decide (i = t)) as [->|Hne].
  - rewrite Ht, Ht'. cbn [andb]. rewrite (proj2 (Nat.eqb_neq _ _)) by lia. reflexivity.
  - rewrite Hno by lia. apply IH; auto with lia.
Qed.

(** Without a pair of set bits there is no codeword. *)
Lemma decode_scan_none fuel buf start i :
  (∀ j, (i ≤ j)%nat → bit buf j && bit buf (S j) = false) → decode_scan fuel buf start i = None.
Proof.
  revert i. induction fuel as [|fuel IH]; intros i Hno; [done|]. cbn [decode_scan].
  destruct (_ <=? _)%nat; [done|]. rewrite !bit_at_1, !Nat.add_1_r, Hno by lia. apply IH. auto with lia.
Qed.

Lemma bits_value_last f k : f k = true → fib k ≤ bits_value f (S k).
Proof.
  intros Hk. cbn. rewrite Hk. enough (0 ≤ bits_value f k) by lia. clear Hk.
  induction k as [|k IH]; cbn; [done|]. pose proof (fib_mono k). destruct (f k); lia.
Qed.

(** A codeword is decoded to its value, with all its bits consumed. *)
Lemma codeword_decode buf p n hi :
  cw_at (λ j, bit buf (p + j)) n hi → n ≤ u64_max → decode_at buf p = Some (n, S (S hi)).
Proof.
  intros [Hv Hl Ht Hs] Hn.
  assert (hi < 92)%nat as Hhi.
  { destruct (decide (hi < 92)%nat); [done|]. pose proof (bits_value_last (λ j, bit buf (p + j)) hi Hl) as Hb.
    pose proof (fib_mono_le 92 hi ltac:(lia)). pose proof fib_table_next. lia. }
  assert (S (p + hi) < 8 * length buf)%nat as Hin.
  { destruct (decide (S (p + hi) < 8 * length buf)%nat); [done|].
    rewrite <-Nat.add_succ_r in *. by rewrite bit_out in Ht by lia. }
  unfold decode_at. rewrite (decode_scan_first _ buf p p (p + hi)).
  - replace (S (p + hi) - p)%nat with (S hi) by lia. rewrite decode_value_spec by lia.
    rewrite Hv, Z.mod_small; [do 2 f_equal; lia|].
    pose proof (bits_value_last (λ j, bit buf (p + j)) hi Hl). pose proof (fib_mono hi). unfold u64_max in Hn. lia.
  - lia.
  - lia.
  - done.
  - by rewrite <-Nat.add_succ_r.
  - intros j Hj. replace j with (p + (j - p))%nat by lia. rewrite <-Nat.add_succ_r. apply Hs. lia.
Qed.

(** Reading the codewords of a stream to its zero padding. *)
Lemma decode_loop_encodes checks {E} fuel buf p ns q out :
  encodes buf p ns q → Forall (λ n, 0 ≤ n) ns → (∀ j, (q ≤ j)%nat → bit buf j = false) →
  (length ns < fuel)%nat →
  decode_loop checks (E:=E) fuel buf p out = Ok (out ++ ns).
Proof.
  intros He. revert fuel out. induction He as [p|p n ns hi q Hc Hn He IH]; intros fuel out Hns Hz Hf.
  - destruct fuel as [|fuel]; [lia|]. cbn [decode_loop]. unfold decode_at.
    rewrite decode_scan_none; [by rewrite app_nil_r|]. intros j Hj. by rewrite (Hz j Hj).
  - inversion_clear Hns as [|? ? H0 Hr]. cbn in Hf. destruct fuel as [|fuel]; [lia|]. cbn [decode_loop].
    rewrite (codeword_decode _ _ _ _ Hc) by lia.
    rewrite u64_arith_ok by (unfold u64_max in *; lia). cbn [obind].
    rewrite IH by (done || lia). rewrite Z.add_simpl_r, <-app_assoc. done.
Qed.

(** The turns of [decode_all]: any larger number of turns gives the same. *)
Lemma decode_at_used buf p v used :
  decode_at buf p = Some (v, used) → (2 ≤ used ∧ p + used ≤ S (8 * length buf))%nat.
Proof.
  unfold decode_at. generalize (S (8 * length buf)) at 1. intros fuel.
  assert (p ≤ p)%nat as Hi by lia. revert Hi. generalize p at 2 4. intros i.
  revert i. induction fuel as [|fuel IH]; intros i Hi; [done|]. cbn [decode_scan].
  rewrite shiftr3. destruct (Nat.leb_spec (length buf) (i / 8)) as [|Hlt]; [done|].
  pose proof (Nat.div_mod_eq i 8). pose proof (Nat.mod_upper_bound i 8 ltac:(done)).
  destruct (_ && _); [|intros H'; apply (IH (S i)); [lia|done]].
  destruct (_ =? _)%nat; intros [= _ <-]; lia.
Qed.

Lemma decode_loop_fuel checks {E} f1 f2 buf p out :
  (8 * length buf < p + f1)%nat → (f1 ≤ f2)%nat →
  decode_loop checks (E:=E) f1 buf p out = decode_loop checks f2 buf p out.
Proof.
  revert f2 p out. induction f1 as [|f1 IH]; intros f2 p out Hp Hle.
  - destruct f2 as [|f2]; [done|]. cbn [decode_loop].
    destruct (decode_at buf p) as [[v used]|] eqn:Hd; [|done]. apply decode_at_used in Hd. lia.
  - destruct f2 as [|f2]; [lia|]. cbn [decode_loop].
    destruct (decode_at buf p) as [[v used]|] eqn:Hd; [|done]. apply decode_at_used in Hd.
    destruct (u64_arith checks (v - 1)); cbn [obind]; [|done..]. apply IH; lia.
Qed.

Lemma zeck_new_ok : zs_ok ZeckStream_new.
Proof. split; [done|]. intros j _. apply bit_out. cbn. lia. Qed.

(** C24: A stream of integers below [u64::MAX] is read back exactly: every push
    succeeds, the bit-continuous buffer decodes to the pushed integers in
    order, and the padding of the last byte adds none. *)
Theorem zeck_stream_roundtrip checks ns :
  Forall (λ n, 0 ≤ n < u64_max) ns →
  ∃ s, push_all checks (E:=unit) ZeckStream_new ns = Ok s ∧
       length (zs_finish s) = div_ceil8 (zs_bits s) ∧
       decode_all checks (E:=unit) (zs_finish s) = Ok ns.
Proof.
  intros Hns. destruct (push_all_spec checks (E:=unit) ns _ zeck_new_ok Hns) as (s & Hp & [Hl Hz] & _ & _ & He).
  exists s. split; [done|]. split; [done|]. unfold decode_all, zs_finish.
  pose proof (encodes_len _ _ _ _ He). pose proof (div_ceil8_bound (zs_bits s)). change (zs_bits ZeckStream_new) with 0%nat in *.
  rewrite (decode_loop_encodes checks _ _ _ ns _ [] He); [done| |done|lia].
  eapply Forall_impl; [|exact Hns]. cbn. lia.
Qed.

Lemma zeck_stream_roundtrip_witness :
  ∃ s, push_all true (E:=unit) ZeckStream_new [0; u64_max - 1; 5] = Ok s ∧
       length (zs_finish s) = div_ceil8 (zs_bits s) ∧
       decode_all true (E:=unit) (zs_finish s) = Ok [0; u64_max - 1; 5].
Proof. apply zeck_stream_roundtrip. repeat constructor; done. Defined.

(** [u64::MAX] cannot be pushed in either build: the sum overflows, or wraps to
    zero and fails the assertion of [zeck_encode]. *)
Lemma push_max_panics checks {E} s : push checks (E:=E) s u64_max = Panic.
Proof. by destruct checks. Qed.

(** ** Self-synchronisation *)

(** The decoder moves from bit [i] to bit [i']. *)
Definition decodes_to (buf : bytes) (i i' : nat) : Prop :=
  ∃ v used, decode_at buf i = Some (v, used) ∧ i' = (i + used)%nat.

(** Wherever it starts before the last data bit, the decoder reaches the end of
    a codeword that has more than one data bit. *)
Lemma relock_codeword buf p n hi i :
  cw_at (λ j, bit buf (p + j)) n hi → (0 < hi)%nat → (i ≤ p + hi)%nat →
  rtc (decodes_to buf) i (p + S (S hi))%nat.
Proof.
  intros Hc Hhi. remember (p + hi - i)%nat as m eqn:Hm. revert i Hm.
  induction m as [m IH] using lt_wf_ind. intros i Hm Hi. destruct Hc as [_ Hl Ht Hs].
  assert (∃ t, (i ≤ t ≤ p + hi)%nat ∧ bit buf t = true ∧ bit buf (S t) = true ∧
    ∀ j, (i ≤ j < t)%nat → bit buf j && bit buf (S j) = false) as (t & Hit & Ht1 & Ht2 & Hno).
  { clear IH. revert i Hm Hi. induction m as [|m IHm]; intros i Hm Hi.
    - exists i. replace i with (p + hi)%nat by lia. rewrite <-Nat.add_succ_r. split_and!; auto with lia.
    - destruct (bit buf i && bit buf (S i)) eqn:Hb.
      + apply andb_true_iff in Hb as [? ?]. exists i. split_and!; auto with lia.
      + destruct (IHm (S i)) as (t & ? & ? & ? & Hno); [lia..|]. exists t. split_and!; [lia..|done|done|].
        intros j Hj. destruct (decide (j = i)) as [->|]; [done|]. apply Hno. lia. }
  assert (decodes_to buf i (S (S t))) as Hstep.
  { exists (decode_value buf i (S t - i)), (S (S t) - i)%nat. split; [|lia]. unfold decode_at.
    apply decode_scan_first; auto with lia.
    destruct (decide (t < 8 * length buf)%nat); [lia|]. by rewrite bit_out in Ht1 by lia. }
  destruct (decide (t = p + hi)%nat) as [->|Hne].
  { replace (p + S (S hi))%nat with (S (S (p + hi))) by lia. by apply rtc_once. }
  assert (t < p)%nat as Htp.
  { destruct (decide (t < p)%nat); [done|]. specialize (Hs (t - p)%nat ltac:(lia)).
    rewrite Nat.add_succ_r in Hs. replace (p + (t - p))%nat with t in Hs by lia. by rewrite Ht1, Ht2 in Hs. }
  eapply rtc_l; [exact Hstep|]. eapply (IH (p + hi - S (S t))%nat); lia.
Qed.

(** The decoder recovers from corruption.  Whatever the bits before a
    codeword are, and wherever in them the decoder stands, it is in step again
    at the end of the first codeword of a non-zero integer, and reads the rest
    of the stream exactly. *)
Theorem zeck_relock checks buf i p n ns q :
  encodes buf p (n :: ns) q → 1 ≤ n → Forall (λ n, 0 ≤ n) ns → (i ≤ p)%nat →
  (∀ j, (q ≤ j)%nat → bit buf j = false) →
  ∃ p', rtc (decodes_to buf) i p' ∧
        decode_loop checks (E:=unit) (S (8 * length buf)) buf p' [] = Ok ns.
Proof.
  intros He Hn Hns Hi Hz. inversion He as [|? ? ? hi ? Hc Hmax Hr]; subst.
  assert (0 < hi)%nat as Hhi.
  { destruct hi; [|lia]. destruct Hc as [Hv _ _ _]. cbn in Hv. change (fib 0) with 1 in Hv.
    destruct (bit buf (p + 0)); lia. }
  exists (p + S (S hi))%nat. split; [eapply relock_codeword; [done..|lia]|].
  pose proof (encodes_len _ _ _ _ Hr) as Hl.
  rewrite (decode_loop_encodes checks _ _ _ ns q [] Hr); [done|done|done|].
  assert (q ≤ 8 * length buf ∨ ns = [])%nat as [Hq| ->]; [|lia|cbn; lia].
  clear -Hr. revert Hr. generalize (p + S (S hi))%nat. intros p0 Hr.
  induction Hr as [|p0 n0 ns hi0 q Hc0 _ Hr IH]; [by right|]. left.
  destruct IH as [?| ->]; [done|]. inversion Hr; subst. destruct Hc0 as [_ _ Ht _].
  destruct (decide (p0 + S (S hi0) ≤ 8 * length buf)%nat); [done|]. by rewrite bit_out in Ht by lia.
Qed.

(** Three corrupt bits [1 0 1], then the codewords of 5 and 7. *)
Definition corrupt : bytes := [byte.of_Z 205; byte.of_Z 48].

Lemma corrupt_encodes : encodes corrupt 3 [5; 7] 14.
Proof.
  assert (∀ f n hi, bits_value f (S hi) = n → f hi = true → f (S hi) = true →
    forallb (λ j, negb (f j && f (S j))) (seq 0 hi) = true → cw_at f n hi) as Hcw.
  { intros f n hi ? ? ? Hs. split; [done..|]. intros j Hj. rewrite List.forallb_forall in Hs.
    apply negb_true_iff, Hs, in_seq. lia. }
  apply (encodes_cons _ _ _ _ 3); [apply Hcw; vm_compute; reflexivity|done|].
  apply (encodes_cons _ _ _ _ 4); [apply Hcw; vm_compute; reflexivity|done|]. apply encodes_nil.
Qed.

Lemma zeck_relock_witness :
  ∃ p', rtc (decodes_to corrupt) 0%nat p' ∧
        decode_loop true (E:=unit) (S (8 * length corrupt)) corrupt p' [] = Ok [7].
Proof.
  apply (zeck_relock true corrupt 0 3 5 [7] 14 corrupt_encodes); [lia|by repeat constructor|lia|].
  intros j Hj. destruct (decide (j < 16)%nat).
  - assert (j = 14 ∨ j = 15)%nat as [-> | ->] by lia; reflexivity.
  - apply bit_out. cbn. lia.
Defined.

(** The non-zero integer is needed: a stray bit before the codewords of 0, 0
    and 1 keeps the decoder out of step through the zeros. *)
Example zeros_stay_out_of_step :
  decode_all true (E:=unit) [byte.of_Z 223] = Ok [0; 0; 3].
Proof. vm_compute. reflexivity. Qed.

(** A buffer whose first pair of set bits lies beyond the table decodes to zero:
    [v - 1] overflows. *)
Example hostile_buffer :
  let buf := replicate 11 Byte.x00 ++ [byte.of_Z 48] in
  decode_all true (E:=unit) buf = Panic ∧ decode_all false (E:=unit) buf = Ok [u64_max].
Proof. vm_compute. split; reflexivity. Qed.
