(* ===== verification/Homohash.v ===== *)
(** * Homohash: the homomorphic hash of [coding/src/homohash.rs]

    Coefficient vectors over [GF(Q)], [Q = 1321], are hashed into the subgroup
    of order [Q] of the multiplicative group modulo the Mersenne prime
    [P = 2 ^ 61 - 1].  Every argument of [mulmod] in this file is below [P]
    (lemma [mulmod_spec] and the invariants), so no product leaves [u128].

    [hash_spec] gives the hash a closed form, [G (dot c)]: the theorems on the
    homomorphism, on [verify_coded] and on collisions follow from the group
    laws of [G]. *)

From S2P Require Import Prelude.

Definition P : Z := Z.shiftl 1 61 - 1.
Definition Q : Z := 1321.

Inductive HomoHashError : Type := Length (a b : Z).

Definition m_reduce (x : Z) : Z :=
  let lo := Z.land x P in
  let hi := Z.shiftr x 61 in
  let s := lo + hi in
  if P <=? s then s - P else s.

Definition mulmod (a b : Z) : Z := m_reduce (a * b).

(** The loop of [powmod]; an exponent has 128 bits. *)
Fixpoint powmod_loop (fuel : nat) (base exp result : Z) : Z :=
  match fuel with
  | O => result
  | S fuel =>
      if exp <=? 0 then result
      else powmod_loop fuel (mulmod base base) (Z.shiftr exp 1)
             (if Z.land exp 1 =? 1 then mulmod result base else result)
  end.
Definition powmod (base exp p : Z) : Z := powmod_loop 128 (base mod p) exp 1.

(** The first base that gives an element other than one: the short list, then
    the search upwards (which the list makes unnecessary). *)
Fixpoint first_generator (bases : list Z) (exp : Z) : option Z :=
  match bases with
  | base :: bases => let g := powmod base exp P in if g =? 1 then first_generator bases exp else Some g
  | [] => None
  end.
Definition small_bases : list Z := [2; 3; 5; 7; 11; 13; 37; 41; 61].
Fixpoint search_generator (fuel : nat) (base exp : Z) : option Z :=
  match fuel with
  | O => None
  | S fuel => let g := powmod base exp P in
              if g =? 1 then search_generator fuel (base + 1) exp else Some g
  end.
Definition subgroup_gen : option Z :=
  let exp := (P - 1) / Q in
  match first_generator small_bases exp with
  | Some g => Some g
  | None => search_generator 1000 67 exp
  end.

Record HomomorphicHash : Type := mkHH {
  gens : list Z;
  table : list Z;
  unit_index : gmap Z Z
}.

(** [g_i = g ^ (i + 1)], one multiplication each. *)
Fixpoint build_gens (k : nat) (acc g : Z) : list Z :=
  match k with
  | O => []
  | S k => let acc := mulmod acc g in acc :: build_gens k acc g
  end.

(** One row of the table: the powers of [gi] from [p]. *)
Fixpoint power_row (n : nat) (p gi : Z) : list Z :=
  match n with O => [] | S n => p :: power_row n (mulmod p gi) gi end.

Definition index_units (gs : list Z) : gmap Z Z :=
  foldl (λ m ig, <[ig.2 := ig.1]> m) ∅ (zip (Z.of_nat <$> seq 0 (length gs)) gs).

Definition HomomorphicHash_new (k : nat) : outcome HomoHashError HomomorphicHash :=
  match subgroup_gen with
  | None => Panic
  | Some g =>
      let gens := build_gens k 1 g in
      Ok (mkHH gens (concat (power_row (Z.to_nat Q) 1 <$> gens)) (index_units gens))
  end.

(** The loop of [hash] from coordinate [i]. *)
Fixpoint hash_loop (tbl : list Z) (i : Z) (c : list Z) (acc : Z) : outcome HomoHashError Z :=
  match c with
  | [] => Ok acc
  | ci :: c =>
      let e := ci mod Q in
      let? acc := if e =? 0 then Ok acc
                  else let? t := index tbl (i * Q + e) in Ok (mulmod acc t) in
      hash_loop tbl (i + 1) c acc
  end.

Definition hash (hh : HomomorphicHash) (c : list Z) : outcome HomoHashError Z :=
  if zlen c =? zlen (gens hh) then hash_loop (table hh) 0 c 1
  else Err (Length (zlen c) (zlen (gens hh))).

Definition combine (a h1 b h2 : Z) : Z :=
  let lhs := powmod h1 (a mod Q) P in
  let rhs := powmod h2 (b mod Q) P in
  mulmod lhs rhs.

Fixpoint combine_loop (hh : HomomorphicHash) (ahs : list (Z * Z)) (acc : Z) : outcome HomoHashError Z :=
  match ahs with
  | [] => Ok acc
  | (a, h) :: ahs =>
      let e := a mod Q in
      let? acc :=
        if e =? 0 then Ok acc
        else match unit_index hh !! h with
             | Some i => let? t := index (table hh) (i * Q + e) in Ok (mulmod acc t)
             | None => Ok (mulmod acc (powmod h e P))
             end in
      combine_loop hh ahs acc
  end.
Definition combine_many (hh : HomomorphicHash) (coeffs hashes : list Z) : outcome HomoHashError Z :=
  combine_loop hh (zip coeffs hashes) 1.

Definition verify_coded (hh : HomomorphicHash) (source_hashes coded_coeffs : list Z) (expected : Z)
    : outcome HomoHashError bool :=
  if zlen coded_coeffs =? zlen source_hashes
  then let? computed := combine_many hh coded_coeffs source_hashes in Ok (computed =? expected)
  else Err (Length (zlen coded_coeffs) (zlen source_hashes)).

(** The tampering test of the source, on four coordinates. *)
Example verify_test :
  (let? hh := HomomorphicHash_new 4 in
   let? claimed := hash hh [2; 0; 7; 3] in
   let? good := verify_coded hh (gens hh) [2; 0; 7; 3] claimed in
   let? bad := verify_coded hh (gens hh) [2; 0; 7; 4] claimed in
   Ok (good, bad)) = Ok (true, false).
Proof. vm_compute. reflexivity. Qed.

(** ** Arithmetic modulo [P] *)

Lemma m_reduce_spec x : 0 ≤ x ≤ (P - 1) * (P - 1) → m_reduce x = x mod P.
Proof.
  intros Hx. unfold m_reduce.
  assert (Z.land x P = x mod 2 ^ 61) as -> by (apply (Z.land_ones x 61); lia).
  rewrite Z.shiftr_div_pow2 by lia.
  pose proof (Z.div_mod x (2 ^ 61) ltac:(lia)) as E. pose proof (Z.mod_pos_bound x (2 ^ 61) ltac:(lia)).
  set (lo := x mod 2 ^ 61) in *. set (hi := x / 2 ^ 61) in *.
  assert (P = 2 ^ 61 - 1) as HP by done.
  assert (0 ≤ hi ≤ P - 2) as Hhi.
  { split; [apply Z.div_pos; lia|]. unfold hi. apply Z.lt_succ_r, Z.div_lt_upper_bound; [lia|].
    rewrite HP in *. lia. }
  zcase; [apply (Z.mod_unique_pos _ _ (hi + 1))|apply (Z.mod_unique_pos _ _ hi)]; lia.
Qed.

Lemma P_pos : 1 < P.
Proof. done. Qed.

Lemma mulmod_spec a b : 0 ≤ a < P → 0 ≤ b < P → mulmod a b = a * b mod P.
Proof. intros Ha Hb. apply m_reduce_spec. split; [lia|]. apply Z.mul_le_mono_nonneg; lia. Qed.

#[global] Opaque P.

Lemma mulmod_range a b : 0 ≤ a < P → 0 ≤ b < P → 0 ≤ mulmod a b < P.
Proof. intros. rewrite mulmod_spec by done. apply Z.mod_pos_bound. pose proof P_pos. lia. Qed.

Lemma pow_mod_l b e : 0 ≤ e → (b mod P) ^ e mod P = b ^ e mod P.
Proof.
  intros He. pattern e. apply natlike_ind; [done| |done]. intros x Hx IH. rewrite !Z.pow_succ_r by done.
  rewrite Zmult_mod, IH, Zmod_mod, <-Zmult_mod. done.
Qed.

Lemma powmod_loop_spec fuel base exp result :
  0 ≤ base < P → 0 ≤ exp < 2 ^ Z.of_nat fuel → 0 ≤ result < P →
  powmod_loop fuel base exp result = result * base ^ exp mod P.
Proof.
  revert base exp result. induction fuel as [|fuel IH]; intros base exp result Hb He Hr; cbn [powmod_loop].
  { assert (exp = 0) as -> by (change (2 ^ Z.of_nat 0) with 1 in He; lia).
    rewrite Z.pow_0_r, Z.mul_1_r. symmetry. by apply Z.mod_small. }
  zcase.
  { assert (exp = 0) as -> by lia. rewrite Z.pow_0_r, Z.mul_1_r. symmetry. by apply Z.mod_small. }
  rewrite Nat2Z.inj_succ, Z.pow_succ_r in He by lia.
  rewrite Z.shiftr_div_pow2 by lia. assert (Z.land exp 1 = exp mod 2) as -> by (apply (Z.land_ones exp 1); lia).
  change (2 ^ 1) with 2.
  pose proof (Z.div_mod exp 2 ltac:(lia)) as E. pose proof (Z.mod_pos_bound exp 2 ltac:(lia)).
  rewrite IH; [|by apply mulmod_range|split; [apply Z.div_pos; lia|apply Z.div_lt_upper_bound; lia]|
               destruct (_ =? _); [by apply mulmod_range|done]].
  assert (0 ≤ exp / 2) by (apply Z.div_pos; lia).
  rewrite (mulmod_spec base base) by done. rewrite Zmult_mod, pow_mod_l, <-Zmult_mod by done.
  rewrite <-Z.pow_2_r, <-Z.pow_mul_r by lia.
  zcase.
  - rewrite mulmod_spec, Zmult_mod_idemp_l by done. rewrite <-Z.mul_assoc, <-Z.pow_succ_r by lia.
    do 3 f_equal. lia.
  - do 3 f_equal. lia.
Qed.

(** Square and multiply is exponentiation modulo [P]. *)
Lemma powmod_spec base exp : 0 ≤ exp < 2 ^ 128 → powmod base exp P = base ^ exp mod P.
Proof.
  intros He. unfold powmod. pose proof P_pos.
  rewrite powmod_loop_spec by (done || lia || (apply Z.mod_pos_bound; lia)).
  rewrite Z.mul_1_l. apply pow_mod_l. lia.
Qed.

(** ** The subgroup of order [Q] *)

Definition g : Z := Eval vm_compute in default 0 subgroup_gen.

Lemma subgroup_gen_value : subgroup_gen = Some g.
Proof. vm_compute. reflexivity. Qed.

(** The element [g ^ n] of the subgroup. *)
Definition G_def (n : Z) : Z := g ^ n mod P.
Definition G_aux : seal G_def. Proof. by eexists. Qed.
Definition G : Z → Z := G_aux.(unseal).
Lemma G_eq n : G n = g ^ n mod P.
Proof. unfold G. by rewrite G_aux.(seal_eq). Qed.

Lemma pow_mul_one b q m : b ^ q mod P = 1 → 0 ≤ q → 0 ≤ m → b ^ (q * m) mod P = 1.
Proof.
  intros E Hq Hm. rewrite Z.pow_mul_r, <-pow_mod_l, E, Z.pow_1_l by lia.
  apply Z.mod_small. pose proof P_pos. lia.
Qed.

Lemma G_range n : 0 ≤ G n < P.
Proof. rewrite G_eq. apply Z.mod_pos_bound. pose proof P_pos. lia. Qed.

Lemma mulmod_G a b : 0 ≤ a → 0 ≤ b → mulmod (G a) (G b) = G (a + b).
Proof.
  intros. rewrite mulmod_spec by apply G_range. rewrite !G_eq. by rewrite <-Zmult_mod, Z.pow_add_r.
Qed.

Lemma powmod_G a e : 0 ≤ a → 0 ≤ e < 2 ^ 128 → powmod (G a) e P = G (a * e).
Proof. intros. rewrite powmod_spec by done. rewrite !G_eq. by rewrite pow_mod_l, Z.pow_mul_r by lia. Qed.

Lemma power_row_spec n m x : 0 ≤ m → 0 ≤ x → power_row n (G m) (G x) = (λ e, G (m + x * Z.of_nat e)) <$> seq 0 n.
Proof.
  revert m. induction n as [|n IH]; intros m Hm Hx; [done|]. cbn [power_row seq fmap list_fmap].
  rewrite mulmod_G by lia. f_equal; [f_equal; lia|].
  rewrite IH by lia. rewrite <-fmap_S_seq, <-list_fmap_compose. apply list_fmap_ext. intros i j _. cbn. f_equal. lia.
Qed.

Lemma G_0 : G 0 = 1.
Proof. rewrite G_eq, Z.pow_0_r. apply Z.mod_small. pose proof P_pos. lia. Qed.

Lemma G_1 : G 1 = g.
Proof. rewrite G_eq, Z.pow_1_r. vm_compute. reflexivity. Qed.

(** No power of [g] below the [Q]-th is one, and the [Q]-th is. *)
Lemma G_order : G Q = 1 ∧ ∀ d, 0 < d < Q → G d ≠ 1.
Proof.
  assert (list_find (Z.eq 1) (tail (power_row 1322 1 g)) = Some (1320%nat, 1)) as H by (vm_compute; reflexivity).
  assert (∀ e, (e < 1322)%nat → power_row 1322 1 g !! e = Some (G (Z.of_nat e))) as Hrow.
  { intros e He. rewrite <-G_0 at 1. rewrite <-G_1. rewrite power_row_spec by lia.
    rewrite list_lookup_fmap, lookup_seq_lt by done. cbn [fmap option_fmap option_map]. do 2 f_equal. lia. }
  apply list_find_Some in H as (Hl & _ & Hno).
  assert (∀ e, tail (power_row 1322 1 g) !! e = power_row 1322 1 g !! S e) as Ht by done.
  rewrite Ht, Hrow in Hl by lia. split; [by injection Hl|].
  intros d Hd E. unfold Q in Hd. apply (Hno (Z.to_nat d - 1)%nat (G d)); [|lia|done].
  rewrite Ht, Hrow by lia. do 2 f_equal. lia.
Qed.

#[global] Opaque g.

Lemma G_mul_Q m : 0 ≤ m → G (Q * m) = 1.
Proof.
  intros Hm. rewrite G_eq. apply pow_mul_one; [|unfold Q; lia|exact Hm].
  rewrite <-G_eq. apply G_order.
Qed.

(** Exponents count modulo [Q], and only modulo [Q]. *)
Lemma G_mod n : 0 ≤ n → G (n mod Q) = G n.
Proof.
  intros Hn. pose proof (Z.mod_pos_bound n Q ltac:(done)). pose proof (Z.div_pos n Q Hn ltac:(done)).
  rewrite (Z.div_mod n Q) at 2 by done. rewrite <-mulmod_G by (unfold Q in *; lia).
  rewrite G_mul_Q, mulmod_spec, Z.mul_1_l by (done || apply G_range || (pose proof P_pos; lia)).
  symmetry. apply Z.mod_small, G_range.
Qed.

Lemma G_inj a b : 0 ≤ a → 0 ≤ b → G a = G b ↔ a mod Q = b mod Q.
Proof.
  intros Ha Hb. split; [|intros E; by rewrite <-(G_mod a), <-(G_mod b), E].
  rewrite <-(G_mod a), <-(G_mod b) by done.
  pose proof (Z.mod_pos_bound a Q ltac:(done)) as Hx. pose proof (Z.mod_pos_bound b Q ltac:(done)) as Hy.
  revert Hx Hy. generalize (a mod Q), (b mod Q). clear.
  assert (∀ x y, 0 ≤ x < Q → 0 ≤ y < Q → x ≤ y → G x = G y → x = y) as Hle.
  { intros x y Hx Hy Hxy E. destruct (decide (y = x)) as [->|Hne]; [done|]. exfalso.
    apply (proj2 G_order (y - x)); [lia|].
    assert (G (x + (Q - x)) = G (y + (Q - x))) as E' by (rewrite <-!mulmod_G by lia; by rewrite E).
    rewrite Z.add_comm, Z.sub_add, (proj1 G_order) in E'.
    rewrite <-(G_mod (y + (Q - x))) in E' by lia. rewrite E'. f_equal.
    apply (Z.mod_unique_pos _ _ 1); lia. }
  intros x y Hx Hy E. destruct (Z.le_ge_cases x y); [|symmetry]; apply Hle; auto with lia.
Qed.

(** ** The hash *)

(** The exponent of a vector whose first coordinate is [i]. *)
Fixpoint dot (i : Z) (c : list Z) : Z :=
  match c with [] => 0 | ci :: c => (i + 1) * ci + dot (i + 1) c end.

Lemma dot_nonneg i c : 0 ≤ i → Forall (Z.le 0) c → 0 ≤ dot i c.
Proof. intros Hi Hc. revert i Hi. induction Hc; intros i Hi; cbn; [done|]. specialize (IHHc (i + 1)). nia. Qed.

Lemma build_gens_spec k a : 0 ≤ a → build_gens k (G a) g = (λ j, G (a + 1 + Z.of_nat j)) <$> seq 0 k.
Proof.
  revert a. induction k as [|k IH]; intros a Ha; [done|]. cbn [build_gens seq fmap list_fmap].
  rewrite <-G_1 at 1 2. rewrite mulmod_G by lia. f_equal; [f_equal; lia|].
  rewrite IH by lia. rewrite <-fmap_S_seq, <-list_fmap_compose. apply list_fmap_ext. intros i j _. cbn. f_equal. lia.
Qed.

(** What [HomomorphicHash::new] builds. *)
Record hh_ok (k : nat) (hh : HomomorphicHash) : Prop := {
  hh_gens : gens hh = (λ j, G (1 + Z.of_nat j)) <$> seq 0 k;
  hh_table : ∀ i e, 0 ≤ i < Z.of_nat k → 0 ≤ e < Q →
    index (E:=HomoHashError) (table hh) (i * Q + e) = Ok (G ((i + 1) * e));
  hh_units : ∀ h i, unit_index hh !! h = Some i → 0 ≤ i < Z.of_nat k ∧ h = G (i + 1)
}.

Lemma lookup_concat_rows {A} (rows : list (list A)) n i e :
  Forall (λ r, length r = n) rows → (e < n)%nat → concat rows !! (i * n + e)%nat = rows !! i ≫= (.!! e).
Proof.
  intros Hr He. revert i. induction Hr as [|r rows Hlen _ IH]; intros i; [by destruct i|]. cbn [concat].
  destruct i as [|i]; cbn [Nat.mul Nat.add].
  - rewrite lookup_app_l by lia. done.
  - rewrite lookup_app_r by lia. cbn [lookup list_lookup]. change (list_lookup i rows) with (rows !! i). rewrite <-IH. f_equal. lia.
Qed.

Lemma index_units_sound gs h i : index_units gs !! h = Some i → 0 ≤ i < zlen gs ∧ gs !! Z.to_nat i = Some h.
Proof.
  unfold index_units, zlen. induction gs as [|x gs IH] using rev_ind; [done|].
  rewrite length_app, Nat.add_1_r, seq_S, fmap_app.
  rewrite zip_with_app by (by rewrite length_fmap, length_seq).
  rewrite foldl_app. cbn. rewrite lookup_insert_Some. intros [[<- <-]|[_ H]].
  - split; [lia|]. rewrite Nat2Z.id, lookup_app_r, Nat.sub_diag by lia. done.
  - destruct (IH H) as [? ?]. split; [lia|]. by apply lookup_app_l_Some.
Qed.

Lemma hh_new_spec k : ∃ hh, HomomorphicHash_new k = Ok hh ∧ hh_ok k hh.
Proof.
  unfold HomomorphicHash_new. rewrite subgroup_gen_value. eexists; split; [done|].
  pose proof (build_gens_spec k 0 ltac:(done)) as ->%(eq_trans (f_equal (λ x, build_gens k x g) (eq_sym G_0))). split; cbn [gens table unit_index].
  - done.
  - intros i e Hi He. unfold index. replace (Z.to_nat (i * Q + e)) with (Z.to_nat i * Z.to_nat Q + Z.to_nat e)%nat
      by (unfold Q in *; lia).
    rewrite lookup_concat_rows; [|..|unfold Q in *; lia].
    + rewrite !list_lookup_fmap, lookup_seq_lt by lia. cbn [fmap option_fmap option_map mbind option_bind].
      rewrite <-G_0 at 1. rewrite power_row_spec by lia. rewrite list_lookup_fmap, lookup_seq_lt by lia.
      cbn [fmap option_fmap option_map]. do 2 f_equal. lia.
    + apply Forall_fmap, Forall_true. intros x. cbn. clear. generalize 1. induction (Z.to_nat Q); intros; cbn; auto.
  - intros h i Hu. apply index_units_sound in Hu as [Hi Hl]. unfold zlen in Hi.
    rewrite length_fmap, length_seq in Hi. split; [done|].
    rewrite list_lookup_fmap, lookup_seq_lt in Hl by lia. cbn in Hl. injection Hl as <-. f_equal. lia.
Qed.

Lemma hash_loop_spec k hh c i x :
  hh_ok k hh → 0 ≤ i → 0 ≤ x → i + zlen c ≤ Z.of_nat k → Forall (Z.le 0) c →
  hash_loop (table hh) i c (G x) = Ok (G (x + dot i c)).
Proof.
  intros Hok Hi Hx Hk Hc. revert i x Hi Hx Hk. induction Hc as [|ci c Hci Hc IH]; intros i x Hi Hx Hk; cbn [hash_loop dot].
  { by rewrite Z.add_0_r. }
  rewrite zlen_cons in Hk. pose proof (zlen_nonneg c). pose proof (Z.mod_pos_bound ci Q ltac:(done)) as He.
  pose proof (dot_nonneg (i + 1) c ltac:(lia) Hc).
  assert ((if ci mod Q =? 0 then Ok (G x)
           else let? t := index (table hh) (i * Q + ci mod Q) in Ok (mulmod (G x) t)) = Ok (G (x + (i + 1) * (ci mod Q)))) as ->.
  { zcase; [f_equal; f_equal; nia|]. rewrite (hh_table _ _ Hok) by lia. cbn. by rewrite mulmod_G by nia. }
  cbn [obind]. rewrite IH by nia. f_equal. apply G_inj; [nia..|].
  replace (x + ((i + 1) * ci + dot (i + 1) c)) with (x + (i + 1) * ci + dot (i + 1) c) by lia.
  rewrite (Zplus_mod (x + _)), (Zplus_mod x), Zmult_mod_idemp_r, <-(Zplus_mod x), <-Zplus_mod. done.
Qed.

(** The hash of a vector is [g] to the weighted sum of its coordinates. *)
Lemma hash_spec k hh c :
  hh_ok k hh → length c = k → Forall (Z.le 0) c → hash hh c = Ok (G (dot 0 c)).
Proof.
  intros Hok Hk Hc. unfold hash. rewrite (hh_gens _ _ Hok). unfold zlen. rewrite length_fmap, length_seq, Hk, Z.eqb_refl.
  rewrite <-G_0 at 1. rewrite (hash_loop_spec k) by (done || unfold zlen; lia). done.
Qed.

Lemma combine_loop_spec k hh ahs x :
  hh_ok k hh → 0 ≤ x → Forall (λ ah, 0 ≤ ah.1 ∧ 0 ≤ ah.2) ahs →
  combine_loop hh (prod_map id G <$> ahs) (G x) = Ok (G (x + foldr (λ ah s, ah.1 * ah.2 + s) 0 ahs)).
Proof.
  intros Hok Hx Hf. revert x Hx. induction Hf as [|[a y] ahs [Ha Hy] Hf IH]; intros x Hx;
    cbn [fmap list_fmap prod_map combine_loop foldr fst snd id].
  { by rewrite Z.add_0_r. }
  cbn in Ha, Hy. pose proof (Z.mod_pos_bound a Q ltac:(done)) as He.
  set (s := foldr _ _ _) in *. assert (0 ≤ s) as Hs.
  { unfold s. clear -Hf. induction Hf as [|[a y] ahs [??] _ IH]; cbn in *; nia. }
  match goal with |- obind ?m _ = _ => assert (m = Ok (G (x + y * (a mod Q)))) as -> end.
  { zcase; [f_equal; f_equal; nia|]. change (fmap ?f ahs) with (f <$> ahs).
    destruct (unit_index hh !! G y) as [i|] eqn:Hu.
    - destruct (hh_units _ _ Hok _ _ Hu) as [Hi E]. rewrite (hh_table _ _ Hok) by lia. cbn.
      rewrite mulmod_G by nia. f_equal. apply G_inj; [nia..|].
      apply G_inj in E; [|lia..]. rewrite (Zplus_mod x (y * _)), Zmult_mod, E, <-Zmult_mod, <-Zplus_mod. done.
    - rewrite powmod_G, mulmod_G by (unfold Q in *; nia). done. }
  cbn [obind]. rewrite IH by nia. f_equal. apply G_inj; [nia..|].
  replace (x + (a * y + s)) with (x + y * a + s) by lia.
  rewrite (Zplus_mod (x + _)), (Zplus_mod x), Zmult_mod_idemp_r, <-(Zplus_mod x), <-Zplus_mod. done.
Qed.

(** ** Linear combinations *)

Lemma hh_new_inv k hh : HomomorphicHash_new k = Ok hh → hh_ok k hh.
Proof. intros E. destruct (hh_new_spec k) as (hh' & E' & Hok). rewrite E' in E. by injection E as <-. Qed.

(** [sum_j a_j * c_j] in [GF(Q)], on vectors of length [k]. *)
Definition lincomb (k : nat) (acs : list (Z * list Z)) : list Z :=
  foldr (λ ac s, zip_with (λ x y, (ac.1 * x + y) mod Q) ac.2 s) (replicate k 0) acs.

Lemma dot_zip_with i a c s :
  length c = length s → dot i (zip_with (λ x y, (a * x + y) mod Q) c s) mod Q = (a * dot i c + dot i s) mod Q.
Proof.
  intros Hl%Forall2_same_length. revert i. induction Hl as [|x y c s _ _ IH]; intros i; cbn [zip_with dot].
  { by rewrite Z.mul_0_r. }
  rewrite Zplus_mod, Zmult_mod_idemp_r, IH, <-Zplus_mod. f_equal. ring.
Qed.

Lemma dot_zeros i k : dot i (replicate k 0) = 0.
Proof. revert i. induction k as [|k IH]; intros i; cbn; [done|]. rewrite IH. lia. Qed.

Lemma lincomb_spec k acs :
  Forall (λ ac, 0 ≤ ac.1 ∧ length ac.2 = k ∧ Forall (Z.le 0) ac.2) acs →
  length (lincomb k acs) = k ∧ Forall (Z.le 0) (lincomb k acs) ∧
  dot 0 (lincomb k acs) mod Q = foldr (λ ah s, ah.1 * ah.2 + s) 0 (prod_map id (dot 0) <$> acs) mod Q.
Proof.
  induction 1 as [|[a c] acs (Ha & Hl & Hc) _ (IHl & IHf & IHd)]; cbn [lincomb foldr].
  { rewrite length_replicate, dot_zeros. split_and!; [done| |done]. by apply Forall_replicate. }
  fold (lincomb k acs). cbn [fst snd] in *. split_and!.
  - rewrite length_zip_with. lia.
  - apply Forall_lookup_2. intros i z Hz. apply lookup_zip_with_Some in Hz as (x & y & -> & _).
    by apply Z.mod_pos_bound.
  - rewrite dot_zip_with by lia. cbn. by rewrite Zplus_mod, IHd, <-Zplus_mod.
Qed.

(** C26: The hash is homomorphic over [GF(Q)].  The hash of a linear combination of
    vectors is what [combine_many] computes from the coefficients and the
    hashes of the vectors, whether a hash is found in the table of unit hashes
    or not; no lookup panics. *)
Theorem homohash_linear k hh coeffs cs hs :
  HomomorphicHash_new k = Ok hh → length coeffs = length cs → Forall (Z.le 0) coeffs →
  Forall (λ c, length c = k ∧ Forall (Z.le 0) c) cs → Forall2 (λ c h, hash hh c = Ok h) cs hs →
  hash hh (lincomb k (zip coeffs cs)) = combine_many hh coeffs hs ∧ no_panic (combine_many hh coeffs hs).
Proof.
  intros Hnew%hh_new_inv Hlen Ha Hcs Hh.
  assert (hs = G ∘ dot 0 <$> cs) as ->.
  { clear -Hh Hcs Hnew. induction Hh as [|c h cs hs E _ IH]; [done|]. inversion_clear Hcs as [|? ? [Hl Hc] ?].
    cbn. f_equal; [|auto]. rewrite (hash_spec k) in E by done. by injection E. }
  assert (zip coeffs (G ∘ dot 0 <$> cs) = prod_map id G <$> (prod_map id (dot 0) <$> zip coeffs cs)) as Hz.
  { clear. revert cs. induction coeffs as [|a coeffs IH]; intros [|c cs]; cbn; [done..|]. f_equal. apply IH. }
  assert (Forall (λ ac, 0 ≤ ac.1 ∧ length ac.2 = k ∧ Forall (Z.le 0) ac.2) (zip coeffs cs)) as Hac.
  { clear -Ha Hcs. revert cs Hcs. induction Ha; intros cs Hcs; [constructor|].
    inversion Hcs; subst; cbn; [constructor|]. constructor; [naive_solver|auto]. }
  destruct (lincomb_spec k _ Hac) as (Hl & Hf & Hd).
  unfold combine_many. rewrite Hz, (hash_spec k) by done. rewrite <-G_0 at 1 2.
  assert (Forall (λ ah : Z * Z, 0 ≤ ah.1 ∧ 0 ≤ ah.2) (prod_map id (dot 0) <$> zip coeffs cs)) as Hnn.
  { apply Forall_fmap. eapply Forall_impl; [|exact Hac]. intros [a c] (? & _ & ?). cbn. split; [done|].
    by apply dot_nonneg. }
  rewrite (combine_loop_spec k) by done. split; [|done]. f_equal. rewrite Z.add_0_l. apply G_inj; [|clear -Hnn|done].
  - by apply dot_nonneg.
  - induction Hnn as [|[a y] l [??] _ IH]; cbn in *; nia.
Qed.

(** ** Verification *)

(** The unit vector of coordinate [i]. *)
Definition unit_vector (k i : nat) : list Z := <[i := 1]> (replicate k 0).

Lemma dot_unit k i a : (i < k)%nat → dot a (unit_vector k i) = a + 1 + Z.of_nat i.
Proof.
  revert i a. induction k as [|k IH]; intros i a Hi; [lia|]. unfold unit_vector. cbn [replicate].
  destruct i as [|i]; cbn [insert list_insert dot].
  - rewrite dot_zeros. lia.
  - specialize (IH i (a + 1) ltac:(lia)). unfold unit_vector in IH. rewrite Z.mul_0_r, Z.add_0_l. etrans; [exact IH|lia].
Qed.

Lemma unit_vector_ok k i : length (unit_vector k i) = k ∧ Forall (Z.le 0) (unit_vector k i).
Proof.
  unfold unit_vector. rewrite length_insert, length_replicate. split; [done|].
  apply Forall_insert; [by apply Forall_replicate|lia].
Qed.

Lemma dot_units c i k :
  foldr (λ ah s, ah.1 * ah.2 + s) 0 (zip c ((λ j, i + 1 + Z.of_nat j) <$> seq k (length c))) = dot (i + Z.of_nat k) c.
Proof.
  revert k. induction c as [|x c IH]; intros k; [done|]. cbn [length seq fmap list_fmap zip zip_with foldr dot fst snd].
  change (list_fmap _ _ ?f ?l) with (f <$> l). rewrite IH. replace (i + Z.of_nat (S k)) with (i + Z.of_nat k + 1) by lia. lia.
Qed.

Lemma combine_units k hh c :
  hh_ok k hh → length c = k → Forall (Z.le 0) c → combine_many hh c (gens hh) = hash hh c.
Proof.
  intros Hok Hk Hc. rewrite (hash_spec k) by done. unfold combine_many.
  assert (zip c (gens hh) = prod_map id G <$> zip c ((λ j, 0 + 1 + Z.of_nat j) <$> seq 0 (length c))) as ->.
  { rewrite (hh_gens _ _ Hok), <-Hk. clear. generalize 0%nat. induction c as [|x c IH]; intros m; [done|]. cbn. f_equal.
    apply IH. }
  rewrite <-G_0 at 1. rewrite (combine_loop_spec k); [by rewrite dot_units|done|done|].
  clear -Hc. generalize 0%nat. induction Hc; intros m; cbn; constructor; [cbn; lia|auto].
Qed.

(** What [verify_coded] checks.  Against the hashes of the unit vectors it
    accepts a presented vector for the hash of a claimed one exactly when their
    weighted coordinate sums [sum (i + 1) * c_i] agree modulo [Q]; vectors of
    another length are refused with an error. *)
Theorem verify_coded_exact k hh units claimed h c :
  HomomorphicHash_new k = Ok hh →
  Forall2 (λ i u, hash hh (unit_vector k i) = Ok u) (seq 0 k) units →
  length claimed = k → Forall (Z.le 0) claimed → hash hh claimed = Ok h → Forall (Z.le 0) c →
  verify_coded hh units c h =
    if zlen c =? Z.of_nat k then Ok (bool_decide (dot 0 c mod Q = dot 0 claimed mod Q))
    else Err (Length (zlen c) (Z.of_nat k)).
Proof.
  intros Hok%hh_new_inv Hu Hl Hcl Hh Hc.
  assert (units = gens hh) as ->.
  { rewrite (hh_gens _ _ Hok). pose proof (Forall2_length Hu) as Hlen. rewrite length_seq in Hlen.
    apply (list_eq_same_length _ _ k); [by rewrite length_fmap, length_seq|done|]. intros i x y Hi Hx Hy.
    rewrite list_lookup_fmap, lookup_seq_lt in Hy by done. injection Hy as <-.
    assert (hash hh (unit_vector k i) = Ok x) as E by exact (Forall2_lookup_lr _ _ _ i i x Hu (lookup_seq_lt 0 k i Hi) Hx).
    destruct (unit_vector_ok k i). rewrite (hash_spec k), dot_unit in E by done. by injection E. }
  unfold verify_coded. assert (zlen (gens hh) = Z.of_nat k) as ->
    by (rewrite (hh_gens _ _ Hok); unfold zlen; by rewrite length_fmap, length_seq).
  destruct (Z.eqb_spec (zlen c) (Z.of_nat k)) as [Hk|]; [|done]. rewrite (combine_units k) by (done || unfold zlen in Hk; lia).
  rewrite (hash_spec k) in * by (done || unfold zlen in Hk; lia). cbn [obind]. injection Hh as <-. f_equal.
  apply eq_bool_prop_intro. rewrite Is_true_true, Z.eqb_eq, bool_decide_spec.
  apply G_inj; by apply dot_nonneg.
Qed.

(** ** Witnesses *)

Definition hh2 : HomomorphicHash := match HomomorphicHash_new 2 with Ok hh => hh | _ => mkHH [] [] ∅ end.
Lemma hh2_new : HomomorphicHash_new 2 = Ok hh2.
Proof. unfold hh2. destruct (hh_new_spec 2) as (hh & E & _). by rewrite E. Qed.

Lemma homohash_linear_witness :
  hash hh2 (lincomb 2 (zip [3; 5] [[1; 2]; [7; 11]]))
  = combine_many hh2 [3; 5] [G 5; G 29].
Proof.
  apply (homohash_linear 2 hh2 [3; 5] [[1; 2]; [7; 11]] [G 5; G 29] hh2_new); [done|repeat constructor; lia|..].
  - repeat constructor; lia.
  - repeat constructor; apply (hash_spec 2); first [apply (hh_new_inv 2), hh2_new|done|repeat constructor; lia].
Defined.

(** A forged vector: [2 * e_0] has the hash of [e_1]. *)
Lemma verify_coded_exact_witness : verify_coded hh2 [G 1; G 2] [2; 0] (G 2) = Ok true.
Proof.
  apply (verify_coded_exact 2 hh2 [G 1; G 2] [0; 1] (G 2) [2; 0] hh2_new);
    repeat constructor; try lia; apply (hash_spec 2); first [apply (hh_new_inv 2), hh2_new|done|repeat constructor; lia].
Defined.

(** The generator of coordinate 1320 is one: with more than [Q - 1] coordinates
    the hash does not depend on that one. *)
Lemma coordinate_ignored : G (1 + 1320) = 1.
Proof. apply G_order. Qed.
