(* ===== verification/Placement.v ===== *)
(** * Placement: session shards and the consistent-hash ring

    [core/src/session.rs] (shards), [coding/src/fib_hash.rs] and
    [coding/src/placement.rs] are multiplications by the odd constant
    [0x9E3779B97F4A7C15] modulo [2 ^ 64].  [golden_bij] inverts it: shards are
    exactly balanced and ring positions never collide.  [GoldenRing] is proved
    to route every key to the clockwise nearest member ([route_spec]), which
    gives the minimal disruption of consistent hashing.

    Overflow checks: [checks] says whether the build has them; a shift by 64 or
    more panics with them and is taken modulo 64 without. *)

From stdpp Require Import sorting.
From S2P Require Import Prelude F64.

Definition GOLDEN64 : Z := 0x9E3779B97F4A7C15.

(** [u64::wrapping_mul]. *)
Definition wrapping_mul (a b : Z) : Z := wrap 64 (a * b).

(** ** [fib_hash.rs] *)

Section hash.
Context (checks : bool) {E : Type}.

(** [x >> (64 - b)] on a [u64] and a [u32] count. *)
Definition top_bits (x b : Z) : outcome E Z :=
  if (0 <? b) && (b <=? 64) then Ok (Z.shiftr x (64 - b))
  else if checks then Panic else Ok (Z.shiftr x ((64 - b) mod 64)).

Definition fib_hash64_u64 (key b : Z) : outcome E Z := top_bits (wrapping_mul key GOLDEN64) b.

Definition fib_hash64 (key b : Z) : outcome E Z :=
  let lo := wrap 64 key in
  let mixed := Z.lxor lo (wrap 64 (Z.shiftr key 64)) in
  top_bits (wrapping_mul mixed GOLDEN64) b.
End hash.

(** ** [session.rs] *)

(** [usize::is_power_of_two] and [usize::trailing_zeros]. *)
Definition is_power_of_two (n : Z) : bool := (0 <? n) && (Z.land n (n - 1) =? 0).
Definition trailing_zeros (n : Z) : Z :=
  match n with
  | Zpos p => (fix tz p := match p with xO p => 1 + tz p | _ => 0 end) p
  | _ => 64
  end.

(** [SessionId::shard]: [n = 0] fails the debug assertion, or divides by zero. *)
Definition shard {E} (id n : Z) : outcome E Z :=
  if n <=? 0 then Panic
  else if n =? 1 then Ok 0
  else
    let lo := Z.land id 0xFFFFFFFFFFFFFFFF in
    let prod := wrapping_mul lo GOLDEN64 in
    if is_power_of_two n then let b := trailing_zeros n in Ok (Z.shiftr prod (64 - b))
    else Ok (prod mod n).

(** ** [placement.rs] *)

Definition placement_fixed (n : Z) : Z := wrap 64 (wrap 128 (n * GOLDEN64)).

Definition placement (n : Z) : f64 :=
  let frac_bits := wrap 64 (wrap 128 (n * GOLDEN64)) in
  f64_div (f64_of_usize frac_bits) (f64_of_usize (2 ^ 64 - 1)).

(** A [BTreeMap<u64, u64>]: the entries in increasing order of their keys. *)
Fixpoint bt_insert (k v : Z) (m : list (Z * Z)) : list (Z * Z) :=
  match m with
  | [] => [(k, v)]
  | (k', v') :: m' =>
      if k <? k' then (k, v) :: m
      else if k =? k' then (k, v) :: m'
      else (k', v') :: bt_insert k v m'
  end.
Definition bt_remove (k : Z) (m : list (Z * Z)) : list (Z * Z) := filter (λ e, e.1 ≠ k) m.
(** [range(k..).next()]. *)
Fixpoint bt_range_first (k : Z) (m : list (Z * Z)) : option (Z * Z) :=
  match m with
  | [] => None
  | e :: m => if k <=? e.1 then Some e else bt_range_first k m
  end.

Record GoldenRing : Type := mkRing {
  nodes : list (Z * Z);
  id_to_pos : gmap Z Z;
  counter : Z
}.

Definition GoldenRing_new : GoldenRing := mkRing [] ∅ 0.

Definition ring_add (r : GoldenRing) (entity_id : Z) : GoldenRing :=
  match id_to_pos r !! entity_id with
  | Some _ => r
  | None =>
      let pos := placement_fixed (counter r) in
      mkRing (bt_insert pos entity_id (nodes r)) (<[entity_id := pos]> (id_to_pos r)) (counter r + 1)
  end.

Definition ring_remove (r : GoldenRing) (entity_id : Z) : GoldenRing * bool :=
  match id_to_pos r !! entity_id with
  | Some pos => (mkRing (bt_remove pos (nodes r)) (delete entity_id (id_to_pos r)) (counter r), true)
  | None => (r, false)
  end.

Definition route (r : GoldenRing) (key : Z) : option Z :=
  match nodes r with
  | [] => None
  | first :: _ =>
      let k := placement_fixed key in
      match bt_range_first k (nodes r) with
      | Some (_, id) => Some id
      | None => Some first.2
      end
  end.

Definition ring_len (r : GoldenRing) : Z := zlen (nodes r).
Definition ring_is_empty (r : GoldenRing) : bool := match nodes r with [] => true | _ => false end.

(** Loads of eight members under 128 keys, as in the unit test with 1024. *)
Example loads :
  let ring := foldl ring_add GoldenRing_new (Z.of_nat <$> seq 0 8) in
  let load i := length (filter (λ k, route ring (Z.of_nat k) = Some i) (seq 0 128)) in
  load <$> (Z.of_nat <$> seq 0 8) = [19; 19; 18; 18; 18; 12; 12; 12]%nat.
Proof. vm_compute. reflexivity. Qed.

(** ** The multiplier is invertible *)

Lemma wrap_range w z : 0 ≤ w → 0 ≤ wrap w z < 2 ^ w.
Proof. intros Hw. apply Z.mod_pos_bound. by apply Z.pow_pos_nonneg. Qed.

(** The inverse of [GOLDEN64] modulo [2 ^ 64], by Newton iteration. *)
Definition GOLDEN_INV : Z :=
  Eval vm_compute in Nat.iter 6 (λ x, x * (2 - GOLDEN64 * x) mod 2 ^ 64) GOLDEN64.

Lemma golden_inv : GOLDEN_INV * GOLDEN64 mod 2 ^ 64 = 1.
Proof. vm_compute. reflexivity. Qed.

Lemma golden_undo x : 0 ≤ x < 2 ^ 64 → wrapping_mul (wrapping_mul x GOLDEN_INV) GOLDEN64 = x.
Proof.
  intros Hx. unfold wrapping_mul, wrap. rewrite Zmult_mod_idemp_l, <-Z.mul_assoc.
  rewrite <-Zmult_mod_idemp_r, golden_inv, Z.mul_1_r. by apply Z.mod_small.
Qed.

Lemma golden_undo' x : 0 ≤ x < 2 ^ 64 → wrapping_mul (wrapping_mul x GOLDEN64) GOLDEN_INV = x.
Proof.
  intros Hx. unfold wrapping_mul, wrap. rewrite Zmult_mod_idemp_l, <-Z.mul_assoc, (Z.mul_comm GOLDEN64).
  rewrite <-Zmult_mod_idemp_r, golden_inv, Z.mul_1_r. by apply Z.mod_small.
Qed.

Lemma placement_fixed_mul n : placement_fixed n = wrapping_mul n GOLDEN64.
Proof.
  unfold placement_fixed, wrapping_mul, wrap. apply Z.mod_mod_divide.
  by exists (2 ^ 64).
Qed.

Lemma placement_fixed_range n : 0 ≤ placement_fixed n < 2 ^ 64.
Proof. by apply wrap_range. Qed.

Lemma placement_fixed_inj a b :
  0 ≤ a < 2 ^ 64 → 0 ≤ b < 2 ^ 64 → placement_fixed a = placement_fixed b → a = b.
Proof.
  rewrite !placement_fixed_mul. intros Ha Hb E.
  by rewrite <-(golden_undo' a), <-(golden_undo' b), E.
Qed.

(** ** Shards *)

Lemma top_bits_ok checks {E} x b : 1 ≤ b ≤ 64 → top_bits checks (E:=E) x b = Ok (x / 2 ^ (64 - b)).
Proof.
  intros Hb. unfold top_bits. rewrite (proj2 (Z.ltb_lt _ _)), (proj2 (Z.leb_le _ _)) by lia. cbn.
  by rewrite Z.shiftr_div_pow2 by lia.
Qed.

Lemma top_bits_range x b : 1 ≤ b ≤ 64 → 0 ≤ x < 2 ^ 64 → 0 ≤ x / 2 ^ (64 - b) < 2 ^ b.
Proof.
  intros Hb Hx. assert (0 < 2 ^ (64 - b)) by (apply Z.pow_pos_nonneg; lia).
  split; [apply Z.div_pos; lia|]. apply Z.div_lt_upper_bound; [done|].
  rewrite <-Z.pow_add_r by lia. replace (64 - b + b) with 64 by lia. lia.
Qed.

Lemma power_of_two_spec n : 0 < n → is_power_of_two n = true → n = 2 ^ trailing_zeros n.
Proof.
  destruct n as [|p|]; [done| |done]. intros _. unfold is_power_of_two. cbn [Z.ltb Z.compare andb].
  induction p as [p IH|p IH|]; intros H; [exfalso| |done].
  - assert (Z.land (Zpos p~1) (Zpos p~1 - 1) = 2 * Zpos p) as E; [|apply Z.eqb_eq in H; lia].
    change (Zpos p~1 - 1) with (2 * Zpos p). rewrite Pos2Z.inj_xI. apply Z.bits_inj'. intros m Hm.
    rewrite Z.land_spec. destruct (decide (m = 0)) as [->|].
    + by rewrite Z.testbit_even_0, andb_false_r.
    + replace m with (Z.succ (m - 1)) by lia.
      rewrite Z.testbit_even_succ, Z.testbit_odd_succ by lia. apply andb_diag.
  - assert (Z.land (Zpos p~0) (Zpos p~0 - 1) = 2 * Z.land (Zpos p) (Zpos p - 1)) as E.
    { replace (Zpos p~0 - 1) with (2 * (Zpos p - 1) + 1) by lia. change (Zpos p~0) with (2 * Zpos p).
      apply Z.bits_inj'. intros m Hm. rewrite Z.land_spec. destruct (decide (m = 0)) as [->|].
      - by rewrite !Z.testbit_even_0.
      - replace m with (Z.succ (m - 1)) by lia.
        rewrite !Z.testbit_even_succ, Z.testbit_odd_succ, Z.land_spec by lia. done. }
    apply Z.eqb_eq in H. rewrite E in H. rewrite Pos2Z.inj_xO, IH at 1 by (apply Z.eqb_eq; lia).
    change (trailing_zeros (Zpos p~0)) with (1 + trailing_zeros (Zpos p)).
    rewrite Z.pow_add_r; [done|done|]. clear. cbn. induction p; lia.
Qed.

Lemma trailing_zeros_nonneg p : 0 ≤ trailing_zeros (Zpos p).
Proof. cbn. induction p; lia. Qed.

(** C39: [SessionId::shard] returns one of the [n] shards for every session and
    every [n] from 1 to [2 ^ 63]; for [n = 0] it panics. *)
Theorem shard_in_range id n :
  (1 ≤ n ≤ 2 ^ 63 → ∃ s, shard (E:=unit) id n = Ok s ∧ 0 ≤ s < n) ∧ shard (E:=unit) id 0 = Panic.
Proof.
  split; [|done]. intros Hn. unfold shard. rewrite (proj2 (Z.leb_gt _ _)) by lia.
  zcase; [exists 0; split; [done|lia]|]. set (prod := wrapping_mul _ _).
  assert (0 ≤ prod < 2 ^ 64) as Hp by by apply wrap_range.
  destruct (is_power_of_two n) eqn:H2.
  - assert (n = 2 ^ trailing_zeros n) as Ht by (apply power_of_two_spec; [lia|done]).
    assert (0 ≤ trailing_zeros n) as Hnn by (destruct n; [lia|apply trailing_zeros_nonneg|lia]).
    assert (1 ≤ trailing_zeros n ≤ 63) as Hb.
    { split; [destruct (decide (trailing_zeros n = 0)) as [E|]; [rewrite E in Ht; cbn in Ht|]; lia|].
      apply (Z.pow_le_mono_r_iff 2); lia. }
    eexists; split; [done|]. rewrite Z.shiftr_div_pow2 by lia. rewrite Ht at 3.
    apply top_bits_range; [lia|done].
  - eexists; split; [done|]. apply Z.mod_pos_bound. lia.
Qed.

Lemma pow2_shards b : 1 ≤ b ≤ 63 → is_power_of_two (2 ^ b) = true ∧ trailing_zeros (2 ^ b) = b.
Proof.
  intros Hb.
  assert (forallb (λ b, is_power_of_two (2 ^ b) && (trailing_zeros (2 ^ b) =? b)) (Z.of_nat <$> seq 1 63) = true) as H
    by (vm_compute; reflexivity).
  rewrite List.forallb_forall in H. specialize (H b). rewrite andb_true_iff, Z.eqb_eq in H. apply H.
  rewrite <-(Z2Nat.id b) by lia. apply in_map, in_seq. lia.
Qed.

Lemma shard_pow2 {E} lo b :
  0 ≤ lo < 2 ^ 64 → 1 ≤ b ≤ 63 → shard (E:=E) lo (2 ^ b) = Ok (wrapping_mul lo GOLDEN64 / 2 ^ (64 - b)).
Proof.
  intros Hlo Hb. destruct (pow2_shards b Hb) as [Hp Ht]. unfold shard.
  assert (2 ≤ 2 ^ b) by (change 2 with (2 ^ 1) at 1; apply Z.pow_le_mono_r; lia).
  rewrite (proj2 (Z.leb_gt _ _)), (proj2 (Z.eqb_neq _ _)) by lia. rewrite Hp, Ht.
  change 0xFFFFFFFFFFFFFFFF with (Z.ones 64). rewrite Z.land_ones, Z.mod_small, Z.shiftr_div_pow2 by lia. done.
Qed.

(** The [r]-th low word of shard [s] among [2 ^ b]. *)
Definition shard_member (b s r : Z) : Z := wrapping_mul (s * 2 ^ (64 - b) + r) GOLDEN_INV.

(** Shards are exactly balanced: over the [2 ^ 64] low words of session ids,
    each of [2 ^ b] shards receives exactly [2 ^ (64 - b)], enumerated by
    [shard_member]; and a power-of-two shard is the top-bits hash of the low
    word. *)
Theorem shard_balanced b s lo :
  1 ≤ b ≤ 63 → 0 ≤ s < 2 ^ b → 0 ≤ lo < 2 ^ 64 →
  (shard (E:=unit) lo (2 ^ b) = Ok s ↔ ∃ r, 0 ≤ r < 2 ^ (64 - b) ∧ lo = shard_member b s r) ∧
  (∀ r r', 0 ≤ r < 2 ^ (64 - b) → 0 ≤ r' < 2 ^ (64 - b) → shard_member b s r = shard_member b s r' → r = r') ∧
  (∀ checks, shard (E:=unit) lo (2 ^ b) = fib_hash64_u64 checks lo b).
Proof.
  intros Hb Hs Hlo. rewrite shard_pow2 by done. set (w := 2 ^ (64 - b)).
  assert (0 < w) as Hw by (apply Z.pow_pos_nonneg; lia).
  assert (w * 2 ^ b = 2 ^ 64) as Hwb by (unfold w; rewrite <-Z.pow_add_r by lia; f_equal; lia).
  assert (∀ r, 0 ≤ r < w → 0 ≤ s * w + r < 2 ^ 64) as Hr by nia.
  split_and!.
  - split.
    + intros [= <-]. set (x := wrapping_mul lo GOLDEN64). exists (x mod w).
      split; [by apply Z.mod_pos_bound|]. unfold shard_member. fold w.
      rewrite (Z.mul_comm (x / w)), <-Z.div_mod by lia. unfold x. by rewrite golden_undo'.
    + intros (r & Hr' & ->). f_equal. unfold shard_member. fold w. rewrite golden_undo by auto.
      symmetry. apply (Z.div_unique_pos _ _ _ r); lia.
  - intros r r' Hr1 Hr2 E. unfold shard_member in E. fold w in E.
    enough (s * w + r = s * w + r') by lia.
    by rewrite <-(golden_undo (s * w + r)), <-(golden_undo (s * w + r')), E by auto.
  - intros checks. unfold fib_hash64_u64. by rewrite top_bits_ok by lia.
Qed.

Lemma shard_balanced_witness :
  shard (E:=unit) 5 (2 ^ 3) = Ok 0 ↔ ∃ r, 0 ≤ r < 2 ^ (64 - 3) ∧ 5 = shard_member 3 0 r.
Proof. apply (shard_balanced 3 0 5); lia. Defined.

(** Sessions that differ only in the upper half of their id share their shard. *)
Lemma shard_ignores_high {E} id n : shard (E:=E) id n = shard (Z.land id 0xFFFFFFFFFFFFFFFF) n.
Proof. unfold shard. by rewrite <-Z.land_assoc. Qed.

(** A position documented as below one can be one: the 64 bits are rounded. *)
Lemma placement_reaches_one :
  f64_eq (placement (wrapping_mul (2 ^ 64 - 1) GOLDEN_INV)) (f64_of_usize 1) = true.
Proof. vm_compute. reflexivity. Qed.

(** Zero bits are not a valid shard width: the build decides between a panic
    and a full 64-bit value. *)
Lemma zero_width :
  fib_hash64 (E:=unit) true 1 0 = Panic ∧ fib_hash64 (E:=unit) false 1 0 = Ok GOLDEN64.
Proof. vm_compute. split; reflexivity. Qed.

(** ** The ring *)

Definition bt_sorted (m : list (Z * Z)) : Prop := StronglySorted (λ a b, a.1 < b.1) m.

Lemma bt_insert_elem k v m e :
  bt_sorted m → e ∈ bt_insert k v m ↔ e = (k, v) ∨ (e ∈ m ∧ e.1 ≠ k).
Proof.
  induction 1 as [|[k' v'] m Hs IH Hf]; cbn; [set_solver|].
  rewrite Forall_elem in Hf. cbn in Hf.
  zcase.
  - rewrite elem_of_cons. split; [|naive_solver]. intros [->|He]; [by left|]. right. split; [done|].
    apply elem_of_cons in He as [->|He]; cbn; [lia|]. specialize (Hf _ He). lia.
  - zcase; rewrite ?elem_of_cons, ?IH.
    + subst. split; [intros [->|He]|]; [by left| |naive_solver].
      right. split; [by right|]. specialize (Hf _ He). lia.
    + split; [|naive_solver]. intros [->|[->|[He ?]]]; [right|by left|right]; cbn; split; auto with lia.
Qed.

Lemma ring_insert_sorted k v m : bt_sorted m → bt_sorted (bt_insert k v m).
Proof.
  induction 1 as [|[k' v'] m Hs IH Hf]; cbn; [repeat constructor|].
  rewrite Forall_elem in Hf. cbn in Hf.
  zcase; [|zcase].
  - constructor; [by constructor; [|apply Forall_elem]|]. apply Forall_elem.
    intros e [->|He]%elem_of_cons; cbn; [lia|]. specialize (Hf _ He). cbn in Hf. lia.
  - subst. by constructor; [|apply Forall_elem].
  - constructor; [done|]. apply Forall_elem.
    intros e He. apply bt_insert_elem in He as [->|[He _]]; [cbn; lia|auto|done].
Qed.

Lemma bt_remove_sorted k m : bt_sorted m → bt_sorted (bt_remove k m).
Proof.
  induction 1 as [|e m Hs IH Hf]; [constructor|]. unfold bt_remove. rewrite filter_cons. fold (bt_remove k m).
  case_decide; [|done]. constructor; [done|]. rewrite Forall_elem in *. intros e' He'.
  apply list_elem_of_filter in He' as [_ He']. auto.
Qed.

Lemma bt_range_first_spec k m :
  bt_sorted m →
  match bt_range_first k m with
  | Some e => e ∈ m ∧ k ≤ e.1 ∧ ∀ e', e' ∈ m → k ≤ e'.1 → e.1 ≤ e'.1
  | None => ∀ e, e ∈ m → e.1 < k
  end.
Proof.
  induction 1 as [|e m Hs IH Hf]; cbn; [set_solver|].
  rewrite Forall_elem in Hf. zcase.
  - split; [set_solver|]. split; [done|]. intros e' [->|He']%elem_of_cons _; [lia|]. specialize (Hf _ He'). lia.
  - destruct (bt_range_first k m) as [e0|].
    + destruct IH as (? & ? & Hmin). split; [set_solver|]. split; [done|].
      intros e' [->|He']%elem_of_cons Hk; [lia|auto].
    + intros e' [->|He']%elem_of_cons; [lia|auto].
Qed.

Record ring_ok (r : GoldenRing) : Prop := {
  ro_sorted : bt_sorted (nodes r);
  ro_inverse : ∀ p id, (p, id) ∈ nodes r ↔ id_to_pos r !! id = Some p;
  ro_golden : ∀ id p, id_to_pos r !! id = Some p → ∃ c, 0 ≤ c < counter r ∧ p = placement_fixed c;
  ro_counter : 0 ≤ counter r
}.

Lemma bt_functional m p a b : bt_sorted m → (p, a) ∈ m → (p, b) ∈ m → a = b.
Proof.
  induction 1 as [|e m Hs IH Hf]; [set_solver|].
  rewrite Forall_elem in Hf.
  rewrite !elem_of_cons. intros [<-|Ha] [Hb|Hb]; [by injection Hb|..]; [specialize (Hf _ Hb); cbn in *; lia| |auto].
  subst e. specialize (Hf _ Ha). cbn in Hf. lia.
Qed.

(** Members have distinct positions. *)
Lemma ring_pos_inj r a b p :
  ring_ok r → id_to_pos r !! a = Some p → id_to_pos r !! b = Some p → a = b.
Proof. intros [Hs Hi _ _] Ha%Hi Hb%Hi. by eapply bt_functional. Qed.

Lemma ring_pos_range r id p : ring_ok r → id_to_pos r !! id = Some p → 0 ≤ p < 2 ^ 64.
Proof. intros [_ _ Hg _] Hp. destruct (Hg _ _ Hp) as (c & _ & ->). apply placement_fixed_range. Qed.

Lemma ring_new_ok : ring_ok GoldenRing_new.
Proof. split; cbn; [constructor|set_solver|set_solver|done]. Qed.

(** A new member takes a position of its own. *)
Lemma add_ok r id : ring_ok r → counter r < 2 ^ 64 → ring_ok (ring_add r id).
Proof.
  intros Hok Hc. pose proof Hok as [Hs Hi Hg Hn]. unfold ring_add. destruct (id_to_pos r !! id) as [|] eqn:Hid; [done|].
  set (pos := placement_fixed (counter r)).
  assert (∀ p a, id_to_pos r !! a = Some p → p ≠ pos) as Hfresh.
  { intros p a Ha ->. destruct (Hg _ _ Ha) as (c & Hc' & E). apply placement_fixed_inj in E; lia. }
  split; cbn [nodes id_to_pos counter].
  - by apply ring_insert_sorted.
  - intros p a. rewrite bt_insert_elem, Hi, lookup_insert_Some by done. cbn. split.
    + intros [[= -> ->]|[Ha _]]; [by left|]. right. split; [congruence|done].
    + intros [[-> ->]|[_ Ha]]; [by left|]. right. eauto.
  - intros a p [[<- <-]|[_ Ha]]%lookup_insert_Some; [exists (counter r); split; [lia|done]|].
    destruct (Hg _ _ Ha) as (c & ? & ->). exists c. split; [lia|done].
  - lia.
Qed.

Lemma remove_ok r id : ring_ok r → ring_ok (ring_remove r id).1.
Proof.
  intros Hok. pose proof Hok as [Hs Hi Hg Hn]. unfold ring_remove. destruct (id_to_pos r !! id) as [pos|] eqn:Hid; [|done].
  split; cbn [fst nodes id_to_pos counter].
  - by apply bt_remove_sorted.
  - intros p a. unfold bt_remove. rewrite list_elem_of_filter, Hi, lookup_delete_Some. cbn. split.
    + intros [Hp Ha]. split; [congruence|done].
    + intros [Hne Ha]. split; [|done]. intros ->. by eapply Hne, ring_pos_inj.
  - intros a p [_ Ha]%lookup_delete_Some. eauto.
  - done.
Qed.

(** Clockwise distance from [k] to [p]. *)
Definition clockwise (k p : Z) : Z := (p - k) mod 2 ^ 64.

Lemma clockwise_case k p : 0 ≤ k < 2 ^ 64 → 0 ≤ p < 2 ^ 64 →
  clockwise k p = if k <=? p then p - k else p - k + 2 ^ 64.
Proof.
  intros. unfold clockwise. zcase; symmetry; [apply (Z.mod_unique_pos _ _ 0)|apply (Z.mod_unique_pos _ _ (-1))]; lia.
Qed.

(** The member nearest clockwise from the key. *)
Definition nearest (r : GoldenRing) (key id : Z) : Prop :=
  ∃ p, id_to_pos r !! id = Some p ∧
    ∀ id' p', id_to_pos r !! id' = Some p' → clockwise (placement_fixed key) p ≤ clockwise (placement_fixed key) p'.

Lemma nearest_unique r key a b : ring_ok r → nearest r key a → nearest r key b → a = b.
Proof.
  intros Hok (p & Ha & Hpa) (q & Hb & Hqb). specialize (Hpa _ _ Hb). specialize (Hqb _ _ Ha).
  pose proof (ring_pos_range _ _ _ Hok Ha). pose proof (ring_pos_range _ _ _ Hok Hb).
  pose proof (placement_fixed_range key). rewrite !clockwise_case in * by done.
  assert (p = q) as -> by (repeat zcase; lia). by eapply ring_pos_inj.
Qed.

Lemma route_nearest r key id : ring_ok r → route r key = Some id → nearest r key id.
Proof.
  intros Hok. pose proof Hok as [Hs Hi _ _]. unfold route, nearest.
  pose proof (bt_range_first_spec (placement_fixed key) _ Hs) as Hf. pose proof (placement_fixed_range key).
  destruct (nodes r) as [|first m] eqn:Hm; [done|].
  destruct (bt_range_first _ _) as [[p i]|]; intros [= <-].
  - destruct Hf as (Hin & Hk & Hmin). exists p. cbn in *. split; [by apply Hi|]. intros id' p' Hp'.
    pose proof (ring_pos_range _ _ _ Hok Hp'). pose proof (ring_pos_range _ _ _ Hok (proj1 (Hi _ _) Hin)).
    apply Hi in Hp'. specialize (Hmin _ Hp'). cbn in Hmin. rewrite !clockwise_case by done. repeat zcase; lia.
  - destruct first as [p i]. exists p. split; [apply Hi; set_solver|]. intros id' p' Hp'. cbn.
    assert (id_to_pos r !! i = Some p) as Hp by (apply Hi; set_solver).
    pose proof (ring_pos_range _ _ _ Hok Hp'). pose proof (ring_pos_range _ _ _ Hok Hp).
    apply Hi in Hp'. pose proof (Hf _ Hp') as Hlt. cbn in Hlt.
    pose proof (Hf (p, i) ltac:(set_solver)) as Hlt0. cbn in Hlt0.
    assert (p ≤ p') as Hle.
    { apply elem_of_cons in Hp' as [[= -> ->]|Hin]; [done|]. inversion_clear Hs as [|? ? _ Hall].
      rewrite Forall_elem in Hall. specialize (Hall _ Hin). cbn in Hall. lia. }
    rewrite !clockwise_case by done. repeat zcase; lia.
Qed.

Lemma route_none r key : ring_ok r → route r key = None ↔ id_to_pos r = ∅.
Proof.
  intros [_ Hi _ _]. unfold route. split.
  - destruct (nodes r) as [|e m] eqn:Hm; [|by destruct (bt_range_first _ _) as [[??]|]]. intros _.
    apply map_empty. intros id. apply eq_None_not_Some. intros [p Hp]. apply Hi in Hp. set_solver.
  - intros E. destruct (nodes r) as [|[p id] m] eqn:Hm; [done|].
    assert (id_to_pos r !! id = Some p) as Hp by (apply Hi; set_solver). by rewrite E in Hp.
Qed.

(** [route] computes the nearest member. *)
Lemma route_spec r key id : ring_ok r → route r key = Some id ↔ nearest r key id.
Proof.
  intros Hok. split; [by apply route_nearest|]. intros Hn. destruct (route r key) as [id'|] eqn:Hr.
  - f_equal. apply (nearest_unique r key); auto. by apply route_nearest.
  - apply route_none in Hr; [|done]. destruct Hn as (p & Hp & _). by rewrite Hr in Hp.
Qed.

(** ** Histories of a ring *)

Inductive RingOp : Type := Add (id : Z) | Remove (id : Z).

Definition ring_exec (r : GoldenRing) (op : RingOp) : GoldenRing :=
  match op with Add id => ring_add r id | Remove id => (ring_remove r id).1 end.
Definition ring_run (ops : list RingOp) : GoldenRing := foldl ring_exec GoldenRing_new ops.

(** The abstract ring: its set of members. *)
Definition members_exec (M : gset Z) (op : RingOp) : gset Z :=
  match op with Add id => {[id]} ∪ M | Remove id => M ∖ {[id]} end.
Definition members (ops : list RingOp) : gset Z := foldl members_exec ∅ ops.

Lemma add_counter r id : counter r ≤ counter (ring_add r id) ≤ counter r + 1.
Proof. unfold ring_add. destruct (id_to_pos r !! id); cbn; lia. Qed.

Lemma ring_exec_ok r op :
  ring_ok r → counter r < 2 ^ 64 →
  ring_ok (ring_exec r op) ∧ counter (ring_exec r op) ≤ counter r + 1 ∧
  dom (id_to_pos (ring_exec r op)) = members_exec (dom (id_to_pos r)) op.
Proof.
  intros Hok Hc. destruct op as [id|id]; cbn [ring_exec members_exec]; split_and!.
  - by apply add_ok.
  - apply add_counter.
  - unfold ring_add. destruct (id_to_pos r !! id) as [p|] eqn:Hp; cbn.
    + apply elem_of_dom_2 in Hp. set_solver.
    + by rewrite dom_insert_L.
  - by apply remove_ok.
  - unfold ring_remove. destruct (id_to_pos r !! id); cbn; lia.
  - unfold ring_remove. destruct (id_to_pos r !! id) as [p|] eqn:Hp; cbn; [by rewrite dom_delete_L|].
    apply not_elem_of_dom in Hp. set_solver.
Qed.

Lemma ring_run_ok ops :
  zlen ops ≤ 2 ^ 64 →
  ring_ok (ring_run ops) ∧ counter (ring_run ops) ≤ zlen ops ∧ dom (id_to_pos (ring_run ops)) = members ops.
Proof.
  induction ops as [|op ops IH] using rev_ind; intros Hl.
  { split_and!; [apply ring_new_ok|done|done]. }
  autorewrite with zlen in Hl |- *. destruct IH as (Hok & Hc & Hd); [lia|].
  unfold ring_run, members in *. rewrite !foldl_app. cbn [foldl].
  destruct (ring_exec_ok _ op Hok ltac:(lia)) as (H1 & H2 & H3). split_and!; [done|lia|by rewrite H3, Hd].
Qed.

(** The nodes are the entries of the reverse map. *)
Lemma ring_len_size r : ring_ok r → ring_len r = Z.of_nat (size (dom (id_to_pos r))).
Proof.
  intros [Hs Hi _ _]. unfold ring_len, zlen. f_equal.
  rewrite size_dom, <-(length_map_to_list (id_to_pos r)).
  rewrite <-(length_fmap (λ e, (e.2, e.1)) (nodes r)). apply Permutation_length, NoDup_Permutation.
  - apply NoDup_fmap_2; [intros [??] [??] [= -> ->]; done|].
    clear -Hs. induction Hs as [|e m _ IH Hf]; constructor; [|done]. intros He.
    rewrite Forall_elem in Hf. specialize (Hf _ He). lia.
  - apply NoDup_map_to_list.
  - intros [id p]. rewrite elem_of_map_to_list, <-Hi, list_elem_of_fmap. split; [|by exists (p, id)].
    intros ([p' id'] & [= -> ->] & Hin). done.
Qed.

(** C23: The ring refines a set of members.  After any history of additions and
    removals its members are the set's, its length is their number, removal
    reports membership, and a key is routed to the member nearest clockwise
    from its position (to none exactly when there are no members). *)
Theorem ring_refines_set ops key id :
  zlen ops ≤ 2 ^ 64 →
  ring_len (ring_run ops) = Z.of_nat (size (members ops)) ∧
  ring_is_empty (ring_run ops) = bool_decide (members ops = ∅) ∧
  (ring_remove (ring_run ops) id).2 = bool_decide (id ∈ members ops) ∧
  (route (ring_run ops) key = None ↔ members ops = ∅) ∧
  (route (ring_run ops) key = Some id ↔ nearest (ring_run ops) key id).
Proof.
  intros Hl. destruct (ring_run_ok ops Hl) as (Hok & _ & Hd). rewrite <-Hd. split_and!.
  - by apply ring_len_size.
  - pose proof (ring_len_size _ Hok) as Hlen. unfold ring_len, ring_is_empty in *.
    destruct (nodes (ring_run ops)); symmetry; [apply bool_decide_eq_true_2|apply bool_decide_eq_false_2].
    + apply leibniz_equiv, size_empty_inv. unfold zlen in Hlen. cbn in Hlen. lia.
    + intros E. rewrite E, size_empty, zlen_cons in Hlen. pose proof (zlen_nonneg l). lia.
  - unfold ring_remove. destruct (id_to_pos (ring_run ops) !! id) as [p|] eqn:Hp; cbn; symmetry.
    + apply bool_decide_eq_true_2. by eapply elem_of_dom_2.
    + apply bool_decide_eq_false_2. by apply not_elem_of_dom.
  - rewrite route_none by done. symmetry. apply dom_empty_iff_L.
  - by apply route_spec.
Qed.

(** Membership changes disrupt no other key.  Removing an entity leaves every
    key that was routed elsewhere where it was; adding one leaves every key
    where it was or moves it to the new entity. *)
Theorem ring_minimal_disruption ops key id :
  zlen ops < 2 ^ 64 →
  (∀ owner, route (ring_run ops) key = Some owner → owner ≠ id →
            route (ring_run (ops ++ [Remove id])) key = Some owner) ∧
  (route (ring_run (ops ++ [Add id])) key = route (ring_run ops) key ∨
   route (ring_run (ops ++ [Add id])) key = Some id).
Proof.
  intros Hl. destruct (ring_run_ok ops ltac:(lia)) as (Hok & Hc & _).
  unfold ring_run in *. rewrite !foldl_app. cbn [foldl ring_exec]. set (r := foldl _ _ _) in *. split.
  - intros owner (p & Hp & Hmin)%route_spec Hne; [|done]. apply route_spec; [by apply remove_ok|].
    unfold ring_remove. destruct (id_to_pos r !! id) eqn:Hid; [|by exists p]. exists p. cbn. split.
    + by rewrite lookup_delete_ne.
    + intros id' p' [_ Hp']%lookup_delete_Some. by eapply Hmin.
  - pose proof (add_ok r id Hok ltac:(lia)) as Hok'.
    destruct (route (ring_add r id) key) as [owner|] eqn:Hr; [|exfalso].
    + destruct (decide (owner = id)) as [->|Hne]; [by right|]. left. symmetry.
      apply route_spec in Hr as (p & Hp & Hmin); [|done]. apply route_spec; [done|].
      revert Hp Hmin. unfold ring_add. destruct (id_to_pos r !! id) eqn:Hid; [by exists p|].
      cbn. rewrite lookup_insert_ne by done. intros Hp Hmin. exists p. split; [done|].
      intros id' p' Hp'. apply (Hmin id'). apply lookup_insert_Some. right. split; [congruence|done].
    + apply route_none in Hr; [|done]. unfold ring_add in Hr. destruct (id_to_pos r !! id) eqn:Hid.
      * by rewrite Hr in Hid.
      * cbn in Hr. by apply insert_non_empty in Hr.
Qed.

(** A history with a re-addition and a removal. *)
Definition history : list RingOp := [Add 10; Add 20; Add 10; Add 30; Remove 20].

Lemma ring_refines_set_witness :
  ring_len (ring_run history) = Z.of_nat (size (members history)) ∧
  (route (ring_run history) 5 = Some 30 ↔ nearest (ring_run history) 5 30).
Proof. destruct (ring_refines_set history 5 30) as (H1 & _ & _ & _ & H2); [by vm_compute|]. split; [exact H1|exact H2]. Defined.

Lemma ring_minimal_disruption_witness : route (ring_run (history ++ [Remove 10])) 5 = Some 30.
Proof. apply (ring_minimal_disruption history 5 10); [by vm_compute|by vm_compute|lia]. Defined.

Lemma shard_in_range_witness : ∃ s, shard (E:=unit) (2 ^ 100 + 12345) 6 = Ok s ∧ 0 ≤ s < 6.
Proof. apply (shard_in_range (2 ^ 100 + 12345) 6). lia. Defined.
