(* ===== verification/Cayley.v ===== *)
(** * Cayley: the circulant overlay of [coding/src/cayley.rs]

    Node ids and jumps are [usize], kept in [nat] (an overlay has fewer than
    [2 ^ 62] nodes, so no sum overflows).  Indexing a vector out of range and a
    remainder by zero panic.

    Both breadth-first searches are instances of one invariant, [bfs_inv], with
    one lemma per action ([bfs_pop], [bfs_discover], [bfs_finish]); it gives
    the shortest paths and the exact distances. *)

From stdpp Require Import relations sorting.
From S2P Require Import Prelude.
#[local] Open Scope nat_scope.

Inductive CayleyError : Type :=
| OutOfRange (id n : nat)
| NoPath (from to : nat).

Record CayleyGraph : Type := mkCayley { g_n : nat; jumps : list nat }.

(** ** Construction *)

Definition normalize (n s : nat) : nat :=
  let half := n / 2 in
  let s := s mod n in
  let s := if s =? 0 then 1 else s in
  if half <? s then n - s else s.

(** [Vec::dedup]: drop an element equal to the one kept before it. *)
Fixpoint dedup (l : list nat) : list nat :=
  match l with
  | x :: ((y :: _) as l') => if x =? y then dedup l' else x :: dedup l'
  | _ => l
  end.

Definition CayleyGraph_new (n : nat) (js : list nat) : outcome CayleyError CayleyGraph :=
  match n, js with
  | O, _ :: _ => Panic
  | _, _ => Ok (mkCayley n (dedup (merge_sort (≤) (normalize n <$> js))))
  end.

(** The Fibonacci numbers up to the first that reaches [n / 2]; at least one is
    added every turn, so [n] turns are enough. *)
Fixpoint fib_upto (fuel last prev half : nat) (fibs : list nat) : list nat :=
  match fuel with
  | O => fibs
  | S fuel => if last <? half then fib_upto fuel (last + prev) last half (fibs ++ [last + prev]) else fibs
  end.

(** [for i in (0..len).step_by(step)], until [degree] jumps are chosen. *)
Fixpoint choose_jumps (fuel i step degree : nat) (candidates chosen : list nat) : list nat :=
  match fuel with
  | O => chosen
  | S fuel =>
      match candidates !! i with
      | None => chosen
      | Some c =>
          let chosen := chosen ++ [c] in
          if length chosen =? degree then chosen else choose_jumps fuel (i + step) step degree candidates chosen
      end
  end.

Definition fibonacci_jumps (n degree : nat) : outcome CayleyError CayleyGraph :=
  let half := n / 2 in
  let fibs := fib_upto n 2 1 half [1; 2] in
  let candidates := filter (λ f, 0 < f ∧ f ≤ half) fibs in
  match candidates with
  | [] => CayleyGraph_new n [1]
  | _ =>
      match degree with
      | O => Panic
      | _ => let step := Nat.max (length candidates / degree) 1 in
             CayleyGraph_new n (choose_jumps (length candidates) 0 step degree candidates [])
      end
  end.

Definition neighbors (g : CayleyGraph) (u : nat) : list nat :=
  concat ((λ s, [(u + s) mod g_n g; (u + g_n g - s) mod g_n g]) <$> jumps g).

(** ** Shortest paths *)

(** The tables and the queue of the search. *)
Record Bfs : Type := mkBfs { prev : list (option nat); visited : list bool; queue : list nat }.

(** [while let Some(p) = prev[cur]]. *)
Fixpoint rebuild (fuel : nat) (pv : list (option nat)) (cur : nat) (path : list nat) : list nat :=
  match fuel with
  | O => path
  | S fuel => match pv !! cur with
              | Some (Some p) => rebuild fuel pv p (path ++ [p])
              | _ => path
              end
  end.

(** The loop over the neighbours of [u]: a path, or the search goes on. *)
Fixpoint visit (u : nat) (vs : list nat) (to : nat) (b : Bfs) : outcome CayleyError (list nat + Bfs) :=
  match vs with
  | [] => Ok (inr b)
  | v :: vs =>
      match visited b !! v with
      | None => Panic
      | Some true => visit u vs to b
      | Some false =>
          let pv := <[v := Some u]> (prev b) in
          if v =? to then Ok (inl (reverse (rebuild (length pv) pv to [to])))
          else visit u vs to (mkBfs pv (<[v := true]> (visited b)) (queue b ++ [v]))
      end
  end.

(** The outer loop; every node is queued at most once, so [n] turns and one to
    see the queue empty are enough. *)
Fixpoint search (fuel : nat) (g : CayleyGraph) (from to : nat) (b : Bfs) : outcome CayleyError (list nat) :=
  match fuel with
  | O => Err (NoPath from to)
  | S fuel =>
      match queue b with
      | [] => Err (NoPath from to)
      | u :: q =>
          let? r := visit u (neighbors g u) to (mkBfs (prev b) (visited b) q) in
          match r with
          | inl path => Ok path
          | inr b => search fuel g from to b
          end
      end
  end.

Definition shortest_path (g : CayleyGraph) (from to : nat) : outcome CayleyError (list nat) :=
  let n := g_n g in
  if (n <=? from) || (n <=? to) then Err (OutOfRange (Nat.max from to) n)
  else if from =? to then Ok [from]
  else search (S n) g from to
         (mkBfs (replicate n None) (<[from := true]> (replicate n false)) [from]).

(** ** Diameter *)

(** [usize::MAX] marks a node that is not reached. *)
Fixpoint relax (vs : list nat) (du : Z) (dist : list Z) (q : list nat) : outcome CayleyError (list Z * list nat) :=
  match vs with
  | [] => Ok (dist, q)
  | v :: vs =>
      match dist !! v with
      | None => Panic
      | Some d => if (d =? usize_max)%Z then relax vs du (<[v := (du + 1)%Z]> dist) (q ++ [v])
                  else relax vs du dist q
      end
  end.

Fixpoint distances (fuel : nat) (g : CayleyGraph) (dist : list Z) (q : list nat) : outcome CayleyError (list Z) :=
  match fuel with
  | O => Ok dist
  | S fuel =>
      match q with
      | [] => Ok dist
      | u :: q =>
          match dist !! u with
          | None => Panic
          | Some du => let? r := relax (neighbors g u) du dist q in distances fuel g r.1 r.2
          end
      end
  end.

Definition distances_from (g : CayleyGraph) (s : nat) : outcome CayleyError (list Z) :=
  distances (S (g_n g)) g (<[s := 0%Z]> (replicate (g_n g) usize_max)) [s].

Definition zmaximum (l : list Z) : Z := foldr Z.max 0%Z l.

Fixpoint diameter_loop (g : CayleyGraph) (ss : list nat) : outcome CayleyError Z :=
  match ss with
  | [] => Ok 0%Z
  | s :: ss => let? d := distances_from g s in let? m := diameter_loop g ss in Ok (Z.max (zmaximum d) m)
  end.
Definition diameter (g : CayleyGraph) : outcome CayleyError Z := diameter_loop g (seq 0 (g_n g)).

(** ** Greedy routing *)

Definition cyclic_dist (a b n : nat) : nat :=
  let d := (a + n - b) mod n in Nat.min d (n - d).

(** [min_by_key]: the first of the smallest. *)
Fixpoint min_by_key (key : nat → nat) (best : nat) (vs : list nat) : nat :=
  match vs with
  | [] => best
  | v :: vs => min_by_key key (if key v <? key best then v else best) vs
  end.

Fixpoint greedy_loop (steps : nat) (g : CayleyGraph) (from to cur : nat) (path : list nat)
    : outcome CayleyError (list nat) :=
  if cur =? to then Ok path
  else match steps with
       | O => Err (NoPath from to)
       | S steps =>
           match neighbors g cur with
           | [] => Panic
           | v :: vs => let best := min_by_key (λ v, cyclic_dist v to (g_n g)) v vs in
                        greedy_loop steps g from to best (path ++ [best])
           end
       end.

Definition greedy_route (g : CayleyGraph) (from to : nat) : outcome CayleyError (list nat) :=
  let n := g_n g in
  if (n <=? from) || (n <=? to) then Err (OutOfRange (Nat.max from to) n)
  else greedy_loop (n + 1) g from to from [from].

(** The unit test of the source, on 32 nodes. *)
Example overlay_test :
  (let? g := fibonacci_jumps 32 3 in
   let? p := shortest_path g 0 20 in
   let? d := diameter g in Ok (jumps g, reverse p !! 0, d)) = Ok ([1; 3; 8], Some 20, 3%Z).
Proof. vm_compute. reflexivity. Qed.

(** ** Breadth-first search, abstractly *)

Section bfs.
Context (nbrs : nat → list nat) (from : nat).

Definition edge (u v : nat) : Prop := v ∈ nbrs u.
(** A walk of [k] edges from the source. *)
Definition walk (k v : nat) : Prop := nsteps edge k from v.

(** [vis] and [dist] are the nodes found and their distances; [q] is the queue;
    [cur] is the node whose neighbours are being looked at; every node of the
    queue is at distance [D] or [D + 1]. *)
Record bfs_inv (D : nat) (vis : nat → bool) (dist : nat → nat) (q : list nat) (cur : option nat) : Prop := {
  bi_from : vis from = true;
  bi_queue : ∀ v, v ∈ q → vis v = true ∧ D ≤ dist v ≤ S D;
  bi_sorted : StronglySorted (λ a b, dist a ≤ dist b) q;
  bi_walk : ∀ v, vis v = true → walk (dist v) v;
  bi_min : ∀ v k, vis v = true → walk k v → dist v ≤ k;
  bi_closed : ∀ v w, vis v = true → v ∉ q → cur ≠ Some v → edge v w → vis w = true;
  bi_level : ∀ v k, walk k v → k ≤ D → vis v = true
}.

Lemma bfs_start : bfs_inv 0 (λ v, v =? from) (λ _, 0) [from] None.
Proof.
  split.
  - apply Nat.eqb_refl.
  - intros v ->%list_elem_of_singleton. rewrite Nat.eqb_refl. auto.
  - repeat constructor.
  - intros v ->%Nat.eqb_eq. constructor.
  - intros. lia.
  - intros v w ->%Nat.eqb_eq Hq. set_solver.
  - intros v k Hw Hk. assert (k = 0) as -> by lia. inversion Hw; subst. apply Nat.eqb_refl.
Qed.

Lemma bfs_pop D vis dist u q :
  bfs_inv D vis dist (u :: q) None → bfs_inv (dist u) vis dist q (Some u) ∧ vis u = true.
Proof.
  intros [Hf Hq Hs Hw Hm Hc Hl]. inversion_clear Hs as [|? ? Hs' Hu]. rewrite Forall_elem in Hu.
  destruct (Hq u) as [Hvu HD]; [set_solver|]. split; [|done]. split; auto.
  - intros v Hv. destruct (Hq v) as [? ?]; [set_solver|]. specialize (Hu _ Hv). split; [done|lia].
  - intros v w Hv Hnq Hne He. apply (Hc v w); auto. intros [->|]%elem_of_cons; done.
  - intros v k Hk Hle. destruct (decide (k ≤ D)); [by eapply Hl|]. assert (k = S D) as -> by lia.
    apply nsteps_inv_r in Hk as (w & Hkw & He). pose proof (Hl _ _ Hkw ltac:(lia)) as Hvw.
    apply (Hc w v); auto. intros Hin. specialize (Hm _ _ Hvw Hkw).
    apply elem_of_cons in Hin as [->|Hin]; [lia|]. specialize (Hu _ Hin). lia.
Qed.

Definition set_at {A} (v : nat) (x : A) (f : nat → A) (w : nat) : A := if w =? v then x else f w.

Lemma set_at_eq {A} v (x : A) f : set_at v x f v = x.
Proof. unfold set_at. by rewrite Nat.eqb_refl. Qed.
Lemma set_at_ne {A} v w (x : A) f : w ≠ v → set_at v x f w = f w.
Proof. intros. unfold set_at. by rewrite (proj2 (Nat.eqb_neq _ _)). Qed.

Lemma bfs_discover D vis dist q u v :
  bfs_inv D vis dist q (Some u) → vis u = true → dist u = D → edge u v → vis v = false →
  bfs_inv D (set_at v true vis) (set_at v (S D) dist) (q ++ [v]) (Some u).
Proof.
  intros [Hf Hq Hs Hw Hm Hc Hl] Hu Hd He Hv.
  assert (∀ w, vis w = true → w ≠ v) as Hne by congruence.
  assert (∀ w b, set_at v true vis w = b → w = v ∧ b = true ∨ w ≠ v ∧ vis w = b) as Hcase.
  { intros w b <-. unfold set_at. destruct (Nat.eqb_spec w v); auto. }
  split.
  - by rewrite set_at_ne by auto.
  - intros w [Hin| ->%list_elem_of_singleton]%elem_of_app.
    + destruct (Hq _ Hin). rewrite !set_at_ne by auto. auto.
    + rewrite !set_at_eq. split; [done|lia].
  - assert (∀ w, w ∈ q → set_at v (S D) dist w = dist w ∧ dist w ≤ S D) as Hold.
    { intros w Hin. destruct (Hq _ Hin). rewrite set_at_ne by auto. split; [done|lia]. }
    clear -Hs Hold. induction Hs as [|a q Hs IH Ha]; cbn; [repeat constructor|].
    constructor; [apply IH; set_solver|]. rewrite Forall_elem in *. destruct (Hold a) as [-> ?]; [set_solver|].
    intros w [Hin| ->%list_elem_of_singleton]%elem_of_app; [|by rewrite set_at_eq].
    destruct (Hold w) as [-> _]; [set_solver|auto].
  - intros w [[-> _]|[Hw' Hvw]]%Hcase; [rewrite set_at_eq|rewrite set_at_ne by done; auto].
    eapply nsteps_r; [|exact He]. rewrite <-Hd. exact (Hw u Hu).
  - intros w k [[-> _]|[Hw' Hvw]]%Hcase Hk; [rewrite set_at_eq|rewrite set_at_ne by done; eauto].
    destruct (decide (k ≤ D)); [|lia]. by rewrite (Hl v k) in Hv.
  - intros w x [[-> _]|[Hw' Hvw]]%Hcase Hnq Hcur Hex; [set_solver|].
    unfold set_at. destruct (x =? v); [done|]. eapply (Hc w x); auto. set_solver.
  - intros w k Hk Hle. unfold set_at. destruct (w =? v); [done|]. eauto.
Qed.

Lemma bfs_finish D vis dist q u :
  bfs_inv D vis dist q (Some u) → (∀ w, edge u w → vis w = true) → bfs_inv D vis dist q None.
Proof.
  intros [Hf Hq Hs Hw Hm Hc Hl] Hu. split; auto. intros v w Hv Hnq _ He.
  destruct (decide (v = u)) as [->|]; [auto|]. eapply (Hc v w); auto. congruence.
Qed.

Lemma bfs_end D vis dist : bfs_inv D vis dist [] None → ∀ k v, walk k v → vis v = true.
Proof.
  intros [Hf Hq Hs Hw Hm Hc Hl] k. induction k as [|k IH]; intros v Hk.
  - by inversion Hk; subst.
  - apply nsteps_inv_r in Hk as (w & Hkw & He). apply (Hc w v); [auto|set_solver|done|done].
Qed.

(** A path, in order, and the number of its edges. *)
Inductive path_to : nat → list nat → Prop :=
| path_from : path_to from [from]
| path_snoc u v l : path_to u l → edge u v → path_to v (l ++ [v]).

Lemma path_walk v l : path_to v l → ∃ k, length l = S k ∧ walk k v.
Proof.
  induction 1 as [|u v l _ (k & Hl & Hk) He]; [exists 0; split; [done|constructor]|].
  exists (S k). rewrite length_app, Hl. split; [cbn; lia|]. by eapply nsteps_r.
Qed.
End bfs.

(** ** The graph *)

Lemma elem_of_concat {A} (x : A) ls : x ∈ concat ls ↔ ∃ l, x ∈ l ∧ l ∈ ls.
Proof. rewrite list_elem_of_In, in_concat. setoid_rewrite list_elem_of_In. naive_solver. Qed.

Lemma neighbors_range g u v : 0 < g_n g → v ∈ neighbors g u → v < g_n g.
Proof.
  intros Hn. unfold neighbors. rewrite elem_of_concat. intros (l & Hv & Hl).
  apply list_elem_of_fmap in Hl as (s & -> & _).
  apply elem_of_cons in Hv as [->|[->|Hv]%elem_of_cons]; [apply Nat.mod_upper_bound; lia..|set_solver].
Qed.

Lemma neighbors_elem g u v :
  v ∈ neighbors g u ↔ ∃ s, s ∈ jumps g ∧ (v = (u + s) mod g_n g ∨ v = (u + g_n g - s) mod g_n g).
Proof.
  unfold neighbors. rewrite elem_of_concat. split.
  - intros (l & Hv & (s & -> & Hs)%list_elem_of_fmap). exists s. split; [done|].
    rewrite !elem_of_cons, elem_of_nil in Hv. naive_solver.
  - intros (s & Hs & Hv). exists [(u + s) mod g_n g; (u + g_n g - s) mod g_n g].
    split; [rewrite !elem_of_cons; naive_solver|]. apply list_elem_of_fmap. eauto.
Qed.

(** ** The tables of the search *)

Definition found (l : list bool) (v : nat) : bool := default false (l !! v).
Definition count_true (l : list bool) : nat := length (filter (λ b, b = true) l).

Lemma count_true_insert l v : l !! v = Some false → count_true (<[v := true]> l) = S (count_true l).
Proof.
  unfold count_true. revert v. induction l as [|b l IH]; intros [|v] Hv; cbn in Hv; try done.
  - injection Hv as ->. done.
  - change (<[S v:=true]> (b :: l)) with (b :: <[v:=true]> l). rewrite !filter_cons.
    destruct (decide (b = true)); cbn; rewrite IH by done; done.
Qed.

Lemma count_true_le l : count_true l ≤ length l.
Proof. apply list.length_filter. Qed.

Lemma found_insert l v w : v < length l → found (<[v := true]> l) w = set_at v true (found l) w.
Proof.
  intros Hv. unfold found, set_at. destruct (Nat.eqb_spec w v) as [->|Hne].
  - by rewrite list_lookup_insert_eq.
  - by rewrite list_lookup_insert_ne by done.
Qed.

Lemma bfs_inv_ext nbrs from D vis vis' dist q cur :
  (∀ v, vis' v = vis v) → bfs_inv nbrs from D vis dist q cur → bfs_inv nbrs from D vis' dist q cur.
Proof.
  intros E [Hf Hq Hs Hw Hm Hc Hl]. split; try done.
  - by rewrite E.
  - intros v. rewrite E. auto.
  - intros v. rewrite E. auto.
  - intros v k. rewrite E. auto.
  - intros v w. rewrite !E. eauto.
  - intros v k. rewrite E. eauto.
Qed.

Section search.
Context (g : CayleyGraph) (from to : nat) (Hn : from < g_n g) (Hto : to < g_n g) (Hne : from ≠ to).
Abbreviation sinv := (bfs_inv (neighbors g) from).

Record table_ok (dist : nat → nat) (b : Bfs) : Prop := {
  tb_visited : length (visited b) = g_n g;
  tb_prev : length (prev b) = g_n g;
  tb_from : prev b !! from = Some None;
  tb_chain : ∀ v, found (visited b) v = true → v = from ∨
    ∃ u, prev b !! v = Some (Some u) ∧ found (visited b) u = true ∧ edge (neighbors g) u v ∧ dist v = S (dist u);
  tb_count : ∀ v, found (visited b) v = true → dist v < count_true (visited b)
}.

(** Following [prev] gives the path, backwards. *)
Lemma rebuild_spec D dist b cur fuel v acc :
  sinv D (found (visited b)) dist (queue b) cur → table_ok dist b →
  found (visited b) v = true → dist v ≤ fuel →
  ∃ r, rebuild fuel (prev b) v acc = acc ++ r ∧ length r = dist v ∧ path_to (neighbors g) from v (reverse (v :: r)).
Proof.
  intros Hi Ht. assert (dist from = 0) as H0.
  { pose proof (bi_min _ _ _ _ _ _ _ Hi from 0 (bi_from _ _ _ _ _ _ _ Hi) ltac:(constructor)). lia. }
  revert v acc. induction fuel as [|fuel IH]; intros v acc Hv Hd; cbn [rebuild].
  - destruct (tb_chain _ _ Ht v Hv) as [->|(u & _ & _ & _ & E)]; [|lia].
    exists []. rewrite app_nil_r. split_and!; [done|done|]. constructor.
  - destruct (tb_chain _ _ Ht v Hv) as [->|(u & Hu & Hfu & He & E)].
    + rewrite (tb_from _ _ Ht). exists []. rewrite app_nil_r. split_and!; [done|done|]. constructor.
    + rewrite Hu. destruct (IH u (acc ++ [u]) Hfu ltac:(lia)) as (r & -> & Hl & Hp).
      exists (u :: r). rewrite <-app_assoc. split_and!; [done|cbn; lia|].
      rewrite reverse_cons. by eapply path_snoc.
Qed.

Lemma table_discover D dist b u v :
  sinv D (found (visited b)) dist (queue b) (Some u) → table_ok dist b → dist u = D →
  found (visited b) u = true → edge (neighbors g) u v → visited b !! v = Some false →
  let b' := mkBfs (<[v := Some u]> (prev b)) (<[v := true]> (visited b)) (queue b ++ [v]) in
  sinv D (found (visited b')) (set_at v (S D) dist) (queue b') (Some u) ∧ table_ok (set_at v (S D) dist) b'.
Proof.
  intros Hi Ht HD Hu He Hv b'. pose proof (lookup_lt_Some _ _ _ Hv) as Hlt.
  assert (found (visited b) v = false) as Hf by (unfold found; by rewrite Hv).
  assert (∀ w, found (visited b') w = set_at v true (found (visited b)) w) as Hext by (intros; by apply found_insert).
  assert (∀ w, found (visited b) w = true → w ≠ v) as Hnv by congruence.
  split; [eapply bfs_inv_ext; [exact Hext|]; by apply bfs_discover|].
  destruct Ht as [T1 T2 T3 T4 T5]. split; cbn [b' visited prev].
  - by rewrite length_insert.
  - by rewrite length_insert.
  - rewrite list_lookup_insert_ne; [done|]. intros ->. by rewrite (bi_from _ _ _ _ _ _ _ Hi) in Hf.
  - intros w Hw. change (<[v:=true]> (visited b)) with (visited b') in Hw |- *. setoid_rewrite Hext. rewrite Hext in Hw.
    unfold set_at in Hw. destruct (Nat.eqb_spec w v) as [Ewv|Hwv]; [rewrite Ewv in *|].
    + right. exists u. rewrite list_lookup_insert_eq, set_at_eq, !set_at_ne by (auto || lia). auto.
    + destruct (T4 w Hw) as [->|(x & Hx & Hfx & Hex & E)]; [by left|]. right. exists x.
      rewrite list_lookup_insert_ne, !set_at_ne by auto. auto.
  - intros w Hw. change (<[v:=true]> (visited b)) with (visited b') in Hw. rewrite Hext in Hw.
    rewrite count_true_insert by done. specialize (T5 u Hu) as Hcu. unfold set_at in *.
    destruct (Nat.eqb_spec w v) as [_|Hwv]; [lia|]. specialize (T5 w Hw). lia.
Qed.

(** The state of the search between two nodes. *)
Definition searching (D : nat) (b : Bfs) (cur : option nat) : Prop :=
  ∃ dist, sinv D (found (visited b)) dist (queue b) cur ∧ table_ok dist b ∧ found (visited b) to = false ∧
    match cur with Some u => dist u = D ∧ found (visited b) u = true | None => True end.

Definition shortest (path : list nat) : Prop :=
  path_to (neighbors g) from to path ∧ ∀ k, walk (neighbors g) from k to → length path ≤ S k.

Lemma visit_spec D u vs b :
  searching D b (Some u) → (∀ v, v ∈ vs → edge (neighbors g) u v) →
  (∃ path, visit u vs to b = Ok (inl path) ∧ shortest path) ∨
  (∃ b', visit u vs to b = Ok (inr b') ∧ searching D b' (Some u) ∧
     (∀ v, v ∈ vs ∨ found (visited b) v = true → found (visited b') v = true) ∧
     count_true (visited b') + length (queue b) = count_true (visited b) + length (queue b')).
Proof.
  revert b. induction vs as [|v vs IH]; intros b Hb Hvs; cbn [visit].
  { right. exists b. split_and!; [done|done|set_solver|done]. }
  pose proof Hb as (dist & Hi & Ht & Hft & HD & Hu).
  assert (edge (neighbors g) u v) as He by (apply Hvs; set_solver).
  assert (v < length (visited b)) as Hlt by (rewrite (tb_visited _ _ Ht); eapply neighbors_range; [lia|exact He]).
  destruct (visited b !! v) as [[]|] eqn:Hv; [| |by apply lookup_ge_None in Hv; lia].
  - destruct (IH b Hb) as [Hl|(b' & Hr & Hs & Hm & Hc)]; [set_solver|by left|]. right. exists b'.
    split_and!; [done|done| |done]. intros w [[->|Hw]%elem_of_cons|Hw]; apply Hm; [right|auto|auto].
    unfold found. by rewrite Hv.
  - destruct (table_discover D dist b u v Hi Ht HD Hu He Hv) as [Hi' Ht'].
    set (b1 := mkBfs _ _ _) in *. destruct (Nat.eqb_spec v to) as [->|Hvt].
    + left. eexists. split; [done|].
      assert (found (visited b1) to = true) as Hfo by (cbn; rewrite found_insert by done; apply set_at_eq).
      assert (∀ k, walk (neighbors g) from k to → S D ≤ k) as Hmin.
      { intros k Hk. pose proof (bi_min _ _ _ _ _ _ _ Hi' to k Hfo Hk) as Hle. by rewrite set_at_eq in Hle. }
      change (<[to:=Some u]> (prev b)) with (prev b1).
      destruct (rebuild_spec _ _ b1 _ (length (prev b1)) to [to] Hi' Ht' Hfo) as (r & -> & Hl & Hp).
      { pose proof (tb_count _ _ Ht' _ Hfo). pose proof (count_true_le (visited b1)).
        rewrite (tb_visited _ _ Ht') in *. rewrite (tb_prev _ _ Ht'). lia. }
      rewrite set_at_eq in Hl. split; [exact Hp|]. intros k Hk%Hmin. rewrite length_reverse. cbn. lia.
    + destruct (IH b1) as [Hl|(b' & Hr & Hs & Hm & Hc)].
      * exists (set_at v (S D) dist). split; [done|]. split; [done|]. split; [|split].
        -- cbn. rewrite found_insert by done. by rewrite set_at_ne by done.
        -- assert (u ≠ v) by (intros ->; unfold found in Hu; by rewrite Hv in Hu). by rewrite set_at_ne.
        -- cbn. rewrite found_insert by done. unfold set_at. by destruct (_ =? _).
      * set_solver.
      * by left.
      * right. exists b'. split_and!; [done|done| |].
        -- intros w Hw. apply Hm. cbn. rewrite found_insert by done. unfold set_at.
           destruct (Nat.eqb_spec w v); [by right|]. set_solver.
        -- unfold b1 in Hc. cbn [visited queue] in Hc. rewrite count_true_insert, length_app in Hc by done. cbn in Hc. lia.
Qed.

Lemma search_spec fuel : ∀ D b,
  searching D b None → (g_n g - count_true (visited b)) + length (queue b) < fuel →
  (∃ path, search fuel g from to b = Ok path ∧ shortest path) ∨
  (search fuel g from to b = Err (NoPath from to) ∧ ∀ k, ¬ walk (neighbors g) from k to).
Proof.
  induction fuel as [|fuel IH]; intros D b (dist & Hi & Ht & Hft & _) Hfuel; [lia|]. cbn [search].
  destruct (queue b) as [|u q] eqn:Hq.
  - right. split; [done|]. intros k Hk. rewrite (bfs_end _ _ _ _ _ Hi k to Hk) in Hft. done.
  - destruct (bfs_pop _ _ _ _ _ _ _ Hi) as [Hp Hu].
    destruct (visit_spec (dist u) u (neighbors g u) (mkBfs (prev b) (visited b) q))
      as [(path & -> & Hs)|(b' & -> & (dist' & Hi' & Ht' & Hft' & Hd' & Hu') & Hm & Hc)].
    + exists dist. cbn. split; [done|]. split; [by destruct Ht|]. done.
    + auto.
    + left. exists path. split; [done|exact Hs].
    + cbn [obind]. apply (IH (dist u)).
      * exists dist'. split; [|done]. eapply bfs_finish; [exact Hi'|]. intros w Hw. apply Hm. by left.
      * cbn [visited queue length] in Hc, Hfuel. pose proof (count_true_le (visited b')). rewrite (tb_visited _ _ Ht') in *.
        pose proof (count_true_le (visited b)). rewrite (tb_visited _ _ Ht) in *. lia.
Qed.

Lemma search_start :
  searching 0 (mkBfs (replicate (g_n g) None) (<[from := true]> (replicate (g_n g) false)) [from]) None.
Proof.
  assert (∀ v, found (<[from := true]> (replicate (g_n g) false)) v = (v =? from)) as Hext.
  { intros v. rewrite found_insert by (by rewrite length_replicate). unfold set_at, found.
    destruct (v =? from); [done|]. destruct (_ !! v) eqn:E; [|done]. by apply lookup_replicate in E as [-> _]. }
  exists (λ _, 0). cbn [visited queue]. split_and!; [|split; cbn [visited prev]|rewrite Hext; by apply Nat.eqb_neq|done].
  - eapply bfs_inv_ext; [exact Hext|]. apply bfs_start.
  - by rewrite length_insert, length_replicate.
  - by rewrite length_replicate.
  - by apply lookup_replicate_2.
  - intros v. rewrite Hext, Nat.eqb_eq. auto.
  - intros v _. rewrite count_true_insert; [lia|]. by apply lookup_replicate_2.
Qed.
End search.

(** C25: [shortest_path] is breadth-first search done right: between two nodes of
    the graph it returns a path along edges that is no longer than any other,
    or the error [NoPath] exactly when there is none; ids out of range are an
    error; it never panics and its loop always ends by itself. *)
Theorem cayley_shortest_path g from to :
  from < g_n g → to < g_n g →
  (∃ path, shortest_path g from to = Ok path ∧ path_to (neighbors g) from to path ∧
     ∀ other, path_to (neighbors g) from to other → length path ≤ length other) ∨
  (shortest_path g from to = Err (NoPath from to) ∧ ∀ other, ¬ path_to (neighbors g) from to other).
Proof.
  intros Hf Ht. unfold shortest_path. rewrite !(proj2 (Nat.leb_gt _ _)) by done. cbn [orb].
  destruct (Nat.eqb_spec from to) as [->|Hne].
  { left. exists [to]. split_and!; [done|constructor|]. intros other (k & -> & _)%path_walk. cbn. lia. }
  destruct (search_spec g from to Hf Ht Hne (S (g_n g)) 0 _ (search_start g from to Hf Ht Hne)) as [(path & -> & Hp & Hs)|[-> Hno]].
  { cbn [visited queue length]. rewrite count_true_insert by (by apply lookup_replicate_2). lia. }
  - left. exists path. split_and!; [done|done|]. intros other (k & -> & Hk)%path_walk. auto.
  - right. split; [done|]. intros other (k & _ & Hk)%path_walk. by apply (Hno k).
Qed.

(** ** Distances and the diameter *)

Section distances.
Context (g : CayleyGraph) (from : nat) (Hn : from < g_n g) (Hmax : (Z.of_nat (g_n g) < usize_max)%Z).
Abbreviation sinv := (bfs_inv (neighbors g) from).

Definition reached (l : list Z) : list bool := (λ d, negb (d =? usize_max)%Z) <$> l.

Record dist_ok (dist : nat → nat) (l : list Z) : Prop := {
  do_len : length l = g_n g;
  do_value : ∀ v, found (reached l) v = true → l !! v = Some (Z.of_nat (dist v));
  do_count : ∀ v, found (reached l) v = true → dist v < count_true (reached l)
}.

Lemma relax_spec D u vs l q dist :
  sinv D (found (reached l)) dist q (Some u) → dist_ok dist l → dist u = D → found (reached l) u = true →
  (∀ v, v ∈ vs → edge (neighbors g) u v) →
  ∃ l' q' dist', relax vs (Z.of_nat D) l q = Ok (l', q') ∧
    sinv D (found (reached l')) dist' q' (Some u) ∧ dist_ok dist' l' ∧ dist' u = D ∧
    (∀ v, v ∈ vs ∨ found (reached l) v = true → found (reached l') v = true) ∧
    count_true (reached l') + length q = count_true (reached l) + length q'.
Proof.
  revert l q dist. induction vs as [|v vs IH]; intros l q dist Hi Hd HD Hu Hvs; cbn [relax].
  { exists l, q, dist. split_and!; [done|done|done|done|set_solver|done]. }
  assert (edge (neighbors g) u v) as He by (apply Hvs; set_solver).
  assert (v < length l) as Hlt by (rewrite (do_len _ _ Hd); eapply neighbors_range; [lia|exact He]).
  destruct (lookup_lt_is_Some_2 l v Hlt) as [d Hv]. rewrite Hv.
  assert (reached l !! v = Some (negb (d =? usize_max)%Z)) as Hr by (unfold reached; by rewrite list_lookup_fmap, Hv).
  destruct (Z.eqb_spec d usize_max) as [->|Hdm]; cbn [negb] in Hr.
  2:{ destruct (IH l q dist Hi Hd HD Hu ltac:(set_solver)) as (l' & q' & dist' & E & Hi' & Hd' & HD' & Hm & Hc).
      exists l', q', dist'. split_and!; [done..| |done]. intros w [[->|Hw]%elem_of_cons|Hw]; apply Hm; [right|auto|auto].
      unfold found. by rewrite Hr. }
  assert (dist u < count_true (reached l)) as Hcu by (by apply (do_count _ _ Hd)).
  pose proof (count_true_le (reached l)) as Hcl. unfold reached in Hcl at 2. rewrite length_fmap, (do_len _ _ Hd) in Hcl.
  assert (reached (<[v := (Z.of_nat D + 1)%Z]> l) = <[v := true]> (reached l)) as Hre.
  { unfold reached. rewrite list_fmap_insert. f_equal. apply negb_true_iff, Z.eqb_neq. lia. }
  assert (v < length (reached l)) as Hlt' by (unfold reached; by rewrite length_fmap).
  assert (∀ w, found (reached (<[v := (Z.of_nat D + 1)%Z]> l)) w = set_at v true (found (reached l)) w) as Hext
    by (intros w; rewrite Hre; by apply found_insert).
  assert (found (reached l) v = false) as Hf by (unfold found; by rewrite Hr).
  assert (u ≠ v) as Huv by congruence.
  destruct (IH (<[v := (Z.of_nat D + 1)%Z]> l) (q ++ [v]) (set_at v (S D) dist))
    as (l' & q' & dist' & E & Hi' & Hd' & HD' & Hm & Hc).
  - eapply bfs_inv_ext; [exact Hext|]. by apply bfs_discover.
  - split; [by rewrite length_insert; apply Hd|..]; intros w; rewrite Hext; unfold set_at;
      destruct (Nat.eqb_spec w v) as [->|Hwv]; intros Hw.
    + rewrite list_lookup_insert_eq by done. f_equal. lia.
    + rewrite list_lookup_insert_ne by done. by apply Hd.
    + rewrite Hre, count_true_insert by done. lia.
    + rewrite Hre, count_true_insert by done. pose proof (do_count _ _ Hd w Hw). lia.
  - by rewrite set_at_ne.
  - rewrite Hext. by rewrite set_at_ne.
  - set_solver.
  - exists l', q', dist'. split_and!; [done..| |].
    + intros w Hw. apply Hm. rewrite Hext. unfold set_at. destruct (Nat.eqb_spec w v); [by right|]. set_solver.
    + rewrite Hre, count_true_insert, length_app in Hc by done. cbn [length] in Hc. lia.
Qed.

Lemma distances_spec fuel : ∀ D l q dist,
  sinv D (found (reached l)) dist q None → dist_ok dist l →
  (g_n g - count_true (reached l)) + length q < fuel →
  ∃ l' dist' D', distances fuel g l q = Ok l' ∧ sinv D' (found (reached l')) dist' [] None ∧ dist_ok dist' l'.
Proof.
  induction fuel as [|fuel IH]; intros D l q dist Hi Hd Hfuel; [lia|]. cbn [distances].
  destruct q as [|u q]; [by exists l, dist, D|].
  destruct (bfs_pop _ _ _ _ _ _ _ Hi) as [Hp Hu]. rewrite (do_value _ _ Hd u Hu).
  destruct (relax_spec (dist u) u (neighbors g u) l q dist Hp Hd eq_refl Hu ltac:(auto))
    as (l' & q' & dist' & -> & Hi' & Hd' & HD' & Hm & Hc).
  cbn [obind fst snd]. apply (IH (dist u) l' q' dist'); [|done|].
  - eapply bfs_finish; [exact Hi'|]. intros w Hw. apply Hm. by left.
  - pose proof (count_true_le (reached l')) as H1. pose proof (count_true_le (reached l)) as H2.
    unfold reached in H1 at 2. unfold reached in H2 at 2. rewrite length_fmap, (do_len _ _ Hd') in H1.
    rewrite length_fmap, (do_len _ _ Hd) in H2. cbn [length] in Hfuel. lia.
Qed.

(** The distances are exact; [usize::MAX] is left where no walk leads. *)
Lemma distances_from_spec :
  ∃ l, distances_from g from = Ok l ∧ length l = g_n g ∧
    ∀ v, v < g_n g →
      (∃ k, l !! v = Some (Z.of_nat k) ∧ k < g_n g ∧ walk (neighbors g) from k v ∧ ∀ k', walk (neighbors g) from k' v → k ≤ k') ∨
      (l !! v = Some usize_max ∧ ∀ k, ¬ walk (neighbors g) from k v).
Proof.
  assert (∀ v, found (reached (<[from := 0%Z]> (replicate (g_n g) usize_max))) v = (v =? from)) as Hext.
  { intros v. unfold reached. rewrite list_fmap_insert, fmap_replicate.
    rewrite found_insert by (by rewrite length_replicate). unfold set_at, found.
    destruct (v =? from); [done|]. destruct (_ !! v) eqn:E; [|done]. by apply lookup_replicate in E as [-> _]. }
  destruct (distances_spec (S (g_n g)) 0 (<[from := 0%Z]> (replicate (g_n g) usize_max)) [from] (λ _, 0))
    as (l & dist & D & E & Hi & Hd).
  - eapply bfs_inv_ext; [exact Hext|]. apply bfs_start.
  - split.
    + by rewrite length_insert, length_replicate.
    + intros v. rewrite Hext, Nat.eqb_eq. intros ->. rewrite list_lookup_insert_eq; [done|]. by rewrite length_replicate.
    + intros v _. unfold reached. rewrite list_fmap_insert, fmap_replicate.
      rewrite count_true_insert; [lia|]. by apply lookup_replicate_2.
  - cbn [length]. unfold reached. rewrite list_fmap_insert, fmap_replicate.
    rewrite count_true_insert by (by apply lookup_replicate_2). lia.
  - exists l. split; [exact E|]. split; [apply Hd|]. intros v Hv. destruct (found (reached l) v) eqn:Hf.
    + left. exists (dist v). split_and!; [by apply Hd| |by apply Hi|intros k' Hk'; by eapply bi_min].
      pose proof (do_count _ _ Hd v Hf). pose proof (count_true_le (reached l)) as Hc.
      unfold reached in Hc at 2. rewrite length_fmap, (do_len _ _ Hd) in Hc. lia.
    + right. split; [|intros k Hk; by rewrite (bfs_end _ _ _ _ _ Hi k v Hk) in Hf].
      destruct (lookup_lt_is_Some_2 l v) as [d Hl]; [by rewrite (do_len _ _ Hd)|]. rewrite Hl. f_equal.
      unfold found, reached in Hf. rewrite list_lookup_fmap, Hl in Hf. cbn in Hf.
      by apply negb_false_iff, Z.eqb_eq in Hf.
Qed.
End distances.

Lemma zmaximum_ge l d : d ∈ l → (d ≤ zmaximum l)%Z.
Proof.
  induction l as [|x l IH]; intros Hd; [set_solver|].
  change (zmaximum (x :: l)) with (Z.max x (zmaximum l)). apply elem_of_cons in Hd as [->|Hd%IH]; lia.
Qed.

Lemma zmaximum_in l : Forall (Z.le 0) l → l ≠ [] → zmaximum l ∈ l.
Proof.
  induction 1 as [|x l Hx Hl IH]; intros Hne; [done|]. change (zmaximum (x :: l)) with (Z.max x (zmaximum l)). destruct l as [|y l].
  - cbn. rewrite Z.max_l by done. set_solver.
  - destruct (Z.max_spec x (zmaximum (y :: l))) as [[_ ->]|[_ ->]]; [right; by apply IH|left].
Qed.

Lemma diameter_loop_spec g ss :
  (Z.of_nat (g_n g) < usize_max)%Z → Forall (λ s, s < g_n g) ss →
  ∃ d, diameter_loop g ss = Ok d ∧ (0 ≤ d)%Z ∧
    (∀ s v l, s ∈ ss → v < g_n g → distances_from g s = Ok l → ∀ x, l !! v = Some x → (x ≤ d)%Z) ∧
    (ss ≠ [] → ∃ s v l, s ∈ ss ∧ distances_from g s = Ok l ∧ l !! v = Some d ∧ v < g_n g).
Proof.
  intros Hm. induction 1 as [|s ss Hs _ (m & Em & Hm0 & Hge & Hin)]; cbn [diameter_loop].
  { exists 0%Z. split_and!; [done|done|set_solver|done]. }
  destruct (distances_from_spec g s Hs Hm) as (l & El & Hlen & Hl). rewrite El, Em. cbn [obind].
  assert (Forall (Z.le 0) l) as Hnn.
  { apply Forall_lookup_2. intros v x Hx. pose proof (lookup_lt_Some _ _ _ Hx). rewrite Hlen in *.
    destruct (Hl v) as [(k & Ek & _)|[Ek _]]; [done| |]; rewrite Ek in Hx; injection Hx as <-; [apply Nat2Z.is_nonneg|done]. }
  assert (l ≠ []) as Hne by (intros ->; cbn in Hlen; lia).
  pose proof (zmaximum_in l Hnn Hne) as Hin'. apply list_elem_of_lookup in Hin' as [v0 Hv0].
  exists (Z.max (zmaximum l) m). split_and!; [done|lia| |].
  - intros s' v l' [->|Hs']%elem_of_cons Hv El' x Hx.
    + assert (l' = l) as -> by congruence. pose proof (zmaximum_ge l x (list_elem_of_lookup_2 _ _ _ Hx)). lia.
    + specialize (Hge _ _ _ Hs' Hv El' _ Hx). lia.
  - intros _. destruct (Z.max_spec (zmaximum l) m) as [[Hlt ->]|[_ ->]].
    + destruct ss as [|s' ss]; [cbn in Em; injection Em as <-|].
      * pose proof (zmaximum_ge l (zmaximum l) (list_elem_of_lookup_2 _ _ _ Hv0)).
        apply list_elem_of_lookup_2, (proj1 (Forall_elem _ _) Hnn) in Hv0. lia.
      * destruct Hin as (s0 & v & l' & ? & ? & ? & ?); [done|]. exists s0, v, l'. split_and!; [by right|done..].
    + exists s, v0, l. split_and!; [set_solver|done|done|]. rewrite <-Hlen. by eapply lookup_lt_Some.
Qed.

(** [diameter] is the diameter: on a graph in which every node reaches every
    other, every pair is joined by a walk of at most that many edges, and some
    pair by no shorter one. *)
Theorem cayley_diameter g :
  0 < g_n g → (Z.of_nat (g_n g) < usize_max)%Z →
  (∀ u v, u < g_n g → v < g_n g → ∃ k, walk (neighbors g) u k v) →
  ∃ d, diameter g = Ok (Z.of_nat d) ∧
    (∀ u v, u < g_n g → v < g_n g → ∃ k, k ≤ d ∧ walk (neighbors g) u k v) ∧
    (∃ u v, u < g_n g ∧ v < g_n g ∧ ∀ k, walk (neighbors g) u k v → d ≤ k).
Proof.
  intros Hn Hm Hcon.
  destruct (diameter_loop_spec g (seq 0 (g_n g)) Hm) as (d & E & Hd0 & Hge & Hin).
  { apply Forall_elem. intros s Hs. apply elem_of_seq in Hs. lia. }
  destruct Hin as (s & v & l & Hs & El & Hl & Hv); [by destruct (g_n g); [lia|]|].
  apply elem_of_seq in Hs. exists (Z.to_nat d). rewrite Z2Nat.id by done. split_and!; [done| |].
  - intros u w Hu Hw. destruct (distances_from_spec g u Hu Hm) as (lu & Elu & _ & Hlu).
    destruct (Hlu w Hw) as [(k & Ek & _ & Hk & _)|[_ Hno]].
    + exists k. split; [|done]. assert (u ∈ seq 0 (g_n g)) as Hus by (apply elem_of_seq; lia).
      specialize (Hge u w lu Hus Hw Elu _ Ek). lia.
    + destruct (Hcon u w Hu Hw) as [k Hk]. by destruct (Hno k).
  - exists s, v. split_and!; [lia|done|]. intros k Hk.
    destruct (distances_from_spec g s ltac:(lia) Hm) as (ls & Els & _ & Hls).
    assert (ls = l) as -> by congruence.
    destruct (Hls v Hv) as [(k0 & Ek & _ & _ & Hmin)|[_ Hno]]; [|by destruct (Hno k)].
    rewrite Ek in Hl. injection Hl as <-. rewrite Nat2Z.id. by apply Hmin.
Qed.

(** ** Greedy routing *)

Lemma mod_once a n : a < n + n → a mod n = if n <=? a then a - n else a.
Proof.
  intros Ha. destruct (Nat.leb_spec n a); [|by apply Nat.mod_small].
  symmetry. apply (Nat.mod_unique _ _ 1); lia.
Qed.

(** One step down (or up) the cycle, on offsets [d] and [e] from the target. *)
Lemma offset_down n u t v d e :
  u < n → t < n → u ≠ t → 2 * d ≤ n → (t ≤ u ∧ d = u - t ∨ u < t ∧ d = u + n - t) →
  (v = u - 1 ∧ 1 ≤ u ∨ u = 0 ∧ v = n - 1) → (t ≤ v ∧ e = v - t ∨ v < t ∧ e = v + n - t) →
  S (Nat.min e (n - e)) = Nat.min d (n - d).
Proof. intros Hu Ht Hne Hd Hdu Hv Hev. assert (1 ≤ d ∧ e = d - 1) as [Hd1 ->] by lia. clear -Hd Hd1. lia. Qed.

Lemma offset_up n u t v d e :
  u < n → t < n → u ≠ t → n < 2 * d → (t ≤ u ∧ d = u - t ∨ u < t ∧ d = u + n - t) →
  (v = u + 1 ∧ u + 1 < n ∨ u + 1 = n ∧ v = 0) → (t ≤ v ∧ e = v - t ∨ v < t ∧ e = v + n - t) →
  S (Nat.min e (n - e)) = Nat.min d (n - d).
Proof. intros. assert (e = d + 1 ∧ d + 1 < n ∨ e = 0 ∧ d + 1 = n) as [[-> ?]|[-> ?]] by lia; lia. Qed.

(** With the jump 1, some neighbour is one step nearer on the cycle. *)
Lemma nearer g u to :
  1 ∈ jumps g → u < g_n g → to < g_n g → u ≠ to →
  ∃ v, v ∈ neighbors g u ∧ S (cyclic_dist v to (g_n g)) = cyclic_dist u to (g_n g).
Proof.
  intros H1 Hu Ht Hne. set (n := g_n g) in *.
  assert (∀ a, a < n → to ≤ a ∧ (a + n - to) mod n = a - to ∨ a < to ∧ (a + n - to) mod n = a + n - to) as Hmod.
  { intros a Ha. rewrite mod_once by lia. destruct (Nat.leb_spec n (a + n - to)); lia. }
  destruct (le_gt_dec (2 * ((u + n - to) mod n)) n) as [Hd|Hd];
    [exists ((u + n - 1) mod n)|exists ((u + 1) mod n)];
    (split; [apply neighbors_elem; exists 1; split; [done|auto]|]).
  - eapply (offset_down n u to); [done..|by apply Hmod| |apply Hmod, Nat.mod_upper_bound; lia].
    clear Hd Hmod. rewrite mod_once by lia. destruct (Nat.leb_spec n (u + n - 1)); lia.
  - eapply (offset_up n u to); [done..|by apply Hmod| |apply Hmod, Nat.mod_upper_bound; lia].
    clear Hd Hmod. rewrite mod_once by lia. destruct (Nat.leb_spec n (u + 1)); lia.
Qed.

Lemma min_by_key_spec key vs best :
  min_by_key key best vs ∈ best :: vs ∧ ∀ v, v ∈ best :: vs → key (min_by_key key best vs) ≤ key v.
Proof.
  revert best. induction vs as [|x vs IH]; intros best; cbn [min_by_key].
  { split; [set_solver|]. intros v ->%list_elem_of_singleton. done. }
  destruct (IH (if key x <? key best then x else best)) as [Hin Hmin].
  destruct (Nat.ltb_spec (key x) (key best)); (split; [set_solver|]).
  - intros v [->|[->|Hv]%elem_of_cons]%elem_of_cons; [|apply Hmin; set_solver|apply Hmin; set_solver].
    pose proof (Hmin x ltac:(set_solver)). lia.
  - intros v [->|[->|Hv]%elem_of_cons]%elem_of_cons; [apply Hmin; set_solver| |apply Hmin; set_solver].
    pose proof (Hmin best ltac:(set_solver)). lia.
Qed.

Lemma cyclic_dist_0 a b n : a < n → b < n → cyclic_dist a b n = 0 → a = b.
Proof.
  intros Ha Hb. unfold cyclic_dist. rewrite mod_once by lia. destruct (Nat.leb_spec n (a + n - b)); lia.
Qed.

Lemma cyclic_dist_half a b n : 0 < n → cyclic_dist a b n ≤ n / 2.
Proof.
  intros Hn. unfold cyclic_dist. pose proof (Nat.mod_upper_bound (a + n - b) n ltac:(lia)).
  apply Nat.div_le_lower_bound; lia.
Qed.

Lemma greedy_loop_spec g from to steps : ∀ cur path,
  1 ∈ jumps g → cur < g_n g → to < g_n g → cyclic_dist cur to (g_n g) ≤ steps →
  path_to (neighbors g) from cur path →
  ∃ path', greedy_loop steps g from to cur path = Ok path' ∧ path_to (neighbors g) from to path' ∧
    length path' ≤ length path + cyclic_dist cur to (g_n g).
Proof.
  induction steps as [|steps IH]; intros cur path H1 Hc Ht Hs Hp; cbn [greedy_loop];
    (destruct (Nat.eqb_spec cur to) as [->|Hne]; [exists path; split_and!; [done|done|lia]|]).
  - by rewrite (cyclic_dist_0 cur to (g_n g)) in Hne by lia.
  - destruct (nearer g cur to H1 Hc Ht Hne) as (v & Hv & Hd).
    destruct (neighbors g cur) as [|v0 vs] eqn:Hnb; [set_solver|].
    destruct (min_by_key_spec (λ v, cyclic_dist v to (g_n g)) vs v0) as [Hin Hmin].
    set (best := min_by_key _ _ _) in *. specialize (Hmin v Hv). cbn beta in Hmin. rewrite <-Hnb in Hin.
    destruct (IH best (path ++ [best]) H1) as (path' & -> & Hp' & Hl); [|done|lia| |].
    + eapply neighbors_range; [lia|done].
    + by eapply path_snoc.
    + exists path'. split_and!; [done|done|]. rewrite length_app in Hl. cbn in Hl. lia.
Qed.

(** ** The Fibonacci overlay *)

Lemma dedup_elem l x : x ∈ dedup l ↔ x ∈ l.
Proof.
  induction l as [|a l IH]; [done|]. destruct l as [|b l]; [done|]. cbn [dedup] in *.
  destruct (Nat.eqb_spec a b) as [->|]; rewrite ?elem_of_cons, IH; set_solver.
Qed.

Lemma dedup_length l : length (dedup l) ≤ length l.
Proof.
  induction l as [|a l IH]; [done|]. destruct l as [|b l]; [done|]. cbn [dedup] in *.
  destruct (a =? b); cbn [length] in *; lia.
Qed.

Lemma normalize_range n s : 2 ≤ n → 1 ≤ normalize n s ≤ n / 2.
Proof.
  intros Hn. unfold normalize. pose proof (Nat.mod_upper_bound s n ltac:(lia)).
  pose proof (Nat.div_mod_eq n 2). pose proof (Nat.mod_upper_bound n 2 ltac:(lia)).
  destruct (Nat.eqb_spec (s mod n) 0); [destruct (Nat.ltb_spec (n / 2) 1)|destruct (Nat.ltb_spec (n / 2) (s mod n))]; lia.
Qed.

Lemma new_jumps n js g :
  CayleyGraph_new n js = Ok g →
  g_n g = n ∧ length (jumps g) ≤ length js ∧ ∀ s, s ∈ jumps g ↔ ∃ j, j ∈ js ∧ s = normalize n j.
Proof.
  unfold CayleyGraph_new. intros E.
  assert (g = mkCayley n (dedup (merge_sort (≤) (normalize n <$> js)))) as -> by (destruct n, js; congruence).
  cbn [g_n jumps]. split_and!; [done| |].
  - etrans; [apply dedup_length|]. by rewrite merge_sort_Permutation, length_fmap.
  - intros s. rewrite dedup_elem, merge_sort_Permutation, list_elem_of_fmap. naive_solver.
Qed.

Lemma fib_upto_app fuel last prev half fibs : ∃ r, fib_upto fuel last prev half fibs = fibs ++ r.
Proof.
  revert last prev fibs. induction fuel as [|fuel IH]; intros last prev fibs; cbn [fib_upto]; [exists []; by rewrite app_nil_r|].
  destruct (last <? half); [|exists []; by rewrite app_nil_r].
  destruct (IH (last + prev) last (fibs ++ [last + prev])) as [r ->]. rewrite <-app_assoc. eauto.
Qed.

Lemma choose_jumps_spec fuel i step degree candidates chosen :
  length chosen < degree →
  (∃ r, choose_jumps fuel i step degree candidates chosen = chosen ++ r) ∧
  length (choose_jumps fuel i step degree candidates chosen) ≤ degree.
Proof.
  revert i chosen. induction fuel as [|fuel IH]; intros i chosen Hl; cbn [choose_jumps].
  { split; [exists []; by rewrite app_nil_r|lia]. }
  destruct (candidates !! i) as [c|]; [|split; [exists []; by rewrite app_nil_r|lia]].
  assert (length (chosen ++ [c]) = S (length chosen)) as E by (rewrite length_app; cbn; lia).
  destruct (Nat.eqb_spec (length (chosen ++ [c])) degree); [split; [by exists [c]|lia]|].
  destruct (IH (i + step) (chosen ++ [c])) as [[r Hr] Hd]; [lia|]. split; [|done].
  rewrite Hr, <-app_assoc. eauto.
Qed.

Lemma fibonacci_jumps_spec n degree :
  2 ≤ n → 1 ≤ degree →
  ∃ g, fibonacci_jumps n degree = Ok g ∧ g_n g = n ∧ length (jumps g) ≤ degree ∧ 1 ∈ jumps g ∧
    ∀ s, s ∈ jumps g → 1 ≤ s ≤ n / 2.
Proof.
  intros Hn Hd. unfold fibonacci_jumps.
  assert (1 ≤ n / 2) as Hh by (apply Nat.div_le_lower_bound; lia).
  destruct (fib_upto_app n 2 1 (n / 2) [1; 2]) as [r ->]. cbn [app].
  rewrite filter_cons_True by lia. set (cs := filter _ (2 :: r)).
  destruct degree as [|degree]; [lia|]. set (step := Nat.max _ _). cbn [length choose_jumps].
  cbn [lookup list_lookup app length].
  set (chosen := if _ =? _ then _ else _).
  assert ((∃ r, chosen = [1] ++ r) ∧ length chosen ≤ S degree) as [[r' Hr] Hlen].
  { unfold chosen. destruct (Nat.eqb_spec 1 (S degree)); [split; [by exists []|cbn; lia]|].
    apply choose_jumps_spec. cbn. lia. }
  destruct (CayleyGraph_new n chosen) as [g| |] eqn:E; [|by destruct n, chosen|by destruct n; [lia|]].
  apply new_jumps in E as (En & Hl & Hj). exists g. split_and!; [done|done|lia| |].
  - apply Hj. exists 1. split; [rewrite Hr; set_solver|]. unfold normalize.
    rewrite Nat.mod_small by lia. cbn [Nat.eqb]. destruct (Nat.ltb_spec (n / 2) 1); lia.
  - intros s (j & _ & ->)%Hj. by apply normalize_range.
Qed.

(** C38: The Fibonacci overlay routes.  For [n >= 2] and [degree >= 1] it has at
    most [degree] jumps, all between 1 and [n / 2], and greedy routing always
    arrives: along edges, in at most the cyclic distance of the two nodes, so
    in at most [n / 2] hops. *)
Theorem fibonacci_overlay_routes n degree from to :
  2 ≤ n → 1 ≤ degree → from < n → to < n →
  ∃ g path, fibonacci_jumps n degree = Ok g ∧ length (jumps g) ≤ degree ∧
    (∀ s, s ∈ jumps g → 1 ≤ s ≤ n / 2) ∧
    greedy_route g from to = Ok path ∧ path_to (neighbors g) from to path ∧
    length path ≤ S (cyclic_dist from to n) ∧ cyclic_dist from to n ≤ n / 2.
Proof.
  intros Hn Hd Hf Ht. destruct (fibonacci_jumps_spec n degree Hn Hd) as (g & Eg & En & Hl & H1 & Hj).
  pose proof (cyclic_dist_half from to n ltac:(lia)) as Hhalf. pose proof (Nat.Div0.div_le_upper_bound n 2 n ltac:(lia)).
  destruct (greedy_loop_spec g from to (n + 1) from [from] H1) as (path & E & Hp & Hlen); [lia|lia|rewrite En; lia|constructor|].
  exists g, path. split_and!; [done|done|done| |done| |done].
  - unfold greedy_route. rewrite En, !(proj2 (Nat.leb_gt _ _)) by lia. exact E.
  - rewrite En in Hlen. cbn in Hlen. lia.
Qed.

(** ** Witnesses *)

Definition ring8 : CayleyGraph := mkCayley 8 [1; 3].

Lemma cayley_shortest_path_witness :
  (∃ path, shortest_path ring8 0 4 = Ok path ∧ path_to (neighbors ring8) 0 4 path ∧
     ∀ other, path_to (neighbors ring8) 0 4 other → length path ≤ length other) ∨
  (shortest_path ring8 0 4 = Err (NoPath 0 4) ∧ ∀ other, ¬ path_to (neighbors ring8) 0 4 other).
Proof. apply (cayley_shortest_path ring8 0 4); cbn; lia. Defined.

Lemma fibonacci_overlay_routes_witness :
  ∃ g path, fibonacci_jumps 13 2 = Ok g ∧ length (jumps g) ≤ 2 ∧
    (∀ s, s ∈ jumps g → 1 ≤ s ≤ 13 / 2) ∧
    greedy_route g 2 9 = Ok path ∧ path_to (neighbors g) 2 9 path ∧
    length path ≤ S (cyclic_dist 2 9 13) ∧ cyclic_dist 2 9 13 ≤ 13 / 2.
Proof. apply (fibonacci_overlay_routes 13 2 2 9); lia. Defined.

(** A cycle is connected, one jump at a time. *)
Lemma cycle_connected g u v :
  1 ∈ jumps g → u < g_n g → v < g_n g → ∃ k, walk (neighbors g) u k v.
Proof.
  intros H1 Hu Hv.
  destruct (greedy_loop_spec g u v (cyclic_dist u v (g_n g)) u [u] H1 Hu Hv ltac:(lia) ltac:(constructor))
    as (path & _ & (k & _ & Hk)%path_walk & _). eauto.
Qed.

Lemma cayley_diameter_witness :
  ∃ d, diameter ring8 = Ok (Z.of_nat d) ∧
    (∀ u v, u < 8 → v < 8 → ∃ k, k ≤ d ∧ walk (neighbors ring8) u k v) ∧
    (∃ u v, u < 8 ∧ v < 8 ∧ ∀ k, walk (neighbors ring8) u k v → d ≤ k).
Proof.
  apply (cayley_diameter ring8); [cbn; lia|done|]. intros u v. apply cycle_connected. cbn. set_solver.
Defined.

(** A graph without the jump 1: greedy routing can circle where a path exists. *)
Lemma greedy_can_fail :
  ∃ path, shortest_path (mkCayley 10 [4; 5]) 0 1 = Ok path ∧
          greedy_route (mkCayley 10 [4; 5]) 0 1 = Err (NoPath 0 1).
Proof. eexists. vm_compute. split; reflexivity. Qed.
