(* ===== verification/Control.v ===== *)
(** * Control: the congestion models of the bespoke paths

    [coding/src/fib_backoff.rs] (a window grown along the Fibonacci numbers)
    and [transport/src/bbr.rs] (bandwidth and round-trip filters with a phase
    machine), in binary64.  [checks] says whether the build has overflow
    checks, as in [Zeckendorf]. *)

From S2P Require Import Prelude F64 Zeckendorf.
From Stdlib Require Import SpecFloat.

(** ** [fib_backoff.rs] *)

Record FibBackoff : Type := mkBackoff {
  window : Z; fib_a : Z; fib_b : Z; max : Z; md_factor : f64
}.

Definition u64_saturating_add (a b : Z) : Z := Z.min (a + b) u64_max.

Definition FibBackoff_new (initial max : Z) : FibBackoff := mkBackoff initial 1 1 max (f64_lit 1 2).

Definition on_success (b : FibBackoff) : FibBackoff :=
  let inc := fib_b b in
  let w := Z.min (u64_saturating_add (window b) inc) (max b) in
  let next := u64_saturating_add (fib_a b) (fib_b b) in
  mkBackoff w (fib_b b) next (max b) (md_factor b).

Definition on_loss (b : FibBackoff) : FibBackoff :=
  mkBackoff (f64_as_usize (f64_mul (f64_of_usize (window b)) (md_factor b))) 1 1 (max b) (md_factor b).

Definition set_md (b : FibBackoff) (f : f64) : FibBackoff :=
  mkBackoff (window b) (fib_a b) (fib_b b) (max b) (f64_clamp f (f64_lit 1 100) (f64_of_usize 1)).

Definition on_timeout (b : FibBackoff) (initial : Z) : FibBackoff :=
  mkBackoff initial 1 1 (max b) (md_factor b).

(** The unit test of the source, and a loss. *)
Example gentler_than_exponential :
  let b := Nat.iter 10 on_success (FibBackoff_new 10 1000000) in
  window b = 241 ∧ window (on_loss b) = 120.
Proof. vm_compute. split; reflexivity. Qed.

(** ** [bbr.rs] *)

Inductive Phase : Type := Startup | Drain | ProbeBw | ProbeRtt.
#[global] Instance Phase_eq_dec : EqDecision Phase.
Proof. solve_decision. Defined.

Record BbrModel : Type := mkBbr {
  phase : Phase;
  bw : f64;
  rtprop : f64;
  pacing_rate : f64;
  cycle_idx : Z;
  rtprop_stamp : Z;
  inflight : f64
}.

Definition f64_zero : f64 := f64_of_usize 0.
Definition f64_infinity : f64 := S754_infinity false.
Definition GAINS : list f64 :=
  [f64_of_usize 1; f64_lit 3 4; f64_of_usize 1; f64_of_usize 1; f64_of_usize 1; f64_lit 3 4; f64_of_usize 1; f64_of_usize 1].

(** [f64::max]: a NaN argument is ignored. *)
Definition f64_max (x y : f64) : f64 :=
  match SFcompare x y with
  | Some Lt => y
  | Some _ => x
  | None => if f64_is_nan x then y else x
  end.

Definition BbrModel_new : BbrModel := mkBbr Startup f64_zero f64_infinity f64_zero 0 0 f64_zero.

Definition bdp (m : BbrModel) : f64 := f64_mul (bw m) (rtprop m).

Section bbr.
Context (checks : bool) {E : Type}.

(** The phase after a sample, and the position in the gain cycle. *)
Definition next_phase (m : BbrModel) (rate : f64) (now : Z) : outcome E (Phase * Z) :=
  match phase m with
  | Startup =>
      Ok (if f64_lt f64_zero (bw m) && f64_lt rate (f64_mul (bw m) (f64_lit 4 5)) then Drain else Startup, cycle_idx m)
  | Drain => Ok (if f64_le (inflight m) (bdp m) then ProbeBw else Drain, cycle_idx m)
  | ProbeBw =>
      let c := (cycle_idx m + 1) mod zlen GAINS in
      let? age := u64_arith checks (now - rtprop_stamp m) in
      Ok (if 10000 <? age then ProbeRtt else ProbeBw, c)
  | ProbeRtt =>
      let? age := u64_arith checks (now - rtprop_stamp m) in
      Ok (if 2000 <? age then ProbeBw else ProbeRtt, cycle_idx m)
  end.

Definition gain_of (p : Phase) (c : Z) : outcome E f64 :=
  match p with
  | Startup => Ok (f64_of_usize 2)
  | Drain => Ok (f64_lit 1 2)
  | ProbeBw => index GAINS c
  | ProbeRtt => Ok (f64_lit 1 2)
  end.

Definition on_sample (m : BbrModel) (delivered : Z) (interval rtt : f64) (now : Z) : outcome E BbrModel :=
  if f64_le interval f64_zero then Ok m
  else
    let rate := f64_div (f64_of_usize delivered) interval in
    let bw' := f64_max (bw m) rate in
    let '(rtprop', stamp') :=
      if f64_lt f64_zero rtt && f64_lt rtt (rtprop m) then (rtt, now) else (rtprop m, rtprop_stamp m) in
    let m1 := mkBbr (phase m) bw' rtprop' (pacing_rate m) (cycle_idx m) stamp' (inflight m) in
    let? pc := next_phase m1 rate now in
    let? gain := gain_of pc.1 pc.2 in
    Ok (mkBbr pc.1 bw' rtprop' (f64_mul bw' gain) pc.2 stamp' (f64_mul (bdp m1) gain)).
End bbr.

(** ** The growth of the window *)

(** Where the controller is after [k] successes in a row. *)
Lemma backoff_run k w0 mx md :
  0 ≤ w0 ≤ mx → mx ≤ u64_max →
  let b := Nat.iter k on_success (mkBackoff w0 1 1 mx md) in
  window b = Z.min mx (w0 + fib (S k) - 2) ∧ fib_b b = Z.min u64_max (fib k) ∧
  fib_a b = Z.min u64_max (match k with O => 1 | S j => fib j end) ∧ max b = mx ∧ md_factor b = md.
Proof.
  intros Hw Hm. assert (1 ≤ u64_max) by done. assert (fib 0 = 1 ∧ fib 1 = 2) as [F0 F1] by done.
  induction k as [|k (IHw & IHb & IHa & IHm & IHf)]; cbn zeta.
  { cbn [Nat.iter nat_rect window fib_b fib_a max md_factor]. rewrite F0, F1. split_and!; [lia..|done|done]. }
  change (Nat.iter (S k) on_success ?x) with (on_success (Nat.iter k on_success x)).
  set (b := Nat.iter k _ _) in *.
  unfold on_success, u64_saturating_add. cbn [window fib_b fib_a max md_factor].
  rewrite IHw, IHb, IHa, IHm, IHf. rewrite (fib_SS k).
  assert (2 ≤ fib (S k)) by (pose proof (fib_mono_le 1 (S k) (le_n_S _ _ (Nat.le_0_l k))); lia).
  pose proof (fib_mono k). split_and!; [lia| |lia|done|done].
  destruct k as [|k]; [rewrite F0, F1; lia|]. rewrite (fib_SS k). pose proof (fib_mono k). lia.
Qed.

(** Fibonacci growth.  From a fresh controller, a loss or a timeout, [k]
    successes in a row grow the window by the first [k] of 1, 2, 3, 5, ..., that
    is by [fib (k + 1) - 2], up to the maximum and without overflow at any
    length of the run. *)
Theorem backoff_growth k initial mx b :
  0 ≤ initial ≤ mx → mx ≤ u64_max → 0 ≤ window (on_loss b) ≤ max b → max b ≤ u64_max → 0 ≤ initial ≤ max b →
  window (Nat.iter k on_success (FibBackoff_new initial mx)) = Z.min mx (initial + fib (S k) - 2) ∧
  window (Nat.iter k on_success (on_loss b)) = Z.min (max b) (window (on_loss b) + fib (S k) - 2) ∧
  window (Nat.iter k on_success (on_timeout b initial)) = Z.min (max b) (initial + fib (S k) - 2).
Proof. intros. split_and!; by apply backoff_run. Qed.

(** ** Orders on [f64] *)

(** A number's place in the order, lexicographically. *)
Definition f64_key (x : f64) : Z * Z * Z :=
  match x with
  | S754_infinity s => (if s then -2 else 2, 0, 0)
  | S754_finite true m e => (-1, - e, - Zpos m)
  | S754_finite false m e => (1, e, Zpos m)
  | _ => (0, 0, 0)
  end.

Definition lex_le (a b : Z * Z * Z) : Prop :=
  a.1.1 < b.1.1 ∨ a.1.1 = b.1.1 ∧ (a.1.2 < b.1.2 ∨ a.1.2 = b.1.2 ∧ a.2 ≤ b.2).

Lemma f64_le_key x y : f64_le x y = true ↔ f64_is_nan x = false ∧ f64_is_nan y = false ∧ lex_le (f64_key x) (f64_key y).
Proof.
  unfold f64_le, SFleb, lex_le.
  destruct x as [[]|[]| |[] m e], y as [[]|[]| |[] m' e']; cbn; try (split; [done|lia]); try (split; [lia|done]);
    try (split; [intros _; split_and!; [done..|lia]|done]).
  - change (Pos.compare_cont Eq m m') with (Pos.compare m m'). destruct (Z.compare_spec e e'); cbn.
    + destruct (Pos.compare_spec m m'); cbn; split; intros; [split_and!; [done..|lia]|done|lia|lia|split_and!; [done..|lia]|done].
    + split; [done|lia].
    + split; [intros _; split_and!; [done..|lia]|done].
  - change (Pos.compare_cont Eq m m') with (Pos.compare m m'). destruct (Z.compare_spec e e'); cbn.
    + destruct (Pos.compare_spec m m'); cbn; split; intros; [split_and!; [done..|lia]|done|split_and!; [done..|lia]|done|lia|lia].
    + split; [intros _; split_and!; [done..|lia]|done].
    + split; [done|lia].
Qed.

Lemma f64_le_trans x y z : f64_le x y = true → f64_le y z = true → f64_le x z = true.
Proof. rewrite !f64_le_key. unfold lex_le. intros (Hx & _ & H1) (_ & Hz & H2). split_and!; [done|done|lia]. Qed.

Lemma f64_le_refl x : f64_is_nan x = false → f64_le x x = true.
Proof. intros Hx. apply f64_not_lt; [done..|apply f64_lt_irrefl]. Qed.

Lemma f64_lt_le x y :
  f64_lt x y = true → f64_le x y = true ∧ f64_is_nan x = false ∧ f64_is_nan y = false.
Proof.
  intros H. assert (f64_le x y = true) as Hle.
  { unfold f64_lt, f64_le, SFltb, SFleb in *. by destruct (SFcompare x y) as [[]|]. }
  apply f64_le_key in Hle as Hk. naive_solver.
Qed.

(** The larger of two numbers; a NaN sample leaves the estimate alone. *)
Lemma f64_max_spec x y :
  f64_is_nan x = false →
  f64_is_nan (f64_max x y) = false ∧ f64_le x (f64_max x y) = true ∧
  (f64_is_nan y = false → f64_le y (f64_max x y) = true).
Proof.
  intros Hx. unfold f64_max. destruct (SFcompare x y) as [[]|] eqn:E.
  - assert (f64_lt x y = false) as Hlt by (unfold f64_lt, SFltb; by rewrite E).
    split_and!; [done|by apply f64_le_refl|]. intros Hy. by apply f64_not_lt.
  - assert (f64_lt x y = true) as Hlt by (unfold f64_lt, SFltb; by rewrite E).
    apply f64_lt_le in Hlt as (Hle & _ & Hy). split_and!; [done|done|]. intros _. by apply f64_le_refl.
  - assert (f64_lt x y = false) as Hlt by (unfold f64_lt, SFltb; by rewrite E).
    split_and!; [done|by apply f64_le_refl|]. intros Hy. by apply f64_not_lt.
  - rewrite Hx. split_and!; [done|by apply f64_le_refl|]. intros Hy.
    apply f64_compare_nan in E as [E|E]; congruence.
Qed.

(** ** The estimates *)

Record Sample : Type := mkSample { sm_delivered : Z; sm_interval : f64; sm_rtt : f64; sm_now : Z }.

(** The samples [on_sample] does not discard. *)
Definition used (s : Sample) : Prop := f64_le (sm_interval s) f64_zero = false.
Definition rate_of (s : Sample) : f64 := f64_div (f64_of_usize (sm_delivered s)) (sm_interval s).

Fixpoint bbr_run (checks : bool) (m : BbrModel) (samples : list Sample) : outcome unit BbrModel :=
  match samples with
  | [] => Ok m
  | s :: samples =>
      let? m := on_sample checks m (sm_delivered s) (sm_interval s) (sm_rtt s) (sm_now s) in
      bbr_run checks m samples
  end.

Record bbr_ok (seen : list Sample) (clock : Z) (m : BbrModel) : Prop := {
  bo_bw : f64_is_nan (bw m) = false;
  bo_rtt : f64_is_nan (rtprop m) = false;
  bo_cycle : 0 ≤ cycle_idx m < 8;
  bo_stamp : 0 ≤ rtprop_stamp m ≤ clock;
  bo_max : ∀ s, s ∈ seen → used s → f64_is_nan (rate_of s) = false → f64_le (rate_of s) (bw m) = true;
  bo_min : ∀ s, s ∈ seen → used s → f64_lt f64_zero (sm_rtt s) = true → f64_le (rtprop m) (sm_rtt s) = true
}.

Lemma next_phase_ok checks m rate now :
  0 ≤ cycle_idx m < 8 → 0 ≤ now - rtprop_stamp m ≤ u64_max →
  ∃ p c, next_phase checks (E:=unit) m rate now = Ok (p, c) ∧ 0 ≤ c < 8 ∧ ∃ g, gain_of (E:=unit) p c = Ok g.
Proof.
  intros Hc Hn. assert (∀ c, 0 ≤ c < 8 → ∀ p, ∃ g, gain_of (E:=unit) p c = Ok g) as Hg.
  { intros c Hc' []; cbn; eauto. destruct (index_ok (E:=unit) GAINS c) as (g & -> & _); [done|eauto]. }
  unfold next_phase. destruct (phase m).
  - eexists _, _. split; [done|]. auto.
  - eexists _, _. split; [done|]. auto.
  - rewrite u64_arith_ok by done. cbn [obind]. eexists _, _. split; [done|].
    assert (0 ≤ (cycle_idx m + 1) mod zlen GAINS < 8) as Hm by (by apply Z.mod_pos_bound). auto.
  - rewrite u64_arith_ok by done. cbn [obind]. eexists _, _. split; [done|]. auto.
Qed.

Lemma on_sample_ok checks seen clock m s :
  bbr_ok seen clock m → clock ≤ sm_now s ≤ u64_max →
  ∃ m', on_sample checks (E:=unit) m (sm_delivered s) (sm_interval s) (sm_rtt s) (sm_now s) = Ok m' ∧
    bbr_ok (seen ++ [s]) (sm_now s) m'.
Proof.
  intros [Hb Hr Hc Hs Hmax Hmin] Hn. unfold on_sample. destruct (f64_le (sm_interval s) f64_zero) eqn:Hi.
  { exists m. split; [done|]. split; [done|done|done|lia|..]; intros s' [Hin| ->%list_elem_of_singleton]%elem_of_app; auto;
      intros Hu; unfold used in Hu; congruence. }
  fold (rate_of s). destruct (f64_max_spec (bw m) (rate_of s) Hb) as (Hnan & Hle & Hrate).
  set (nr := if f64_lt f64_zero (sm_rtt s) && f64_lt (sm_rtt s) (rtprop m)
             then (sm_rtt s, sm_now s) else (rtprop m, rtprop_stamp m)).
  assert (f64_is_nan nr.1 = false ∧ 0 ≤ nr.2 ≤ sm_now s ∧ f64_le nr.1 (rtprop m) = true ∧
          (f64_lt f64_zero (sm_rtt s) = true → f64_le nr.1 (sm_rtt s) = true)) as (N1 & N2 & N3 & N4).
  { unfold nr. destruct (f64_lt f64_zero (sm_rtt s)) eqn:H0; cbn [andb].
    - apply f64_lt_le in H0 as (_ & _ & Hnr). destruct (f64_lt (sm_rtt s) (rtprop m)) eqn:H1; cbn [fst snd].
      + apply f64_lt_le in H1 as (H1 & _ & _). split_and!; [done|lia|lia|done|intros _; by apply f64_le_refl].
      + split_and!; [done|lia|lia|by apply f64_le_refl|intros _; by apply f64_not_lt].
    - cbn [fst snd]. split_and!; [done|lia|lia|by apply f64_le_refl|done]. }
  destruct nr as [rt stamp]. cbn [fst snd] in *. set (m1 := mkBbr _ _ _ _ _ _ _).
  destruct (next_phase_ok checks m1 (rate_of s) (sm_now s)) as (p & c & -> & Hc' & g & Hg); [done|cbn; lia|].
  cbn [obind fst snd]. rewrite Hg. cbn [obind]. eexists; split; [done|].
  split; cbn [bw rtprop cycle_idx rtprop_stamp]; [done..| |].
  - intros s' [Hin| ->%list_elem_of_singleton]%elem_of_app Hu Hnn; [|auto]. eapply f64_le_trans; [|exact Hle]. auto.
  - intros s' [Hin| ->%list_elem_of_singleton]%elem_of_app Hu Hnn; [|auto]. eapply f64_le_trans; [exact N3|]. auto.
Qed.

(** The clock of a list of samples does not go back. *)
Fixpoint monotone (clock : Z) (samples : list Sample) : Prop :=
  match samples with
  | [] => True
  | s :: samples => clock ≤ sm_now s ≤ u64_max ∧ monotone (sm_now s) samples
  end.

Lemma bbr_run_ok checks samples : ∀ seen clock m,
  bbr_ok seen clock m → monotone clock samples →
  ∃ m' clock', bbr_run checks m samples = Ok m' ∧ bbr_ok (seen ++ samples) clock' m'.
Proof.
  induction samples as [|s samples IH]; intros seen clock m Hm Hmono; cbn [bbr_run].
  { exists m, clock. by rewrite app_nil_r. }
  destruct Hmono as [Hn Hmono]. destruct (on_sample_ok checks seen clock m s Hm Hn) as (m1 & -> & Hm1). cbn [obind].
  destruct (IH _ _ _ Hm1 Hmono) as (m' & c' & -> & Hm'). exists m', c'. split; [done|]. by rewrite <-app_assoc in Hm'.
Qed.

(** The BBR estimates are filters.  Fed any samples under a clock that does
    not go back, the model never panics, its gain index stays in the table, its
    bandwidth is at least the rate of every sample that counted, and its
    propagation delay at most every positive round trip of those samples. *)
Theorem bbr_filters checks samples :
  monotone 0 samples →
  ∃ m, bbr_run checks BbrModel_new samples = Ok m ∧ 0 ≤ cycle_idx m < 8 ∧
    (∀ s, s ∈ samples → used s → f64_is_nan (rate_of s) = false → f64_le (rate_of s) (bw m) = true) ∧
    (∀ s, s ∈ samples → used s → f64_lt f64_zero (sm_rtt s) = true → f64_le (rtprop m) (sm_rtt s) = true).
Proof.
  intros Hmono. destruct (bbr_run_ok checks samples [] 0 BbrModel_new) as (m & c & E & Hm); [|done|].
  - split; cbn; [done..|set_solver|set_solver].
  - exists m. split; [exact E|]. destruct Hm. auto.
Qed.

(** Once the delay estimate is older than ten seconds and no sample improves
    it, the model changes phase at every sample: nothing refreshes the stamp. *)
Lemma probe_alternates checks m delivered interval rtt now :
  f64_le interval f64_zero = false → f64_lt rtt (rtprop m) = false → 0 ≤ cycle_idx m < 8 →
  10000 < now - rtprop_stamp m ≤ u64_max → phase m = ProbeBw ∨ phase m = ProbeRtt →
  ∃ m', on_sample checks (E:=unit) m delivered interval rtt now = Ok m' ∧ rtprop_stamp m' = rtprop_stamp m ∧
    phase m' = if decide (phase m = ProbeBw) then ProbeRtt else ProbeBw.
Proof.
  intros Hi Hr Hc Hn Hp. unfold on_sample. rewrite Hi, Hr, andb_false_r. set (m1 := mkBbr _ _ _ _ _ _ _).
  destruct (next_phase_ok checks m1 (f64_div (f64_of_usize delivered) interval) now) as (p & c & E & _ & g & Hg); [done|cbn; lia|].
  rewrite E. cbn [obind fst snd]. rewrite Hg. cbn [obind]. eexists; split; [done|]. cbn [phase rtprop_stamp]. split; [done|].
  unfold next_phase in E. cbn [m1 phase rtprop_stamp cycle_idx] in E.
  destruct Hp as [Hp|Hp]; rewrite Hp in *; rewrite u64_arith_ok in E by lia; cbn [obind] in E;
    rewrite (proj2 (Z.ltb_lt _ _)) in E by lia; injection E as <- _; done.
Qed.

(** ** Witnesses *)

Definition samples1 : list Sample :=
  [mkSample 1000 (f64_of_usize 1) (f64_lit 1 20) 100; mkSample 500 (f64_of_usize 1) (f64_lit 1 10) 200;
   mkSample 700 f64_zero (f64_lit 1 10) 200].

Lemma bbr_filters_witness :
  ∃ m, bbr_run true BbrModel_new samples1 = Ok m ∧ 0 ≤ cycle_idx m < 8 ∧
    (∀ s, s ∈ samples1 → used s → f64_is_nan (rate_of s) = false → f64_le (rate_of s) (bw m) = true) ∧
    (∀ s, s ∈ samples1 → used s → f64_lt f64_zero (sm_rtt s) = true → f64_le (rtprop m) (sm_rtt s) = true).
Proof. apply (bbr_filters true samples1). cbn. unfold u64_max. lia. Defined.

Definition backoff1 : FibBackoff := mkBackoff 241 89 144 1000000 (f64_lit 1 2).

Lemma backoff_growth_witness :
  window (Nat.iter 4 on_success (on_loss backoff1)) = Z.min 1000000 (window (on_loss backoff1) + fib 5 - 2).
Proof. apply (backoff_growth 4 10 1000000 backoff1); vm_compute; repeat split; discriminate. Defined.
