(* ===== verification/Examples.v ===== *)
(** * Examples: the protocol theorems at concrete inputs

    A host with two sessions, a receiver and a small bulk transfer, with the
    stand-in hash, compressor and logarithm of the component files and the
    cuckoo filter as the dedup filter. *)

From S2P Require Import Prelude Interfaces F64 Block Merkle Filter Frame Store Compress FountainSig.
From S2P Require Import Receiver GfVec Gauss Fountain FountainCorrect Encoder Bulk Shim Protocol.
From S2P Require Import ColdStart Pruner Prune PruneSched.
Import Toy ToyZstd EncoderWitness.

Module Examples.
#[local] Instance codec : Codec := cached_codec toy_compressor.
#[local] Instance codec_laws : CodecLaws := cached_codec_laws toy_compressor eq_refl.
#[local] Instance code : FountainCode := fountain_code Ssse3.

(** Two blocks, one compressible. *)
Definition b1 : Block := mkBlock Message 1 (replicate 40 Byte.x61).
Definition b2 : Block := mkBlock ToolResult 2 [Byte.x01; Byte.x02; Byte.x03].

Lemma b1_ok : block_wf b1 ∧ compressible b1.
Proof. split; [by vm_compute|]. eexists. vm_compute. reflexivity. Qed.
Lemma b2_ok : block_wf b2 ∧ compressible b2.
Proof. split; [by vm_compute|]. eexists. vm_compute. reflexivity. Qed.

(** Turns of two sessions, interleaved; the second session repeats a block. *)
Definition sts : list (Z * list Block) := [(1, [b1; b2]); (2, [b2]); (1, [b2])].

Lemma sts_ok : Forall (λ st, Forall block_wf st.2 ∧ Forall compressible st.2) sts.
Proof.
  destruct b1_ok, b2_ok.
  repeat first [assumption|apply list.Forall_nil_2|apply list.Forall_cons_2|split].
Qed.


(** ** The receiver *)

Definition r0 : Receiver := Receiver_new new.
Lemma new_ok : content_ok new. Proof. done. Qed.

(** The first turn of session 1, and what the receiver makes of it. *)
Definition frame1 : AppendFrame :=
  (ingest (Shim_new new (with_capacity 16) 19) 1 [b1; b2]).2.
Definition root1 : MerkleRoot := root_over ROOT_ZERO (block_id <$> [b1; b2]).
Definition r1 : Receiver := (handle_append r0 frame1).1.

Lemma append1 : handle_append r0 frame1 = (r1, Ok (mkAck 1 root1)).
Proof.
  assert ((handle_append r0 frame1).2 = Ok (mkAck 1 root1)) as H by (vm_compute; reflexivity).
  unfold r1. destruct (handle_append r0 frame1) as [r res]. cbn [snd fst] in *. by rewrite H.
Qed.

Lemma receiver_invariant_witness :
  receiver_inv (run_frames (Receiver_new new) [FAppend frame1; FAppend frame1]).
Proof. apply (receiver_invariant new [FAppend frame1; FAppend frame1] new_ok). Defined.

Lemma ack_is_complete_witness :
  root1 = session_root (r_store r1) 1 ∧ complete r1 1.
Proof.
  apply (ack_is_complete new [] (FAppend frame1) r1 (mkAck 1 root1) new_ok).
  change (run_frames (Receiver_new new) []) with r0. cbn [handle_frame]. rewrite append1. reflexivity.
Defined.

Lemma append_atomic_witness :
  match handle_append r0 frame1 with
  | (_, Panic) => False
  | (r', Err _) => r_store r' = r_store r0 ∧ ∀ sid, state_of r' sid = state_of r0 sid
  | (r', Ok ack) => ∃ rs, resolve (ap_blocks frame1) = Ok rs ∧
      ack = mkAck (ap_session_id frame1) (root_over (ap_base_root frame1) (resolved_id <$> rs)) ∧
      (extends (r_store r0) (r_store r') (ap_session_id frame1) (resolved_id <$> rs) ∧
         ap_base_root frame1 = session_root (r_store r0) (ap_session_id frame1)
       ∨ r_store r' = r_store r0 ∧
         ack_root ack = session_root (r_store r0) (ap_session_id frame1))
  end.
Proof. pose proof (append_atomic r0 frame1) as H. exact H. Defined.

Lemma append_retry_witness :
  ∃ r2, handle_append r1 frame1 = (r2, Ok (mkAck 1 root1)) ∧ r_store r2 = r_store r1.
Proof.
  apply (append_retry r0 frame1 r1 (mkAck 1 root1) append1). by vm_compute.
Defined.

(** ** A cold start *)

(** A client with its own store, and the coded form of its first block. *)
Definition client : ContentStore := (insert_with_id new 7 b1 (block_id b1)).1.
Definition sh : SessionShim := mkShim 7 [block_id b1] (append_root ROOT_ZERO (block_id b1)) ROOT_ZERO 0 19 4 32.
Definition resync : ResyncFrame := resync_frame sh.
Definition z1 : bytes :=
  match codec_compress 19 (canonical_bytes b1) with Ok z => z | _ => [] end.
Definition bulk : BulkFrame := mkBulk 7 0 1 (zlen (record z1)) [systematic_wire 0 (record z1)].

Lemma cold_start_log_witness :
  let r' := run_frames (handle_resync r0 resync).1 [FAppend frame1; FBulk bulk] in
  ∃ suffix, session_ids (r_store r') 7 = [block_id b1] ++ suffix ∧
    session_root (r_store r') 7 = root_over (s_root sh) suffix ∧
    (pending (state_of r' 7) ≠ ∅ → suffix = []).
Proof.
  apply (cold_start_log r0 resync [FAppend frame1; FBulk bulk]).
  repeat constructor; intros H; exact H.
Defined.

Definition r2 : Receiver := (handle_resync r0 resync).1.
Definition r3 : Receiver := (handle_bulk r2 bulk).1.

Lemma bulk_completes : handle_bulk r2 bulk = (r3, Ok (Some (s_root sh))).
Proof.
  assert ((handle_bulk r2 bulk).2 = Ok (Some (s_root sh))) as H by (vm_compute; reflexivity).
  unfold r3. destruct (handle_bulk r2 bulk) as [r res]. cbn [snd fst] in *. by rewrite H.
Qed.

Lemma bulk_ack_once_witness :
  acked (state_of r3 7) = true ∧
  (handle_bulk (run_frames r3 [FAppend frame1]) bulk).2 ≠ Ok (Some (s_root sh)).
Proof.
  split; [vm_compute; reflexivity|].
  apply (bulk_ack_once r2 bulk r3 (s_root sh) [FAppend frame1] bulk bulk_completes).
  - repeat constructor; intros H; exact H.
  - reflexivity.
Defined.

Lemma client_ok : content_ok client.
Proof.
  unfold content_ok, client, insert_with_id. rewrite insert_blocks.
  apply put_block_content; [apply new_ok|done|by vm_compute].
Qed.

Lemma client_fits :
  Forall (λ id, ∃ b, blocks client !! id = Some b ∧ fits_record 19 (65535 * 32) b) (s_ids sh).
Proof.
  repeat constructor. exists b1. split; [vm_compute; reflexivity|].
  exists z1. split; [vm_compute; reflexivity|by vm_compute].
Qed.


(** ** Pruning *)

Definition block (n : Z) : Block := mkBlock Message n (replicate 40 Byte.x61).
(** A receiver that holds the first two, and all three, blocks of session 5. *)
Definition rp (n : nat) : Receiver :=
  Receiver_new (foldl (λ s b, (insert_with_id s 5 b (block_id b)).1) new (take n [block 1; block 2; block 3])).

Lemma rp_ok n : content_ok (r_store (rp n)).
Proof.
  unfold rp. cbn [r_store Receiver_new].
  assert (∀ l s, content_ok s → Forall block_wf l →
    content_ok (foldl (λ s b, (insert_with_id s 5 b (block_id b)).1) s l)) as H.
  { induction l as [|b l IH]; intros s Hs Hw; [done|]. apply Forall_cons_iff in Hw as [Hb Hl]. apply IH; [|done].
    unfold content_ok, insert_with_id. rewrite insert_blocks. by apply put_block_content. }
  apply H; [apply new_ok|]. apply Forall_take. repeat constructor; by vm_compute.
Qed.

Lemma rp_distinct : NoDup (session_ids (r_store (rp 3)) 5).
Proof. apply (bool_decide_unpack _). vm_compute. exact I. Qed.


#[local] Instance toy_powf : Powf := λ x _, x.
#[local] Instance importance : PrunePolicy := importance_prune ImportancePolicy_default.

Lemma importance_window_witness :
  ∃ w, importance_prune ImportancePolicy_default 5 [block 1; block 2; block 3] 20 = Ok w ∧
    w_session_id w = 5 ∧ w_blocks w `sublist_of` [block 1; block 2; block 3] ∧
    w_approx_tokens w = tokens_of (w_blocks w) ∧ ([block 1; block 2; block 3] ≠ [] → w_blocks w ≠ []) ∧
    (w_approx_tokens w ≤ 20 ∨ (length (w_blocks w) ≤ 1)%nat).
Proof. apply (importance_window ImportancePolicy_default 5). repeat constructor. Defined.

Lemma run_all_drains_witness :
  run_all (schedule_jobs PruneScheduler_new [mkJob 5 10; mkJob 6 10]) (rp 1) =
    Ok (PruneScheduler_new, [mkWindow 5 [block 1] 10; mkWindow 6 [] 0]) ∧
  pp_run_all (pp_schedule_jobs PriorityPruneScheduler_new [mkJob 5 10; mkJob 6 10]) (rp 1) =
    Ok (mkPrio [] 2, reverse [mkWindow 5 [block 1] 10; mkWindow 6 [] 0]).
Proof.
  apply (run_all_drains (rp 1) [mkJob 5 10; mkJob 6 10]). repeat constructor; vm_compute; reflexivity.
Defined.

(** The fill stops once the budget is reached, before later system blocks: of
    two system blocks that fill it one each, the second is dropped. *)
Theorem system_block_dropped :
  let s1 := mkBlock System 1 (replicate 40 Byte.x61) in
  let s2 := mkBlock System 2 (replicate 40 Byte.x62) in
  importance_prune ImportancePolicy_default 5 [s1; s2] 10 = Ok (mkWindow 5 [s1] 10).
Proof. vm_compute. reflexivity. Qed.

(** The recency factor falls with the position: of equal blocks the oldest is
    kept. *)
Theorem oldest_preferred :
  importance_prune ImportancePolicy_default 5 [block 1; block 2; block 3] 10 = Ok (mkWindow 5 [block 1] 10).
Proof. vm_compute. reflexivity. Qed.

(** ** Corners of the protocol *)

(** Two turns without an ACK in between: the second frame carries only its own
    turn's blocks but still the last acknowledged root as its base, so the
    receiver, which has applied the first, refuses it. *)
Theorem second_turn_before_ack_refused :
  let g0 := Shim_new new (with_capacity 16) 19 in
  let '(g1, f1) := ingest g0 1 [b1] in
  let '(g2, f2) := ingest g1 1 [b2] in
  let '(r, res1) := handle_append r0 f1 in
  (∃ ack, res1 = Ok ack) ∧
  (handle_append r f2).2 =
    Err (BaseRootMismatch 1 ROOT_ZERO (append_root ROOT_ZERO (block_id b1))).
Proof. vm_compute. split; [eexists; reflexivity|reflexivity]. Qed.

(** A half-received generation survives a RESYNC: the next transfer's symbols
    are fed to the old decoder, with the old [k], and the generation that
    arrives in full is not decoded; a receiver without the leftover decodes it. *)
Theorem stale_decoder_stalls_resync :
  let old := mkBulk 7 0 2 (zlen (record z1)) [systematic_wire 0 (record z1)] in
  let r := (handle_bulk (handle_resync r0 resync).1 old).1 in
  let r := (handle_resync r resync).1 in
  (handle_bulk r bulk).2 = Ok None ∧
  bool_decide (pending (state_of (handle_bulk r bulk).1 7) = {[block_id b1]}) = true ∧
  (handle_bulk r2 bulk).2 = Ok (Some (s_root sh)).
Proof. vm_compute. split_and!; reflexivity. Qed.
End Examples.

(** ** When compression fails *)
Module CompressionFailure.
(** A zstd whose encoder always reports an error. *)
#[local] Instance broken_zstd : Zstd := {|
  zstd_cctx _ _ := None;
  zstd_dctx _ := None;
  zstd_compress _ _ _ := inl "no memory"%string;
  zstd_decompress _ _ _ := inl "not a frame"%string;
  get_frame_content_size _ := None
|}.
#[local] Instance codec : Codec := cached_codec Compressor_default.
#[local] Instance code : FountainCode := fountain_code Scalar.

(** When the compressor fails, [ingest_turn] sends the canonical bytes without
    the marker byte that decompression expects; the receiver reads the kind
    byte as the marker and refuses the frame, while the shim has already
    advanced its log. *)
Theorem uncompressed_fallback_refused :
  let b := mkBlock ToolCall 1 (replicate 40 Byte.x61) in
  let '(g, f) := ingest (Shim_new new (with_capacity 16) 19) 1 [b] in
  s_ids (session_entry g 1) = [block_id b] ∧
  ∃ msg, (handle_append (Receiver_new new) f).2 = Err (RCompress msg).
Proof. vm_compute. split; [reflexivity|eexists; reflexivity]. Qed.
End CompressionFailure.
