(* ===== verification/ChatExamples.v ===== *)
(** * ChatExamples: the sidecar theorems at concrete inputs

    A chat session, a sidecar and an upstream, with the stand-in hash,
    compressor and JSON of the component files.  The last section runs two
    requests interleaved. *)

From stdpp Require Import pretty.
From S2P Require Import Prelude Interfaces F64 Block Merkle Filter Frame Wal Store Recovery Compress FountainSig.
From S2P Require Import Receiver GfVec Gauss Fountain FountainCorrect Encoder Bulk Shim Protocol ColdStart.
From S2P Require Import Web Sidecar SidecarCorrect SidecarServe ChatClient Synchronize SyncLive Lifecycle.
Import Toy ToyZstd EncoderWitness ToyWeb.

Module ChatExamples.
#[local] Instance codec : Codec := cached_codec toy_compressor.
#[local] Instance codec_laws : CodecLaws := cached_codec_laws toy_compressor eq_refl.
#[local] Instance code : FountainCode := fountain_code Ssse3.

Lemma codec_total b : block_wf b → compressible b.
Proof.
  intros [_ Hp]. unfold compressible. cbn [codec_compress codec cached_codec]. rewrite compress_fresh.
  destruct (zlen (canonical_bytes b) <? _); [by eexists|]. cbn [zstd_cctx toy_zstd zstd_compress].
  assert (MAX_BLOCK_PAYLOAD_BYTES < 2 ^ 64 - 17) by done. pose proof (zlen_nonneg (payload b)).
  rewrite zlen_canonical_bytes.
  destruct (Z.ltb_spec (17 + zlen (payload b)) (2 ^ 64)); [|lia].
  destruct (Z.ltb_spec 0 (17 + zlen (payload b))); [|lia]. cbn [andb of_result obind].
  destruct (_ <=? _); by eexists.
Qed.

(** Messages and requests. *)
Definition msg (role text : string) : Value :=
  TObj [(ascii "role", ascii role); (ascii "content", ascii text)].
Definition req : Value := TObj [(ascii "model", ascii "m")].
Definition turns : list (list Value * Value) :=
  [([msg "system" "be brief"; msg "user" "hello"], req); ([msg "assistant" "hi"; msg "user" "bye"], req)].

(** The upstream answers every request. *)
Definition send (o : OutRequest) : string + UpResponse := inr (mkUp 200 [("server", ascii "x")] [inr (ascii "ok")]).

Definition key : bytes := ascii "k".
Definition chat0 : ChatSession := ChatSession_new (with_capacity 16) key.
Definition side0 : SidecarState := SidecarState_new (Receiver_new new) (ascii "http://up/") None true.

(** The body of the first turn, and of one with an empty request object. *)
Definition body_of (request : Value) : bytes :=
  match (prepare_ref chat0 [msg "user" "hello"] request).2 with Ok p => pr_body p | _ => [] end.
Definition body1 : bytes := body_of req.
Definition no_members : @Value toy_json := TObj [].
Definition body_empty : bytes := body_of no_members.

Lemma empty_store_ok : content_ok new. Proof. done. Qed.
Lemma side0_inv : sidecar_inv side0. Proof. apply new_inv, empty_store_ok. Qed.

Lemma sent {A B C} (x : A * B * option C) : bool_decide (is_Some x.2) = true → ∃ a b c, x = (a, b, Some c).
Proof. destruct x as [[a b] [c|]]; intros H; [by eexists _, _, _|done]. Qed.

(** ** Serving *)

Lemma sidecar_invariant_witness :
  let st := serve_all send side0 [ChatPost [] body1; Ready; FramePost [] (chat_resync_frame chat0)] in
  receiver_inv (sc_receiver st) ∧
  Z.of_nat (size (entries (sc_cache st))) ≤ PROJECTION_CACHE_SESSIONS ∧
  cache_json_bytes (sc_cache st) = total_bytes (entries (sc_cache st)) ∧
  (cache_json_bytes (sc_cache st) ≤ PROJECTION_CACHE_JSON_BYTES ∨ (size (entries (sc_cache st)) ≤ 1)%nat) ∧
  ∀ sid p, entries (sc_cache st) !! sid = Some p → renders (r_store (sc_receiver st)) sid p.
Proof.
  exact (sidecar_invariant new (ascii "http://up/") None true send
           [ChatPost [] body1; Ready; FramePost [] (chat_resync_frame chat0)] empty_store_ok).
Defined.

Lemma chat1_sent : bool_decide (is_Some (chat_completions send [] body1 side0).2) = true.
Proof. vm_compute. reflexivity. Qed.

Lemma chat_forwards_conversation_witness :
  ∃ st' rsp out, chat_completions send [] body1 side0 = (st', rsp, Some out) ∧
    ∃ request fb frame m inner r,
      ChatEnvelope_decode body1 = Ok (mkEnvelope request fb) ∧
      decode_frame_bytes fb = Ok (FAppend frame) ∧
      as_object request = Some m ∧ to_vec request = inr (ascii "{" ++ inner ++ ascii "}") ∧
      (inner = [] ↔ m = []) ∧
      let sid := ap_session_id frame in
      let store := r_store (sc_receiver st') in
      complete (sc_receiver st') sid ∧
      rsp = Ok r ∧ header_get (rsp_headers r) ACK_ROOT_HEADER = Some (root_hex (session_root store sid)) ∧
      (zlen (session_ids store sid) ≤ usize_max →
       concat (out_body out) = request_text inner store sid ∧
       header_get (out_headers out) "content-length"
         = Some (ascii (show_usize (Z.min (zlen (request_text inner store sid)) usize_max)))).
Proof.
  destruct (sent _ chat1_sent) as (st' & rsp & out & E). exists st', rsp, out. split; [exact E|].
  exact (chat_forwards_conversation side0 send [] body1 st' rsp out side0_inv E).
Defined.

(** A sidecar on an empty log file. *)
Definition disk : ContentStore := set_wal new (mkWal [] 0 []).
Lemma disk_ok : content_ok disk. Proof. done. Qed.
Lemma disk_durable : durable disk.
Proof.
  split; [|by eexists]. intros w [= <-] _. exists []. split; [constructor|]. split; reflexivity.
Qed.
Definition side1 : SidecarState := SidecarState_new (Receiver_new disk) (ascii "http://up/") None true.

Lemma chat1_durable : bool_decide (is_Some (chat_completions send [] body1 (serve_all send side1 [Ready])).2) = true.
Proof. vm_compute. reflexivity. Qed.

Lemma ack_survives_restart_witness :
  ∃ st' rsp out, chat_completions send [] body1 (serve_all send side1 [Ready]) = (st', rsp, Some out) ∧
  ∃ w r frame fb request, wal (r_store (sc_receiver st')) = Some w ∧ w_synced w = zlen (w_log w) ∧
    ChatEnvelope_decode body1 = Ok (mkEnvelope request fb) ∧ decode_frame_bytes fb = Ok (FAppend frame) ∧
    ∀ fs, ∃ s2, with_wal (mkFile (w_log w) false fs) = Ok s2 ∧
      view s2 = view (r_store (sc_receiver st')) ∧
      rsp = Ok r ∧ header_get (rsp_headers r) ACK_ROOT_HEADER
        = Some (root_hex (session_root (r_store (Receiver_new s2)) (ap_session_id frame))) ∧
      pending (state_of (Receiver_new s2) (ap_session_id frame)) = ∅ ∧
      reconstruct (r_store (Receiver_new s2)) (ap_session_id frame)
        = reconstruct (r_store (sc_receiver st')) (ap_session_id frame).
Proof.
  destruct (sent _ chat1_durable) as (st' & rsp & out & E). exists st', rsp, out. split; [exact E|].
  exact (ack_survives_restart disk (ascii "http://up/") None send [Ready] [] body1 st' rsp out disk_ok disk_durable E).
Defined.

(** A sidecar with a token, and a request with a wrong one. *)
Definition side2 : SidecarState := SidecarState_new (Receiver_new new) (ascii "http://up/") (Some (ascii "secret")) true.
Definition wrong : HeaderMap := [(SIDECAR_TOKEN_HEADER, ascii "Secret")].

Lemma token_guards_witness :
  chat_completions send wrong body1 side2 = (side2, Ok (error_response 401 "invalid sidecar token"), None) ∧
  post_frame wrong body1 side2 = (side2, Err (error_response 401 "invalid sidecar token")).
Proof.
  refine (proj2 (token_guards side2 send wrong body1 (ascii "secret") eq_refl) _). vm_compute. discriminate.
Defined.

Lemma empty_sent : bool_decide (is_Some (chat_completions send [] body_empty side0).2) = true.
Proof. vm_compute. reflexivity. Qed.

Definition empty_frame : bytes :=
  match ChatEnvelope_decode body_empty with Ok e => env_frame e | _ => [] end.
Lemma empty_decodes : ChatEnvelope_decode body_empty = Ok (mkEnvelope no_members empty_frame).
Proof. vm_compute. reflexivity. Qed.

Lemma empty_request_malformed_witness :
  ∃ st' rsp out, chat_completions send [] body_empty side0 = (st', rsp, Some out) ∧
    take 2 (concat (out_body out)) = ascii "{,".
Proof.
  destruct (sent _ empty_sent) as (st' & rsp & out & E). exists st', rsp, out. split; [exact E|].
  exact (empty_request_malformed side0 send [] body_empty st' rsp out no_members empty_frame side0_inv E
           empty_decodes eq_refl).
Defined.

(** ** The client *)

Lemma chat0_ok : session_ok chat0.
Proof. split; vm_compute; [split; [discriminate|reflexivity]..|reflexivity]. Qed.

(** A message that is not an object. *)
Definition bad_messages : list (@Value toy_json) := [TStr []].

Lemma prepare_atomic_witness :
  let '(c', res) := prepare_ref chat0 bad_messages req in
  (c' = chat0 ∧ ∃ e, res = Err e) ∨
  (∃ prep append rj, res = Ok prep ∧ c_pending_root c' = Some (pr_expected_root prep) ∧
     pr_expected_root prep = s_root (c_shim c') ∧ to_vec req = inr rj ∧
     zlen (pr_body prep) ≤ MAX_REQUEST_BYTES ∧
     ap_session_id append = s_session_id (c_shim chat0) ∧ ap_base_root append = s_base_root (c_shim chat0) ∧
     decode_frame_bytes (encode_frame (FAppend append)) = Ok (FAppend append) ∧
     ∀ request', metadata_from_slice (REQUEST_OPEN ++ rj ++ ascii "}") = inr request' →
       ChatEnvelope_decode (pr_body prep) = Ok (mkEnvelope request' (encode_frame (FAppend append)))).
Proof.
  destruct (prepare_ref chat0 bad_messages req) as [c' res] eqn:E.
  exact (prepare_atomic chat0 bad_messages req c' res chat0_ok E).
Defined.

Definition run : option (ChatSession * SidecarState * list OutRequest) := chat_turns send [] chat0 side0 turns.
Lemma run_some : bool_decide (is_Some run) = true.
Proof. vm_compute. reflexivity. Qed.

Lemma key_unknown : sessions new !! session_id_from_key key = None.
Proof. apply lookup_empty. Qed.


(** ** Synchronising *)

(** A client whose first turn was lost, against the empty sidecar. *)
Definition chat1 : ChatSession := (prepare_ref chat0 [msg "user" "hello"] req).1.
Definition sync1 : SidecarState * ChatSession * outcome SidecarError unit :=
  synchronize Ssse3 SidecarState (sidecar_exchange []) side0 chat1 20.

Lemma sync1_ok : sync1.2 = Ok tt.
Proof. vm_compute. reflexivity. Qed.

Lemma side0_roots : roots_ok (r_store (sc_receiver side0)).
Proof. intros s log H. change ((∅ : gmap Z SessionLog) !! s = Some log) in H. by apply lookup_empty_Some in H. Qed.

Lemma chat1_wf : frame_wf (FResync (resync_frame (c_shim chat1))).
Proof. apply (bool_decide_unpack _). vm_compute. exact I. Qed.

Lemma synchronize_sound_witness :
  agreed sync1.1.1 chat1 sync1.1.2.
Proof.
  apply (synchronize_sound Ssse3 [] side0 chat1 20 sync1.1.1 sync1.1.2 side0_inv side0_roots chat1_wf).
  fold sync1. rewrite <-sync1_ok. by destruct sync1 as [[st c] r].
Defined.

(** A sidecar with a write-ahead log. *)
Definition logged_side : SidecarState :=
  SidecarState_new (Receiver_new (set_wal new (mkWal [] 0 []))) (ascii "http://up/") None true.

Lemma logged_side_inv : sidecar_inv logged_side. Proof. apply new_inv. done. Qed.

Lemma logged_side_answering : answering Ssse3 [] logged_side.
Proof.
  split; [done| |].
  - intros s log H. change ((∅ : gmap Z SessionLog) !! s = Some log) in H. by apply lookup_empty_Some in H.
  - split; [done|]. intros w Hw. cbn in Hw. by injection Hw as <-.
Qed.

(** The bounds of a transfer, decided. *)
Definition block_okb (c : ChatSession) (kmax : Z) (id : BlockId) : bool :=
  match blocks (h_store (c_host c)) !! id with
  | Some b =>
      (zlen (canonical_bytes b) <=? MAX_RECORD_BYTES) &&
      match codec_compress (s_level (c_shim c)) (canonical_bytes b) with
      | Ok z => 4 + zlen z <=? kmax * s_fountain_symbol_size (c_shim c)
      | _ => false
      end
  | None => false
  end.

Lemma blocks_okb_spec c kmax :
  forallb (block_okb c kmax) (s_ids (c_shim c)) = true →
  Forall (λ id, ∃ b, blocks (h_store (c_host c)) !! id = Some b ∧
    fits_record (s_level (c_shim c)) (kmax * s_fountain_symbol_size (c_shim c)) b ∧
    zlen (canonical_bytes b) ≤ MAX_RECORD_BYTES) (s_ids (c_shim c)).
Proof.
  intros Hall. apply Forall_elem. intros id Hid%list_elem_of_In.
  pose proof (proj1 (forallb_forall _ _) Hall id Hid) as H. unfold block_okb in H.
  destruct (blocks _ !! id) as [b|]; [|done]. exists b. split; [done|].
  apply andb_prop in H as [H1%Z.leb_le H2]. split; [|done]. unfold fits_record.
  destruct (codec_compress _ _) as [z|?|]; [|done..]. apply Z.leb_le in H2. by exists z.
Qed.

Definition content_okb (s : ContentStore) : bool :=
  forallb (λ ib : BlockId * Block, bool_decide (ib.1 = block_id ib.2) && bool_decide (block_wf ib.2)) (map_to_list (blocks s)).

Lemma content_okb_spec s : content_okb s = true → content_ok s.
Proof.
  intros H id b Hb. apply elem_of_map_to_list, list_elem_of_In in Hb.
  pose proof (proj1 (forallb_forall _ _) H _ Hb) as Hc. cbn in Hc.
  apply andb_prop in Hc as [H1%bool_decide_eq_true H2%bool_decide_eq_true]. done.
Qed.

Lemma chat1_transmissible : transmissible chat1 20 64.
Proof.
  split.
  - apply content_okb_spec. vm_compute. reflexivity.
  - by vm_compute.
  - by vm_compute.
  - lia.
  - apply (margin_checked 20 64). vm_compute. reflexivity.
  - exact chat1_wf.
  - by vm_compute.
  - apply blocks_okb_spec. vm_compute. reflexivity.
Qed.

Lemma synchronize_completes_witness :
  ∃ st' c', synchronize Ssse3 SidecarState (sidecar_exchange []) logged_side chat1 20 = (st', c', Ok tt) ∧
    agreed st' chat1 c'.
Proof.
  exact (synchronize_completes Ssse3 Ssse3 [] logged_side chat1 20 64 logged_side_inv logged_side_answering eq_refl chat1_transmissible).
Defined.

(** ** Two lives of a sidecar *)

Definition args0 : Args := mkArgs true (ascii "http://up/") None false.
Definition life1 : outcome StartError (SidecarState * outcome io_error unit) :=
  main args0 (mkFile [] false []) send [ChatPost [] body1; Ready].

Lemma life1_flushed : match life1 with Ok (_, Ok _) => true | _ => false end = true.
Proof. vm_compute. reflexivity. Qed.

Lemma life_ends (x : outcome StartError (SidecarState * outcome io_error unit)) :
  match x with Ok (_, Ok _) => true | _ => false end = true → ∃ st, x = Ok (st, Ok tt).
Proof. destruct x as [[st [[]|?|]]|?|]; try done. by exists st. Qed.

Lemma sidecar_restarts_witness :
  ∃ st w st', life1 = Ok (st, Ok tt) ∧ wal (store_of st) = Some w ∧
    start args0 (mkFile (w_log w) false []) = Ok st' ∧ view (store_of st') = view (store_of st).
Proof.
  destruct (life_ends life1 life1_flushed) as [st Hst].
  destruct (proj2 (sidecar_restarts [] args0 [] DiskFresh) _ _ st Hst) as (w & Hw & _ & Hnext).
  destruct (proj1 (sidecar_restarts (w_log w) args0 [] (DiskStopped [] args0 [] _ _ st w DiskFresh Hst Hw)) eq_refl)
    as (st' & Hs & _).
  exists st, w, st'. exact (conj Hst (conj Hw (conj Hs (Hnext args0 [] st' Hs)))).
Defined.

(** ** Two requests of one session, interleaved *)

Definition reply {A} (d : A) (x : SidecarState * outcome Response A) : A :=
  match x.2 with Ok a => a | _ => d end.
Definition no_prepared : PreparedChatRequest := mkPrepared [] [] 0 0.
Definition prepared (c : ChatSession) (ms : list Value) : ChatSession * PreparedChatRequest :=
  match prepare_ref c ms req with (c, Ok p) => (c, p) | (c, _) => (c, no_prepared) end.

Definition m1 : Value := msg "user" "one".
Definition m2 : Value := msg "user" "two".
Definition x1 : Value := msg "user" "uno".
Definition x2 : Value := msg "user" "dos".

(** Session [key] has posted [m1]; the blocks of [x1; x2] are stored by another
    session.  Client [a] is about to post [m2]; client [b] holds the same
    session key with the log [x1; x2]. *)
Definition first : ChatSession * PreparedChatRequest := prepared chat0 [m1].
Definition other : PreparedChatRequest := (prepared (ChatSession_new (with_capacity 16) (ascii "j")) [x1; x2]).2.
Definition st_a : SidecarState :=
  serve_all send side0 [ChatPost [] (pr_body first.2); ChatPost [] (pr_body other)].
Definition a : ChatSession * PreparedChatRequest :=
  prepared (chat_apply_ack first.1 (pr_expected_root first.2)).1 [m2].
Definition b : ChatSession := (prepared chat0 [x1; x2]).1.
Definition sid : Z := s_session_id (c_shim b).

(** The request of [a], up to its flush; the RESYNC of [b]; the rest of [a]. *)
Definition admitted : Value * AppendFrame :=
  reply (req, mkAppend 0 [] []) (admit_chat [] (pr_body a.2) st_a).
Definition fetched_a := cached_projection sid (ap_base_root admitted.2) st_a.
Definition appended_a := receive_append admitted.2 fetched_a.1.
Definition flushed_a := flush_store sc_sync_wal flush_failed appended_a.1.
Definition resynced_b := post_frame [] (chat_resync_frame b) flushed_a.1.
Definition rendered_a :=
  render_chat sid admitted.1 (ack_root (reply (mkAck 0 []) appended_a)) (reply None fetched_a) resynced_b.1.

End ChatExamples.
